(* ===== verification/_CoqProject ===== *)
-Q . S2P
Prelude.v
Str.v
Ast.v
AstDebug.v
Monad.v
ResponseParser.v
ParserSafety.v
ParserStream.v
ParserLocal.v
ParserBudget.v
ParserTheorems.v
Framing.v
Fuzz.v
ParserRead.v
Grammar.v
GrammarComplete.v
GrammarSound.v
Base64.v
ClientError.v
Flags.v
Wire.v
Credentials.v
Search.v
Capabilities.v
Client.v
ClientFraming.v
ClientReplies.v
ClientStreams.v
ClientOrder.v
ClientCancel.v
ClientWrites.v
Program.v
Ownership.v
Lossy.v
Session.v
SessionTheorems.v
Protocol.v
Secrets.v
Tls.v
Liveness.v
Outcomes.v
Timing.v
ErrorDisplay.v
LoginAndFetch.v
TestKit.v
ParserTests.v
ClientTests.v
SessionTests.v
TlsTests.v
LimitTests.v
