(* ===== verification/Prelude.v ===== *)
(** * A verification library for imap-rs

    imap-rs is an asynchronous IMAP client in Rust. Its parts, from the bottom:

    - [imap-core] parses one server response from the front of a byte buffer
      ([parser.rs]) into borrowed data ([ast.rs]), or says that the response is
      not complete, or that it is malformed ([error.rs]);
    - [imap-client] drives a connection. A dispatcher ([client.rs]) runs a write
      loop and a read loop as tasks; the read loop cuts the byte stream into
      frames and hands each to the command that waits for it, to the stream of
      a command that asked for such frames, or to a broadcast. Typed sessions
      ([session.rs], [idle.rs]) build command lines from validated arguments
      ([wire.rs], [credentials.rs], [flags.rs], [search.rs], [base64.rs]) and
      keep the server's capabilities ([capabilities.rs]); errors carry sanitised
      server text ([error.rs]);
    - [imap-tls] connects: TLS at once, or after a cleartext STARTTLS exchange.

    ** Files

    Shared:
    - [Prelude]: notations, tactics, bytes, machine integers, slices.
    - [Str]: UTF-8, decimal numbers, splitting and joining, as Rust's [core]
      does them. [Lossy]: [String::from_utf8_lossy].

    imap-core:
    - [Ast], [AstDebug]: [ast.rs] and [ParseError].
    - [Monad]: the state of [Parser] (cursor and item budget, over a fixed
      input), its results with panics and endless loops as outcomes, loops with
      fuel, and a weakest-precondition logic.
    - [ResponseParser]: every method of [Parser] under its own name, in
      [Module Parser], and [parse_response].
    - [ParserSafety]: no panic and no endless loop; bounds of everything
      returned. [ParserStream]: what more input does to a parse.
      [ParserLocal]: what less input does. [ParserBudget]: what the item budget
      does. [ParserTheorems]: the contract of
      [parse_response]. [Framing]: the part of it that those who cut a stream
      into responses rely on, as the class [Framed] they are verified against.
      [Fuzz]: the fuzz target. [ParserRead]: a logic for reading back what was printed.
    - [Grammar]: the response grammar of RFC 3501 as relations between values
      and bytes. [GrammarComplete], [GrammarSound]: the parser reads exactly
      that grammar.

    imap-client:
    - [Base64], [ClientError], [Flags], [Wire], [Credentials], [Search],
      [Capabilities]: one per source file, functions under their own names
      ([wire.rs] in [Module wire]).
    - [Client]: the dispatcher. Its state is the pending map, the streams, the
      broadcast, the write queue, the tag counter and where the read loop
      stands; [exec] is one step of one task, [None] when that task would wait,
      and [reachable] holds of every state any interleaving leads to.
    - [ClientFraming]: the read loop refines a function that splits a byte
      string into frames. [ClientReplies]: which command gets which result.
      [ClientStreams]: streams, their filters, backpressure. [ClientOrder]: what
      a stream delivers. [ClientCancel]: callers that are dropped.
      [ClientWrites]: the bytes written.
    - [Program]: callers of the dispatcher as programs, one constructor per
      [await], run by [drive] under a schedule that interleaves them with the
      tasks and lets deadlines expire; [finishes] labels a run with what it
      sent.
    - [Ownership]: which frames the stream of a command gets, as a function of the
      read loop's history ([stream_of]), and that a program whose streams no one
      else takes from ([finishes_own]) receives exactly these.
    - [Session], [SessionTheorems]: the sessions, in [Module session], with the
      state and the transport as indices of their type. [Protocol]: the states
      of RFC 3501 as an automaton over what is sent and answered, and what a
      session's type says about it.
    - [Secrets]: the memory behind a password, every buffer it passes through
      with its capacity, growth and release.

    imap-tls:
    - [Tls]: the cleartext exchange over a script of reads and writes; session
      finalisation as a program; the connect functions.

    Over both crates:
    - [Liveness]: no method of a session can hang, provided each write is answered.
    - [Outcomes]: what a method can return. [Timing]: a clock over the runs of a
      method, its deadlines, and how long it takes.
    - [ErrorDisplay]: the messages of both error types, and what a server can
      put into them.
    - [LoginAndFetch]: the example program [login_and_fetch.rs], its run from
      the connection to the end of IDLE.
    - [TestKit]: a server's script played against a program and the dispatcher.
      [ParserTests], [ClientTests], [SessionTests], [TlsTests]: the tests of the
      repository, under their own names, evaluated on the model. [LimitTests]:
      those at the limits, too long to evaluate, as consequences of the theory.

    ** What is shown

    - Parser: exact. It returns a response if and only if the input starts with
      a line the grammar derives it from, within the item budget, and such a line
      beyond the budget is [TooManyItems]; the grammar is unambiguous. It is
      stricter than its documentation, which promises to pass over garbage in
      front of the CRLF. Total,
      bounded and local: a response is one line with its CRLF; cut anywhere before
      its end it is [Incomplete]; what follows it does not matter; errors are
      final. These are what lets a stream be split into
      responses at all, and the next group rests on them.
    - Dispatcher, over every interleaving: the frames are those of the
      specification whatever the sizes of the reads; a result answers the
      command with its tag and is final; stopping fails everyone who waits, with
      the reason; a stream delivers the frames routed to it, none lost, repeated or
      reordered, and all of them precede its reply; the read loop waits only for
      a full stream that can be read; a caller that is dropped leaves nothing
      behind; what is written is one line per command, in the order asked,
      however short the writes.
    - Sessions: the state in a session's type is the one the server is in; a
      method sends only what that state permits, credentials over TLS only;
      state changes only on the tagged OK of the very command;
      credentials go out only after a continuation; the results of a FETCH or a
      SEARCH are those of all the frames of that command's own stream; what needs
      a capability is refused without it. A method returns, whatever the server
      does, provided the transport answers each write: its steps, its deadlines
      and the write loop are enough, and nothing panics. (Behind a write that
      never completes a full queue has no deadline, which [Timing] shows.) The
      example program is these results put together.
    - Secrets: what a login gives back to the allocator has been wiped, on
      every path.
    - Wire forms: what is printed is read back as what was meant, by a reader
      written from the grammar.
    - TLS: the exchange ends, in a bounded buffer, and succeeds only on an
      advertised and accepted upgrade with nothing injected behind it.

    ** Choices

    Integers are [Z] with their width stated where it matters; positions and
    lengths are [nat]; byte strings are lists, and a [&str] is its bytes. Loops
    of the parser have as fuel one more than the input left, and
    that it suffices is part of totality; [read_one_frame] has one unit more
    than the bytes its buffer can take; the loops over frames one more than the
    bytes to come. A deadline is a step that may be taken at any wait it covers;
    [Timing] adds the clock, on which computing takes no time. The deadlines
    before the handshake ([connect], [read_one_frame], [write_all]) have no
    clock: that one of them expired is an outcome of the call it covers.

    Ghost state: the client records what was read, the frames split off, and
    each frame with what the tasks shared when it was split off. No step reads
    these.

    ** Not modelled

    Sockets, TLS, certificates, tokio's scheduling and allocation are not code
    of the repository: a read is the bytes it returns, a handshake is a
    parameter, and so is what the [zeroize] crate does to a block. The [capacity]
    arguments of allocations that hold no credentials are left out. That a method
    returns leaves the fairness of tokio's scheduler to tokio: it says which
    steps are enough. The benchmarks and the facade crate hold no
    logic of their own. Of the tests, those that types, sockets or other crates
    decide are left out (each file says which). *)

From Stdlib Require Export ZArith Lia.
From Corelib Require Export Init.Byte.
From Stdlib Require Strings.Byte.
From stdpp Require Export strings.
From stdpp Require Export base tactics list countable gmap.
From stdpp Require Import options.

#[export] Set Default Goal Selector "!".
#[global] Open Scope Z_scope.

(* ------------------------------------------------------------------ *)
(** ** Notations                                                        *)
(* ------------------------------------------------------------------ *)

Declare Scope imap_scope.
Delimit Scope imap_scope with imap.
Open Scope imap_scope.

Abbreviation byte := Byte.byte.
Abbreviation bytes := (list Byte.byte).
Export ByteSyntaxNotations.

(** [b! "OK"] is the Rust byte string literal [b"OK"]. *)
Notation "'b!' s" := (String.list_byte_of_string s%string)
  (at level 1, s at level 0, only parsing) : imap_scope.

Notation "x =?b y" := (Byte.eqb x y) (at level 70) : imap_scope.

(** Bytes the code names by an escape. *)
Abbreviation CR := Byte.x0d.
Abbreviation LF := Byte.x0a.
Abbreviation NUL := Byte.x00.
Abbreviation SP := Byte.x20.
Abbreviation DQUOTE := Byte.x22.
Abbreviation BACKSLASH := Byte.x5c.

(* ------------------------------------------------------------------ *)
(** ** Automation shared by the development                             *)
(* ------------------------------------------------------------------ *)

Create HintDb imap discriminated.
#[export] Hint Constants Opaque : imap.
#[export] Hint Variables Opaque : imap.

(** Break conjunctions, existentials and tuples of the context. *)
Ltac destr_hyps :=
  repeat match goal with
  | H : _ ∧ _ |- _ => destruct H
  | H : ∃ _, _ |- _ => destruct H
  | H : prod _ _ |- _ => destruct H
  end.

(** Split a boolean hypothesis into its atoms. *)
Ltac destr_bools :=
  repeat match goal with
  | H : andb _ _ = true |- _ => apply andb_true_iff in H; destruct H
  | H : orb _ _ = false |- _ => apply orb_false_iff in H; destruct H
  | H : negb _ = true |- _ => apply negb_true_iff in H
  | H : negb _ = false |- _ => apply negb_false_iff in H
  end.

(** [lia] with division and remainder by constants. *)
Ltac div_lia := Z.to_euclidean_division_equations; lia.

(** Turn the comparisons of [Z] and [nat] into propositions, for [lia]. *)
Ltac to_prop :=
  repeat match goal with
  | H : (_ <=? _) = true |- _ => apply Z.leb_le in H
  | H : (_ <=? _) = false |- _ => apply Z.leb_gt in H
  | H : (_ <? _) = true |- _ => apply Z.ltb_lt in H
  | H : (_ <? _) = false |- _ => apply Z.ltb_ge in H
  | H : (_ =? _) = true |- _ => apply Z.eqb_eq in H
  | H : (_ =? _) = false |- _ => apply Z.eqb_neq in H
  | H : (_ =? _)%nat = true |- _ => apply Nat.eqb_eq in H
  | H : (_ =? _)%nat = false |- _ => apply Nat.eqb_neq in H
  | H : (_ <=? _)%nat = true |- _ => apply Nat.leb_le in H
  | H : (_ <=? _)%nat = false |- _ => apply Nat.leb_gt in H
  | H : (_ <? _)%nat = true |- _ => apply Nat.ltb_lt in H
  | H : (_ <? _)%nat = false |- _ => apply Nat.ltb_ge in H
  end.

(* ------------------------------------------------------------------ *)
(** ** Bytes                                                            *)
(* ------------------------------------------------------------------ *)

#[export] Instance byte_eq_decision : EqDecision byte := Byte.byte_eq_dec.

#[export] Program Instance byte_countable : Countable byte :=
  inj_countable Byte.to_N Byte.of_N _.
Next Obligation. intros x. apply Byte.of_to_N. Qed.

(** The value of a [u8]. *)
Definition bval (b : byte) : Z := Z.of_N (Byte.to_N b).

(** [z as u8], truncating. *)
Definition byte_of (z : Z) : byte := default x00 (Byte.of_N (Z.to_N (z mod 256))).

Lemma bval_range b : 0 <= bval b < 256.
Proof. unfold bval. pose proof (Byte.to_N_bounded b). lia. Qed.

Lemma bval_inj a b : bval a = bval b → a = b.
Proof.
  unfold bval. intros H%N2Z.inj.
  pose proof (Byte.of_to_N a). pose proof (Byte.of_to_N b). congruence.
Qed.

Lemma bval_byte_of z : bval (byte_of z) = z mod 256.
Proof.
  unfold bval, byte_of. pose proof (Z.mod_pos_bound z 256 ltac:(lia)) as Hr.
  destruct (Byte.of_N _) as [b|] eqn:E; cbn.
  - apply Byte.to_of_N in E. rewrite E. lia.
  - apply Byte.of_N_None_iff in E. lia.
Qed.

Lemma byte_of_bval b : byte_of (bval b) = b.
Proof.
  apply bval_inj. rewrite bval_byte_of. apply Z.mod_small, bval_range.
Qed.

Lemma byte_eqb_spec a b : reflect (a = b) (a =?b b).
Proof.
  destruct (a =?b b) eqn:E; constructor.
  - by apply Byte.byte_dec_bl.
  - by apply Byte.eqb_false.
Qed.

Lemma byte_eqb_true a b : (a =?b b) = true ↔ a = b.
Proof. destruct (byte_eqb_spec a b); naive_solver. Qed.

Lemma byte_eqb_false a b : (a =?b b) = false ↔ a ≠ b.
Proof. destruct (byte_eqb_spec a b); naive_solver. Qed.

Lemma byte_eqb_refl a : (a =?b a) = true.
Proof. by apply byte_eqb_true. Qed.

Lemma forallb_Forall {A} (f : A → bool) l : forallb f l = true ↔ Forall (λ x, f x = true) l.
Proof.
  rewrite forallb_forall, Forall_forall. by setoid_rewrite list_elem_of_In.
Qed.

(** Turn byte comparisons of the context into equations and use them. *)
Ltac byte_props :=
  repeat match goal with
  | H : (?a =?b ?b) = true |- _ => apply byte_eqb_true in H; try subst
  | H : (?a =?b ?b) = false |- _ => apply byte_eqb_false in H
  end.

(** [lo..=hi] on bytes. *)
Definition in_range (lo hi : Z) (b : byte) : bool := (lo <=? bval b) && (bval b <=? hi).

Definition is_ascii_digit (b : byte) : bool := in_range 0x30 0x39 b.
Definition is_ascii_uppercase (b : byte) : bool := in_range 0x41 0x5A b.
Definition is_ascii_lowercase (b : byte) : bool := in_range 0x61 0x7A b.

Definition to_ascii_lowercase (b : byte) : byte :=
  if is_ascii_uppercase b then byte_of (bval b + 32) else b.
Definition to_ascii_uppercase (b : byte) : byte :=
  if is_ascii_lowercase b then byte_of (bval b - 32) else b.

(** [u8::eq_ignore_ascii_case]. *)
Definition eq_ignore_ascii_case (a b : byte) : bool :=
  to_ascii_lowercase a =?b to_ascii_lowercase b.

(** [xs.iter().zip(ys).all(|(a, b)| a.eq_ignore_ascii_case(b))]: the longer
    list's tail is ignored, as [zip] does. *)
Fixpoint zip_all_ci (xs ys : bytes) : bool :=
  match xs, ys with
  | x :: xs, y :: ys => eq_ignore_ascii_case x y && zip_all_ci xs ys
  | _, _ => true
  end.

(** [str::eq_ignore_ascii_case]. *)
Definition str_eq_ignore_ascii_case (xs ys : bytes) : bool :=
  (length xs =? length ys)%nat && zip_all_ci xs ys.

Lemma eq_ignore_ascii_case_refl b : eq_ignore_ascii_case b b = true.
Proof. apply byte_eqb_refl. Qed.

Lemma zip_all_ci_refl xs : zip_all_ci xs xs = true.
Proof. induction xs; cbn; [done|]. by rewrite eq_ignore_ascii_case_refl. Qed.

Lemma str_eq_ignore_ascii_case_refl xs : str_eq_ignore_ascii_case xs xs = true.
Proof. unfold str_eq_ignore_ascii_case. by rewrite Nat.eqb_refl, zip_all_ci_refl. Qed.

(* ------------------------------------------------------------------ *)
(** ** Machine integers                                                 *)
(* ------------------------------------------------------------------ *)

Definition u32_max : Z := 2 ^ 32 - 1.
(** [usize] of the 64-bit targets the crates support. *)
Definition usize_max : Z := 2 ^ 64 - 1.

Definition u32_checked_add (a b : Z) : option Z := if a + b <=? u32_max then Some (a + b) else None.
Definition u32_checked_mul (a b : Z) : option Z := if a * b <=? u32_max then Some (a * b) else None.
Definition usize_checked_add (a b : Z) : option Z := if a + b <=? usize_max then Some (a + b) else None.
Definition usize_checked_sub (a b : Z) : option Z := if b <=? a then Some (a - b) else None.

Lemma usize_checked_add_Some a b z : usize_checked_add a b = Some z → z = a + b ∧ z <= usize_max.
Proof. unfold usize_checked_add. case_match; intros [= <-]. to_prop. done. Qed.

Lemma u32_checked_add_Some a b z : u32_checked_add a b = Some z → z = a + b ∧ z <= u32_max.
Proof. unfold u32_checked_add. case_match; intros [= <-]. to_prop. done. Qed.

(* ------------------------------------------------------------------ *)
(** ** Slices                                                           *)
(* ------------------------------------------------------------------ *)

(** The elements [a .. b-1] of [l]; the panic of [&l[a..b]] out of range is
    the caller's, see [Monad.get_slice]. *)
Definition slice {A} (l : list A) (a b : nat) : list A := take (b - a) (drop a l).

Section slices.
Context {A : Type}.
Implicit Types l : list A.

Lemma slice_nil l a : slice l a a = [].
Proof. unfold slice. by rewrite Nat.sub_diag. Qed.

Lemma length_slice l a b : (b ≤ length l)%nat → length (slice l a b) = (b - a)%nat.
Proof. intros. unfold slice. rewrite length_take, length_drop. lia. Qed.

Lemma slice_ne l a b : (a < b ≤ length l)%nat → slice l a b ≠ [].
Proof. intros ? H%(f_equal length). rewrite length_slice in H by lia. cbn in H. lia. Qed.

(** A slice that ends inside [l] does not see what is appended to [l]. *)
Lemma slice_app_l l k a b : (b ≤ length l)%nat → slice (l ++ k) a b = slice l a b.
Proof.
  intros. unfold slice. destruct (decide (a ≤ b)%nat).
  - rewrite drop_app_le by lia. rewrite take_app_le; [done|]. rewrite length_drop. lia.
  - by replace (b - a)%nat with 0%nat by lia.
Qed.

Lemma slice_split l a b c : (a ≤ b ≤ c)%nat → slice l a c = slice l a b ++ slice l b c.
Proof.
  intros. unfold slice. replace (c - a)%nat with ((b - a) + (c - b))%nat by lia.
  rewrite <- take_take_drop, drop_drop. do 3 f_equal. lia.
Qed.

Lemma slice_S l a x : l !! a = Some x → slice l a (S a) = [x].
Proof.
  intros H. unfold slice. rewrite (drop_S _ _ _ H).
  by replace (S a - a)%nat with 1%nat by lia.
Qed.

Lemma slice_snoc l a b x : (a ≤ b)%nat → l !! b = Some x → slice l a (S b) = slice l a b ++ [x].
Proof. intros Hab Hx. rewrite (slice_split _ a b) by lia. by rewrite (slice_S _ _ _ Hx). Qed.

Lemma slice_cons l a b x : (a < b)%nat → l !! a = Some x → slice l a b = x :: slice l (S a) b.
Proof. intros Hab Hx. rewrite (slice_split _ a (S a)) by lia. by rewrite (slice_S _ _ _ Hx). Qed.

Lemma slice_full l : slice l 0 (length l) = l.
Proof. unfold slice. rewrite Nat.sub_0_r, drop_0. apply firstn_all. Qed.

Lemma slice_app_mid l k a n :
  drop a l = k → (n ≤ length k)%nat → slice l a (a + n) = take n k.
Proof. intros <- ?. unfold slice. f_equal. lia. Qed.

Lemma slice_elem_of l a b x : x ∈ slice l a b → x ∈ l.
Proof.
  intros (i & H & _)%elem_of_take. rewrite lookup_drop in H.
  by eapply list_elem_of_lookup_2.
Qed.

Lemma slice_0 l b : slice l 0 b = take b l.
Proof. unfold slice. by rewrite Nat.sub_0_r, drop_0. Qed.

Lemma take_split l a b : (a ≤ b)%nat → take b l = take a l ++ slice l a b.
Proof. intros. rewrite <- !slice_0. by apply slice_split; lia. Qed.

Lemma elem_of_take_split l a b x :
  (a ≤ b)%nat → x ∈ take b l ↔ x ∈ take a l ∨ x ∈ slice l a b.
Proof. intros. by rewrite (take_split l a b), elem_of_app. Qed.

Lemma drop_lookup_cons l n x k : drop n l = x :: k → l !! n = Some x ∧ drop (S n) l = k.
Proof.
  intros H. split.
  - rewrite <- (Nat.add_0_r n), <- lookup_drop, H. done.
  - replace (S n) with (n + 1)%nat by lia. rewrite <- drop_drop, H. done.
Qed.

Lemma drop_nil_lookup l n : drop n l = [] → l !! n = None ∧ (length l ≤ n)%nat.
Proof.
  intros H. assert (length l ≤ n)%nat.
  { apply (f_equal length) in H. rewrite length_drop in H. cbn in H. lia. }
  split; [by apply lookup_ge_None_2 | done].
Qed.

Lemma drop_app_len l n k1 k2 : drop n l = k1 ++ k2 → drop (n + length k1) l = k2.
Proof. intros H. rewrite <- drop_drop, H. apply drop_app_length. Qed.
End slices.
