(* ===== verification/Str.v ===== *)
(** The part of Rust's [core::str] / [alloc::string] that the crates use, on
    the bytes of a string: UTF-8 validation and the [char]s of a [&str],
    [str::parse::<u32>], decimal formatting, [split], [join] and
    [split_ascii_whitespace].

    A [&str] or [String] is its UTF-8 bytes; that the bytes are valid UTF-8 is
    the predicate [utf8_valid], which [core::str::from_utf8] decides. A [char]
    is its Unicode scalar value. *)

From S2P Require Import Prelude.
From stdpp Require Import options.

(* ------------------------------------------------------------------ *)
(** ** UTF-8                                                            *)
(* ------------------------------------------------------------------ *)

Abbreviation char := Z.

Definition is_scalar (c : char) : bool :=
  ((0 <=? c) && (c <? 0xD800)) || ((0xE000 <=? c) && (c <=? 0x10FFFF)).

(** [char::encode_utf8]. *)
Definition encode_char (c : char) : bytes :=
  if c <? 0x80 then [byte_of c]
  else if c <? 0x800 then [byte_of (0xC0 + c / 64); byte_of (0x80 + c mod 64)]
  else if c <? 0x10000 then
    [byte_of (0xE0 + c / 4096); byte_of (0x80 + c / 64 mod 64); byte_of (0x80 + c mod 64)]
  else
    [byte_of (0xF0 + c / 262144); byte_of (0x80 + c / 4096 mod 64);
     byte_of (0x80 + c / 64 mod 64); byte_of (0x80 + c mod 64)].

Definition encode (cs : list char) : bytes := cs ≫= encode_char.

Definition is_cont (b : byte) : bool := in_range 0x80 0xBF b.

(** Second bytes admitted after a three- or four-byte lead (Unicode Table
    3-7): no overlong form, no surrogate, nothing above U+10FFFF. *)
Definition second_of_3 (b0 b1 : byte) : bool :=
  if bval b0 =? 0xE0 then in_range 0xA0 0xBF b1
  else if bval b0 =? 0xED then in_range 0x80 0x9F b1
  else is_cont b1.
Definition second_of_4 (b0 b1 : byte) : bool :=
  if bval b0 =? 0xF0 then in_range 0x90 0xBF b1
  else if bval b0 =? 0xF4 then in_range 0x80 0x8F b1
  else is_cont b1.

Definition cont_bits (b : byte) : Z := bval b - 0x80.

(** The [char]s of a byte string, [None] when it is not UTF-8. *)
Fixpoint chars_opt (s : bytes) : option (list char) :=
  match s with
  | [] => Some []
  | b0 :: s1 =>
    if bval b0 <? 0x80 then cons (bval b0) <$> chars_opt s1
    else match s1 with
    | [] => None
    | b1 :: s2 =>
      if in_range 0xC2 0xDF b0 then
        if is_cont b1 then
          cons ((bval b0 - 0xC0) * 64 + cont_bits b1) <$> chars_opt s2
        else None
      else match s2 with
      | [] => None
      | b2 :: s3 =>
        if in_range 0xE0 0xEF b0 then
          if second_of_3 b0 b1 && is_cont b2 then
            cons ((bval b0 - 0xE0) * 4096 + cont_bits b1 * 64 + cont_bits b2) <$> chars_opt s3
          else None
        else match s3 with
        | [] => None
        | b3 :: s4 =>
          if in_range 0xF0 0xF4 b0 && second_of_4 b0 b1 && is_cont b2 && is_cont b3 then
            cons ((bval b0 - 0xF0) * 262144 + cont_bits b1 * 4096 + cont_bits b2 * 64 + cont_bits b3)
              <$> chars_opt s4
          else None
        end
      end
    end
  end.

Definition utf8_valid (s : bytes) : bool := bool_decide (is_Some (chars_opt s)).

(** [s.chars()], of a string that is UTF-8. *)
Definition chars (s : bytes) : list char := default [] (chars_opt s).

(** [core::str::from_utf8], its error left out. *)
Definition from_utf8 (s : bytes) : option bytes := if utf8_valid s then Some s else None.

Ltac bval_bounds :=
  repeat match goal with
  | b : byte |- _ =>
    lazymatch goal with
    | _ : 0 <= bval b < 256 |- _ => fail
    | _ => pose proof (bval_range b)
    end
  end.

Ltac ranges :=
  unfold second_of_3, second_of_4, is_cont, in_range, is_scalar, cont_bits in *;
  repeat match goal with
  | H : context [if ?b then _ else _] |- _ => destruct b eqn:?
  end; destr_bools; to_prop.

Lemma is_scalar_spec c :
  is_scalar c = true ↔ (0 <= c < 0xD800) ∨ (0xE000 <= c <= 0x10FFFF).
Proof. unfold is_scalar. lia. Qed.

(** One encoded character in front is decoded first. *)
Lemma chars_opt_step c s :
  is_scalar c = true → chars_opt (encode_char c ++ s) = cons c <$> chars_opt s.
Proof.
  intros Hc%is_scalar_spec. unfold encode_char.
  assert (64 * (c / 64) + c mod 64 = c) by (symmetry; apply Z.div_mod; lia).
  pose proof (Z.mod_pos_bound c 64 ltac:(lia)).
  assert (c / 64 / 64 = c / 4096) as Hd by (rewrite Z.div_div by lia; done).
  assert (64 * (c / 64 / 64) + c / 64 mod 64 = c / 64) by (symmetry; apply Z.div_mod; lia).
  pose proof (Z.mod_pos_bound (c / 64) 64 ltac:(lia)).
  assert (c / 4096 / 64 = c / 262144) as Hd2 by (rewrite Z.div_div by lia; done).
  assert (64 * (c / 4096 / 64) + c / 4096 mod 64 = c / 4096) by (symmetry; apply Z.div_mod; lia).
  pose proof (Z.mod_pos_bound (c / 4096) 64 ltac:(lia)).
  rewrite Hd in *. rewrite Hd2 in *.
  assert (∀ z, 0 <= z < 256 → bval (byte_of z) = z) as Hb.
  { intros. rewrite bval_byte_of. apply Z.mod_small. lia. }
  repeat case_match; to_prop; cbn [app chars_opt];
    unfold second_of_3, second_of_4, is_cont, in_range, cont_bits; rewrite !Hb by lia;
    repeat match goal with
    | |- context [?a <? ?b] => first
        [ replace (a <? b) with true by lia | replace (a <? b) with false by lia ]
    | |- context [(?a <=? ?b) && (?c <=? ?d)] => first
        [ replace ((a <=? b) && (c <=? d)) with true by lia
        | replace ((a <=? b) && (c <=? d)) with false by lia ]
    end; cbn [andb].
  - done.
  - do 2 f_equal. lia.
  - match goal with |- context [if (?x && true) then _ else _] =>
      replace x with true by (repeat case_match; lia) end.
    cbn [andb]. do 2 f_equal. lia.
  - match goal with |- context [if (?x && true && true) then _ else _] =>
      replace x with true by (repeat case_match; lia) end.
    cbn [andb]. do 2 f_equal. lia.
Qed.

(** Division steps on [hi * 64 + lo]. *)
Lemma div64 hi lo : 0 <= lo < 64 → (hi * 64 + lo) / 64 = hi.
Proof. intros. rewrite Z.div_add_l by lia. rewrite Z.div_small by lia. lia. Qed.
Lemma mod64 hi lo : 0 <= lo < 64 → (hi * 64 + lo) mod 64 = lo.
Proof. intros. rewrite Z.add_comm, Z.mod_add by lia. by apply Z.mod_small. Qed.

Lemma byte_of_eq z b : z = bval b → byte_of z = b.
Proof. intros ->. apply byte_of_bval. Qed.

Lemma encode_2 b0 b1 :
  in_range 0xC2 0xDF b0 = true → is_cont b1 = true →
  let c := (bval b0 - 0xC0) * 64 + cont_bits b1 in
  encode_char c = [b0; b1] ∧ is_scalar c = true.
Proof.
  intros H0 H1 c. ranges. split; [|apply is_scalar_spec; subst c; lia].
  unfold encode_char. replace (c <? 0x80) with false by (subst c; lia).
  replace (c <? 0x800) with true by (subst c; lia).
  subst c. rewrite div64, mod64 by lia. rewrite !byte_of_eq with (b := b0), byte_of_eq with (b := b1) by lia.
  done.
Qed.

Lemma encode_3 b0 b1 b2 :
  in_range 0xE0 0xEF b0 = true → second_of_3 b0 b1 && is_cont b2 = true →
  let c := (bval b0 - 0xE0) * 4096 + cont_bits b1 * 64 + cont_bits b2 in
  encode_char c = [b0; b1; b2] ∧ is_scalar c = true.
Proof.
  intros H0 [H1 H2]%andb_true_iff c.
  assert (Hr : is_scalar c = true ∧ 0x800 <= c < 0x10000 ∧ 0 <= cont_bits b1 < 64 ∧ 0 <= cont_bits b2 < 64).
  { rewrite is_scalar_spec. subst c. ranges; bval_bounds; lia. }
  destruct Hr as (Hs & Hc & Hb1 & Hb2). split; [|done].
  unfold encode_char. replace (c <? 0x80) with false by lia.
  replace (c <? 0x800) with false by lia. replace (c <? 0x10000) with true by lia.
  assert (c = ((bval b0 - 0xE0) * 64 + cont_bits b1) * 64 + cont_bits b2) as -> by (subst c; lia).
  rewrite (mod64 _ (cont_bits b2)), (div64 _ (cont_bits b2)), (mod64 _ (cont_bits b1)) by lia.
  assert (∀ z, z / 4096 = z / 64 / 64) as -> by (intros; by rewrite Z.div_div by lia).
  rewrite !div64 by lia. unfold cont_bits.
  rewrite (byte_of_eq _ b0), (byte_of_eq _ b1), (byte_of_eq _ b2) by lia. done.
Qed.

Lemma encode_4 b0 b1 b2 b3 :
  in_range 0xF0 0xF4 b0 && second_of_4 b0 b1 && is_cont b2 && is_cont b3 = true →
  let c := (bval b0 - 0xF0) * 262144 + cont_bits b1 * 4096 + cont_bits b2 * 64 + cont_bits b3 in
  encode_char c = [b0; b1; b2; b3] ∧ is_scalar c = true.
Proof.
  intros [[[H0 H1]%andb_true_iff H2]%andb_true_iff H3]%andb_true_iff c.
  assert (Hr : is_scalar c = true ∧ 0x10000 <= c ∧ 0 <= cont_bits b1 < 64
    ∧ 0 <= cont_bits b2 < 64 ∧ 0 <= cont_bits b3 < 64).
  { rewrite is_scalar_spec. subst c. ranges; bval_bounds; lia. }
  destruct Hr as (Hs & Hc & Hb1 & Hb2 & Hb3). split; [|done].
  unfold encode_char. replace (c <? 0x80) with false by lia.
  replace (c <? 0x800) with false by lia. replace (c <? 0x10000) with false by lia.
  assert (c = (((bval b0 - 0xF0) * 64 + cont_bits b1) * 64 + cont_bits b2) * 64 + cont_bits b3)
    as -> by (subst c; lia).
  assert (∀ z, z / 262144 = z / 64 / 64 / 64) as -> by (intros; by rewrite !Z.div_div by lia).
  assert (∀ z, z / 4096 = z / 64 / 64) as -> by (intros; by rewrite Z.div_div by lia).
  rewrite !(mod64 _ (cont_bits b3)), !(div64 _ (cont_bits b3)), !(mod64 _ (cont_bits b2)),
    !(div64 _ (cont_bits b2)), !(mod64 _ (cont_bits b1)), !(div64 _ (cont_bits b1)) by lia.
  unfold cont_bits.
  rewrite (byte_of_eq _ b0), (byte_of_eq _ b1), (byte_of_eq _ b2), (byte_of_eq _ b3) by lia. done.
Qed.

Lemma encode_1 b : (bval b <? 0x80) = true → encode_char (bval b) = [b] ∧ is_scalar (bval b) = true.
Proof.
  intros H. unfold encode_char. rewrite H, byte_of_bval. split; [done|].
  apply is_scalar_spec. bval_bounds. lia.
Qed.

(** Decoding is injective: the characters encode back to the string. *)
Lemma encode_chars_opt s cs :
  chars_opt s = Some cs → encode cs = s ∧ Forall (λ c, is_scalar c = true) cs.
Proof.
  remember (length s) as n eqn:Hn. revert s cs Hn.
  induction n as [n IH] using lt_wf_ind. intros s cs Hn.
  destruct s as [|b0 s1]; cbn [chars_opt]; [by intros [= <-]|].
  assert (Hrec : ∀ (pre t : bytes) c, (length t < n)%nat →
    encode_char c = pre ∧ is_scalar c = true →
    (cons c <$> chars_opt t) = Some cs → encode cs = pre ++ t ∧ Forall (λ c, is_scalar c = true) cs).
  { intros pre t c Ht [<- Hc] (cs' & Hcs' & ->)%fmap_Some.
    pose proof (IH _ Ht t cs' eq_refl Hcs') as [<- ?]. split; [|by constructor].
    unfold encode. by rewrite bind_cons. }
  cbn in Hn. destruct (bval b0 <? 0x80) eqn:E0.
  { apply (Hrec [b0]); [lia|by apply encode_1]. }
  destruct s1 as [|b1 s2]; [done|]. cbn in Hn. destruct (in_range 0xC2 0xDF b0) eqn:E1.
  { destruct (is_cont b1) eqn:E2; [|done]. apply (Hrec [b0; b1]); [lia|by apply encode_2]. }
  destruct s2 as [|b2 s3]; [done|]. cbn in Hn. destruct (in_range 0xE0 0xEF b0) eqn:E2.
  { destruct (second_of_3 b0 b1 && is_cont b2) eqn:E3; [|done].
    apply (Hrec [b0; b1; b2]); [lia|by apply encode_3]. }
  destruct s3 as [|b3 s4]; [done|]. cbn in Hn. case_match eqn:E3; [|done].
  apply (Hrec [b0; b1; b2; b3]); [lia|by apply encode_4].
Qed.

Lemma chars_opt_encode_app cs s :
  Forall (λ c, is_scalar c = true) cs → chars_opt (encode cs ++ s) = app cs <$> chars_opt s.
Proof.
  induction 1 as [|c cs Hc _ IH].
  { cbn. by destruct (chars_opt s). }
  unfold encode in *. rewrite bind_cons, <- app_assoc, chars_opt_step by done.
  rewrite IH. by destruct (chars_opt s).
Qed.

Lemma chars_opt_encode cs :
  Forall (λ c, is_scalar c = true) cs → chars_opt (encode cs) = Some cs.
Proof.
  intros. rewrite <- (app_nil_r (encode cs)), chars_opt_encode_app by done.
  cbn. by rewrite app_nil_r.
Qed.

Lemma utf8_valid_spec s :
  utf8_valid s = true ↔ ∃ cs, s = encode cs ∧ Forall (λ c, is_scalar c = true) cs.
Proof.
  unfold utf8_valid. rewrite bool_decide_eq_true. split.
  - intros [cs Hcs]. exists cs. by apply encode_chars_opt in Hcs as [-> ?].
  - intros (cs & -> & Hcs). rewrite chars_opt_encode by done. done.
Qed.

Lemma chars_encode cs : Forall (λ c, is_scalar c = true) cs → chars (encode cs) = cs.
Proof. intros. unfold chars. by rewrite chars_opt_encode. Qed.

Lemma encode_chars s : utf8_valid s = true → encode (chars s) = s.
Proof. intros (cs & -> & Hcs)%utf8_valid_spec. by rewrite chars_encode. Qed.

Lemma chars_scalar s : Forall (λ c, is_scalar c = true) (chars s).
Proof.
  unfold chars. destruct (chars_opt s) eqn:E; cbn; [|done]. by apply encode_chars_opt in E as [_ ?].
Qed.

Lemma encode_app cs ds : encode (cs ++ ds) = encode cs ++ encode ds.
Proof. apply bind_app. Qed.

Lemma utf8_valid_app s t : utf8_valid s = true → utf8_valid t = true → utf8_valid (s ++ t) = true.
Proof.
  rewrite !utf8_valid_spec. intros (cs & -> & ?) (ds & -> & ?).
  exists (cs ++ ds). rewrite encode_app. split; [done|by apply Forall_app].
Qed.

Lemma encode_ascii s : Forall (λ b, bval b < 0x80) s → encode (bval <$> s) = s.
Proof.
  intros H. induction H as [|b s Hb _ IH]; [done|].
  rewrite fmap_cons. unfold encode in *. rewrite bind_cons, IH. by destruct (encode_1 b ltac:(lia)) as [-> _].
Qed.

Lemma utf8_valid_ascii s : Forall (λ b, bval b < 0x80) s → utf8_valid s = true.
Proof.
  intros H. apply utf8_valid_spec. exists (bval <$> s). split; [by rewrite encode_ascii|].
  rewrite Forall_fmap. eapply Forall_impl; [exact H|]. intros b Hb; cbn.
  apply is_scalar_spec. bval_bounds. lia.
Qed.

(* ------------------------------------------------------------------ *)
(** ** Decimal numbers                                                  *)
(* ------------------------------------------------------------------ *)

Definition digit_val (b : byte) : Z := bval b - 0x30.
Definition digit_byte (d : Z) : byte := byte_of (0x30 + d).

(** The number a digit string writes. *)
Definition dec_val (ds : bytes) : Z := fold_left (λ acc b, acc * 10 + digit_val b) ds 0.

Fixpoint parse_digits (acc : Z) (ds : bytes) : option Z :=
  match ds with
  | [] => Some acc
  | d :: ds =>
    if is_ascii_digit d then
      a10 ← u32_checked_mul acc 10;
      a ← u32_checked_add a10 (digit_val d);
      parse_digits a ds
    else None
  end.

(** [str::parse::<u32>], its error left out: a leading ["+"] is allowed, the
    empty string and a lone sign are not. *)
Definition parse_u32 (s : bytes) : option Z :=
  match s with
  | [] => None
  | b :: s' =>
    if b =?b "+"%byte then
      match s' with [] => None | _ => parse_digits 0 s' end
    else parse_digits 0 s
  end.

(** Decimal digits of a non-negative number, most significant first, as
    [format!("{}", n)] writes a [u64]: at most [fuel] of them. *)
Fixpoint dec_digits (fuel : nat) (n : Z) : bytes :=
  match fuel with
  | O => []
  | S f => if n <? 10 then [digit_byte n] else dec_digits f (n / 10) ++ [digit_byte (n mod 10)]
  end.

(** 20 digits hold every [u64]. *)
Definition dec_fuel : nat := 20.
Definition fmt_dec (n : Z) : bytes := dec_digits dec_fuel n.

(** [format!("{:0w$}", n)]. *)
Definition fmt_dec_pad (w : nat) (n : Z) : bytes :=
  let ds := fmt_dec n in replicate (w - length ds) "0"%byte ++ ds.

Lemma is_ascii_digit_spec b : is_ascii_digit b = true ↔ 0x30 <= bval b <= 0x39.
Proof. unfold is_ascii_digit, in_range. lia. Qed.

Lemma digit_val_range b : is_ascii_digit b = true → 0 <= digit_val b <= 9.
Proof. rewrite is_ascii_digit_spec. unfold digit_val. lia. Qed.

Lemma digit_byte_digit d : 0 <= d <= 9 → is_ascii_digit (digit_byte d) = true.
Proof.
  intros. apply is_ascii_digit_spec. unfold digit_byte. rewrite bval_byte_of, Z.mod_small; lia.
Qed.

Lemma digit_val_byte d : 0 <= d <= 9 → digit_val (digit_byte d) = d.
Proof. intros. unfold digit_val, digit_byte. rewrite bval_byte_of, Z.mod_small; lia. Qed.

Lemma digit_byte_val b : is_ascii_digit b = true → digit_byte (digit_val b) = b.
Proof. intros. unfold digit_byte, digit_val. apply byte_of_eq. lia. Qed.

Definition dec_val_from (acc : Z) (ds : bytes) : Z :=
  fold_left (λ acc b, acc * 10 + digit_val b) ds acc.

Lemma dec_val_from_ge acc ds :
  0 <= acc → Forall (λ b, is_ascii_digit b = true) ds → acc <= dec_val_from acc ds.
Proof.
  intros Hacc H. revert acc Hacc. induction H as [|d ds Hd _ IH]; intros acc Hacc; cbn; [lia|].
  pose proof (digit_val_range d Hd). unfold dec_val_from in *.
  etrans; [|apply IH]; lia.
Qed.

Lemma dec_val_snoc ds d : dec_val (ds ++ [d]) = dec_val ds * 10 + digit_val d.
Proof. unfold dec_val. by rewrite fold_left_app. Qed.

Lemma dec_val_nonneg ds : Forall (λ b, is_ascii_digit b = true) ds → 0 <= dec_val ds.
Proof. intros. by apply (dec_val_from_ge 0). Qed.

Lemma dec_val_app_le ds es :
  Forall (λ b, is_ascii_digit b = true) (ds ++ es) → dec_val ds <= dec_val (ds ++ es).
Proof.
  intros [Hd He]%Forall_app. unfold dec_val at 2. rewrite fold_left_app.
  apply dec_val_from_ge; [by apply dec_val_nonneg|done].
Qed.

(** The checked arithmetic of [parse] fails exactly when the number written
    exceeds [u32::MAX]. *)
Lemma parse_digits_spec acc ds :
  0 <= acc <= u32_max → Forall (λ b, is_ascii_digit b = true) ds →
  parse_digits acc ds =
    if dec_val_from acc ds <=? u32_max then Some (dec_val_from acc ds) else None.
Proof.
  intros Hacc H. revert acc Hacc.
  induction H as [|d ds Hd Hds IH]; intros acc Hacc; cbn [parse_digits].
  { cbn. by replace (acc <=? u32_max) with true by lia. }
  pose proof (digit_val_range d Hd). rewrite Hd.
  unfold u32_checked_mul, u32_checked_add.
  pose proof (dec_val_from_ge (acc * 10 + digit_val d) ds ltac:(lia) Hds) as Hge.
  change (dec_val_from acc (d :: ds)) with (dec_val_from (acc * 10 + digit_val d) ds).
  destruct (acc * 10 <=? u32_max) eqn:E1; cbn [mbind option_bind].
  - destruct (acc * 10 + digit_val d <=? u32_max) eqn:E2; cbn [mbind option_bind]; to_prop.
    + rewrite IH by lia. done.
    + case_match; to_prop; [lia|done].
  - case_match; to_prop; [lia|done].
Qed.

Lemma parse_digits_all acc ds n :
  parse_digits acc ds = Some n → Forall (λ b, is_ascii_digit b = true) ds.
Proof.
  revert acc. induction ds as [|d ds IH]; intros acc; cbn; [by constructor|].
  destruct (is_ascii_digit d) eqn:Hd; [|done].
  intros (a & _ & (a' & _ & H)%bind_Some)%bind_Some. constructor; [done|by eapply IH].
Qed.

Lemma digit_not_plus b : is_ascii_digit b = true → (b =?b "+"%byte) = false.
Proof.
  intros H%is_ascii_digit_spec. apply byte_eqb_false. intros ->.
  by destruct H as [[] _].
Qed.

Lemma parse_u32_digits ds :
  ds ≠ [] → Forall (λ b, is_ascii_digit b = true) ds →
  parse_u32 ds = if dec_val ds <=? u32_max then Some (dec_val ds) else None.
Proof.
  intros Hne H. destruct ds as [|d ds]; [done|]. unfold parse_u32.
  rewrite digit_not_plus by (by inversion H). by apply parse_digits_spec.
Qed.

Lemma dec_digits_spec fuel n :
  (0 < fuel)%nat → 0 <= n < 10 ^ Z.of_nat fuel →
  dec_digits fuel n ≠ [] ∧ Forall (λ b, is_ascii_digit b = true) (dec_digits fuel n)
  ∧ dec_val (dec_digits fuel n) = n ∧ (length (dec_digits fuel n) ≤ fuel)%nat.
Proof.
  revert n. induction fuel as [|f IH]; intros n Hf Hn; [lia|]. cbn [dec_digits].
  destruct (n <? 10) eqn:E; to_prop.
  { unfold dec_val; cbn. rewrite digit_val_byte by lia.
    repeat split; [done| |lia]. repeat constructor. apply digit_byte_digit. lia. }
  pose proof (Z.mod_pos_bound n 10 ltac:(lia)). pose proof (Z.div_mod n 10 ltac:(lia)).
  destruct f as [|f]. { change (10 ^ Z.of_nat 1) with 10 in Hn. lia. }
  destruct (IH (n / 10) ltac:(lia)) as (? & ? & Hv & Hl).
  { rewrite Nat2Z.inj_succ, Z.pow_succ_r in Hn by lia. split; [apply Z.div_pos; lia|].
    apply Z.div_lt_upper_bound; lia. }
  repeat split.
  - by intros [??]%app_eq_nil.
  - apply Forall_app; split; [done|]. repeat constructor. apply digit_byte_digit. lia.
  - rewrite dec_val_snoc, Hv, digit_val_byte by lia. lia.
  - rewrite length_app; cbn [length]. lia.
Qed.

Lemma fmt_dec_spec n :
  0 <= n < 10 ^ 20 →
  fmt_dec n ≠ [] ∧ Forall (λ b, is_ascii_digit b = true) (fmt_dec n) ∧ dec_val (fmt_dec n) = n.
Proof.
  intros. destruct (dec_digits_spec dec_fuel n) as (? & ? & ? & _); unfold dec_fuel; try lia.
  done.
Qed.

Lemma fmt_dec_digits n : 0 <= n → Forall (λ b, is_ascii_digit b = true) (fmt_dec n).
Proof.
  unfold fmt_dec. generalize dec_fuel. intros fuel. revert n.
  induction fuel as [|f IH]; intros n Hn; cbn [dec_digits]; [done|].
  destruct (n <? 10) eqn:E; to_prop.
  - repeat constructor. apply digit_byte_digit. lia.
  - pose proof (Z.mod_pos_bound n 10 ltac:(lia)). apply Forall_app; split; [by apply IH, Z.div_pos|].
    repeat constructor. apply digit_byte_digit. lia.
Qed.

(** Formatting a [u32] and parsing it back. *)
Lemma parse_u32_fmt_dec n : 0 <= n <= u32_max → parse_u32 (fmt_dec n) = Some n.
Proof.
  intros H. unfold u32_max in *. destruct (fmt_dec_spec n ltac:(lia)) as (? & ? & Hv).
  rewrite parse_u32_digits by done. rewrite Hv. unfold u32_max. case_match; to_prop; [done|lia].
Qed.

Lemma fmt_dec_inj n m : 0 <= n < 10 ^ 20 → 0 <= m < 10 ^ 20 → fmt_dec n = fmt_dec m → n = m.
Proof.
  intros Hn Hm H. destruct (fmt_dec_spec n Hn) as (_ & _ & <-).
  destruct (fmt_dec_spec m Hm) as (_ & _ & <-). by rewrite H.
Qed.

(** Digits without a leading zero are the decimal form of their value. *)
Definition no_leading_zero (s : bytes) : Prop := ∃ b t, s = b :: t ∧ b ≠ "0"%byte.

Lemma digit_zero b : is_ascii_digit b = true → digit_val b = 0 → b = "0"%byte.
Proof. intros _ H. apply bval_inj. unfold digit_val in H. change (bval "0"%byte) with 0x30. lia. Qed.

Lemma no_leading_zero_pos s :
  Forall (λ b, is_ascii_digit b = true) s → no_leading_zero s → 1 <= dec_val s.
Proof.
  intros Hd (b & t & -> & Hb). inversion Hd as [|? ? Hb' Ht]; subst.
  change (dec_val (b :: t)) with (dec_val_from (0 * 10 + digit_val b) t).
  pose proof (digit_val_range b Hb'). etrans; [|apply dec_val_from_ge; [lia|done]].
  destruct (decide (digit_val b = 0)) as [E|?]; [by apply digit_zero in E|lia].
Qed.

Lemma dec_digits_dec_val fuel s :
  Forall (λ b, is_ascii_digit b = true) s → no_leading_zero s → dec_val s < 10 ^ Z.of_nat fuel →
  dec_digits fuel (dec_val s) = s.
Proof.
  revert s. induction fuel as [|f IH]; intros s Hd Hz Hlt.
  { apply no_leading_zero_pos in Hz; [|done]. change (10 ^ Z.of_nat 0) with 1 in Hlt. lia. }
  destruct s as [|d s _] using rev_ind; [by destruct Hz as (? & ? & ? & _)|].
  apply Forall_app in Hd as [Hs [Hd _]%Forall_cons]. pose proof (digit_val_range d Hd).
  rewrite dec_val_snoc in *. cbn [dec_digits]. destruct s as [|b s].
  { change (dec_val []) with 0. rewrite (proj2 (Z.ltb_lt _ _)) by lia.
    by rewrite Z.mul_0_l, Z.add_0_l, digit_byte_val. }
  assert (Hz' : no_leading_zero (b :: s)).
  { destruct Hz as (b' & t & [= <- _] & ?). by exists b, s. }
  pose proof (no_leading_zero_pos _ Hs Hz'). rewrite (proj2 (Z.ltb_ge _ _)) by lia.
  rewrite Z.div_add_l, Z.div_small, Z.add_0_r by lia.
  rewrite Z.add_comm, Z.mod_add, Z.mod_small by lia. rewrite IH, digit_byte_val; try done.
  rewrite Nat2Z.inj_succ, Z.pow_succ_r in Hlt by lia. lia.
Qed.

Lemma fmt_dec_dec_val s :
  Forall (λ b, is_ascii_digit b = true) s → no_leading_zero s → dec_val s <= u32_max →
  fmt_dec (dec_val s) = s.
Proof. intros. apply dec_digits_dec_val; [done..|].
  change (10 ^ Z.of_nat dec_fuel) with (10 ^ 20). unfold u32_max in *. lia. Qed.

Lemma dec_digits_head fuel n :
  1 <= n < 10 ^ Z.of_nat fuel → no_leading_zero (dec_digits fuel n).
Proof.
  revert n. induction fuel as [|f IH]; intros n Hn; [change (10 ^ Z.of_nat 0) with 1 in Hn; lia|].
  cbn [dec_digits]. destruct (n <? 10) eqn:E; to_prop.
  - exists (digit_byte n), []. split; [done|]. intros E'%(f_equal digit_val).
    rewrite digit_val_byte in E' by lia. change (digit_val "0"%byte) with 0 in E'. lia.
  - destruct (IH (n / 10)) as (b & t & -> & ?); [|by exists b, (t ++ [digit_byte (n mod 10)])].
    rewrite Nat2Z.inj_succ, Z.pow_succ_r in Hn by lia. div_lia.
Qed.

Lemma fmt_dec_head n : 1 <= n < 10 ^ 20 → no_leading_zero (fmt_dec n).
Proof. intros. by apply dec_digits_head. Qed.

Lemma dec_val_zeros k ds : dec_val (replicate k "0"%byte ++ ds) = dec_val ds.
Proof. induction k as [|k IH]; [done|]. exact IH. Qed.

Lemma fmt_dec_pad_val w n : 0 <= n < 10 ^ 20 → dec_val (fmt_dec_pad w n) = n.
Proof. intros. unfold fmt_dec_pad. rewrite dec_val_zeros. by apply fmt_dec_spec. Qed.

Lemma fmt_dec_pad_digits w n :
  0 <= n < 10 ^ 20 →
  fmt_dec_pad w n ≠ [] ∧ Forall (λ b, is_ascii_digit b = true) (fmt_dec_pad w n).
Proof.
  intros H. destruct (fmt_dec_spec n H) as (Hne & Hd & _). unfold fmt_dec_pad. split.
  - by intros [_ ?]%app_eq_nil.
  - apply Forall_app; split; [|done]. by apply Forall_replicate.
Qed.

(* ------------------------------------------------------------------ *)
(** ** Splitting and joining                                            *)
(* ------------------------------------------------------------------ *)

(** [s.split(sep)] for an ASCII separator: always at least one piece. *)
Fixpoint split_on (sep : byte) (s : bytes) : list bytes :=
  match s with
  | [] => [[]]
  | b :: s =>
    if b =?b sep then [] :: split_on sep s
    else match split_on sep s with
    | p :: ps => (b :: p) :: ps
    | [] => [[b]]
    end
  end.

(** [parts.join(sep)]. *)
Fixpoint join (sep : bytes) (parts : list bytes) : bytes :=
  match parts with
  | [] => []
  | [p] => p
  | p :: ps => p ++ sep ++ join sep ps
  end.

Definition is_ascii_whitespace (b : byte) : bool :=
  (b =?b x20) || (b =?b x09) || (b =?b x0a) || (b =?b x0c) || (b =?b x0d).

(** [s.split_ascii_whitespace()]: the maximal runs of other bytes. *)
Fixpoint split_ws (cur s : bytes) : list bytes :=
  match s with
  | [] => match cur with [] => [] | _ => [cur] end
  | b :: s =>
    if is_ascii_whitespace b then
      match cur with [] => split_ws [] s | _ => cur :: split_ws [] s end
    else split_ws (cur ++ [b]) s
  end.
Definition split_ascii_whitespace (s : bytes) : list bytes := split_ws [] s.

Definition str_to_ascii_uppercase (s : bytes) : bytes := to_ascii_uppercase <$> s.

Lemma split_on_ne sep s : split_on sep s ≠ [].
Proof. destruct s as [|b s]; cbn; [done|]. repeat case_match; done. Qed.

Lemma join_split_on sep s : join [sep] (split_on sep s) = s.
Proof.
  induction s as [|b s IH]; [done|]. cbn [split_on].
  pose proof (split_on_ne sep s) as Hne.
  destruct (split_on sep s) as [|p ps]; [done|].
  destruct (byte_eqb_spec b sep) as [->|Hb].
  - change (join [sep] ([] :: p :: ps)) with (sep :: join [sep] (p :: ps)). by rewrite IH.
  - destruct ps as [|q ps]; cbn in *; by rewrite IH.
Qed.

Lemma split_on_pieces sep s : Forall (λ p, sep ∉ p) (split_on sep s).
Proof.
  induction s as [|b s IH]; cbn; [by apply Forall_singleton, not_elem_of_nil|].
  destruct (byte_eqb_spec b sep) as [->|Hb]; [constructor; [apply not_elem_of_nil|done]|].
  destruct (split_on sep s) as [|p ps]; inversion IH; subst.
  { apply Forall_singleton. by intros ->%list_elem_of_singleton. }
  constructor; [by intros [->|?]%elem_of_cons|done].
Qed.

(** [split] inverts [join] when no part holds the separator. *)
Lemma split_on_join sep parts :
  parts ≠ [] → Forall (λ p, sep ∉ p) parts → split_on sep (join [sep] parts) = parts.
Proof.
  assert (Hone : ∀ p s, sep ∉ p → split_on sep (p ++ s) =
    match split_on sep s with q :: qs => (p ++ q) :: qs | [] => [] end).
  { intros p s Hp. induction p as [|b p IH]; cbn.
    - pose proof (split_on_ne sep s). by destruct (split_on sep s).
    - rewrite IH by set_solver. destruct (byte_eqb_spec b sep); [set_solver|].
      pose proof (split_on_ne sep s). by destruct (split_on sep s). }
  intros Hne H. induction H as [|p ps Hp _ IH]; [done|].
  destruct ps as [|q ps].
  - cbn [join]. rewrite <- (app_nil_r p) at 1. rewrite Hone by done. cbn. by rewrite app_nil_r.
  - change (join [sep] (p :: q :: ps)) with (p ++ sep :: join [sep] (q :: ps)).
    rewrite Hone by done. cbn [split_on]. rewrite byte_eqb_refl, IH by done. by rewrite app_nil_r.
Qed.
