(* ===== verification/Ast.v ===== *)
(** The response grammar of [imap-core/src/ast.rs] and the parser's errors of
    [imap-core/src/error.rs].

    A [&'a str] or [&'a [u8]] that borrows from the input is the bytes it
    points to; that these bytes occur in the input is proved, not assumed (see
    [ParserSafety]). A [u32] is its value as a [Z]; that it fits is proved
    there too. The redacting [Debug] of [FetchAttribute] is in [AstDebug]. *)

From S2P Require Import Prelude Str.
From stdpp Require Import options.

Abbreviation str := (list Byte.byte).
Abbreviation u32 := Z.

(** [ast.rs: Status]. *)
Inductive Status : Type := Status_Ok | Status_No | Status_Bad | Status_PreAuth | Status_Bye.

(** [ast.rs: ResponseCode]. *)
Inductive ResponseCode : Type :=
| RC_Alert
| RC_BadCharset (charsets : list str)
| RC_Capability (caps : list str)
| RC_Parse
| RC_PermanentFlags (flags : list str)
| RC_ReadOnly
| RC_ReadWrite
| RC_TryCreate
| RC_UidNext (n : u32)
| RC_UidValidity (n : u32)
| RC_Unseen (n : u32)
| RC_Other (atom : str) (extra : option str).

(** [ast.rs: StatusResponse]. *)
Record StatusResponse : Type := mkStatusResponse {
  sr_tag : option str;
  sr_status : Status;
  sr_code : option ResponseCode;
  sr_text : str;
}.

(** [ast.rs: StatusItem]. *)
Inductive StatusItem : Type :=
| SI_Messages (n : u32)
| SI_Recent (n : u32)
| SI_UidNext (n : u32)
| SI_UidValidity (n : u32)
| SI_Unseen (n : u32)
| SI_Other (n : u32).

(** [ast.rs: FetchAttribute]. *)
Inductive FetchAttribute : Type :=
| FA_Flags (flags : list str)
| FA_InternalDate (date : str)
| FA_Rfc822Size (size : u32)
| FA_Rfc822 (data : bytes)
| FA_Rfc822Header (data : bytes)
| FA_Rfc822Text (data : bytes)
| FA_Envelope (data : bytes)
| FA_Body (data : bytes)
| FA_BodyStructure (data : bytes)
| FA_BodySection (section : option str) (origin : option u32) (data : option bytes)
| FA_Uid (uid : u32).

(** [ast.rs: DataResponse]. *)
Inductive DataResponse : Type :=
| DR_Capability (caps : list str)
| DR_List (flags : list str) (delimiter : option str) (name : str)
| DR_Lsub (flags : list str) (delimiter : option str) (name : str)
| DR_Status (mailbox : str) (items : list StatusItem)
| DR_Search (ids : list u32)
| DR_Flags (flags : list str)
| DR_Exists (n : u32)
| DR_Recent (n : u32)
| DR_Expunge (n : u32)
| DR_Fetch (seq : u32) (attributes : list FetchAttribute)
| DR_Other (line : bytes).

(** [ast.rs: ContinueReq]. *)
Record ContinueReq : Type := mkContinueReq {
  cr_code : option ResponseCode;
  cr_text : str;
}.

(** [ast.rs: Response]. *)
Inductive Response : Type :=
| Resp_Status (s : StatusResponse)
| Resp_Data (d : DataResponse)
| Resp_Continue (c : ContinueReq).

(** [error.rs: ParseError]; the [&'static str] and [String] payloads as
    strings. *)
Inductive ParseError : Type :=
| Incomplete
| InvalidChar (offset : nat)
| ExpectedLiteral (expected : string) (offset : nat)
| UnexpectedEof
| InvalidNumber
| LiteralTooLarge (got max : Z)
| TooManyItems (max : Z)
| Malformed (what : string)
| PE_Other (what : string).

#[export] Instance Status_eq_dec : EqDecision Status.
Proof. solve_decision. Defined.
#[export] Instance ResponseCode_eq_dec : EqDecision ResponseCode.
Proof. solve_decision. Defined.
#[export] Instance StatusResponse_eq_dec : EqDecision StatusResponse.
Proof. solve_decision. Defined.
#[export] Instance StatusItem_eq_dec : EqDecision StatusItem.
Proof. solve_decision. Defined.
#[export] Instance FetchAttribute_eq_dec : EqDecision FetchAttribute.
Proof. solve_decision. Defined.
#[export] Instance DataResponse_eq_dec : EqDecision DataResponse.
Proof. solve_decision. Defined.
#[export] Instance ContinueReq_eq_dec : EqDecision ContinueReq.
Proof. solve_decision. Defined.
#[export] Instance Response_eq_dec : EqDecision Response.
Proof. solve_decision. Defined.
#[export] Instance ParseError_eq_dec : EqDecision ParseError.
Proof. solve_decision. Defined.

(** The list elements a response holds, those [push_item] charges: every
    element of every list except the numbers of a [SEARCH]. *)
Definition code_items (c : ResponseCode) : nat :=
  match c with
  | RC_BadCharset l | RC_Capability l | RC_PermanentFlags l => length l
  | _ => 0
  end.
Definition opt_code_items (c : option ResponseCode) : nat := from_option code_items 0%nat c.

Definition attr_items (a : FetchAttribute) : nat :=
  match a with FA_Flags l => length l | _ => 0 end.

Definition data_items (d : DataResponse) : nat :=
  match d with
  | DR_Capability l | DR_Flags l => length l
  | DR_List l _ _ | DR_Lsub l _ _ => length l
  | DR_Status _ items => length items
  | DR_Fetch _ atts => length atts + sum_list (attr_items <$> atts)
  | _ => 0
  end.

Definition response_items (r : Response) : nat :=
  match r with
  | Resp_Status s => opt_code_items (sr_code s)
  | Resp_Data d => data_items d
  | Resp_Continue c => opt_code_items (cr_code c)
  end.
