(* ===== verification/AstDebug.v ===== *)
(** The [Debug] of responses ([imap-core/src/ast.rs]): derived, but for
    [FetchAttribute], which shows the length of message content and not the
    content. *)

From S2P Require Import Prelude Str Ast.
From stdpp Require Import options.

(* ------------------------------------------------------------------ *)
(** ** [core::fmt]'s builders, in their one-line form                    *)
(* ------------------------------------------------------------------ *)

(** [f.debug_tuple(name).field(x).finish()], of the field's own output. *)
Definition debug_tuple (name field : str) : str := name ++ b! "(" ++ field ++ b! ")".

(** [f.debug_struct(name).field(k, x) ... .finish()]. *)
Definition debug_struct (name : str) (fields : list (str * str)) : str :=
  name ++ b! " { " ++ join (b! ", ") ((λ '(k, x), k ++ b! ": " ++ x) <$> fields) ++ b! " }".

Definition debug_list (items : list str) : str := b! "[" ++ join (b! ", ") items ++ b! "]".

Definition debug_option (o : option str) : str :=
  match o with Some x => debug_tuple (b! "Some") x | None => b! "None" end.

(* ------------------------------------------------------------------ *)
(** ** [FetchAttribute]                                                 *)
(* ------------------------------------------------------------------ *)

(** [ByteCount]'s [Debug]. *)
Definition byte_count_debug (n : nat) : str := b! "<" ++ fmt_dec (Z.of_nat n) ++ b! " bytes>".

Definition content (name : str) (bs : bytes) : str := debug_tuple name (byte_count_debug (length bs)).

Section debug.
(** [<str as Debug>::fmt]: quotes and escapes, by Unicode tables. *)
Context (str_debug : str → str).

Definition fetch_attribute_debug (a : FetchAttribute) : str :=
  match a with
  | FA_Flags flags => debug_tuple (b! "Flags") (debug_list (str_debug <$> flags))
  | FA_InternalDate date => debug_tuple (b! "InternalDate") (str_debug date)
  | FA_Rfc822Size size => debug_tuple (b! "Rfc822Size") (fmt_dec size)
  | FA_Rfc822 b => content (b! "Rfc822") b
  | FA_Rfc822Header b => content (b! "Rfc822Header") b
  | FA_Rfc822Text b => content (b! "Rfc822Text") b
  | FA_Envelope b => content (b! "Envelope") b
  | FA_Body b => content (b! "Body") b
  | FA_BodyStructure b => content (b! "BodyStructure") b
  | FA_BodySection section origin data =>
    debug_struct (b! "BodySection")
      [(b! "section", debug_option (str_debug <$> section));
       (b! "origin", debug_option (fmt_dec <$> origin));
       (b! "data", debug_option ((λ d, byte_count_debug (length d)) <$> data))]
  | FA_Uid uid => debug_tuple (b! "Uid") (fmt_dec uid)
  end.

(* ------------------------------------------------------------------ *)
(** ** The derived ones                                                 *)
(* ------------------------------------------------------------------ *)

Definition strs_debug (l : list str) : str := debug_list (str_debug <$> l).

Definition status_debug (s : Status) : str :=
  match s with
  | Status_Ok => b! "Ok"
  | Status_No => b! "No"
  | Status_Bad => b! "Bad"
  | Status_PreAuth => b! "PreAuth"
  | Status_Bye => b! "Bye"
  end.

Definition response_code_debug (c : ResponseCode) : str :=
  match c with
  | RC_Alert => b! "Alert"
  | RC_BadCharset l => debug_tuple (b! "BadCharset") (strs_debug l)
  | RC_Capability l => debug_tuple (b! "Capability") (strs_debug l)
  | RC_Parse => b! "Parse"
  | RC_PermanentFlags l => debug_tuple (b! "PermanentFlags") (strs_debug l)
  | RC_ReadOnly => b! "ReadOnly"
  | RC_ReadWrite => b! "ReadWrite"
  | RC_TryCreate => b! "TryCreate"
  | RC_UidNext n => debug_tuple (b! "UidNext") (fmt_dec n)
  | RC_UidValidity n => debug_tuple (b! "UidValidity") (fmt_dec n)
  | RC_Unseen n => debug_tuple (b! "Unseen") (fmt_dec n)
  | RC_Other atom extra =>
    debug_tuple (b! "Other") (str_debug atom ++ b! ", " ++ debug_option (str_debug <$> extra))
  end.

Definition status_response_debug (s : StatusResponse) : str :=
  debug_struct (b! "StatusResponse")
    [(b! "tag", debug_option (str_debug <$> sr_tag s));
     (b! "status", status_debug (sr_status s));
     (b! "code", debug_option (response_code_debug <$> sr_code s));
     (b! "text", str_debug (sr_text s))].

Definition status_item_debug (i : StatusItem) : str :=
  match i with
  | SI_Messages n => debug_tuple (b! "Messages") (fmt_dec n)
  | SI_Recent n => debug_tuple (b! "Recent") (fmt_dec n)
  | SI_UidNext n => debug_tuple (b! "UidNext") (fmt_dec n)
  | SI_UidValidity n => debug_tuple (b! "UidValidity") (fmt_dec n)
  | SI_Unseen n => debug_tuple (b! "Unseen") (fmt_dec n)
  | SI_Other n => debug_tuple (b! "Other") (fmt_dec n)
  end.

(** [List] and [Lsub] have the same fields. *)
Definition list_debug (variant : str) (flags : list str) (delimiter : option str) (name : str) : str :=
  debug_struct variant
    [(b! "flags", strs_debug flags);
     (b! "delimiter", debug_option (str_debug <$> delimiter));
     (b! "name", str_debug name)].

Definition data_response_debug (d : DataResponse) : str :=
  match d with
  | DR_Capability l => debug_tuple (b! "Capability") (strs_debug l)
  | DR_List flags delimiter name => list_debug (b! "List") flags delimiter name
  | DR_Lsub flags delimiter name => list_debug (b! "Lsub") flags delimiter name
  | DR_Status mailbox items =>
    debug_struct (b! "Status")
      [(b! "mailbox", str_debug mailbox); (b! "items", debug_list (status_item_debug <$> items))]
  | DR_Search ids => debug_tuple (b! "Search") (debug_list (fmt_dec <$> ids))
  | DR_Flags l => debug_tuple (b! "Flags") (strs_debug l)
  | DR_Exists n => debug_tuple (b! "Exists") (fmt_dec n)
  | DR_Recent n => debug_tuple (b! "Recent") (fmt_dec n)
  | DR_Expunge n => debug_tuple (b! "Expunge") (fmt_dec n)
  | DR_Fetch seq attributes =>
    debug_struct (b! "Fetch")
      [(b! "seq", fmt_dec seq); (b! "attributes", debug_list (fetch_attribute_debug <$> attributes))]
  | DR_Other line => debug_tuple (b! "Other") (debug_list ((λ b, fmt_dec (bval b)) <$> line))
  end.

Definition continue_req_debug (c : ContinueReq) : str :=
  debug_struct (b! "ContinueReq")
    [(b! "code", debug_option (response_code_debug <$> cr_code c)); (b! "text", str_debug (cr_text c))].

Definition response_debug (r : Response) : str :=
  match r with
  | Resp_Status s => debug_tuple (b! "Status") (status_response_debug s)
  | Resp_Data d => debug_tuple (b! "Data") (data_response_debug d)
  | Resp_Continue c => debug_tuple (b! "Continue") (continue_req_debug c)
  end.
End debug.

(** The attribute with every byte of message content blanked. *)
Definition blank (bs : bytes) : bytes := replicate (length bs) NUL.
Definition redact (a : FetchAttribute) : FetchAttribute :=
  match a with
  | FA_Rfc822 b => FA_Rfc822 (blank b)
  | FA_Rfc822Header b => FA_Rfc822Header (blank b)
  | FA_Rfc822Text b => FA_Rfc822Text (blank b)
  | FA_Envelope b => FA_Envelope (blank b)
  | FA_Body b => FA_Body (blank b)
  | FA_BodyStructure b => FA_BodyStructure (blank b)
  | FA_BodySection section origin data => FA_BodySection section origin (blank <$> data)
  | _ => a
  end.

(** A response with the content of its messages blanked. *)
Definition redact_response (r : Response) : Response :=
  match r with
  | Resp_Data (DR_Fetch seq attributes) => Resp_Data (DR_Fetch seq (redact <$> attributes))
  | _ => r
  end.

Lemma fetch_attribute_debug_redact str_debug a :
  fetch_attribute_debug str_debug (redact a) = fetch_attribute_debug str_debug a.
Proof.
  assert (Hlen : ∀ bs, length (blank bs) = length bs) by (intros; apply length_replicate).
  destruct a; cbn [redact fetch_attribute_debug]; unfold content; rewrite ?Hlen; try done.
  destruct data; cbn; by rewrite ?Hlen.
Qed.

(* ------------------------------------------------------------------ *)
(** ** Properties                                                       *)
(* ------------------------------------------------------------------ *)

(** Logging a response leaks nothing of a message: two responses that differ
    only in the bytes of bodies, headers, envelopes and body structures, and not
    in their lengths, have the same debug output, whatever the output of strings
    is. *)
Theorem debug_redacts str_debug r1 r2 :
  redact_response r1 = redact_response r2 → response_debug str_debug r1 = response_debug str_debug r2.
Proof.
  assert (H : ∀ r, response_debug str_debug (redact_response r) = response_debug str_debug r).
  { intros [s|d|c]; try done. destruct d; try done. cbn [redact_response response_debug data_response_debug].
    assert (fetch_attribute_debug str_debug <$> (redact <$> attributes) = fetch_attribute_debug str_debug <$> attributes) as ->; [|done].
    rewrite <- list_fmap_compose. apply list_fmap_ext. intros _ a _. apply fetch_attribute_debug_redact. }
  intros Hr. by rewrite <- H, Hr, H.
Qed.
