(* ===== verification/Monad.v ===== *)
(** The execution model of [imap-core/src/parser.rs]: the parser's state, its
    outcomes and the control structures of its methods.

    - [Parser::input] is never written, so a method is a function of the input
      and of the two fields it does write, [pos] and [items_left]
      ([pstate]).
    - A method's outcome is a value and a new state, a [ParseError], or one of
      two failures the code must never show: [Panic] (an out-of-range slice)
      and [NoFuel] (a loop that did not stop). On an error the Rust methods
      leave a half-moved cursor behind that no caller looks at: every [Err]
      travels by [?] to [parse_response], which drops the parser.
    - A loop is [loop], with the input length as fuel: every iteration that
      goes on moves the cursor, so the fuel is never used up (proved in
      [ParserSafety]).

    The file ends with the program logic the parser's theorems use:
    total-correctness triples ([wp]) and their rule for [loop]. *)

From S2P Require Import Prelude Str Ast.
From stdpp Require Import options.

(* ------------------------------------------------------------------ *)
(** ** State and outcomes                                               *)
(* ------------------------------------------------------------------ *)

Record pstate : Type := mkPstate {
  pos : nat;
  items_left : Z;
}.

Lemma pstate_eq st1 st2 : pos st1 = pos st2 → items_left st1 = items_left st2 → st1 = st2.
Proof. destruct st1, st2; cbn. by intros -> ->. Qed.

(** [Result<T, ParseError>] of the methods that take [&self]. *)
Inductive result (A : Type) : Type :=
| ROk (a : A)
| RErr (e : ParseError).
Arguments ROk {A} a.
Arguments RErr {A} e.

Inductive outcome (A : Type) : Type :=
| Ok (a : A) (st : pstate)
| Err (e : ParseError)
| Panic
| NoFuel.
Arguments Ok {A} a st.
Arguments Err {A} e.
Arguments Panic {A}.
Arguments NoFuel {A}.

Definition parser (A : Type) : Type := bytes → pstate → outcome A.

#[export] Instance parser_ret : MRet parser := λ A a i st, Ok a st.
#[export] Instance parser_bind : MBind parser := λ A B k m i st,
  match m i st with
  | Ok a st' => k a i st'
  | Err e => Err e
  | Panic => Panic
  | NoFuel => NoFuel
  end.

Lemma bind_Ok {A B} (m : parser A) (f : A → parser B) i st a st' :
  m i st = Ok a st' → (m ≫= f) i st = f a i st'.
Proof. unfold mbind, parser_bind. by intros ->. Qed.

(** [return Err(e)]. *)
Definition fail {A} (e : ParseError) : parser A := λ i st, Err e.

(** [self.m()?] for a method that only reads the parser. *)
Definition try_ {A} (m : bytes → pstate → result A) : parser A := λ i st,
  match m i st with
  | ROk a => Ok a st
  | RErr e => Err e
  end.

(** [opt.ok_or(e)?]. *)
Definition ok_or {A} (o : option A) (e : ParseError) : parser A :=
  match o with Some a => mret a | None => fail e end.

Definition get_pos : parser nat := λ i st, Ok (pos st) st.
Definition get_items_left : parser Z := λ i st, Ok (items_left st) st.
Definition get_len : parser nat := λ i st, Ok (length i) st.

(** [self.pos = p], [self.pos += n]. *)
Definition set_pos (p : nat) : parser unit := λ i st, Ok tt (mkPstate p (items_left st)).
Definition advance (n : nat) : parser unit := λ i st, Ok tt (mkPstate (pos st + n) (items_left st)).
Definition set_items_left (n : Z) : parser unit := λ i st, Ok tt (mkPstate (pos st) n).

(** [&self.input[a..b]]: panics unless [a <= b <= self.input.len()]. *)
Definition get_slice (a b : nat) : parser bytes := λ i st,
  if (a <=? b)%nat && (b <=? length i)%nat then Ok (slice i a b) st else Panic.

(* ------------------------------------------------------------------ *)
(** ** Loops                                                            *)
(* ------------------------------------------------------------------ *)

(** One iteration either goes on with new loop variables or leaves the loop
    with a value. *)
Inductive flow (S A : Type) : Type :=
| Continue (s : S)
| Break (a : A).
Arguments Continue {S A} s.
Arguments Break {S A} a.

Fixpoint loop_fuel {S A} (fuel : nat) (body : S → parser (flow S A)) (s : S) : parser A :=
  match fuel with
  | O => λ _ _, NoFuel
  | Datatypes.S fuel =>
    r ← body s;
    match r with
    | Continue s' => loop_fuel fuel body s'
    | Break a => mret a
    end
  end.

(** Fuel for a loop entered at cursor [pos]: one iteration per byte left, and
    the last one. *)
Definition loop {S A} (body : S → parser (flow S A)) (s : S) : parser A := λ i st,
  loop_fuel (Datatypes.S (length i - pos st)) body s i st.

(** The result of a read-only method, without [?]. *)
Definition observe {A} (m : bytes → pstate → A) : parser A := λ i st, Ok (m i st) st.

(** [Parser::peek]. *)
Definition peek (i : bytes) (st : pstate) : result byte :=
  match i !! pos st with
  | Some c => ROk c
  | None => RErr Incomplete
  end.

(** What a [while let Ok(c) = self.peek() { … }] loop does with one byte. *)
Inductive scan_action : Type :=
| Advance
| Stop
| Return (e : ParseError).

Definition scan (f : byte → scan_action) : parser unit :=
  loop (λ _ : unit,
    r ← observe peek;
    match r with
    | RErr _ => mret (Break tt)
    | ROk c =>
      match f c with
      | Advance => advance 1;; mret (Continue tt)
      | Stop => mret (Break tt)
      | Return e => fail e
      end
    end) tt.

(* ------------------------------------------------------------------ *)
(** ** Triples                                                          *)
(* ------------------------------------------------------------------ *)

(** [wp m i st Q E]: from [st] on input [i], [m] neither panics nor runs out
    of fuel; it ends with a value and state satisfying [Q], or with an error
    satisfying [E]. *)
Definition wp {A} (m : parser A) (i : bytes) (st : pstate)
    (Q : A → pstate → Prop) (E : ParseError → Prop) : Prop :=
  match m i st with
  | Ok a st' => Q a st'
  | Err e => E e
  | Panic | NoFuel => False
  end.

Section wp_rules.
Context (i : bytes).
Implicit Types (st : pstate) (E : ParseError → Prop).

Lemma wp_ret {A} (a : A) st Q E : Q a st → wp (mret a) i st Q E.
Proof. done. Qed.

Lemma wp_bind {A B} (m : parser A) (k : A → parser B) st Q E :
  wp m i st (λ a st', wp (k a) i st' Q E) E → wp (m ≫= k) i st Q E.
Proof.
  unfold wp, mbind, parser_bind. by destruct (m i st).
Qed.

Lemma wp_mono {A} (m : parser A) st (Q Q' : A → pstate → Prop) E E' :
  wp m i st Q E → (∀ a st', Q a st' → Q' a st') → (∀ e, E e → E' e) → wp m i st Q' E'.
Proof. unfold wp. destruct (m i st); naive_solver. Qed.

Lemma wp_fail {A} e st (Q : A → pstate → Prop) E : E e → wp (fail e) i st Q E.
Proof. done. Qed.

Lemma wp_try {A} m st (Q : A → pstate → Prop) E :
  match m i st with ROk a => Q a st | RErr e => E e end → wp (try_ m) i st Q E.
Proof. unfold wp, try_. by destruct (m i st). Qed.

Lemma wp_observe {A} (m : bytes → pstate → A) st (Q : A → pstate → Prop) E :
  Q (m i st) st → wp (observe m) i st Q E.
Proof. done. Qed.

Lemma wp_ok_or {A} (o : option A) e st (Q : A → pstate → Prop) E :
  match o with Some a => Q a st | None => E e end → wp (ok_or o e) i st Q E.
Proof. unfold wp, ok_or. by destruct o. Qed.

Lemma wp_get_slice a b st (Q : bytes → pstate → Prop) E :
  (a ≤ b ≤ length i)%nat → Q (slice i a b) st → wp (get_slice a b) i st Q E.
Proof.
  intros ??. unfold wp, get_slice.
  replace ((a <=? b)%nat && (b <=? length i)%nat) with true; [done|].
  symmetry. apply andb_true_iff. split; apply Nat.leb_le; lia.
Qed.

Lemma wp_get_pos st (Q : nat → pstate → Prop) E : Q (pos st) st → wp get_pos i st Q E.
Proof. done. Qed.
Lemma wp_get_len st (Q : nat → pstate → Prop) E : Q (length i) st → wp get_len i st Q E.
Proof. done. Qed.
Lemma wp_get_items_left st (Q : Z → pstate → Prop) E :
  Q (items_left st) st → wp get_items_left i st Q E.
Proof. done. Qed.
Lemma wp_set_items_left n st (Q : unit → pstate → Prop) E :
  Q tt (mkPstate (pos st) n) → wp (set_items_left n) i st Q E.
Proof. done. Qed.
Lemma wp_set_pos p st (Q : unit → pstate → Prop) E :
  Q tt (mkPstate p (items_left st)) → wp (set_pos p) i st Q E.
Proof. done. Qed.
Lemma wp_advance n st (Q : unit → pstate → Prop) E :
  Q tt (mkPstate (pos st + n) (items_left st)) → wp (advance n) i st Q E.
Proof. done. Qed.

Lemma wp_peek st (Q : byte → pstate → Prop) E :
  (∀ c, i !! pos st = Some c → Q c st) → E Incomplete → wp (try_ peek) i st Q E.
Proof.
  intros HQ HE. apply wp_try. unfold peek. destruct (i !! pos st) eqn:Hc; [by apply HQ|done].
Qed.

Lemma wp_Ok {A} (m : parser A) st Q E a st' : wp m i st Q E → m i st = Ok a st' → Q a st'.
Proof. unfold wp. intros H Hm. by rewrite Hm in H. Qed.

Lemma wp_Err {A} (m : parser A) st Q E e : wp m i st Q E → m i st = Err e → E e.
Proof. unfold wp. intros H Hm. by rewrite Hm in H. Qed.
End wp_rules.

(** Every iteration keeps the invariant [I] and, when it goes on, leaves the
    cursor further inside the input: the loop stops within its fuel. *)
Lemma wp_loop {S A} (body : S → parser (flow S A)) (I : S → pstate → Prop) s i st Q E :
  I s st →
  (∀ s st, I s st → wp (body s) i st
     (λ r st', match r with
       | Continue s' => I s' st' ∧ (pos st < pos st' ≤ length i)%nat
       | Break a => Q a st'
       end) E) →
  wp (loop body s) i st Q E.
Proof.
  intros HI Hbody. unfold loop, wp.
  remember (Datatypes.S (length i - pos st)) as fuel eqn:Hf.
  assert (length i - pos st < fuel)%nat as Hfuel by lia. clear Hf.
  revert s st HI Hfuel. induction fuel as [|fuel IH]; intros s st HI Hfuel; [lia|].
  cbn [loop_fuel]. unfold mbind at 1, parser_bind at 1.
  specialize (Hbody s st HI). unfold wp in Hbody.
  destruct (body s i st) as [[s'|a] st'| | |]; try done.
  destruct Hbody as [HI' ?]. apply (IH s' st' HI'). lia.
Qed.
