(* ===== verification/ResponseParser.v ===== *)
(** The recursive-descent parser of [imap-core/src/parser.rs], method by
    method. [Module Parser] holds the methods of [struct Parser]; the function
    [parse_response] of the crate's API follows it. *)

From S2P Require Import Prelude Str Ast Monad.
From stdpp Require Import options.

(** 64 MiB. *)
Definition MAX_LITERAL_SIZE : Z := 64 * 1024 * 1024.
Definition MAX_ITEMS_PER_RESPONSE : Z := 64 * 1024.

(** True iff [c] is an ATOM-CHAR. *)
Definition is_atom_char (c : byte) : bool :=
  negb (in_range 0x00 0x1F c || (c =?b x7f) || (c =?b "("%byte) || (c =?b ")"%byte)
        || (c =?b "{"%byte) || (c =?b SP) || (c =?b "%"%byte) || (c =?b "*"%byte)
        || (c =?b DQUOTE) || (c =?b BACKSLASH) || (c =?b "]"%byte)).

Definition KEYWORDS : list bytes := [b! "OK"; b! "NO"; b! "BAD"; b! "BYE"; b! "PREAUTH"].

(** [bytes] is a proper prefix of a status keyword, ignoring case. *)
Definition could_be_status_keyword_prefix (bs : bytes) : bool :=
  existsb (λ kw, (length bs <? length kw)%nat && zip_all_ci (take (length bs) kw) bs) KEYWORDS.

Module Parser.

Definition new : pstate := mkPstate 0 MAX_ITEMS_PER_RESPONSE.

Definition push_item {T} (list : list T) (item : T) : parser (Datatypes.list T) :=
  n ← get_items_left;
  n' ← ok_or (usize_checked_sub n 1) (TooManyItems MAX_ITEMS_PER_RESPONSE);
  set_items_left n';;
  mret (list ++ [item]).

(** [&self.input[self.pos..]]. *)
Definition remaining : parser bytes :=
  p ← get_pos; n ← get_len; get_slice p n.

Definition is_eof (i : bytes) (st : pstate) : bool := (length i <=? pos st)%nat.

(** [core::str::from_utf8(b).map_err(|_| ParseError::Other("Invalid UTF-8"))?]. *)
Definition to_str (b : bytes) : parser str := ok_or (from_utf8 b) (PE_Other "Invalid UTF-8").

Definition scanned_text (start : nat) : parser str :=
  eof ← observe is_eof;
  if (eof : bool) then fail Incomplete
  else
    p ← get_pos;
    b ← get_slice start p;
    to_str b.

Definition peek_at (offset : nat) (i : bytes) (st : pstate) : result byte :=
  match usize_checked_add (Z.of_nat (pos st)) (Z.of_nat offset) with
  | None => RErr Incomplete
  | Some idx =>
    match i !! Z.to_nat idx with
    | Some c => ROk c
    | None => RErr Incomplete
    end
  end.

Definition consume_byte (b : byte) : parser unit :=
  c ← try_ peek;
  if c =?b b then advance 1
  else p ← get_pos; fail (InvalidChar p).

Definition try_consume_byte (b : byte) : parser bool :=
  r ← observe peek;
  match r with
  | ROk c => if c =?b b then advance 1;; mret true else mret false
  | RErr _ => mret false
  end.

Definition matches_ci (expected : bytes) : parser bool :=
  p ← get_pos;
  n ← get_len;
  match usize_checked_add (Z.of_nat p) (Z.of_nat (length expected)) with
  | Some e =>
    if e <=? Z.of_nat n then
      s ← get_slice p (Z.to_nat e);
      mret (zip_all_ci s expected)
    else mret false
  | None => mret false
  end.

(** The bytes that end a keyword. *)
Definition is_boundary (b : byte) : bool :=
  (b =?b SP) || (b =?b CR) || (b =?b LF) || (b =?b "]"%byte) || (b =?b ")"%byte).

Definition try_consume_keyword_ci (expected : bytes) : parser bool :=
  m ← matches_ci expected;
  if negb m then mret false
  else
    p ← get_pos;
    next ← observe (λ i _, i !! (p + length expected)%nat);
    let boundary := match next with None => true | Some b => is_boundary b end in
    if negb boundary then mret false
    else advance (length expected);; mret true.

Definition consume_crlf : parser unit :=
  c ← try_ peek;
  if negb (c =?b CR) then fail (Malformed "expected CR")
  else
    r ← observe (peek_at 1);
    match r with
    | ROk b => if b =?b LF then advance 2 else fail (Malformed "expected LF after CR")
    | RErr _ => fail Incomplete
    end.

Definition consume_sp : parser unit := consume_byte SP.

Definition NIL : bytes := b! "NIL".

Definition expect_nil : parser unit :=
  k ← try_consume_keyword_ci NIL;
  if (k : bool) then mret tt
  else
    rest ← remaining;
    if (length rest <? length NIL)%nat && zip_all_ci rest NIL then fail Incomplete
    else fail (Malformed "expected nstring").

Definition parse_number : parser u32 :=
  start ← get_pos;
  scan (λ c, if is_ascii_digit c then Advance else Stop);;
  p ← get_pos;
  if (start =? p)%nat then
    eof ← observe is_eof;
    if (eof : bool) then fail Incomplete else fail InvalidNumber
  else
    b ← get_slice start p;
    match from_utf8 b with
    | Some s => ok_or (parse_u32 s) InvalidNumber
    | None => fail InvalidNumber
    end.

Definition parse_atom : parser str :=
  start ← get_pos;
  scan (λ c, if is_atom_char c then Advance else Stop);;
  p ← get_pos;
  if (start =? p)%nat then
    eof ← observe is_eof;
    if (eof : bool) then fail Incomplete else fail (Malformed "expected atom")
  else scanned_text start.

Definition parse_tag : parser str :=
  start ← get_pos;
  scan (λ c, if (c =?b SP) || (c =?b CR) || (c =?b LF) then Stop else Advance);;
  p ← get_pos;
  if (start =? p)%nat then
    eof ← observe is_eof;
    if (eof : bool) then fail Incomplete else fail (Malformed "expected tag")
  else scanned_text start.

Definition parse_quoted : parser str :=
  consume_byte DQUOTE;;
  start ← get_pos;
  loop (λ _ : unit,
    c ← try_ peek;
    if c =?b DQUOTE then
      p ← get_pos;
      b ← get_slice start p;
      s ← to_str b;
      advance 1;;
      mret (Break s)
    else if c =?b BACKSLASH then
      advance 1;;
      c2 ← try_ peek;
      if negb ((c2 =?b DQUOTE) || (c2 =?b BACKSLASH)) then
        fail (Malformed "invalid escape in quoted string")
      else advance 1;; mret (Continue tt)
    else if (c =?b CR) || (c =?b LF) then fail (Malformed "CR/LF inside quoted string")
    else if c =?b NUL then fail (Malformed "NUL inside quoted string")
    else advance 1;; mret (Continue tt)) tt.

Definition parse_literal : parser bytes :=
  consume_byte "{"%byte;;
  n ← parse_number;
  consume_byte "}"%byte;;
  consume_crlf;;
  if MAX_LITERAL_SIZE <? n then fail (LiteralTooLarge n MAX_LITERAL_SIZE)
  else
    p ← get_pos;
    e ← ok_or (usize_checked_add (Z.of_nat p) n) Incomplete;
    len ← get_len;
    if Z.of_nat len <? e then fail Incomplete
    else
      data ← get_slice p (Z.to_nat e);
      set_pos (Z.to_nat e);;
      mret data.

Definition parse_astring : parser str :=
  c ← try_ peek;
  if c =?b DQUOTE then parse_quoted
  else if c =?b "{"%byte then b ← parse_literal; to_str b
  else parse_atom.

Definition parse_nstring : parser (option str) :=
  c ← try_ peek;
  if c =?b DQUOTE then s ← parse_quoted; mret (Some s)
  else if c =?b "{"%byte then b ← parse_literal; s ← to_str b; mret (Some s)
  else expect_nil;; mret None.

Definition parse_flag_or_atom : parser str :=
  start ← get_pos;
  c ← try_ peek;
  star ← (if c =?b BACKSLASH then advance 1;; try_consume_byte "*"%byte else mret false);
  if (star : bool) then
    p ← get_pos;
    b ← get_slice start p;
    to_str b
  else
    scan (λ c, if is_atom_char c then Advance else Stop);;
    p ← get_pos;
    if (start =? p)%nat then
      eof ← observe is_eof;
      if (eof : bool) then fail Incomplete else fail (Malformed "expected flag/atom")
    else scanned_text start.

(** The loop of the three parenthesised lists: an item, then SP or [")"]. *)
Definition list_items {T} (parse_item : parser T) (what : string) : parser (list T) :=
  loop (λ items : list T,
    item ← parse_item;
    items' ← push_item items item;
    c ← try_ peek;
    if c =?b SP then advance 1;; mret (Continue items')
    else if c =?b ")"%byte then advance 1;; mret (Break items')
    else fail (Malformed what)) [].

Definition parse_paren_atom_list : parser (list str) :=
  consume_byte "("%byte;;
  close ← try_consume_byte ")"%byte;
  if (close : bool) then mret []
  else list_items parse_flag_or_atom "expected SP or ) in list".

Definition parse_balanced_parens : parser bytes :=
  start ← get_pos;
  consume_byte "("%byte;;
  loop (λ depth : u32,
    if 0 <? depth then
      c ← try_ peek;
      if c =?b "("%byte then
        advance 1;;
        depth' ← ok_or (u32_checked_add depth 1) (PE_Other "paren depth overflow");
        mret (Continue depth')
      else if c =?b ")"%byte then advance 1;; mret (Continue (depth - 1))
      else if c =?b DQUOTE then parse_quoted;; mret (Continue depth)
      else if c =?b "{"%byte then parse_literal;; mret (Continue depth)
      else if (c =?b CR) || (c =?b LF) then
        fail (Malformed "CR/LF inside parenthesised value")
      else advance 1;; mret (Continue depth)
    else mret (Break tt)) 1;;
  p ← get_pos;
  get_slice start p.

Definition parse_text : parser str :=
  start ← get_pos;
  scan (λ c, if (c =?b CR) || (c =?b LF) then Stop else Advance);;
  scanned_text start.

Definition read_until_byte (terminator : byte) : parser str :=
  start ← get_pos;
  scan (λ c, if c =?b terminator then Stop
             else if (c =?b CR) || (c =?b LF) then Return (Malformed "CR/LF before terminator")
             else Advance);;
  scanned_text start.

Definition try_parse_status_keyword : parser (option Status) :=
  k ← try_consume_keyword_ci (b! "PREAUTH");
  if (k : bool) then mret (Some Status_PreAuth)
  else k ← try_consume_keyword_ci (b! "OK");
  if (k : bool) then mret (Some Status_Ok)
  else k ← try_consume_keyword_ci (b! "NO");
  if (k : bool) then mret (Some Status_No)
  else k ← try_consume_keyword_ci (b! "BAD");
  if (k : bool) then mret (Some Status_Bad)
  else k ← try_consume_keyword_ci (b! "BYE");
  if (k : bool) then mret (Some Status_Bye)
  else mret None.

(** [while self.try_consume_byte(b' ') { list.push(item) }], with the item
    charged or not. *)
Definition sp_items {T} (parse_item : parser T) (charged : bool) : parser (list T) :=
  loop (λ items : list T,
    sp ← try_consume_byte SP;
    if (sp : bool) then
      item ← parse_item;
      items' ← (if charged then push_item items item else mret (items ++ [item]));
      mret (Continue items')
    else mret (Break items)) [].

Definition parse_resp_text_code : parser ResponseCode :=
  start ← get_pos;
  scan (λ c, if (c =?b "]"%byte) || (c =?b SP) then Stop
             else if (c =?b CR) || (c =?b LF) then Return (Malformed "CR/LF inside response code")
             else Advance);;
  eof ← observe is_eof;
  if (eof : bool) then fail Incomplete
  else
    p ← get_pos;
    if (start =? p)%nat then fail (Malformed "empty response code")
    else
      atom_bytes ← get_slice start p;
      atom ← to_str atom_bytes;
      let is_kw kw := str_eq_ignore_ascii_case atom kw in
      if is_kw (b! "ALERT") then mret RC_Alert
      else if is_kw (b! "PARSE") then mret RC_Parse
      else if is_kw (b! "READ-ONLY") then mret RC_ReadOnly
      else if is_kw (b! "READ-WRITE") then mret RC_ReadWrite
      else if is_kw (b! "TRYCREATE") then mret RC_TryCreate
      else if is_kw (b! "UIDNEXT") then consume_sp;; n ← parse_number; mret (RC_UidNext n)
      else if is_kw (b! "UIDVALIDITY") then consume_sp;; n ← parse_number; mret (RC_UidValidity n)
      else if is_kw (b! "UNSEEN") then consume_sp;; n ← parse_number; mret (RC_Unseen n)
      else if is_kw (b! "CAPABILITY") then
        caps ← sp_items parse_atom true; mret (RC_Capability caps)
      else if is_kw (b! "PERMANENTFLAGS") then
        consume_sp;; l ← parse_paren_atom_list; mret (RC_PermanentFlags l)
      else if is_kw (b! "BADCHARSET") then
        sp ← try_consume_byte SP;
        charsets ← (if (sp : bool) then parse_paren_atom_list else mret []);
        mret (RC_BadCharset charsets)
      else
        sp ← try_consume_byte SP;
        extra ← (if (sp : bool) then s ← read_until_byte "]"%byte; mret (Some s) else mret None);
        mret (RC_Other atom extra).

Definition parse_resp_text : parser (option ResponseCode * str) :=
  open ← try_consume_byte "["%byte;
  code ← (if (open : bool) then
            c ← parse_resp_text_code;
            consume_byte "]"%byte;;
            try_consume_byte SP;;
            mret (Some c)
          else mret None);
  text ← parse_text;
  mret (code, text).

Definition parse_resp_text_after_keyword : parser (option ResponseCode * str) :=
  sp ← try_consume_byte SP;
  if (sp : bool) then parse_resp_text else mret (None, []).

Definition parse_continue_req : parser Response :=
  consume_byte "+"%byte;;
  consume_sp;;
  ct ← parse_resp_text;
  consume_crlf;;
  mret (Resp_Continue (mkContinueReq ct.1 ct.2)).

Definition parse_tagged : parser Response :=
  tag ← parse_tag;
  consume_sp;;
  k ← try_parse_status_keyword;
  status ← (match k with
            | Some s => mret s
            | None =>
              rem ← remaining;
              if could_be_status_keyword_prefix rem then fail Incomplete
              else fail (Malformed "expected tagged status keyword")
            end);
  ct ← parse_resp_text_after_keyword;
  consume_crlf;;
  mret (Resp_Status (mkStatusResponse (Some tag) status ct.1 ct.2)).

(** The start of the line the cursor is on: just after the last CRLF that ends
    at or before [p], or the start of the input. *)
Fixpoint line_start_from (i : bytes) (p : nat) : nat :=
  match p with
  | O => O
  | S p' =>
    if (2 <=? p)%nat && bool_decide (slice i (p - 2) p = [CR; LF]) then p
    else line_start_from i p'
  end.

Definition find_current_line_start (i : bytes) (st : pstate) : nat := line_start_from i (pos st).

Definition finish_other_data_with_prefix (n : u32) (kind : str) : parser Response :=
  line_start ← observe find_current_line_start;
  scan (λ c, if c =?b CR then Stop else Advance);;
  p ← get_pos;
  line ← get_slice line_start p;
  consume_crlf;;
  mret (Resp_Data (DR_Other line)).

Definition parse_list_lsub_body : parser (list str * option str * str) :=
  flags ← parse_paren_atom_list;
  consume_sp;;
  delimiter ← parse_nstring;
  consume_sp;;
  name ← parse_astring;
  mret (flags, delimiter, name).

Definition parse_status_item : parser StatusItem :=
  key ← parse_atom;
  consume_sp;;
  value ← parse_number;
  let is_kw kw := str_eq_ignore_ascii_case key kw in
  mret (if is_kw (b! "MESSAGES") then SI_Messages value
        else if is_kw (b! "RECENT") then SI_Recent value
        else if is_kw (b! "UIDNEXT") then SI_UidNext value
        else if is_kw (b! "UIDVALIDITY") then SI_UidValidity value
        else if is_kw (b! "UNSEEN") then SI_Unseen value
        else SI_Other value).

Definition parse_status_items : parser (list StatusItem) :=
  consume_byte "("%byte;;
  close ← try_consume_byte ")"%byte;
  if (close : bool) then mret []
  else list_items parse_status_item "expected SP or ) in STATUS items".

Definition parse_fetch_att_name : parser str :=
  start ← get_pos;
  scan (λ c, if (c =?b SP) || (c =?b "["%byte) || (c =?b ")"%byte) then Stop else Advance);;
  eof ← observe is_eof;
  if (eof : bool) then fail Incomplete
  else
    p ← get_pos;
    if (start =? p)%nat then fail (Malformed "expected FETCH att name")
    else b ← get_slice start p; to_str b.

Definition parse_nstring_bytes : parser bytes :=
  c ← try_ peek;
  if c =?b DQUOTE then parse_quoted
  else if c =?b "{"%byte then parse_literal
  else
    expect_nil;;
    p ← get_pos;
    get_slice p p.

Definition parse_nstring_bytes_optional : parser (option bytes) :=
  c ← try_ peek;
  if c =?b DQUOTE then s ← parse_quoted; mret (Some s)
  else if c =?b "{"%byte then b ← parse_literal; mret (Some b)
  else expect_nil;; mret None.

(** [BODY] with a section: the part of [parse_one_fetch_att] after ["["]. *)
Definition parse_body_section : parser FetchAttribute :=
  section ← read_until_byte "]"%byte;
  consume_byte "]"%byte;;
  lt ← try_consume_byte "<"%byte;
  origin ← (if (lt : bool) then
              n ← parse_number;
              consume_byte ">"%byte;;
              mret (Some n)
            else mret None);
  consume_sp;;
  data ← parse_nstring_bytes_optional;
  mret (FA_BodySection (match section with [] => None | _ => Some section end) origin data).

Definition parse_one_fetch_att : parser FetchAttribute :=
  name ← parse_fetch_att_name;
  let is_kw kw := str_eq_ignore_ascii_case name kw in
  if is_kw (b! "UID") then consume_sp;; n ← parse_number; mret (FA_Uid n)
  else if is_kw (b! "FLAGS") then consume_sp;; l ← parse_paren_atom_list; mret (FA_Flags l)
  else if is_kw (b! "INTERNALDATE") then consume_sp;; s ← parse_quoted; mret (FA_InternalDate s)
  else if is_kw (b! "RFC822.SIZE") then consume_sp;; n ← parse_number; mret (FA_Rfc822Size n)
  else if is_kw (b! "RFC822") then consume_sp;; b ← parse_nstring_bytes; mret (FA_Rfc822 b)
  else if is_kw (b! "RFC822.HEADER") then
    consume_sp;; b ← parse_nstring_bytes; mret (FA_Rfc822Header b)
  else if is_kw (b! "RFC822.TEXT") then consume_sp;; b ← parse_nstring_bytes; mret (FA_Rfc822Text b)
  else if is_kw (b! "ENVELOPE") then consume_sp;; b ← parse_balanced_parens; mret (FA_Envelope b)
  else if is_kw (b! "BODYSTRUCTURE") then
    consume_sp;; b ← parse_balanced_parens; mret (FA_BodyStructure b)
  else if is_kw (b! "BODY") then
    open ← try_consume_byte "["%byte;
    if (open : bool) then parse_body_section
    else consume_sp;; b ← parse_balanced_parens; mret (FA_Body b)
  else fail (Malformed "unknown FETCH attribute").

Definition parse_fetch_msg_att : parser (list FetchAttribute) :=
  consume_byte "("%byte;;
  close ← try_consume_byte ")"%byte;
  if (close : bool) then mret []
  else list_items parse_one_fetch_att "expected SP or ) in FETCH atts".

Definition parse_numeric_data_response : parser Response :=
  n ← parse_number;
  consume_sp;;
  kind ← parse_atom;
  let is_kw kw := str_eq_ignore_ascii_case kind kw in
  let finish resp := consume_crlf;; mret (Resp_Data resp) in
  if is_kw (b! "EXISTS") then finish (DR_Exists n)
  else if is_kw (b! "RECENT") then finish (DR_Recent n)
  else if is_kw (b! "EXPUNGE") then finish (DR_Expunge n)
  else if is_kw (b! "FETCH") then
    consume_sp;; attributes ← parse_fetch_msg_att; finish (DR_Fetch n attributes)
  else finish_other_data_with_prefix n kind.

Definition parse_named_data_response : parser Response :=
  line_start ← get_pos;
  name ← parse_atom;
  let is_kw kw := str_eq_ignore_ascii_case name kw in
  let finish resp := consume_crlf;; mret (Resp_Data resp) in
  if is_kw (b! "CAPABILITY") then
    caps ← sp_items parse_atom true; finish (DR_Capability caps)
  else if is_kw (b! "LIST") then
    consume_sp;; fdn ← parse_list_lsub_body; finish (DR_List fdn.1.1 fdn.1.2 fdn.2)
  else if is_kw (b! "LSUB") then
    consume_sp;; fdn ← parse_list_lsub_body; finish (DR_Lsub fdn.1.1 fdn.1.2 fdn.2)
  else if is_kw (b! "STATUS") then
    consume_sp;;
    mailbox ← parse_astring;
    consume_sp;;
    items ← parse_status_items;
    finish (DR_Status mailbox items)
  else if is_kw (b! "SEARCH") then
    ids ← sp_items parse_number false; finish (DR_Search ids)
  else if is_kw (b! "FLAGS") then
    consume_sp;; l ← parse_paren_atom_list; finish (DR_Flags l)
  else
    scan (λ c, if c =?b CR then Stop else Advance);;
    p ← get_pos;
    line ← get_slice line_start p;
    consume_crlf;;
    mret (Resp_Data (DR_Other line)).

Definition parse_untagged : parser Response :=
  consume_byte "*"%byte;;
  consume_sp;;
  k ← try_parse_status_keyword;
  match k with
  | Some status =>
    ct ← parse_resp_text_after_keyword;
    consume_crlf;;
    mret (Resp_Status (mkStatusResponse None status ct.1 ct.2))
  | None =>
    c ← try_ peek;
    if is_ascii_digit c then parse_numeric_data_response else parse_named_data_response
  end.

Definition parse_response : parser Response :=
  eof ← observe is_eof;
  if (eof : bool) then fail Incomplete
  else
    c ← try_ peek;
    if c =?b "+"%byte then parse_continue_req
    else if c =?b "*"%byte then parse_untagged
    else parse_tagged.

End Parser.

(** What [parse_response] returns: [Ok((rest, response))], an error, or one of
    the two failures the code must never show. *)
Inductive parsed : Type :=
| Parsed (rest : bytes) (r : Response)
| ParseErr (e : ParseError)
| ParsePanics
| ParseHangs.

(** [pub fn parse_response(input)]. *)
Definition parse_response (input : bytes) : parsed :=
  match (r ← Parser.parse_response; rest ← Parser.remaining; mret (rest, r)) input Parser.new with
  | Ok (rest, r) _ => Parsed rest r
  | Err e => ParseErr e
  | Panic => ParsePanics
  | NoFuel => ParseHangs
  end.
