(* ===== verification/ParserSafety.v ===== *)
(** Safety of the parser of [ResponseParser]: on every input each method ends
    with a value or an error, never with a panic or an unbounded loop; the
    cursor only moves forward and stays inside the input; every text and byte
    slice of the result occurs in the bytes consumed, texts being UTF-8; every
    number fits a [u32]; and the list elements of a response are charged, one
    by one, against [MAX_ITEMS_PER_RESPONSE].

    Each method [m] has one total-correctness lemma [wp_m]; they are collected
    in the hint database [wp], so that a caller's lemma is its callers'
    composition ([wp_auto]). *)

From S2P Require Import Prelude Str Ast Monad ResponseParser.
From stdpp Require Import options.
Import Parser.

(* ------------------------------------------------------------------ *)
(** ** Predicates on states and results                                 *)
(* ------------------------------------------------------------------ *)

(** [moved i st st' n]: the cursor went forward inside [i] and [n] list
    elements were charged. *)
Record moved (i : bytes) (st st' : pstate) (n : nat) : Prop := {
  moved_pos : (pos st ≤ pos st' ≤ length i)%nat;
  moved_items : items_left st' = items_left st - Z.of_nat n;
  moved_budget : 0 <= items_left st';
}.

Definition wf (i : bytes) (st : pstate) : Prop := (pos st ≤ length i)%nat ∧ 0 <= items_left st.

(** [s] is the bytes [a .. b-1] of [i] for some [lo <= a <= b <= hi]: the
    slice a [&'a [u8]] of the AST borrows. *)
Definition borrowed (i : bytes) (lo hi : nat) (s : bytes) : Prop :=
  ∃ a b, (lo ≤ a ≤ b ∧ b ≤ hi ∧ b ≤ length i)%nat ∧ s = slice i a b.

(** A borrowed [&'a str]. *)
Definition text (i : bytes) (lo hi : nat) (s : str) : Prop :=
  borrowed i lo hi s ∧ utf8_valid s = true.

Definition is_u32 (n : Z) : Prop := 0 <= n <= u32_max.

(** Printable ASCII, as the parser's own messages are. *)
Definition printable (what : string) : bool := forallb (in_range 0x20 0x7E) (String.list_byte_of_string what).

(** The errors the parser can return, with their payloads' bounds. *)
Definition err_ok (i : bytes) (e : ParseError) : Prop :=
  match e with
  | InvalidChar o => (o < length i)%nat
  | LiteralTooLarge got max => max = MAX_LITERAL_SIZE ∧ max < got <= u32_max
  | TooManyItems max => max = MAX_ITEMS_PER_RESPONSE
  | Malformed what | PE_Other what => printable what = true
  | ExpectedLiteral _ _ | UnexpectedEof => False
  | _ => True
  end.

Lemma wf_moved i st st' n : moved i st st' n → wf i st'.
Proof. intros [? ? ?]. split; [lia|done]. Qed.

Lemma moved_refl i st : wf i st → moved i st st 0.
Proof. intros []. split; lia. Qed.

Lemma moved_trans i st1 st2 st3 n m :
  moved i st1 st2 n → moved i st2 st3 m → moved i st1 st3 (n + m).
Proof. intros [] []. split; lia. Qed.

Lemma borrowed_widen i lo hi lo' hi' s :
  borrowed i lo hi s → (lo' ≤ lo)%nat → (hi ≤ hi')%nat → borrowed i lo' hi' s.
Proof. intros (a & b & ? & ->) ??. exists a, b. split; [lia|done]. Qed.

Lemma text_widen i lo hi lo' hi' s :
  text i lo hi s → (lo' ≤ lo)%nat → (hi ≤ hi')%nat → text i lo' hi' s.
Proof. intros [? ?] ??. split; [by eapply borrowed_widen|done]. Qed.

Lemma texts_widen i lo hi lo' hi' l :
  Forall (text i lo hi) l → (lo' ≤ lo)%nat → (hi ≤ hi')%nat → Forall (text i lo' hi') l.
Proof. intros H ??. eapply Forall_impl; [exact H|]. intros. by eapply text_widen. Qed.

Lemma borrowed_slice i lo hi a b :
  (lo ≤ a ≤ b ∧ b ≤ hi ∧ b ≤ length i)%nat → borrowed i lo hi (slice i a b).
Proof. intros. by exists a, b. Qed.

Lemma to_str_text i lo hi s : borrowed i lo hi s → utf8_valid s = true → text i lo hi s.
Proof. done. Qed.

Lemma lookup_pos_lt i n (c : byte) : i !! n = Some c → (n < length i)%nat.
Proof. apply lookup_lt_Some. Qed.

(* ------------------------------------------------------------------ *)
(** ** Automation                                                       *)
(* ------------------------------------------------------------------ *)

Create HintDb wp discriminated.

(** Facts about the cursor, for [lia]. *)
Ltac moved_facts :=
  cbn [pos items_left] in *;
  repeat match goal with
  | H : moved _ _ _ _ |- _ => destruct H
  | H : wf _ _ |- _ => destruct H
  | H : @lookup nat byte (list byte) _ ?n ?i = Some ?c |- _ =>
      lazymatch goal with
      | _ : (n < length i)%nat |- _ => fail
      | _ => pose proof (lookup_pos_lt i n c H)
      end
  end; cbn [pos items_left] in *.

Ltac moved_lia := moved_facts; lia.

(** [wf] and [moved] goals. *)
Ltac solve_moved :=
  match goal with
  | |- wf _ _ => moved_facts; split; cbn [pos items_left length] in *; lia
  | |- moved _ _ _ _ => moved_facts; split; cbn [pos items_left length] in *; lia
  end.

#[export] Hint Extern 1 (wf _ _) => solve [solve_moved] : wp.
#[export] Hint Extern 1 (_ ≤ _)%nat => moved_lia : wp.
#[export] Hint Extern 1 (_ < _)%nat => moved_lia : wp.

(** One symbolic step of a [wp] goal. *)
Ltac wp_step :=
  lazymatch goal with
  | |- wp (_ ← _; _) _ _ _ _ => apply wp_bind
  | |- wp (mret _) _ _ _ _ => apply wp_ret
  | |- wp (fail _) _ _ _ _ => apply wp_fail
  | |- wp (observe _) _ _ _ _ => apply wp_observe
  | |- wp (ok_or _ _) _ _ _ _ => apply wp_ok_or
  | |- wp get_pos _ _ _ _ => apply wp_get_pos
  | |- wp get_len _ _ _ _ => apply wp_get_len
  | |- wp get_items_left _ _ _ _ => apply wp_get_items_left
  | |- wp (set_items_left _) _ _ _ _ => apply wp_set_items_left
  | |- wp (set_pos _) _ _ _ _ => apply wp_set_pos
  | |- wp (advance _) _ _ _ _ => apply wp_advance
  | |- wp (try_ peek) _ _ _ _ => apply wp_peek; [intros ? ?|]
  | |- wp (get_slice _ _) _ _ _ _ => apply wp_get_slice; [moved_lia|]
  | |- wp (if ?b then _ else _) _ _ _ _ => destruct b eqn:?; destr_hyps; subst
  | |- wp (let _ := _ in _) _ _ _ _ => cbv zeta
  | |- wp (match ?x with _ => _ end) _ _ _ _ => destruct x eqn:?; destr_hyps; subst
  | |- match ?x with _ => _ end => destruct x eqn:?; destr_hyps; subst
  | |- wp _ _ _ _ _ =>
      eapply wp_mono;
      [ solve [eauto 3 with wp nocore; eauto with wp]
      | intros ? ? ?; cbn beta in *; destr_hyps; subst
      | intros ? ?; try assumption ]
  end.

(** A borrowed slice of [i], UTF-8 where the goal wants a text. *)
Ltac solve_text :=
  match goal with
  | |- Forall _ [] => constructor
  | |- text _ _ _ (slice _ _ _) => split; [apply borrowed_slice; moved_lia | done]
  | |- borrowed _ _ _ (slice _ _ _) => apply borrowed_slice; moved_lia
  | H : text _ _ _ ?s |- text _ _ _ ?s => eapply text_widen; [exact H | moved_lia ..]
  | H : text _ _ _ ?s |- borrowed _ _ _ ?s => eapply borrowed_widen; [apply H | moved_lia ..]
  | H : borrowed _ _ _ ?s |- borrowed _ _ _ ?s => eapply borrowed_widen; [exact H | moved_lia ..]
  | H : Forall (text _ _ _) ?l |- Forall (text _ _ _) ?l =>
      eapply texts_widen; [exact H | moved_lia ..]
  end.

(** Split a postcondition into its parts and close what it can. *)
Ltac wp_close :=
  repeat match goal with |- _ ∧ _ => split end;
  try solve [done | solve_moved | moved_lia | cbn [err_ok]; moved_lia | byte_props; done | solve_text].

(** Run a straight-line method, leaving what is not arithmetic. *)
Ltac wp_auto := repeat (wp_step; cbn [pos items_left negb] in *; try done); wp_close.

(* ------------------------------------------------------------------ *)
(** ** Primitives                                                       *)
(* ------------------------------------------------------------------ *)

Section primitives.
Context (i : bytes).
Implicit Types (st : pstate).

(** [scan] stops at the first byte the callback does not accept. *)
Lemma wp_scan_cursor f st :
  (pos st ≤ length i)%nat →
  wp (scan f) i st
    (λ _ st', (pos st ≤ pos st' ≤ length i)%nat ∧ items_left st' = items_left st
      ∧ Forall (λ c, f c = Advance) (slice i (pos st) (pos st'))
      ∧ match i !! pos st' with Some c => f c = Stop | None => True end)
    (λ e, ∃ c, f c = Return e).
Proof.
  intros Hp. unfold scan.
  apply (wp_loop _ (λ _ st', (pos st ≤ pos st' ≤ length i)%nat ∧ items_left st' = items_left st
    ∧ Forall (λ c, f c = Advance) (slice i (pos st) (pos st')))).
  { split_and?; [lia..|done|]. rewrite slice_nil. constructor. }
  intros _ st1 (? & ? & Hs). wp_step. wp_step. unfold peek.
  destruct (i !! pos st1) as [c|] eqn:Hc; wp_step.
  - do 3 wp_step. moved_facts. split; [|lia]. split; [lia|]. split; [done|].
    replace (pos st1 + 1)%nat with (S (pos st1)) by lia.
    rewrite (slice_snoc i (pos st) (pos st1) c) by (try lia; done).
    apply Forall_app; split; [done|]. by repeat constructor.
  - wp_step. by rewrite Hc.
  - apply wp_fail. eauto.
  - by rewrite Hc.
Qed.

Lemma wp_scan f st :
  wf i st → (∀ c e, f c = Return e → err_ok i e) →
  wp (scan f) i st
    (λ _ st', moved i st st' 0
      ∧ Forall (λ c, f c = Advance) (slice i (pos st) (pos st'))
      ∧ match i !! pos st' with Some c => f c = Stop | None => True end) (err_ok i).
Proof.
  intros [Hp ?] He. eapply wp_mono; [by apply wp_scan_cursor| |].
  - intros _ st' (? & ? & ? & ?). split_and?; try done. split; lia.
  - intros e (c & Hc). by eapply He.
Qed.

Lemma wp_push_item {T} (l : list T) (x : T) st :
  wf i st →
  wp (push_item l x) i st (λ l' st', l' = l ++ [x] ∧ moved i st st' 1) (err_ok i).
Proof.
  intros. unfold push_item. do 3 wp_step. unfold usize_checked_sub.
  case_match eqn:Hn; [|done]. to_prop. wp_auto.
Qed.

Lemma wp_remaining st :
  wf i st → wp remaining i st (λ r st', r = drop (pos st) i ∧ st' = st) (err_ok i).
Proof.
  intros. unfold remaining. wp_auto. unfold slice. rewrite take_ge; [done|].
  rewrite length_drop. lia.
Qed.

Lemma wp_to_str b st :
  wp (to_str b) i st (λ s st', s = b ∧ utf8_valid b = true ∧ st' = st) (err_ok i).
Proof.
  unfold to_str, from_utf8. wp_step. case_match; simplify_eq; [|done].
  case_match; simplify_eq. done.
Qed.
#[local] Hint Resolve wp_to_str : wp.

Lemma wp_scanned_text start st :
  wf i st → (start ≤ pos st)%nat →
  wp (scanned_text start) i st
    (λ s st', st' = st ∧ (pos st < length i)%nat ∧ text i start (pos st) s
      ∧ s = slice i start (pos st)) (err_ok i).
Proof.
  intros. unfold scanned_text, is_eof. wp_auto; to_prop; wp_close.
Qed.

Lemma wp_consume_byte b st :
  wf i st →
  wp (consume_byte b) i st
    (λ _ st', moved i st st' 0 ∧ pos st' = S (pos st) ∧ i !! pos st = Some b) (err_ok i).
Proof.
  intros. unfold consume_byte. wp_auto.
Qed.

Lemma wp_try_consume_byte b st :
  wf i st →
  wp (try_consume_byte b) i st
    (λ r st', moved i st st' 0 ∧ if r : bool then pos st' = S (pos st) ∧ i !! pos st = Some b
              else st' = st ∧ i !! pos st ≠ Some b) (err_ok i).
Proof.
  intros. unfold try_consume_byte. do 2 wp_step. unfold peek.
  destruct (i !! pos st) as [c|] eqn:Hc; wp_auto; byte_props; congruence.
Qed.

#[local] Hint Resolve wp_to_str wp_remaining wp_push_item wp_consume_byte wp_try_consume_byte : wp.

Lemma wp_matches_ci kw st :
  wf i st →
  wp (matches_ci kw) i st
    (λ r st', st' = st ∧ (r = true → (pos st + length kw ≤ length i)%nat
       ∧ zip_all_ci (slice i (pos st) (pos st + length kw)) kw = true)) (err_ok i).
Proof.
  intros. unfold matches_ci, usize_checked_add. do 4 wp_step.
  wp_step; [|by apply wp_ret]. case_match; simplify_eq.
  wp_auto; to_prop.
  replace (Z.to_nat _) with (pos st + length kw)%nat by lia. split; [lia|done].
Qed.
#[local] Hint Resolve wp_matches_ci : wp.

Lemma wp_try_consume_keyword_ci kw st :
  wf i st →
  wp (try_consume_keyword_ci kw) i st
    (λ r st', moved i st st' 0 ∧
      if r : bool then (pos st' = pos st + length kw)%nat
        ∧ zip_all_ci (slice i (pos st) (pos st')) kw = true
        ∧ from_option is_boundary true (i !! pos st') = true
      else st' = st) (err_ok i).
Proof.
  intros. unfold try_consume_keyword_ci. do 2 wp_step. destruct a; cbn [negb]; [|wp_auto].
  destruct H1 as [? ?]; [done|]. wp_auto. apply negb_false_iff in Heqb.
  cbn [pos]. by destruct (i !! _).
Qed.

Lemma peek_at_ROk n st c : peek_at n i st = ROk c → i !! (pos st + n)%nat = Some c.
Proof.
  unfold peek_at, usize_checked_add. destruct (_ <=? usize_max); [|done].
  replace (Z.to_nat _) with (pos st + n)%nat by lia. by destruct (i !! _); intros [= ->].
Qed.

Lemma wp_consume_crlf st :
  wf i st →
  wp consume_crlf i st
    (λ _ st', moved i st st' 0 ∧ (pos st' = pos st + 2)%nat
      ∧ slice i (pos st) (pos st') = [CR; LF]) (err_ok i).
Proof.
  intros. unfold consume_crlf.
  wp_step. wp_step; [|done]. wp_step; [done|]. apply negb_false_iff in Heqb. wp_step. wp_step.
  case_match eqn:Hn; [|by apply wp_fail]. apply peek_at_ROk in Hn.
  pose proof (lookup_pos_lt _ _ _ Hn). wp_auto. byte_props.
  rewrite (slice_cons i _ _ CR) by (done || lia).
  replace (pos st + 2)%nat with (S (pos st + 1)) by lia.
  replace (S (pos st)) with (pos st + 1)%nat by lia. by rewrite (slice_S _ _ _ Hn).
Qed.
#[local] Hint Resolve wp_try_consume_keyword_ci wp_consume_crlf : wp.

Lemma wp_consume_sp st :
  wf i st →
  wp consume_sp i st
    (λ _ st', moved i st st' 0 ∧ pos st' = S (pos st) ∧ i !! pos st = Some SP) (err_ok i).
Proof. apply wp_consume_byte. Qed.
#[local] Hint Resolve wp_consume_sp : wp.

Lemma wp_expect_nil st :
  wf i st → wp expect_nil i st (λ _ st', moved i st st' 0 ∧ pos st' = (pos st + 3)%nat) (err_ok i).
Proof. intros. unfold expect_nil. wp_auto. Qed.

Lemma digits_parse s n :
  s ≠ [] → Forall (λ c, is_ascii_digit c = true) s → parse_u32 s = Some n →
  n = dec_val s ∧ is_u32 n.
Proof.
  intros ? Hd. rewrite parse_u32_digits by done. case_match; [|done]. intros [= <-].
  to_prop. split; [done|]. split; [by apply dec_val_nonneg|done].
Qed.

Lemma wp_parse_number st :
  wf i st →
  wp parse_number i st
    (λ n st', moved i st st' 0 ∧ (pos st < pos st')%nat ∧ is_u32 n
      ∧ Forall (λ c, is_ascii_digit c = true) (slice i (pos st) (pos st'))
      ∧ n = dec_val (slice i (pos st) (pos st'))) (err_ok i).
Proof.
  intros. unfold parse_number. do 3 wp_step.
  eapply wp_mono; [apply wp_scan; [done|]; intros c e; by case_match| |done].
  intros _ st1 (Hm & Hs & _). do 2 wp_step. wp_step; [by wp_auto|]. to_prop. moved_facts.
  wp_step. wp_step. wp_step; [|done]. wp_step. case_match eqn:Hp; [|done].
  assert (Hd : Forall (λ c, is_ascii_digit c = true) (slice i (pos st) (pos st1))).
  { eapply Forall_impl; [exact Hs|]. intros c Hc; cbn in Hc. by case_match. }
  unfold from_utf8 in *. case_match; simplify_eq.
  apply digits_parse in Hp as [-> ?]; [wp_close|apply slice_ne; lia|done].
Qed.
#[local] Hint Resolve wp_expect_nil wp_parse_number wp_scanned_text : wp.

(** The scanning methods: a run of bytes, then an error or a text. *)
Lemma wp_parse_atom st :
  wf i st →
  wp parse_atom i st
    (λ s st', moved i st st' 0 ∧ (pos st < pos st' < length i)%nat
      ∧ text i (pos st) (pos st') s ∧ s = slice i (pos st) (pos st')
      ∧ Forall (λ c, is_atom_char c = true) s) (err_ok i).
Proof.
  intros. unfold parse_atom. do 3 wp_step.
  eapply wp_mono; [apply wp_scan; [done|]; intros c e; by case_match| |done].
  intros _ st1 (Hm & Hs & _). do 2 wp_step. wp_step; [by wp_auto|]. to_prop.
  wp_auto. eapply Forall_impl; [exact Hs|]. intros c Hc; cbn in Hc. by case_match.
Qed.

Lemma wp_parse_tag st :
  wf i st →
  wp parse_tag i st
    (λ s st', moved i st st' 0 ∧ (pos st < pos st' < length i)%nat
      ∧ text i (pos st) (pos st') s ∧ s = slice i (pos st) (pos st')) (err_ok i).
Proof.
  intros. unfold parse_tag. do 3 wp_step.
  eapply wp_mono; [apply wp_scan; [done|]; intros c e; by case_match| |done].
  intros _ st1 (Hm & Hs & _). do 2 wp_step. wp_step; [by wp_auto|]. to_prop.
  wp_auto.
Qed.
End primitives.

#[export] Hint Resolve wp_to_str wp_remaining wp_push_item wp_consume_byte wp_try_consume_byte
  wp_matches_ci wp_try_consume_keyword_ci wp_consume_crlf wp_consume_sp wp_expect_nil
  wp_parse_number wp_scanned_text wp_parse_atom wp_parse_tag : wp.

(* ------------------------------------------------------------------ *)
(** ** Strings and literals                                             *)
(* ------------------------------------------------------------------ *)

Section strings.
Context (i : bytes).
Implicit Types (st : pstate).

Lemma wp_parse_quoted st :
  wf i st →
  wp parse_quoted i st
    (λ s st', moved i st st' 0 ∧ (pos st + 2 ≤ pos st')%nat ∧ text i (pos st) (pos st') s
      ∧ s = slice i (S (pos st)) (pos st' - 1)) (err_ok i).
Proof.
  intros. unfold parse_quoted. do 4 wp_step.
  apply (wp_loop _ (λ _ st2, moved i st st2 0 ∧ (S (pos st) ≤ pos st2)%nat)); [wp_close|].
  intros _ st2 [Hm ?]. wp_auto. moved_facts. f_equal; lia.
Qed.

Lemma wp_parse_literal st :
  wf i st →
  wp parse_literal i st
    (λ d st', moved i st st' 0 ∧ (pos st + 5 ≤ pos st')%nat ∧ borrowed i (pos st) (pos st') d
      ∧ Z.of_nat (length d) <= MAX_LITERAL_SIZE) (err_ok i).
Proof.
  intros. unfold parse_literal. wp_auto.
  - to_prop. unfold is_u32 in *. split; [done|]. lia.
  - apply usize_checked_add_Some in Heqo as [-> _]. to_prop. unfold is_u32 in *. wp_auto.
    rewrite length_slice by moved_lia. lia.
Qed.
#[local] Hint Resolve wp_parse_quoted wp_parse_literal : wp.

Lemma wp_parse_astring st :
  wf i st →
  wp parse_astring i st
    (λ s st', moved i st st' 0 ∧ (pos st < pos st')%nat ∧ text i (pos st) (pos st') s) (err_ok i).
Proof. intros. unfold parse_astring. wp_auto. Qed.

Lemma wp_parse_nstring st :
  wf i st →
  wp parse_nstring i st
    (λ o st', moved i st st' 0 ∧ (pos st < pos st')%nat
      ∧ from_option (text i (pos st) (pos st')) True o) (err_ok i).
Proof. intros. unfold parse_nstring. wp_auto; cbn; wp_close. Qed.

Lemma wp_parse_nstring_bytes st :
  wf i st →
  wp parse_nstring_bytes i st
    (λ b st', moved i st st' 0 ∧ (pos st < pos st')%nat ∧ borrowed i (pos st) (pos st') b)
    (err_ok i).
Proof. intros. unfold parse_nstring_bytes. wp_auto. Qed.

Lemma wp_parse_nstring_bytes_optional st :
  wf i st →
  wp parse_nstring_bytes_optional i st
    (λ o st', moved i st st' 0 ∧ (pos st < pos st')%nat
      ∧ from_option (borrowed i (pos st) (pos st')) True o) (err_ok i).
Proof. intros. unfold parse_nstring_bytes_optional. wp_auto; cbn; wp_close. Qed.

Lemma wp_parse_flag_or_atom st :
  wf i st →
  wp parse_flag_or_atom i st
    (λ s st', moved i st st' 0 ∧ (pos st < pos st')%nat ∧ text i (pos st) (pos st') s) (err_ok i).
Proof.
  intros. unfold parse_flag_or_atom. do 3 wp_step. wp_step; [|done]. wp_step.
  apply wp_mono with (Q := λ star st1, moved i st st1 0
    ∧ ((star : bool) = true → (pos st < pos st1)%nat)) (E := err_ok i); [wp_auto| |done].
  intros star st1 [Hm Hs]. destruct star; [specialize (Hs eq_refl); wp_auto|].
  wp_step. eapply wp_mono; [apply wp_scan; [by eapply wf_moved|]; intros ? e; by case_match| |done].
  intros _ st2 (Hm2 & _ & _). do 2 wp_step. wp_step; [by wp_auto|]. to_prop. wp_auto.
Qed.
End strings.

#[export] Hint Resolve wp_parse_quoted wp_parse_literal wp_parse_astring wp_parse_nstring
  wp_parse_nstring_bytes wp_parse_nstring_bytes_optional wp_parse_flag_or_atom : wp.

(* ------------------------------------------------------------------ *)
(** ** Lists                                                            *)
(* ------------------------------------------------------------------ *)

(** A list of items whose parser charges [cnt x] elements for the item [x] it
    returns and guarantees [R lo hi x] for the bytes [lo .. hi] it read. *)
Section lists.
Context (i : bytes) {T : Type} (parse_item : parser T).
Context (R : nat → nat → T → Prop) (cnt : T → nat).
Hypothesis R_widen : ∀ lo hi lo' hi' x,
  R lo hi x → (lo' ≤ lo)%nat → (hi ≤ hi')%nat → R lo' hi' x.
Hypothesis wp_item : ∀ st, wf i st →
  wp parse_item i st
    (λ x st', moved i st st' (cnt x) ∧ R (pos st) (pos st') x) (err_ok i).

Definition list_cnt (l : list T) : nat := length l + sum_list (cnt <$> l).

Lemma list_cnt_nil : list_cnt [] = 0%nat.
Proof. done. Qed.

Lemma list_cnt_snoc l x : list_cnt (l ++ [x]) = (list_cnt l + S (cnt x))%nat.
Proof.
  unfold list_cnt. rewrite fmap_app, sum_list_with_app || rewrite fmap_app.
  rewrite length_app. cbn. induction (cnt <$> l); cbn; lia.
Qed.

Lemma R_snoc lo hi a b hi' l x :
  Forall (R lo hi) l → R a b x → (hi ≤ hi')%nat → (lo ≤ a)%nat → (b ≤ hi')%nat →
  Forall (R lo hi') (l ++ [x]).
Proof using R_widen.
  intros Hl Hx ???. apply Forall_app; split.
  - eapply Forall_impl; [exact Hl|]. intros. eapply R_widen; [done|lia..].
  - repeat constructor. eapply R_widen; [done|lia..].
Qed.

Lemma wp_list_items what st :
  printable what = true → wf i st →
  wp (list_items parse_item what) i st
    (λ l st', moved i st st' (list_cnt l) ∧ Forall (R (pos st) (pos st')) l) (err_ok i).
Proof using R_widen wp_item.
  intros Hwhat Hwf. unfold list_items.
  apply (wp_loop _ (λ l st', moved i st st' (list_cnt l) ∧ Forall (R (pos st) (pos st')) l)).
  { split; [by apply moved_refl|constructor]. }
  intros l st1 [Hm Hl]. wp_step.
  eapply wp_mono; [apply wp_item; by eapply wf_moved| |done].
  intros x st2 [Hm2 Hx].
  assert (Hs : ∀ hi, (pos st2 ≤ hi)%nat → Forall (R (pos st) hi) (l ++ [x])).
  { intros hi ?. eapply R_snoc; [exact Hl|exact Hx|moved_lia..]. }
  wp_auto; rewrite ?list_cnt_snoc; try solve_moved; try done; apply Hs; moved_lia.
Qed.

Lemma wp_sp_items st :
  wf i st →
  wp (sp_items parse_item true) i st
    (λ l st', moved i st st' (list_cnt l) ∧ Forall (R (pos st) (pos st')) l) (err_ok i).
Proof using R_widen wp_item.
  intros Hwf. unfold sp_items.
  apply (wp_loop _ (λ l st', moved i st st' (list_cnt l) ∧ Forall (R (pos st) (pos st')) l)).
  { split; [by apply moved_refl|constructor]. }
  intros l st1 [Hm Hl]. do 2 wp_step. wp_step; [|wp_auto].
  wp_step. eapply wp_mono; [apply wp_item; solve_moved| |done].
  intros x st2 [Hm2 Hx].
  assert (Hs : ∀ hi, (pos st2 ≤ hi)%nat → Forall (R (pos st) hi) (l ++ [x])).
  { intros hi ?. eapply R_snoc; [exact Hl|exact Hx|moved_lia..]. }
  wp_auto; rewrite ?list_cnt_snoc; try solve_moved; apply Hs; moved_lia.
Qed.

(** The uncharged list of [SEARCH]. *)
Lemma wp_sp_items_free st :
  wf i st → (∀ x, cnt x = 0%nat) →
  wp (sp_items parse_item false) i st
    (λ l st', moved i st st' 0 ∧ Forall (R (pos st) (pos st')) l) (err_ok i).
Proof using R_widen wp_item.
  intros Hwf Hcnt. unfold sp_items.
  apply (wp_loop _ (λ l st', moved i st st' 0 ∧ Forall (R (pos st) (pos st')) l)).
  { split; [by apply moved_refl|constructor]. }
  intros l st1 [Hm Hl]. do 2 wp_step. wp_step; [|wp_auto].
  wp_step. eapply wp_mono; [apply wp_item; solve_moved| |done].
  intros x st2 [Hm2 Hx]. rewrite Hcnt in Hm2.
  assert (Hs : ∀ hi, (pos st2 ≤ hi)%nat → Forall (R (pos st) hi) (l ++ [x])).
  { intros hi ?. eapply R_snoc; [exact Hl|exact Hx|moved_lia..]. }
  wp_auto; apply Hs; moved_lia.
Qed.
End lists.

Section texts.
Context (i : bytes).
Implicit Types (st : pstate).

Lemma list_cnt_zero {T} (l : list T) : list_cnt (λ _, 0%nat) l = length l.
Proof. unfold list_cnt. induction l as [|x l IH]; cbn in *; lia. Qed.

Lemma wp_parse_paren_atom_list st :
  wf i st →
  wp parse_paren_atom_list i st
    (λ l st', moved i st st' (length l) ∧ (pos st < pos st')%nat
      ∧ Forall (text i (pos st) (pos st')) l) (err_ok i).
Proof.
  intros. unfold parse_paren_atom_list. wp_auto.
  eapply wp_mono; [apply (wp_list_items i _ (text i) (λ _, 0%nat))| |done]; try solve_moved; [| |done|].
  - intros. by eapply text_widen.
  - intros st1 ?. eapply wp_mono; [by apply wp_parse_flag_or_atom| |done]. by intros ? ? (? & _ & ?).
  - intros l st1 [Hm Hl]. rewrite list_cnt_zero in Hm. wp_close.
Qed.

Lemma wp_parse_balanced_parens st :
  wf i st →
  wp parse_balanced_parens i st
    (λ b st', moved i st st' 0 ∧ (pos st < pos st')%nat ∧ borrowed i (pos st) (pos st') b)
    (err_ok i).
Proof.
  intros. unfold parse_balanced_parens. do 5 wp_step.
  eapply wp_mono; [apply (wp_loop _ (λ _ st1, moved i st st1 0 ∧ (pos st < pos st1)%nat)
    _ _ _ (λ _ st1, moved i st st1 0 ∧ (pos st < pos st1)%nat))| |done].
  - wp_close.
  - intros depth st1 [Hm ?]. wp_auto.
  - intros _ st1 [Hm ?]. wp_auto.
Qed.

Lemma wp_parse_text st :
  wf i st →
  wp parse_text i st
    (λ s st', moved i st st' 0 ∧ (pos st' < length i)%nat ∧ text i (pos st) (pos st') s
      ∧ s = slice i (pos st) (pos st') ∧ (CR ∉ s) ∧ (LF ∉ s)) (err_ok i).
Proof.
  intros. unfold parse_text. do 3 wp_step.
  eapply wp_mono; [apply wp_scan; [done|]; intros c e; by case_match| |done].
  intros _ st1 (Hm & Hs & _). rewrite Forall_forall in Hs. wp_auto.
  - intros Hc%Hs. done.
  - intros Hc%Hs. done.
Qed.

Lemma wp_read_until_byte t st :
  wf i st →
  wp (read_until_byte t) i st
    (λ s st', moved i st st' 0 ∧ text i (pos st) (pos st') s
      ∧ s = slice i (pos st) (pos st')) (err_ok i).
Proof.
  intros. unfold read_until_byte. do 3 wp_step.
  eapply wp_mono; [apply wp_scan; [done|]; intros c e; repeat case_match; try done; by intros [= <-]| |done].
  intros _ st1 (Hm & Hs & _). wp_auto.
Qed.

Lemma wp_try_parse_status_keyword st :
  wf i st →
  wp try_parse_status_keyword i st
    (λ o st', moved i st st' 0 ∧ (is_Some o ∨ st' = st)) (err_ok i).
Proof.
  intros. unfold try_parse_status_keyword. wp_auto; first [by left; eexists | by right].
Qed.
End texts.

#[export] Hint Resolve wp_parse_paren_atom_list wp_parse_balanced_parens wp_parse_text
  wp_read_until_byte wp_try_parse_status_keyword : wp.

(* ------------------------------------------------------------------ *)
(** ** Well-formed responses                                            *)
(* ------------------------------------------------------------------ *)

Section response_ok.
Context (i : bytes) (lo hi : nat).

Definition code_ok (c : ResponseCode) : Prop :=
  match c with
  | RC_BadCharset l | RC_Capability l | RC_PermanentFlags l => Forall (text i lo hi) l
  | RC_UidNext n | RC_UidValidity n | RC_Unseen n => is_u32 n
  | RC_Other a e => text i lo hi a ∧ from_option (text i lo hi) True e
  | _ => True
  end.

Definition status_item_ok (s : StatusItem) : Prop :=
  match s with
  | SI_Messages n | SI_Recent n | SI_UidNext n | SI_UidValidity n | SI_Unseen n
  | SI_Other n => is_u32 n
  end.

Definition attr_ok (a : FetchAttribute) : Prop :=
  match a with
  | FA_Flags l => Forall (text i lo hi) l
  | FA_InternalDate s => text i lo hi s
  | FA_Rfc822Size n | FA_Uid n => is_u32 n
  | FA_Rfc822 b | FA_Rfc822Header b | FA_Rfc822Text b | FA_Envelope b | FA_Body b
  | FA_BodyStructure b => borrowed i lo hi b
  | FA_BodySection s o d =>
      from_option (text i lo hi) True s ∧ from_option is_u32 True o
      ∧ from_option (borrowed i lo hi) True d
  end.

Definition data_ok (d : DataResponse) : Prop :=
  match d with
  | DR_Capability l | DR_Flags l => Forall (text i lo hi) l
  | DR_List l d n | DR_Lsub l d n =>
      Forall (text i lo hi) l ∧ from_option (text i lo hi) True d ∧ text i lo hi n
  | DR_Status m items => text i lo hi m ∧ Forall status_item_ok items
  | DR_Search ids => Forall is_u32 ids
  | DR_Exists n | DR_Recent n | DR_Expunge n => is_u32 n
  | DR_Fetch n atts => is_u32 n ∧ Forall attr_ok atts
  | DR_Other line => borrowed i lo hi line
  end.

(** Resp-text never holds a line break. *)
Definition resp_text_ok (c : option ResponseCode) (t : str) : Prop :=
  from_option code_ok True c ∧ (t = [] ∨ text i lo hi t) ∧ (CR ∉ t) ∧ (LF ∉ t).

Definition response_ok (r : Response) : Prop :=
  match r with
  | Resp_Status s =>
      from_option (text i lo hi) True (sr_tag s) ∧ resp_text_ok (sr_code s) (sr_text s)
  | Resp_Data d => data_ok d
  | Resp_Continue c => resp_text_ok (cr_code c) (cr_text c)
  end.
End response_ok.

Section widen.
Context (i : bytes) (lo hi lo' hi' : nat) (Hlo : (lo' ≤ lo)%nat) (Hhi : (hi ≤ hi')%nat).

Lemma opt_text_widen o :
  from_option (text i lo hi) True o → from_option (text i lo' hi') True o.
Proof using Hlo Hhi. destruct o; cbn; [|done]. intros. by eapply text_widen. Qed.

Lemma opt_borrowed_widen o :
  from_option (borrowed i lo hi) True o → from_option (borrowed i lo' hi') True o.
Proof using Hlo Hhi. destruct o; cbn; [|done]. intros. by eapply borrowed_widen. Qed.

Lemma code_ok_widen c : code_ok i lo hi c → code_ok i lo' hi' c.
Proof using Hlo Hhi.
  destruct c; cbn; try done; intros; destr_hyps;
    eauto using texts_widen, text_widen, opt_text_widen.
Qed.

Lemma attr_ok_widen a : attr_ok i lo hi a → attr_ok i lo' hi' a.
Proof using Hlo Hhi.
  destruct a; cbn; try done; intros; destr_hyps; split_and?; try done;
    first [ by eapply texts_widen | by eapply text_widen | by eapply borrowed_widen
          | by apply opt_text_widen | by apply opt_borrowed_widen ].
Qed.
End widen.

Section responses.
Context (i : bytes).
Implicit Types (st : pstate).

Lemma wp_atoms st :
  wf i st →
  wp (sp_items parse_atom true) i st
    (λ l st', moved i st st' (length l) ∧ Forall (text i (pos st) (pos st')) l) (err_ok i).
Proof.
  intros. eapply wp_mono; [apply (wp_sp_items i _ (text i) (λ _, 0%nat))| |done]; try solve_moved.
  - intros. by eapply text_widen.
  - intros st1 ?. eapply wp_mono; [by apply wp_parse_atom| |done]. by intros ? ? (? & _ & ? & _).
  - intros l st1 [Hm ?]. rewrite list_cnt_zero in Hm. done.
Qed.

Lemma wp_numbers st :
  wf i st →
  wp (sp_items parse_number false) i st
    (λ l st', moved i st st' 0 ∧ Forall is_u32 l) (err_ok i).
Proof.
  intros. eapply (wp_sp_items_free i _ (λ _ _, is_u32) (λ _, 0%nat)); try done.
  intros st1 ?. eapply wp_mono; [by apply wp_parse_number| |done]. by intros ? ? (? & _ & ? & _).
Qed.
#[local] Hint Resolve wp_atoms wp_numbers : wp.

Lemma wp_parse_resp_text_code st :
  wf i st →
  wp parse_resp_text_code i st
    (λ c st', moved i st st' (code_items c) ∧ code_ok i (pos st) (pos st') c) (err_ok i).
Proof.
  intros. unfold parse_resp_text_code. do 3 wp_step.
  eapply wp_mono; [apply wp_scan; [done|]; intros c e; repeat case_match; try done; by intros [= <-]| |done].
  intros _ st1 (Hm & _ & _). unfold is_eof.
  wp_auto; cbn [code_items code_ok from_option] in *; wp_close; try by constructor.
Qed.
#[local] Hint Resolve wp_parse_resp_text_code : wp.

Lemma wp_parse_resp_text st :
  wf i st →
  wp parse_resp_text i st
    (λ ct st', moved i st st' (opt_code_items ct.1)
      ∧ resp_text_ok i (pos st) (pos st') ct.1 ct.2) (err_ok i).
Proof.
  intros. unfold parse_resp_text. do 3 wp_step.
  apply wp_mono with (Q := λ c st1, moved i st st1 (opt_code_items c)
    ∧ from_option (code_ok i (pos st) (pos st1)) True c) (E := err_ok i); [| |done].
  - wp_auto; cbn [opt_code_items from_option]; wp_close.
    eapply code_ok_widen; [..|done]; moved_lia.
  - intros c st1 [Hm Hc]. wp_auto; unfold resp_text_ok; cbn [fst snd]; wp_close.
    + destruct c; [|done]. eapply code_ok_widen; [..|done]; moved_lia.
    + right. solve_text.
Qed.
#[local] Hint Resolve wp_parse_resp_text : wp.

Lemma resp_text_ok_widen lo hi lo' hi' c t :
  resp_text_ok i lo hi c t → (lo' ≤ lo)%nat → (hi ≤ hi')%nat → resp_text_ok i lo' hi' c t.
Proof.
  intros (Hc & Ht & ? & ?) ??. repeat split; try done.
  - destruct c; [|done]. by eapply code_ok_widen.
  - destruct Ht; [by left|]. right. by eapply text_widen.
Qed.

Lemma data_ok_widen lo hi lo' hi' d :
  data_ok i lo hi d → (lo' ≤ lo)%nat → (hi ≤ hi')%nat → data_ok i lo' hi' d.
Proof.
  intros Hd ??. destruct d; cbn in *; destr_hyps; split_and?; try done;
    first [ by eapply texts_widen | by eapply text_widen | by eapply borrowed_widen
          | by eapply opt_text_widen | idtac ].
  eapply Forall_impl; [done|]. intros. by eapply attr_ok_widen.
Qed.

Lemma response_ok_widen lo hi lo' hi' r :
  response_ok i lo hi r → (lo' ≤ lo)%nat → (hi ≤ hi')%nat → response_ok i lo' hi' r.
Proof.
  intros Hr ??. destruct r; cbn in *; destr_hyps; split_and?;
    first [ by eapply resp_text_ok_widen | by eapply data_ok_widen | by eapply opt_text_widen ].
Qed.
Lemma wp_parse_resp_text_after_keyword st :
  wf i st →
  wp parse_resp_text_after_keyword i st
    (λ ct st', moved i st st' (opt_code_items ct.1)
      ∧ resp_text_ok i (pos st) (pos st') ct.1 ct.2) (err_ok i).
Proof.
  intros. unfold parse_resp_text_after_keyword. wp_auto.
  - eapply resp_text_ok_widen; [done|moved_lia..].
  - unfold resp_text_ok; cbn; wp_close; first [by left | apply not_elem_of_nil].
Qed.
#[local] Hint Resolve wp_parse_resp_text_after_keyword : wp.

(** What a finished response parser guarantees: the cursor stands just after
    the CRLF that ends the response. *)
Definition ends_crlf (p : nat) : Prop := (2 ≤ p)%nat ∧ slice i (p - 2) p = [CR; LF].

(** The line of [Other] is everything before the CRLF, with or without the
    leading ["* "]. *)
Definition other_ok (p : nat) (r : Response) : Prop :=
  match r with
  | Resp_Data (DR_Other line) =>
      (line = slice i 0 p ∨ line = slice i 2 p) ∧ (CR ∉ line)
      ∧ take 2 i = b! "* " ∧ (2 ≤ p)%nat
  | _ => True
  end.

Definition response_post st (r : Response) st' : Prop :=
  moved i st st' (response_items r) ∧ (2 < pos st')%nat
  ∧ response_ok i 0 (pos st') r ∧ ends_crlf (pos st') ∧ other_ok (pos st' - 2) r.

Lemma ends_crlf_intro st1 st2 n :
  moved i st1 st2 n → (pos st2 = pos st1 + 2)%nat → slice i (pos st1) (pos st2) = [CR; LF] →
  ends_crlf (pos st2).
Proof. intros ? Hp Hs. split; [lia|]. by replace (pos st2 - 2)%nat with (pos st1) by lia. Qed.

Lemma attrs_ok_widen lo hi lo' hi' l :
  Forall (attr_ok i lo hi) l → (lo' ≤ lo)%nat → (hi ≤ hi')%nat → Forall (attr_ok i lo' hi') l.
Proof. intros Hl ??. eapply Forall_impl; [exact Hl|]. intros. by eapply attr_ok_widen. Qed.

Lemma response_post_mono st0 st r st' :
  response_post st r st' → moved i st0 st 0 → response_post st0 r st'.
Proof.
  intros (Hm & ? & ? & ? & ?) ?. unfold response_post.
  repeat match goal with |- _ ∧ _ => split end; first [done | solve_moved | moved_lia].
Qed.

Ltac finish_response :=
  wp_auto; try (eapply response_post_mono; [eassumption|solve_moved]);
  unfold response_post;
  cbn [response_items opt_code_items sr_code sr_text sr_tag cr_code cr_text fst snd
       data_items response_ok data_ok other_ok from_option] in *;
  repeat match goal with
  | |- context [ (length ?l + sum_list (attr_items <$> ?l))%nat ] =>
      change (length l + sum_list (attr_items <$> l))%nat with (list_cnt attr_items l)
  end;
  wp_close;
  try (eapply ends_crlf_intro; eassumption);
  try (eapply attrs_ok_widen; [eassumption|moved_lia..]);
  try (eapply resp_text_ok_widen; [eassumption|moved_lia..]);
  try (eapply opt_text_widen; [| |eassumption]; moved_lia).

Lemma wp_parse_continue_req st :
  wf i st → wp parse_continue_req i st (response_post st) (err_ok i).
Proof. intros. unfold parse_continue_req. finish_response. Qed.

Lemma wp_parse_tagged st :
  wf i st → wp parse_tagged i st (response_post st) (err_ok i).
Proof.
  intros. unfold parse_tagged. finish_response.
Qed.

Lemma wp_scan_line st :
  wf i st →
  wp (scan (λ c, if c =?b CR then Stop else Advance)) i st
    (λ _ st', moved i st st' 0 ∧ CR ∉ slice i (pos st) (pos st')) (err_ok i).
Proof.
  intros. eapply wp_mono; [apply wp_scan; [done|]; intros c e; by case_match| |done].
  intros _ st1 (? & Hs & _). split; [done|]. rewrite Forall_forall in Hs. by intros ?%Hs.
Qed.

Lemma line_start_from_le p : (line_start_from i p ≤ p)%nat.
Proof. induction p as [|p IH]; cbn [line_start_from]; [done|]. case_match; lia. Qed.

Lemma wp_parse_list_lsub_body st :
  wf i st →
  wp parse_list_lsub_body i st
    (λ fdn st', moved i st st' (length fdn.1.1) ∧ (pos st < pos st')%nat
      ∧ Forall (text i (pos st) (pos st')) fdn.1.1
      ∧ from_option (text i (pos st) (pos st')) True fdn.1.2
      ∧ text i (pos st) (pos st') fdn.2) (err_ok i).
Proof.
  intros. unfold parse_list_lsub_body. wp_auto; cbn [fst snd]; wp_close.
  eapply opt_text_widen; [..|done]; moved_lia.
Qed.
#[local] Hint Resolve wp_scan_line wp_parse_list_lsub_body : wp.

Lemma wp_parse_status_item st :
  wf i st →
  wp parse_status_item i st (λ s st', moved i st st' 0 ∧ status_item_ok s) (err_ok i).
Proof. intros. unfold parse_status_item. wp_auto. by repeat case_match. Qed.

Lemma wp_parse_status_items st :
  wf i st →
  wp parse_status_items i st
    (λ l st', moved i st st' (length l) ∧ Forall status_item_ok l) (err_ok i).
Proof.
  intros. unfold parse_status_items. wp_auto.
  eapply wp_mono; [apply (wp_list_items i _ (λ _ _, status_item_ok) (λ _, 0%nat))| |done];
    try solve_moved; try done.
  - apply wp_parse_status_item.
  - intros l st1 [Hm Hl]. rewrite list_cnt_zero in Hm. wp_close.
Qed.

Lemma wp_parse_fetch_att_name st :
  wf i st →
  wp parse_fetch_att_name i st
    (λ s st', moved i st st' 0 ∧ (pos st < pos st' < length i)%nat
      ∧ text i (pos st) (pos st') s ∧ s = slice i (pos st) (pos st')) (err_ok i).
Proof.
  intros. unfold parse_fetch_att_name. do 3 wp_step.
  eapply wp_mono; [apply wp_scan; [done|]; intros c e; by case_match| |done].
  intros _ st1 (Hm & Hs & _). unfold is_eof. wp_auto; to_prop; wp_close.
Qed.

Lemma wp_parse_body_section st :
  wf i st →
  wp parse_body_section i st
    (λ a st', moved i st st' (attr_items a) ∧ attr_ok i (pos st) (pos st') a) (err_ok i).
Proof.
  intros. unfold parse_body_section. do 7 wp_step.
  match goal with |- wp _ _ ?st1 _ _ =>
    apply wp_mono with (Q := λ o st2, moved i st st2 0 ∧ (pos st1 ≤ pos st2)%nat
      ∧ from_option is_u32 True o) (E := err_ok i); [by wp_auto| |done]
  end.
  intros o st2 (Hm & ? & Ho). wp_auto; cbn [attr_items attr_ok]; wp_close; split_and?;
    try done; first [ eapply opt_borrowed_widen; [..|eassumption]; moved_lia | idtac ].
  match goal with
  | H : text _ _ _ (slice _ _ _) |- from_option (text _ ?lo ?hi) _ _ =>
      eapply (text_widen _ _ _ lo hi) in H; [by destruct (slice _ _ _) | moved_lia ..]
  end.
Qed.
#[local] Hint Resolve wp_parse_body_section wp_parse_status_items wp_parse_fetch_att_name : wp.

Lemma wp_parse_one_fetch_att st :
  wf i st →
  wp parse_one_fetch_att i st
    (λ a st', moved i st st' (attr_items a) ∧ attr_ok i (pos st) (pos st') a) (err_ok i).
Proof.
  intros. unfold parse_one_fetch_att.
  wp_auto; cbn [attr_items attr_ok] in *; wp_close.
  eapply attr_ok_widen; [..|eassumption]; moved_lia.
Qed.

Lemma wp_parse_fetch_msg_att st :
  wf i st →
  wp parse_fetch_msg_att i st
    (λ l st', moved i st st' (list_cnt attr_items l)
      ∧ Forall (attr_ok i (pos st) (pos st')) l) (err_ok i).
Proof.
  intros. unfold parse_fetch_msg_att. wp_auto; [rewrite list_cnt_nil; solve_moved|].
  eapply wp_mono; [apply (wp_list_items i _ (attr_ok i) attr_items)| |done]; try solve_moved; [| |done|].
  - intros. by eapply attr_ok_widen.
  - apply wp_parse_one_fetch_att.
  - intros l st1 [Hm Hl]. wp_close. eapply Forall_impl; [exact Hl|].
    intros. eapply attr_ok_widen; [..|done]; moved_lia.
Qed.
#[local] Hint Resolve wp_parse_one_fetch_att wp_parse_fetch_msg_att : wp.

Lemma line_start_from_zero p : LF ∉ take p i → line_start_from i p = 0%nat.
Proof.
  induction p as [|p IH]; cbn [line_start_from]; [done|]. intros Hlf.
  case_match eqn:Hb.
  - exfalso. apply andb_true_iff in Hb as [Hp Hb]. to_prop. apply bool_decide_eq_true in Hb.
    apply Hlf, (elem_of_take_split _ (S p - 2)); [lia|]. right. rewrite Hb. set_solver.
  - apply IH. intros Hin. apply Hlf, (elem_of_take_split _ p); [lia|]. by left.
Qed.

(** No line break among the first [p] bytes. *)
Definition clean (p : nat) : Prop := (CR ∉ take p i) ∧ (LF ∉ take p i).

Lemma clean_grow (P : byte → bool) a b :
  clean a → (a ≤ b)%nat → Forall (λ c, P c = true) (slice i a b) →
  P CR = false → P LF = false → clean b.
Proof.
  intros [Hcr Hlf] ? Hs HC HL. rewrite Forall_forall in Hs.
  split; intros [?|Hin]%(elem_of_take_split _ a); try done; apply Hs in Hin; congruence.
Qed.

Lemma clean_byte a c : clean a → i !! a = Some c → c ≠ CR → c ≠ LF → clean (S a).
Proof.
  intros Hc Ha ??. apply (clean_grow (λ x, bool_decide (x = c)) a); [done|lia|..].
  - rewrite (slice_S _ _ _ Ha). constructor; [by apply bool_decide_eq_true|constructor].
  - by apply bool_decide_eq_false.
  - by apply bool_decide_eq_false.
Qed.

Lemma wp_finish_other_data_with_prefix n kind st :
  wf i st → clean (pos st) → (2 ≤ pos st)%nat → take 2 i = b! "* " →
  wp (finish_other_data_with_prefix n kind) i st (response_post st) (err_ok i).
Proof.
  intros Hwf [Hcr Hlf] ??. unfold finish_other_data_with_prefix, find_current_line_start.
  do 2 wp_step. rewrite line_start_from_zero by done. finish_response.
  - left. f_equal. lia.
  - rewrite slice_0, (elem_of_take_split _ (pos st)) by moved_lia. intros [?|?]; done.
Qed.
#[local] Hint Resolve wp_finish_other_data_with_prefix : wp.

Lemma wp_parse_numeric_data_response st :
  wf i st → clean (pos st) → pos st = 2%nat → take 2 i = b! "* " →
  wp parse_numeric_data_response i st (response_post st) (err_ok i).
Proof.
  intros Hwf Hc ??. unfold parse_numeric_data_response. do 6 wp_step.
  match goal with _ : moved i st ?st1 0, _ : moved i ?st2 ?st3 0 |- wp _ i ?st3 _ _ =>
    assert (clean (pos st3));
    [apply (clean_grow is_atom_char (S (pos st1)));
      [apply (clean_byte _ SP); [apply (clean_grow is_ascii_digit (pos st))|..]|..] |]
  end; try solve [done | moved_lia | by match goal with H : pos _ = S _ |- _ => rewrite <- H end].
  finish_response.
Qed.

Lemma wp_parse_named_data_response st :
  wf i st → pos st = 2%nat → take 2 i = b! "* " →
  wp parse_named_data_response i st (response_post st) (err_ok i).
Proof.
  intros Hwf H2 ?. unfold parse_named_data_response. finish_response.
  - right. rewrite H2. f_equal. lia.
  - rewrite (slice_split _ _ (pos st')), elem_of_app by moved_lia. intros [Hin|]; [|done].
    match goal with H : Forall _ (slice _ _ _) |- _ => rewrite Forall_forall in H; by apply H in Hin end.
Qed.
#[local] Hint Resolve wp_parse_numeric_data_response wp_parse_named_data_response : wp.

Lemma wp_parse_untagged st :
  wf i st → pos st = 0%nat → wp parse_untagged i st (response_post st) (err_ok i).
Proof.
  intros Hwf H0. unfold parse_untagged. do 7 wp_step.
  { finish_response. }
  match goal with H : is_Some None ∨ _ |- _ => destruct H as [[? [=]]|Hst'] end.
  match type of Hst' with ?st1 = ?st0 =>
    assert (clean (pos st1) ∧ pos st1 = 2%nat ∧ moved i st st1 0 ∧ wf i st1)
      as (Hc & Hp & Hm & Hwf');
    [rewrite Hst'; repeat match goal with |- _ ∧ _ => split end; try solve_moved; [|congruence]|clear Hst']
  end.
  { repeat match goal with H : pos _ = S _ |- _ => rewrite H end.
    rewrite H0. apply (clean_byte 1 SP); [apply (clean_byte 0 "*"%byte)|..]; try done;
      [split; apply not_elem_of_nil | congruence..]. }
  assert (take 2 i = b! "* ").
  { rewrite <- slice_0, (slice_cons _ 0 2 "*"%byte), (slice_S _ 1 SP); first [done | lia | congruence]. }
  wp_step. wp_step; [wp_step|done];
    (eapply wp_mono; [eauto with wp|intros; by eapply response_post_mono|done]).
Qed.
#[local] Hint Resolve wp_parse_continue_req wp_parse_tagged wp_parse_untagged : wp.

Lemma wp_parse_response :
  wp parse_response i new (response_post new) (err_ok i).
Proof.
  assert (wf i new) by (split; [cbn; lia|done]).
  unfold parse_response. wp_step. wp_step. wp_step; [done|]. wp_step. wp_step; [|done].
  wp_step; [|wp_step]; eauto with wp.
Qed.
End responses.
