(* ===== verification/ParserStream.v ===== *)
(** What the parser of [ResponseParser] does when more input arrives. The
    client and the STARTTLS exchange call [parse_response] on whatever has been
    read so far and call it again, from the start, when it answers
    [Incomplete]; this is right only if an answer other than [Incomplete] does
    not depend on what has not been read yet.

    For each method the runs on [i] and on [i ++ ext] are compared: they agree,
    or the shorter one ended at the end of its input in a way its caller must
    turn into [Incomplete] ([sim]). *)

From S2P Require Import Prelude Str Ast Monad ResponseParser ParserSafety.
From stdpp Require Import options.
Import Parser.

(* ------------------------------------------------------------------ *)
(** ** The relation                                                     *)
(* ------------------------------------------------------------------ *)

Definition hard {A} (o : outcome A) : Prop := ∃ e, o = Err e ∧ e ≠ Incomplete.

(** A method that, from [st], only asks for more input. *)
Definition starved {A} (m : parser A) (i : bytes) (st : pstate) : Prop :=
  match m i st with
  | Ok _ _ => False
  | Err e => e = Incomplete
  | Panic | NoFuel => True
  end.

(** What the longer run may do when the shorter one stopped at its end of
    input in [st']: nothing of the kind, anything, or a value with as many
    items left or a hard error. *)
Inductive leeway : Type := Strict | SameItems | Anything.

Definition allows {A} (K : leeway) (st' : pstate) (o : outcome A) : Prop :=
  match K with
  | Strict => False
  | SameItems =>
    match o with
    | Ok _ st2 => items_left st2 = items_left st'
    | Err e => e ≠ Incomplete
    | _ => False
    end
  | Anything => True
  end.

Section sim.
Context (i ext : bytes).
Abbreviation j := (i ++ ext).

Definition sim {A} (K : leeway) (m : parser A) (st : pstate) : Prop :=
  match m i st with
  | Ok a st' => m j st = Ok a st' ∨ ((length i ≤ pos st')%nat ∧ allows K st' (m j st))
  | Err e => e = Incomplete ∨ hard (m j st)
  | Panic | NoFuel => True
  end.

Lemma sim_weaken {A} K K' (m : parser A) st :
  sim K m st → (∀ st' o, allows (A := A) K st' o → allows K' st' o) → sim K' m st.
Proof.
  unfold sim. intros H HK. destruct (m i st); try done.
  destruct H as [?|[? ?]]; [by left|right]. auto.
Qed.

Lemma sim_strict {A} K (m : parser A) st : sim Strict m st → sim K m st.
Proof. intros. by eapply sim_weaken. Qed.

Lemma sim_any {A} K (m : parser A) st : sim K m st → sim Anything m st.
Proof. intros. by eapply sim_weaken. Qed.

Lemma hard_bind {A B} (m : parser A) (k : A → parser B) st :
  hard (m j st) → hard ((m ≫= k) j st).
Proof. intros (e & He & ?). exists e. unfold mbind, parser_bind. by rewrite He. Qed.

Lemma sim_ret {A} K (a : A) st : sim K (mret a) st.
Proof. by left. Qed.

Lemma sim_fail {A} K e st : sim K (fail (A := A) e) st.
Proof. unfold sim, fail. destruct (decide (e = Incomplete)); [by left|right]. by exists e. Qed.

Lemma sim_ok_or {A} K (o : option A) e st : sim K (ok_or o e) st.
Proof. destruct o; [apply sim_ret|apply sim_fail]. Qed.

(** A binder whose first part may stop early: the rest must ask for input. *)
Lemma sim_bind {A B} K K' (m : parser A) (k : A → parser B) st :
  sim K' m st → (∀ a st', sim K (k a) st') →
  (∀ a st', (length i ≤ pos st')%nat → starved (k a) i st') →
  sim K (m ≫= k) st.
Proof.
  unfold sim at 1 3, mbind, parser_bind. intros Hm Hk Hs.
  destruct (m i st) as [a st'|e| |] eqn:Hi; try done.
  - destruct Hm as [->|[Hp _]]; [apply Hk|].
    specialize (Hs a st' Hp). unfold starved in Hs. destruct (k a i st'); try done. by left.
  - destruct Hm as [?|Hm]; [by left|right]. by apply (hard_bind m k).
Qed.

Lemma sim_bind_strict {A B} K (m : parser A) (k : A → parser B) st :
  sim Strict m st → (∀ a st', m i st = Ok a st' → sim K (k a) st') → sim K (m ≫= k) st.
Proof.
  unfold sim at 1 3, mbind, parser_bind. intros Hm Hk.
  destruct (m i st) as [a st'|e| |] eqn:Hi; try done.
  - destruct Hm as [->|[_ []]]. by apply Hk.
  - destruct Hm as [?|Hm]; [by left|right]. by apply (hard_bind m k).
Qed.

(** [m] followed by a pure function. *)
Lemma sim_bind_ret {A B} K (m : parser A) (f : A → B) st :
  sim K m st → sim K (m ≫= λ a, mret (f a)) st.
Proof.
  unfold sim, mbind, parser_bind, mret, parser_ret. intros Hm.
  destruct (m i st) as [a st'|e| |]; try done.
  - destruct Hm as [->|[? Hk]]; [by left|right]. split; [done|].
    destruct K; try done. cbn in *. by destruct (m j st).
  - destruct Hm as [?|(e' & -> & ?)]; [by left|right]. by exists e'.
Qed.

Lemma lookup_ext n c : i !! n = Some c → j !! n = Some c.
Proof. apply lookup_app_l_Some. Qed.

Lemma sim_peek K st : sim K (try_ peek) st.
Proof.
  unfold sim, try_, peek. destruct (i !! pos st) as [c|] eqn:Hc; [|by left].
  left. by rewrite (lookup_ext _ _ Hc).
Qed.

Lemma sim_get_pos K st : sim K get_pos st.
Proof. by left. Qed.
Lemma sim_get_items_left K st : sim K get_items_left st.
Proof. by left. Qed.
Lemma sim_set_items_left K n st : sim K (set_items_left n) st.
Proof. by left. Qed.
Lemma sim_set_pos K n st : sim K (set_pos n) st.
Proof. by left. Qed.
Lemma sim_advance K n st : sim K (advance n) st.
Proof. by left. Qed.

Lemma sim_get_slice K a b st : sim K (get_slice a b) st.
Proof.
  unfold sim, get_slice. destruct ((a <=? b)%nat && (b <=? length i)%nat) eqn:Hb; [|done].
  apply andb_true_iff in Hb as [Ha Hb]. to_prop. left. rewrite length_app, slice_app_l by lia.
  replace ((a <=? b)%nat && (b <=? length i + length ext)%nat) with true; [done|].
  symmetry. apply andb_true_iff. split; apply Nat.leb_le; lia.
Qed.

(** A check for the end of the input. *)
Lemma sim_eof {A} K (k : parser A) st :
  sim K k st →
  sim K (eof ← observe is_eof; if (eof : bool) then fail Incomplete else k) st.
Proof.
  unfold sim at 2, mbind, parser_bind, observe, is_eof. intros Hk.
  destruct (length i <=? pos st)%nat eqn:He; [by left|]. to_prop.
  rewrite (proj2 (Nat.leb_gt _ _)) by (rewrite length_app; lia). exact Hk.
Qed.

(** A check that the input is long enough. *)
Lemma sim_len {A} K n (k : parser A) st :
  sim K k st →
  sim K (len ← get_len; if Z.of_nat len <? n then fail Incomplete else k) st.
Proof.
  unfold sim at 2, mbind, parser_bind, get_len. intros Hk.
  destruct (Z.of_nat (length i) <? n) eqn:He; [by left|]. to_prop.
  rewrite (proj2 (Z.ltb_ge _ _)) by (rewrite length_app; lia). exact Hk.
Qed.

(** Loops. The longer run has the larger fuel. *)
Definition ends_at_eof {S A} (body : S → parser (flow S A)) : Prop :=
  ∀ s st, (length i ≤ pos st)%nat →
    match body s i st with
    | Ok (Break _) st' => (length i ≤ pos st')%nat
    | Ok (Continue _) _ => False
    | Err e => e = Incomplete
    | Panic | NoFuel => True
    end.

Lemma sim_loop_fuel {S A} K (body : S → parser (flow S A)) n m s st :
  (∀ s st, sim K (body s) st) → K = Strict ∨ K = Anything ∧ ends_at_eof body →
  (n ≤ m)%nat →
  match loop_fuel n body s i st with
  | Ok a st' =>
      loop_fuel m body s j st = Ok a st'
      ∨ ((length i ≤ pos st')%nat ∧ allows K st' (loop_fuel m body s j st))
  | Err e => e = Incomplete ∨ hard (loop_fuel m body s j st)
  | Panic | NoFuel => True
  end.
Proof.
  intros Hb HK. revert m s st. induction n as [|n IH]; intros m s st Hnm; [done|].
  destruct m as [|m]; [lia|]. cbn [loop_fuel]. unfold mbind, parser_bind.
  pose proof (Hb s st) as Hs. unfold sim in Hs.
  destruct (body s i st) as [[s'|a] st'|e| |]; try done.
  - destruct Hs as [->|[Hp Ha]]; [apply IH; lia|].
    destruct HK as [->|[-> He]]; [done|]. destruct n as [|n]; [done|].
    cbn [loop_fuel]. unfold mbind, parser_bind. specialize (He s' st' Hp).
    destruct (body s' i st') as [[?|?] ?|?| |]; try done; [by right|by left].
  - destruct Hs as [->|[? ?]]; [by left|right]. split; [done|]. by destruct HK as [->|[-> _]].
  - destruct Hs as [?|(e' & -> & ?)]; [by left|right]. by exists e'.
Qed.

Lemma sim_loop {S A} (body : S → parser (flow S A)) s st :
  (∀ s st, sim Strict (body s) st) → sim Strict (loop body s) st.
Proof.
  intros Hb. apply sim_loop_fuel; [done|by left|]. rewrite length_app. lia.
Qed.

Lemma sim_loop_any {S A} (body : S → parser (flow S A)) s st :
  (∀ s st, sim Anything (body s) st) → ends_at_eof body → sim Anything (loop body s) st.
Proof.
  intros Hb ?. apply sim_loop_fuel; [done|by right|]. rewrite length_app. lia.
Qed.

Lemma lookup_eof st : (length i ≤ pos st)%nat → i !! pos st = None.
Proof. apply lookup_ge_None_2. Qed.

Lemma sim_scan f st : (∀ c, f c ≠ Return Incomplete) → sim Anything (scan f) st.
Proof.
  intros Hf. apply sim_loop_any.
  - intros _ st1. unfold sim, mbind, parser_bind, observe, peek.
    destruct (i !! pos st1) as [c|] eqn:Hc.
    + rewrite (lookup_ext _ _ Hc). specialize (Hf c).
      destruct (f c) as [| |e]; try by left. right. exists e. split; congruence || done.
    + right. split; [by apply lookup_ge_None_1 in Hc|done].
  - intros _ st1 He. unfold mbind, parser_bind, observe, peek. by rewrite lookup_eof.
Qed.
End sim.

(* ------------------------------------------------------------------ *)
(** ** Automation                                                       *)
(* ------------------------------------------------------------------ *)

Create HintDb sim discriminated.
#[export] Hint Resolve sim_ret sim_fail sim_ok_or sim_peek sim_get_pos sim_get_items_left
  sim_set_items_left sim_set_pos sim_advance sim_get_slice : sim.

Create HintDb starve discriminated.

(** [starved] and its companion: methods that do nothing at the end of the
    input. *)
Section starved.
Context (i : bytes) (st : pstate) (Heof : (length i ≤ pos st)%nat).

Lemma starved_bind {A B} (m : parser A) (k : A → parser B) :
  starved m i st → starved (m ≫= k) i st.
Proof using. unfold starved, mbind, parser_bind. by destruct (m i st). Qed.

Lemma starved_stay {A B} (m : parser A) (k : A → parser B) a :
  m i st = Ok a st → starved (k a) i st → starved (m ≫= k) i st.
Proof using. unfold starved, mbind, parser_bind. by intros ->. Qed.

Lemma starved_get_slice {B} a b (k : bytes → parser B) :
  starved (k (slice i a b)) i st → starved (get_slice a b ≫= k) i st.
Proof using.
  unfold starved, mbind, parser_bind, get_slice. by destruct (_ && _).
Qed.

Lemma starved_peek : starved (try_ peek) i st.
Proof using Heof. unfold starved, try_, peek. by rewrite lookup_eof. Qed.

Lemma starved_fail {A} : starved (fail (A := A) Incomplete) i st.
Proof using. done. Qed.

Lemma stay_is_eof : observe is_eof i st = Ok true st.
Proof using Heof.
  unfold observe, is_eof. by replace (_ <=? _)%nat with true by (symmetry; by apply Nat.leb_le).
Qed.

Lemma stay_peek : observe peek i st = Ok (RErr Incomplete) st.
Proof using Heof. unfold observe, peek. by rewrite lookup_eof. Qed.

Lemma stay_try_consume_byte b : try_consume_byte b i st = Ok false st.
Proof using Heof.
  unfold try_consume_byte, mbind, parser_bind. by rewrite stay_peek.
Qed.

Lemma stay_scan f : scan f i st = Ok tt st.
Proof using Heof.
  unfold scan, loop. replace (length i - pos st)%nat with 0%nat by lia. cbn [loop_fuel].
  unfold mbind, parser_bind. by rewrite stay_peek.
Qed.

Lemma stay_sp_items {T} (p : parser T) c : sp_items p c i st = Ok [] st.
Proof using Heof.
  unfold sp_items, loop. replace (length i - pos st)%nat with 0%nat by lia. cbn [loop_fuel].
  unfold mbind, parser_bind. by rewrite stay_try_consume_byte.
Qed.

Lemma stay_resp_text_after_keyword : parse_resp_text_after_keyword i st = Ok (None, []) st.
Proof using Heof.
  unfold parse_resp_text_after_keyword, mbind, parser_bind. by rewrite stay_try_consume_byte.
Qed.

Lemma starved_consume_byte b : starved (consume_byte b) i st.
Proof using Heof. by apply starved_bind, starved_peek. Qed.

Lemma starved_consume_sp : starved consume_sp i st.
Proof using Heof. apply starved_consume_byte. Qed.

Lemma starved_consume_crlf : starved consume_crlf i st.
Proof using Heof. by apply starved_bind, starved_peek. Qed.
End starved.

#[export] Hint Resolve starved_bind starved_peek starved_fail starved_consume_byte starved_consume_sp
  starved_consume_crlf : starve.
#[export] Hint Resolve stay_is_eof stay_peek stay_try_consume_byte stay_scan stay_sp_items
  stay_resp_text_after_keyword : starve.

Ltac starve_step :=
  lazymatch goal with
  | |- starved (get_slice _ _ ≫= _) _ _ => apply starved_get_slice
  | |- starved (_ ≫= _) _ _ =>
      first [ apply starved_bind; solve [eauto 4 with starve nocore]
            | eapply starved_stay; [solve [eauto 4 with starve nocore | reflexivity]|cbv beta] ]
  | |- starved (if (?n =? ?n)%nat then _ else _) _ _ => rewrite Nat.eqb_refl
  | |- starved (if ?b then _ else _) _ _ => destruct b
  | |- starved (let _ := _ in _) _ _ => cbv zeta
  | |- starved (match ?x with _ => _ end) _ _ => destruct x
  | |- starved _ _ _ => solve [eauto 4 with starve nocore]
  end.

(** Is the method stuck at the end of the input? *)
Ltac starve := intros; cbn beta iota; repeat (starve_step; cbn [negb] in *).

(** One step of a comparison. A bind is tried first as one whose first part
    agrees on both inputs, then as one that may stop early. *)
Ltac sim_step :=
  lazymatch goal with
  | |- sim _ _ _ (_ ≫= (λ _, mret _)) _ => apply sim_bind_ret
  | |- sim _ _ _ (observe is_eof ≫= _) _ => apply sim_eof
  | |- sim _ _ _ (get_len ≫= _) _ => apply sim_len
  | |- sim _ _ _ (_ ≫= _) _ =>
      first [ apply sim_bind_strict; [solve [eauto 2 with sim nocore]|intros ? ? _]
            | eapply sim_bind; [solve [eauto 2 with sim nocore]|intros ? ?|solve [starve]] ]
  | |- sim _ _ _ (if ?b then _ else _) _ => destruct b eqn:?
  | |- sim _ _ _ (let _ := _ in _) _ => cbv zeta
  | |- sim _ _ _ (match ?x with _ => _ end) _ => destruct x eqn:?
  | |- sim _ _ _ _ _ => solve [eauto 3 with sim nocore]
  end.

Ltac sim_auto := intros; repeat (sim_step; cbn [negb] in *).

(* ------------------------------------------------------------------ *)
(** ** The methods                                                      *)
(* ------------------------------------------------------------------ *)

Section methods.
Context (i ext : bytes).
Implicit Types (st : pstate).
Abbreviation sim := (sim i ext).
Abbreviation j := (i ++ ext).

Lemma sim_push_item {T} K (l : list T) x st : sim K (push_item l x) st.
Proof. apply sim_strict. unfold push_item. sim_auto. Qed.

Lemma sim_to_str K b st : sim K (to_str b) st.
Proof. apply sim_ok_or. Qed.

Lemma sim_consume_byte K b st : sim K (consume_byte b) st.
Proof. apply sim_strict. unfold consume_byte. sim_auto. Qed.

Lemma sim_consume_sp K st : sim K consume_sp st.
Proof. apply sim_consume_byte. Qed.
#[local] Hint Resolve sim_push_item sim_to_str sim_consume_byte sim_consume_sp : sim.

Lemma sim_consume_crlf K st : sim K consume_crlf st.
Proof.
  apply sim_strict. unfold consume_crlf. do 2 sim_step; [sim_auto|].
  unfold sim, mbind, parser_bind, observe, peek_at.
  destruct (usize_checked_add _ _); [|by left].
  destruct (i !! Z.to_nat z) as [b|] eqn:Hb; [|by left]. rewrite (lookup_ext _ _ _ _ Hb).
  destruct (b =?b LF); [by left|right]. by eexists.
Qed.

Lemma sim_scanned_text K start st : sim K (scanned_text start) st.
Proof. unfold scanned_text. sim_auto. Qed.
#[local] Hint Resolve sim_consume_crlf sim_scanned_text : sim.

Lemma sim_try_consume_byte b st : sim SameItems (try_consume_byte b) st.
Proof.
  unfold sim, try_consume_byte, mbind, parser_bind, observe, peek.
  destruct (i !! pos st) as [c|] eqn:Hc.
  - rewrite (lookup_ext _ _ _ _ Hc). destruct (c =?b b); by left.
  - right. split; [by apply lookup_ge_None_1 in Hc|]. destruct ((i ++ ext) !! pos st) as [c|]; [destruct (c =?b b)|]; reflexivity.
Qed.
#[local] Hint Resolve sim_try_consume_byte : sim.

(** The methods that scan a run of bytes, then look at the end of input. *)
Lemma sim_scan_then {A} f (k : unit → parser A) st :
  (∀ c, f c ≠ Return Incomplete) → (∀ st', sim Strict (k tt) st') →
  (∀ st', (length i ≤ pos st')%nat → starved (k tt) i st') →
  sim Strict (scan f ≫= k) st.
Proof. intros Hf Hk Hs. eapply sim_bind; [by apply sim_scan|by intros []|by intros []]. Qed.

Ltac sim_scan_auto :=
  sim_auto; apply sim_scan_then;
  [intros c; by repeat case_match | sim_auto | starve].

Lemma starved_scanned_text start st :
  (length i ≤ pos st)%nat → starved (scanned_text start) i st.
Proof. unfold scanned_text. starve. Qed.
#[local] Hint Resolve starved_scanned_text : starve.

Lemma sim_parse_atom K st : sim K parse_atom st.
Proof. apply sim_strict. unfold parse_atom. sim_scan_auto. Qed.

Lemma sim_parse_tag K st : sim K parse_tag st.
Proof. apply sim_strict. unfold parse_tag. sim_scan_auto. Qed.

Lemma sim_parse_text K st : sim K parse_text st.
Proof. apply sim_strict. unfold parse_text. sim_scan_auto. Qed.

Lemma sim_read_until_byte K t st : sim K (read_until_byte t) st.
Proof. apply sim_strict. unfold read_until_byte. sim_scan_auto. Qed.

Lemma sim_parse_fetch_att_name K st : sim K parse_fetch_att_name st.
Proof. apply sim_strict. unfold parse_fetch_att_name. sim_scan_auto. Qed.

Lemma sim_parse_quoted K st : sim K parse_quoted st.
Proof.
  apply sim_strict. unfold parse_quoted. do 2 sim_step. apply sim_loop. intros _ st1.
  sim_auto.
Qed.
#[local] Hint Resolve sim_parse_atom sim_parse_tag sim_parse_text sim_read_until_byte
  sim_parse_fetch_att_name sim_parse_quoted : sim.

(** A number cut at the end of the input is a number, or too large a one,
    when more digits follow. *)
Definition digits_to (k : bytes) (p q : nat) : Prop :=
  (p < q ≤ length k)%nat ∧ Forall (λ c, is_ascii_digit c = true) (slice k p q)
  ∧ from_option is_ascii_digit false (k !! q) = false.

Lemma wp_parse_number_digit k st c :
  k !! pos st = Some c → is_ascii_digit c = true →
  wp parse_number k st
    (λ n st', items_left st' = items_left st ∧ digits_to k (pos st) (pos st')
      ∧ n = dec_val (slice k (pos st) (pos st')) ∧ n <= u32_max)
    (λ e, e = InvalidNumber ∧
      ∃ q, digits_to k (pos st) q ∧ u32_max < dec_val (slice k (pos st) q)).
Proof.
  intros Hc Hd. pose proof (lookup_pos_lt _ _ _ Hc). unfold parse_number. do 3 wp_step.
  eapply wp_mono; [apply wp_scan_cursor; lia| |intros e (c' & He); cbn in He; by case_match].
  intros _ st1 (? & Hi & Hs & Hstop). do 2 wp_step. wp_step.
  { to_prop. replace (pos st1) with (pos st) in Hstop by done. by rewrite Hc, Hd in Hstop. }
  to_prop. assert (Hds : digits_to k (pos st) (pos st1)).
  { split; [lia|]. split.
    - eapply Forall_impl; [exact Hs|]. intros c' Hc'; cbn in Hc'. by case_match.
    - destruct (k !! pos st1); cbn; [|done]. by case_match. }
  pose proof Hds as (_ & Hd1 & _).
  wp_step. wp_step. unfold from_utf8. rewrite utf8_valid_ascii.
  2:{ eapply Forall_impl; [exact Hd1|]. intros c' ?%is_ascii_digit_spec. lia. }
  wp_step. rewrite parse_u32_digits by (done || apply slice_ne; lia).
  destruct (_ <=? u32_max) eqn:Hle; to_prop; eauto 6.
Qed.

Lemma wp_parse_number_other k st c :
  k !! pos st = Some c → is_ascii_digit c = false →
  wp parse_number k st (λ _ _, False) (λ e, e = InvalidNumber).
Proof.
  intros Hc Hd. pose proof (lookup_pos_lt _ _ _ Hc). unfold parse_number. do 3 wp_step.
  eapply wp_mono; [apply wp_scan_cursor; lia| |intros e (c' & He); cbn in He; by case_match].
  intros _ st1 (? & Hi & Hs & Hstop). do 2 wp_step. wp_step.
  - unfold is_eof. wp_step. wp_step. wp_step; [|by wp_step]. to_prop. lia.
  - to_prop. exfalso. rewrite (slice_cons _ _ _ c) in Hs by (lia || done).
    apply Forall_cons in Hs as [Hs _]. by rewrite Hd in Hs.
Qed.

Lemma digits_to_le k k' p q q' :
  (∀ n c, k !! n = Some c → k' !! n = Some c) →
  digits_to k p q → digits_to k' p q' → (q ≤ q')%nat.
Proof.
  intros Hk (Hq & Hd & _) (Hq' & Hd' & Hs').
  destruct (decide (q ≤ q')%nat); [done|]. exfalso.
  destruct (lookup_lt_is_Some_2 k q') as [c Hc]; [lia|].
  rewrite (Hk _ _ Hc) in Hs'. cbn in Hs'.
  rewrite (slice_split _ p q' q), (slice_cons k q' q c) in Hd by (lia || done).
  apply Forall_app in Hd as [_ [Hd _]%Forall_cons]. congruence.
Qed.

(** The run of digits ends inside [i], or it can only grow. *)
Lemma digits_to_ext p q q' :
  digits_to i p q → digits_to j p q' →
  dec_val (slice i p q) <= dec_val (slice j p q')
  ∧ ((q < length i)%nat → q' = q ∧ slice j p q = slice i p q).
Proof.
  intros Hi Hj. pose proof (digits_to_le i j p q q' (lookup_ext i ext) Hi Hj) as Hle.
  pose proof Hi as (Hq & _ & Hs). split.
  - destruct Hj as (_ & Hd' & _).
    rewrite (slice_split j p q q'), (slice_app_l i ext p q) in * by lia. by apply dec_val_app_le.
  - intros Hlt. assert (Hs' : slice j p q = slice i p q) by (apply slice_app_l; lia).
    split; [|done]. enough (q' ≤ q)%nat by lia. eapply (digits_to_le j j); [done|done|].
    split; [rewrite length_app; lia|]. rewrite Hs', lookup_app_l by lia. by destruct Hi as (_ & ? & ?).
Qed.

Lemma sim_parse_number_digit st c :
  i !! pos st = Some c → is_ascii_digit c = true → sim SameItems parse_number st.
Proof.
  intros Hc Hd. pose proof (wp_parse_number_digit i st c Hc Hd) as Hi.
  pose proof (wp_parse_number_digit j st c (lookup_ext _ _ _ _ Hc) Hd) as Hj.
  unfold wp in *. unfold sim.
  destruct (parse_number i st) as [n st'|e| |]; try done.
  - destruct Hi as (Hi1 & Hi2 & -> & Hi3).
    destruct (decide (length i ≤ pos st')%nat) as [?|Hlt%Nat.nle_gt].
    + right. split; [done|]. destruct (parse_number j st); destr_hyps; try done; cbn; congruence.
    + left. destruct (parse_number j st) as [n' st2|e'| |]; try done.
      * destruct Hj as (Hj1 & Hj2 & -> & _).
        destruct (digits_to_ext _ _ _ Hi2 Hj2) as [_ [Hq Hsl]]; [lia|].
        f_equal; [congruence|]. by apply pstate_eq; [|congruence].
      * destruct Hj as (_ & q & Hj2 & ?).
        destruct (digits_to_ext _ _ _ Hi2 Hj2) as [_ [-> Hsl]]; [lia|]. rewrite Hsl in *. lia.
  - destruct Hi as (-> & q & Hi2 & Hi3). right.
    destruct (parse_number j st) as [n' st2|e'| |]; try done.
    + destruct Hj as (_ & Hj2 & -> & ?).
      apply (digits_to_ext _ _ _ Hi2) in Hj2 as [? _]. lia.
    + destruct Hj as (-> & _). by eexists.
Qed.

Lemma starved_parse_number st : (length i ≤ pos st)%nat → starved parse_number i st.
Proof. unfold parse_number. starve. Qed.

Lemma sim_parse_number st : sim SameItems parse_number st.
Proof.
  destruct (i !! pos st) as [c|] eqn:Hc.
  - destruct (is_ascii_digit c) eqn:Hd; [by eapply sim_parse_number_digit|].
    pose proof (wp_parse_number_other i st c Hc Hd) as Hi.
    pose proof (wp_parse_number_other j st c (lookup_ext _ _ _ _ Hc) Hd) as Hj.
    unfold sim, wp in *. destruct (parse_number i st); try done. right.
    destruct (parse_number j st); try done. subst. by eexists.
  - apply lookup_ge_None_1, starved_parse_number in Hc. unfold sim, starved in *.
    destruct (parse_number i st); try done. by left.
Qed.
#[local] Hint Resolve sim_parse_number starved_parse_number : sim starve.

Lemma sim_parse_literal K st : sim K parse_literal st.
Proof. apply sim_strict. unfold parse_literal. sim_auto. Qed.
#[local] Hint Resolve sim_parse_literal : sim.

Lemma sim_parse_astring K st : sim K parse_astring st.
Proof. apply sim_strict. unfold parse_astring. sim_auto. Qed.
#[local] Hint Resolve sim_parse_astring : sim.

(** Keywords, as a function of the input and the cursor. *)
Definition kw_match (kw k : bytes) (p : nat) : bool :=
  (Z.of_nat (p + length kw) <=? usize_max) && (p + length kw <=? length k)%nat
  && zip_all_ci (slice k p (p + length kw)) kw
  && from_option is_boundary true (k !! (p + length kw)%nat).

Lemma try_consume_keyword_ci_eq kw k st :
  try_consume_keyword_ci kw k st =
    if kw_match kw k (pos st) then Ok true (mkPstate (pos st + length kw) (items_left st))
    else Ok false st.
Proof.
  unfold try_consume_keyword_ci, matches_ci, kw_match, usize_checked_add, mbind, parser_bind,
    get_pos, get_len, get_slice, observe.
  rewrite <- Nat2Z.inj_add. destruct (_ <=? usize_max); [|done]. cbn [andb].
  destruct (_ <=? _) eqn:Hn; to_prop.
  - rewrite (proj2 (Nat.leb_le (pos st + length kw) _)) by lia. rewrite Nat2Z.id.
    rewrite (proj2 (Nat.leb_le (pos st) _)) by lia.
    rewrite (proj2 (Nat.leb_le (pos st + length kw) _)) by lia. cbn [andb].
    unfold mret, parser_ret. destruct (zip_all_ci _ _); [|done]. cbn [negb andb].
    destruct (k !! _) as [b|]; cbn [from_option negb]; [destruct (is_boundary b)|]; done.
  - rewrite (proj2 (Nat.leb_gt (pos st + length kw) _)) by lia. done.
Qed.

(** The input ends inside a keyword. *)
Definition kw_prefix (kw rest : bytes) : bool :=
  (length rest <? length kw)%nat && zip_all_ci rest kw.

Lemma zip_all_ci_app xs zs ys : zip_all_ci xs ys = false → zip_all_ci (xs ++ zs) ys = false.
Proof.
  revert ys. induction xs as [|x xs IH]; intros [|y ys]; cbn; try done.
  intros [->|H]%andb_false_iff; [done|]. rewrite (IH _ H). apply andb_false_r.
Qed.

Lemma kw_match_ext kw p :
  kw ≠ [] → kw_prefix kw (drop p i) = false →
  kw_match kw j p = kw_match kw i p
  ∨ ((p + length kw)%nat = length i ∧ kw_match kw i p = true).
Proof.
  intros Hkw Hpre. unfold kw_match. destruct (_ <=? usize_max); [|by left]. cbn [andb].
  destruct (decide (p + length kw ≤ length i)%nat) as [Hle|Hgt].
  - rewrite !(proj2 (Nat.leb_le (p + length kw) _)) by (rewrite ?length_app; lia).
    rewrite slice_app_l by done. cbn [andb]. destruct (zip_all_ci _ _); [|by left]. cbn [andb].
    destruct (i !! (p + length kw)%nat) as [b|] eqn:Hb.
    + left. by rewrite (lookup_ext _ _ _ _ Hb).
    + right. apply lookup_ge_None_1 in Hb. split; [lia|done].
  - left. rewrite (proj2 (Nat.leb_gt (p + length kw) (length i))) by lia. cbn [andb].
    destruct (_ <=? _)%nat eqn:Hj; [|done]. to_prop. cbn [andb].
    unfold kw_prefix in Hpre. rewrite length_drop in Hpre.
    assert (length kw ≠ 0%nat) by (by destruct kw).
    rewrite (proj2 (Nat.ltb_lt (length i - p) _)) in Hpre by lia. cbn [andb] in Hpre.
    destruct (decide (p ≤ length i)%nat).
    + rewrite (slice_split j p (length i)) by lia. rewrite slice_app_l by done.
      unfold slice at 1. rewrite take_ge by (rewrite length_drop; lia).
      by rewrite zip_all_ci_app.
    + by rewrite drop_ge in Hpre by lia.
Qed.

Lemma remaining_eq k st :
  remaining k st = if (pos st <=? length k)%nat then Ok (drop (pos st) k) st else Panic.
Proof.
  unfold remaining, mbind, parser_bind, get_pos, get_len, get_slice.
  rewrite (proj2 (Nat.leb_le (length k) _)) by done. rewrite andb_true_r.
  unfold slice. rewrite take_ge; [done|]. rewrite length_drop. lia.
Qed.

Lemma kw_prefix_ext kw rest : kw_prefix kw rest = false → kw_prefix kw (rest ++ ext) = false.
Proof.
  unfold kw_prefix. intros [H|H]%andb_false_iff.
  - to_prop. rewrite (proj2 (Nat.ltb_ge _ _)); [done|]. rewrite length_app. lia.
  - rewrite zip_all_ci_app by done. apply andb_false_r.
Qed.

Lemma kw_match_not_prefix kw k p : kw_match kw k p = true → kw_prefix kw (drop p k) = false.
Proof.
  unfold kw_match, kw_prefix. intros. destr_bools. to_prop.
  rewrite (proj2 (Nat.ltb_ge _ _)); [done|]. rewrite length_drop. lia.
Qed.

Lemma sim_expect_nil st : sim SameItems expect_nil st.
Proof.
  unfold expect_nil, sim, mbind, parser_bind. rewrite !try_consume_keyword_ci_eq.
  destruct (kw_match NIL i (pos st)) eqn:Hi.
  - destruct (kw_match NIL j (pos st)) eqn:Hj; [by left|right].
    destruct (kw_match_ext NIL (pos st)) as [?|[Hp _]];
      [done|by apply kw_match_not_prefix|congruence|].
    split; [cbn [pos]; lia|]. rewrite remaining_eq.
    rewrite (proj2 (Nat.leb_le _ _)) by (rewrite length_app; lia).
    rewrite (proj2 (Nat.ltb_ge _ _)); [done|]. rewrite length_drop, length_app. cbn in *. lia.
  - rewrite remaining_eq. destruct (_ <=? _)%nat eqn:Hle; [|done]. to_prop. fold (kw_prefix NIL (drop (pos st) i)).
    destruct (kw_prefix NIL (drop (pos st) i)) eqn:Hpre; [by left|right].
    destruct (kw_match_ext NIL (pos st)) as [->|[_ ?]]; [done|done| |congruence].
    rewrite Hi, remaining_eq, (proj2 (Nat.leb_le _ _)), drop_app_le by (rewrite ?length_app; lia).
    fold (kw_prefix NIL (drop (pos st) i ++ ext)). rewrite kw_prefix_ext by done. by eexists.
Qed.
#[local] Hint Resolve sim_expect_nil sim_any : sim.

Lemma expect_nil_pos k st u st' : expect_nil k st = Ok u st' → (pos st' ≤ length k)%nat.
Proof.
  unfold expect_nil, mbind, parser_bind. rewrite try_consume_keyword_ci_eq.
  destruct (kw_match NIL k (pos st)) eqn:Hk.
  - intros [= <- <-]. unfold kw_match in Hk. destr_bools. to_prop. done.
  - rewrite remaining_eq. repeat case_match; done.
Qed.

Lemma sim_nil_slice st : sim SameItems (expect_nil;; p ← get_pos; get_slice p p) st.
Proof.
  pose proof (sim_expect_nil st) as H. unfold sim, mbind, parser_bind in *.
  destruct (expect_nil i st) as [u st'|e| |] eqn:Hi; try done.
  - apply expect_nil_pos in Hi. unfold get_pos, get_slice.
    rewrite Nat.leb_refl, (proj2 (Nat.leb_le _ _)), slice_nil by done. cbn [andb].
    destruct H as [->|[Hp Ha]].
    + left. by rewrite Nat.leb_refl, (proj2 (Nat.leb_le _ _)), slice_nil by (rewrite length_app; lia).
    + right. split; [done|]. destruct (expect_nil j st) as [u2 st2|e| |] eqn:Hj; try done.
      apply expect_nil_pos in Hj.
      by rewrite Nat.leb_refl, (proj2 (Nat.leb_le _ _)) by done.
  - destruct H as [?|(e' & -> & ?)]; [by left|right]. by exists e'.
Qed.

Lemma sim_parse_nstring st : sim SameItems parse_nstring st.
Proof. unfold parse_nstring. sim_auto. Qed.

Lemma sim_parse_nstring_bytes st : sim SameItems parse_nstring_bytes st.
Proof. unfold parse_nstring_bytes. sim_auto. apply sim_nil_slice. Qed.

Lemma sim_parse_nstring_bytes_optional st : sim SameItems parse_nstring_bytes_optional st.
Proof. unfold parse_nstring_bytes_optional. sim_auto. Qed.
#[local] Hint Resolve sim_parse_nstring sim_parse_nstring_bytes
  sim_parse_nstring_bytes_optional : sim.

Lemma sim_bind_assoc {A B C} K (m : parser A) (f : A → parser B) (k : B → parser C) st :
  sim K (m ≫= λ a, f a ≫= k) st → sim K ((m ≫= f) ≫= k) st.
Proof.
  unfold sim, mbind, parser_bind. by destruct (m i st), (m j st).
Qed.

Lemma sim_try_consume_byte_some K b st c :
  i !! pos st = Some c → sim K (try_consume_byte b) st.
Proof.
  intros Hc. unfold sim, try_consume_byte, mbind, parser_bind, observe, peek.
  rewrite Hc, (lookup_ext _ _ _ _ Hc). destruct (c =?b b); by left.
Qed.

(** A byte that is tried is only missed at the end of the input. *)
Lemma sim_try_bind {A} K b (k : bool → parser A) st :
  (∀ r st', sim K (k r) st') →
  ((length i ≤ pos st)%nat → starved (k false) i st) →
  sim K (try_consume_byte b ≫= k) st.
Proof.
  intros Hk Hs. destruct (i !! pos st) as [c|] eqn:Hc.
  - apply sim_bind_strict; [by eapply sim_try_consume_byte_some|by intros].
  - apply lookup_ge_None_1 in Hc. specialize (Hs Hc).
    unfold sim, starved, mbind, parser_bind in *.
    rewrite (stay_try_consume_byte _ _ Hc). destruct (k false i st); try done. by left.
Qed.

(** A byte that is tried, then a value when it is missed. *)
Lemma sim_try_bind_any {A} b (k : bool → parser A) a st :
  (∀ r st', sim Anything (k r) st') → k false i st = Ok a st →
  sim Anything (try_consume_byte b ≫= k) st.
Proof.
  intros Hk Hs. destruct (i !! pos st) as [c|] eqn:Hc.
  - apply sim_bind_strict; [by eapply sim_try_consume_byte_some|by intros].
  - apply lookup_ge_None_1 in Hc. unfold sim, mbind, parser_bind.
    rewrite (stay_try_consume_byte _ _ Hc), Hs. by right.
Qed.

Lemma sim_parse_flag_or_atom K st : sim K parse_flag_or_atom st.
Proof.
  apply sim_strict. unfold parse_flag_or_atom. do 2 sim_step.
  match goal with |- sim _ (_ ≫= ?k) _ =>
    assert (Hk : ∀ star st2, sim Strict (k star) st2)
  end.
  { intros [] st2; [sim_auto|]. sim_scan_auto. }
  destruct (_ =?b _).
  - apply sim_bind_assoc, sim_bind_strict; [apply sim_advance|intros _ st2 _].
    apply sim_try_bind; [intros; apply Hk|starve].
  - sim_step. apply Hk.
Qed.
#[local] Hint Resolve sim_parse_flag_or_atom : sim.

Lemma sim_starved {A} K (m : parser A) st : starved m i st → sim K m st.
Proof. unfold starved, sim. destruct (m i st); try done. by left. Qed.

(** An item cut at the end of the input is still charged before the list
    asks for the byte after it. *)
Lemma sim_charge_item {T A} (item : parser T) (l : list T) (k : list T → parser A) st :
  (∀ st, sim SameItems item st) → (∀ l st, sim Strict (k l) st) →
  (∀ l st, (length i ≤ pos st)%nat → starved (k l) i st) →
  sim Strict (x ← item; l' ← push_item l x; k l') st.
Proof.
  intros Hitem Hk Hs. specialize (Hitem st). unfold sim at 1 in Hitem.
  assert (Hrest : ∀ x st, sim Strict (l' ← push_item l x; k l') st) by sim_auto.
  unfold sim. destruct (item i st) as [x st'|e| |] eqn:Hi;
    [rewrite (bind_Ok _ _ _ _ _ _ Hi)|unfold mbind at 1, parser_bind at 1; rewrite Hi..]; try done.
  - destruct Hitem as [Hj|[Hp Ha]]; [rewrite (bind_Ok _ _ _ _ _ _ Hj); apply Hrest|].
    unfold push_item, mbind, parser_bind, get_items_left, set_items_left, usize_checked_sub, ok_or.
    destruct (1 <=? items_left st') eqn:Hn.
    + specialize (Hs (l ++ [x]) (mkPstate (pos st') (items_left st' - 1)) Hp).
      unfold starved in Hs. unfold mret, parser_ret. destruct (k _ i _); try done. by left.
    + right. cbn in Ha. destruct (item j st) as [x2 st2|e2| |]; try done.
      * rewrite Ha, Hn. by eexists.
      * by eexists.
  - destruct Hitem as [?|Hh]; [by left|right]. by apply hard_bind.
Qed.

Lemma sim_list_items {T} (item : parser T) what st :
  (∀ st, sim SameItems item st) → sim Strict (list_items item what) st.
Proof.
  intros Hitem. apply sim_loop. intros l st1. apply sim_charge_item; [done|sim_auto|starve].
Qed.

(** The lists without a closing byte end at the end of the input too. *)
Lemma sim_sp_items {T} (item : parser T) (charged : bool) st :
  (∀ st, sim (if charged then Strict else Anything) item st) →
  sim Anything (sp_items item charged) st.
Proof.
  intros Hitem. apply sim_loop_any.
  - intros l st1. destruct (i !! pos st1) as [c|] eqn:Hc.
    + apply sim_bind_strict; [by eapply sim_try_consume_byte_some|]. intros [] st2 _; [|sim_auto].
      destruct charged; [sim_auto|].
      by apply sim_bind_ret.
    + apply lookup_ge_None_1 in Hc. unfold sim, mbind, parser_bind.
      rewrite (stay_try_consume_byte _ _ Hc). by right.
  - intros l st1 Hp. unfold mbind, parser_bind. by rewrite (stay_try_consume_byte _ _ Hp).
Qed.
End methods.

#[export] Hint Resolve sim_push_item sim_to_str sim_consume_byte sim_consume_sp sim_consume_crlf
  sim_scanned_text sim_try_consume_byte sim_parse_atom sim_parse_tag sim_parse_text
  sim_read_until_byte sim_parse_fetch_att_name sim_parse_quoted sim_parse_number sim_parse_literal
  sim_parse_astring sim_expect_nil sim_parse_nstring sim_parse_nstring_bytes
  sim_parse_nstring_bytes_optional sim_parse_flag_or_atom sim_any : sim.
#[export] Hint Resolve starved_scanned_text starved_parse_number : starve.

Ltac sim_step ::=
  lazymatch goal with
  | |- sim _ _ _ (_ ≫= (λ _, mret _)) _ => apply sim_bind_ret
  | |- sim _ _ _ (observe is_eof ≫= _) _ => apply sim_eof
  | |- sim _ _ _ (get_len ≫= _) _ => apply sim_len
  | |- sim _ _ _ ((_ ≫= _) ≫= _) _ => apply sim_bind_assoc
  | |- sim _ _ _ ((if ?b then _ else _) ≫= _) _ => destruct b eqn:?
  | |- sim _ _ _ (try_consume_byte _ ≫= _) _ =>
      first [ apply sim_try_bind; [intros ? ?|solve [starve]]
            | eapply sim_try_bind_any; [intros ? ?|reflexivity] ]
  | |- sim _ _ _ (_ ≫= _) _ =>
      first [ apply sim_bind_strict; [solve [eauto 2 with sim nocore]|intros ? ? _]
            | eapply sim_bind; [solve [eauto 2 with sim nocore]|intros ? ?|solve [starve]] ]
  | |- sim _ _ _ (if ?b then _ else _) _ => destruct b eqn:?
  | |- sim _ _ _ (let _ := _ in _) _ => cbv zeta
  | |- sim _ _ _ (match ?x with _ => _ end) _ => destruct x eqn:?
  | |- sim _ _ _ _ _ => solve [eauto 3 with sim nocore]
  end.

(* ------------------------------------------------------------------ *)
(** ** Lists, response texts and responses                              *)
(* ------------------------------------------------------------------ *)

Section responses.
Context (i ext : bytes).
Implicit Types (st : pstate).
Abbreviation sim := (sim i ext).
Abbreviation j := (i ++ ext).

Lemma starved_parse_text st : (length i ≤ pos st)%nat → starved parse_text i st.
Proof. unfold parse_text. starve. Qed.

Lemma starved_list_items {T} (item : parser T) what st :
  starved item i st → starved (list_items item what) i st.
Proof.
  intros Hs. unfold list_items, loop, starved in *. cbn [loop_fuel].
  unfold mbind, parser_bind. by destruct (item i st).
Qed.

Lemma starved_parse_flag_or_atom st :
  (length i ≤ pos st)%nat → starved parse_flag_or_atom i st.
Proof. unfold parse_flag_or_atom. starve. Qed.

Lemma starved_parse_atom st : (length i ≤ pos st)%nat → starved parse_atom i st.
Proof. unfold parse_atom. starve. Qed.
#[local] Hint Resolve starved_parse_text starved_list_items starved_parse_flag_or_atom
  starved_parse_atom : starve.

Lemma starved_parse_paren_atom_list st :
  (length i ≤ pos st)%nat → starved parse_paren_atom_list i st.
Proof. unfold parse_paren_atom_list. starve. Qed.

Lemma starved_parse_resp_text_code st :
  (length i ≤ pos st)%nat → starved parse_resp_text_code i st.
Proof. unfold parse_resp_text_code. starve. Qed.
#[local] Hint Resolve starved_parse_paren_atom_list starved_parse_resp_text_code : starve.

Lemma sim_parse_paren_atom_list K st : sim K parse_paren_atom_list st.
Proof.
  apply sim_strict. unfold parse_paren_atom_list. sim_auto.
  apply sim_list_items. intros. apply sim_parse_flag_or_atom.
Qed.

Lemma sim_parse_balanced_parens K st : sim K parse_balanced_parens st.
Proof.
  apply sim_strict. unfold parse_balanced_parens. do 2 sim_step.
  apply sim_bind_strict; [|sim_auto]. apply sim_loop. intros depth st2. sim_auto.
Qed.
#[local] Hint Resolve sim_parse_paren_atom_list sim_parse_balanced_parens : sim.

Lemma sim_caps st : sim Anything (sp_items parse_atom true) st.
Proof. apply sim_sp_items. intros. apply sim_parse_atom. Qed.

Lemma sim_ids st : sim Anything (sp_items parse_number false) st.
Proof. apply sim_sp_items. intros. eapply sim_any, sim_parse_number. Qed.
#[local] Hint Resolve sim_caps sim_ids : sim.

Lemma sim_parse_resp_text_code st : sim Anything parse_resp_text_code st.
Proof.
  unfold parse_resp_text_code. sim_step.
  eapply sim_bind; [apply sim_scan; intros c; by repeat case_match| |].
  - intros. sim_auto.
  - starve.
Qed.
#[local] Hint Resolve sim_parse_resp_text_code : sim.

Lemma sim_parse_resp_text K st : sim K parse_resp_text st.
Proof. apply sim_strict. unfold parse_resp_text. sim_auto. Qed.
#[local] Hint Resolve sim_parse_resp_text : sim.

Lemma sim_parse_resp_text_after_keyword st : sim Anything parse_resp_text_after_keyword st.
Proof. unfold parse_resp_text_after_keyword. sim_auto. Qed.
#[local] Hint Resolve sim_parse_resp_text_after_keyword : sim.

Lemma sim_parse_continue_req K st : sim K parse_continue_req st.
Proof. apply sim_strict. unfold parse_continue_req. sim_auto. Qed.

Lemma sim_parse_list_lsub_body K st : sim K parse_list_lsub_body st.
Proof. apply sim_strict. unfold parse_list_lsub_body. sim_auto. Qed.

Lemma sim_parse_status_item st : sim SameItems parse_status_item st.
Proof. unfold parse_status_item. sim_auto. Qed.
#[local] Hint Resolve sim_parse_list_lsub_body sim_parse_status_item : sim.

Lemma starved_parse_status_item st : (length i ≤ pos st)%nat → starved parse_status_item i st.
Proof. unfold parse_status_item. starve. Qed.

Lemma starved_parse_one_fetch_att st :
  (length i ≤ pos st)%nat → starved parse_one_fetch_att i st.
Proof. intros. apply starved_bind. unfold parse_fetch_att_name. starve. Qed.
#[local] Hint Resolve starved_parse_status_item starved_parse_one_fetch_att : starve.

Lemma sim_parse_status_items K st : sim K parse_status_items st.
Proof.
  apply sim_strict. unfold parse_status_items. sim_auto.
  apply sim_list_items. intros. apply sim_parse_status_item.
Qed.

Lemma sim_parse_body_section st : sim SameItems parse_body_section st.
Proof. unfold parse_body_section. sim_auto. Qed.
#[local] Hint Resolve sim_parse_body_section sim_parse_status_items : sim.

Lemma sim_parse_one_fetch_att st : sim SameItems parse_one_fetch_att st.
Proof. unfold parse_one_fetch_att. sim_auto. Qed.

Lemma sim_parse_fetch_msg_att K st : sim K parse_fetch_msg_att st.
Proof.
  apply sim_strict. unfold parse_fetch_msg_att. sim_auto.
  apply sim_list_items. intros. apply sim_parse_one_fetch_att.
Qed.
#[local] Hint Resolve sim_parse_fetch_msg_att : sim.

Lemma line_start_from_ext p : (p ≤ length i)%nat → line_start_from j p = line_start_from i p.
Proof.
  induction p as [|p IH]; intros Hp; cbn [line_start_from]; [done|].
  rewrite slice_app_l, IH by lia. done.
Qed.

Lemma sim_finish_other_data_with_prefix K n kind st :
  sim K (finish_other_data_with_prefix n kind) st.
Proof.
  unfold finish_other_data_with_prefix.
  destruct (decide (length i ≤ pos st)%nat) as [?|Hlt]; [apply sim_starved; starve|].
  apply sim_bind_strict.
  - left. unfold observe, find_current_line_start. rewrite line_start_from_ext by lia. done.
  - intros ls st' _. apply sim_strict, sim_scan_then; [intros c; by case_match|sim_auto|starve].
Qed.
#[local] Hint Resolve sim_finish_other_data_with_prefix : sim.

Lemma sim_parse_numeric_data_response K st : sim K parse_numeric_data_response st.
Proof. apply sim_strict. unfold parse_numeric_data_response. sim_auto. Qed.

Lemma sim_parse_named_data_response K st : sim K parse_named_data_response st.
Proof.
  apply sim_strict. unfold parse_named_data_response. sim_auto.
  apply sim_scan_then; [intros c; by case_match|sim_auto|starve].
Qed.
#[local] Hint Resolve sim_parse_numeric_data_response sim_parse_named_data_response : sim.

(** Case-insensitive comparison is equality of the lower-cased bytes, up to
    the shorter length. *)
Lemma zip_all_ci_spec xs ys :
  zip_all_ci xs ys = true ↔
  take (length ys) (to_ascii_lowercase <$> xs) = take (length xs) (to_ascii_lowercase <$> ys).
Proof.
  revert ys. induction xs as [|x xs IH]; intros [|y ys]; cbn; try done.
  rewrite andb_true_iff, IH. unfold eq_ignore_ascii_case. rewrite byte_eqb_true.
  split; [intros [-> ->]|intros [= -> ->]]; done.
Qed.

Lemma zip_all_ci_sym xs ys : zip_all_ci xs ys = zip_all_ci ys xs.
Proof. apply eq_true_iff_eq. rewrite !zip_all_ci_spec. split; congruence. Qed.

Lemma zip_all_ci_take xs ys : zip_all_ci (take (length ys) xs) ys = zip_all_ci xs ys.
Proof.
  revert ys. induction xs as [|x xs IH]; intros [|y ys]; cbn; try done. by rewrite IH.
Qed.

Lemma could_be_prefix_spec rest :
  could_be_status_keyword_prefix rest = existsb (λ kw, kw_prefix kw rest) KEYWORDS.
Proof.
  unfold could_be_status_keyword_prefix, kw_prefix. cbn [existsb KEYWORDS].
  by rewrite !zip_all_ci_take, !(zip_all_ci_sym _ rest).
Qed.

(** What is a proper prefix of a keyword. *)
Lemma could_be_prefix_lower rest :
  could_be_status_keyword_prefix rest = true →
  ∃ kw, kw ∈ KEYWORDS ∧ (length rest < length kw)%nat
    ∧ to_ascii_lowercase <$> rest = take (length rest) (to_ascii_lowercase <$> kw).
Proof.
  rewrite could_be_prefix_spec. intros (kw & Hin & Hp)%existsb_exists.
  unfold kw_prefix in Hp. destr_bools. to_prop. exists kw.
  split; [by apply list_elem_of_In|]. split; [done|].
  match goal with H : zip_all_ci _ _ = true |- _ => apply zip_all_ci_spec in H as <- end.
  rewrite take_ge; [done|]. rewrite length_fmap. lia.
Qed.

Lemma kw_match_lower kw k p :
  kw_match kw k p = true →
  (length kw ≤ length (drop p k))%nat
  ∧ to_ascii_lowercase <$> kw = take (length kw) (to_ascii_lowercase <$> drop p k).
Proof.
  unfold kw_match, slice. intros. destr_bools. to_prop. rewrite length_drop. split; [lia|].
  match goal with H : zip_all_ci _ _ = true |- _ => apply zip_all_ci_spec in H as Hz end.
  replace (p + length kw - p)%nat with (length kw) in Hz by lia.
  rewrite fmap_take, take_take, Nat.min_id, length_take, length_drop in Hz. rewrite Hz.
  rewrite take_ge; [done|]. rewrite length_fmap. lia.
Qed.

(** No status keyword is a proper prefix of another. *)
Lemma keywords_prefix_free :
  Forall (λ kw, Forall (λ kw', (length kw < length kw')%nat →
    to_ascii_lowercase <$> kw ≠ take (length kw) (to_ascii_lowercase <$> kw')) KEYWORDS) KEYWORDS.
Proof. unfold KEYWORDS. repeat constructor; intros; vm_compute in *; try done; try lia. Qed.

Lemma could_be_prefix_no_match kw st :
  could_be_status_keyword_prefix (drop (pos st) i) = true → kw ∈ KEYWORDS →
  try_consume_keyword_ci kw i st = Ok false st.
Proof.
  intros (kw' & Hin' & Hlen & Hlow)%could_be_prefix_lower Hin.
  rewrite try_consume_keyword_ci_eq. destruct (kw_match kw i (pos st)) eqn:Hm; [|done].
  exfalso. apply kw_match_lower in Hm as [Hle Hm].
  pose proof keywords_prefix_free as Hfree. rewrite Forall_forall in Hfree.
  specialize (Hfree kw Hin). rewrite Forall_forall in Hfree.
  apply (Hfree kw' Hin'); [lia|]. rewrite Hm, Hlow, take_take. f_equal. lia.
Qed.

Lemma status_keyword_prefix st :
  could_be_status_keyword_prefix (drop (pos st) i) = true →
  try_parse_status_keyword i st = Ok None st.
Proof.
  intros Hp. unfold try_parse_status_keyword.
  repeat (rewrite (bind_Ok _ _ _ _ false st) by (apply could_be_prefix_no_match; [done|];
    unfold KEYWORDS; set_solver)). done.
Qed.

Lemma sim_kw_chain {A} kw (a : A) (k : parser A) st :
  kw ≠ [] → kw_prefix kw (drop (pos st) i) = false → sim Anything k st →
  sim Anything (b ← try_consume_keyword_ci kw; if (b : bool) then mret a else k) st.
Proof.
  intros Hne Hp Hk. unfold sim at 1, mbind, parser_bind. rewrite !try_consume_keyword_ci_eq.
  destruct (kw_match_ext i ext kw (pos st) Hne Hp) as [->|[Hl ->]].
  - destruct (kw_match kw i (pos st)); [by left|exact Hk].
  - right. cbn [pos]. split; [lia|done].
Qed.

Lemma sim_try_parse_status_keyword st :
  could_be_status_keyword_prefix (drop (pos st) i) = false →
  sim Anything try_parse_status_keyword st.
Proof.
  rewrite could_be_prefix_spec. cbn [existsb KEYWORDS]. intros Hp. destr_bools.
  unfold try_parse_status_keyword.
  repeat (apply sim_kw_chain; [done|done|]). apply sim_ret.
Qed.

Lemma could_be_prefix_ext rest :
  could_be_status_keyword_prefix rest = false →
  could_be_status_keyword_prefix (rest ++ ext) = false.
Proof.
  rewrite !could_be_prefix_spec. cbn [existsb KEYWORDS]. intros Hp. destr_bools.
  by rewrite !kw_prefix_ext by done.
Qed.

(** No status keyword: more input makes none if this input could not. *)
Lemma sim_no_keyword {A} K what st :
  sim K (rem ← remaining;
    if could_be_status_keyword_prefix rem then fail (A := A) Incomplete
    else fail (Malformed what)) st.
Proof.
  unfold sim, mbind, parser_bind. rewrite !remaining_eq.
  destruct (pos st <=? length i)%nat eqn:Hle; [|done]. to_prop.
  destruct (could_be_status_keyword_prefix (drop (pos st) i)) eqn:Hp; [by left|right].
  rewrite (proj2 (Nat.leb_le _ _)), drop_app_le, could_be_prefix_ext
    by (rewrite ?length_app; lia || done).
  by eexists.
Qed.

Lemma sim_parse_tagged K st : sim K parse_tagged st.
Proof.
  apply sim_strict. unfold parse_tagged. do 2 sim_step.
  destruct (could_be_status_keyword_prefix (drop (pos st'0) i)) eqn:Hp.
  - apply sim_starved. eapply starved_stay; [by apply status_keyword_prefix|].
    apply starved_bind. unfold starved, mbind, parser_bind. rewrite remaining_eq.
    destruct (_ <=? _)%nat; [|done]. by rewrite Hp.
  - eapply sim_bind; [by apply sim_try_parse_status_keyword| |].
    + intros [s|] st2; [sim_auto|].
      apply sim_bind_strict; [apply sim_no_keyword|sim_auto].
    + intros [s|] st2 Heof; [starve|]. apply starved_bind.
      unfold starved, mbind, parser_bind. rewrite remaining_eq, drop_ge by done.
      by destruct (_ <=? _)%nat.
Qed.

(** A cut keyword is a run of letters: [parse_atom] asks for more. *)
Lemma keyword_bytes kw c :
  kw ∈ KEYWORDS → to_ascii_lowercase c ∈ to_ascii_lowercase <$> kw →
  is_atom_char c = true ∧ is_ascii_digit c = false.
Proof.
  intros Hin Hl.
  assert (Hall : Forall (λ kw, Forall (λ b, is_atom_char b = true ∧ is_ascii_digit b = false)
    (to_ascii_lowercase <$> kw)) KEYWORDS) by (vm_compute; repeat constructor).
  rewrite Forall_forall in Hall. specialize (Hall kw Hin). rewrite Forall_forall in Hall.
  specialize (Hall _ Hl). revert Hall. clear. destruct c; vm_compute; done.
Qed.

Lemma could_be_prefix_bytes rest c :
  could_be_status_keyword_prefix rest = true → c ∈ rest →
  is_atom_char c = true ∧ is_ascii_digit c = false.
Proof.
  intros (kw & Hin & _ & Hlow)%could_be_prefix_lower Hc. apply (keyword_bytes kw c Hin).
  apply (list_elem_of_fmap_2 to_ascii_lowercase) in Hc. rewrite Hlow in Hc.
  by apply elem_of_take in Hc as (n & Hn & _); eapply list_elem_of_lookup_2.
Qed.

Lemma starved_atom_prefix st :
  (∀ c, c ∈ drop (pos st) i → is_atom_char c = true) → starved parse_atom i st.
Proof.
  intros Hall. destruct (decide (length i ≤ pos st)%nat) as [?|Hlt].
  { by apply starved_parse_atom. }
  assert (Hw : wp parse_atom i st (λ _ _, False) (λ e, e = Incomplete)).
  { unfold parse_atom. do 3 wp_step.
    eapply wp_mono; [apply wp_scan_cursor; lia| |intros e (c' & He); cbn in He; by case_match].
    intros _ st1 (? & _ & _ & Hstop).
    assert (is_eof i st1 = true) as Heof.
    { apply Nat.leb_le. destruct (i !! pos st1) as [c|] eqn:Hc; [|by apply lookup_ge_None_1].
      rewrite Hall in Hstop; [done|]. apply list_elem_of_lookup. exists (pos st1 - pos st)%nat.
      rewrite lookup_drop. by replace (pos st + (pos st1 - pos st))%nat with (pos st1) by lia. }
    unfold scanned_text. do 2 wp_step. wp_step; do 2 wp_step; rewrite Heof; by wp_step. }
  unfold wp, starved in *. by destruct (parse_atom i st).
Qed.

Lemma sim_parse_untagged K st : sim K parse_untagged st.
Proof.
  apply sim_strict. unfold parse_untagged. do 2 sim_step.
  destruct (could_be_status_keyword_prefix (drop (pos st'0) i)) eqn:Hp.
  - apply sim_starved. eapply starved_stay; [by apply status_keyword_prefix|].
    destruct (i !! pos st'0) as [c|] eqn:Hc.
    + assert (Hin : c ∈ drop (pos st'0) i) by (erewrite drop_S by done; left).
      eapply starved_stay; [unfold try_, peek; by rewrite Hc|]. cbv beta.
      rewrite (proj2 (could_be_prefix_bytes _ _ Hp Hin)).
      unfold parse_named_data_response. eapply starved_stay; [done|].
      apply starved_bind, starved_atom_prefix. intros c' Hc'.
      by apply (could_be_prefix_bytes _ _ Hp Hc').
    + apply lookup_ge_None_1 in Hc. starve.
  - eapply sim_bind; [by apply sim_try_parse_status_keyword| |].
    + intros [s|] st2; sim_auto.
    + intros [s|] st2 Heof; starve.
Qed.

Lemma sim_parse_response st : sim Strict parse_response st.
Proof.
  unfold parse_response. sim_auto;
    [apply sim_parse_continue_req|apply sim_parse_untagged|apply sim_parse_tagged].
Qed.
End responses.
