(* ===== verification/ParserLocal.v ===== *)
(** The converse of [ParserStream]: a method that succeeds and leaves the
    cursor inside [i] never looked past [i]. A response is therefore decided
    by its own bytes: cut off the stream, it parses to the same response. The
    client relies on this, since it splits frames off its buffer and its
    commands parse them again. *)

From S2P Require Import Prelude Str Ast Monad ResponseParser ParserSafety ParserStream.
From stdpp Require Import options.
Import Parser.

Section local.
Context (i ext : bytes).
Abbreviation j := (i ++ ext).

(** When [m] succeeds on the longer input the cursor moves by at least
    [d a]; when it stays inside the shorter one, [m] does the same there. *)
Definition local {A} (d : A → nat) (m : parser A) (st : pstate) : Prop :=
  ∀ a st', m j st = Ok a st' →
    (pos st + d a ≤ pos st')%nat ∧ ((pos st' < length i)%nat → m i st = Ok a st').

Abbreviation local0 := (local (λ _, 0%nat)).

Lemma local_mono {A} (d d' : A → nat) m st :
  local d m st → (∀ a, d' a ≤ d a)%nat → local d' m st.
Proof. intros H Hd a st' Hm. specialize (Hd a). destruct (H a st' Hm). split; [lia|done]. Qed.

Lemma local_0 {A} (d : A → nat) m st : local d m st → local0 m st.
Proof. intros H. eapply local_mono; [exact H|]. intros; lia. Qed.

Lemma local_ret {A} (d : A → nat) a st : d a = 0%nat → local d (mret a) st.
Proof. intros Hd ? ? [= <- <-]. split; [lia|done]. Qed.

Lemma local_fail {A} (d : A → nat) e st : local d (fail e) st.
Proof. done. Qed.

Lemma local_ok_or {A} (o : option A) e st : local0 (ok_or o e) st.
Proof. destruct o; [by apply local_ret|apply local_fail]. Qed.

Lemma local_bind {A B} (d : B → nat) (e : A → nat) (m : parser A) (k : A → parser B) st :
  local e m st →
  (∀ a st1, m j st = Ok a st1 → local (λ b, d b - e a)%nat (k a) st1) →
  local d (m ≫= k) st.
Proof.
  unfold local at 3, mbind, parser_bind. intros Hm Hk b st'.
  destruct (m j st) as [a st1| | |] eqn:Hj; try done. intros Hb.
  destruct (Hm a st1 Hj) as [H1 H2]. destruct (Hk a st1 eq_refl b st' Hb) as [H3 H4].
  split; [lia|]. intros Hlt. rewrite H2 by lia. by apply H4.
Qed.

Lemma lookup_inside n : (n < length i)%nat → j !! n = i !! n.
Proof. apply lookup_app_l. Qed.

Lemma local_peek st : local0 (try_ peek) st.
Proof.
  intros a st'. unfold try_, peek. destruct (j !! pos st) as [c|] eqn:Hc; [|done].
  intros [= <- <-]. split; [lia|]. intros Hlt. by rewrite <- lookup_inside, Hc by done.
Qed.

Lemma local_observe_peek st : local0 (observe peek) st.
Proof.
  intros a st'. unfold observe, peek. intros [= <- <-]. split; [lia|]. intros Hlt.
  by rewrite lookup_inside.
Qed.

Lemma local_is_eof st : local0 (observe is_eof) st.
Proof.
  intros a st'. unfold observe, is_eof. intros [= <- <-]. split; [lia|]. intros Hlt.
  by rewrite !(proj2 (Nat.leb_gt _ _)) by (rewrite ?length_app; lia).
Qed.

Lemma local_get_pos st : local0 get_pos st.
Proof. intros a st' [= <- <-]. split; [lia|done]. Qed.
Lemma local_get_items_left st : local0 get_items_left st.
Proof. intros a st' [= <- <-]. split; [lia|done]. Qed.
Lemma local_set_items_left n st : local0 (set_items_left n) st.
Proof. intros a st' [= <- <-]. split; [cbn; lia|done]. Qed.
Lemma local_advance n st : local (λ _, n) (advance n) st.
Proof. intros a st' [= <- <-]. split; [cbn; lia|done]. Qed.

(** A slice that ends at the cursor. *)
Lemma local_get_slice a b st : (b ≤ pos st)%nat → local0 (get_slice a b) st.
Proof.
  intros Hb s st'. unfold get_slice. destruct (_ && _) eqn:Hc; [|done]. intros [= <- <-].
  split; [lia|]. intros Hlt. apply andb_true_iff in Hc as [Ha _]. rewrite Ha.
  rewrite (proj2 (Nat.leb_le _ _)) by lia. cbn. by rewrite slice_app_l by lia.
Qed.

(** A loop whose iterations move the cursor: the shorter input has fuel
    enough. *)
Definition step_by {S A} (r : flow S A) : nat := match r with Continue _ => 1 | Break _ => 0 end.

Lemma local_loop {S A} (body : S → parser (flow S A)) s st :
  (∀ s st, local step_by (body s) st) → local0 (loop body s) st.
Proof.
  intros Hb a st'. unfold loop.
  generalize (Datatypes.S (length j - pos st)) as n. intros n.
  assert (Hm : (length i - pos st < Datatypes.S (length i - pos st))%nat) by lia. revert Hm.
  generalize (Datatypes.S (length i - pos st)) as m. intros m.
  revert m s st. induction n as [|n IH]; intros m s st Hm; [done|]. cbn [loop_fuel].
  unfold mbind at 1, parser_bind at 1. specialize (Hb s st). unfold local in Hb.
  destruct (body s j st) as [[s1|a1] st1| | |] eqn:Hj; try done.
  - destruct (Hb _ _ eq_refl) as [H1 H2]. cbn in H1. intros Hrun.
    destruct m as [|m]; [lia|].
    destruct (decide (pos st1 < length i)%nat) as [Hlt|Hge].
    + destruct (IH m s1 st1 ltac:(lia) Hrun) as [H3 H4]. split; [lia|]. intros Hlt'.
      cbn [loop_fuel]. unfold mbind at 1, parser_bind at 1. rewrite H2 by lia. by apply H4.
    + destruct (IH (Datatypes.S (length i - pos st1)) s1 st1 ltac:(lia) Hrun) as [H3 _].
      split; [lia|]. lia.
  - destruct (Hb _ _ eq_refl) as [H1 H2]. intros [= <- <-]. split; [lia|]. intros Hlt.
    destruct m as [|m]; [lia|]. cbn [loop_fuel]. unfold mbind at 1, parser_bind at 1.
    by rewrite H2.
Qed.
End local.

Create HintDb local discriminated.
#[export] Hint Resolve local_peek local_observe_peek local_is_eof local_get_pos local_get_items_left
  local_set_items_left local_advance local_ok_or local_fail : local.

(** A bind: the first part from the database, moving by what is known of it. *)
Ltac local_step :=
  lazymatch goal with
  | |- local _ _ _ (get_pos ≫= _) _ =>
      eapply local_bind; [apply local_get_pos|intros ? ? [= <- <-]; cbn [pos]]
  | |- local _ _ _ (get_slice _ _ ≫= _) _ =>
      eapply local_bind; [apply local_get_slice; lia|intros ? ? _]
  | |- local _ _ _ (get_slice _ _) _ => eapply local_mono; [apply local_get_slice; lia|cbn; lia]
  | |- local _ _ _ ((if ?b then _ else _) ≫= _) _ => destruct b eqn:?
  | |- local _ _ _ (_ ≫= _) _ =>
      first [ eapply local_bind; [solve [eauto 3 with local nocore]|intros ? ? _]
            | eapply (local_bind _ _ _ (λ _, 0%nat)); [solve [repeat local_step]|intros ? ? _] ]
  | |- local _ _ _ (if ?b then _ else _) _ => destruct b eqn:?
  | |- local _ _ _ (let _ := _ in _) _ => cbv zeta
  | |- local _ _ _ (match ?x with _ => _ end) _ => destruct x eqn:?
  | |- local _ _ _ (mret _) _ => apply local_ret; cbn; lia
  | |- local _ _ _ (fail _) _ => apply local_fail
  | |- local _ _ _ _ _ =>
      eapply local_mono; [solve [eauto 3 with local nocore]|cbn; intros; lia]
  end.
Ltac local_auto := intros; repeat (local_step; cbn [negb] in *).

Section methods.
Context (i ext : bytes).
Abbreviation j := (i ++ ext).
Abbreviation local := (local i ext).
Abbreviation local0 := (local (λ _, 0%nat)).

Lemma local_push_item {T} (l : list T) x st : local0 (push_item l x) st.
Proof. unfold push_item. local_auto. Qed.

Lemma local_to_str b st : local0 (to_str b) st.
Proof. apply local_ok_or. Qed.

Lemma local_consume_byte b st : local (λ _, 1%nat) (consume_byte b) st.
Proof. unfold consume_byte. local_auto. Qed.

Lemma local_consume_sp st : local (λ _, 1%nat) consume_sp st.
Proof. apply local_consume_byte. Qed.

Lemma local_try_consume_byte b st :
  local (λ r : bool, if r then 1 else 0)%nat (try_consume_byte b) st.
Proof. unfold try_consume_byte. local_auto. Qed.
#[local] Hint Resolve local_push_item local_to_str local_consume_byte local_consume_sp
  local_try_consume_byte : local.

Lemma local_scan f st : local0 (scan f) st.
Proof. apply local_loop. intros _ st1. local_auto. Qed.

Lemma local_scanned_text start st : local0 (scanned_text start) st.
Proof. unfold scanned_text. local_auto. Qed.
#[local] Hint Resolve local_scan local_scanned_text : local.

Lemma local_parse_number st : local0 parse_number st.
Proof. unfold parse_number. local_auto. Qed.

Lemma local_parse_atom st : local0 parse_atom st.
Proof. unfold parse_atom. local_auto. Qed.

Lemma local_parse_tag st : local0 parse_tag st.
Proof. unfold parse_tag. local_auto. Qed.

Lemma local_parse_text st : local0 parse_text st.
Proof. unfold parse_text. local_auto. Qed.

Lemma local_read_until_byte t st : local0 (read_until_byte t) st.
Proof. unfold read_until_byte. local_auto. Qed.

Lemma local_parse_fetch_att_name st : local0 parse_fetch_att_name st.
Proof. unfold parse_fetch_att_name. local_auto. Qed.

Lemma local_parse_quoted st : local (λ _, 1%nat) parse_quoted st.
Proof.
  unfold parse_quoted. local_auto. eapply local_mono; [apply local_loop|cbn; lia].
  intros _ st2. local_auto.
Qed.
#[local] Hint Resolve local_parse_number local_parse_atom local_parse_tag local_parse_text
  local_read_until_byte local_parse_fetch_att_name local_parse_quoted : local.

Lemma local_consume_crlf st : local (λ _, 2%nat) consume_crlf st.
Proof.
  intros a st'. unfold consume_crlf, mbind, parser_bind, try_, peek, observe, peek_at.
  destruct (j !! pos st) as [c|] eqn:Hc; [|done]. destruct (negb _) eqn:Hn; [done|].
  destruct (usize_checked_add _ _) as [z|] eqn:Hz; [|done].
  pose proof (usize_checked_add_Some _ _ _ Hz) as [-> _].
  assert (Hp : Z.to_nat (Z.of_nat (pos st) + Z.of_nat 1) = (pos st + 1)%nat) by lia. rewrite Hp.
  destruct (j !! (pos st + 1)%nat) as [b|] eqn:Hb; [|done].
  destruct (b =?b LF) eqn:Hbl; [|done]. unfold advance. intros [= <- <-]. cbn [pos].
  split; [lia|]. intros Hlt. rewrite <- (lookup_inside i ext), Hc, Hn by lia.
  cbv beta. by rewrite Hz, Hp, <- (lookup_inside i ext), Hb, Hbl by lia.
Qed.

Lemma local_literal_body n st :
  local0 (p ← get_pos;
    e ← ok_or (usize_checked_add (Z.of_nat p) n) Incomplete;
    len ← get_len;
    if Z.of_nat len <? e then fail Incomplete
    else data ← get_slice p (Z.to_nat e); set_pos (Z.to_nat e);; mret data) st.
Proof.
  intros a st'. unfold mbind, parser_bind, get_pos, ok_or, get_len, get_slice, set_pos.
  destruct (usize_checked_add _ _) as [e|]; [|done]. unfold mret, parser_ret, fail.
  destruct (Z.of_nat (length j) <? e) eqn:Hl; [done|].
  destruct (_ && _) eqn:Hc; [|done]. intros [= <- <-]. cbn [pos].
  apply andb_true_iff in Hc as [Ha%Nat.leb_le Hb%Nat.leb_le]. split; [lia|]. intros Hlt.
  rewrite (proj2 (Z.ltb_ge _ _)) by lia.
  rewrite !(proj2 (Nat.leb_le _ _)) by lia. cbn. by rewrite slice_app_l by lia.
Qed.
#[local] Hint Resolve local_consume_crlf : local.

Lemma local_parse_literal st : local (λ _, 1%nat) parse_literal st.
Proof.
  unfold parse_literal. do 5 local_step; [local_auto|].
  eapply local_mono; [apply local_literal_body|cbn; lia].
Qed.
#[local] Hint Resolve local_parse_literal : local.

Lemma local_parse_astring st : local0 parse_astring st.
Proof. unfold parse_astring. local_auto. Qed.

(** A keyword found on the longer input, inside the shorter one. *)
Lemma kw_match_inside kw p :
  kw_match kw j p = true → (p + length kw < length i)%nat → kw_match kw i p = true.
Proof.
  unfold kw_match. intros H Hlt. rewrite slice_app_l, lookup_inside in H by lia.
  rewrite (proj2 (Nat.leb_le (p + length kw) (length i))) by lia.
  rewrite (proj2 (Nat.leb_le (p + length kw) (length j))) in H by (rewrite length_app; lia). done.
Qed.

Lemma local_expect_nil st : local0 expect_nil st.
Proof.
  intros a st'. unfold expect_nil, mbind, parser_bind. rewrite !try_consume_keyword_ci_eq.
  destruct (kw_match NIL j (pos st)) eqn:Hj.
  - intros [= <- <-]. cbn [pos]. split; [lia|]. intros Hlt. by rewrite kw_match_inside.
  - rewrite remaining_eq. by repeat case_match.
Qed.
#[local] Hint Resolve local_parse_astring local_expect_nil : local.

Lemma local_parse_nstring st : local0 parse_nstring st.
Proof. unfold parse_nstring. local_auto. Qed.

Lemma local_parse_nstring_bytes st : local0 parse_nstring_bytes st.
Proof. unfold parse_nstring_bytes. local_auto. Qed.

Lemma local_parse_nstring_bytes_optional st : local0 parse_nstring_bytes_optional st.
Proof. unfold parse_nstring_bytes_optional. local_auto. Qed.

Lemma local_parse_flag_or_atom st : local0 parse_flag_or_atom st.
Proof. unfold parse_flag_or_atom. local_auto. Qed.

Lemma local_list_items {T} (item : parser T) what st :
  (∀ st, local0 item st) → local0 (list_items item what) st.
Proof. intros Hi. apply local_loop. intros l st1. local_auto. Qed.

Lemma local_sp_items {T} (item : parser T) charged st :
  (∀ st, local0 item st) → local0 (sp_items item charged) st.
Proof. intros Hi. apply local_loop. intros l st1. local_auto. Qed.
#[local] Hint Resolve local_parse_nstring local_parse_nstring_bytes
  local_parse_nstring_bytes_optional local_parse_flag_or_atom local_list_items
  local_sp_items : local.

Lemma local_parse_paren_atom_list st : local0 parse_paren_atom_list st.
Proof. unfold parse_paren_atom_list. local_auto. Qed.

Lemma local_parse_balanced_parens st : local0 parse_balanced_parens st.
Proof.
  unfold parse_balanced_parens. do 2 local_step.
  eapply local_bind; [apply local_loop; intros depth st2; local_auto|].
  local_auto.
Qed.
#[local] Hint Resolve local_parse_paren_atom_list local_parse_balanced_parens : local.

Lemma local_parse_resp_text_code st : local0 parse_resp_text_code st.
Proof. unfold parse_resp_text_code. local_auto. Qed.
#[local] Hint Resolve local_parse_resp_text_code : local.

Lemma local_parse_resp_text st : local0 parse_resp_text st.
Proof. unfold parse_resp_text. local_auto. Qed.
#[local] Hint Resolve local_parse_resp_text : local.

Lemma local_parse_resp_text_after_keyword st : local0 parse_resp_text_after_keyword st.
Proof. unfold parse_resp_text_after_keyword. local_auto. Qed.

Lemma local_parse_list_lsub_body st : local0 parse_list_lsub_body st.
Proof. unfold parse_list_lsub_body. local_auto. Qed.

Lemma local_parse_status_item st : local0 parse_status_item st.
Proof. unfold parse_status_item. local_auto. Qed.

Lemma local_parse_body_section st : local0 parse_body_section st.
Proof. unfold parse_body_section. local_auto. Qed.
#[local] Hint Resolve local_parse_resp_text_after_keyword local_parse_list_lsub_body
  local_parse_status_item local_parse_body_section : local.

Lemma local_parse_status_items st : local0 parse_status_items st.
Proof. unfold parse_status_items. local_auto. Qed.

Lemma local_parse_one_fetch_att st : local0 parse_one_fetch_att st.
Proof. unfold parse_one_fetch_att. local_auto. Qed.
#[local] Hint Resolve local_parse_status_items local_parse_one_fetch_att : local.

Lemma local_parse_fetch_msg_att st : local0 parse_fetch_msg_att st.
Proof. unfold parse_fetch_msg_att. local_auto. Qed.
#[local] Hint Resolve local_parse_fetch_msg_att : local.

(** A response ends with its CRLF: the cursor may stand at the very end. *)
Definition local_end {A} (m : parser A) (st : pstate) : Prop :=
  ∀ a st', m j st = Ok a st' →
    (pos st < pos st')%nat ∧ ((pos st' ≤ length i)%nat → m i st = Ok a st').

Lemma local_end_bind {A B} (d : A → nat) (m : parser A) (k : A → parser B) st :
  local d m st → (∀ a st1, m j st = Ok a st1 → local_end (k a) st1) → local_end (m ≫= k) st.
Proof.
  unfold local_end at 2, mbind, parser_bind. intros Hm Hk b st'.
  destruct (m j st) as [a st1| | |] eqn:Hj; try done. intros Hb.
  destruct (Hm a st1 Hj) as [H1 H2]. destruct (Hk a st1 eq_refl b st' Hb) as [H3 H4].
  split; [lia|]. intros Hle. rewrite H2 by lia. by apply H4.
Qed.

Lemma local_end_fail {A} e st : local_end (fail (A := A) e) st.
Proof. done. Qed.

Lemma local_end_crlf {A} (a : A) st : local_end (consume_crlf;; mret a) st.
Proof.
  intros b st'. unfold consume_crlf, mbind, parser_bind, try_, peek, observe, peek_at.
  destruct (j !! pos st) as [c|] eqn:Hc; [|done]. destruct (negb _) eqn:Hn; [done|].
  destruct (usize_checked_add _ _) as [z|] eqn:Hz; [|done].
  pose proof (usize_checked_add_Some _ _ _ Hz) as [-> _].
  assert (Hp : Z.to_nat (Z.of_nat (pos st) + Z.of_nat 1) = (pos st + 1)%nat) by lia. rewrite Hp.
  destruct (j !! (pos st + 1)%nat) as [x|] eqn:Hb; [|done].
  destruct (x =?b LF) eqn:Hbl; [|done]. unfold advance, mret, parser_ret. intros [= <- <-].
  cbn [pos]. split; [lia|]. intros Hlt. rewrite <- (lookup_inside i ext), Hc, Hn by lia.
  cbv beta. by rewrite Hz, Hp, <- (lookup_inside i ext), Hb, Hbl by lia.
Qed.

Ltac end_step :=
  lazymatch goal with
  | |- local_end (consume_crlf ≫= _) _ => apply local_end_crlf
  | |- local_end (get_pos ≫= _) _ =>
      eapply local_end_bind; [apply local_get_pos|intros ? ? [= <- <-]; cbn [pos]]
  | |- local_end (get_slice _ _ ≫= _) _ =>
      eapply local_end_bind; [apply local_get_slice; lia|intros ? ? _]
  | |- local_end (_ ≫= _) _ =>
      first [ eapply local_end_bind; [solve [eauto 3 with local nocore]|intros ? ? _]
            | eapply (local_end_bind (λ _, 0%nat)); [solve [repeat local_step]|intros ? ? _] ]
  | |- local_end (if ?b then _ else _) _ => destruct b eqn:?
  | |- local_end (let _ := _ in _) _ => cbv zeta
  | |- local_end (match ?x with _ => _ end) _ => destruct x eqn:?
  | |- local_end (fail _) _ => apply local_end_fail
  | |- local_end _ _ => solve [eauto 3 with local nocore]
  end.
Ltac end_auto := intros; repeat (end_step; cbn [negb] in *).

Lemma end_parse_continue_req st : local_end parse_continue_req st.
Proof. unfold parse_continue_req. end_auto. Qed.

Lemma end_finish_other n kind st : local_end (finish_other_data_with_prefix n kind) st.
Proof.
  unfold finish_other_data_with_prefix.
  eapply (local_end_bind (λ _, 0%nat)); [|end_auto].
  intros a st'. unfold observe, find_current_line_start. intros [= <- <-]. split; [lia|].
  intros Hlt. by rewrite line_start_from_ext by lia.
Qed.
#[local] Hint Resolve end_parse_continue_req end_finish_other : local.

Lemma end_parse_numeric st : local_end parse_numeric_data_response st.
Proof. unfold parse_numeric_data_response. end_auto. Qed.

Lemma end_parse_named st : local_end parse_named_data_response st.
Proof. unfold parse_named_data_response. end_auto. Qed.
#[local] Hint Resolve end_parse_numeric end_parse_named : local.

(** The status keywords, in the order they are tried. *)
Definition status_kws : list (bytes * Status) :=
  [(b! "PREAUTH", Status_PreAuth); (b! "OK", Status_Ok); (b! "NO", Status_No);
   (b! "BAD", Status_Bad); (b! "BYE", Status_Bye)].

Fixpoint status_find (l : list (bytes * Status)) (k : bytes) (st : pstate) :
    outcome (option Status) :=
  match l with
  | [] => Ok None st
  | (kw, s) :: l =>
    if kw_match kw k (pos st)
    then Ok (Some s) (mkPstate (pos st + length kw) (items_left st)) else status_find l k st
  end.

Lemma status_find_eq k st : try_parse_status_keyword k st = status_find status_kws k st.
Proof.
  unfold try_parse_status_keyword, status_kws. cbn [status_find].
  repeat (unfold mbind at 1, parser_bind at 1; rewrite try_consume_keyword_ci_eq;
          destruct (kw_match _ k (pos st)); [done|]).
  done.
Qed.

Lemma kw_match_outside kw p :
  kw_match kw j p = false → kw_match kw i p = true → (p + length kw)%nat = length i.
Proof.
  unfold kw_match. intros Hj Hi. apply andb_true_iff in Hi as [Hi Hb].
  apply andb_true_iff in Hi as [Hi Hz]. apply andb_true_iff in Hi as [Hu Hl].
  rewrite Hu, slice_app_l, Hz in Hj by (by apply Nat.leb_le). apply Nat.leb_le in Hl.
  destruct (decide (p + length kw < length i)%nat); [|lia]. exfalso.
  rewrite lookup_inside, Hb in Hj by done.
  rewrite (proj2 (Nat.leb_le _ _)) in Hj by (rewrite length_app; lia). done.
Qed.

(** No keyword of the list is hidden behind another. *)
Lemma kw_match_unique kw kw' p :
  kw ∈ KEYWORDS → kw' ∈ KEYWORDS → kw_match kw i p = true → kw_match kw' i p = true →
  ¬ (length kw < length kw')%nat.
Proof.
  intros Hin Hin' [Hl H]%kw_match_lower [Hl' H']%kw_match_lower Hlt.
  pose proof keywords_prefix_free as Hfree. rewrite Forall_forall in Hfree.
  specialize (Hfree kw Hin). rewrite Forall_forall in Hfree.
  apply (Hfree kw' Hin' Hlt). rewrite H, H', take_take. f_equal. lia.
Qed.

Lemma status_find_inside l st s st' :
  Forall (λ x, x.1 ∈ KEYWORDS) l → status_find l j st = Ok (Some s) st' →
  (pos st' < length i)%nat → status_find l i st = Ok (Some s) st'.
Proof.
  intros Hl. induction Hl as [|[kw s0] l Hkw Hl IH]; [done|]. cbn [status_find fst] in *.
  destruct (kw_match kw j (pos st)) eqn:Hj.
  - intros [= <- <-]. cbn [pos]. intros Hlt. by rewrite kw_match_inside.
  - intros Hrun Hlt. rewrite (IH Hrun Hlt).
    destruct (kw_match kw i (pos st)) eqn:Hi; [|done]. exfalso.
    pose proof (kw_match_outside _ _ Hj Hi) as Hp. specialize (IH Hrun Hlt). clear Hrun.
    induction l as [|[kw1 s1] l IHl]; [done|]. cbn [status_find] in IH.
    apply Forall_cons in Hl as [Hkw1 Hl]. destruct (kw_match kw1 i (pos st)) eqn:Hi1; [|by apply IHl].
    injection IH as <- <-. cbn [pos] in Hlt.
    apply (kw_match_unique kw1 kw (pos st)); try done. lia.
Qed.

Lemma status_find_none l st st' :
  status_find l j st = Ok None st' →
  st' = st ∧ (status_find l i st = Ok None st
    ∨ ∃ kw s, (kw, s) ∈ l ∧ kw_match kw i (pos st) = true ∧ (pos st + length kw)%nat = length i).
Proof.
  induction l as [|[kw s] l IH]; cbn [status_find]; [intros [= <-]; auto|].
  destruct (kw_match kw j (pos st)) eqn:Hj; [done|].
  intros [-> H]%IH. split; [done|]. destruct (kw_match kw i (pos st)) eqn:Hi.
  - right. exists kw, s. split; [by left|]. split; [done|]. by apply kw_match_outside.
  - destruct H as [?|(kw' & s' & ? & ?)]; [by left|right]. exists kw', s'. split; [by right|done].
Qed.

Lemma status_kws_keywords : Forall (λ x, x.1 ∈ KEYWORDS) status_kws.
Proof. unfold status_kws, KEYWORDS. repeat constructor; set_solver. Qed.

Lemma status_find_pos l k st o st' : status_find l k st = Ok o st' → (pos st ≤ pos st')%nat.
Proof.
  induction l as [|[kw s] l IH]; cbn [status_find]; [by intros [= <- <-]|].
  destruct (kw_match kw k (pos st)); [|done]. intros [= <- <-]. cbn. lia.
Qed.

(** A status keyword and what follows it. When the shorter input ends right
    behind letters that the longer one goes on with, the continuation must
    go past its end. *)
Lemma end_status {B} (k : option Status → parser B) st :
  (∀ s st1, local_end (k (Some s)) st1) → local_end (k None) st →
  (∀ kw b st', kw ∈ KEYWORDS → kw_match kw i (pos st) = true →
     (pos st + length kw)%nat = length i → k None j st = Ok b st' → (length i < pos st')%nat) →
  local_end (try_parse_status_keyword ≫= k) st.
Proof.
  intros Hs Hn Hh b st'. unfold mbind, parser_bind. rewrite !status_find_eq.
  destruct (status_find status_kws j st) as [[s|] st1| | |] eqn:Hf; try done; intros Hrun.
  - destruct (Hs s st1 b st' Hrun) as [H1 H2]. pose proof (status_find_pos _ _ _ _ _ Hf).
    split; [lia|]. intros Hle.
    rewrite (status_find_inside _ _ _ _ status_kws_keywords Hf) by lia. by apply H2.
  - apply status_find_none in Hf as [-> Hf]. destruct (Hn b st' Hrun) as [H1 H2].
    split; [done|]. intros Hle. destruct Hf as [->|(kw & s & Hin & Hm & Hp)]; [by apply H2|].
    exfalso. pose proof status_kws_keywords as Hk. rewrite Forall_forall in Hk.
    specialize (Hh kw b st' (Hk _ Hin) Hm Hp Hrun). lia.
Qed.

Lemma no_keyword_fails {A B} what (k : A → parser B) st b st' :
  ((rem ← remaining;
    if could_be_status_keyword_prefix rem then fail Incomplete else fail (Malformed what)) ≫= k)
    j st = Ok b st' → False.
Proof.
  unfold mbind at 1, parser_bind at 1. unfold mbind at 1, parser_bind at 1.
  rewrite remaining_eq. destruct (_ <=? _)%nat; [|done].
  by destruct (could_be_status_keyword_prefix _).
Qed.

Lemma end_parse_tagged st : local_end parse_tagged st.
Proof.
  unfold parse_tagged. do 2 end_step. apply end_status.
  - intros s st2. end_auto.
  - intros r st' []%no_keyword_fails.
  - intros kw b st' _ _ _ []%no_keyword_fails.
Qed.

(** The letters of a keyword are atom characters and no digits. *)
Lemma kw_match_bytes kw p c :
  kw ∈ KEYWORDS → kw_match kw i p = true → (p + length kw)%nat = length i → c ∈ drop p i →
  is_atom_char c = true ∧ is_ascii_digit c = false.
Proof.
  intros Hin [_ Hm]%kw_match_lower Hp Hc.
  assert (Hl : to_ascii_lowercase c ∈ to_ascii_lowercase <$> kw).
  { rewrite Hm, take_ge by (rewrite length_fmap, length_drop; lia). by apply list_elem_of_fmap_2. }
  by eapply keyword_bytes.
Qed.

(** [parse_atom] does not stop before the run of atom characters does. *)
Lemma parse_atom_past st w st' :
  (∀ c, c ∈ drop (pos st) i → is_atom_char c = true) → (pos st ≤ length i)%nat →
  parse_atom j st = Ok w st' → (length i ≤ pos st')%nat.
Proof.
  intros Hall Hp Hrun.
  assert (Hw : wp parse_atom j st (λ _ st', (pos st ≤ pos st')%nat
    ∧ match j !! pos st' with Some c => is_atom_char c = false | None => True end) (λ _, True)).
  { unfold parse_atom. do 3 wp_step.
    eapply wp_mono; [apply wp_scan_cursor; rewrite length_app; lia| |done].
    intros _ st1 (? & _ & _ & Hstop).
    assert (Hs : match j !! pos st1 with Some c => is_atom_char c = false | None => True end).
    { destruct (j !! pos st1) as [c|]; [|done]. by destruct (is_atom_char c). }
    do 2 wp_step. wp_step; [by repeat wp_step|]. unfold scanned_text, to_str.
    do 2 wp_step. wp_step; [done|]. wp_step. wp_step. wp_step. wp_step. wp_step.
    by destruct (from_utf8 _). }
  apply (wp_Ok _ _ _ _ _ _ _ Hw) in Hrun as [Hle Hs].
  destruct (decide (length i ≤ pos st')%nat) as [|Hlt%Nat.nle_gt]; [done|]. exfalso.
  rewrite lookup_inside in Hs by done.
  destruct (lookup_lt_is_Some_2 i (pos st') Hlt) as [c Hc]. rewrite Hc in Hs.
  rewrite Hall in Hs; [done|]. apply list_elem_of_lookup. exists (pos st' - pos st)%nat.
  rewrite lookup_drop. by replace (pos st + (pos st' - pos st))%nat with (pos st') by lia.
Qed.

(** A data response whose name starts with what looked like a keyword. *)
Lemma parse_named_past st r st' :
  (∀ c, c ∈ drop (pos st) i → is_atom_char c = true) → (pos st ≤ length i)%nat →
  parse_named_data_response j st = Ok r st' → (length i < pos st')%nat.
Proof.
  intros Hall Hp. unfold parse_named_data_response. rewrite (bind_Ok _ _ _ st (pos st) st) by done.
  unfold mbind at 1, parser_bind at 1.
  destruct (parse_atom j st) as [w st1| | |] eqn:Ha; try done.
  apply parse_atom_past in Ha; [|done..]. intros Hrun.
  match type of Hrun with ?m j st1 = _ => assert (Hend : local_end m st1) by end_auto end.
  destruct (Hend _ _ Hrun). lia.
Qed.

Lemma end_parse_untagged st : local_end parse_untagged st.
Proof.
  unfold parse_untagged. do 2 end_step. apply end_status.
  - intros s st2. end_auto.
  - end_auto.
  - intros kw b st' Hin Hm Hp Hrun.
    match type of Hp with (pos ?s + _)%nat = _ => rename s into st2 end.
    assert (Hne : (length kw ≠ 0)%nat).
    { intros ->%nil_length_inv. repeat (apply elem_of_cons in Hin as [?|Hin]; [done|]).
      by apply not_elem_of_nil in Hin. }
    destruct (lookup_lt_is_Some_2 i (pos st2)) as [c Hc]; [lia|].
    assert (Hd : c ∈ drop (pos st2) i) by (erewrite drop_S by done; left).
    unfold mbind, parser_bind, try_, peek in Hrun. rewrite lookup_inside, Hc in Hrun by lia.
    rewrite (proj2 (kw_match_bytes _ _ _ Hin Hm Hp Hd)) in Hrun.
    apply (parse_named_past st2 b st'); [|lia|exact Hrun]. intros c' Hc'.
    by apply (kw_match_bytes _ _ _ Hin Hm Hp Hc').
Qed.
#[local] Hint Resolve end_parse_tagged end_parse_untagged : local.

Lemma end_parse_response st : local_end parse_response st.
Proof. unfold parse_response. end_auto. Qed.
End methods.
