(* ===== verification/ParserBudget.v ===== *)
(** The item budget of [imap-core/src/parser.rs] does one thing: a method that
    succeeds with some budget does the same with any other that is enough for
    what it charges, and answers [TooManyItems] with one that is not. *)

From S2P Require Import Prelude Str Ast Monad ResponseParser.
From stdpp Require Import options.
Import Parser.

(** When [m] succeeds it charges some number of list elements, and how many
    does not depend on the budget. *)
Definition budgeted {A} (m : parser A) : Prop :=
  ∀ i p n a st', m i (mkPstate p n) = Ok a st' →
    items_left st' <= n
    ∧ ∀ k, 0 <= k → m i (mkPstate p k) =
        if k <? n - items_left st' then Err (TooManyItems MAX_ITEMS_PER_RESPONSE)
        else Ok a (mkPstate (pos st') (k - (n - items_left st'))).

(** A method that charges nothing. *)
Lemma budgeted_free {A} (m : parser A) :
  (∀ i p n a st', m i (mkPstate p n) = Ok a st' →
     items_left st' = n ∧ ∀ k, m i (mkPstate p k) = Ok a (mkPstate (pos st') k)) →
  budgeted m.
Proof.
  intros Hm i p n a st' H. destruct (Hm _ _ _ _ _ H) as [-> Hk]. split; [lia|]. intros k ?.
  rewrite Z.sub_diag, Z.sub_0_r, (proj2 (Z.ltb_ge _ _)) by lia. apply Hk.
Qed.

Lemma budgeted_bind {A B} (m : parser A) (f : A → parser B) :
  budgeted m → (∀ a, budgeted (f a)) → budgeted (m ≫= f).
Proof.
  intros Hm Hf i p n b st2. unfold mbind, parser_bind.
  destruct (m i (mkPstate p n)) as [a [p1 n1]| | |] eqn:H1; try done. intros H2.
  destruct (Hm _ _ _ _ _ H1) as [Hn1 Hk1]. destruct (Hf _ _ _ _ _ _ H2) as [Hn2 Hk2].
  cbn [pos items_left] in *. split; [lia|]. intros k Hk. rewrite Hk1 by done.
  destruct (Z.ltb_spec k (n - n1)).
  - by rewrite (proj2 (Z.ltb_lt _ _)) by lia.
  - rewrite Hk2 by lia. destruct (Z.ltb_spec (k - (n - n1)) (n1 - items_left st2)).
    + by rewrite (proj2 (Z.ltb_lt _ _)) by lia.
    + rewrite (proj2 (Z.ltb_ge _ _)) by lia. do 2 f_equal. lia.
Qed.

Lemma budgeted_fail {A} e : budgeted (A := A) (fail e).
Proof. done. Qed.

(** What does not look at the budget. *)
Lemma budgeted_ret {A} (a : A) : budgeted (mret a).
Proof. apply budgeted_free. by intros i p n ? ? [= <- <-]. Qed.
Lemma budgeted_ok_or {A} (o : option A) e : budgeted (ok_or o e).
Proof. destruct o; [apply budgeted_ret|apply budgeted_fail]. Qed.
Lemma budgeted_get_pos : budgeted get_pos.
Proof. apply budgeted_free. by intros i p n ? ? [= <- <-]. Qed.
Lemma budgeted_get_len : budgeted get_len.
Proof. apply budgeted_free. by intros i p n ? ? [= <- <-]. Qed.
Lemma budgeted_set_pos q : budgeted (set_pos q).
Proof. apply budgeted_free. by intros i p n ? ? [= <- <-]. Qed.
Lemma budgeted_advance q : budgeted (advance q).
Proof. apply budgeted_free. by intros i p n ? ? [= <- <-]. Qed.
Lemma budgeted_get_slice a b : budgeted (get_slice a b).
Proof. apply budgeted_free. intros i p n s st'. unfold get_slice. destruct (_ && _); [|done]. by intros [= <- <-]. Qed.
Lemma budgeted_peek : budgeted (try_ peek).
Proof. apply budgeted_free. intros i p n c st'. unfold try_, peek. cbn. destruct (i !! p); [|done]. by intros [= <- <-]. Qed.

Lemma budgeted_observe {A} (f : bytes → pstate → A) :
  (∀ i p n k, f i (mkPstate p n) = f i (mkPstate p k)) → budgeted (observe f).
Proof.
  intros Hf. apply budgeted_free. intros i p n a st' [= <- <-]. split; [done|]. intros k.
  unfold observe. by rewrite (Hf i p k n).
Qed.

(** The one method that does. *)
Lemma budgeted_push_item {T} (l : list T) x : budgeted (push_item l x).
Proof.
  intros i p n a st'. unfold push_item, get_items_left, set_items_left, mbind, parser_bind, ok_or, usize_checked_sub.
  cbn [items_left pos]. destruct (Z.leb_spec 1 n); [|done].
  intros [= <- <-]. cbn [items_left pos]. split; [lia|]. intros k ?.
  replace (n - (n - 1)) with 1 by lia.
  destruct (Z.leb_spec 1 k), (Z.ltb_spec k 1); (done || lia).
Qed.

Lemma budgeted_loop {S A} (body : S → parser (flow S A)) s :
  (∀ s, budgeted (body s)) → budgeted (loop body s).
Proof.
  intros Hb i p n a st'. unfold loop. cbn [pos]. revert i p n a st'.
  assert (H : ∀ fuel s, budgeted (loop_fuel fuel body s)).
  { clear s. induction fuel as [|fuel IH]; intros s; [done|]. cbn [loop_fuel].
    apply budgeted_bind; [apply Hb|]. intros [s'|a]; [apply IH|apply budgeted_ret]. }
  intros i p n a st' Hl. by apply (H _ s i).
Qed.

(* ------------------------------------------------------------------ *)
(** ** The methods                                                      *)
(* ------------------------------------------------------------------ *)

Create HintDb budgeted discriminated.
#[export] Hint Resolve budgeted_fail budgeted_ret budgeted_ok_or budgeted_get_pos budgeted_get_len
  budgeted_set_pos budgeted_advance budgeted_get_slice budgeted_peek budgeted_push_item : budgeted.

(** By the structure of a method. *)
Ltac budgeted_step :=
  lazymatch goal with
  | |- budgeted (_ ≫= _) => apply budgeted_bind; [|intros ?]
  | |- budgeted (observe _) => by apply budgeted_observe
  | |- budgeted (loop _ _) => apply budgeted_loop; intros ?
  | |- budgeted (if ?b then _ else _) => destruct b
  | |- budgeted (let _ := _ in _) => cbv zeta
  | |- budgeted (match ?x with _ => _ end) => destruct x
  | |- budgeted _ => solve [eauto 2 with budgeted nocore]
  end.
Ltac budgeted_auto := intros; repeat (budgeted_step; cbv beta).

Lemma budgeted_scan f : budgeted (scan f).
Proof. unfold scan. budgeted_auto. Qed.
#[export] Hint Resolve budgeted_scan : budgeted.

Lemma budgeted_scanned_text start : budgeted (scanned_text start).
Proof. unfold scanned_text, to_str. budgeted_auto. Qed.
Lemma budgeted_to_str b : budgeted (to_str b).
Proof. unfold to_str. budgeted_auto. Qed.
Lemma budgeted_remaining : budgeted remaining.
Proof. unfold remaining. budgeted_auto. Qed.
Lemma budgeted_consume_byte b : budgeted (consume_byte b).
Proof. unfold consume_byte. budgeted_auto. Qed.
Lemma budgeted_try_consume_byte b : budgeted (try_consume_byte b).
Proof. unfold try_consume_byte. budgeted_auto. Qed.
Lemma budgeted_matches_ci w : budgeted (matches_ci w).
Proof. unfold matches_ci. budgeted_auto. Qed.
#[export] Hint Resolve budgeted_scanned_text budgeted_to_str budgeted_remaining budgeted_consume_byte
  budgeted_try_consume_byte budgeted_matches_ci : budgeted.

Lemma budgeted_keyword w : budgeted (try_consume_keyword_ci w).
Proof. unfold try_consume_keyword_ci. budgeted_auto. Qed.
Lemma budgeted_consume_crlf : budgeted consume_crlf.
Proof. unfold consume_crlf. budgeted_auto. Qed.
Lemma budgeted_consume_sp : budgeted consume_sp.
Proof. unfold consume_sp. budgeted_auto. Qed.
#[export] Hint Resolve budgeted_keyword budgeted_consume_crlf budgeted_consume_sp : budgeted.

Lemma budgeted_expect_nil : budgeted expect_nil.
Proof. unfold expect_nil. budgeted_auto. Qed.
Lemma budgeted_number : budgeted parse_number.
Proof. unfold parse_number. budgeted_auto. Qed.
Lemma budgeted_atom : budgeted parse_atom.
Proof. unfold parse_atom. budgeted_auto. Qed.
Lemma budgeted_tag : budgeted parse_tag.
Proof. unfold parse_tag. budgeted_auto. Qed.
Lemma budgeted_quoted : budgeted parse_quoted.
Proof. unfold parse_quoted. budgeted_auto. Qed.
Lemma budgeted_text : budgeted parse_text.
Proof. unfold parse_text. budgeted_auto. Qed.
Lemma budgeted_until t : budgeted (read_until_byte t).
Proof. unfold read_until_byte. budgeted_auto. Qed.
Lemma budgeted_status : budgeted try_parse_status_keyword.
Proof. unfold try_parse_status_keyword. budgeted_auto. Qed.
#[export] Hint Resolve budgeted_expect_nil budgeted_number budgeted_atom budgeted_tag budgeted_quoted
  budgeted_text budgeted_until budgeted_status : budgeted.

Lemma budgeted_literal : budgeted parse_literal.
Proof. unfold parse_literal. budgeted_auto. Qed.
#[export] Hint Resolve budgeted_literal : budgeted.

Lemma budgeted_astring : budgeted parse_astring.
Proof. unfold parse_astring. budgeted_auto. Qed.
Lemma budgeted_nstring : budgeted parse_nstring.
Proof. unfold parse_nstring. budgeted_auto. Qed.
Lemma budgeted_flag : budgeted parse_flag_or_atom.
Proof. unfold parse_flag_or_atom. budgeted_auto. Qed.
Lemma budgeted_parens : budgeted parse_balanced_parens.
Proof. unfold parse_balanced_parens. budgeted_auto. Qed.
Lemma budgeted_list_items {T} (item : parser T) what : budgeted item → budgeted (list_items item what).
Proof. intros Hi. unfold list_items. budgeted_auto. Qed.
Lemma budgeted_sp_items {T} (item : parser T) charged : budgeted item → budgeted (sp_items item charged).
Proof. intros Hi. unfold sp_items. budgeted_auto. Qed.
#[export] Hint Resolve budgeted_astring budgeted_nstring budgeted_flag budgeted_parens
  budgeted_list_items budgeted_sp_items : budgeted.

Lemma budgeted_atom_list : budgeted parse_paren_atom_list.
Proof. unfold parse_paren_atom_list. budgeted_auto. Qed.
#[export] Hint Resolve budgeted_atom_list : budgeted.

Lemma budgeted_code : budgeted parse_resp_text_code.
Proof. unfold parse_resp_text_code. budgeted_auto. Qed.
#[export] Hint Resolve budgeted_code : budgeted.

Lemma budgeted_resp_text : budgeted parse_resp_text.
Proof. unfold parse_resp_text. budgeted_auto. Qed.
#[export] Hint Resolve budgeted_resp_text : budgeted.

Lemma budgeted_after_keyword : budgeted parse_resp_text_after_keyword.
Proof. unfold parse_resp_text_after_keyword. budgeted_auto. Qed.
Lemma budgeted_finish_other n kind : budgeted (finish_other_data_with_prefix n kind).
Proof. unfold finish_other_data_with_prefix. budgeted_auto. Qed.
Lemma budgeted_list_body : budgeted parse_list_lsub_body.
Proof. unfold parse_list_lsub_body. budgeted_auto. Qed.
Lemma budgeted_status_item : budgeted parse_status_item.
Proof. unfold parse_status_item. budgeted_auto. Qed.
Lemma budgeted_att_name : budgeted parse_fetch_att_name.
Proof. unfold parse_fetch_att_name. budgeted_auto. Qed.
Lemma budgeted_nstring_bytes : budgeted parse_nstring_bytes.
Proof. unfold parse_nstring_bytes. budgeted_auto. Qed.
Lemma budgeted_nstring_optional : budgeted parse_nstring_bytes_optional.
Proof. unfold parse_nstring_bytes_optional. budgeted_auto. Qed.
#[export] Hint Resolve budgeted_after_keyword budgeted_finish_other budgeted_list_body budgeted_status_item
  budgeted_att_name budgeted_nstring_bytes budgeted_nstring_optional : budgeted.

Lemma budgeted_status_items : budgeted parse_status_items.
Proof. unfold parse_status_items. budgeted_auto. Qed.
Lemma budgeted_section : budgeted parse_body_section.
Proof. unfold parse_body_section. budgeted_auto. Qed.
#[export] Hint Resolve budgeted_status_items budgeted_section : budgeted.

Lemma budgeted_fetch_att : budgeted parse_one_fetch_att.
Proof. unfold parse_one_fetch_att. budgeted_auto. Qed.
#[export] Hint Resolve budgeted_fetch_att : budgeted.

Lemma budgeted_msg_att : budgeted parse_fetch_msg_att.
Proof. unfold parse_fetch_msg_att. budgeted_auto. Qed.
#[export] Hint Resolve budgeted_msg_att : budgeted.

Lemma budgeted_numeric : budgeted parse_numeric_data_response.
Proof. unfold parse_numeric_data_response. budgeted_auto. Qed.
Lemma budgeted_named : budgeted parse_named_data_response.
Proof. unfold parse_named_data_response. budgeted_auto. Qed.
Lemma budgeted_continue : budgeted parse_continue_req.
Proof. unfold parse_continue_req. budgeted_auto. Qed.
Lemma budgeted_tagged : budgeted parse_tagged.
Proof. unfold parse_tagged. budgeted_auto. Qed.
#[export] Hint Resolve budgeted_numeric budgeted_named budgeted_continue budgeted_tagged : budgeted.

Lemma budgeted_untagged : budgeted parse_untagged.
Proof. unfold parse_untagged. budgeted_auto. Qed.
#[export] Hint Resolve budgeted_untagged : budgeted.

Lemma budgeted_response : budgeted parse_response.
Proof. unfold parse_response. budgeted_auto. Qed.
