(* ===== verification/ParserTheorems.v ===== *)
(** The properties of [imap-core]'s [parse_response] that follow from the
    triples of [ParserSafety] and the comparisons of [ParserStream] and
    [ParserLocal]: totality, framing, provenance of what it
    borrows, the item budget, the errors it can return, and that an
    answer does not change when more input arrives. *)

From S2P Require Import Prelude Str Ast Monad ResponseParser ParserSafety ParserStream.
From S2P Require Import ParserLocal.
From stdpp Require Import options.

(** The result of the crate's function, read off the triple of the method. *)
Lemma parse_response_cases input :
  match parse_response input with
  | Parsed rest r => ∃ st', response_post input Parser.new r st' ∧ rest = drop (pos st') input
  | ParseErr e => err_ok input e
  | ParsePanics | ParseHangs => False
  end.
Proof.
  pose proof (wp_parse_response input) as H. unfold wp in H.
  unfold parse_response, mbind at 1, parser_bind at 1.
  destruct (Parser.parse_response input Parser.new) as [r st'|e| |]; try done.
  assert (Hwf : wf input st') by (eapply wf_moved, H).
  pose proof (wp_remaining input st' Hwf) as Hr. unfold wp in Hr.
  unfold mbind, parser_bind. destruct (Parser.remaining input st') as [rest st2|e| |]; try done.
  cbn. destr_hyps; subst. eauto.
Qed.

Lemma parse_response_Parsed input rest r :
  parse_response input = Parsed rest r →
  ∃ st', response_post input Parser.new r st' ∧ rest = drop (pos st') input.
Proof. intros H. pose proof (parse_response_cases input) as Hc. by rewrite H in Hc. Qed.

(** C1: on every input [parse_response] returns a response or an error: no
    slice is out of range, no loop runs for ever. *)
Theorem parse_response_total input :
  (∃ rest r, parse_response input = Parsed rest r) ∨ (∃ e, parse_response input = ParseErr e).
Proof.
  pose proof (parse_response_cases input). destruct (parse_response input); try done; eauto.
Qed.

Lemma parsed_split input p :
  ends_crlf input p → (p ≤ length input)%nat →
  input = slice input 0 (p - 2) ++ [CR; LF] ++ drop p input.
Proof.
  intros [? <-] ?. rewrite app_assoc, <- slice_split, slice_0 by lia. by rewrite take_drop.
Qed.

(** C3: a parsed response is a non-empty line and the CRLF that ends it, and
    [rest] is everything after it. *)
Theorem parse_response_frame input rest r :
  parse_response input = Parsed rest r →
  ∃ line, line ≠ [] ∧ input = line ++ [CR; LF] ++ rest.
Proof.
  intros (st' & (Hm & Hlt & _ & Hcrlf & _) & ->)%parse_response_Parsed.
  exists (slice input 0 (pos st' - 2)). split.
  - apply slice_ne. moved_facts. cbn in *. lia.
  - apply parsed_split; [done|moved_lia].
Qed.

Lemma parse_response_frame_witness :
  ∃ line, line ≠ [] ∧ b! "* 3 EXISTS" ++ [CR; LF; SP] = line ++ [CR; LF] ++ [SP].
Proof. apply (parse_response_frame _ _ (Resp_Data (DR_Exists 3))). vm_compute. reflexivity. Defined.

(** C4: every text and byte slice of a response occurs in the bytes it was
    parsed from, texts are UTF-8, resp-texts hold no line break and every
    number fits a [u32]. *)
Theorem parse_response_borrows input rest r :
  parse_response input = Parsed rest r →
  response_ok input 0 (length input - length rest) r.
Proof.
  intros (st' & (Hm & ? & Hok & _) & ->)%parse_response_Parsed.
  rewrite length_drop. replace (_ - _)%nat with (pos st'); [done|]. moved_lia.
Qed.

Lemma parse_response_borrows_witness :
  response_ok (b! "* FLAGS (a)" ++ [CR; LF]) 0 13 (Resp_Data (DR_Flags [b! "a"])).
Proof.
  apply (parse_response_borrows (b! "* FLAGS (a)" ++ [CR; LF]) [] (Resp_Data (DR_Flags [b! "a"]))).
  vm_compute. reflexivity.
Defined.

(** C5: a response never holds more list elements than
    [MAX_ITEMS_PER_RESPONSE] (the numbers of a SEARCH excepted, which are not
    charged). *)
Theorem parse_response_budget input rest r :
  parse_response input = Parsed rest r →
  Z.of_nat (response_items r) <= MAX_ITEMS_PER_RESPONSE.
Proof.
  intros (st' & ([_ Hi Hb] & _) & _)%parse_response_Parsed.
  change (items_left Parser.new) with MAX_ITEMS_PER_RESPONSE in Hi. lia.
Qed.

Lemma parse_response_budget_witness : 2 <= MAX_ITEMS_PER_RESPONSE.
Proof.
  apply (parse_response_budget (b! "* FLAGS (a b)" ++ [CR; LF]) [] (Resp_Data (DR_Flags [b! "a"; b! "b"]))).
  vm_compute. reflexivity.
Defined.

(** C6: the error of a failed parse is one of those the methods build: an
    offending offset is inside the input, a refused literal is larger than the
    limit it is reported with, and [ExpectedLiteral] and [UnexpectedEof] never
    occur. *)
Theorem parse_response_errors input e : parse_response input = ParseErr e → err_ok input e.
Proof. intros H. pose proof (parse_response_cases input) as Hc. by rewrite H in Hc. Qed.

Lemma parse_response_errors_witness : 
  err_ok (b! "* 1 FETCH (RFC822 {99999999}" ++ [CR; LF]) (LiteralTooLarge 99999999 MAX_LITERAL_SIZE).
Proof. apply parse_response_errors. vm_compute. reflexivity. Defined.

(** The line an unrecognised data response carries is the whole line, or
    the line without its ["* "]; it ends where the response's CRLF starts and
    holds no CR. *)
Theorem parse_response_other input rest line :
  parse_response input = Parsed rest (Resp_Data (DR_Other line)) →
  (CR ∉ line) ∧ (input = line ++ [CR; LF] ++ rest ∨ input = b! "* " ++ line ++ [CR; LF] ++ rest).
Proof.
  intros (st' & (Hm & ? & _ & Hcrlf & Hl & ? & Hs & ?) & ->)%parse_response_Parsed.
  split; [done|]. pose proof (parsed_split input (pos st') Hcrlf ltac:(moved_lia)) as Hi.
  destruct Hl as [->| ->]; [by left|right]. rewrite <- Hs, app_assoc, <- slice_0.
  by rewrite <- slice_split by lia.
Qed.

Lemma parse_response_other_witness : (CR ∉ b! "* 3 FOO").
Proof. apply (parse_response_other (b! "* 3 FOO" ++ [CR; LF]) []). vm_compute. reflexivity. Defined.

(* ------------------------------------------------------------------ *)
(** ** More input                                                       *)
(* ------------------------------------------------------------------ *)

Lemma parse_response_run input :
  parse_response input =
    match Parser.parse_response input Parser.new with
    | Ok r st' => Parsed (drop (pos st') input) r
    | Err e => ParseErr e
    | Panic => ParsePanics
    | NoFuel => ParseHangs
    end.
Proof.
  pose proof (wp_parse_response input) as H. unfold wp in H.
  unfold parse_response, mbind at 1, parser_bind at 1.
  destruct (Parser.parse_response input Parser.new) as [r st'|e| |]; try done.
  unfold mbind, parser_bind. rewrite remaining_eq.
  rewrite (proj2 (Nat.leb_le _ _)); [done|]. destruct H as [? _]. moved_lia.
Qed.

(** What [parse_response] says of a prefix of the input bounds what it says of
    the whole. *)
Lemma parse_response_extends input ext :
  match parse_response input with
  | Parsed rest r => parse_response (input ++ ext) = Parsed (rest ++ ext) r
  | ParseErr e => e = Incomplete ∨ ∃ e', parse_response (input ++ ext) = ParseErr e' ∧ e' ≠ Incomplete
  | ParsePanics | ParseHangs => False
  end.
Proof.
  pose proof (wp_parse_response input) as Hw. unfold wp in Hw.
  pose proof (sim_parse_response input ext Parser.new) as Hs. unfold sim in Hs.
  rewrite !parse_response_run.
  destruct (Parser.parse_response input Parser.new) as [r st'|e| |]; try done.
  - destruct Hs as [->|[_ []]]. rewrite drop_app_le; [done|]. destruct Hw as [? _]. moved_lia.
  - destruct Hs as [?|(e' & -> & ?)]; [by left|right; eauto].
Qed.

(** A parsed response does not depend on what follows it. *)
Theorem parse_response_stable input rest r ext :
  parse_response input = Parsed rest r →
  parse_response (input ++ ext) = Parsed (rest ++ ext) r.
Proof. intros H. pose proof (parse_response_extends input ext) as He. by rewrite H in He. Qed.

Lemma parse_response_stable_witness :
  parse_response ((b! "* 3 EXISTS" ++ [CR; LF]) ++ b! "* 4") = Parsed (b! "* 4") (Resp_Data (DR_Exists 3)).
Proof. apply (parse_response_stable _ [] _ (b! "* 4")). vm_compute. reflexivity. Defined.

(** C7: input rejected with an error other than [Incomplete] stays rejected,
    with such an error, whatever arrives next. *)
Theorem parse_response_error_final input e ext :
  parse_response input = ParseErr e → e ≠ Incomplete →
  ∃ e', parse_response (input ++ ext) = ParseErr e' ∧ e' ≠ Incomplete.
Proof.
  intros H ?. pose proof (parse_response_extends input ext) as He. rewrite H in He.
  by destruct He.
Qed.

Lemma parse_response_error_final_witness :
  ∃ e, parse_response (([CR; SP]) ++ b! "more") = ParseErr e ∧ e ≠ Incomplete.
Proof. apply (parse_response_error_final _ (Malformed "expected tag")); [vm_compute; reflexivity|discriminate]. Defined.

Lemma parsed_rest_length input rest r :
  parse_response input = Parsed rest r → (length rest < length input)%nat.
Proof.
  intros (st' & (Hm & ? & _) & ->)%parse_response_Parsed. rewrite length_drop. moved_lia.
Qed.

(** C8: every proper prefix of a response's bytes is answered with
    [Incomplete]. *)
Theorem parse_response_prefix frame rest r p q :
  parse_response (frame ++ rest) = Parsed rest r → frame = p ++ q → q ≠ [] →
  parse_response p = ParseErr Incomplete.
Proof.
  intros H -> Hq. rewrite <- app_assoc in H. pose proof (parse_response_extends p (q ++ rest)) as He.
  destruct (parse_response p) as [rest' r'|e| |] eqn:Hp; try done.
  - rewrite H in He. injection He as He _. apply (f_equal length) in He.
    rewrite !length_app in He. destruct q; [done|cbn in He; lia].
  - destruct He as [->|(e' & He & _)]; [done|congruence].
Qed.

Lemma parse_response_prefix_witness : parse_response (b! "* 3 EXISTS") = ParseErr Incomplete.
Proof.
  apply (parse_response_prefix (b! "* 3 EXISTS" ++ [CR; LF]) [] (Resp_Data (DR_Exists 3)) _ [CR; LF]);
    [vm_compute; reflexivity|reflexivity|discriminate].
Defined.

(** A response is decided by its own bytes. *)
Lemma parsed_cut frame rest r :
  parse_response (frame ++ rest) = Parsed rest r → parse_response frame = Parsed [] r.
Proof.
  rewrite !parse_response_run.
  destruct (Parser.parse_response (frame ++ rest) Parser.new) as [r' st'| | |] eqn:Hj; try done.
  intros [= Hd ->].
  pose proof (wp_parse_response (frame ++ rest)) as Hw. unfold wp in Hw. rewrite Hj in Hw.
  destruct Hw as [Hm _]. apply (f_equal length) in Hd. rewrite length_drop, length_app in Hd.
  assert (Hpos : pos st' = length frame) by (destruct Hm as [[_ Hm] _ _]; rewrite length_app in Hm; lia).
  destruct (end_parse_response frame rest Parser.new _ _ Hj) as [_ Hi].
  rewrite Hi by lia. rewrite drop_ge by lia. done.
Qed.

Lemma parsed_stable input rest r ext :
  parse_response input = Parsed rest r → parse_response (input ++ ext) = Parsed (rest ++ ext) r.
Proof. intros H. pose proof (parse_response_extends input ext) as He. by rewrite H in He. Qed.

(** A response split off the stream parses, on its own, to the same
    response, and so it does in front of any other bytes. *)
Theorem parse_response_alone frame rest r rest' :
  parse_response (frame ++ rest) = Parsed rest r →
  parse_response frame = Parsed [] r ∧ parse_response (frame ++ rest') = Parsed rest' r.
Proof.
  intros H%parsed_cut. split; [done|]. apply (parsed_stable _ _ _ rest' H).
Qed.

Lemma parse_response_alone_witness :
  parse_response (b! "* 3 EXISTS" ++ [CR; LF]) = Parsed [] (Resp_Data (DR_Exists 3))
  ∧ parse_response ((b! "* 3 EXISTS" ++ [CR; LF]) ++ b! "+") = Parsed (b! "+") (Resp_Data (DR_Exists 3)).
Proof. apply (parse_response_alone _ (b! "* ")). vm_compute. reflexivity. Defined.
