(* ===== verification/Framing.v ===== *)
(** What the parser promises to those who cut a byte stream into responses with
    it (the dispatcher's read loop, and [read_one_frame] before TLS), as an
    interface: they are verified against [Framed] and not against the parser,
    which implements it. *)

From S2P Require Import Prelude Str Ast Monad ResponseParser ParserTheorems.
From stdpp Require Import options.

Class Framed (parse : bytes → parsed) : Prop := {
  (** It answers. *)
  framed_answers b : parse b ≠ ParsePanics ∧ parse b ≠ ParseHangs;
  (** A response is some bytes from the front, and these decide it. *)
  framed_cut b rest r : parse b = Parsed rest r → ∃ f, b = f ++ rest ∧ f ≠ [] ∧ parse f = Parsed [] r;
  framed_stable f rest r : parse f = Parsed [] r → parse (f ++ rest) = Parsed rest r;
  (** What it rejects stays rejected. *)
  framed_final b ext e : parse b = ParseErr e → e ≠ Incomplete → ∃ e', parse (b ++ ext) = ParseErr e';
}.

#[export] Instance parse_response_framed : Framed parse_response.
Proof.
  split.
  - intros b. pose proof (parse_response_cases b) as H. by destruct (parse_response b).
  - intros b rest r H. destruct (parse_response_Parsed _ _ _ H) as (st' & _ & Hr).
    exists (take (pos st') b). rewrite Hr in H |- *. rewrite take_drop. split; [done|].
    rewrite <- (take_drop (pos st') b) in H at 1. split; [|by eapply parsed_cut].
    intros Hn. rewrite Hn in H. apply parsed_rest_length in H. cbn in H. lia.
  - intros f rest r H. apply (parsed_stable _ _ _ rest H).
  - intros b ext e H Hne. pose proof (parse_response_extends b ext) as He. rewrite H in He.
    destruct He as [?|(e' & ? & _)]; [done|by exists e'].
Qed.

Section framed.
Context {parse : bytes → parsed} {FR : Framed parse}.

(** A complete frame, and bytes that are not one yet. *)
Definition frame (f : bytes) : Prop := ∃ r, parse f = Parsed [] r.
Definition unfinished (b : bytes) : Prop := b = [] ∨ parse b = ParseErr Incomplete.

(** The specification: split off responses from the front while there are. *)
Fixpoint split_frames (fuel : nat) (b : bytes) : list bytes * bytes :=
  match fuel with
  | O => ([], b)
  | S fuel =>
    match parse b with
    | Parsed rest _ =>
      let '(fs, r) := split_frames fuel rest in
      (take (length b - length rest) b :: fs, r)
    | _ => ([], b)
    end
  end.

Definition frames_of (b : bytes) : list bytes * bytes := split_frames (length b) b.

Lemma frame_app f b : frame f → ∃ r, parse (f ++ b) = Parsed b r.
Proof using FR. intros [r H]. exists r. by apply framed_stable. Qed.

Lemma frame_ne f : frame f → f ≠ [].
Proof using FR.
  intros [r H] ->. apply framed_cut in H as (f & Hf & Hne & _).
  by symmetry in Hf; apply app_eq_nil in Hf as [-> _].
Qed.

(** What the code takes off its buffer: the bytes before the remainder. *)
Lemma parsed_frame b rest r :
  parse b = Parsed rest r →
  b = take (length b - length rest) b ++ rest
  ∧ parse (take (length b - length rest) b) = Parsed [] r.
Proof using FR.
  intros (f & -> & _ & Hf)%framed_cut. rewrite length_app.
  replace (_ + _ - _)%nat with (length f) by lia. by rewrite take_app_length.
Qed.

(** A part of a frame is no frame, and no error either. *)
Lemma frame_prefix f p q : frame f → f = p ++ q → q ≠ [] → parse p = ParseErr Incomplete.
Proof using FR.
  intros [r Hf] -> Hq. destruct (framed_answers p) as [Hp Hh].
  destruct (parse p) as [rest r'|e| |] eqn:He; try done.
  - apply framed_cut in He as (f' & -> & _ & He). rewrite <- app_assoc in Hf.
    rewrite (framed_stable _ _ _ He) in Hf. injection Hf as Hn _. by apply app_eq_nil in Hn as [_ ->].
  - assert (e = Incomplete ∨ e ≠ Incomplete) as [->|Hne] by (destruct e; auto; by right); [done|].
    destruct (framed_final _ q _ He Hne) as [e' He']. congruence.
Qed.

(** Frames and an unfinished rest can be told apart in one way only. *)
Lemma split_frames_unique fs b fuel :
  Forall frame fs → unfinished b → (length fs ≤ fuel)%nat →
  split_frames fuel (concat fs ++ b) = (fs, b).
Proof using FR.
  intros Hfs Hb. revert fuel. induction Hfs as [|f fs Hf _ IH]; intros fuel Hfuel.
  - cbn [concat app]. destruct fuel as [|fuel]; [done|]. cbn [split_frames].
    destruct Hb as [->| ->]; [|done]. destruct (parse []) as [rest r| | |] eqn:Hp; try done.
    exfalso. by apply framed_cut in Hp as (f & [-> ->]%symmetry%app_eq_nil & Hf & _).
  - destruct fuel as [|fuel]; [cbn in Hfuel; lia|]. cbn [concat split_frames]. rewrite <- app_assoc.
    destruct (frame_app f (concat fs ++ b) Hf) as [r ->].
    rewrite IH by (cbn in Hfuel; lia). do 2 f_equal.
    rewrite (length_app f). replace (_ + _ - _)%nat with (length f) by lia. apply take_app_length.
Qed.

Lemma frames_of_unique fs b :
  Forall frame fs → unfinished b → frames_of (concat fs ++ b) = (fs, b).
Proof using FR.
  intros Hfs Hb. apply split_frames_unique; [done..|]. rewrite length_app.
  enough (length fs ≤ length (concat fs))%nat by lia.
  induction Hfs as [|f fs Hf _ IH]; cbn; [lia|]. rewrite length_app.
  apply frame_ne in Hf. destruct f; [done|]. cbn. lia.
Qed.
End framed.
Arguments frame parse f : clear implicits.
Arguments unfinished parse b : clear implicits.
Arguments split_frames parse fuel b : clear implicits.
Arguments frames_of parse b : clear implicits.

(** Frames of the protocol. *)
Abbreviation is_frame := (frame parse_response).
