(* ===== verification/Fuzz.v ===== *)
(** [imap-core/fuzz/fuzz_targets/parse_response.rs]: the checks the repository's
    fuzzer runs on random inputs, here on all of them. *)

From S2P Require Import Prelude Str Ast Monad ResponseParser ParserTheorems Framing.
From stdpp Require Import options.

Definition EXHAUSTIVE_PREFIX_LIMIT : nat := 512.

(** [data.ends_with(rest)]. *)
Definition ends_with (data rest : bytes) : bool :=
  bool_decide (drop (length data - length rest) data = rest).

(** The closure [check]: does its assertion hold? *)
Definition check (frame : bytes) (cut : nat) : bool :=
  match parse_response (take cut frame) with ParseErr Incomplete => true | _ => false end.

(** Every assertion of the target holds, and nothing panics or hangs. *)
Definition fuzz_target (data : bytes) : bool :=
  match parse_response data with
  | ParseErr _ => true
  | ParsePanics | ParseHangs => false
  | Parsed rest _ =>
    (length rest <? length data)%nat
    && ends_with data rest
    && let frame := take (length data - length rest) data in
       if (length frame <=? EXHAUSTIVE_PREFIX_LIMIT)%nat then forallb (check frame) (seq 0 (length frame))
       else forallb (check frame) [1; length frame / 2; length frame - 1]%nat
  end.

Lemma check_frame f cut : is_frame f → (cut < length f)%nat → check f cut = true.
Proof.
  intros Hf Hcut. unfold check. rewrite (frame_prefix f (take cut f) (drop cut f)); [done..| |].
  - by rewrite take_drop.
  - intros H. apply (f_equal length) in H. rewrite length_drop in H. cbn in H. lia.
Qed.

(** C9: no input makes the fuzz target fail: the parser does not panic, consumes
    something, returns a suffix of its input, and answers [Incomplete] to every
    cut of a complete frame. *)
Theorem fuzz_target_passes data : fuzz_target data = true.
Proof.
  unfold fuzz_target. destruct (framed_answers (parse := parse_response) data) as [Hp Hh].
  destruct (parse_response data) as [rest r| | |] eqn:Hd; try done.
  destruct (parsed_frame _ _ _ Hd) as [Hs Hf]. set (f := take _ data) in *.
  assert (Hfr : is_frame f) by by exists r.
  clearbody f. clear Hd Hp Hh. subst data. rewrite length_app.
  assert (Hpos : (0 < length f)%nat) by (apply frame_ne in Hfr; destruct f; [done|cbn; lia]).
  rewrite !andb_true_iff. split_and!.
  - apply Nat.ltb_lt. lia.
  - apply bool_decide_eq_true. rewrite length_app. replace (_ - _)%nat with (length f) by lia.
    apply drop_app_length.
  - case_match; apply forallb_forall; intros cut Hin; apply check_frame; try done.
    + apply in_seq in Hin. lia.
    + apply Nat.leb_gt in H. unfold EXHAUSTIVE_PREFIX_LIMIT in H.
      assert (length f / 2 < length f)%nat by (apply Nat.div_lt; lia).
      destruct Hin as [<-|[<-|[<-|[]]]]; lia.
Qed.
