(* ===== verification/ParserRead.v ===== *)
(** What the parser of [ResponseParser] accepts: from a cursor in front of the
    bytes [w], followed by [rest], a method returns a given value and leaves
    the cursor behind [w] ([reads]). The lemmas follow the grammar bottom-up:
    bytes, runs, numbers, strings, loops. *)

From S2P Require Import Prelude Str Ast Monad ResponseParser ParserSafety.
From stdpp Require Import options.
Import Parser.

(** [m] in front of [w ++ rest] returns [a], having moved over [w] and charged
    [n] list elements. *)
Definition reads {A} (m : parser A) (w rest : bytes) (a : A) (n : nat) : Prop :=
  ∀ i st,
    drop (pos st) i = w ++ rest → (pos st ≤ length i)%nat → Z.of_nat (length i) <= usize_max →
    Z.of_nat n <= items_left st →
    m i st = Ok a (mkPstate (pos st + length w) (items_left st - Z.of_nat n)).

Create HintDb reads discriminated.

Section combinators.
Implicit Types (w rest : bytes).

Lemma reads_ret {A} (a : A) rest : reads (mret a) [] rest a 0.
Proof.
  intros i st _ _ _ _. unfold mret, parser_ret. f_equal. destruct st; cbn. f_equal; lia.
Qed.

Lemma reads_bind {A B} (m : parser A) (k : A → parser B) w1 w2 rest a b n1 n2 :
  reads m w1 (w2 ++ rest) a n1 → reads (k a) w2 rest b n2 →
  reads (m ≫= k) (w1 ++ w2) rest b (n1 + n2).
Proof.
  intros Hm Hk i st Hd Hp Hu Hn. rewrite <- app_assoc in Hd.
  unfold mbind, parser_bind. rewrite (Hm i st Hd Hp Hu) by lia.
  pose proof (f_equal length Hd) as Hl. rewrite length_drop, !length_app in Hl.
  rewrite (Hk i); cbn [pos items_left]; [|by apply drop_app_len|lia|lia|lia].
  f_equal. f_equal; [rewrite length_app; lia|lia].
Qed.

(** A bind whose first part moves over nothing and charges nothing. *)
Lemma reads_bind_0 {A B} (m : parser A) (k : A → parser B) w rest a b n :
  reads m [] (w ++ rest) a 0 → reads (k a) w rest b n → reads (m ≫= k) w rest b n.
Proof. intros Hm Hk. apply (reads_bind _ _ [] w _ _ _ 0 n Hm Hk). Qed.

(** A bind whose second part moves over nothing. *)
Lemma reads_bind_r {A B} (m : parser A) (k : A → parser B) w rest a b n :
  reads m w rest a n → reads (k a) [] rest b 0 → reads (m ≫= k) w rest b n.
Proof.
  intros Hm Hk. rewrite <- (app_nil_r w). replace n with (n + 0)%nat by lia.
  by eapply reads_bind.
Qed.

Lemma drop_head i (p : nat) c w : drop p i = c :: w → i !! p = Some c.
Proof. by intros [? _]%drop_lookup_cons. Qed.

(** The byte under the cursor decides the continuation. *)
Lemma reads_peek {B} (k : byte → parser B) c w rest b n :
  reads (k c) (c :: w) rest b n → reads (try_ peek ≫= k) (c :: w) rest b n.
Proof.
  intros Hk. apply (reads_bind_0 _ _ _ _ c); [|done]. intros i st Hd _ _ _.
  apply drop_head in Hd. unfold try_, peek. rewrite Hd. destruct st; cbn. do 2 f_equal; lia.
Qed.

(** The same when the method under [k] moves over nothing. *)
Lemma reads_peek_0 {B} (k : byte → parser B) c rest b n :
  reads (k c) [] (c :: rest) b n → reads (try_ peek ≫= k) [] (c :: rest) b n.
Proof.
  intros Hk. apply (reads_bind_0 _ _ _ _ c); [|done]. intros i st Hd _ _ _.
  apply drop_head in Hd. unfold try_, peek. rewrite Hd. destruct st; cbn. do 2 f_equal; lia.
Qed.

Lemma reads_advance c rest : reads (advance 1) [c] rest tt 0.
Proof. intros i st _ _ _ _. unfold advance. cbn. do 2 f_equal; lia. Qed.

Lemma reads_consume_byte c rest : reads (consume_byte c) [c] rest tt 0.
Proof. apply reads_peek. rewrite byte_eqb_refl. apply reads_advance. Qed.

Lemma reads_consume_sp rest : reads consume_sp [SP] rest tt 0.
Proof. apply reads_consume_byte. Qed.

Lemma reads_try_hit c rest : reads (try_consume_byte c) [c] rest true 0.
Proof.
  intros i st Hd _ _ _. apply drop_head in Hd.
  unfold try_consume_byte, mbind, parser_bind, observe, peek. rewrite Hd, byte_eqb_refl.
  unfold advance, mret, parser_ret. cbn. do 2 f_equal; lia.
Qed.

Lemma reads_try_miss c rest :
  head rest ≠ Some c → reads (try_consume_byte c) [] rest false 0.
Proof.
  intros Hh i st Hd _ _ _. cbn [app] in Hd.
  unfold try_consume_byte, mbind, parser_bind, observe, peek, mret, parser_ret.
  replace (mkPstate _ _) with st by (destruct st; cbn; f_equal; lia).
  destruct rest as [|x rest].
  - by apply drop_nil_lookup in Hd as [-> _].
  - apply drop_head in Hd. rewrite Hd. cbn in Hh.
    by destruct (byte_eqb_spec x c) as [->|_].
Qed.

Lemma reads_consume_crlf rest : reads consume_crlf [CR; LF] rest tt 0.
Proof.
  intros i st Hd Hp Hu _. pose proof (f_equal length Hd) as Hl.
  rewrite length_drop in Hl. cbn in Hl.
  apply drop_lookup_cons in Hd as [Hc Hd]. apply drop_head in Hd.
  unfold consume_crlf, mbind, parser_bind, try_, peek, observe, peek_at, usize_checked_add.
  rewrite Hc, byte_eqb_refl. cbn [negb]. rewrite (proj2 (Z.leb_le _ _)) by lia.
  replace (Z.to_nat _) with (S (pos st)) by lia. rewrite Hd.
  unfold advance. cbn. do 2 f_equal; lia.
Qed.

Lemma reads_push_item {T} (l : list T) x rest : reads (push_item l x) [] rest (l ++ [x]) 1.
Proof.
  intros i st _ _ _ Hn. unfold push_item, mbind, parser_bind, get_items_left, set_items_left,
    usize_checked_sub, ok_or. rewrite (proj2 (Z.leb_le _ _)) by lia.
  unfold mret, parser_ret. cbn. do 2 f_equal; lia.
Qed.
End combinators.

#[export] Hint Resolve reads_ret reads_consume_byte reads_consume_sp reads_try_hit
  reads_consume_crlf reads_push_item : reads.

(* ------------------------------------------------------------------ *)
(** ** Runs of bytes                                                    *)
(* ------------------------------------------------------------------ *)

(** [rest] does not go on with a byte that [f] accepts. *)
Definition stops (f : byte → scan_action) (rest : bytes) : Prop :=
  match rest with [] => True | c :: _ => f c = Stop end.

Section runs.
Implicit Types (w rest : bytes).

Lemma reads_scan f w rest :
  Forall (λ c, f c = Advance) w → stops f rest → reads (scan f) w rest tt 0.
Proof.
  intros Hw Hr i st Hd Hp _ _. unfold scan, loop.
  remember (S (length i - pos st)) as fuel eqn:Hf.
  assert (length i - pos st < fuel)%nat as Hfuel by lia. clear Hf.
  revert st fuel Hd Hp Hfuel. induction Hw as [|c w Hc Hw IH]; intros st fuel Hd Hp Hfuel;
    (destruct fuel as [|fuel]; [lia|]); cbn [loop_fuel];
    unfold mbind at 1, parser_bind at 1; unfold mbind at 1, parser_bind at 1, observe, peek.
  - replace (mkPstate _ _) with st by (destruct st; cbn; f_equal; lia).
    destruct rest as [|x rest]; cbn in Hd, Hr.
    + by apply drop_nil_lookup in Hd as [-> _].
    + apply drop_head in Hd. by rewrite Hd, Hr.
  - cbn [app] in Hd. pose proof (f_equal length Hd) as Hl. rewrite length_drop in Hl. cbn in Hl.
    apply drop_lookup_cons in Hd as [Hx Hd]. rewrite Hx, Hc.
    unfold mbind at 1, parser_bind at 1, advance, mret, parser_ret.
    rewrite IH; cbn [pos items_left length]; try lia.
    + do 2 f_equal; lia.
    + by replace (pos st + 1)%nat with (S (pos st)) by lia.
Qed.

Lemma slice_run i p w rest : drop p i = w ++ rest → slice i p (p + length w) = w.
Proof.
  intros H. unfold slice. rewrite H. replace (p + length w - p)%nat with (length w) by lia.
  apply take_app_length.
Qed.

Lemma get_slice_run i st p w rest q :
  drop p i = w ++ rest → (p ≤ length i)%nat → q = (p + length w)%nat →
  get_slice p q i st = Ok w st.
Proof.
  intros H Hp ->. pose proof (f_equal length H) as Hl. rewrite length_drop, length_app in Hl.
  unfold get_slice. rewrite !(proj2 (Nat.leb_le _ _)) by lia. by rewrite (slice_run _ _ _ _ H).
Qed.

Lemma to_str_run i st w : utf8_valid w = true → to_str w i st = Ok w st.
Proof. intros H. unfold to_str, from_utf8. by rewrite H. Qed.

Lemma scanned_text_run i st p w rest :
  drop p i = w ++ rest → (p ≤ length i)%nat → rest ≠ [] → utf8_valid w = true →
  pos st = (p + length w)%nat → scanned_text p i st = Ok w st.
Proof.
  intros Hd Hp Hr Hu Hpos. pose proof (f_equal length Hd) as Hl.
  rewrite length_drop, length_app in Hl.
  assert (length rest ≠ 0%nat) by (by destruct rest).
  unfold scanned_text, mbind, parser_bind, observe, is_eof, get_pos.
  rewrite (proj2 (Nat.leb_gt _ _)) by lia.
  rewrite (get_slice_run i st p w rest) by done. by apply to_str_run.
Qed.
End runs.

(** [start ← get_pos; scan f;; …], the shape of the scanning methods. *)
Lemma reads_scan_then {A} f (k : nat → parser A) (w rest : bytes) a :
  Forall (λ c, f c = Advance) w → stops f rest →
  (∀ i p n, drop p i = w ++ rest → (p ≤ length i)%nat →
     k p i (mkPstate (p + length w) n) = Ok a (mkPstate (p + length w) n)) →
  reads (start ← get_pos; scan f;; k start) w rest a 0.
Proof.
  intros Hw Hr Hk i st Hd Hp Hu Hn. unfold mbind, parser_bind, get_pos.
  rewrite (reads_scan f w rest Hw Hr i st Hd Hp Hu Hn). by apply Hk.
Qed.

Section texts.
Implicit Types (w rest : bytes).

(** A non-empty UTF-8 run of bytes of a class. *)
Definition run_of (P : byte → bool) (w : bytes) : Prop :=
  w ≠ [] ∧ Forall (λ c, P c = true) w ∧ utf8_valid w = true.

(** What may follow a run: a byte that is not of its class. *)
Definition follows (P : byte → bool) (rest : bytes) : Prop :=
  ∃ c t, rest = c :: t ∧ P c = false.

Lemma follows_cons P c rest : P c = false → follows P (c :: rest).
Proof. intros. by exists c, rest. Qed.

Lemma follows_ne P rest : follows P rest → rest ≠ [].
Proof. by intros (? & ? & -> & _). Qed.

Definition scan_class (P : byte → bool) (c : byte) : scan_action := if P c then Advance else Stop.

Lemma class_advance P w : Forall (λ c, P c = true) w → Forall (λ c, scan_class P c = Advance) w.
Proof. intros H. eapply Forall_impl; [exact H|]. intros c Hc. unfold scan_class. by rewrite Hc. Qed.

Lemma class_stops P rest : follows P rest → stops (scan_class P) rest.
Proof. intros (c & t & -> & Hc). cbn. unfold scan_class. by rewrite Hc. Qed.

(** Is the run empty? *)
Lemma run_nonempty {A} w p (m1 m2 : parser A) :
  w ≠ [] → (if (p =? p + length w)%nat then m1 else m2) = m2.
Proof.
  intros. rewrite (proj2 (Nat.eqb_neq _ _)); [done|]. destruct w; [done|cbn; lia].
Qed.

Lemma reads_parse_atom w rest :
  run_of is_atom_char w → follows is_atom_char rest → reads parse_atom w rest w 0.
Proof.
  intros (Hne & Hw & Hu8) Hr. apply (reads_scan_then (scan_class is_atom_char)).
  - by apply class_advance.
  - by apply class_stops.
  - intros i p n Hd Hp. unfold mbind, parser_bind, get_pos. cbn [pos].
    rewrite run_nonempty by done. eapply scanned_text_run; eauto using follows_ne.
Qed.

Definition is_tag_char (c : byte) : bool := negb ((c =?b SP) || (c =?b CR) || (c =?b LF)).

Lemma scan_class_negb P c : scan_class (λ c, negb (P c)) c = if P c then Stop else Advance.
Proof. unfold scan_class. by destruct (P c). Qed.

Lemma reads_parse_tag w rest :
  run_of is_tag_char w → follows is_tag_char rest → reads parse_tag w rest w 0.
Proof.
  intros (Hne & Hw & Hu8) Hr. unfold parse_tag.
  apply (reads_scan_then (λ c, if (c =?b SP) || (c =?b CR) || (c =?b LF) then Stop else Advance)).
  - eapply Forall_impl; [by apply class_advance|]. intros c. unfold is_tag_char.
    by rewrite scan_class_negb.
  - apply class_stops in Hr. destruct rest; [done|]. cbn in *. unfold is_tag_char in Hr.
    by rewrite scan_class_negb in Hr.
  - intros i p n Hd Hp. unfold mbind, parser_bind, get_pos. cbn [pos].
    rewrite run_nonempty by done. eapply scanned_text_run; eauto using follows_ne.
Qed.
End texts.

Section tokens.
Implicit Types (w rest : bytes).

Definition is_text_char (c : byte) : bool := negb ((c =?b CR) || (c =?b LF)).

Lemma reads_parse_text w rest :
  Forall (λ c, is_text_char c = true) w → utf8_valid w = true →
  reads parse_text w (CR :: rest) w 0.
Proof.
  intros Hw Hu8. unfold parse_text.
  apply (reads_scan_then (λ c, if (c =?b CR) || (c =?b LF) then Stop else Advance)); [|done|].
  - eapply Forall_impl; [by apply class_advance|]. intros c. unfold is_text_char.
    by rewrite scan_class_negb.
  - intros i p n Hd Hp. by eapply scanned_text_run.
Qed.

Lemma reads_read_until_byte t w rest :
  t ∉ w → CR ∉ w → LF ∉ w → utf8_valid w = true → reads (read_until_byte t) w (t :: rest) w 0.
Proof.
  intros Ht Hcr Hlf Hu8. unfold read_until_byte. apply reads_scan_then.
  - apply Forall_forall. intros c Hc.
    destruct (byte_eqb_spec c t) as [->|_]; [done|].
    destruct (byte_eqb_spec c CR) as [->|_]; [done|].
    by destruct (byte_eqb_spec c LF) as [->|_].
  - cbn. by rewrite byte_eqb_refl.
  - intros i p n Hd Hp. by eapply scanned_text_run.
Qed.

Lemma digits_ascii w : Forall (λ c, is_ascii_digit c = true) w → utf8_valid w = true.
Proof.
  intros H. apply utf8_valid_ascii. eapply Forall_impl; [exact H|].
  intros c ?%is_ascii_digit_spec. lia.
Qed.

Lemma reads_parse_number w rest :
  w ≠ [] → Forall (λ c, is_ascii_digit c = true) w → dec_val w <= u32_max →
  match rest with [] => True | c :: _ => is_ascii_digit c = false end →
  reads parse_number w rest (dec_val w) 0.
Proof.
  intros Hne Hw Hmax Hr. apply (reads_scan_then (scan_class is_ascii_digit)).
  - by apply class_advance.
  - destruct rest; [done|]. cbn. unfold scan_class. by rewrite Hr.
  - intros i p n Hd Hp. unfold mbind, parser_bind, get_pos. cbn [pos].
    rewrite run_nonempty by done. rewrite (get_slice_run _ _ _ w rest) by done.
    unfold from_utf8. rewrite digits_ascii, parse_u32_digits by done.
    by rewrite (proj2 (Z.leb_le _ _)).
Qed.

(** The number [n] as it is written. *)
Lemma reads_number n rest :
  0 <= n <= u32_max → match rest with [] => True | c :: _ => is_ascii_digit c = false end →
  reads parse_number (fmt_dec n) rest n 0.
Proof.
  intros Hn Hr. unfold u32_max in *. destruct (fmt_dec_spec n) as (? & ? & Hv); [lia|].
  rewrite <- Hv at 2. apply reads_parse_number; try done. rewrite Hv. unfold u32_max. lia.
Qed.

(** The inside of a quoted string, escapes left in place. *)
Inductive quoted_body : bytes → Prop :=
| quoted_nil : quoted_body []
| quoted_char c s :
    c ≠ DQUOTE → c ≠ BACKSLASH → c ≠ CR → c ≠ LF → c ≠ NUL →
    quoted_body s → quoted_body (c :: s)
| quoted_escape c s :
    c = DQUOTE ∨ c = BACKSLASH → quoted_body s → quoted_body (BACKSLASH :: c :: s).

Definition quoted_loop (start : nat) : unit → parser (flow unit str) := λ _,
  c ← try_ peek;
  if c =?b DQUOTE then
    p ← get_pos;
    b ← get_slice start p;
    s ← to_str b;
    advance 1;;
    mret (Break s)
  else if c =?b BACKSLASH then
    advance 1;;
    c2 ← try_ peek;
    if negb ((c2 =?b DQUOTE) || (c2 =?b BACKSLASH)) then
      fail (Malformed "invalid escape in quoted string")
    else advance 1;; mret (Continue tt)
  else if (c =?b CR) || (c =?b LF) then fail (Malformed "CR/LF inside quoted string")
  else if c =?b NUL then fail (Malformed "NUL inside quoted string")
  else advance 1;; mret (Continue tt).

Lemma quoted_loop_run w rest start i full :
  quoted_body w → drop start i = full ++ DQUOTE :: rest → utf8_valid full = true →
  (start ≤ length i)%nat →
  ∀ st fuel, drop (pos st) i = w ++ DQUOTE :: rest → (length w < fuel)%nat →
  (pos st + length w = start + length full)%nat →
  loop_fuel fuel (quoted_loop start) tt i st
  = Ok full (mkPstate (pos st + length w + 1) (items_left st)).
Proof.
  intros Hw Hfull Hu8 Hstart.
  induction Hw as [|c s ????? _ IH|c s Hc _ IH]; intros st fuel Hd Hf Hpos;
    (destruct fuel as [|fuel]; [lia|]); cbn [loop_fuel];
    unfold mbind at 1, parser_bind at 1; unfold quoted_loop at 1, mbind, parser_bind, try_, peek.
  - cbn in Hd, Hpos. apply drop_head in Hd. rewrite Hd, byte_eqb_refl. unfold get_pos.
    rewrite (get_slice_run i st start full (DQUOTE :: rest)) by (done || lia).
    rewrite to_str_run by done. unfold advance, mret, parser_ret. cbn [length].
    by rewrite Nat.add_0_r.
  - cbn in Hd. apply drop_lookup_cons in Hd as [Hx Hd]. rewrite Hx.
    rewrite !(proj2 (byte_eqb_false _ _)) by done. cbn [orb].
    unfold advance, mret, parser_ret. rewrite IH; cbn [pos items_left length] in *.
    + do 2 f_equal; lia.
    + by replace (pos st + 1)%nat with (S (pos st)) by lia.
    + lia.
    + lia.
  - cbn in Hd. apply drop_lookup_cons in Hd as [Hx Hd]. rewrite Hx.
    apply drop_lookup_cons in Hd as [Hy Hd].
    rewrite (proj2 (byte_eqb_false BACKSLASH DQUOTE)), byte_eqb_refl by done.
    unfold advance at 1; cbn [pos items_left].
    replace (pos st + 1)%nat with (S (pos st)) by lia. rewrite Hy.
    assert (He : (c =?b DQUOTE) || (c =?b BACKSLASH) = true) by (by destruct Hc as [-> | ->]).
    rewrite He. cbn [negb]. unfold advance, mret, parser_ret. cbn [pos items_left].
    rewrite IH; cbn [pos items_left length] in *.
    + do 2 f_equal; lia.
    + by replace (S (pos st) + 1)%nat with (S (S (pos st))) by lia.
    + lia.
    + lia.
Qed.

Lemma reads_parse_quoted w rest :
  quoted_body w → utf8_valid w = true →
  reads parse_quoted (DQUOTE :: w ++ [DQUOTE]) rest w 0.
Proof.
  intros Hw Hu8. intros i st Hd Hp Hu Hn.
  cbn [app] in Hd. rewrite <- app_assoc in Hd. cbn [app] in Hd.
  pose proof (f_equal length Hd) as Hl. rewrite length_drop in Hl. cbn in Hl. rewrite length_app in Hl.
  cbn in Hl. unfold parse_quoted, mbind at 1, parser_bind at 1.
  rewrite (reads_consume_byte DQUOTE (w ++ DQUOTE :: rest)) by done.
  unfold mbind at 1, parser_bind at 1, get_pos at 1. cbn [pos items_left].
  apply drop_lookup_cons in Hd as [_ Hd]. change (length [DQUOTE]) with 1%nat.
  replace (pos st + 1)%nat with (S (pos st)) by lia.
  unfold loop. fold (quoted_loop (S (pos st))).
  rewrite (quoted_loop_run w rest (S (pos st)) i w); cbn [pos items_left]; try done; try lia.
  f_equal. apply pstate_eq; cbn [pos items_left length]; rewrite ?length_app; cbn [length]; lia.
Qed.
End tokens.

Section strings.
Implicit Types (w rest : bytes).

(** [{n}] CRLF and [n] bytes. *)
Definition literal (d : bytes) : bytes :=
  b! "{" ++ fmt_dec (Z.of_nat (length d)) ++ b! "}" ++ [CR; LF] ++ d.

Lemma reads_literal_body d rest :
  Z.of_nat (length d) <= MAX_LITERAL_SIZE →
  reads (p ← get_pos;
         e ← ok_or (usize_checked_add (Z.of_nat p) (Z.of_nat (length d))) Incomplete;
         len ← get_len;
         if Z.of_nat len <? e then fail Incomplete
         else data ← get_slice p (Z.to_nat e); set_pos (Z.to_nat e);; mret data) d rest d 0.
Proof.
  intros Hmax i st Hd Hp Hu Hn. pose proof (f_equal length Hd) as Hl.
  rewrite length_drop, length_app in Hl.
  unfold mbind, parser_bind, get_pos, usize_checked_add, ok_or, get_len.
  rewrite (proj2 (Z.leb_le _ _)) by lia. unfold mret at 1, parser_ret at 1.
  rewrite (proj2 (Z.ltb_ge _ _)) by lia.
  rewrite (get_slice_run i st (pos st) d rest) by (done || lia).
  unfold set_pos, mret, parser_ret. f_equal. apply pstate_eq; cbn [pos items_left]; lia.
Qed.

Lemma reads_parse_literal d rest :
  Z.of_nat (length d) <= MAX_LITERAL_SIZE → reads parse_literal (literal d) rest d 0.
Proof.
  intros Hmax. unfold parse_literal, literal. apply (reads_bind _ _ _ _ _ tt _ 0 0).
  { apply reads_consume_byte. }
  eapply (reads_bind _ _ _ _ _ (Z.of_nat (length d)) _ 0 0).
  { apply reads_number; [unfold MAX_LITERAL_SIZE, u32_max in *; lia|done]. }
  apply (reads_bind _ _ _ _ _ tt _ 0 0); [apply reads_consume_byte|].
  apply (reads_bind _ _ _ _ _ tt _ 0 0); [apply reads_consume_crlf|].
  rewrite (proj2 (Z.ltb_ge _ _)) by done. by apply reads_literal_body.
Qed.

(** A flag: an atom, or a backslash and atom characters or ["*"]. *)
Definition is_flag (w : bytes) : Prop :=
  utf8_valid w = true ∧
  (run_of is_atom_char w ∨ w = b! "\*"
   ∨ ∃ s, w = BACKSLASH :: s ∧ Forall (λ c, is_atom_char c = true) s).

(** The scan of a flag, [k] bytes into it. *)
Lemma flag_scan_run i st p w s rest :
  drop p i = w ++ rest → (p ≤ length i)%nat → Z.of_nat (length i) <= usize_max →
  0 <= items_left st → w ≠ [] → utf8_valid w = true → follows is_atom_char rest →
  Forall (λ c, is_atom_char c = true) s → drop (pos st) i = s ++ rest →
  (pos st + length s = p + length w)%nat →
  (scan (λ c, if is_atom_char c then Advance else Stop);;
   q ← get_pos;
   if (p =? q)%nat then
     eof ← observe is_eof;
     if (eof : bool) then fail Incomplete else fail (Malformed "expected flag/atom")
   else scanned_text p) i st = Ok w (mkPstate (p + length w) (items_left st)).
Proof.
  intros Hd Hp Hu Hn Hne Hu8 Hr Hall Hs Hpos. pose proof (class_stops _ _ Hr) as Hstop.
  pose proof (f_equal length Hd) as Hl. rewrite length_drop, length_app in Hl.
  pose proof (f_equal length Hs) as Hl'. rewrite length_drop, length_app in Hl'.
  unfold mbind at 1, parser_bind at 1.
  rewrite (reads_scan (scan_class is_atom_char) s rest)
    by (done || lia || by apply class_advance).
  unfold mbind at 1, parser_bind at 1, get_pos at 1. cbn [pos items_left]. rewrite Hpos.
  rewrite run_nonempty by done. rewrite Z.sub_0_r.
  by eapply scanned_text_run; eauto using follows_ne.
Qed.

Lemma reads_parse_flag_or_atom w rest :
  is_flag w → follows is_atom_char rest → head rest ≠ Some "*"%byte →
  reads parse_flag_or_atom w rest w 0.
Proof.
  intros [Hu8 Hw] Hr Hstar i st Hd Hp Hu Hn.
  assert (Hn' : 0 <= items_left st) by lia.
  replace (items_left st - Z.of_nat 0) with (items_left st) by lia.
  unfold parse_flag_or_atom, mbind at 1, parser_bind at 1, get_pos at 1.
  destruct Hw as [(Hne & Hall & _)|[->|(s & -> & Hall)]].
  - pose proof Hd as Hd'. destruct w as [|c w]; [done|]. cbn [app] in Hd'.
    unfold mbind at 1, parser_bind at 1, try_, peek. rewrite (drop_head _ _ _ _ Hd').
    destruct (byte_eqb_spec c BACKSLASH) as [->|_]; [by apply Forall_cons in Hall as [? _]|].
    unfold mbind at 1, parser_bind at 1, mret at 1, parser_ret at 1. by eapply flag_scan_run.
  - pose proof Hd as Hd'. change (b! "\*" ++ rest) with (BACKSLASH :: "*"%byte :: rest) in Hd'.
    apply drop_lookup_cons in Hd' as [Hx Hd'].
    unfold mbind at 1, parser_bind at 1, try_, peek. rewrite Hx, byte_eqb_refl.
    rewrite (bind_Ok _ _ i st true (mkPstate (pos st + 2) (items_left st))).
    + unfold mbind, parser_bind, get_pos. cbn [pos].
      rewrite (get_slice_run i _ (pos st) (b! "\*") rest) by done. by apply to_str_run.
    + unfold mbind at 1, parser_bind at 1, advance at 1.
      replace (pos st + 1)%nat with (S (pos st)) by lia.
      pose proof (f_equal length Hd) as Hl. rewrite length_drop in Hl. cbn in Hl.
      rewrite (reads_try_hit "*"%byte rest) by (done || cbn; lia).
      f_equal. apply pstate_eq; cbn [pos items_left length]; lia.
  - pose proof Hd as Hd'. cbn [app] in Hd'. apply drop_lookup_cons in Hd' as [Hx Hd'].
    unfold mbind at 1, parser_bind at 1, try_, peek. rewrite Hx, byte_eqb_refl.
    pose proof (f_equal length Hd) as Hl. rewrite length_drop in Hl. cbn in Hl.
    rewrite (bind_Ok _ _ i st false (mkPstate (S (pos st)) (items_left st))).
    + eapply (flag_scan_run i (mkPstate (S (pos st)) (items_left st)) _ (BACKSLASH :: s) s rest);
        try done. cbn. lia.
    + unfold mbind at 1, parser_bind at 1, advance at 1.
      replace (pos st + 1)%nat with (S (pos st)) by lia.
      rewrite (reads_try_miss "*"%byte (s ++ rest)); cbn [pos items_left app]; try done; try lia.
      * f_equal. apply pstate_eq; cbn [pos items_left length]; lia.
      * destruct s as [|c s]; [done|]. cbn. intros [= ->]. by apply Forall_cons in Hall as [? _].
Qed.
End strings.

(* ------------------------------------------------------------------ *)
(** ** Loops and lists                                                  *)
(* ------------------------------------------------------------------ *)

(** The iterations of a loop over the bytes it moves over. *)
Inductive iterates {S A} (body : S → parser (flow S A)) (rest : bytes) :
    S → bytes → A → nat → Prop :=
| iterates_break s w a n :
    reads (body s) w rest (Break a) n → iterates body rest s w a n
| iterates_continue s s' w1 w2 a n1 n2 :
    reads (body s) w1 (w2 ++ rest) (Continue s') n1 → w1 ≠ [] →
    iterates body rest s' w2 a n2 → iterates body rest s (w1 ++ w2) a (n1 + n2).

Lemma reads_loop {S A} (body : S → parser (flow S A)) s w rest a n :
  iterates body rest s w a n → reads (loop body s) w rest a n.
Proof.
  intros Hit i st Hd Hp Hu Hn. unfold loop.
  remember (Datatypes.S (length i - pos st)) as fuel eqn:Hf.
  assert (length i - pos st < fuel)%nat as Hfuel by lia. clear Hf.
  revert st fuel Hd Hp Hn Hfuel.
  induction Hit as [s w a n Hb|s s' w1 w2 a n1 n2 Hb Hne _ IH]; intros st fuel Hd Hp Hn Hfuel;
    (destruct fuel as [|fuel]; [lia|]); cbn [loop_fuel].
  - rewrite (bind_Ok _ _ _ _ _ _ (Hb i st Hd Hp Hu Hn)). done.
  - rewrite <- app_assoc in Hd.
    pose proof (f_equal length Hd) as Hl. rewrite length_drop, !length_app in Hl.
    assert (length w1 ≠ 0%nat) by (by destruct w1).
    rewrite (bind_Ok _ _ _ _ _ _ (Hb i st Hd Hp Hu ltac:(lia))).
    rewrite IH; cbn [pos items_left]; [|by apply drop_app_len|lia..].
    f_equal. apply pstate_eq; cbn [pos items_left]; rewrite ?length_app; lia.
Qed.
