(* ===== verification/Grammar.v ===== *)
(** The response grammar (RFC 3501, section 9) as the client speaks it: which
    bytes stand for which value of [Ast]. A relation, not a printer: a keyword
    has any case, a number any leading zeros, a string may be quoted or a
    literal. Escapes of a quoted string are part of its value, as in the AST.

    [GrammarComplete] and [GrammarSound] show that [parse_response] reads
    exactly this grammar. *)

From S2P Require Import Prelude Str Ast Monad ResponseParser ParserSafety ParserStream.
From S2P Require Import ParserLocal ParserRead.
From stdpp Require Import options.
Import Parser.

Module grammar.

(* ------------------------------------------------------------------ *)
(** ** Tokens                                                           *)
(* ------------------------------------------------------------------ *)

(** [w] is the keyword [K] in some case. *)
Definition keyword (K w : bytes) : Prop := str_eq_ignore_ascii_case w K = true.

(** [w] is none of the keywords [Ks]. *)
Definition no_keyword (Ks : list bytes) (w : bytes) : Prop :=
  Forall (λ K, str_eq_ignore_ascii_case w K = false) Ks.

Definition number (n : u32) (w : bytes) : Prop :=
  w ≠ [] ∧ Forall (λ c, is_ascii_digit c = true) w ∧ n = dec_val w ∧ n <= u32_max.

Definition atom (s : str) (w : bytes) : Prop := w = s ∧ run_of is_atom_char s.

Definition tag (s : str) (w : bytes) : Prop :=
  w = s ∧ run_of is_tag_char s ∧ head s ≠ Some "+"%byte ∧ head s ≠ Some "*"%byte.

Definition text (s : str) (w : bytes) : Prop :=
  w = s ∧ Forall (λ c, is_text_char c = true) s ∧ utf8_valid s = true.

Definition flag (s : str) (w : bytes) : Prop := w = s ∧ is_flag s.

Definition quoted (s : str) (w : bytes) : Prop :=
  w = DQUOTE :: s ++ [DQUOTE] ∧ quoted_body s ∧ utf8_valid s = true.

Definition literal (d : bytes) (w : bytes) : Prop :=
  ∃ ds, number (Z.of_nat (length d)) ds ∧ Z.of_nat (length d) <= MAX_LITERAL_SIZE
    ∧ w = b! "{" ++ ds ++ b! "}" ++ [CR; LF] ++ d.

Inductive astring (s : str) : bytes → Prop :=
| astring_quoted w : quoted s w → astring s w
| astring_literal w : literal s w → utf8_valid s = true → astring s w
| astring_atom w : atom s w → astring s w.

Inductive nstring : option str → bytes → Prop :=
| nstring_quoted s w : quoted s w → nstring (Some s) w
| nstring_literal s w : literal s w → utf8_valid s = true → nstring (Some s) w
| nstring_nil w : keyword NIL w → nstring None w.

(** A string of bytes that need not be text. *)
Inductive nbytes : option bytes → bytes → Prop :=
| nbytes_quoted s w : quoted s w → nbytes (Some s) w
| nbytes_literal d w : literal d w → nbytes (Some d) w
| nbytes_nil w : keyword NIL w → nbytes None w.

(** The inside of a parenthesised value, [n] levels of nesting at most. *)
Inductive nested : Z → bytes → Prop :=
| nested_nil n : nested n []
| nested_char n c w :
    c ∉ ["("%byte; ")"%byte; DQUOTE; "{"%byte; CR; LF] → nested n w → nested n (c :: w)
| nested_quoted n s q w : quoted s q → nested n w → nested n (q ++ w)
| nested_literal n d l w : literal d l → nested n w → nested n (l ++ w)
| nested_parens n u w :
    0 < n → nested (n - 1) u → nested n w → nested n (b! "(" ++ u ++ b! ")" ++ w).

(** A parenthesised value is kept as it is written. *)
Definition parens (b : bytes) (w : bytes) : Prop :=
  w = b ∧ ∃ u, nested (u32_max - 1) u ∧ w = b! "(" ++ u ++ b! ")".

(* ------------------------------------------------------------------ *)
(** ** Lists                                                            *)
(* ------------------------------------------------------------------ *)

Section lists.
Context {T : Type} (item : T → bytes → Prop).

(** Separated by SP. *)
Inductive separated : list T → bytes → Prop :=
| separated_one x w : item x w → separated [x] w
| separated_cons x w l ws : item x w → separated l ws → separated (x :: l) (w ++ SP :: ws).

Inductive paren_list : list T → bytes → Prop :=
| paren_list_nil : paren_list [] (b! "()")
| paren_list_items l w : separated l w → paren_list l (b! "(" ++ w ++ b! ")").

(** Each preceded by SP. *)
Inductive sp_list : list T → bytes → Prop :=
| sp_list_nil : sp_list [] []
| sp_list_cons x w l ws : item x w → sp_list l ws → sp_list (x :: l) (SP :: w ++ ws).
End lists.

(* ------------------------------------------------------------------ *)
(** ** Status responses                                                 *)
(* ------------------------------------------------------------------ *)

Definition status_word (s : Status) : bytes :=
  match s with
  | Status_Ok => b! "OK"
  | Status_No => b! "NO"
  | Status_Bad => b! "BAD"
  | Status_PreAuth => b! "PREAUTH"
  | Status_Bye => b! "BYE"
  end.

(** The codes with a meaning of their own. *)
Definition CODES : list bytes :=
  [b! "ALERT"; b! "PARSE"; b! "READ-ONLY"; b! "READ-WRITE"; b! "TRYCREATE"; b! "UIDNEXT";
   b! "UIDVALIDITY"; b! "UNSEEN"; b! "CAPABILITY"; b! "PERMANENTFLAGS"; b! "BADCHARSET"].

Definition is_code_char (c : byte) : bool :=
  negb ((c =?b "]"%byte) || (c =?b SP) || (c =?b CR) || (c =?b LF)).

(** Text up to a closing bracket. *)
Definition bracket_text (s : str) : Prop :=
  ("]"%byte ∉ s) ∧ (CR ∉ s) ∧ (LF ∉ s) ∧ utf8_valid s = true.

Inductive code : ResponseCode → bytes → Prop :=
| code_alert w : keyword (b! "ALERT") w → code RC_Alert w
| code_parse w : keyword (b! "PARSE") w → code RC_Parse w
| code_read_only w : keyword (b! "READ-ONLY") w → code RC_ReadOnly w
| code_read_write w : keyword (b! "READ-WRITE") w → code RC_ReadWrite w
| code_trycreate w : keyword (b! "TRYCREATE") w → code RC_TryCreate w
| code_uidnext k n w :
    keyword (b! "UIDNEXT") k → number n w → code (RC_UidNext n) (k ++ SP :: w)
| code_uidvalidity k n w :
    keyword (b! "UIDVALIDITY") k → number n w → code (RC_UidValidity n) (k ++ SP :: w)
| code_unseen k n w :
    keyword (b! "UNSEEN") k → number n w → code (RC_Unseen n) (k ++ SP :: w)
| code_capability k l w :
    keyword (b! "CAPABILITY") k → sp_list atom l w → code (RC_Capability l) (k ++ w)
| code_permanentflags k l w :
    keyword (b! "PERMANENTFLAGS") k → paren_list flag l w →
    code (RC_PermanentFlags l) (k ++ SP :: w)
| code_badcharset k : keyword (b! "BADCHARSET") k → code (RC_BadCharset []) k
| code_badcharset_list k l w :
    keyword (b! "BADCHARSET") k → paren_list flag l w → code (RC_BadCharset l) (k ++ SP :: w)
| code_other a :
    run_of is_code_char a → no_keyword CODES a → code (RC_Other a None) a
| code_other_extra a s :
    run_of is_code_char a → no_keyword CODES a → bracket_text s →
    code (RC_Other a (Some s)) (a ++ SP :: s).

Inductive resp_text : option ResponseCode → str → bytes → Prop :=
| resp_text_plain t w : text t w → head t ≠ Some "["%byte → resp_text None t w
| resp_text_code c wc t w :
    code c wc → text t w → resp_text (Some c) t (b! "[" ++ wc ++ b! "]" ++ SP :: w)
| resp_text_code_bare c wc t w :
    code c wc → text t w → head t ≠ Some SP →
    resp_text (Some c) t (b! "[" ++ wc ++ b! "]" ++ w).

(** What follows a status keyword. *)
Inductive after_status : option ResponseCode → str → bytes → Prop :=
| after_status_nothing : after_status None [] []
| after_status_text c t w : resp_text c t w → after_status c t (SP :: w).

(* ------------------------------------------------------------------ *)
(** ** Data                                                             *)
(* ------------------------------------------------------------------ *)

Inductive status_item : StatusItem → bytes → Prop :=
| status_messages k n w :
    keyword (b! "MESSAGES") k → number n w → status_item (SI_Messages n) (k ++ SP :: w)
| status_recent k n w :
    keyword (b! "RECENT") k → number n w → status_item (SI_Recent n) (k ++ SP :: w)
| status_uidnext k n w :
    keyword (b! "UIDNEXT") k → number n w → status_item (SI_UidNext n) (k ++ SP :: w)
| status_uidvalidity k n w :
    keyword (b! "UIDVALIDITY") k → number n w → status_item (SI_UidValidity n) (k ++ SP :: w)
| status_unseen k n w :
    keyword (b! "UNSEEN") k → number n w → status_item (SI_Unseen n) (k ++ SP :: w)
| status_other k n w :
    run_of is_atom_char k →
    no_keyword [b! "MESSAGES"; b! "RECENT"; b! "UIDNEXT"; b! "UIDVALIDITY"; b! "UNSEEN"] k →
    number n w → status_item (SI_Other n) (k ++ SP :: w).

(** The partial origin of a body section. *)
Inductive origin : option u32 → bytes → Prop :=
| origin_none : origin None []
| origin_some n w : number n w → origin (Some n) (b! "<" ++ w ++ b! ">").

Definition section_of (s : str) : option str := match s with [] => None | _ => Some s end.

Inductive attribute : FetchAttribute → bytes → Prop :=
| attr_uid k n w : keyword (b! "UID") k → number n w → attribute (FA_Uid n) (k ++ SP :: w)
| attr_flags k l w :
    keyword (b! "FLAGS") k → paren_list flag l w → attribute (FA_Flags l) (k ++ SP :: w)
| attr_internaldate k s w :
    keyword (b! "INTERNALDATE") k → quoted s w → attribute (FA_InternalDate s) (k ++ SP :: w)
| attr_size k n w :
    keyword (b! "RFC822.SIZE") k → number n w → attribute (FA_Rfc822Size n) (k ++ SP :: w)
| attr_rfc822 k o w :
    keyword (b! "RFC822") k → nbytes o w → attribute (FA_Rfc822 (default [] o)) (k ++ SP :: w)
| attr_rfc822_header k o w :
    keyword (b! "RFC822.HEADER") k → nbytes o w →
    attribute (FA_Rfc822Header (default [] o)) (k ++ SP :: w)
| attr_rfc822_text k o w :
    keyword (b! "RFC822.TEXT") k → nbytes o w →
    attribute (FA_Rfc822Text (default [] o)) (k ++ SP :: w)
| attr_envelope k b w :
    keyword (b! "ENVELOPE") k → parens b w → attribute (FA_Envelope b) (k ++ SP :: w)
| attr_bodystructure k b w :
    keyword (b! "BODYSTRUCTURE") k → parens b w → attribute (FA_BodyStructure b) (k ++ SP :: w)
| attr_body k b w :
    keyword (b! "BODY") k → parens b w → attribute (FA_Body b) (k ++ SP :: w)
| attr_section k s og wo o w :
    keyword (b! "BODY") k → bracket_text s → origin og wo → nbytes o w →
    attribute (FA_BodySection (section_of s) og o) (k ++ b! "[" ++ s ++ b! "]" ++ wo ++ SP :: w).

(** [LIST] and [LSUB]: flags, delimiter, name. *)
Definition mailbox_list (fl : list str) (d : option str) (name : str) (w : bytes) : Prop :=
  ∃ wf wd wn, paren_list flag fl wf ∧ nstring d wd ∧ astring name wn
    ∧ w = wf ++ SP :: wd ++ SP :: wn.

Definition NUMBERED : list bytes := [b! "EXISTS"; b! "RECENT"; b! "EXPUNGE"; b! "FETCH"].
Definition NAMED : list bytes :=
  [b! "CAPABILITY"; b! "LIST"; b! "LSUB"; b! "STATUS"; b! "SEARCH"; b! "FLAGS"].

(** The end of a line that is kept unread, after an atom. *)
Definition unread_tail (t : bytes) : Prop :=
  (CR ∉ t) ∧ match t with [] => True | c :: _ => is_atom_char c = false end.

(** What follows ["* "] in a data response. *)
Inductive data : DataResponse → bytes → Prop :=
| data_capability k l w :
    keyword (b! "CAPABILITY") k → sp_list atom l w → data (DR_Capability l) (k ++ w)
| data_list k fl d name w :
    keyword (b! "LIST") k → mailbox_list fl d name w → data (DR_List fl d name) (k ++ SP :: w)
| data_lsub k fl d name w :
    keyword (b! "LSUB") k → mailbox_list fl d name w → data (DR_Lsub fl d name) (k ++ SP :: w)
| data_status k m wm l w :
    keyword (b! "STATUS") k → astring m wm → paren_list status_item l w →
    data (DR_Status m l) (k ++ SP :: wm ++ SP :: w)
| data_search k l w :
    keyword (b! "SEARCH") k → sp_list number l w → data (DR_Search l) (k ++ w)
| data_flags k l w :
    keyword (b! "FLAGS") k → paren_list flag l w → data (DR_Flags l) (k ++ SP :: w)
| data_exists n wn k : number n wn → keyword (b! "EXISTS") k → data (DR_Exists n) (wn ++ SP :: k)
| data_recent n wn k : number n wn → keyword (b! "RECENT") k → data (DR_Recent n) (wn ++ SP :: k)
| data_expunge n wn k : number n wn → keyword (b! "EXPUNGE") k → data (DR_Expunge n) (wn ++ SP :: k)
| data_fetch n wn k l w :
    number n wn → keyword (b! "FETCH") k → paren_list attribute l w →
    data (DR_Fetch n l) (wn ++ SP :: k ++ SP :: w)
| data_other_numbered n wn k t :
    number n wn → run_of is_atom_char k → no_keyword NUMBERED k → unread_tail t →
    data (DR_Other (b! "* " ++ wn ++ SP :: k ++ t)) (wn ++ SP :: k ++ t)
| data_other_named k t :
    run_of is_atom_char k → no_keyword NAMED k → unread_tail t →
    from_option is_ascii_digit false (head k) = false →
    (no_keyword KEYWORDS k ∨ from_option is_boundary true (head t) = false) →
    data (DR_Other (k ++ t)) (k ++ t).

(** [response], without its CRLF. *)
Inductive line : Response → bytes → Prop :=
| line_continue c t w : resp_text c t w → line (Resp_Continue (mkContinueReq c t)) (b! "+ " ++ w)
| line_tagged tg wt s k c t w :
    tag tg wt → keyword (status_word s) k → after_status c t w →
    line (Resp_Status (mkStatusResponse (Some tg) s c t)) (wt ++ SP :: k ++ w)
| line_untagged s k c t w :
    keyword (status_word s) k → after_status c t w →
    line (Resp_Status (mkStatusResponse None s c t)) (b! "* " ++ k ++ w)
| line_data d w : data d w → line (Resp_Data d) (b! "* " ++ w).

Definition response (r : Response) (w : bytes) : Prop := ∃ l, line r l ∧ w = l ++ [CR; LF].

End grammar.

(* ------------------------------------------------------------------ *)
(** ** Keywords                                                         *)
(* ------------------------------------------------------------------ *)

Abbreviation lower s := (to_ascii_lowercase <$> s).

Lemma str_eq_lower s t : str_eq_ignore_ascii_case s t = bool_decide (lower s = lower t).
Proof.
  apply eq_true_iff_eq. rewrite bool_decide_eq_true. unfold str_eq_ignore_ascii_case.
  rewrite andb_true_iff, Nat.eqb_eq, zip_all_ci_spec. split.
  - intros [Hl Hz]. by rewrite !take_ge in Hz by (rewrite length_fmap; lia).
  - intros Hz. pose proof (f_equal length Hz) as Hl. rewrite !length_fmap in Hl.
    split; [done|]. rewrite !take_ge by (rewrite length_fmap; lia). done.
Qed.

(** A keyword is as good as its canonical spelling in any comparison. *)
Lemma keyword_cmp K w K' :
  grammar.keyword K w → str_eq_ignore_ascii_case w K' = str_eq_ignore_ascii_case K K'.
Proof. unfold grammar.keyword. rewrite !str_eq_lower. by intros ->%bool_decide_eq_true. Qed.

Lemma keyword_refl K : grammar.keyword K K.
Proof. apply str_eq_ignore_ascii_case_refl. Qed.

Lemma keyword_length K w : grammar.keyword K w → length w = length K.
Proof. intros H. unfold grammar.keyword, str_eq_ignore_ascii_case in H. by destr_bools; to_prop. Qed.

(** A class of bytes that does not tell upper from lower case. *)
Definition caseless (P : byte → bool) : Prop := ∀ c, P (to_ascii_lowercase c) = P c.

Ltac solve_caseless := by intros []; vm_compute.

Lemma caseless_atom : caseless is_atom_char.
Proof. solve_caseless. Qed.
Lemma caseless_ascii : caseless (λ c, bval c <? 0x80).
Proof. solve_caseless. Qed.

Lemma keyword_class P K w :
  caseless P → Forall (λ c, P c = true) K → grammar.keyword K w → Forall (λ c, P c = true) w.
Proof.
  intros HP HK Hw. unfold grammar.keyword in Hw. rewrite str_eq_lower in Hw.
  apply bool_decide_eq_true in Hw. apply Forall_forall. intros c Hc.
  apply (list_elem_of_fmap_2 to_ascii_lowercase) in Hc. rewrite Hw in Hc.
  apply list_elem_of_fmap in Hc as (d & Hd & Hin). rewrite <- HP, Hd, HP.
  rewrite Forall_forall in HK. by apply HK.
Qed.

(** A keyword as a run of a class its letters belong to. *)
Lemma keyword_run P K w :
  caseless P → K ≠ [] → Forall (λ c, P c && (bval c <? 0x80) = true) K →
  grammar.keyword K w → run_of P w.
Proof.
  intros HP Hne HK Hw. split_and!.
  - apply keyword_length in Hw. by destruct w, K.
  - apply (keyword_class P K); [done| |done]. eapply Forall_impl; [exact HK|].
    by intros c [? _]%andb_true_iff.
  - apply utf8_valid_ascii.
    apply (Forall_impl (λ c, (bval c <? 0x80) = true)); [|intros c; apply Z.ltb_lt].
    apply (keyword_class _ K); [apply caseless_ascii| |done]. eapply Forall_impl; [exact HK|].
    by intros c [_ ?]%andb_true_iff.
Qed.

(** The keyword test on the bytes under the cursor. *)
Definition keyword_at (kw r : bytes) : bool :=
  (length kw <=? length r)%nat && zip_all_ci (take (length kw) r) kw
  && from_option is_boundary true (r !! length kw).

Lemma kw_match_at kw i p :
  (p ≤ length i)%nat → Z.of_nat (length i) <= usize_max →
  kw_match kw i p = keyword_at kw (drop p i).
Proof.
  intros Hp Hu. unfold kw_match, keyword_at. rewrite lookup_drop, length_drop.
  destruct (decide (p + length kw ≤ length i)%nat) as [Hle|Hgt].
  - rewrite (proj2 (Z.leb_le _ _)), (proj2 (Nat.leb_le (p + _) _)), (proj2 (Nat.leb_le (length kw) _))
      by lia.
    unfold slice. by replace (p + length kw - p)%nat with (length kw) by lia.
  - rewrite (proj2 (Nat.leb_gt (p + _) _)), (proj2 (Nat.leb_gt (length kw) _)) by lia.
    by rewrite andb_false_r.
Qed.

(** Keywords end where a run of atom characters does. *)
Lemma atom_no_boundary c : is_atom_char c = true → is_boundary c = false.
Proof. destruct c; vm_compute; done. Qed.

Lemma zip_all_ci_lookup s t n a b :
  zip_all_ci s t = true → s !! n = Some a → t !! n = Some b →
  to_ascii_lowercase a = to_ascii_lowercase b.
Proof.
  revert t n. induction s as [|x s IH]; intros [|y t] [|n]; cbn; try done.
  - intros [Hxy _]%andb_true_iff [= ->] [= ->]. by apply byte_eqb_true in Hxy.
  - intros [_ H]%andb_true_iff. by apply IH.
Qed.

Lemma keyword_at_run kw a t :
  Forall (λ c, is_atom_char c = true) kw → Forall (λ c, is_atom_char c = true) a →
  match t with [] => True | c :: _ => is_atom_char c = false end →
  keyword_at kw (a ++ t) = str_eq_ignore_ascii_case a kw && from_option is_boundary true (head t).
Proof.
  intros Hkw Ha Ht. unfold keyword_at, str_eq_ignore_ascii_case.
  destruct (lt_eq_lt_dec (length kw) (length a)) as [[Hlt|Heq]|Hgt].
  - rewrite (proj2 (Nat.eqb_neq (length a) _)) by lia. cbn [andb].
    rewrite lookup_app_l by done. destruct (lookup_lt_is_Some_2 a (length kw) Hlt) as [c Hc].
    rewrite Hc. cbn [from_option].
    rewrite (atom_no_boundary c); [apply andb_false_r|by eapply (Forall_lookup_1 _ _ _ _ Ha)].
  - rewrite Heq, Nat.eqb_refl, take_app_length, length_app.
    rewrite (proj2 (Nat.leb_le _ _)) by lia. cbn [andb]. f_equal.
    rewrite lookup_app_r, Nat.sub_diag by done. by destruct t.
  - rewrite (proj2 (Nat.eqb_neq (length a) _)) by lia. cbn [andb].
    destruct (_ <=? _)%nat eqn:Hle; [|done]. to_prop. rewrite length_app in Hle. cbn [andb].
    destruct t as [|c t]; [cbn in Hle; lia|]. destruct (zip_all_ci _ _) eqn:Hz; [|done]. exfalso.
    destruct (lookup_lt_is_Some_2 kw (length a) Hgt) as [d Hd].
    apply (zip_all_ci_lookup _ _ (length a) c d) in Hz; [| |done].
    + rewrite <- caseless_atom, Hz, caseless_atom in Ht.
      by rewrite (Forall_lookup_1 _ _ _ _ Hkw Hd) in Ht.
    + rewrite lookup_take_lt by lia. by rewrite lookup_app_r, Nat.sub_diag.
Qed.

Definition STATUSES : list Status := [Status_PreAuth; Status_Ok; Status_No; Status_Bad; Status_Bye].

(** The status keyword at the head of [r], if there is one. *)
Definition status_at (r : bytes) : option Status :=
  find (λ s, keyword_at (grammar.status_word s) r) STATUSES.

Lemma try_parse_status_keyword_at i st :
  (pos st ≤ length i)%nat → Z.of_nat (length i) <= usize_max →
  try_parse_status_keyword i st =
    match status_at (drop (pos st) i) with
    | Some s => Ok (Some s) (mkPstate (pos st + length (grammar.status_word s)) (items_left st))
    | None => Ok None st
    end.
Proof.
  intros Hp Hu. rewrite status_find_eq. unfold status_kws, status_at, STATUSES.
  cbn [status_find find grammar.status_word]. rewrite !kw_match_at by done.
  by repeat (case_match; [done|]).
Qed.
