(* ===== verification/GrammarComplete.v ===== *)
(** The parser reads every response of the grammar: each method, in front of
    bytes its nonterminal stands for, returns the value and leaves the cursor
    behind them. One lemma per method, bottom-up, in the database [reads]. *)

From S2P Require Import Prelude Str Ast Monad ResponseParser ParserSafety ParserStream.
From S2P Require Import ParserLocal ParserBudget ParserRead Grammar.
From stdpp Require Import options.
Import Parser.

(** The next byte ends an atom and a keyword. *)
Definition stop (rest : bytes) : Prop :=
  ∃ c t, rest = c :: t ∧ is_atom_char c = false ∧ is_boundary c = true ∧ c ≠ "*"%byte
    ∧ is_ascii_digit c = false.

Lemma stop_cons c t : c ∈ [SP; CR; "]"%byte; ")"%byte] → stop (c :: t).
Proof.
  intros H. exists c, t. split; [done|].
  rewrite !elem_of_cons, elem_of_nil in H. by destruct H as [->|[->|[->|[->|[]]]]].
Qed.

Lemma stop_sp t : stop (SP :: t).
Proof. apply stop_cons. set_solver. Qed.
Lemma stop_cr t : stop (CR :: t).
Proof. apply stop_cons. set_solver. Qed.
Lemma stop_bracket t : stop ("]"%byte :: t).
Proof. apply stop_cons. set_solver. Qed.
Lemma stop_paren t : stop (")"%byte :: t).
Proof. apply stop_cons. set_solver. Qed.
#[export] Hint Resolve stop_sp stop_cr stop_bracket stop_paren : reads.

Lemma stop_atom rest : stop rest → follows is_atom_char rest.
Proof. intros (c & t & -> & ? & _). by apply follows_cons. Qed.
Lemma stop_digit rest :
  stop rest → match rest with [] => True | c :: _ => is_ascii_digit c = false end.
Proof. by intros (c & t & -> & ? & ? & ? & ?). Qed.
Lemma stop_star rest : stop rest → head rest ≠ Some "*"%byte.
Proof. by intros (c & t & -> & ? & ? & ? & ?) [=]. Qed.

(** Parts of a method that look at the cursor but do not move it. *)
Lemma reads_ext {A} (m m' : parser A) w rest a n :
  (∀ i st, m i st = m' i st) → reads m' w rest a n → reads m w rest a n.
Proof. intros He H i st ????. rewrite He. by apply H. Qed.

Lemma reads_eq {A} (m : parser A) w w' rest a n n' :
  reads m w rest a n → w' = w → n' = n → reads m w' rest a n'.
Proof. by intros ? -> ->. Qed.

(** [w1] then [w2] then the value of [k]: the shape of most methods. *)
Lemma reads_then {A B} (m : parser A) (k : A → parser B) w1 w2 rest a b n :
  reads m w1 (w2 ++ rest) a 0 → reads (k a) w2 rest b n → reads (m ≫= k) (w1 ++ w2) rest b n.
Proof. apply (reads_bind _ _ _ _ _ _ _ 0 n). Qed.

Lemma reads_then_ret {A B} (m : parser A) (f : A → B) w rest a n :
  reads m w rest a n → reads (m ≫= λ x, mret (f x)) w rest (f a) n.
Proof. intros H. eapply reads_bind_r; [exact H|apply reads_ret]. Qed.

(** SP and what follows it. *)
Lemma reads_sp_then {B} (k : parser B) w rest b n :
  reads k w rest b n → reads (consume_sp;; k) (SP :: w) rest b n.
Proof. intros H. eapply (reads_then _ _ [SP] w); [apply reads_consume_sp|exact H]. Qed.

Section tokens.
Implicit Types (w rest : bytes).

Lemma reads_digits n w rest :
  grammar.number n w → match rest with [] => True | c :: _ => is_ascii_digit c = false end →
  reads parse_number w rest n 0.
Proof. intros (? & ? & -> & ?) ?. by apply reads_parse_number. Qed.

Lemma reads_g_number n w rest : grammar.number n w → stop rest → reads parse_number w rest n 0.
Proof. intros ??. by apply reads_digits, stop_digit. Qed.

Lemma reads_g_atom s w rest : grammar.atom s w → stop rest → reads parse_atom w rest s 0.
Proof. intros [-> ?] ?. apply reads_parse_atom; [done|by apply stop_atom]. Qed.

Lemma reads_g_flag s w rest : grammar.flag s w → stop rest → reads parse_flag_or_atom w rest s 0.
Proof.
  intros [-> ?] ?. apply reads_parse_flag_or_atom; [done|by apply stop_atom|by apply stop_star].
Qed.

Lemma reads_g_quoted s w rest : grammar.quoted s w → reads parse_quoted w rest s 0.
Proof. intros (-> & ? & ?). by apply reads_parse_quoted. Qed.

Lemma reads_g_literal d w rest : grammar.literal d w → reads parse_literal w rest d 0.
Proof.
  intros (ds & Hn & Hmax & ->). unfold parse_literal.
  eapply (reads_then _ _ (b! "{")); [apply reads_consume_byte|].
  eapply (reads_then _ _ ds); [by apply reads_digits|].
  eapply (reads_then _ _ (b! "}")); [apply reads_consume_byte|].
  eapply (reads_then _ _ [CR; LF]); [apply reads_consume_crlf|].
  rewrite (proj2 (Z.ltb_ge _ _)) by done. by apply reads_literal_body.
Qed.

Lemma reads_g_keyword K w rest :
  Forall (λ c, is_atom_char c = true) K → grammar.keyword K w → stop rest →
  reads (try_consume_keyword_ci K) w rest true 0.
Proof.
  intros HK Hw (c & t & -> & Ha & Hb & _) i st Hd Hp Hu Hn.
  rewrite try_consume_keyword_ci_eq, kw_match_at, Hd by done.
  rewrite keyword_at_run; [|done|by eapply keyword_class, Hw; [apply caseless_atom|]|done].
  rewrite Hw. cbn [head from_option andb]. rewrite Hb.
  f_equal. apply pstate_eq; cbn [pos items_left]; [|lia]. by rewrite (keyword_length K w).
Qed.

Lemma reads_expect_nil w rest :
  grammar.keyword NIL w → stop rest → reads expect_nil w rest tt 0.
Proof.
  intros ??. apply (reads_bind_r _ _ _ _ true); [|apply (reads_ret tt)].
  apply reads_g_keyword; [|done..]. by repeat constructor.
Qed.

(** A method that decides by the byte under the cursor. *)
Lemma peek_quoted {B} (m1 m2 m3 : parser B) s w rest b n :
  grammar.quoted s w → reads m1 w rest b n →
  reads (c ← try_ peek; if c =?b DQUOTE then m1 else if c =?b "{"%byte then m2 else m3) w rest b n.
Proof. intros (-> & _ & _) H. by apply reads_peek. Qed.

Lemma peek_literal {B} (m1 m2 m3 : parser B) d w rest b n :
  grammar.literal d w → reads m2 w rest b n →
  reads (c ← try_ peek; if c =?b DQUOTE then m1 else if c =?b "{"%byte then m2 else m3) w rest b n.
Proof. intros (ds & _ & _ & ->) H. by apply reads_peek. Qed.

Lemma peek_atom {B} (m1 m2 m3 : parser B) w rest b n :
  run_of is_atom_char w → reads m3 w rest b n →
  reads (c ← try_ peek; if c =?b DQUOTE then m1 else if c =?b "{"%byte then m2 else m3) w rest b n.
Proof.
  intros (Hne & Hall & _) H. destruct w as [|c w]; [done|]. apply reads_peek.
  apply Forall_cons in Hall as [Hc _].
  destruct (byte_eqb_spec c DQUOTE) as [->|_]; [done|].
  by destruct (byte_eqb_spec c "{"%byte) as [->|_].
Qed.

Lemma nil_run w : grammar.keyword NIL w → run_of is_atom_char w.
Proof. apply keyword_run; [apply caseless_atom|done|by repeat constructor]. Qed.

Lemma reads_to_str s rest : utf8_valid s = true → reads (to_str s) [] rest s 0.
Proof. intros H. unfold to_str, from_utf8. rewrite H. apply reads_ret. Qed.

Lemma reads_g_astring s w rest : grammar.astring s w → stop rest → reads parse_astring w rest s 0.
Proof.
  intros [? Hw|? Hw ?|? Hw] ?; unfold parse_astring.
  - eapply peek_quoted; [done|]. by apply reads_g_quoted.
  - eapply peek_literal; [done|]. eapply reads_bind_r; [by apply reads_g_literal|].
    by apply reads_to_str.
  - destruct Hw as [-> ?]. apply peek_atom; [done|]. by apply reads_g_atom.
Qed.

Lemma reads_g_nstring o w rest : grammar.nstring o w → stop rest → reads parse_nstring w rest o 0.
Proof.
  intros [? ? Hw|? ? Hw ?|? Hw] ?; unfold parse_nstring.
  - eapply peek_quoted; [done|]. by apply reads_then_ret, reads_g_quoted.
  - eapply peek_literal; [done|]. eapply reads_bind_r; [by apply reads_g_literal|].
    by apply reads_then_ret, reads_to_str.
  - apply peek_atom; [by apply nil_run|].
    eapply reads_bind_r; [by apply reads_expect_nil|apply reads_ret].
Qed.

Lemma reads_g_nbytes o w rest :
  grammar.nbytes o w → stop rest → reads parse_nstring_bytes_optional w rest o 0.
Proof.
  intros [? ? Hw|? ? Hw|? Hw] ?; unfold parse_nstring_bytes_optional.
  - eapply peek_quoted; [done|]. by apply reads_then_ret, reads_g_quoted.
  - eapply peek_literal; [done|]. by apply reads_then_ret, reads_g_literal.
  - apply peek_atom; [by apply nil_run|].
    eapply reads_bind_r; [by apply reads_expect_nil|apply reads_ret].
Qed.

(** [&self.input[self.pos..self.pos]]. *)
Lemma reads_empty_slice rest : reads (p ← get_pos; get_slice p p) [] rest [] 0.
Proof.
  intros i st Hd Hp _ _. unfold mbind, parser_bind, get_pos, get_slice.
  rewrite !(proj2 (Nat.leb_le _ _)) by lia. rewrite slice_nil. cbn [andb].
  f_equal. apply pstate_eq; cbn [pos items_left length]; lia.
Qed.

Lemma reads_g_nbytes_empty o w rest :
  grammar.nbytes o w → stop rest → reads parse_nstring_bytes w rest (default [] o) 0.
Proof.
  intros [? ? Hw|? ? Hw|? Hw] ?; unfold parse_nstring_bytes.
  - eapply peek_quoted; [done|]. by apply reads_g_quoted.
  - eapply peek_literal; [done|]. by apply reads_g_literal.
  - apply peek_atom; [by apply nil_run|].
    eapply reads_bind_r; [by apply reads_expect_nil|apply reads_empty_slice].
Qed.
End tokens.

(* ------------------------------------------------------------------ *)
(** ** Lists                                                            *)
(* ------------------------------------------------------------------ *)

Section lists.
Context {T : Type} (item : parser T) (g : T → bytes → Prop) (cnt : T → nat).
Implicit Types (w rest : bytes) (l acc : list T).

(** An item is read wherever an atom may end, and does not look like the end
    of a list. *)
Definition reads_item : Prop :=
  ∀ x w, g x w → (∀ rest, stop rest → reads item w rest x (cnt x))
    ∧ ∃ c t, w = c :: t ∧ c ≠ ")"%byte.
Hypothesis (Hitem : reads_item).

Definition items_step (what : string) (items : list T) : parser (flow (list T) (list T)) :=
  item ← item;
  items' ← push_item items item;
  c ← try_ peek;
  if c =?b SP then advance 1;; mret (Continue items')
  else if c =?b ")"%byte then advance 1;; mret (Break items')
  else fail (Malformed what).

Lemma reads_items_step what acc x w c rest :
  g x w → c = SP ∨ c = ")"%byte →
  reads (items_step what acc) (w ++ [c]) rest
    (if c =?b SP then Continue (acc ++ [x]) else Break (acc ++ [x])) (cnt x + 1).
Proof using Hitem.
  intros Hx Hc. apply (reads_bind _ _ w [c] _ x _ (cnt x) 1).
  { apply Hitem; [done|]. by destruct Hc as [-> | ->]; [apply stop_sp|apply stop_paren]. }
  apply (reads_bind _ _ [] [c] _ (acc ++ [x]) _ 1 0); [apply reads_push_item|].
  apply reads_peek. destruct Hc as [-> | ->]; cbn;
    (apply (reads_bind_r _ _ _ _ tt); [apply reads_advance|apply reads_ret]).
Qed.

Lemma reads_separated what l w rest :
  grammar.separated g l w →
  reads (list_items item what) (w ++ b! ")") rest l (list_cnt cnt l).
Proof using Hitem.
  intros Hl. apply reads_loop. change l with ([] ++ l) at 1. generalize (@nil T) as acc.
  induction Hl as [x w Hx|x w l ws Hx _ IH]; intros acc.
  - replace (list_cnt cnt [x]) with (cnt x + 1)%nat by (unfold list_cnt; cbn; lia).
    apply iterates_break. apply (reads_items_step what acc x w ")"%byte); [done|by right].
  - replace (list_cnt cnt (x :: l)) with ((cnt x + 1) + list_cnt cnt l)%nat
      by (unfold list_cnt; cbn; lia).
    replace ((w ++ SP :: ws) ++ b! ")") with ((w ++ [SP]) ++ ws ++ b! ")")
      by (by rewrite <- !app_assoc).
    replace (acc ++ x :: l) with ((acc ++ [x]) ++ l) by (by rewrite <- app_assoc).
    apply iterates_continue with (acc ++ [x]); [|by destruct w|apply IH].
    apply (reads_items_step what acc x w SP); [done|by left].
Qed.

Lemma separated_head l w : grammar.separated g l w → ∃ c t, w = c :: t ∧ c ≠ ")"%byte.
Proof using Hitem.
  intros [x w' Hx|x w' l' ws Hx _].
  - by apply Hitem in Hx as [_ ?].
  - apply Hitem in Hx as [_ (c & t & -> & ?)]. by exists c, (t ++ SP :: ws).
Qed.

Lemma reads_g_paren_list what l w rest :
  grammar.paren_list g l w →
  reads (consume_byte "("%byte;;
         close ← try_consume_byte ")"%byte;
         if (close : bool) then mret [] else list_items item what) w rest l (list_cnt cnt l).
Proof using Hitem.
  intros [|l' w' Hl].
  - apply (reads_then _ _ (b! "(") (b! ")") _ tt); [apply reads_consume_byte|].
    apply (reads_bind_r _ _ _ _ true); [apply reads_try_hit|apply (reads_ret [])].
  - apply (reads_then _ _ (b! "(") _ _ tt); [apply reads_consume_byte|].
    apply (reads_bind_0 _ _ _ _ false); [|by apply reads_separated].
    apply reads_try_miss. destruct (separated_head _ _ Hl) as (c & t & -> & ?). cbn. congruence.
Qed.

Definition sp_step (charged : bool) (items : list T) : parser (flow (list T) (list T)) :=
  sp ← try_consume_byte SP;
  if (sp : bool) then
    x ← item;
    items' ← (if charged then push_item items x else mret (items ++ [x]));
    mret (Continue items')
  else mret (Break items).

(** The end of [sp_items]: no SP follows. *)
Lemma reads_g_sp_list (charged : bool) l w rest :
  (∀ x, cnt x = 0%nat) → grammar.sp_list g l w → stop rest → head rest ≠ Some SP →
  reads (sp_items item charged) w rest l (if charged then length l else 0).
Proof using Hitem.
  intros Hcnt Hl Hs Hsp. apply reads_loop.
  enough (Hacc : ∀ acc, iterates (sp_step charged) rest acc w (acc ++ l)
    (if charged then length l else 0%nat)) by apply (Hacc []).
  induction Hl as [|x w l ws Hx Hl IH]; intros acc.
  - rewrite app_nil_r. destruct charged; apply iterates_break; cbn;
      (apply (reads_bind_0 _ _ _ _ false); [by apply reads_try_miss|apply reads_ret]).
  - replace (if charged then length (x :: l) else 0%nat)
      with ((if charged then 1 else 0) + (if charged then length l else 0))%nat
      by (by destruct charged).
    replace (acc ++ x :: l) with ((acc ++ [x]) ++ l) by (by rewrite <- app_assoc).
    change (SP :: w ++ ws) with ((SP :: w) ++ ws).
    apply iterates_continue with (acc ++ [x]); [|done|apply IH].
    apply (reads_then _ _ [SP] w _ true); [apply reads_try_hit|].
    rewrite <- (app_nil_r w).
    apply (reads_bind _ _ _ _ _ x _ 0 (if charged then 1 else 0)).
    { rewrite <- (Hcnt x). apply Hitem; [done|]. destruct Hl; cbn; [done|apply stop_sp]. }
    destruct charged; (apply (reads_bind_r _ _ _ _ (acc ++ [x])); [|apply reads_ret]);
      [apply reads_push_item|apply reads_ret].
Qed.
End lists.

Lemma atom_item : reads_item parse_atom grammar.atom (λ _, 0%nat).
Proof.
  intros x w H. split; [intros; by apply reads_g_atom|]. destruct H as [-> (Hne & Hall & _)].
  destruct x as [|c x]; [done|]. exists c, x. split; [done|]. intros ->.
  by apply Forall_cons in Hall as [? _].
Qed.

Lemma flag_item : reads_item parse_flag_or_atom grammar.flag (λ _, 0%nat).
Proof.
  intros x w H. split; [intros; by apply reads_g_flag|].
  destruct H as [-> [_ [(Hne & Hall & _)|[->|(s & -> & _)]]]]; [|by eexists _, _..].
  destruct x as [|c x]; [done|]. exists c, x. split; [done|]. intros ->.
  by apply Forall_cons in Hall as [? _].
Qed.

Lemma number_item : reads_item parse_number grammar.number (λ _, 0%nat).
Proof.
  intros n w H. split; [intros; by apply reads_g_number|]. destruct H as (Hne & Hall & _).
  destruct w as [|c w]; [done|]. exists c, w. split; [done|]. intros ->.
  by apply Forall_cons in Hall as [? _].
Qed.

Lemma reads_atoms l w rest :
  grammar.sp_list grammar.atom l w → stop rest → head rest ≠ Some SP →
  reads (sp_items parse_atom true) w rest l (length l).
Proof. intros. by apply (reads_g_sp_list _ _ _ atom_item true). Qed.

Lemma reads_numbers l w rest :
  grammar.sp_list grammar.number l w → stop rest → head rest ≠ Some SP →
  reads (sp_items parse_number false) w rest l 0.
Proof. intros. by apply (reads_g_sp_list _ _ _ number_item false). Qed.

Lemma reads_flags l w rest :
  grammar.paren_list grammar.flag l w → reads parse_paren_atom_list w rest l (length l).
Proof.
  intros H. rewrite <- (list_cnt_zero l). by apply (reads_g_paren_list _ _ _ flag_item).
Qed.

(* ------------------------------------------------------------------ *)
(** ** Parenthesised values                                             *)
(* ------------------------------------------------------------------ *)

(** The body of the loop of [parse_balanced_parens]. *)
Definition depth_step (depth : u32) : parser (flow u32 unit) :=
  if 0 <? depth then
    c ← try_ peek;
    if c =?b "("%byte then
      advance 1;;
      depth' ← ok_or (u32_checked_add depth 1) (PE_Other "paren depth overflow");
      mret (Continue depth')
    else if c =?b ")"%byte then advance 1;; mret (Continue (depth - 1))
    else if c =?b DQUOTE then parse_quoted;; mret (Continue depth)
    else if c =?b "{"%byte then parse_literal;; mret (Continue depth)
    else if (c =?b CR) || (c =?b LF) then
      fail (Malformed "CR/LF inside parenthesised value")
    else advance 1;; mret (Continue depth)
  else mret (Break tt).

Section parens.
Implicit Types (w rest : bytes).

Lemma depth_open depth rest :
  0 < depth → depth + 1 <= u32_max →
  reads (depth_step depth) (b! "(") rest (Continue (depth + 1)) 0.
Proof.
  intros Hd Hm. unfold depth_step. rewrite (proj2 (Z.ltb_lt _ _)) by done.
  apply reads_peek. cbn. apply (reads_bind_r _ _ _ _ tt); [apply reads_advance|].
  unfold u32_checked_add. rewrite (proj2 (Z.leb_le _ _)) by done.
  apply (reads_bind_0 _ _ _ _ (depth + 1)); [apply reads_ret|apply reads_ret].
Qed.

Lemma depth_close depth rest :
  0 < depth → reads (depth_step depth) (b! ")") rest (Continue (depth - 1)) 0.
Proof.
  intros Hd. unfold depth_step. rewrite (proj2 (Z.ltb_lt _ _)) by done.
  apply reads_peek. cbn. apply (reads_bind_r _ _ _ _ tt); [apply reads_advance|apply reads_ret].
Qed.

Lemma depth_char depth c rest :
  0 < depth → c ∉ ["("%byte; ")"%byte; DQUOTE; "{"%byte; CR; LF] →
  reads (depth_step depth) [c] rest (Continue depth) 0.
Proof.
  intros Hd Hc. rewrite !not_elem_of_cons in Hc. destruct Hc as (? & ? & ? & ? & ? & ? & _).
  unfold depth_step. rewrite (proj2 (Z.ltb_lt _ _)) by done.
  apply reads_peek. rewrite !(proj2 (byte_eqb_false _ _)) by done. cbn.
  apply (reads_bind_r _ _ _ _ tt); [apply reads_advance|apply reads_ret].
Qed.

Lemma depth_quoted depth s w rest :
  0 < depth → grammar.quoted s w → reads (depth_step depth) w rest (Continue depth) 0.
Proof.
  intros Hd Hq. unfold depth_step. rewrite (proj2 (Z.ltb_lt _ _)) by done.
  pose proof Hq as (-> & _). apply reads_peek. cbn.
  eapply reads_bind_r; [by eapply reads_g_quoted|apply reads_ret].
Qed.

Lemma depth_literal depth d w rest :
  0 < depth → grammar.literal d w → reads (depth_step depth) w rest (Continue depth) 0.
Proof.
  intros Hd Hq. unfold depth_step. rewrite (proj2 (Z.ltb_lt _ _)) by done.
  pose proof Hq as (ds & _ & _ & ->). apply reads_peek. cbn.
  eapply reads_bind_r; [by eapply reads_g_literal|apply reads_ret].
Qed.

Lemma literal_ne d w : grammar.literal d w → w ≠ [].
Proof. by intros (ds & _ & _ & ->). Qed.
Lemma quoted_ne s w : grammar.quoted s w → w ≠ [].
Proof. by intros (-> & _). Qed.

Lemma nested_iterates n u :
  grammar.nested n u → ∀ depth w rest,
  0 < depth → depth + n <= u32_max →
  iterates depth_step rest depth w tt 0 → iterates depth_step rest depth (u ++ w) tt 0.
Proof.
  induction 1 as [n|n c u Hc _ IH|n s q u Hq _ IH|n d l u Hl _ IH|n u v Hn _ IHu _ IHv];
    intros depth w rest Hd Hle Hw.
  - done.
  - apply (iterates_continue _ _ depth depth [c] (u ++ w) tt 0 0); [by apply depth_char|done|].
    by apply IH.
  - rewrite <- app_assoc. apply (iterates_continue _ _ depth depth q (u ++ w) tt 0 0);
      [by eapply depth_quoted|by eapply quoted_ne|by apply IH].
  - rewrite <- app_assoc. apply (iterates_continue _ _ depth depth l (u ++ w) tt 0 0);
      [by eapply depth_literal|by eapply literal_ne|by apply IH].
  - rewrite <- !app_assoc.
    apply (iterates_continue _ _ depth (depth + 1) (b! "(") (u ++ b! ")" ++ v ++ w) tt 0 0);
      [apply depth_open; lia|done|]. apply IHu; [lia..|].
    apply (iterates_continue _ _ (depth + 1) depth (b! ")") (v ++ w) tt 0 0); [|done|by apply IHv].
    replace (Continue depth) with (Continue (S := u32) (A := unit) (depth + 1 - 1)) by (f_equal; lia).
    apply depth_close. lia.
Qed.

Lemma reads_g_parens b w rest : grammar.parens b w → reads parse_balanced_parens w rest b 0.
Proof.
  intros (-> & u & Hu & ->) i st Hd Hp Hl Hn.
  assert (Hloop : reads (loop depth_step 1) (u ++ b! ")") rest tt 0).
  { apply reads_loop. apply (nested_iterates _ _ Hu); [lia..|].
    apply (iterates_continue _ _ 1 0 (b! ")") [] tt 0 0); [by apply (depth_close 1)|done|].
    apply iterates_break. apply reads_ret. }
  assert (Hrun : reads (consume_byte "("%byte;; loop depth_step 1) (b! "(" ++ u ++ b! ")") rest tt 0).
  { eapply (reads_then _ _ (b! "(")); [apply reads_consume_byte|exact Hloop]. }
  unfold parse_balanced_parens. rewrite (bind_Ok _ _ i st (pos st) st) by done.
  specialize (Hrun i st Hd Hp Hl Hn).
  unfold mbind at 1, parser_bind at 1. unfold mbind at 1, parser_bind at 1 in Hrun.
  destruct (consume_byte "("%byte i st) as [[] st1| | |]; try done.
  unfold mbind at 1, parser_bind at 1. fold depth_step. rewrite Hrun.
  unfold mbind, parser_bind, get_pos. cbn [pos].
  by rewrite (get_slice_run i _ (pos st) (b! "(" ++ u ++ b! ")") rest).
Qed.
End parens.

(* ------------------------------------------------------------------ *)
(** ** Keywords and names                                               *)
(* ------------------------------------------------------------------ *)

(** Evaluate the comparisons of a name that is a keyword, or none of some
    keywords. *)
Ltac eval_keywords :=
  repeat match goal with
  | |- context [str_eq_ignore_ascii_case ?a ?b] =>
      let v := eval vm_compute in (str_eq_ignore_ascii_case a b) in
      lazymatch v with true => idtac | false => idtac end;
      change (str_eq_ignore_ascii_case a b) with v
  end; cbv iota beta zeta.

Ltac is_keyword H := cbv zeta; rewrite ?(keyword_cmp _ _ _ H); eval_keywords.

Ltac not_keyword H :=
  cbv zeta; unfold grammar.no_keyword, grammar.CODES, grammar.NUMBERED, grammar.NAMED in H;
  repeat match type of H with Forall _ (_ :: _) =>
    let H1 := fresh in apply Forall_cons in H as [H1 H]; rewrite H1; clear H1 end;
  cbv iota beta.

(** [self.input[start..self.pos]] after a scan, with its checks. *)
Lemma reads_scan_name {A} f e (k : bytes → parser A) (w w2 rest : bytes) a n :
  Forall (λ c, f c = Advance) w → stops f (w2 ++ rest) → w ≠ [] → w2 ++ rest ≠ [] →
  reads (k w) w2 rest a n →
  reads (start ← get_pos;
         scan f;;
         eof ← observe is_eof;
         if (eof : bool) then fail Incomplete
         else
           p ← get_pos;
           if (start =? p)%nat then fail e
           else b ← get_slice start p; k b) (w ++ w2) rest a n.
Proof.
  intros Hw Hs Hne Hr Hk i st Hd Hp Hu Hn. rewrite <- app_assoc in Hd.
  rewrite (bind_Ok _ _ i st (pos st) st) by done.
  rewrite (bind_Ok _ _ i st _ _ (reads_scan f w _ Hw Hs i st Hd Hp Hu ltac:(lia))).
  pose proof (f_equal length Hd) as Hlen. rewrite length_drop, length_app in Hlen.
  assert (length (w2 ++ rest) ≠ 0%nat) by (by destruct (w2 ++ rest)).
  rewrite Z.sub_0_r. unfold mbind at 1, parser_bind at 1, observe, is_eof. cbn [pos].
  rewrite (proj2 (Nat.leb_gt _ _)) by lia.
  unfold mbind at 1, parser_bind at 1, get_pos at 1. cbn [pos].
  rewrite run_nonempty by done.
  rewrite (bind_Ok _ _ i _ w (mkPstate (pos st + length w) (items_left st)))
    by (by eapply get_slice_run).
  rewrite (Hk i); cbn [pos items_left]; [|by apply drop_app_len|lia..].
  f_equal. apply pstate_eq; cbn [pos items_left]; rewrite ?length_app; lia.
Qed.

Lemma find_status s :
  find (λ s', str_eq_ignore_ascii_case (grammar.status_word s) (grammar.status_word s')) STATUSES
  = Some s.
Proof. by destruct s. Qed.

Lemma status_words_atoms s : Forall (λ c, is_atom_char c = true) (grammar.status_word s).
Proof. destruct s; by repeat constructor. Qed.

(** The status keyword before a byte that ends an atom. *)
Lemma status_at_run a t :
  Forall (λ c, is_atom_char c = true) a →
  match t with [] => True | c :: _ => is_atom_char c = false end →
  status_at (a ++ t) =
    find (λ s, str_eq_ignore_ascii_case a (grammar.status_word s)
               && from_option is_boundary true (head t)) STATUSES.
Proof.
  intros Ha Ht. unfold status_at, STATUSES. cbn [find].
  by rewrite !keyword_at_run by (done || apply status_words_atoms).
Qed.

Section responses.
Implicit Types (w rest : bytes).

Lemma reads_status s k rest :
  grammar.keyword (grammar.status_word s) k → stop rest →
  reads try_parse_status_keyword k rest (Some s) 0.
Proof.
  intros Hk Hs i st Hd Hp Hu Hn. rewrite try_parse_status_keyword_at, Hd by done.
  pose proof Hs as (c & t & -> & Ha & Hb & _).
  rewrite status_at_run; [|by eapply keyword_class, Hk; [apply caseless_atom|apply status_words_atoms]|done].
  assert (Hf : find (λ s', str_eq_ignore_ascii_case k (grammar.status_word s')
    && from_option is_boundary true (head (c :: t))) STATUSES = Some s).
  { rewrite <- (find_status s). cbn [STATUSES find head from_option]. rewrite Hb.
    by rewrite !(keyword_cmp _ _ _ Hk), !andb_true_r. }
  rewrite Hf. f_equal. apply pstate_eq; cbn [pos items_left]; [|lia].
  by rewrite (keyword_length _ _ Hk).
Qed.

Lemma reads_no_status rest : status_at rest = None → reads try_parse_status_keyword [] rest None 0.
Proof.
  intros Hn i st Hd Hp Hu _. rewrite try_parse_status_keyword_at, Hd by done. cbn [app]. rewrite Hn.
  f_equal. apply pstate_eq; cbn [pos items_left length]; lia.
Qed.

(** The keywords of response codes are names. *)
Lemma caseless_code : caseless grammar.is_code_char.
Proof. solve_caseless. Qed.

Lemma code_run K w :
  K ≠ [] → Forall (λ c, grammar.is_code_char c && (bval c <? 0x80) = true) K →
  grammar.keyword K w → run_of grammar.is_code_char w.
Proof. apply keyword_run, caseless_code. Qed.

Lemma reads_code_name {A} (k : str → parser A) a w2 rest b n :
  run_of grammar.is_code_char a → head (w2 ++ rest) = Some SP ∨ head (w2 ++ rest) = Some "]"%byte →
  reads (k a) w2 rest b n →
  reads (start ← get_pos;
         scan (λ c, if (c =?b "]"%byte) || (c =?b SP) then Stop
                    else if (c =?b CR) || (c =?b LF) then Return (Malformed "CR/LF inside response code")
                    else Advance);;
         eof ← observe is_eof;
         if (eof : bool) then fail Incomplete
         else
           p ← get_pos;
           if (start =? p)%nat then fail (Malformed "empty response code")
           else
             atom_bytes ← get_slice start p;
             atom ← to_str atom_bytes;
             k atom) (a ++ w2) rest b n.
Proof.
  intros (Hne & Hall & Hu) Hh Hk. apply (reads_scan_name _ _ (λ b, s ← to_str b; k s)).
  - eapply Forall_impl; [exact Hall|]. intros c. unfold grammar.is_code_char. cbn beta.
    by destruct (c =?b "]"%byte), (c =?b SP), (c =?b CR), (c =?b LF).
  - by destruct (w2 ++ rest), Hh as [[= ->]|[= ->]].
  - done.
  - by intros He; rewrite He in Hh; destruct Hh.
  - eapply reads_bind_0; [by apply reads_to_str|done].
Qed.
End responses.

(* ------------------------------------------------------------------ *)
(** ** Response codes and texts                                         *)
(* ------------------------------------------------------------------ *)

Section codes.
Implicit Types (w rest : bytes).

(** A keyword that opens a response code. *)
Lemma reads_code_keyword {A} (f : str → parser A) K k w2 rest b n :
  K ≠ [] → Forall (λ c, grammar.is_code_char c && (bval c <? 0x80) = true) K →
  grammar.keyword K k → head (w2 ++ rest) = Some SP ∨ head (w2 ++ rest) = Some "]"%byte →
  reads (f k) w2 rest b n →
  reads (start ← get_pos;
         scan (λ c, if (c =?b "]"%byte) || (c =?b SP) then Stop
                    else if (c =?b CR) || (c =?b LF) then Return (Malformed "CR/LF inside response code")
                    else Advance);;
         eof ← observe is_eof;
         if (eof : bool) then fail Incomplete
         else
           p ← get_pos;
           if (start =? p)%nat then fail (Malformed "empty response code")
           else
             atom_bytes ← get_slice start p;
             atom ← to_str atom_bytes;
             f atom) (k ++ w2) rest b n.
Proof. intros ? HK Hk ? Hf. apply reads_code_name; [|done..]. by eapply code_run. Qed.

Ltac code_keyword Hk :=
  unfold parse_resp_text_code; eapply reads_code_keyword;
    [| |exact Hk|cbn; auto|is_keyword Hk]; [done|by repeat constructor|].

Lemma bracket_head l w rest :
  grammar.sp_list grammar.atom l w →
  head (w ++ "]"%byte :: rest) = Some SP ∨ head (w ++ "]"%byte :: rest) = Some "]"%byte.
Proof. intros [|]; cbn; auto. Qed.

Lemma reads_g_code c w rest :
  grammar.code c w → reads parse_resp_text_code w ("]"%byte :: rest) c (code_items c).
Proof.
  intros [k Hk|k Hk|k Hk|k Hk|k Hk|k n w' Hk Hn|k n w' Hk Hn|k n w' Hk Hn|k l w' Hk Hl
    |k l w' Hk Hl|k Hk|k l w' Hk Hl|a Ha Hno|a s Ha Hno Hs].
  1-5: rewrite <- (app_nil_r k); code_keyword Hk; apply reads_ret.
  1-3: code_keyword Hk; by apply reads_sp_then, reads_then_ret, reads_g_number; [|apply stop_bracket].
  - unfold parse_resp_text_code. eapply (reads_code_keyword _ (b! "CAPABILITY"));
      [done|by repeat constructor|done|by eapply bracket_head|]. is_keyword Hk.
    by apply reads_then_ret, reads_atoms; [|apply stop_bracket|].
  - code_keyword Hk. by apply reads_sp_then, reads_then_ret, reads_flags.
  - rewrite <- (app_nil_r k). code_keyword Hk.
    apply (reads_bind_0 _ _ _ _ false); [by apply reads_try_miss|].
    apply reads_then_ret. apply (reads_ret []).
  - code_keyword Hk. apply (reads_then _ _ [SP] w' _ true); [apply reads_try_hit|].
    by apply reads_then_ret, reads_flags.
  - apply (reads_eq _ (a ++ []) _ _ _ 0); [|by rewrite app_nil_r|done].
    unfold parse_resp_text_code. apply reads_code_name; [done|cbn; auto|]. not_keyword Hno.
    apply (reads_bind_0 _ _ _ _ false); [by apply reads_try_miss|].
    apply reads_then_ret. apply (reads_ret None).
  - unfold parse_resp_text_code. apply reads_code_name; [done|cbn; auto|].
    not_keyword Hno. apply (reads_then _ _ [SP] s _ true); [apply reads_try_hit|].
    destruct Hs as (? & ? & ? & ?). by apply reads_then_ret, reads_then_ret, reads_read_until_byte.
Qed.

Lemma reads_g_text t w rest : grammar.text t w → reads parse_text w (CR :: rest) t 0.
Proof. intros (-> & ? & ?). by apply reads_parse_text. Qed.

Lemma text_head_crlf t w rest b :
  grammar.text t w → b ≠ CR → head t ≠ Some b → head (w ++ CR :: rest) ≠ Some b.
Proof. intros (-> & _) ??. destruct t; cbn in *; congruence. Qed.

Lemma reads_g_resp_text c t w rest :
  grammar.resp_text c t w → reads parse_resp_text w (CR :: rest) (c, t) (opt_code_items c).
Proof.
  intros [t' w' Ht Hh|c' wc t' w' Hc Ht|c' wc t' w' Hc Ht Hh]; unfold parse_resp_text.
  - apply (reads_bind_0 _ _ _ _ false); [apply reads_try_miss; by eapply text_head_crlf|].
    apply (reads_bind_0 _ _ _ _ None); [apply reads_ret|].
    by apply reads_then_ret, reads_g_text.
  - change (opt_code_items (Some c')) with (code_items c').
    apply (reads_then _ _ (b! "[") _ _ true); [apply reads_try_hit|].
    replace (code_items c') with (code_items c' + 0)%nat by lia.
    replace (wc ++ b! "]" ++ SP :: w') with ((wc ++ b! "]" ++ [SP]) ++ w') by (by rewrite <- !app_assoc).
    eapply reads_bind; [|apply reads_then_ret; by apply reads_g_text].
    replace (code_items c') with (code_items c' + 0)%nat by lia.
    eapply reads_bind; [by apply reads_g_code|].
    eapply (reads_then _ _ (b! "]") [SP]); [apply reads_consume_byte|].
    eapply reads_bind_r; [apply reads_try_hit|apply reads_ret].
  - change (opt_code_items (Some c')) with (code_items c').
    apply (reads_then _ _ (b! "[") _ _ true); [apply reads_try_hit|].
    replace (code_items c') with (code_items c' + 0)%nat by lia. rewrite app_assoc.
    eapply reads_bind; [|apply reads_then_ret; by apply reads_g_text].
    replace (code_items c') with (code_items c' + 0)%nat by lia.
    eapply reads_bind; [by apply reads_g_code|]. rewrite <- (app_nil_r (b! "]")).
    eapply (reads_then _ _ (b! "]") []); [apply reads_consume_byte|].
    eapply reads_bind_r; [apply reads_try_miss; by eapply text_head_crlf|apply reads_ret].
Qed.

Lemma reads_g_after_status c t w rest :
  grammar.after_status c t w →
  reads parse_resp_text_after_keyword w (CR :: rest) (c, t) (opt_code_items c).
Proof.
  intros [|c' t' w' Hw]; unfold parse_resp_text_after_keyword.
  - apply (reads_bind_0 _ _ _ _ false); [by apply reads_try_miss|apply reads_ret].
  - apply (reads_then _ _ [SP] w' _ true); [apply reads_try_hit|by apply reads_g_resp_text].
Qed.

Lemma after_status_stop c t w rest : grammar.after_status c t w → stop (w ++ CR :: rest).
Proof. intros [|]; cbn; auto with reads. Qed.

(** The value, then the CRLF. *)
Lemma reads_crlf_ret {A} (a : A) rest : reads (consume_crlf;; mret a) [CR; LF] rest a 0.
Proof. eapply reads_bind_r; [apply reads_consume_crlf|apply reads_ret]. Qed.
End codes.

(* ------------------------------------------------------------------ *)
(** ** Data                                                             *)
(* ------------------------------------------------------------------ *)

Section data.
Implicit Types (w rest : bytes).

(** [keyword SP value]. *)
Lemma reads_key_number {A} (f : u32 → A) (k : str) n w rest (m : str → parser A) :
  run_of is_atom_char k → grammar.number n w → stop rest →
  (∀ i st, m k i st = (consume_sp;; v ← parse_number; mret (f v)) i st) →
  reads (key ← parse_atom; m key) (k ++ SP :: w) rest (f n) 0.
Proof.
  intros Hk Hn Hs Hm. eapply (reads_then _ _ k).
  - apply reads_parse_atom; [done|]. by apply follows_cons.
  - eapply reads_ext; [exact Hm|]. by apply reads_sp_then, reads_then_ret, reads_g_number.
Qed.

Lemma atom_keyword K w :
  K ≠ [] → Forall (λ c, is_atom_char c && (bval c <? 0x80) = true) K →
  grammar.keyword K w → run_of is_atom_char w.
Proof. apply keyword_run, caseless_atom. Qed.

Ltac atom_word Hk := eapply atom_keyword; [| |exact Hk]; [done|by repeat constructor].

Lemma reads_g_status_item x w rest :
  grammar.status_item x w → stop rest → reads parse_status_item w rest x 0.
Proof.
  intros [k n w' Hk Hn|k n w' Hk Hn|k n w' Hk Hn|k n w' Hk Hn|k n w' Hk Hn|k n w' Hr Hk Hn] Hs;
    unfold parse_status_item;
    (eapply reads_key_number; [|exact Hn|exact Hs|intros i st]; [first [done|atom_word Hk]|]).
  1-5: is_keyword Hk; done.
  not_keyword Hk; done.
Qed.

Lemma head_not_paren P w :
  run_of P w → P ")"%byte = false → ∀ t, ∃ c s, w ++ t = c :: s ∧ c ≠ ")"%byte.
Proof.
  intros (Hne & Hall & _) HP t. destruct w as [|c w]; [done|]. exists c, (w ++ t). split; [done|].
  intros ->. apply Forall_cons in Hall as [? _]. congruence.
Qed.

Lemma status_item_item : reads_item parse_status_item grammar.status_item (λ _, 0%nat).
Proof.
  intros x w H. split; [intros; by apply reads_g_status_item|].
  destruct H as [k n w' Hk|k n w' Hk|k n w' Hk|k n w' Hk|k n w' Hk|k n w' Hr Hk];
    (eapply (head_not_paren is_atom_char); [first [done|atom_word Hk]|done]).
Qed.

Lemma reads_status_items l w rest :
  grammar.paren_list grammar.status_item l w → reads parse_status_items w rest l (length l).
Proof.
  intros H. rewrite <- (list_cnt_zero l). by apply (reads_g_paren_list _ _ _ status_item_item).
Qed.

(** FETCH attributes. *)
Definition is_att_char (c : byte) : bool :=
  negb ((c =?b SP) || (c =?b "["%byte) || (c =?b ")"%byte)).

Lemma caseless_att : caseless is_att_char.
Proof. solve_caseless. Qed.

Lemma att_keyword K w :
  K ≠ [] → Forall (λ c, is_att_char c && (bval c <? 0x80) = true) K →
  grammar.keyword K w → run_of is_att_char w.
Proof. apply keyword_run, caseless_att. Qed.

Ltac att_word Hk := eapply att_keyword; [| |exact Hk]; [done|by repeat constructor].

Lemma reads_att_name k rest :
  run_of is_att_char k → head rest = Some SP ∨ head rest = Some "["%byte →
  reads parse_fetch_att_name k rest k 0.
Proof.
  intros (Hne & Hall & Hu) Hh. rewrite <- (app_nil_r k) at 1.
  apply (reads_scan_name _ _ (λ b, to_str b)).
  - eapply Forall_impl; [exact Hall|]. intros c. unfold is_att_char. cbn beta.
    by destruct (c =?b SP), (c =?b "["%byte), (c =?b ")"%byte).
  - by destruct rest, Hh as [[= ->]|[= ->]].
  - done.
  - by intros He; cbn in He; rewrite He in Hh; destruct Hh.
  - by apply reads_to_str.
Qed.

Lemma reads_g_origin og wo w rest :
  grammar.origin og wo →
  reads (lt ← try_consume_byte "<"%byte;
         if (lt : bool) then
           n ← parse_number;
           consume_byte ">"%byte;;
           mret (Some n)
         else mret None) wo (SP :: w ++ rest) og 0.
Proof.
  intros [|n w' Hn].
  - apply (reads_bind_0 _ _ _ _ false); [by apply reads_try_miss|apply reads_ret].
  - apply (reads_then _ _ (b! "<") _ _ true); [apply reads_try_hit|].
    eapply (reads_then _ _ w'); [by apply reads_digits|].
    eapply reads_bind_r; [apply reads_consume_byte|apply reads_ret].
Qed.

Lemma bind_assoc {A B C} (m : parser A) (f : A → parser B) (h : B → parser C) i st :
  ((m ≫= f) ≫= h) i st = (m ≫= λ a, f a ≫= h) i st.
Proof. unfold mbind, parser_bind. by destruct (m i st). Qed.

Lemma reads_body_section s og wo o w rest :
  grammar.bracket_text s → grammar.origin og wo → grammar.nbytes o w → stop rest →
  reads parse_body_section (s ++ b! "]" ++ wo ++ SP :: w) rest
    (FA_BodySection (grammar.section_of s) og o) 0.
Proof.
  intros (? & ? & ? & ?) Ho Hb Hs. unfold parse_body_section.
  apply (reads_then _ _ s _ _ s); [by apply reads_read_until_byte|].
  apply (reads_then _ _ (b! "]") _ _ tt); [apply reads_consume_byte|].
  eapply reads_ext; [intros i st; symmetry; apply bind_assoc|].
  eapply (reads_then _ _ wo (SP :: w)); [by apply (reads_g_origin _ _ w)|].
  by apply reads_sp_then, reads_then_ret, reads_g_nbytes.
Qed.

Lemma reads_g_attribute a w rest :
  grammar.attribute a w → stop rest → reads parse_one_fetch_att w rest a (attr_items a).
Proof.
  intros [k n w' Hk Hn|k l w' Hk Hl|k s w' Hk Hw|k n w' Hk Hn|k o w' Hk Hw|k o w' Hk Hw|k o w' Hk Hw
    |k b w' Hk Hw|k b w' Hk Hw|k b w' Hk Hw|k s og wo o w' Hk Hb Ho Hw] Hs;
    unfold parse_one_fetch_att;
    (eapply (reads_then _ _ k); [apply reads_att_name; [att_word Hk|cbn; auto]|is_keyword Hk]).
  1-9: apply reads_sp_then, reads_then_ret;
    first [by apply reads_g_number|by apply reads_flags|by apply reads_g_quoted
          |by apply reads_g_nbytes_empty|by apply reads_g_parens].
  - apply (reads_bind_0 _ _ _ _ false); [by apply reads_try_miss|].
    by apply reads_sp_then, reads_then_ret, reads_g_parens.
  - apply (reads_then _ _ (b! "[") _ _ true); [apply reads_try_hit|]. by apply reads_body_section.
Qed.

Lemma attribute_item : reads_item parse_one_fetch_att grammar.attribute attr_items.
Proof.
  intros a w H. split; [intros; by apply reads_g_attribute|].
  destruct H as [k ?? Hk|k ?? Hk|k ?? Hk|k ?? Hk|k ?? Hk|k ?? Hk|k ?? Hk|k ?? Hk|k ?? Hk|k ?? Hk
    |k ????? Hk]; (eapply (head_not_paren is_att_char); [att_word Hk|done]).
Qed.

Lemma reads_attributes l w rest :
  grammar.paren_list grammar.attribute l w →
  reads parse_fetch_msg_att w rest l (list_cnt attr_items l).
Proof. by apply (reads_g_paren_list _ _ _ attribute_item). Qed.
End data.

(* ------------------------------------------------------------------ *)
(** ** Responses                                                        *)
(* ------------------------------------------------------------------ *)

Section lines.
Implicit Types (w rest : bytes).

Lemma reads_get_pos {B} (k : nat → parser B) w rest b n :
  (∀ p, reads (k p) w rest b n) → reads (get_pos ≫= k) w rest b n.
Proof. intros H i st ????. unfold mbind, parser_bind, get_pos. by apply H. Qed.

(** The end of both methods that keep a line as it is: [w] is what the cursor
    has passed since [p]. *)
Lemma kept_line i st p w t rest :
  drop p i = w ++ t ++ [CR; LF] ++ rest → (p ≤ length i)%nat → Z.of_nat (length i) <= usize_max →
  0 <= items_left st → pos st = (p + length w)%nat → CR ∉ t →
  (scan (λ c, if c =?b CR then Stop else Advance);;
   q ← get_pos;
   line ← get_slice p q;
   consume_crlf;;
   mret (Resp_Data (DR_Other line))) i st
  = Ok (Resp_Data (DR_Other (w ++ t))) (mkPstate (pos st + length t + 2) (items_left st)).
Proof.
  intros Hd Hp Hu Hn Hpos Ht.
  pose proof (drop_app_len _ _ _ _ Hd) as Hd1. rewrite <- Hpos in Hd1.
  pose proof (f_equal length Hd) as Hlen. rewrite length_drop, !length_app in Hlen. cbn in Hlen.
  rewrite (bind_Ok _ _ i st tt (mkPstate (pos st + length t) (items_left st))).
  2: { rewrite (reads_scan _ t ([CR; LF] ++ rest)) by
         (try done; try lia; apply Forall_forall; intros c Hc; destruct (byte_eqb_spec c CR); congruence).
       f_equal. apply pstate_eq; cbn [pos items_left]; lia. }
  rewrite (bind_Ok _ _ i _ (pos st + length t)%nat _) by done.
  rewrite (bind_Ok _ _ i _ (w ++ t) (mkPstate (pos st + length t) (items_left st))).
  2: { apply (get_slice_run i _ p (w ++ t) ([CR; LF] ++ rest)); [by rewrite <- app_assoc|done|].
       rewrite length_app. lia. }
  rewrite (reads_crlf_ret _ rest); cbn [pos items_left length]; [|by apply drop_app_len|lia..].
  f_equal. apply pstate_eq; cbn [pos items_left]; lia.
Qed.

Lemma unread_tail_follows t rest :
  grammar.unread_tail t → follows is_atom_char (t ++ [CR; LF] ++ rest).
Proof. intros [_ Ht]. destruct t; by apply follows_cons. Qed.

Lemma reads_kept_named k t rest :
  run_of is_atom_char k → grammar.no_keyword grammar.NAMED k → grammar.unread_tail t →
  reads parse_named_data_response (k ++ t ++ [CR; LF]) rest (Resp_Data (DR_Other (k ++ t))) 0.
Proof.
  intros Hk Hno Ht i st Hd Hp Hu Hn. rewrite <- !app_assoc in Hd.
  pose proof (f_equal length Hd) as Hlen. rewrite length_drop, !length_app in Hlen.
  unfold parse_named_data_response. rewrite (bind_Ok _ _ i st (pos st) st) by done.
  rewrite (bind_Ok _ _ i st k (mkPstate (pos st + length k) (items_left st - Z.of_nat 0))).
  2: { apply (reads_parse_atom k (t ++ [CR; LF] ++ rest)); [done|by apply unread_tail_follows|done..]. }
  not_keyword Hno. rewrite (kept_line i _ (pos st) k t rest); cbn [pos items_left];
    [|done|done|done|lia|done|by destruct Ht].
  f_equal. apply pstate_eq; cbn [pos items_left]; rewrite ?length_app; cbn [length]; lia.
Qed.

(** A data response whose line is not kept. *)
Lemma reads_finish {A} (m : parser A) (f : A → DataResponse) w rest a n :
  reads m w ([CR; LF] ++ rest) a n →
  reads (x ← m; consume_crlf;; mret (Resp_Data (f x))) (w ++ [CR; LF]) rest (Resp_Data (f a)) n.
Proof.
  intros H. replace n with (n + 0)%nat by lia. eapply reads_bind; [exact H|apply reads_crlf_ret].
Qed.

Lemma reads_mailbox_list fl d name w rest :
  grammar.mailbox_list fl d name w → stop rest →
  reads parse_list_lsub_body w rest (fl, d, name) (length fl).
Proof.
  intros (wf & wd & wn & Hf & Hd & Hn & ->) Hs. unfold parse_list_lsub_body.
  replace (length fl) with (length fl + 0)%nat by lia.
  eapply reads_bind; [by apply reads_flags|]. apply reads_sp_then.
  eapply (reads_then _ _ wd (SP :: wn)); [apply reads_g_nstring; [done|apply stop_sp]|].
  by apply reads_sp_then, reads_then_ret, reads_g_astring.
Qed.

Lemma reads_named_keyword {A} (f : nat → str → parser A) K k w rest b n :
  K ≠ [] → Forall (λ c, is_atom_char c && (bval c <? 0x80) = true) K → grammar.keyword K k →
  stop (w ++ rest) → (∀ p, reads (f p k) w rest b n) →
  reads (p ← get_pos; name ← parse_atom; f p name) (k ++ w) rest b n.
Proof.
  intros ? HK Hk Hs Hf. apply reads_get_pos. intros p. eapply (reads_then _ _ k); [|done].
  apply reads_parse_atom; [by eapply atom_keyword|by apply stop_atom].
Qed.

Lemma sp_list_stop {T} (g : T → bytes → Prop) l w rest :
  grammar.sp_list g l w → stop (w ++ CR :: rest).
Proof. intros [|]; cbn; auto with reads. Qed.

Ltac named Hk := eapply reads_named_keyword; [| |exact Hk| |intros p; is_keyword Hk];
  [done|by repeat constructor| |].

(** The named data responses the parser knows. *)
Inductive known_named : DataResponse → Prop :=
| known_capability l : known_named (DR_Capability l)
| known_list fl d m : known_named (DR_List fl d m)
| known_lsub fl d m : known_named (DR_Lsub fl d m)
| known_status m l : known_named (DR_Status m l)
| known_search l : known_named (DR_Search l)
| known_flags l : known_named (DR_Flags l).

Lemma reads_g_named d w rest :
  grammar.data d w → known_named d →
  reads parse_named_data_response (w ++ [CR; LF]) rest (Resp_Data d) (data_items d).
Proof.
  intros [k l w' Hk Hl|k fl d' m w' Hk Hl|k fl d' m w' Hk Hl|k m wm l w' Hk Hm Hl|k l w' Hk Hl
    |k l w' Hk Hl| | | | | |]; inversion 1;
    unfold parse_named_data_response; rewrite <- ?app_assoc; cbn [app data_items].
  - named Hk; [rewrite <- app_assoc; by eapply sp_list_stop|].
    apply reads_finish. by apply reads_atoms; [|apply stop_cr|].
  - named Hk; [apply stop_sp|]. apply reads_sp_then.
    replace (length fl) with (length fl + 0)%nat by lia.
    eapply reads_bind; [apply reads_mailbox_list; [done|apply stop_cr]|apply reads_crlf_ret].
  - named Hk; [apply stop_sp|]. apply reads_sp_then.
    replace (length fl) with (length fl + 0)%nat by lia.
    eapply reads_bind; [apply reads_mailbox_list; [done|apply stop_cr]|apply reads_crlf_ret].
  - named Hk; [apply stop_sp|]. apply reads_sp_then. rewrite <- app_assoc. cbn [app].
    eapply (reads_then _ _ wm); [apply reads_g_astring; [done|apply stop_sp]|].
    apply reads_sp_then. apply reads_finish. by apply reads_status_items.
  - named Hk; [rewrite <- app_assoc; by eapply sp_list_stop|].
    apply reads_finish. by apply reads_numbers; [|apply stop_cr|].
  - named Hk; [apply stop_sp|]. apply reads_sp_then, reads_finish. by apply reads_flags.
Qed.
End lines.

(** The same from a given point of the input: what the cursor has passed is
    [pre]. *)
Definition reads_after {A} (pre : bytes) (m : parser A) (w rest : bytes) (a : A) (n : nat) : Prop :=
  ∀ i st,
    i = pre ++ w ++ rest → pos st = length pre → Z.of_nat (length i) <= usize_max →
    Z.of_nat n <= items_left st →
    m i st = Ok a (mkPstate (pos st + length w) (items_left st - Z.of_nat n)).

Section response.
Implicit Types (w rest : bytes).

Lemma reads_reads_after {A} pre (m : parser A) w rest a n :
  reads m w rest a n → reads_after pre m w rest a n.
Proof.
  intros H i st -> Hp Hu Hn. apply (H _ st); try done; rewrite Hp.
  - apply drop_app_length.
  - rewrite length_app. lia.
Qed.

Lemma reads_after_bind {A B} pre (m : parser A) (k : A → parser B) w1 w2 rest a b n :
  reads m w1 (w2 ++ rest) a 0 → reads_after (pre ++ w1) (k a) w2 rest b n →
  reads_after pre (m ≫= k) (w1 ++ w2) rest b n.
Proof.
  intros Hm Hk i st Hi Hp Hu Hn. rewrite <- app_assoc in Hi.
  rewrite (bind_Ok _ _ _ _ _ _ (reads_reads_after pre _ _ _ _ _ Hm i st Hi Hp Hu ltac:(lia))).
  rewrite (Hk i); cbn [pos items_left]; [|by rewrite <- app_assoc|rewrite length_app; lia|done|lia].
  f_equal. apply pstate_eq; cbn [pos items_left]; rewrite ?length_app; lia.
Qed.

Lemma reads_peek_byte c rest : reads (try_ peek) [] (c :: rest) c 0.
Proof.
  intros i st Hd _ _ _. unfold try_, peek. rewrite (drop_head _ _ _ _ Hd).
  f_equal. apply pstate_eq; cbn [pos items_left length]; lia.
Qed.

Lemma reads_not_eof c rest : reads (observe is_eof) [] (c :: rest) false 0.
Proof.
  intros i st Hd _ _ _. pose proof (f_equal length Hd) as Hl. rewrite length_drop in Hl. cbn in Hl.
  unfold observe, is_eof. rewrite (proj2 (Nat.leb_gt _ _)) by lia.
  f_equal. apply pstate_eq; cbn [pos items_left length]; lia.
Qed.

(** The known numbered data responses. *)
Inductive known_numbered : DataResponse → Prop :=
| known_exists n : known_numbered (DR_Exists n)
| known_recent n : known_numbered (DR_Recent n)
| known_expunge n : known_numbered (DR_Expunge n)
| known_fetch n l : known_numbered (DR_Fetch n l).

Ltac numbered Hn Hk wn :=
  eapply (reads_then _ _ wn); [apply reads_g_number; [exact Hn|apply stop_sp]|]; apply reads_sp_then;
  eapply reads_then;
  [apply reads_parse_atom; [eapply atom_keyword; [| |exact Hk]; [done|by repeat constructor]|
     by apply follows_cons]
  |is_keyword Hk].

Lemma reads_g_numbered d w rest :
  grammar.data d w → known_numbered d →
  reads parse_numeric_data_response (w ++ [CR; LF]) rest (Resp_Data d) (data_items d).
Proof.
  intros [| | | | | |n wn k Hn Hk|n wn k Hn Hk|n wn k Hn Hk|n wn k l w' Hn Hk Hl| |]; inversion 1;
    unfold parse_numeric_data_response; rewrite <- ?app_assoc; cbn [app data_items].
  1-3: numbered Hn Hk wn; apply reads_crlf_ret.
  rewrite <- app_assoc. cbn [app]. numbered Hn Hk wn. apply reads_sp_then.
  replace (length l + _)%nat with (list_cnt attr_items l + 0)%nat by (unfold list_cnt; lia).
  eapply reads_bind; [by apply reads_attributes|apply reads_crlf_ret].
Qed.

(** The line of an unknown numbered response starts at the start of the
    input. *)
Lemma reads_kept_numbered n wn k t rest :
  grammar.number n wn → run_of is_atom_char k → grammar.no_keyword grammar.NUMBERED k →
  grammar.unread_tail t →
  reads_after (b! "* ") parse_numeric_data_response (wn ++ SP :: k ++ t ++ [CR; LF]) rest
    (Resp_Data (DR_Other (b! "* " ++ wn ++ SP :: k ++ t))) 0.
Proof.
  intros Hn Hk Hno Ht. unfold parse_numeric_data_response.
  eapply reads_after_bind; [apply reads_g_number; [exact Hn|apply stop_sp]|].
  eapply (reads_after_bind _ _ _ [SP]); [apply reads_consume_sp|].
  eapply reads_after_bind.
  { apply reads_parse_atom; [done|]. rewrite <- app_assoc. by apply unread_tail_follows. }
  not_keyword Hno. intros i st Hi Hp Hu Hle. unfold finish_other_data_with_prefix.
  set (w := (((b! "* " ++ wn) ++ [SP]) ++ k)) in *.
  rewrite (bind_Ok _ _ i st 0%nat st).
  2: { unfold observe, find_current_line_start. rewrite line_start_from_zero; [done|].
       rewrite Hi, Hp, take_app_length. subst w. rewrite !not_elem_of_app.
       destruct Hn as (_ & Hd & _), Hk as (_ & Ha & _). split_and!; try by apply (bool_decide_unpack _).
       - intros Hin. rewrite Forall_forall in Hd. by apply Hd in Hin.
       - intros Hin. rewrite Forall_forall in Ha. by apply Ha in Hin. }
  rewrite (kept_line i st 0 w t rest); [|by rewrite Hi, <- app_assoc|lia|done|lia|done|by destruct Ht].
  subst w. rewrite <- !app_assoc. cbn [app].
  f_equal. apply pstate_eq; cbn [pos items_left]; rewrite ?length_app; cbn [length]; lia.
Qed.

(** No data response starts with a status keyword. *)
Lemma no_keyword_find a b (l : list Status) :
  grammar.no_keyword KEYWORDS a ∨ b = false →
  find (λ s, str_eq_ignore_ascii_case a (grammar.status_word s) && b) l = None.
Proof.
  intros H. induction l as [|s l IH]; [done|]. cbn [find]. rewrite IH.
  destruct H as [H| ->]; [|by rewrite andb_false_r]. unfold grammar.no_keyword in H.
  rewrite Forall_forall in H. rewrite H; [done|]. destruct s; unfold KEYWORDS; set_solver.
Qed.

Lemma keyword_no_status K k t :
  grammar.keyword K k → Forall (λ c, is_atom_char c = true) K → stop t →
  Forall (λ s, str_eq_ignore_ascii_case K (grammar.status_word s) = false) STATUSES →
  status_at (k ++ t) = None.
Proof.
  intros Hk HK (c & t' & -> & Ha & _) Hno.
  rewrite status_at_run; [|by eapply keyword_class, Hk; [apply caseless_atom|]|done].
  induction Hno as [|s l Hs _ IH]; [done|]. cbn [find]. by rewrite (keyword_cmp _ _ _ Hk), Hs.
Qed.

Lemma digits_no_keyword n w : grammar.number n w → grammar.no_keyword KEYWORDS w.
Proof.
  intros (Hne & Hd & _). apply Forall_forall. intros K HK. rewrite str_eq_lower.
  apply bool_decide_eq_false. intros He. destruct w as [|c w]; [done|].
  assert (Hc : to_ascii_lowercase c ∈ lower K) by (rewrite <- He; by left).
  apply (keyword_bytes K c HK) in Hc as [_ Hc]. apply Forall_cons in Hd as [? _]. congruence.
Qed.

Lemma digits_atoms n w : grammar.number n w → Forall (λ c, is_atom_char c = true) w.
Proof.
  intros (_ & Hd & _). eapply Forall_impl; [exact Hd|]. intros c. by destruct c; vm_compute.
Qed.

Lemma number_no_status n w t : grammar.number n w → status_at (w ++ SP :: t) = None.
Proof.
  intros Hn. rewrite status_at_run; [|by eapply digits_atoms|done].
  apply no_keyword_find. left. by eapply digits_no_keyword.
Qed.

Lemma data_no_status d w rest : grammar.data d w → status_at (w ++ CR :: rest) = None.
Proof.
  intros [k l w' Hk Hl|k ? ? ? w' Hk|k ? ? ? w' Hk|k ? ? ? w' Hk|k l w' Hk Hl|k ? w' Hk
    |? ? ? Hn|? ? ? Hn|? ? ? Hn|? ? ? ? ? Hn|? ? ? ? Hn|k t Hr _ Ht _ Hno]; rewrite <- ?app_assoc; cbn [app].
  7-11: by eapply number_no_status.
  1-6: (eapply keyword_no_status; [exact Hk|by repeat constructor| |by repeat constructor]).
  1,5: by eapply sp_list_stop.
  1-4: apply stop_sp.
  destruct Hr as (_ & Ha & _), Ht as [_ Ht]. rewrite status_at_run; [|done|by destruct t].
  apply no_keyword_find. destruct Hno as [Hno|Hno]; [by left|right]. by destruct t.
Qed.
End response.

Section response.
Implicit Types (w rest : bytes).

Lemma named_head K k w : grammar.keyword K k → K ≠ [] →
  Forall (λ c, negb (is_ascii_digit c) = true) K → ∃ c t, k ++ w = c :: t ∧ is_ascii_digit c = false.
Proof.
  intros Hk Hne HK. pose proof (keyword_length _ _ Hk) as Hl.
  assert (Hd : Forall (λ c, negb (is_ascii_digit c) = true) k).
  { apply (keyword_class (λ c, negb (is_ascii_digit c)) K); [solve_caseless|done..]. }
  destruct k as [|c k]; [by destruct K|]. exists c, (k ++ w). split; [done|].
  apply Forall_cons in Hd as [Hd _]. by apply negb_true_iff.
Qed.

Lemma number_head n wn w :
  grammar.number n wn → ∃ c t, wn ++ w = c :: t ∧ is_ascii_digit c = true.
Proof.
  intros (Hne & Hd & _). destruct wn as [|c wn]; [done|]. exists c, (wn ++ w). split; [done|].
  by apply Forall_cons in Hd as [? _].
Qed.

(** A decision on the first byte of the data. *)
Lemma reads_digit_case {A} pre (m1 m2 : parser A) (digit : bool) w rest a n :
  (∃ c t, w = c :: t ∧ is_ascii_digit c = digit) →
  reads_after pre (if digit then m1 else m2) w rest a n →
  reads_after pre (c ← try_ peek; if is_ascii_digit c then m1 else m2) w rest a n.
Proof.
  intros (c & t & -> & Hc) Hm. apply (reads_after_bind pre _ _ [] (c :: t) _ c);
    [apply reads_peek_byte|]. rewrite app_nil_r, Hc. by destruct digit.
Qed.

Lemma reads_g_data d w rest :
  grammar.data d w →
  reads_after (b! "* ")
    (c ← try_ peek;
     if is_ascii_digit c then parse_numeric_data_response else parse_named_data_response)
    (w ++ [CR; LF]) rest (Resp_Data d) (data_items d).
Proof.
  intros H. pose proof H as Hd.
  destruct H as [k l w' Hk Hl|k ? ? ? w' Hk|k ? ? ? w' Hk|k ? ? ? w' Hk|k l w' Hk Hl|k ? w' Hk
    |? ? ? Hn|? ? ? Hn|? ? ? Hn|? ? ? ? ? Hn|? ? ? ? Hn Hr Hno Ht|k t Hr Hno Ht Hh _].
  1-6: apply (reads_digit_case _ _ _ false);
    [rewrite <- ?app_assoc; eapply named_head; [exact Hk|done|by repeat constructor]
    |apply reads_reads_after, reads_g_named; [done|constructor]].
  1-4: apply (reads_digit_case _ _ _ true);
    [rewrite <- ?app_assoc; by eapply number_head
    |apply reads_reads_after, reads_g_numbered; [done|constructor]].
  - apply (reads_digit_case _ _ _ true); [rewrite <- ?app_assoc; by eapply number_head|].
    rewrite <- !app_assoc. cbn [app]. rewrite <- !app_assoc. by eapply reads_kept_numbered.
  - apply (reads_digit_case _ _ _ false).
    + destruct Hr as [Hne _]. destruct k as [|c k]; [done|]. by exists c, ((k ++ t) ++ [CR; LF]).
    + rewrite <- app_assoc. by apply reads_reads_after, reads_kept_named.
Qed.

Lemma reads_g_untagged_status s k c t w rest :
  grammar.keyword (grammar.status_word s) k → grammar.after_status c t w →
  reads parse_untagged (b! "* " ++ k ++ w ++ [CR; LF]) rest
    (Resp_Status (mkStatusResponse None s c t)) (opt_code_items c).
Proof.
  intros Hk Hw. unfold parse_untagged.
  eapply (reads_then _ _ (b! "*") (SP :: k ++ w ++ [CR; LF])); [apply reads_consume_byte|].
  apply reads_sp_then. eapply (reads_then _ _ k).
  { apply reads_status; [done|]. rewrite <- app_assoc. by eapply after_status_stop. }
  replace (opt_code_items c) with (opt_code_items c + 0)%nat by lia.
  eapply reads_bind; [by apply reads_g_after_status|apply reads_crlf_ret].
Qed.

Lemma reads_g_untagged_data d w rest :
  grammar.data d w →
  reads_after [] parse_untagged (b! "* " ++ w ++ [CR; LF]) rest (Resp_Data d) (data_items d).
Proof.
  intros Hd. unfold parse_untagged.
  apply (reads_after_bind [] _ _ (b! "*") (SP :: w ++ [CR; LF]) _ tt); [apply reads_consume_byte|].
  apply (reads_after_bind _ _ _ [SP] (w ++ [CR; LF]) _ tt); [apply reads_consume_byte|].
  apply (reads_after_bind _ _ _ [] (w ++ [CR; LF]) _ None); [|by apply reads_g_data].
  apply reads_no_status. rewrite <- app_assoc. by eapply data_no_status.
Qed.

Lemma reads_g_tagged tg wt s k c t w rest :
  grammar.tag tg wt → grammar.keyword (grammar.status_word s) k → grammar.after_status c t w →
  reads parse_tagged (wt ++ SP :: k ++ w ++ [CR; LF]) rest
    (Resp_Status (mkStatusResponse (Some tg) s c t)) (opt_code_items c).
Proof.
  intros (-> & Ht & _) Hk Hw. unfold parse_tagged.
  eapply (reads_then _ _ tg); [apply reads_parse_tag; [done|by apply follows_cons]|].
  apply reads_sp_then. eapply (reads_then _ _ k).
  { apply reads_status; [done|]. rewrite <- app_assoc. by eapply after_status_stop. }
  apply (reads_bind_0 _ _ _ _ s); [apply reads_ret|].
  replace (opt_code_items c) with (opt_code_items c + 0)%nat by lia.
  eapply reads_bind; [by apply reads_g_after_status|apply reads_crlf_ret].
Qed.

Lemma reads_g_continue c t w rest :
  grammar.resp_text c t w →
  reads parse_continue_req (b! "+ " ++ w ++ [CR; LF]) rest
    (Resp_Continue (mkContinueReq c t)) (opt_code_items c).
Proof.
  intros Hw. unfold parse_continue_req.
  eapply (reads_then _ _ (b! "+") (SP :: w ++ [CR; LF])); [apply reads_consume_byte|].
  apply reads_sp_then. replace (opt_code_items c) with (opt_code_items c + 0)%nat by lia.
  eapply reads_bind; [by apply reads_g_resp_text|apply reads_crlf_ret].
Qed.

(** The dispatch on the first byte. *)
Lemma reads_first (m : parser Response) c w rest r n :
  reads_after [] m (c :: w) rest r n →
  m = (if c =?b "+"%byte then parse_continue_req
       else if c =?b "*"%byte then parse_untagged else parse_tagged) →
  reads_after [] Parser.parse_response (c :: w) rest r n.
Proof.
  intros Hm ->. unfold Parser.parse_response.
  apply (reads_after_bind [] _ _ [] (c :: w) _ false); [apply reads_not_eof|].
  by apply (reads_after_bind [] _ _ [] (c :: w) _ c); [apply reads_peek_byte|].
Qed.

Lemma reads_g_response r w rest :
  grammar.response r w → reads_after [] Parser.parse_response w rest r (response_items r).
Proof.
  intros (l & Hl & ->).
  destruct Hl as [c t w Hw|tg wt s k c t w Ht Hk Hw|s k c t w Hk Hw|d w Hd];
    rewrite <- ?app_assoc; cbn [app].
  - eapply reads_first; [|done]. by apply reads_reads_after, reads_g_continue.
  - rewrite <- app_assoc. pose proof Ht as (-> & (Hne & _) & Hp & Hs).
    destruct tg as [|x tg]; [done|]. cbn [head app] in *. eapply reads_first.
    + apply reads_reads_after. by apply (reads_g_tagged (x :: tg) (x :: tg)).
    + destruct (byte_eqb_spec x "+"%byte) as [->|_]; [done|].
      by destruct (byte_eqb_spec x "*"%byte) as [->|_].
  - eapply reads_first; [|done]. by apply reads_reads_after, reads_g_untagged_status.
  - eapply reads_first; [|done]. by apply reads_g_untagged_data.
Qed.

(** Every response of the grammar is read, whatever follows it. *)
Lemma grammar_complete r w rest :
  grammar.response r w → Z.of_nat (response_items r) <= MAX_ITEMS_PER_RESPONSE →
  Z.of_nat (length (w ++ rest)) <= usize_max →
  ResponseParser.parse_response (w ++ rest) = Parsed rest r.
Proof.
  intros Hw Hn Hu. unfold ResponseParser.parse_response.
  rewrite (bind_Ok _ _ _ _ r (mkPstate (length w) (MAX_ITEMS_PER_RESPONSE - Z.of_nat (response_items r)))).
  - unfold mbind, parser_bind. rewrite remaining_eq. cbn [pos].
    rewrite (proj2 (Nat.leb_le _ _)) by (rewrite length_app; lia). cbn. by rewrite drop_app_length.
  - by apply (reads_g_response r w rest Hw (w ++ rest) Parser.new).
Qed.

(** One with more list elements than the budget is refused as such. *)
Lemma grammar_over_budget r w rest :
  grammar.response r w → MAX_ITEMS_PER_RESPONSE < Z.of_nat (response_items r) →
  Z.of_nat (length (w ++ rest)) <= usize_max →
  ResponseParser.parse_response (w ++ rest) = ParseErr (TooManyItems MAX_ITEMS_PER_RESPONSE).
Proof.
  intros Hw Hn Hu. set (n := Z.of_nat (response_items r)) in *.
  assert (Hr : Parser.parse_response (w ++ rest) (mkPstate 0 n) = Ok r (mkPstate (length w) (n - n)))
    by by apply (reads_g_response r w rest Hw (w ++ rest) (mkPstate 0 n)).
  apply budgeted_response in Hr as [_ Hr]. cbn [items_left pos] in Hr.
  unfold ResponseParser.parse_response, mbind, parser_bind, Parser.new.
  rewrite (Hr MAX_ITEMS_PER_RESPONSE) by done. by rewrite (proj2 (Z.ltb_lt _ _)) by lia.
Qed.

(** No line stands for two responses. *)
Lemma grammar_unambiguous w (r1 r2 : Response) :
  Z.of_nat (length w) <= usize_max → grammar.response r1 w → grammar.response r2 w → r1 = r2.
Proof.
  intros Hu H1 H2. set (n := Z.of_nat (response_items r1) + Z.of_nat (response_items r2)).
  rewrite <- (app_nil_r w) in Hu.
  assert (P1 : Parser.parse_response (w ++ []) (mkPstate 0 n) = Ok r1 (mkPstate (length w) (n - Z.of_nat (response_items r1))))
    by (apply (reads_g_response r1 w [] H1 _ (mkPstate 0 n)); cbn [items_left]; (done || lia)).
  assert (P2 : Parser.parse_response (w ++ []) (mkPstate 0 n) = Ok r2 (mkPstate (length w) (n - Z.of_nat (response_items r2))))
    by (apply (reads_g_response r2 w [] H2 _ (mkPstate 0 n)); cbn [items_left]; (done || lia)).
  rewrite P1 in P2. by injection P2.
Qed.
End response.
