(* ===== verification/GrammarSound.v ===== *)
(** The parser reads nothing but the grammar: when a method returns a value,
    the bytes the cursor moved over stand for it. The input is split at the
    cursor ([yields]); one lemma per method, in the database [yields]. *)

From S2P Require Import Prelude Str Ast Monad ResponseParser ParserSafety ParserStream.
From S2P Require Import ParserLocal ParserTheorems ParserRead Grammar GrammarComplete.
From stdpp Require Import options.
Import Parser.

(** [m], with [pre] behind the cursor and [r] before it, returns only values
    [a] with [Q a w rest], where [w] is what the cursor has moved over and
    [rest] what is left of [r]. *)
Definition yields {A} (pre r : bytes) (m : parser A) (Q : A → bytes → bytes → Prop) : Prop :=
  ∀ st a st',
    pos st = length pre → 0 <= items_left st → Z.of_nat (length (pre ++ r)) <= usize_max →
    m (pre ++ r) st = Ok a st' →
    0 <= items_left st' ∧ ∃ w rest, r = w ++ rest ∧ pos st' = length (pre ++ w) ∧ Q a w rest.

Section rules.
Implicit Types (pre r w rest : bytes).

Lemma y_ret {A} pre r (a : A) (Q : A → bytes → bytes → Prop) : Q a [] r → yields pre r (mret a) Q.
Proof.
  intros HQ st a' st' Hp Hn _ [= <- <-]. split; [done|]. exists [], r. by rewrite app_nil_r.
Qed.

Lemma y_fail {A} pre r e (Q : A → bytes → bytes → Prop) : yields pre r (fail e) Q.
Proof. done. Qed.

Lemma y_mono {A} pre r (m : parser A) (Q Q' : A → bytes → bytes → Prop) :
  yields pre r m Q → (∀ a w rest, r = w ++ rest → Q a w rest → Q' a w rest) → yields pre r m Q'.
Proof.
  intros Hm HQ st a st' Hp Hn Hu Hr. destruct (Hm st a st' Hp Hn Hu Hr) as (? & w & rest & ? & ? & ?).
  split; [done|]. exists w, rest. auto.
Qed.

Lemma y_bind {A B} pre r (m : parser A) (k : A → parser B) Q1 (Q : B → bytes → bytes → Prop) :
  yields pre r m Q1 →
  (∀ a w r1, r = w ++ r1 → Q1 a w r1 →
     yields (pre ++ w) r1 (k a) (λ b w2 rest, Q b (w ++ w2) rest)) →
  yields pre r (m ≫= k) Q.
Proof.
  intros Hm Hk st b st' Hp Hn Hu. unfold mbind, parser_bind.
  destruct (m (pre ++ r) st) as [a st1| | |] eqn:Hr; try done. intros Hr2.
  destruct (Hm st a st1 Hp Hn Hu Hr) as (Hn1 & w & r1 & -> & Hp1 & HQ1).
  destruct (Hk a w r1 eq_refl HQ1 st1 b st' Hp1 Hn1) as (Hn2 & w2 & rest & -> & Hp2 & HQ).
  { by rewrite <- app_assoc. }
  { by rewrite <- app_assoc. }
  split; [done|]. exists (w ++ w2), rest. rewrite <- !app_assoc in *. auto.
Qed.

(** The cursor does not move. *)
Lemma y_bind_0 {A B} pre r (m : parser A) (k : A → parser B) (P : A → Prop) Q :
  (∀ st a st', pos st = length pre → 0 <= items_left st → m (pre ++ r) st = Ok a st' →
     pos st' = pos st ∧ 0 <= items_left st' ∧ P a) →
  (∀ a, P a → yields pre r (k a) Q) → yields pre r (m ≫= k) Q.
Proof.
  intros Hm Hk st b st' Hp Hn Hu. unfold mbind, parser_bind.
  destruct (m (pre ++ r) st) as [a st1| | |] eqn:Hr; try done. intros Hr2.
  destruct (Hm st a st1 Hp Hn Hr) as (Hp1 & Hn1 & HP). eapply (Hk a HP st1); congruence.
Qed.

Lemma y_get_pos {B} pre r (k : nat → parser B) Q :
  yields pre r (k (length pre)) Q → yields pre r (get_pos ≫= k) Q.
Proof.
  intros Hk. apply (y_bind_0 _ _ _ _ (λ p, p = length pre)); [|by intros ? ->].
  intros st a st' ?? [= <- <-]. done.
Qed.

Lemma y_peek {B} pre r (k : byte → parser B) Q :
  (∀ c t, r = c :: t → yields pre r (k c) Q) → yields pre r (try_ peek ≫= k) Q.
Proof.
  intros Hk. apply (y_bind_0 _ _ _ _ (λ c, ∃ t, r = c :: t)); [|intros c [t Ht]; by eapply Hk].
  intros st c st' Hp ?. unfold try_, peek. rewrite Hp, lookup_app_r, Nat.sub_diag by done.
  destruct r as [|x r]; [done|]. cbn. intros [= <- <-]. eauto.
Qed.

Lemma y_eof {B} pre r (k : bool → parser B) Q :
  yields pre r (k (bool_decide (r = []))) Q → yields pre r (observe is_eof ≫= k) Q.
Proof.
  intros Hk. apply (y_bind_0 _ _ _ _ (λ b, b = bool_decide (r = []))); [|by intros ? ->].
  intros st b st' Hp ? [= <- <-]. split_and!; [done..|]. unfold is_eof. rewrite Hp, length_app.
  apply eq_true_iff_eq. rewrite Nat.leb_le, bool_decide_eq_true. destruct r; cbn; split; try done; lia.
Qed.

Lemma y_advance {B} pre c r (k : unit → parser B) (Q : B → bytes → bytes → Prop) :
  yields (pre ++ [c]) r (k tt) (λ b w rest, Q b (c :: w) rest) →
  yields pre (c :: r) (advance 1 ≫= k) Q.
Proof.
  intros Hk. apply (y_bind _ _ _ _ (λ _ w rest, w = [c] ∧ rest = r)).
  - intros st [] st' Hp Hn Hu [= <-]. split; [done|]. exists [c], r. cbn [pos].
    rewrite length_app, Hp. done.
  - intros [] w r1 _ [-> ->]. done.
Qed.

Lemma y_advance_end pre c r (Q : unit → bytes → bytes → Prop) :
  Q tt [c] r → yields pre (c :: r) (advance 1) Q.
Proof.
  intros HQ st [] st' Hp Hn Hu [= <-]. split; [done|]. exists [c], r. cbn [pos].
  by rewrite length_app, Hp.
Qed.

Lemma y_consume_byte {B} pre r c (k : unit → parser B) Q :
  (∀ t, r = c :: t → yields (pre ++ [c]) t (k tt) (λ b w rest, Q b (c :: w) rest)) →
  yields pre r (consume_byte c ≫= k) Q.
Proof.
  intros Hk. apply (y_bind _ _ _ _ (λ _ w _, w = [c])).
  - unfold consume_byte. apply y_peek. intros x t ->. destruct (byte_eqb_spec x c) as [->|_].
    + by apply y_advance_end.
    + apply y_get_pos, y_fail.
  - intros [] w r1 -> ->. by apply Hk.
Qed.

Lemma y_try_consume_byte pre r c :
  yields pre r (try_consume_byte c) (λ b w rest,
    if b : bool then w = [c] else w = [] ∧ head rest ≠ Some c).
Proof.
  unfold try_consume_byte.
  apply (y_bind_0 _ _ _ _ (λ x, match x with ROk x => ∃ t, r = x :: t | RErr _ => r = [] end)).
  - intros st x st' Hp ? [= <- <-]. split_and!; [done..|]. unfold peek.
    rewrite Hp, lookup_app_r, Nat.sub_diag by done. destruct r; cbn; eauto.
  - intros [x|e].
    + intros [t ->]. destruct (byte_eqb_spec x c) as [->|Hx]; [by apply y_advance, y_ret|].
      apply y_ret. split; [done|]. cbn. congruence.
    + intros ->. by apply y_ret.
Qed.

Lemma y_try_consume {B} pre r c (k : bool → parser B) Q :
  (∀ t, r = c :: t → yields (pre ++ [c]) t (k true) (λ b w rest, Q b (c :: w) rest)) →
  (head r ≠ Some c → yields pre r (k false) Q) →
  yields pre r (try_consume_byte c ≫= k) Q.
Proof.
  intros Ht Hf. eapply y_bind; [apply y_try_consume_byte|].
  intros [] w r1 -> H; cbn in H; [by subst w; apply Ht|]. destruct H as [-> H].
  rewrite app_nil_r. by apply Hf.
Qed.

Lemma y_consume_crlf {B} pre r (k : unit → parser B) Q :
  (∀ t, r = [CR; LF] ++ t → yields (pre ++ [CR; LF]) t (k tt) (λ b w rest, Q b ([CR; LF] ++ w) rest)) →
  yields pre r (consume_crlf ≫= k) Q.
Proof.
  intros Hk. apply (y_bind _ _ _ _ (λ _ w _, w = [CR; LF])); [|intros [] w r1 -> ->; by apply Hk].
  intros st [] st' Hp Hn Hu Hr.
  assert (Hwf : wf (pre ++ r) st) by (split; [rewrite length_app; lia|done]).
  pose proof (wp_Ok _ _ _ _ _ _ _ (wp_consume_crlf _ _ Hwf) Hr) as (Hm & Hp' & Hs).
  destruct Hm as [Hm1 Hm2 Hm3]. split; [done|]. exists [CR; LF], (drop 2 r).
  rewrite Hp', Hp in Hs. rewrite length_app in Hm1.
  unfold slice in Hs. replace (length pre + 2 - length pre)%nat with 2%nat in Hs by lia.
  rewrite drop_app_length in Hs. split_and!; [|rewrite length_app; cbn; lia|done].
  by rewrite <- Hs, take_drop.
Qed.

Lemma slice_middle (pre w r : bytes) : slice ((pre ++ w) ++ r) (length pre) (length (pre ++ w)) = w.
Proof.
  unfold slice. rewrite length_app, <- app_assoc, drop_app_length.
  replace (length pre + length w - length pre)%nat with (length w) by lia. apply take_app_length.
Qed.

(** What has been read since [p]. *)
Lemma y_get_slice {B} pre w r (k : bytes → parser B) Q :
  yields (pre ++ w) r (k w) Q →
  yields (pre ++ w) r (get_slice (length pre) (length (pre ++ w)) ≫= k) Q.
Proof.
  intros Hk. apply (y_bind_0 _ _ _ _ (λ s, s = w)); [|by intros ? ->].
  intros st s st' Hp ?. unfold get_slice. case_match; [|done]. intros [= <- <-].
  split_and!; [done..|]. apply slice_middle.
Qed.

Lemma y_get_slice_end pre w r (Q : bytes → bytes → bytes → Prop) :
  Q w [] r → yields (pre ++ w) r (get_slice (length pre) (length (pre ++ w))) Q.
Proof.
  intros HQ st s st' Hp Hn Hu. unfold get_slice. case_match; [|done]. intros [= <- <-].
  split; [done|]. exists [], r. rewrite app_nil_r. split_and!; [done..|].
  by rewrite slice_middle.
Qed.

Lemma y_to_str {B} pre r s (k : str → parser B) Q :
  (utf8_valid s = true → yields pre r (k s) Q) → yields pre r (to_str s ≫= k) Q.
Proof.
  intros Hk. apply (y_bind_0 _ _ _ _ (λ x, x = s ∧ utf8_valid s = true)); [|by intros ? [-> ?]; auto].
  intros st x st' Hp ?. unfold to_str, from_utf8. destruct (utf8_valid s); [|done].
  intros [= <- <-]. done.
Qed.

Lemma y_to_str_end pre r s (Q : str → bytes → bytes → Prop) :
  (utf8_valid s = true → Q s [] r) → yields pre r (to_str s) Q.
Proof.
  intros HQ. unfold to_str, from_utf8. destruct (utf8_valid s); [|done]. apply y_ret. auto.
Qed.

Lemma y_push_item {T B} pre r l (x : T) (k : list T → parser B) Q :
  yields pre r (k (l ++ [x])) Q → yields pre r (push_item l x ≫= k) Q.
Proof.
  intros Hk. apply (y_bind_0 _ _ _ _ (λ l', l' = l ++ [x])); [|by intros ? ->].
  intros st l' st' Hp Hn. unfold push_item, mbind, parser_bind, get_items_left, set_items_left,
    usize_checked_sub. destruct (1 <=? items_left st) eqn:Hc; [|done]. to_prop. intros [= <- <-]. cbn [pos items_left]. split_and!; [done|lia|done].
Qed.

(** The bytes a scan moves over. *)
Lemma y_scan {B} pre r f (k : unit → parser B) Q :
  (∀ w r1, r = w ++ r1 → Forall (λ c, f c = Advance) w → stops f r1 →
     yields (pre ++ w) r1 (k tt) (λ b w2 rest, Q b (w ++ w2) rest)) →
  yields pre r (scan f ≫= k) Q.
Proof.
  intros Hk.
  apply (y_bind _ _ _ _ (λ _ w rest, Forall (λ c, f c = Advance) w ∧ stops f rest));
    [|intros [] w r1 ? [??]; auto].
  intros st [] st' Hp Hn Hu Hr.
  assert (Hle : (pos st ≤ length (pre ++ r))%nat) by (rewrite length_app; lia).
  pose proof (wp_Ok _ _ _ _ _ _ _ (wp_scan_cursor _ f st Hle) Hr) as (Hp' & Hi & Hs & Hstop).
  split; [lia|]. set (n := (pos st' - pos st)%nat). rewrite length_app in Hp'.
  exists (take n r), (drop n r). rewrite take_drop. split_and!; [done| | |].
  - rewrite length_app, length_take. subst n. lia.
  - unfold slice in Hs. by rewrite Hp, drop_app_length, <- Hp in Hs.
  - rewrite lookup_app_r in Hstop by lia.
    replace (pos st' - length pre)%nat with (n + 0)%nat in Hstop by lia.
    rewrite <- lookup_drop in Hstop. destruct (drop n r); [done|exact Hstop].
Qed.

Lemma y_if {A} pre r (b : bool) (m1 m2 : parser A) Q :
  (b = true → yields pre r m1 Q) → (b = false → yields pre r m2 Q) →
  yields pre r (if b then m1 else m2) Q.
Proof. destruct b; auto. Qed.

Lemma y_ret_bind {A B} pre r (a : A) (k : A → parser B) Q :
  yields pre r (k a) Q → yields pre r (mret a ≫= k) Q.
Proof. done. Qed.

Lemma y_ext {A} pre r (m m' : parser A) Q :
  (∀ i st, m i st = m' i st) → yields pre r m' Q → yields pre r m Q.
Proof. intros He Hm st a st' ???. rewrite He. by apply Hm. Qed.

Lemma y_assoc {A B C} pre r (m : parser A) (f : A → parser B) (k : B → parser C) Q :
  yields pre r (m ≫= λ a, f a ≫= k) Q → yields pre r ((m ≫= f) ≫= k) Q.
Proof. apply y_ext. intros. apply bind_assoc. Qed.

Lemma y_if_bind {A B} pre r (b : bool) (m1 m2 : parser A) (k : A → parser B) Q :
  (b = true → yields pre r (m1 ≫= k) Q) → (b = false → yields pre r (m2 ≫= k) Q) →
  yields pre r ((if b then m1 else m2) ≫= k) Q.
Proof. destruct b; auto. Qed.

(** [w] is what the loop has moved over. *)
Lemma y_loop {S A} pre r (body : S → parser (flow S A)) (I : S → bytes → Prop) s Q :
  I s [] →
  (∀ s w r1, r = w ++ r1 → I s w →
     yields (pre ++ w) r1 (body s) (λ fl w2 rest,
       match fl with Continue s' => I s' (w ++ w2) | Break a => Q a (w ++ w2) rest end)) →
  yields pre r (loop body s) Q.
Proof.
  intros HI Hbody st a st' Hp Hn Hu. unfold loop. generalize (Datatypes.S (length (pre ++ r) - pos st)).
  intros fuel. rewrite <- (app_nil_r pre) in Hp.
  enough (Hloop : ∀ fuel s w r1 st, r = w ++ r1 → I s w → pos st = length (pre ++ w) →
    0 <= items_left st → loop_fuel fuel body s (pre ++ r) st = Ok a st' →
    0 <= items_left st' ∧ ∃ w' rest, r = w' ++ rest ∧ pos st' = length (pre ++ w') ∧ Q a w' rest)
    by by apply (Hloop fuel s [] r st).
  clear fuel s st HI Hp Hn. induction fuel as [|fuel IH]; intros s w r1 st Hr HI Hp Hn; [done|].
  cbn [loop_fuel]. unfold mbind, parser_bind.
  assert (He : pre ++ r = (pre ++ w) ++ r1) by (rewrite Hr; apply app_assoc).
  destruct (body s (pre ++ r) st) as [fl st1| | |] eqn:Hb; try done. intros Hrun.
  rewrite He in Hb, Hu.
  destruct (Hbody s w r1 Hr HI st fl st1 Hp Hn Hu Hb) as (Hn1 & w2 & rest & -> & Hp1 & HQ).
  rewrite <- app_assoc in Hp1. destruct fl as [s'|a'].
  - eapply (IH s' (w ++ w2) rest); try done. by rewrite <- app_assoc.
  - injection Hrun as <- <-. split; [done|]. exists (w ++ w2), rest. by rewrite <- app_assoc.
Qed.
End rules.

(* ------------------------------------------------------------------ *)
(** ** Automation                                                       *)
(* ------------------------------------------------------------------ *)

Create HintDb yields discriminated.

(** One step of a [yields] goal; a method of the database [yields] leaves its
    postcondition. *)
Ltac y_step :=
  lazymatch goal with
  | |- yields _ _ (fail _) _ => apply y_fail
  | |- yields _ _ (mret _) _ => apply y_ret
  | |- yields _ _ (let _ := _ in _) _ => cbv zeta
  | |- yields _ _ (mret _ ≫= _) _ => apply y_ret_bind
  | |- yields _ _ ((_ ≫= _) ≫= _) _ => apply y_assoc
  | |- yields _ _ ((if true then _ else _) ≫= _) _ => cbv iota
  | |- yields _ _ ((if false then _ else _) ≫= _) _ => cbv iota
  | |- yields _ _ (if _ then _ else _) _ => let H := fresh "Hb" in apply y_if; intros H
  | |- yields _ _ (get_pos ≫= _) _ => apply y_get_pos
  | |- yields _ _ (try_ peek ≫= _) _ => apply y_peek; intros ? ? ?; subst
  | |- yields _ _ (observe is_eof ≫= _) _ => apply y_eof
  | |- yields _ _ (advance 1 ≫= _) _ => apply y_advance
  | |- yields _ _ (consume_byte _ ≫= _) _ => apply y_consume_byte; intros ? ?; subst
  | |- yields _ _ (consume_sp ≫= _) _ => apply y_consume_byte; intros ? ?; subst
  | |- yields _ _ (try_consume_byte _ ≫= _) _ => apply y_try_consume; [intros ? ?; subst|intros ?]
  | |- yields _ _ (consume_crlf ≫= _) _ => apply y_consume_crlf; intros ? ?; subst
  | |- yields _ _ (to_str _ ≫= _) _ => apply y_to_str; intros ?
  | |- yields _ _ (to_str _) _ => apply y_to_str_end; intros ?
  | |- yields _ _ (push_item _ _ ≫= _) _ => apply y_push_item
  | |- yields _ _ (get_slice _ _ ≫= _) _ => apply y_get_slice
  | |- yields _ _ (scan _ ≫= _) _ => apply y_scan; intros ? ? ? ? ?; subst
  | |- yields _ _ (_ ≫= _) _ =>
      eapply y_bind; [solve [eauto with yields]|intros ? ? ? ? ?; subst; cbn beta in *]
  | |- yields _ _ _ _ =>
      eapply y_mono; [solve [eauto with yields]|intros ? ? ? ? ?; subst; cbn beta in *]
  end; cbn beta.

Ltac y_auto := repeat (y_step; try done).

(** A postcondition [g a w], up to the association of [w]. *)
Lemma post_eq {A} (g : A → bytes → Prop) a w w' : g a w → w' = w → g a w'.
Proof. by intros ? ->. Qed.

Ltac solve_app :=
  repeat first [rewrite <- app_assoc|rewrite app_nil_r|progress cbn [app]]; done.

(** The goal by the constructor [c], its word up to association. *)
Ltac by_rule c := eapply post_eq; [eapply c; eauto|solve_app].

Lemma run_nonempty_inv (pre w : bytes) : (length pre =? length (pre ++ w))%nat = false → w ≠ [].
Proof. intros H ->. rewrite app_nil_r in H. by rewrite Nat.eqb_refl in H. Qed.

Lemma class_of f (P : byte → bool) w :
  Forall (λ c, f c = Advance) w → (∀ c, f c = Advance → P c = true) → Forall (λ c, P c = true) w.
Proof. intros H ?. eapply Forall_impl; [exact H|auto]. Qed.

Lemma no_byte f (b : byte) w : Forall (λ c, f c = Advance) w → f b ≠ Advance → b ∉ w.
Proof. intros H Hb Hin. rewrite Forall_forall in H. by apply H in Hin. Qed.

(** What a scan says of the bytes it moved over. *)
Ltac by_scan :=
  match goal with
  | H : Forall _ ?w |- Forall _ ?w => apply (class_of _ _ _ H)
  | H : Forall _ ?w |- _ ∉ ?w => apply (no_byte _ _ _ H)
  end.

(* ------------------------------------------------------------------ *)
(** ** Tokens                                                           *)
(* ------------------------------------------------------------------ *)

Section tokens.
Implicit Types (pre r w rest : bytes).

Lemma y_scanned_text pre w r :
  yields (pre ++ w) r (scanned_text (length pre)) (λ s w' rest, s = w ∧ w' = [] ∧ rest ≠ []
    ∧ utf8_valid w = true).
Proof.
  unfold scanned_text. y_step. y_step; y_step. y_step. y_step. to_prop.
  split_and!; try done. by apply bool_decide_eq_false in Hb.
Qed.
Hint Resolve y_scanned_text : yields.

(** The methods that scan a non-empty run. *)
Lemma y_run pre r f (P : byte → bool) what :
  (∀ c, f c = Advance → P c = true) →
  yields pre r
    (start ← get_pos;
     scan f;;
     p ← get_pos;
     if (start =? p)%nat then
       eof ← observe is_eof;
       if (eof : bool) then fail Incomplete else fail what
     else scanned_text start)
    (λ s w rest, w = s ∧ run_of P s ∧ stops f rest).
Proof.
  intros HP. y_auto. destr_hyps; subst. rewrite ?app_nil_r in *. split_and!; [done| |done].
  split_and!; [by eapply run_nonempty_inv|by by_scan|done].
Qed.

Lemma y_parse_atom pre r :
  yields pre r parse_atom (λ s w rest, grammar.atom s w
    ∧ match rest with [] => True | c :: _ => is_atom_char c = false end).
Proof.
  eapply y_mono; [apply (y_run _ _ _ is_atom_char); intros c; by destruct (is_atom_char c)|].
  intros s w rest _ (-> & ? & Hs). split; [done|]. destruct rest as [|c rest]; [done|].
  cbn in Hs. by destruct (is_atom_char c).
Qed.

Lemma y_parse_tag pre r : yields pre r parse_tag (λ s w _, w = s ∧ run_of is_tag_char s).
Proof.
  eapply y_mono; [apply (y_run _ _ _ is_tag_char)|by intros s w rest _ (-> & ? & _)].
  intros c. unfold is_tag_char. by destruct (_ || _).
Qed.

Lemma y_parse_text pre r : yields pre r parse_text (λ s w rest, grammar.text s w).
Proof.
  unfold parse_text. y_auto. destr_hyps; subst. rewrite ?app_nil_r in *.
  split_and!; [done| |done]. by_scan. intros c. unfold is_text_char. cbn beta.
  by destruct (_ || _).
Qed.

Lemma y_read_bracket pre r :
  yields pre r (read_until_byte "]"%byte) (λ s w rest, w = s ∧ grammar.bracket_text s).
Proof.
  unfold read_until_byte. y_auto. destr_hyps; subst. rewrite ?app_nil_r in *.
  split; [done|]. split_and!; [..|done]; by by_scan.
Qed.

Lemma y_parse_number pre r :
  yields pre r parse_number (λ n w rest, grammar.number n w).
Proof.
  unfold parse_number. y_auto. unfold from_utf8. destruct (utf8_valid w) eqn:Hu; [|y_step].
  assert (Hd : Forall (λ c, is_ascii_digit c = true) w).
  { by_scan. intros c. by destruct (is_ascii_digit c). }
  destruct (parse_u32 w) as [n|] eqn:Hn; [|apply y_fail]. cbn [ok_or]. y_step. rewrite app_nil_r.
  apply digits_parse in Hn as [-> ?]; [|by eapply run_nonempty_inv|done].
  split_and!; [by eapply run_nonempty_inv|done|done|by destruct H].
Qed.
End tokens.
#[export] Hint Resolve y_try_consume_byte y_parse_atom y_parse_tag y_parse_text y_read_bracket y_parse_number
  y_scanned_text : yields.

Section strings.
Implicit Types (pre r w rest : bytes).

(** What a quoted string may go on with, whatever its end. *)
Definition quoted_prefix (w : bytes) : Prop := ∀ s, quoted_body s → quoted_body (w ++ s).

Lemma quoted_prefix_char w c :
  quoted_prefix w → c ≠ DQUOTE → c ≠ BACKSLASH → c ≠ CR → c ≠ LF → c ≠ NUL →
  quoted_prefix (w ++ [c]).
Proof. intros Hw ????? s Hs. rewrite <- app_assoc. apply Hw. by constructor. Qed.

Lemma quoted_prefix_escape w c :
  quoted_prefix w → c = DQUOTE ∨ c = BACKSLASH → quoted_prefix (w ++ [BACKSLASH; c]).
Proof. intros Hw ? s Hs. rewrite <- app_assoc. apply Hw. by constructor. Qed.

Lemma y_parse_quoted pre r : yields pre r parse_quoted (λ s w _, grammar.quoted s w).
Proof.
  unfold parse_quoted. y_step. y_step.
  apply (y_loop _ _ _ (λ _ w, quoted_prefix w)); [by intros ?|]. intros [] w r1 -> Hw.
  y_auto; rewrite ?app_nil_r; byte_props; subst.
  - split_and!; [done| |done]. specialize (Hw [] quoted_nil). by rewrite app_nil_r in Hw.
  - apply quoted_prefix_escape; [done|]. destr_bools.
    apply orb_true_iff in Hb1 as [Hb1|Hb1]; apply byte_eqb_true in Hb1; auto.
  - destr_bools. byte_props. by apply quoted_prefix_char.
Qed.

(** The bytes a literal announces. *)
Lemma y_literal_body pre r n :
  0 <= n →
  yields pre r
    (p ← get_pos;
     e ← ok_or (usize_checked_add (Z.of_nat p) n) Incomplete;
     len ← get_len;
     if Z.of_nat len <? e then fail Incomplete
     else
       data ← get_slice p (Z.to_nat e);
       set_pos (Z.to_nat e);;
       mret data) (λ d w _, w = d ∧ Z.of_nat (length d) = n).
Proof.
  intros Hn. apply y_get_pos. intros st d st' Hp Hi Hu.
  unfold usize_checked_add, mbind, parser_bind, ok_or. destruct (_ <=? usize_max); [|done].
  unfold mret at 1, parser_ret at 1, get_len. destruct (_ <? _) eqn:Hlt; [done|]. to_prop.
  rewrite length_app in Hlt. unfold get_slice. destruct (_ && _); [|done]. intros [= <- <-].
  split; [done|]. exists (take (Z.to_nat n) r), (drop (Z.to_nat n) r). rewrite take_drop.
  assert (Hs : slice (pre ++ r) (length pre) (Z.to_nat (Z.of_nat (length pre) + n)) = take (Z.to_nat n) r).
  { unfold slice. rewrite drop_app_length. f_equal. lia. }
  cbn [pos]. rewrite Hs, length_app, length_take. split_and!; [done|lia|done|lia].
Qed.

Lemma y_parse_literal pre r : yields pre r parse_literal (λ d w _, grammar.literal d w).
Proof.
  unfold parse_literal. do 5 y_step; [y_step|].
  eapply y_mono; [apply y_literal_body; unfold grammar.number in *; destr_hyps; subst;
    by apply dec_val_nonneg|].
  intros d w' rest -> [-> Hl]. to_prop. exists w. rewrite Hl. split_and!; [done|lia|solve_app].
Qed.

Lemma y_keyword K pre r :
  yields pre r (try_consume_keyword_ci K) (λ b w rest,
    if b : bool then grammar.keyword K w ∧ from_option is_boundary true (head rest) = true
    else w = [] ∧ keyword_at K rest = false).
Proof.
  intros st b st' Hp Hi Hu. rewrite try_consume_keyword_ci_eq, kw_match_at, Hp, drop_app_length
    by first [done|rewrite length_app; lia].
  destruct (keyword_at K r) eqn:Hk; intros [= <- <-]; (split; [done|]).
  - unfold keyword_at in Hk. destr_bools. to_prop.
    exists (take (length K) r), (drop (length K) r). rewrite take_drop. cbn [pos].
    rewrite length_app, length_take. split_and!; [done|lia| |].
    + unfold grammar.keyword, str_eq_ignore_ascii_case. rewrite length_take.
      rewrite (proj2 (Nat.eqb_eq _ _)) by lia. done.
    + rewrite head_lookup, lookup_drop. by replace (length K + 0)%nat with (length K) by lia.
  - exists [], r. by rewrite app_nil_r.
Qed.

Lemma y_expect_nil pre r : yields pre r expect_nil (λ _ w _, grammar.keyword NIL w).
Proof.
  unfold expect_nil. eapply y_bind; [apply y_keyword|]. intros [] w r1 -> Hk; cbn beta iota in *.
  - y_step. rewrite app_nil_r. by destruct Hk.
  - intros st b st' Hp Hi Hu. unfold mbind, parser_bind. rewrite remaining_eq. repeat case_match; done.
Qed.
End strings.
#[export] Hint Resolve y_parse_quoted y_parse_literal y_expect_nil : yields.

Section strings.
Implicit Types (pre r w rest : bytes).

Lemma y_parse_astring pre r : yields pre r parse_astring (λ s w _, grammar.astring s w).
Proof.
  unfold parse_astring. y_auto; destr_hyps; rewrite ?app_nil_r.
  - by apply grammar.astring_quoted.
  - by apply grammar.astring_literal.
  - by apply grammar.astring_atom.
Qed.

Lemma y_parse_nstring pre r : yields pre r parse_nstring (λ o w _, grammar.nstring o w).
Proof. unfold parse_nstring. y_auto; rewrite ?app_nil_r; by constructor. Qed.

Lemma y_parse_nbytes pre r :
  yields pre r parse_nstring_bytes_optional (λ o w _, grammar.nbytes o w).
Proof. unfold parse_nstring_bytes_optional. y_auto; rewrite ?app_nil_r; by constructor. Qed.

Lemma y_parse_nbytes_empty pre r :
  yields pre r parse_nstring_bytes (λ b w _, ∃ o, grammar.nbytes o w ∧ b = default [] o).
Proof.
  unfold parse_nstring_bytes. y_auto.
  - exists (Some a). by split; [constructor|].
  - exists (Some a). by split; [constructor|].
  - pose proof (y_get_slice_end (pre ++ w) [] r1) as Hs. rewrite app_nil_r in Hs. apply Hs.
    rewrite app_nil_r. exists None. by split; [constructor|].
Qed.

Lemma y_parse_flag pre r : yields pre r parse_flag_or_atom (λ s w _, grammar.flag s w).
Proof.
  unfold parse_flag_or_atom. y_step. y_step.
  apply (y_bind _ _ _ _ (λ star w rest,
    if star : bool then w = b! "\*" else w = [BACKSLASH] ∨ w = [])).
  { y_auto; cbn; auto. byte_props; subst. destruct a; destr_hyps; subst; auto. }
  intros star w r1 _ Hw. apply y_if; intros ->.
  - y_step. apply y_get_slice. y_step. rewrite app_nil_r. subst w. split; [done|]. split; [done|auto].
  - y_step. y_step. rewrite <- app_assoc. y_step; [by y_auto|].
    eapply y_mono; [apply y_scanned_text|]. intros s w1 rest _ (-> & -> & _ & Hu). rewrite app_nil_r.
    assert (Hs : Forall (λ c, is_atom_char c = true) w0).
    { by_scan. intros x. by destruct (is_atom_char x). }
    split; [done|]. split; [done|]. destruct Hw as [-> | ->]; [right; right; by exists w0|left].
    split_and!; [by eapply run_nonempty_inv|done|done].
Qed.
End strings.
#[export] Hint Resolve y_parse_astring y_parse_nstring y_parse_nbytes y_parse_nbytes_empty
  y_parse_flag : yields.

(* ------------------------------------------------------------------ *)
(** ** Lists                                                            *)
(* ------------------------------------------------------------------ *)

Section lists.
Context {T : Type} (item : parser T) (g : T → bytes → Prop).
Hypothesis (Hitem : ∀ pre r, yields pre r item (λ x w _, g x w)).
Implicit Types (pre r w rest : bytes) (l acc : list T).
Hint Resolve Hitem : yields.

Lemma separated_snoc l w x wx :
  grammar.separated g l w → g x wx → grammar.separated g (l ++ [x]) (w ++ SP :: wx).
Proof.
  induction 1 as [y wy Hy|y wy l ws Hy _ IH]; intros Hx.
  - constructor; [done|by constructor].
  - rewrite <- app_assoc. constructor; [done|by apply IH].
Qed.

Lemma sp_list_snoc l w x wx :
  grammar.sp_list g l w → g x wx → grammar.sp_list g (l ++ [x]) (w ++ SP :: wx).
Proof.
  induction 1 as [|y wy l ws Hy _ IH]; intros Hx; cbn.
  - rewrite <- (app_nil_r wx). by repeat constructor.
  - rewrite <- app_assoc. constructor; [done|by apply IH].
Qed.

(** The items read so far, each with the SP after it. *)
Definition items_read acc w : Prop :=
  (acc = [] ∧ w = []) ∨ ∃ w', grammar.separated g acc w' ∧ w = w' ++ [SP].

Lemma items_read_more acc w x wx :
  items_read acc w → g x wx → grammar.separated g (acc ++ [x]) (w ++ wx).
Proof.
  intros [[-> ->]|(w' & Hl & ->)] Hx; [by constructor|].
  rewrite <- app_assoc. by apply separated_snoc.
Qed.

Lemma y_list_items pre r what :
  yields pre r (list_items item what)
    (λ l w rest, ∃ w', grammar.separated g l w' ∧ w = w' ++ b! ")").
Proof using Hitem.
  apply (y_loop _ _ _ items_read); [by left|]. intros acc w r1 -> Hacc. y_auto; byte_props; subst.
  - right. exists (w ++ w0). split; [by apply items_read_more|by rewrite <- app_assoc].
  - exists (w ++ w0). split; [by apply items_read_more|by rewrite <- app_assoc].
Qed.
Hint Resolve y_list_items : yields.

Lemma y_paren_list pre r what :
  yields pre r
    (consume_byte "("%byte;;
     close ← try_consume_byte ")"%byte;
     if (close : bool) then mret [] else list_items item what)
    (λ l w _, grammar.paren_list g l w).
Proof using Hitem.
  y_auto; [constructor|]. destr_hyps; subst. by constructor.
Qed.

Lemma y_sp_items pre r charged :
  yields pre r (sp_items item charged) (λ l w _, grammar.sp_list g l w).
Proof using Hitem.
  apply (y_loop _ _ _ (grammar.sp_list g)); [constructor|]. intros acc w r1 -> Hacc.
  y_step; [|y_auto; by rewrite app_nil_r]. y_step. destruct charged; y_auto;
    by rewrite ?app_nil_r; apply sp_list_snoc.
Qed.
End lists.

Section lists.
Implicit Types (pre r w rest : bytes).

Lemma y_flags pre r : yields pre r parse_paren_atom_list (λ l w _, grammar.paren_list grammar.flag l w).
Proof. apply y_paren_list. apply y_parse_flag. Qed.

Lemma y_atoms pre r c : yields pre r (sp_items parse_atom c) (λ l w _, grammar.sp_list grammar.atom l w).
Proof.
  apply y_sp_items. intros. eapply y_mono; [apply y_parse_atom|]. by intros ? ? ? ? [? _].
Qed.

Lemma y_numbers pre r c :
  yields pre r (sp_items parse_number c) (λ l w _, grammar.sp_list grammar.number l w).
Proof. apply y_sp_items, y_parse_number. Qed.
End lists.
#[export] Hint Resolve y_flags y_atoms y_numbers : yields.

(* ------------------------------------------------------------------ *)
(** ** Parenthesised values                                             *)
(* ------------------------------------------------------------------ *)

Section parens.
Implicit Types (pre r u v w rest : bytes).

Lemma nested_app n u v : grammar.nested n u → grammar.nested n v → grammar.nested n (u ++ v).
Proof.
  intros Hu Hv. revert Hv. induction Hu; intros Hv; cbn [app]; [done|by constructor; auto|..].
  - rewrite <- app_assoc. eapply grammar.nested_quoted; eauto.
  - rewrite <- app_assoc. eapply grammar.nested_literal; eauto.
  - rewrite <- !app_assoc. apply grammar.nested_parens; auto.
Qed.

(** The inside of a parenthesised value with [depth] parentheses still open. *)
Inductive opened : Z → bytes → Prop :=
| opened_one u : grammar.nested (u32_max - 1) u → opened 1 u
| opened_more d w u :
    opened d w → d + 1 <= u32_max → grammar.nested (u32_max - (d + 1)) u →
    opened (d + 1) (w ++ b! "(" ++ u).

Lemma opened_pos d w : opened d w → 1 <= d.
Proof. induction 1; lia. Qed.

Lemma opened_extend d w v : opened d w → grammar.nested (u32_max - d) v → opened d (w ++ v).
Proof.
  intros [u Hu|d' w' u Hw Hd Hu] Hv.
  - constructor. by apply nested_app.
  - rewrite <- !app_assoc. constructor; [done..|]. by apply nested_app.
Qed.

(** Closing one. *)
Definition closed_text (w : bytes) : Prop :=
  ∃ u, grammar.nested (u32_max - 1) u ∧ w = u ++ b! ")".

Lemma opened_close d w :
  opened d w → if 1 <? d then opened (d - 1) (w ++ b! ")") else closed_text (w ++ b! ")").
Proof.
  intros [u Hu|d' w' u Hw Hd Hu].
  - by exists u.
  - pose proof (opened_pos _ _ Hw). rewrite (proj2 (Z.ltb_lt _ _)) by lia.
    replace (d' + 1 - 1) with d' by lia. rewrite <- !app_assoc. apply opened_extend; [done|].
    rewrite <- (app_nil_r (b! ")")). apply grammar.nested_parens; [lia| |constructor].
    by replace (u32_max - d' - 1) with (u32_max - (d' + 1)) by lia.
Qed.

Definition paren_state (depth : u32) (w : bytes) : Prop :=
  if 0 <? depth then opened depth w else depth = 0 ∧ closed_text w.

Lemma y_depth_step pre r depth w :
  paren_state depth w →
  yields pre r (depth_step depth) (λ fl w2 _,
    match fl with
    | Continue d => paren_state d (w ++ w2)
    | Break _ => closed_text (w ++ w2)
    end).
Proof.
  unfold paren_state, depth_step. destruct (0 <? depth) eqn:Hd; intros Hs.
  2: { y_step. rewrite app_nil_r. by destruct Hs. }
  to_prop. y_step. y_step; [|y_step; [|y_step; [|y_step; [|y_step; [y_step|]]]]]; byte_props; subst.
  - y_step. unfold u32_checked_add. destruct (_ <=? _) eqn:Hm; [|done]. cbn [ok_or]. to_prop.
    y_step. y_step. rewrite (proj2 (Z.ltb_lt _ _)) by lia.
    rewrite <- (app_nil_r [_]). constructor; [done|done|constructor].
  - y_step. y_step. apply opened_close in Hs.
    destruct (1 <? depth) eqn:H1; to_prop.
    + by rewrite (proj2 (Z.ltb_lt _ _)) by lia.
    + rewrite (proj2 (Z.ltb_ge _ _)) by lia. split; [lia|done].
  - y_step. y_step. rewrite (proj2 (Z.ltb_lt _ _)) by done. apply opened_extend; [done|].
    eapply grammar.nested_quoted; [done|constructor].
  - y_step. y_step. rewrite (proj2 (Z.ltb_lt _ _)) by done. apply opened_extend; [done|].
    eapply grammar.nested_literal; [done|constructor].
  - y_step. y_step. rewrite (proj2 (Z.ltb_lt _ _)) by done. apply opened_extend; [done|].
    destr_bools. byte_props. constructor; [|constructor].
    rewrite !not_elem_of_cons. split_and!; (done || apply not_elem_of_nil).
Qed.

Lemma y_parse_parens pre r : yields pre r parse_balanced_parens (λ b w _, grammar.parens b w).
Proof.
  unfold parse_balanced_parens. y_step. y_step. fold depth_step.
  eapply y_bind.
  - apply (y_loop _ _ _ paren_state _ (λ _ w _, closed_text w)).
    + apply (opened_one []). constructor.
    + intros depth w r1 -> Hs. eapply y_mono; [by apply y_depth_step|]. by intros [].
  - intros [] w r1 -> (u & Hu & ->). y_step. rewrite <- app_assoc. apply y_get_slice_end.
    rewrite app_nil_r. split; [done|]. by exists u.
Qed.
End parens.
#[export] Hint Resolve y_parse_parens : yields.

(* ------------------------------------------------------------------ *)
(** ** Response codes and texts                                         *)
(* ------------------------------------------------------------------ *)

(** The comparisons that failed, as one fact. *)
Ltac no_keywords := repeat (apply Forall_cons; split; [done|]); by apply Forall_nil.

(** A value by the first rule of the grammar that fits. *)
Ltac by_grammar :=
  destr_hyps; subst; rewrite ?app_nil_r; econstructor;
  unfold grammar.keyword; solve [eassumption|no_keywords|done].

Section codes.
Implicit Types (pre r w rest : bytes).

Lemma y_parse_code pre r : yields pre r parse_resp_text_code (λ c w _, grammar.code c w).
Proof.
  unfold parse_resp_text_code. do 6 y_step; [y_step|]. y_step. y_step.
  assert (Hrun : run_of grammar.is_code_char w).
  { split_and!; [by eapply run_nonempty_inv| |done]. by_scan. intros c. unfold grammar.is_code_char.
    by destruct (c =?b "]"%byte), (c =?b SP), (c =?b CR), (c =?b LF). }
  y_auto. all: by_grammar.
Qed.
End codes.
#[export] Hint Resolve y_parse_code : yields.

Section texts.
Implicit Types (pre r w rest : bytes).

Lemma text_head t w rest b : grammar.text t w → head (w ++ rest) ≠ Some b → head t ≠ Some b.
Proof. intros (-> & _). by destruct t. Qed.

Lemma y_parse_resp_text pre r :
  yields pre r parse_resp_text (λ ct w _, grammar.resp_text ct.1 ct.2 w).
Proof.
  unfold parse_resp_text. y_auto; cbn [fst snd]; rewrite ?app_nil_r.
  - by apply (grammar.resp_text_code _ w).
  - apply (grammar.resp_text_code_bare _ w); [done..|]. by eapply text_head.
  - apply grammar.resp_text_plain; [done|]. by eapply text_head.
Qed.
Hint Resolve y_parse_resp_text : yields.

Lemma y_after_status pre r :
  yields pre r parse_resp_text_after_keyword (λ ct w _, grammar.after_status ct.1 ct.2 w).
Proof. unfold parse_resp_text_after_keyword. y_auto; by constructor. Qed.

(** The status keyword is at the cursor, or there is none. *)
Lemma y_status pre r :
  yields pre r try_parse_status_keyword (λ o w rest,
    match o with
    | Some s => grammar.keyword (grammar.status_word s) w
    | None => w = [] ∧ status_at rest = None
    end).
Proof.
  intros st o st' Hp Hi Hu. rewrite try_parse_status_keyword_at, Hp, drop_app_length
    by first [done|rewrite length_app; lia].
  destruct (status_at r) as [s|] eqn:Hs; intros [= <- <-]; (split; [done|]).
  - unfold status_at in Hs. apply find_some in Hs as [_ Hk]. unfold keyword_at in Hk.
    destr_bools. to_prop. set (n := length (grammar.status_word s)) in *.
    exists (take n r), (drop n r). rewrite take_drop. cbn [pos].
    rewrite length_app, length_take. split_and!; [done|lia|].
    unfold grammar.keyword, str_eq_ignore_ascii_case. rewrite length_take.
    fold n. rewrite (proj2 (Nat.eqb_eq _ _)) by lia. done.
  - exists [], r. by rewrite app_nil_r.
Qed.
End texts.
#[export] Hint Resolve y_parse_resp_text y_after_status y_status : yields.

(* ------------------------------------------------------------------ *)
(** ** Data                                                             *)
(* ------------------------------------------------------------------ *)

Section data.
Implicit Types (pre r w rest : bytes).

Lemma y_status_item pre r : yields pre r parse_status_item (λ x w _, grammar.status_item x w).
Proof.
  unfold parse_status_item. y_auto. rewrite app_nil_r. destruct H0 as [[-> Hr] _].
  repeat case_match; by_grammar.
Qed.

Lemma y_status_items pre r :
  yields pre r parse_status_items (λ l w _, grammar.paren_list grammar.status_item l w).
Proof. apply y_paren_list, y_status_item. Qed.

Lemma y_att_name pre r :
  yields pre r parse_fetch_att_name (λ s w _, w = s).
Proof.
  unfold parse_fetch_att_name. y_auto. by rewrite app_nil_r.
Qed.
Hint Resolve y_status_items y_att_name : yields.

Lemma y_body_section pre r :
  yields pre r parse_body_section (λ a w _, ∀ k,
    grammar.keyword (b! "BODY") k → grammar.attribute a (k ++ b! "[" ++ w)).
Proof.
  unfold parse_body_section. y_auto; destr_hyps; subst; rewrite ?app_nil_r; intros k Hk.
  - eapply post_eq; [apply (grammar.attr_section k a (Some a0) (b! "<" ++ w0 ++ b! ">") a1 w1);
      [done..|by constructor|done]|solve_app].
  - eapply post_eq; [apply (grammar.attr_section k a None [] a0 w0); [done..|constructor|done]|solve_app].
Qed.
Hint Resolve y_body_section : yields.

Lemma y_attribute pre r : yields pre r parse_one_fetch_att (λ a w _, grammar.attribute a w).
Proof.
  unfold parse_one_fetch_att. y_auto. all: destr_hyps; subst; rewrite ?app_nil_r; cbn [app].
  all: try by_grammar.
  auto.
Qed.

Lemma y_attributes pre r :
  yields pre r parse_fetch_msg_att (λ l w _, grammar.paren_list grammar.attribute l w).
Proof. apply y_paren_list, y_attribute. Qed.

Lemma y_mailbox_list pre r :
  yields pre r parse_list_lsub_body (λ x w _, grammar.mailbox_list x.1.1 x.1.2 x.2 w).
Proof. unfold parse_list_lsub_body. y_auto. cbn [fst snd]. rewrite app_nil_r. by eexists _, _, _. Qed.
End data.
#[export] Hint Resolve y_status_items y_attributes y_mailbox_list : yields.

(* ------------------------------------------------------------------ *)
(** ** Responses                                                        *)
(* ------------------------------------------------------------------ *)

Section responses.
Implicit Types (pre r w rest : bytes).

(** A data response and its CRLF. *)
Definition data_line (resp : Response) (w : bytes) : Prop :=
  ∃ d l, resp = Resp_Data d ∧ w = l ++ [CR; LF] ∧ grammar.data d l.

Lemma data_line_intro d l w :
  grammar.data d l → w = l ++ [CR; LF] → data_line (Resp_Data d) w.
Proof. intros. by exists d, l. Qed.

Ltac by_data c :=
  unfold grammar.mailbox_list in *; eapply data_line_intro; [eapply c; eauto|solve_app].

Lemma status_at_none a t rest :
  run_of is_atom_char a →
  match t ++ CR :: rest with [] => True | c :: _ => is_atom_char c = false end →
  status_at (a ++ t ++ CR :: rest) = None →
  grammar.no_keyword KEYWORDS a ∨ from_option is_boundary true (head t) = false.
Proof.
  intros (_ & Ha & _) Ht. rewrite status_at_run by done.
  assert (Hh : from_option is_boundary true (head (t ++ CR :: rest)) = from_option is_boundary true (head t))
    by (by destruct t).
  rewrite Hh. destruct (from_option is_boundary true (head t)); [|by right]. intros Hf. left.
  assert (Hs : ∀ s, str_eq_ignore_ascii_case a (grammar.status_word s) = false).
  { intros s. pose proof (find_none _ _ Hf s) as Hn. cbn beta in Hn. rewrite andb_true_r in Hn. apply Hn.
    destruct s; cbn; auto 10. }
  unfold KEYWORDS. repeat (apply Forall_cons; split); try apply Forall_nil_2;
    [apply (Hs Status_Ok)|apply (Hs Status_No)|apply (Hs Status_Bad)|apply (Hs Status_Bye)
    |apply (Hs Status_PreAuth)].
Qed.

Lemma unread_tail_intro t rest :
  Forall (λ c, (if c =?b CR then Stop else Advance) = Advance) t →
  match t ++ rest with [] => True | c :: _ => is_atom_char c = false end →
  grammar.unread_tail t.
Proof. intros Ht Hh. split; [by apply (no_byte _ _ _ Ht)|by destruct t]. Qed.

Lemma y_named pre c r :
  is_ascii_digit c = false → status_at (c :: r) = None →
  yields pre (c :: r) parse_named_data_response (λ resp w _, data_line resp w).
Proof.
  intros Hc Hs. unfold parse_named_data_response. y_step. 
  eapply y_bind; [apply y_parse_atom|]. intros k w r1 Hr [[-> Hk] Hstop]. rewrite Hr in Hs.
  y_auto; destr_hyps; subst.
  - by_data grammar.data_capability.
  - by_data grammar.data_list.
  - by_data grammar.data_lsub.
  - by_data grammar.data_status.
  - by_data grammar.data_search.
  - by_data grammar.data_flags.
  - rewrite <- app_assoc. y_auto.
    apply (data_line_intro _ (k ++ w)); [|solve_app]. apply grammar.data_other_named; [done|no_keywords|..].
    + eapply unread_tail_intro; [eassumption|exact Hstop].
    + destruct Hk as [Hne _]. destruct k; [done|]. by injection Hr as <- _.
    + by eapply status_at_none.
Qed.

(** No line break is behind the cursor. *)
Lemma y_line_start {B} pre r (k : nat → parser B) Q :
  LF ∉ pre → yields pre r (k 0%nat) Q → yields pre r (observe find_current_line_start ≫= k) Q.
Proof.
  intros Hlf Hk. apply (y_bind_0 _ _ _ _ (λ p, p = 0%nat)); [|by intros ? ->].
  intros st p st' Hp ? [= <- <-]. split_and!; [done..|]. unfold find_current_line_start.
  rewrite Hp. apply line_start_from_zero. by rewrite take_app_length.
Qed.

Lemma run_no_lf w : Forall (λ c, is_atom_char c = true) w → LF ∉ w.
Proof. intros H Hin. rewrite Forall_forall in H. by apply H in Hin. Qed.

Lemma y_numeric r :
  yields (b! "* ") r parse_numeric_data_response (λ resp w _, data_line resp w).
Proof.
  unfold parse_numeric_data_response. y_step. y_step.
  eapply y_bind; [apply y_parse_atom|]. intros k w2 r1 -> [[-> Hk] Hstop].
  y_auto; destr_hyps; subst.
  - by_data grammar.data_exists.
  - by_data grammar.data_recent.
  - by_data grammar.data_expunge.
  - by_data grammar.data_fetch.
  - unfold finish_other_data_with_prefix. apply y_line_start.
    { rewrite !not_elem_of_app. split_and!;
        [by apply (bool_decide_unpack _)|by eapply run_no_lf, digits_atoms
        |by apply (bool_decide_unpack _)|by apply run_no_lf, Hk]. }
    y_step. y_step.
    match goal with |- yields ?p _ (get_slice 0 _ ≫= _) _ =>
      apply (y_get_slice [] p) end.
    y_auto. apply (data_line_intro _ (w ++ SP :: k ++ w0)); [|solve_app].
    rewrite <- !app_assoc. cbn [app]. eapply grammar.data_other_numbered; [done|done|no_keywords|].
    eapply unread_tail_intro; [eassumption|exact Hstop].
Qed.

Lemma y_untagged r :
  yields [] r parse_untagged (λ resp w _, grammar.response resp w).
Proof.
  unfold parse_untagged. do 3 y_step. destruct a as [s|]; y_auto; destr_hyps; subst.
  - eexists. split; [by apply grammar.line_untagged|solve_app].
  - eapply y_mono; [apply y_numeric|]. intros resp w rest _ (d & l & -> & -> & Hd).
    exists (b! "* " ++ l). split; [by constructor|solve_app].
  - eapply y_mono; [by apply y_named|]. intros resp w rest _ (d & l & -> & -> & Hd).
    exists (b! "* " ++ l). split; [by constructor|solve_app].
Qed.

Lemma y_tagged c r :
  c ≠ "+"%byte → c ≠ "*"%byte →
  yields [] (c :: r) parse_tagged (λ resp w _, grammar.response resp w).
Proof.
  intros Hp Hs. unfold parse_tagged. eapply y_bind; [apply y_parse_tag|].
  intros tg w r1 Hr [-> Hrun]. y_step. y_step. destruct a as [s|].
  - y_auto. eexists. split; [apply (grammar.line_tagged tg tg); [|done|done]|solve_app].
    split_and!; [done|done|..]; destruct tg as [|x tg]; try done; injection Hr as <- _; cbn; congruence.
  - apply (y_bind _ _ _ _ (λ _ _ _, False)); [|done].
    intros st a st' _ _ _. unfold mbind, parser_bind. rewrite remaining_eq. by repeat case_match.
Qed.

Lemma y_response r : yields [] r Parser.parse_response (λ resp w _, grammar.response resp w).
Proof.
  unfold Parser.parse_response. y_step. y_step; [y_step|]. y_step. y_step; [|y_step; [apply y_untagged|]].
  - unfold parse_continue_req. y_auto. eexists. split; [by apply grammar.line_continue|solve_app].
  - byte_props. by apply y_tagged.
Qed.

(** Nothing else is read. *)
Lemma grammar_sound i rest (resp : Response) :
  Z.of_nat (length i) <= usize_max → ResponseParser.parse_response i = Parsed rest resp →
  ∃ w, i = w ++ rest ∧ grammar.response resp w.
Proof.
  intros Hu. rewrite parse_response_run.
  destruct (Parser.parse_response i Parser.new) as [a st'| | |] eqn:Hr; try done. intros [= <- <-].
  destruct (y_response i Parser.new a st') as (_ & w & rest & -> & Hp & Hw); try done.
  exists w. rewrite Hp. cbn [app]. by rewrite drop_app_length.
Qed.
End responses.

(** Responses, each with what a server could put between it and its CRLF. *)
Definition garbage_lines : list (bytes * bytes) :=
  [(b! "* 3 EXISTS", b! " foo"); (b! "* SEARCH 1 2", [SP]); (b! "* FLAGS (a)", b! " foo");
   (b! "* CAPABILITY IDLE", [SP]); (b! "* 1 FETCH (UID 2)", b! ";"); (b! "* STATUS x (MESSAGES 1)", [SP])].

(** The response is read; with the garbage behind it, the line is an error. *)
Definition refuses_garbage (line : bytes * bytes) : bool :=
  match ResponseParser.parse_response (line.1 ++ [CR; LF]),
    ResponseParser.parse_response (line.1 ++ line.2 ++ [CR; LF]) with
  | Parsed [] _, ParseErr (Malformed _ | InvalidNumber) => true
  | _, _ => false
  end.

(** C2: the parser is exactly the response grammar: it returns [r] and leaves
    [rest] if and only if the input is a line that stands for [r], within the
    item budget, followed by [rest]. A line of the grammar beyond the budget is
    refused with [TooManyItems]; and no line stands for two responses.
    This is stricter than the documentation of [parser.rs], which says that
    garbage between a recognized response and its CRLF is consumed and the
    response returned: the parser refuses such a line, be it for one space. *)
Theorem parse_response_grammar i rest (resp : Response) :
  Z.of_nat (length i) <= usize_max →
  (ResponseParser.parse_response i = Parsed rest resp ↔
   ∃ w, i = w ++ rest ∧ grammar.response resp w
     ∧ Z.of_nat (response_items resp) <= MAX_ITEMS_PER_RESPONSE)
  ∧ (∀ w, i = w ++ rest → grammar.response resp w →
      (MAX_ITEMS_PER_RESPONSE < Z.of_nat (response_items resp) →
       ResponseParser.parse_response i = ParseErr (TooManyItems MAX_ITEMS_PER_RESPONSE))
      ∧ ∀ resp', grammar.response resp' w → resp' = resp)
  ∧ forallb refuses_garbage garbage_lines = true.
Proof.
  intros Hu. split_and!; [split|..].
  - intros Hp. destruct (grammar_sound i rest resp Hu Hp) as (w & -> & Hw).
    exists w. split_and!; [done..|]. pose proof (parse_response_Parsed _ _ _ Hp) as (st' & [[_ Hi Hb] _] & _).
    change (items_left Parser.new) with MAX_ITEMS_PER_RESPONSE in Hi. lia.
  - intros (w & -> & Hw & Hn). by apply grammar_complete.
  - intros w -> Hw. split; [intros Hn; by apply (grammar_over_budget resp)|]. intros r' Hw'.
    rewrite length_app in Hu. apply (grammar_unambiguous w); [lia|done..].
  - vm_compute. reflexivity.
Qed.

Definition sample_fetch : bytes :=
  b! "* 12 fetch (uid 007 BODY[TEXT]<0> {3}" ++ [CR; LF] ++ b! "a)b FLAGS (\Seen))" ++ [CR; LF].

Lemma parse_response_grammar_witness :
  ∃ w, sample_fetch = w ++ [] ∧
    grammar.response (Resp_Data (DR_Fetch 12
      [FA_Uid 7; FA_BodySection (Some (b! "TEXT")) (Some 0) (Some (b! "a)b")); FA_Flags [b! "\Seen"]])) w
    ∧ Z.of_nat 4 <= MAX_ITEMS_PER_RESPONSE.
Proof.
  refine (proj1 (proj1 (parse_response_grammar sample_fetch [] (Resp_Data (DR_Fetch 12
    [FA_Uid 7; FA_BodySection (Some (b! "TEXT")) (Some 0) (Some (b! "a)b")); FA_Flags [b! "\Seen"]])) _)) _).
  - vm_compute. discriminate.
  - vm_compute. reflexivity.
Defined.
