(* ===== verification/Base64.v ===== *)
(** [imap-client/src/base64.rs]: the padded base64 encoder of the SASL
    exchange, its exact length, and the RFC 4648 decoder that inverts it. *)

From S2P Require Import Prelude Str Ast.
From stdpp Require Import options.

Definition ALPHABET : bytes :=
  b! "ABCDEFGHIJKLMNOPQRSTUVWXYZabcdefghijklmnopqrstuvwxyz0123456789+/".
Definition PAD : byte := "="%byte.
Definition INPUT_GROUP : Z := 3.
Definition OUTPUT_GROUP : Z := 4.
Definition SEXTET_MASK : Z := 0x3F.

(** [input_len.div_ceil(3) * 4]; on a [usize] the product overflows only for
    lengths no allocation reaches. *)
Definition encoded_len (input_len : Z) : Z :=
  (input_len / INPUT_GROUP + (if input_len mod INPUT_GROUP =? 0 then 0 else 1)) * OUTPUT_GROUP.

(** [ALPHABET[i]]; [None] is the panic of an index out of range. *)
Definition alphabet (i : Z) : option byte := ALPHABET !! Z.to_nat i.

Definition encode_group (a b c : byte) : option (byte * byte * byte * byte) :=
  let n := Z.lor (Z.lor (Z.shiftl (bval a) 16) (Z.shiftl (bval b) 8)) (bval c) in
  c0 ← alphabet (Z.land (Z.shiftr n 18) SEXTET_MASK);
  c1 ← alphabet (Z.land (Z.shiftr n 12) SEXTET_MASK);
  c2 ← alphabet (Z.land (Z.shiftr n 6) SEXTET_MASK);
  c3 ← alphabet (Z.land n SEXTET_MASK);
  Some (c0, c1, c2, c3).

(** [input.as_chunks::<3>()]. *)
Fixpoint as_chunks (input : bytes) : list (byte * byte * byte) * bytes :=
  match input with
  | a :: b :: c :: rest => let '(gs, r) := as_chunks rest in ((a, b, c) :: gs, r)
  | _ => ([], input)
  end.

Fixpoint encode_groups (gs : list (byte * byte * byte)) (out : bytes) : option bytes :=
  match gs with
  | [] => Some out
  | (a, b, c) :: gs =>
    '(c0, c1, c2, c3) ← encode_group a b c;
    encode_groups gs (out ++ [c0; c1; c2; c3])
  end.

(** The buffer after [encode_into(input, out)]; [None] is a panic. *)
Definition encode_into (input out : bytes) : option bytes :=
  let '(groups, remainder) := as_chunks input in
  out ← encode_groups groups out;
  match remainder with
  | [a] => '(c0, c1, _, _) ← encode_group a x00 x00; Some (out ++ [c0; c1; PAD; PAD])
  | [a; b] => '(c0, c1, c2, _) ← encode_group a b x00; Some (out ++ [c0; c1; c2; PAD])
  | _ => Some out
  end.

(* ------------------------------------------------------------------ *)
(** ** The decoder of RFC 4648 §4                                       *)
(* ------------------------------------------------------------------ *)

(** Table 1: A-Z, a-z, 0-9, [+], [/]. *)
Definition sextet (c : byte) : option Z :=
  let n := bval c in
  if (65 <=? n) && (n <=? 90) then Some (n - 65)
  else if (97 <=? n) && (n <=? 122) then Some (26 + (n - 97))
  else if (48 <=? n) && (n <=? 57) then Some (52 + (n - 48))
  else if n =? 43 then Some 62
  else if n =? 47 then Some 63
  else None.

Definition decode_group (c0 c1 c2 c3 : byte) : option bytes :=
  s0 ← sextet c0;
  s1 ← sextet c1;
  if decide (c2 = PAD) then
    if decide (c3 = PAD) then Some [byte_of (s0 * 4 + s1 / 16)] else None
  else
    s2 ← sextet c2;
    if decide (c3 = PAD) then Some [byte_of (s0 * 4 + s1 / 16); byte_of (s1 * 16 + s2 / 4)]
    else
      s3 ← sextet c3;
      Some [byte_of (s0 * 4 + s1 / 16); byte_of (s1 * 16 + s2 / 4); byte_of (s2 * 64 + s3)].

(** Every quantum but the last is unpadded. *)
Fixpoint decode (s : bytes) : option bytes :=
  match s with
  | [] => Some []
  | c0 :: c1 :: c2 :: c3 :: rest =>
    d ← decode_group c0 c1 c2 c3;
    match rest with
    | [] => Some d
    | _ => if decide (length d = 3%nat) then e ← decode rest; Some (d ++ e) else None
    end
  | _ => None
  end.

(* ------------------------------------------------------------------ *)
(** ** Lemmas                                                           *)
(* ------------------------------------------------------------------ *)

Lemma shiftl_land_small a b k : 0 <= k → 0 <= b < 2 ^ k → Z.land (Z.shiftl a k) b = 0.
Proof.
  intros Hk Hb. apply Z.bits_inj'. intros n Hn. rewrite Z.land_spec, Z.bits_0.
  destruct (decide (n < k)).
  - by rewrite Z.shiftl_spec_low.
  - replace (Z.testbit b n) with false; [apply andb_false_r|].
    rewrite <- (Z.mod_small b (2 ^ k)) by lia. by rewrite Z.mod_pow2_bits_high by lia.
Qed.

Lemma lor_shiftl a b k : 0 <= k → 0 <= b < 2 ^ k → Z.lor (Z.shiftl a k) b = a * 2 ^ k + b.
Proof.
  intros Hk Hb. rewrite <- Z.shiftl_mul_pow2 by done.
  rewrite Z.add_nocarry_lxor by (by apply shiftl_land_small).
  symmetry. apply Z.lxor_lor. by apply shiftl_land_small.
Qed.

Lemma quantum_value a b c :
  Z.lor (Z.lor (Z.shiftl (bval a) 16) (Z.shiftl (bval b) 8)) (bval c)
  = bval a * 65536 + bval b * 256 + bval c.
Proof.
  pose proof (bval_range a). pose proof (bval_range b). pose proof (bval_range c).
  change 16 with (8 + 8). rewrite <- Z.shiftl_shiftl by lia. rewrite <- Z.shiftl_lor.
  rewrite !lor_shiftl by lia. lia.
Qed.

Lemma sextet_at n k : 0 <= k → Z.land (Z.shiftr n k) SEXTET_MASK = (n / 2 ^ k) mod 64.
Proof.
  intros. change SEXTET_MASK with (Z.ones 6).
  rewrite Z.land_ones, Z.shiftr_div_pow2 by lia. done.
Qed.

(** The 64 characters, in order. *)
Lemma alphabet_sextet i : 0 <= i < 64 → ∃ c, alphabet i = Some c ∧ sextet c = Some i ∧ c ≠ PAD.
Proof.
  intros Hi.
  assert (Hall : forallb (λ i, match alphabet i with
    | Some c => bool_decide (sextet c = Some i) && negb (c =?b PAD)
    | None => false end) (seqZ 0 64) = true) by (vm_compute; reflexivity).
  rewrite forallb_forall in Hall.
  specialize (Hall i ltac:(apply list_elem_of_In, elem_of_seqZ; lia)).
  destruct (alphabet i) as [c|]; [|done].
  apply andb_true_iff in Hall as [Hs%bool_decide_eq_true Hp%negb_true_iff%byte_eqb_false].
  by exists c.
Qed.

Lemma quantum_sextets a b c :
  0 <= a < 256 → 0 <= b < 256 → 0 <= c < 256 →
  let n := a * 65536 + b * 256 + c in
  n / 2 ^ 18 mod 64 = a / 4 ∧ n / 2 ^ 12 mod 64 = a mod 4 * 16 + b / 16
  ∧ n / 2 ^ 6 mod 64 = b mod 16 * 4 + c / 64 ∧ n mod 2 ^ 6 = c mod 64.
Proof.
  intros Ha Hb Hc n. change (2 ^ 18) with 262144. change (2 ^ 12) with 4096. change (2 ^ 6) with 64.
  subst n. split_and!; div_lia.
Qed.

(** The four characters of a quantum carry its 24 bits. *)
Lemma encode_group_spec a b c :
  ∃ c0 c1 c2 c3, encode_group a b c = Some (c0, c1, c2, c3)
    ∧ sextet c0 = Some (bval a / 4)
    ∧ sextet c1 = Some (bval a mod 4 * 16 + bval b / 16)
    ∧ sextet c2 = Some (bval b mod 16 * 4 + bval c / 64)
    ∧ sextet c3 = Some (bval c mod 64)
    ∧ c2 ≠ PAD ∧ c3 ≠ PAD.
Proof.
  pose proof (bval_range a). pose proof (bval_range b). pose proof (bval_range c).
  unfold encode_group. rewrite quantum_value.
  rewrite !sextet_at by lia. change SEXTET_MASK with (Z.ones 6). rewrite Z.land_ones by lia.
  destruct (quantum_sextets (bval a) (bval b) (bval c)) as (E0 & E1 & E2 & E3); [done..|].
  rewrite E0, E1, E2, E3.
  destruct (alphabet_sextet (bval a / 4)) as (c0 & -> & ? & ?); [div_lia|].
  destruct (alphabet_sextet (bval a mod 4 * 16 + bval b / 16)) as (c1 & -> & ? & ?); [div_lia|].
  destruct (alphabet_sextet (bval b mod 16 * 4 + bval c / 64)) as (c2 & -> & ? & ?); [div_lia|].
  destruct (alphabet_sextet (bval c mod 64)) as (c3 & -> & ? & ?); [div_lia|].
  exists c0, c1, c2, c3. by repeat split.
Qed.

(** The encoding, quantum by quantum. *)
Fixpoint encoding (input : bytes) : option bytes :=
  match input with
  | a :: b :: c :: rest =>
    '(c0, c1, c2, c3) ← encode_group a b c; e ← encoding rest; Some ([c0; c1; c2; c3] ++ e)
  | [a] => '(c0, c1, _, _) ← encode_group a x00 x00; Some [c0; c1; PAD; PAD]
  | [a; b] => '(c0, c1, c2, _) ← encode_group a b x00; Some [c0; c1; c2; PAD]
  | [] => Some []
  end.

(** Induction by groups of three. *)
Lemma groups_ind (P : bytes → Prop) :
  P [] → (∀ a, P [a]) → (∀ a b, P [a; b]) → (∀ a b c s, P s → P (a :: b :: c :: s)) → ∀ s, P s.
Proof.
  intros H0 H1 H2 H3. fix IH 1. intros [|a [|b [|c s]]]; [done|done|done|].
  apply H3, IH.
Qed.

Lemma encode_into_encoding input out :
  encode_into input out = e ← encoding input; Some (out ++ e).
Proof.
  unfold encode_into. revert out.
  induction input as [|a|a b|a b c s IH] using groups_ind; intros out; cbn.
  - by rewrite app_nil_r.
  - by destruct (encode_group a x00 x00) as [[[[? ?] ?] ?]|].
  - by destruct (encode_group a b x00) as [[[[? ?] ?] ?]|].
  - destruct (as_chunks s) as [gs r]. cbn.
    destruct (encode_group a b c) as [[[[c0 c1] c2] c3]|]; [|done]. cbn.
    specialize (IH (out ++ [c0; c1; c2; c3])). cbn in IH. rewrite IH.
    destruct (encoding s); cbn; [|done]. by rewrite <- app_assoc.
Qed.

(** A quantum and the bytes it came from. *)
Lemma sextet_in c i : sextet c = Some i → c ∈ ALPHABET.
Proof.
  intros H. apply (bool_decide_unpack _). destruct c; first [vm_compute; exact I | vm_compute in H; discriminate H].
Qed.

Lemma encode_group_decode a b c :
  ∃ c0 c1 c2 c3, encode_group a b c = Some (c0, c1, c2, c3)
    ∧ decode_group c0 c1 c2 c3 = Some [a; b; c]
    ∧ (bval c = 0 → decode_group c0 c1 c2 PAD = Some [a; b])
    ∧ (bval b = 0 → bval c = 0 → decode_group c0 c1 PAD PAD = Some [a])
    ∧ c0 ∈ ALPHABET ∧ c1 ∈ ALPHABET ∧ c2 ∈ ALPHABET ∧ c3 ∈ ALPHABET.
Proof.
  destruct (encode_group_spec a b c) as (c0 & c1 & c2 & c3 & He & H0 & H1 & H2 & H3 & ? & ?).
  exists c0, c1, c2, c3. split; [done|].
  pose proof (bval_range a). pose proof (bval_range b). pose proof (bval_range c).
  assert (Ea : ∀ x, 0 <= x < 16 → byte_of (bval a / 4 * 4 + (bval a mod 4 * 16 + x) / 16) = a).
  { intros x ?. apply byte_of_eq. div_lia. }
  assert (Eb : ∀ x, 0 <= x < 4 →
    byte_of ((bval a mod 4 * 16 + bval b / 16) * 16 + (bval b mod 16 * 4 + x) / 4) = b).
  { intros x ?. apply bval_inj. rewrite bval_byte_of. div_lia. }
  assert (Ec : byte_of ((bval b mod 16 * 4 + bval c / 64) * 64 + bval c mod 64) = c).
  { apply bval_inj. rewrite bval_byte_of. div_lia. }
  split_and!; eauto using sextet_in; unfold decode_group; rewrite H0, H1; cbn [mbind option_bind].
  - rewrite !decide_False, H2 by done. cbn [mbind option_bind]. rewrite decide_False, H3 by done.
    cbn [mbind option_bind]. rewrite Ea, Eb, Ec by div_lia. done.
  - intros Hc. rewrite decide_False, H2 by done. cbn [mbind option_bind].
    rewrite decide_True by done. rewrite Ea, Eb by div_lia. done.
  - intros Hb Hc. rewrite !decide_True by done. rewrite Ea by div_lia. done.
Qed.

(** The encoding of [input], its length and its decoding. *)
Lemma encoding_spec input :
  ∃ e, encoding input = Some e ∧ decode e = Some input
    ∧ Z.of_nat (length e) = encoded_len (Z.of_nat (length input))
    ∧ Forall (λ c, c ∈ ALPHABET ∨ c = PAD) e.
Proof.
  induction input as [|a|a b|a b c s (e & He & Hd & Hl & Hf)] using groups_ind.
  - by exists [].
  - destruct (encode_group_decode a x00 x00) as (c0 & c1 & c2 & c3 & He & _ & _ & Hd & ? & ? & _).
    exists [c0; c1; PAD; PAD]. cbn [encoding]. rewrite He. cbn -[ALPHABET].
    rewrite Hd by done. split_and!; [done|done|done|]. repeat (constructor; auto).
  - destruct (encode_group_decode a b x00) as (c0 & c1 & c2 & c3 & He & _ & Hd & _ & ? & ? & ? & _).
    exists [c0; c1; c2; PAD]. cbn [encoding]. rewrite He. cbn -[ALPHABET].
    rewrite Hd by done. split_and!; [done|done|done|]. repeat (constructor; auto).
  - destruct (encode_group_decode a b c) as (c0 & c1 & c2 & c3 & Hg & Hd' & _ & _ & ? & ? & ? & ?).
    exists ([c0; c1; c2; c3] ++ e). cbn [encoding]. rewrite Hg. cbn -[ALPHABET decode].
    rewrite He. cbn -[ALPHABET decode]. split_and!; [done| | |repeat (constructor; auto)].
    + cbn [decode]. rewrite Hd'. cbn -[decode]. destruct e as [|x e]; [by injection Hd as <-|].
      rewrite Hd. done.
    + revert Hl. unfold encoded_len, INPUT_GROUP, OUTPUT_GROUP. cbn [length].
      rewrite !Nat2Z.inj_succ. repeat case_match; to_prop; div_lia.
Qed.
