(* ===== verification/ClientError.v ===== *)
(** [imap-client/src/error.rs]: the client's error type, and the sanitising
    constructor every server-supplied text goes through. *)

From S2P Require Import Prelude Str Ast.
From stdpp Require Import options.

(** [error.rs: ClientError]. A [std::io::Error] is its description. *)
Inductive ClientError : Type :=
| CE_Io (e : string)
| CE_Parse (e : ParseError)
| CE_ConnectionClosed
| CE_FrameTooLarge (max : Z)
| CE_CommandFailed (text : str)
| CE_UnsupportedCapability (what : string)
| CE_Timeout
| CE_InvalidArgument (what : string).

#[export] Instance ClientError_eq_dec : EqDecision ClientError.
Proof. solve_decision. Defined.

(** [Result<T, ClientError>]. *)
Abbreviation res A := (A + ClientError)%type.

#[export] Instance res_ret : MRet (λ A, res A) := λ A a, inl a.
#[export] Instance res_bind : MBind (λ A, res A) := λ A B k m,
  match m with inl a => k a | inr e => inr e end.

Definition MAX_SERVER_TEXT_CHARS : nat := 512.

(** U+FFFD and U+2026. *)
Definition REPLACEMENT : char := 0xFFFD.
Definition ELLIPSIS : char := 0x2026.

(** [char::is_control]: the category Cc. *)
Definition is_control (c : char) : bool :=
  ((0 <=? c) && (c <=? 0x1F)) || ((0x7F <=? c) && (c <=? 0x9F)).

Definition is_unsafe_to_display (c : char) : bool :=
  is_control c
  || (c =? 0x061C) || (c =? 0x200E) || (c =? 0x200F) || (c =? 0x2028) || (c =? 0x2029)
  || ((0x202A <=? c) && (c <=? 0x202E)) || ((0x2066 <=? c) && (c <=? 0x2069)).

(** The characters of [command_failed]'s text. *)
Definition safe_chars (cs : list char) : list char :=
  ((λ c, if is_unsafe_to_display c then REPLACEMENT else c) <$> take MAX_SERVER_TEXT_CHARS cs)
  ++ (if cs !! MAX_SERVER_TEXT_CHARS is Some _ then [ELLIPSIS] else []).

Definition command_failed (text : str) : ClientError :=
  CE_CommandFailed (encode (safe_chars (chars text))).

(* ------------------------------------------------------------------ *)
(** ** Lemmas                                                           *)
(* ------------------------------------------------------------------ *)

Lemma safe_chars_scalar cs :
  Forall (λ c, is_scalar c = true) cs → Forall (λ c, is_scalar c = true) (safe_chars cs).
Proof.
  intros Hcs. apply Forall_app; split.
  - apply Forall_fmap. eapply Forall_impl; [by apply Forall_take|].
    intros c ?; cbn. by case_match.
  - case_match; by repeat constructor.
Qed.

Lemma safe_chars_safe cs : Forall (λ c, is_unsafe_to_display c = false) (safe_chars cs).
Proof.
  apply Forall_app; split.
  - apply Forall_fmap, Forall_forall. intros c _; cbn. by case_match.
  - case_match; by repeat constructor.
Qed.

Lemma length_safe_chars cs :
  (length (safe_chars cs) ≤ S MAX_SERVER_TEXT_CHARS)%nat.
Proof.
  unfold safe_chars. rewrite length_app, length_fmap, length_take.
  case_match; cbn [length]; lia.
Qed.

Lemma chars_command_failed text :
  chars (encode (safe_chars (chars text))) = safe_chars (chars text).
Proof. apply chars_encode, safe_chars_scalar, chars_scalar. Qed.

Lemma safe_chars_id cs :
  (length cs ≤ MAX_SERVER_TEXT_CHARS)%nat → Forall (λ c, is_unsafe_to_display c = false) cs →
  safe_chars cs = cs.
Proof.
  intros Hl Hs. unfold safe_chars. rewrite take_ge by done.
  rewrite (lookup_ge_None_2 cs) by done. rewrite app_nil_r.
  induction Hs as [|c cs Hc _ IH]; cbn; [done|]. rewrite Hc, IH; [done|]. cbn in Hl. lia.
Qed.

(* ------------------------------------------------------------------ *)
(** ** Properties                                                       *)
(* ------------------------------------------------------------------ *)

(** Whatever a server writes, the text of a [CommandFailed] is UTF-8, has
    at most 513 characters and none that can drive a terminal or reorder a
    log line. *)
Theorem command_failed_safe text :
  ∃ s, command_failed text = CE_CommandFailed s ∧ utf8_valid s = true
    ∧ (length (chars s) ≤ 513)%nat
    ∧ Forall (λ c, is_unsafe_to_display c = false) (chars s).
Proof.
  eexists. split; [done|]. rewrite chars_command_failed. split_and!.
  - apply utf8_valid_spec. eexists. split; [done|]. apply safe_chars_scalar, chars_scalar.
  - apply length_safe_chars.
  - apply safe_chars_safe.
Qed.

(** A text that is already safe and short enough is kept as it is. *)
Theorem command_failed_keeps text :
  utf8_valid text = true → (length (chars text) ≤ 512)%nat →
  Forall (λ c, is_unsafe_to_display c = false) (chars text) →
  command_failed text = CE_CommandFailed text.
Proof. intros. unfold command_failed. by rewrite safe_chars_id, encode_chars. Qed.
