(* ===== verification/Flags.v ===== *)
(** [imap-client/src/flags.rs]: message flags and [STORE] actions, in wire
    form. *)

From S2P Require Import Prelude Str Ast.
From stdpp Require Import options.

(** [flags.rs: Flag]. *)
Inductive Flag : Type :=
| Flag_Seen | Flag_Answered | Flag_Flagged | Flag_Deleted | Flag_Draft | Flag_Recent
| Flag_Custom (s : str).

#[export] Instance Flag_eq_dec : EqDecision Flag.
Proof. solve_decision. Defined.

(** [flags.rs: StoreAction]. *)
Inductive StoreAction : Type := Store_Add | Store_Remove | Store_Set.

(** [Flag]'s [Display]. *)
Definition flag_to_string (f : Flag) : str :=
  match f with
  | Flag_Seen => b! "\Seen"
  | Flag_Answered => b! "\Answered"
  | Flag_Flagged => b! "\Flagged"
  | Flag_Deleted => b! "\Deleted"
  | Flag_Draft => b! "\Draft"
  | Flag_Recent => b! "\Recent"
  | Flag_Custom s => s
  end.

Definition to_imap_prefix (a : StoreAction) (silent : bool) : str :=
  match a with
  | Store_Add => if silent then b! "+FLAGS.SILENT" else b! "+FLAGS"
  | Store_Remove => if silent then b! "-FLAGS.SILENT" else b! "-FLAGS"
  | Store_Set => if silent then b! "FLAGS.SILENT" else b! "FLAGS"
  end.

(** The action and its form are read back from the wire. *)
Lemma to_imap_prefix_inj a a' s s' : to_imap_prefix a s = to_imap_prefix a' s' → a = a' ∧ s = s'.
Proof. by destruct a, a', s, s'. Qed.
