(* ===== verification/Wire.v ===== *)
(** [imap-client/src/wire.rs]: validation of caller-supplied values before they
    are written into a command line, and quoting. *)

From S2P Require Import Prelude Str Ast Monad ResponseParser ParserSafety ParserRead.
From S2P Require Import Grammar GrammarComplete.
From S2P Require Import ClientError Flags.
From stdpp Require Import options.

Module wire.

(** CR, LF or NUL. *)
Definition is_line_break (b : byte) : bool := (b =?b CR) || (b =?b LF) || (b =?b NUL).

Definition reject_line_breaks (cmd : str) : res unit :=
  if existsb is_line_break cmd then inr (CE_InvalidArgument "command contains CR, LF or NUL")
  else inl tt.

Definition is_seq_number (number : str) : bool :=
  bool_decide (number = b! "*")
  || (negb (bool_decide (head number = Some "0"%byte))
      && forallb is_ascii_digit number
      && bool_decide (is_Some (parse_u32 number))).

Definition is_seq_range (range : str) : bool :=
  match split_on ":"%byte range with
  | [only] => is_seq_number only
  | [from; to] => is_seq_number from && is_seq_number to
  | _ => false
  end.

Definition sequence_set (set : str) : res str :=
  if negb (bool_decide (set = [])) && forallb is_seq_range (split_on ","%byte set) then inl set
  else inr (CE_InvalidArgument "sequence set").

Definition is_printable_ascii (b : byte) : bool := in_range 0x20 0x7E b.

(** The stack of open brackets, over the characters of the text. *)
Fixpoint brackets (open : list char) (cs : list char) : bool :=
  match cs with
  | [] => bool_decide (open = [])
  | c :: cs =>
    if (c =? 0x28) || (c =? 0x5B) then brackets (c :: open) cs
    else if c =? 0x29 then
      match open with o :: open' => if o =? 0x28 then brackets open' cs else false | [] => false end
    else if c =? 0x5D then
      match open with o :: open' => if o =? 0x5B then brackets open' cs else false | [] => false end
    else brackets open cs
  end.

Definition has_balanced_brackets (text : str) : bool := brackets [] (chars text).

Definition fetch_items (items : str) : res str :=
  let printable := forallb (λ b, is_printable_ascii b && negb (b =?b "{"%byte)) items in
  if negb (bool_decide (items = [])) && printable && has_balanced_brackets items then inl items
  else inr (CE_InvalidArgument "fetch items").

(** ATOM-CHAR of the commands: printable ASCII but the atom-specials. *)
Definition is_atom_char (b : byte) : bool :=
  is_printable_ascii b
  && negb ((b =?b SP) || (b =?b "("%byte) || (b =?b ")"%byte) || (b =?b "{"%byte)
           || (b =?b "%"%byte) || (b =?b "*"%byte) || (b =?b DQUOTE) || (b =?b BACKSLASH)
           || (b =?b "]"%byte)).

Definition is_flag_keyword (keyword : str) : bool :=
  let atom := match keyword with
              | b :: rest => if b =?b BACKSLASH then rest else keyword
              | [] => keyword
              end in
  negb (bool_decide (atom = [])) && forallb is_atom_char atom.

Definition flag (f : Flag) : res unit :=
  match f with
  | Flag_Custom keyword =>
    if negb (is_flag_keyword keyword) then inr (CE_InvalidArgument "flag keyword") else inl tt
  | _ => inl tt
  end.

(** The two characters [quote] escapes. *)
Definition is_quoted_special (b : byte) : bool := (b =?b DQUOTE) || (b =?b BACKSLASH).

(** [quote] goes over the characters of a [&str]; the escaped ones are ASCII,
    so the bytes of the others are copied. *)
Definition quote (text : str) : str :=
  [DQUOTE]
  ++ concat ((λ c, (if (c =? 0x22) || (c =? 0x5C) then [BACKSLASH] else []) ++ encode_char c)
             <$> chars text)
  ++ [DQUOTE].

(** The capacity [quote] reserves. *)
Definition quote_capacity (text : str) : nat :=
  length text + length (filter (λ b, is_quoted_special b = true) text) + 2.

End wire.

(* ------------------------------------------------------------------ *)
(** ** Quoted strings                                                   *)
(* ------------------------------------------------------------------ *)

(** The same, byte by byte. *)
Definition escape (text : bytes) : bytes :=
  concat ((λ b, if wire.is_quoted_special b then [BACKSLASH; b] else [b]) <$> text).

(** How a server reads a quoted string (RFC 9051 §4.3): the text, and what
    follows the closing quote. *)
Fixpoint unquote_body (s : bytes) : option (bytes * bytes) :=
  match s with
  | [] => None
  | c :: s' =>
    if c =?b DQUOTE then Some ([], s')
    else if c =?b BACKSLASH then
      match s' with
      | c' :: s'' =>
        if wire.is_quoted_special c' then
          '(t, rest) ← unquote_body s''; Some (c' :: t, rest)
        else None
      | [] => None
      end
    else if wire.is_line_break c then None
    else '(t, rest) ← unquote_body s'; Some (c :: t, rest)
  end.

Definition unquote (s : bytes) : option (bytes * bytes) :=
  match s with
  | c :: s' => if c =?b DQUOTE then unquote_body s' else None
  | [] => None
  end.

Lemma escape_app s t : escape (s ++ t) = escape s ++ escape t.
Proof. unfold escape. by rewrite fmap_app, concat_app. Qed.

Lemma escape_plain s : Forall (λ b, wire.is_quoted_special b = false) s → escape s = s.
Proof.
  intros H. induction H as [|b s Hb _ IH]; [done|].
  change (b :: s) with ([b] ++ s) at 1. rewrite escape_app, IH. unfold escape. cbn.
  by rewrite Hb.
Qed.

Lemma special_bval b : wire.is_quoted_special b = true ↔ bval b = 0x22 ∨ bval b = 0x5C.
Proof.
  unfold wire.is_quoted_special. rewrite orb_true_iff, !byte_eqb_true. split.
  - intros [-> | ->]; [by left|by right].
  - intros [H|H]; [left|right]; by apply bval_inj.
Qed.

Lemma encode_char_plain c :
  is_scalar c = true → c ≠ 0x22 → c ≠ 0x5C →
  Forall (λ b, wire.is_quoted_special b = false) (encode_char c).
Proof.
  intros Hs%is_scalar_spec H1 H2. apply Forall_forall. intros b Hb.
  apply not_true_iff_false. intros Hsp%special_bval. revert Hb.
  unfold encode_char. repeat case_match; to_prop; intros Hb;
    repeat (apply elem_of_cons in Hb as [->|Hb]; [rewrite bval_byte_of in Hsp; div_lia|]);
    by apply not_elem_of_nil in Hb.
Qed.

Lemma quote_escape text :
  utf8_valid text = true → wire.quote text = [DQUOTE] ++ escape text ++ [DQUOTE].
Proof.
  intros (cs & -> & Hcs)%utf8_valid_spec. unfold wire.quote. rewrite chars_encode by done.
  do 2 f_equal. induction Hcs as [|c cs Hc _ IH]; [done|].
  change (encode (c :: cs)) with (encode_char c ++ encode cs).
  rewrite escape_app, <- IH. cbn [fmap list_fmap concat]. f_equal.
  destruct (c =? 0x22) eqn:E1; to_prop; [by subst|].
  destruct (c =? 0x5C) eqn:E2; to_prop; [by subst|]. cbn [orb app].
  by rewrite escape_plain by (by apply encode_char_plain).
Qed.

Lemma no_line_break text :
  wire.reject_line_breaks text = inl tt ↔ Forall (λ b, wire.is_line_break b = false) text.
Proof.
  unfold wire.reject_line_breaks. destruct (existsb _ text) eqn:He.
  - apply existsb_exists in He as (b & Hin%list_elem_of_In & Hb). split; [done|].
    rewrite Forall_forall. intros H. by rewrite (H b Hin) in Hb.
  - split; [|done]. intros _. apply Forall_forall. intros b Hin.
    destruct (wire.is_line_break b) eqn:Hb; [|done].
    rewrite <- not_true_iff_false in He. exfalso. apply He, existsb_exists.
    exists b. split; [by apply list_elem_of_In|done].
Qed.

Lemma unquote_escape text rest :
  Forall (λ b, wire.is_line_break b = false) text →
  unquote_body (escape text ++ DQUOTE :: rest) = Some (text, rest).
Proof.
  intros H. induction H as [|b s Hb _ IH]; [done|].
  change (b :: s) with ([b] ++ s) at 1. rewrite escape_app. unfold escape at 1. cbn [fmap list_fmap concat].
  destruct (wire.is_quoted_special b) eqn:Hs; cbn [app unquote_body].
  - rewrite (proj2 (byte_eqb_false BACKSLASH DQUOTE)), byte_eqb_refl, Hs by done.
    by rewrite IH.
  - pose proof Hs as Hs'. unfold wire.is_quoted_special in Hs'.
    apply orb_false_iff in Hs' as [-> ->]. by rewrite Hb, IH.
Qed.

Lemma escape_quoted_body text :
  Forall (λ b, wire.is_line_break b = false) text → quoted_body (escape text).
Proof.
  intros H. induction H as [|b s Hb _ IH]; [constructor|].
  change (b :: s) with ([b] ++ s). rewrite escape_app. unfold escape at 1. cbn [fmap list_fmap concat].
  unfold wire.is_line_break in Hb. destr_bools. byte_props.
  unfold wire.is_quoted_special. destruct (byte_eqb_spec b DQUOTE) as [->|?]; cbn [orb app].
  { apply quoted_escape; [by left|done]. }
  destruct (byte_eqb_spec b BACKSLASH) as [->|?]; cbn [app].
  { apply quoted_escape; [by right|done]. }
  by apply quoted_char.
Qed.

Lemma escape_utf8 text : utf8_valid text = true → utf8_valid (escape text) = true.
Proof.
  intros (cs & -> & Hcs)%utf8_valid_spec. induction Hcs as [|c cs Hc _ IH]; [done|].
  change (encode (c :: cs)) with (encode_char c ++ encode cs). rewrite escape_app.
  apply utf8_valid_app; [|done].
  destruct (decide (c = 0x22)) as [->|?]; [done|]. destruct (decide (c = 0x5C)) as [->|?]; [done|].
  rewrite escape_plain by (by apply encode_char_plain).
  apply utf8_valid_spec. exists [c]. split; [|by repeat constructor]. unfold encode. cbn.
  by rewrite app_nil_r.
Qed.

(** The crate's own parser accepts what [quote] writes. *)
Lemma reads_quote text rest :
  utf8_valid text = true → wire.reject_line_breaks text = inl tt →
  reads Parser.parse_quoted (wire.quote text) rest (escape text) 0.
Proof.
  intros Hu H%no_line_break. rewrite quote_escape by done. cbn [app].
  apply reads_parse_quoted; [by apply escape_quoted_body|by apply escape_utf8].
Qed.

Lemma length_escape text :
  length (escape text) = (length text + length (filter (λ b, wire.is_quoted_special b = true) text))%nat.
Proof.
  induction text as [|b s IH]; [done|]. change (b :: s) with ([b] ++ s) at 1.
  rewrite escape_app, length_app, IH. unfold escape. cbn [fmap list_fmap concat].
  destruct (wire.is_quoted_special b) eqn:Hs.
  - rewrite filter_cons_True by done. cbn. lia.
  - rewrite filter_cons_False by congruence. cbn. lia.
Qed.

(** C36: a server that reads what [quote] wrote gets back exactly the text,
    with nothing left over and nothing swallowed. *)
Theorem quote_roundtrip text rest :
  utf8_valid text = true → wire.reject_line_breaks text = inl tt →
  unquote (wire.quote text ++ rest) = Some (text, rest).
Proof.
  intros Hu H%no_line_break. rewrite quote_escape by done.
  rewrite <- !app_assoc. cbn [app unquote]. rewrite byte_eqb_refl. by apply unquote_escape.
Qed.

Lemma quote_roundtrip_witness :
  unquote (wire.quote [BACKSLASH; DQUOTE; SP] ++ b! ")") = Some ([BACKSLASH; DQUOTE; SP], b! ")").
Proof. apply quote_roundtrip; vm_compute; reflexivity. Defined.

(** [quote] writes exactly as many bytes as it reserved. *)
Theorem quote_exact_size text :
  utf8_valid text = true → length (wire.quote text) = wire.quote_capacity text.
Proof.
  intros Hu. rewrite quote_escape by done. unfold wire.quote_capacity. rewrite !length_app.
  cbn [length]. rewrite length_escape. lia.
Qed.

(* ------------------------------------------------------------------ *)
(** ** Sequence sets                                                    *)
(* ------------------------------------------------------------------ *)

(** The [sequence-set] of RFC 9051 §9 and how it is written. *)
Inductive seq_number : Type := Seq_Star | Seq_Num (n : Z).
Inductive seq_range : Type := Seq_One (a : seq_number) | Seq_Range (a b : seq_number).

Definition seq_number_ok (x : seq_number) : Prop :=
  match x with Seq_Star => True | Seq_Num n => 1 <= n <= u32_max end.
Definition seq_range_ok (r : seq_range) : Prop :=
  match r with Seq_One a => seq_number_ok a | Seq_Range a b => seq_number_ok a ∧ seq_number_ok b end.

Definition print_seq_number (x : seq_number) : bytes :=
  match x with Seq_Star => b! "*" | Seq_Num n => fmt_dec n end.
Definition print_seq_range (r : seq_range) : bytes :=
  match r with
  | Seq_One a => print_seq_number a
  | Seq_Range a b => join (b! ":") [print_seq_number a; print_seq_number b]
  end.
Definition print_sequence_set (rs : list seq_range) : bytes := join (b! ",") (print_seq_range <$> rs).

Lemma is_seq_number_spec s :
  wire.is_seq_number s = true ↔ ∃ x, seq_number_ok x ∧ s = print_seq_number x.
Proof.
  unfold wire.is_seq_number. rewrite orb_true_iff, !andb_true_iff, negb_true_iff.
  rewrite bool_decide_eq_false, !bool_decide_eq_true, forallb_Forall. split.
  - intros [->|[[Hh Hd] [n Hn]]]; [by exists Seq_Star|].
    destruct s as [|b s]; [done|].
    assert (Hz : no_leading_zero (b :: s)) by (exists b, s; split; [done|]; by intros ->).
    apply digits_parse in Hn as [-> [_ ?]]; [|done..].
    exists (Seq_Num (dec_val (b :: s))). split; [|by cbn [print_seq_number]; rewrite fmt_dec_dec_val].
    split; [by apply no_leading_zero_pos|done].
  - intros ([|n] & Hx & ->); [by left|right]. cbn in Hx. unfold u32_max in Hx. cbn [print_seq_number].
    destruct (fmt_dec_spec n) as (? & ? & ?); [lia|].
    destruct (fmt_dec_head n) as (b & t & Hb & Hb0); [lia|]. split_and!.
    + rewrite Hb. cbn. congruence.
    + done.
    + rewrite parse_u32_fmt_dec; [done|]. unfold u32_max. lia.
Qed.

(** What is written for a number holds neither separator. *)
Lemma print_seq_number_bytes x c :
  seq_number_ok x → c ∈ print_seq_number x → c = "*"%byte ∨ is_ascii_digit c = true.
Proof.
  destruct x as [|n]; cbn [seq_number_ok print_seq_number]; intros Hn Hc.
  - left. by apply list_elem_of_singleton in Hc.
  - right. unfold u32_max in Hn. destruct (fmt_dec_spec n) as (_ & Hd & _); [lia|].
    rewrite Forall_forall in Hd. by apply Hd.
Qed.

Lemma print_seq_number_sep x :
  seq_number_ok x → (":"%byte ∉ print_seq_number x) ∧ (","%byte ∉ print_seq_number x).
Proof. intros Hx. split; intros H%print_seq_number_bytes; try done; by destruct H. Qed.

Lemma is_seq_range_spec s :
  wire.is_seq_range s = true ↔ ∃ r, seq_range_ok r ∧ s = print_seq_range r.
Proof.
  unfold wire.is_seq_range. split.
  - pose proof (join_split_on ":"%byte s) as Hj.
    destruct (split_on ":"%byte s) as [|p [|q [|? ?]]]; try done.
    + intros (x & Hx & ->)%is_seq_number_spec. by exists (Seq_One x).
    + intros [(x & Hx & ->)%is_seq_number_spec (y & Hy & ->)%is_seq_number_spec]%andb_true_iff.
      by exists (Seq_Range x y).
  - intros ([a|a b] & Hr & ->); cbn [seq_range_ok print_seq_range] in *.
    + pose proof (print_seq_number_sep a Hr) as [Ha _].
      pose proof (split_on_join ":"%byte [print_seq_number a]) as Hj. cbn [join] in Hj.
      rewrite Hj by (done || by repeat constructor). apply is_seq_number_spec. eauto.
    + destruct Hr as [Ha Hb]. pose proof (print_seq_number_sep a Ha) as [Ha' _].
      pose proof (print_seq_number_sep b Hb) as [Hb' _].
      change (b! ":") with [":"%byte]. rewrite split_on_join by (done || by repeat constructor).
      apply andb_true_iff. split; apply is_seq_number_spec; eauto.
Qed.

Lemma print_seq_range_bytes r c :
  seq_range_ok r → c ∈ print_seq_range r →
  c = "*"%byte ∨ c = ":"%byte ∨ is_ascii_digit c = true.
Proof.
  destruct r as [a|a b]; cbn [seq_range_ok print_seq_range join]; intros Hr Hc.
  - apply print_seq_number_bytes in Hc as [?|?]; auto.
  - destruct Hr as [Ha Hb].
    apply elem_of_app in Hc as [Hc|[Hc|Hc]%elem_of_app].
    + apply print_seq_number_bytes in Hc as [?|?]; auto.
    + apply list_elem_of_singleton in Hc. auto.
    + apply print_seq_number_bytes in Hc as [?|?]; auto.
Qed.

Lemma print_seq_range_ne r : seq_range_ok r → print_seq_range r ≠ [].
Proof.
  assert (Hn : ∀ x, seq_number_ok x → print_seq_number x ≠ []).
  { intros [|n]; [done|]. cbn. unfold u32_max. intros. by apply fmt_dec_spec; lia. }
  destruct r as [a|a b]; cbn; [apply Hn|]. intros [Ha _] [? _]%app_eq_nil. by apply (Hn a).
Qed.

Lemma seq_ranges_spec ps :
  Forall (λ p, wire.is_seq_range p = true) ps ↔
  ∃ rs, Forall seq_range_ok rs ∧ ps = print_seq_range <$> rs.
Proof.
  split.
  - intros H. induction H as [|p ps (r & Hr & ->)%is_seq_range_spec _ (rs & Hrs & ->)];
      [by exists []|]. exists (r :: rs). by split; [constructor|].
  - intros (rs & Hrs & ->). apply Forall_fmap. eapply Forall_impl; [exact Hrs|].
    intros r Hr. apply is_seq_range_spec. eauto.
Qed.

(** C37: [sequence_set] accepts exactly the texts RFC 9051 writes for a
    non-empty [sequence-set] of 32-bit numbers, and returns its argument. *)
Theorem sequence_set_grammar set s :
  wire.sequence_set set = inl s ↔
  s = set ∧ ∃ rs, rs ≠ [] ∧ Forall seq_range_ok rs ∧ set = print_sequence_set rs.
Proof.
  unfold wire.sequence_set, print_sequence_set.
  destruct (decide (set = [])) as [->|Hne].
  - rewrite bool_decide_true by done. cbn [negb andb]. split; [done|].
    intros (_ & rs & Hrs & Hok & Hs). destruct rs as [|r rs]; [done|].
    apply Forall_cons in Hok as [Hr _]. apply print_seq_range_ne in Hr.
    destruct rs; cbn in Hs; [congruence|]. symmetry in Hs. by apply app_eq_nil in Hs as [? _].
  - rewrite bool_decide_false by done. cbn [negb andb].
    destruct (forallb _ _) eqn:Hf; split; try done.
    + intros [= <-]. apply forallb_Forall, seq_ranges_spec in Hf as (rs & Hrs & Hs).
      split; [done|]. exists rs. split; [|split; [done|]].
      * intros ->. by apply split_on_ne in Hs.
      * rewrite <- Hs. symmetry. apply join_split_on.
    + by intros [-> _].
    + intros (-> & rs & Hrs & Hok & ->). exfalso. apply not_true_iff_false in Hf. apply Hf.
      change (b! ",") with [","%byte]. rewrite split_on_join.
      * apply forallb_Forall, seq_ranges_spec. eauto.
      * by destruct rs.
      * apply Forall_fmap. eapply Forall_impl; [exact Hok|]. intros r Hr Hc. cbn in Hc.
        apply print_seq_range_bytes in Hc; [|done]. by destruct Hc as [|[|]].
Qed.

(* ------------------------------------------------------------------ *)
(** ** FETCH items                                                      *)
(* ------------------------------------------------------------------ *)

Definition is_bracket (c : char) : bool :=
  (c =? 0x28) || (c =? 0x5B) || (c =? 0x29) || (c =? 0x5D).

(** Texts whose parentheses and square brackets pair up and nest. *)
Inductive balanced : list char → Prop :=
| balanced_nil : balanced []
| balanced_char c s : is_bracket c = false → balanced s → balanced (c :: s)
| balanced_paren s t : balanced s → balanced t → balanced (0x28 :: s ++ 0x29 :: t)
| balanced_square s t : balanced s → balanced t → balanced (0x5B :: s ++ 0x5D :: t).

Definition closing (o : char) : char := if o =? 0x28 then 0x29 else 0x5D.

(** [cs] closes the brackets [open], innermost first. *)
Fixpoint closes (open : list char) (cs : list char) : Prop :=
  match open with
  | [] => balanced cs
  | o :: open => ∃ s t, cs = s ++ closing o :: t ∧ balanced s ∧ closes open t
  end.

Lemma brackets_balanced s open t : balanced s → wire.brackets open (s ++ t) = wire.brackets open t.
Proof.
  intros H. revert open t.
  induction H as [|c s Hc _ IH|s u _ IHs _ IHu|s u _ IHs _ IHu]; intros open t; [done|..].
  - unfold is_bracket in Hc. destr_bools. cbn [app wire.brackets].
    repeat match goal with H : (_ =? _) = false |- _ => rewrite H; clear H end. apply IH.
  - cbn [app wire.brackets]. cbn -[wire.brackets]. rewrite <- app_assoc, IHs. cbn. apply IHu.
  - cbn [app wire.brackets]. cbn -[wire.brackets]. rewrite <- app_assoc, IHs. cbn. apply IHu.
Qed.

Lemma closes_skip c open cs :
  is_bracket c = false → closes open cs → closes open (c :: cs).
Proof.
  intros Hc. destruct open as [|o open]; cbn [closes]; [by apply balanced_char|].
  intros (s & t & -> & Hs & Ht). exists (c :: s), t. split; [done|]. split; [by apply balanced_char|done].
Qed.

Lemma closes_open o open cs :
  o = 0x28 ∨ o = 0x5B → closes (o :: open) cs → closes open (o :: cs).
Proof.
  intros Ho (s & t & -> & Hs & Ht).
  assert (Hb : ∀ u, balanced u → balanced (o :: s ++ closing o :: u)).
  { intros u Hu. destruct Ho as [-> | ->]; [by apply balanced_paren|by apply balanced_square]. }
  destruct open as [|o' open]; cbn [closes] in *; [by apply Hb|].
  destruct Ht as (s' & t' & -> & Hs' & Ht'). exists (o :: s ++ closing o :: s'), t'.
  split; [by rewrite <- app_comm_cons, <- app_assoc|]. split; [by apply Hb|done].
Qed.

Lemma brackets_closes open cs : wire.brackets open cs = true → closes open cs.
Proof.
  revert open. induction cs as [|c cs IH]; intros open; cbn [wire.brackets].
  { intros ->%bool_decide_eq_true. constructor. }
  destruct ((c =? 0x28) || (c =? 0x5B)) eqn:Ho.
  { intros H%IH. apply closes_open; [|done]. apply orb_true_iff in Ho. to_prop. lia. }
  destruct (c =? 0x29) eqn:E1; to_prop.
  { destruct open as [|o open]; [done|]. destruct (o =? 0x28) eqn:E; [|done].
    intros H%IH. exists [], cs. split; [|split; [constructor|done]].
    unfold closing. by rewrite E, E1. }
  destruct (c =? 0x5D) eqn:E2; to_prop.
  { destruct open as [|o open]; [done|]. destruct (o =? 0x5B) eqn:E; [|done]. to_prop.
    intros H%IH. exists [], cs. split; [|split; [constructor|done]].
    by rewrite E, E2. }
  intros H%IH. apply closes_skip; [|done]. unfold is_bracket. rewrite Ho.
  by rewrite (proj2 (Z.eqb_neq c 0x29)), (proj2 (Z.eqb_neq c 0x5D)).
Qed.

Lemma brackets_spec cs : wire.brackets [] cs = true ↔ balanced cs.
Proof.
  split; [apply brackets_closes|]. intros H. rewrite <- (app_nil_r cs).
  by rewrite brackets_balanced.
Qed.

(** C38: [fetch_items] accepts exactly the non-empty printable ASCII texts
    without an opening brace whose brackets pair up and nest. *)
Theorem fetch_items_grammar items s :
  wire.fetch_items items = inl s ↔
  s = items ∧ items ≠ [] ∧ Forall (λ b, 0x20 <= bval b <= 0x7E ∧ b ≠ "{"%byte) items
  ∧ balanced (chars items).
Proof.
  unfold wire.fetch_items, wire.has_balanced_brackets.
  assert (Hp : forallb (λ b, wire.is_printable_ascii b && negb (b =?b "{"%byte)) items = true ↔
    Forall (λ b, 0x20 <= bval b <= 0x7E ∧ b ≠ "{"%byte) items).
  { rewrite forallb_Forall. apply Forall_proper; [|done]. intros b.
    rewrite andb_true_iff, negb_true_iff, byte_eqb_false.
    unfold wire.is_printable_ascii, in_range. rewrite andb_true_iff, !Z.leb_le. done. }
  rewrite <- brackets_spec, <- Hp.
  destruct (decide (items = [])) as [->|Hne]; [split; [done|by intros (_ & ? & _)]|].
  rewrite bool_decide_false by done. cbn [negb andb].
  destruct (forallb _ items), (wire.brackets [] (chars items)); cbn [andb];
    (split; [intros [= <-]; by split_and!|by intros (-> & _ & ? & ?)]).
Qed.

(* ------------------------------------------------------------------ *)
(** ** Flags                                                            *)
(* ------------------------------------------------------------------ *)

(** What the commands call an atom character, the parser does too. *)
Lemma wire_atom_char b :
  wire.is_atom_char b = true → is_atom_char b = true ∧ bval b < 0x80 ∧ wire.is_line_break b = false.
Proof.
  unfold wire.is_atom_char, wire.is_printable_ascii, in_range. intros H.
  apply andb_true_iff in H as [Hr H]. apply andb_true_iff in Hr as [H1%Z.leb_le H2%Z.leb_le].
  apply negb_true_iff in H. destr_bools. split_and!.
  - unfold is_atom_char. apply negb_true_iff.
    repeat match goal with H : (_ =?b _) = false |- _ => rewrite H; clear H end.
    unfold in_range. rewrite (proj2 (Z.leb_gt (bval b) 0x1F)) by lia. rewrite andb_false_r.
    destruct (byte_eqb_spec b x7f) as [->|_]; [by vm_compute in H2|done].
  - lia.
  - unfold wire.is_line_break. destruct (byte_eqb_spec b CR) as [->|_]; [done|].
    destruct (byte_eqb_spec b LF) as [->|_]; [done|].
    by destruct (byte_eqb_spec b NUL) as [->|_].
Qed.

Lemma flag_keyword_is_flag s : wire.is_flag_keyword s = true → is_flag s.
Proof.
  unfold wire.is_flag_keyword. intros [Hne%negb_true_iff%bool_decide_eq_false Hall]%andb_true_iff.
  apply forallb_Forall in Hall. destruct s as [|b s]; [done|].
  destruct (byte_eqb_spec b BACKSLASH) as [->|Hb].
  - split.
    + apply utf8_valid_ascii. constructor; [by vm_compute|]. eapply Forall_impl; [exact Hall|].
      intros c Hc%wire_atom_char. apply Hc.
    + right; right. exists s. split; [done|]. eapply Forall_impl; [exact Hall|].
      intros c Hc%wire_atom_char. apply Hc.
  - assert (Hu : utf8_valid (b :: s) = true).
    { apply utf8_valid_ascii. eapply Forall_impl; [exact Hall|].
      intros c Hc%wire_atom_char. apply Hc. }
    split; [done|]. left. split; [done|]. split; [|done]. eapply Forall_impl; [exact Hall|].
    intros c Hc%wire_atom_char. apply Hc.
Qed.

Lemma flag_is_flag f : wire.flag f = inl tt → is_flag (flag_to_string f).
Proof.
  destruct f as [| | | | | |s]; cbn [wire.flag flag_to_string];
    [intros _; split; [done|]; right; right; eexists; split; [done|]; by repeat constructor..|].
  destruct (wire.is_flag_keyword s) eqn:Hk; [|done]. intros _. by apply flag_keyword_is_flag.
Qed.

Lemma separated_join (l : list str) :
  l ≠ [] → Forall is_flag l → grammar.separated grammar.flag l (join [SP] l).
Proof.
  intros Hne Hl. induction Hl as [|x l Hx Hl IH]; [done|]. destruct l as [|y l].
  - by apply grammar.separated_one.
  - change (join [SP] (x :: y :: l)) with (x ++ SP :: join [SP] (y :: l)).
    apply grammar.separated_cons; [done|by apply IH].
Qed.

(** The list a [STORE] sends, as the crate's parser reads such a list. *)
Lemma reads_flag_list (flags : list Flag) rest :
  Forall (λ f, wire.flag f = inl tt) flags →
  reads Parser.parse_paren_atom_list
    (b! "(" ++ join (b! " ") (flag_to_string <$> flags) ++ b! ")") rest
    (flag_to_string <$> flags) (length flags).
Proof.
  intros Hf. rewrite <- (length_fmap flag_to_string). apply reads_flags.
  destruct flags as [|f flags]; [constructor|]. constructor. apply separated_join; [done|].
  apply Forall_fmap. eapply Forall_impl; [exact Hf|]. intros g. apply flag_is_flag.
Qed.

(** C39: a list of validated flags, written as [STORE] writes it, is read back
    by the response parser as exactly those flags: no flag closes the list or
    adds another. *)
Theorem flag_list_roundtrip flags rest :
  Forall (λ f, wire.flag f = inl tt) flags → Z.of_nat (length flags) <= MAX_ITEMS_PER_RESPONSE →
  let line := b! "(" ++ join (b! " ") (flag_to_string <$> flags) ++ b! ")" in
  Z.of_nat (length (line ++ rest)) <= usize_max →
  Parser.parse_paren_atom_list (line ++ rest) Parser.new
  = Ok (flag_to_string <$> flags)
      (mkPstate (length line) (MAX_ITEMS_PER_RESPONSE - Z.of_nat (length flags))).
Proof.
  intros Hf Hn line Hu. apply (reads_flag_list flags rest Hf (line ++ rest) Parser.new);
    [done|cbn; lia|done..].
Qed.

Lemma flag_list_roundtrip_witness :
  Parser.parse_paren_atom_list (b! "(\Seen Junk)" ++ [CR; LF]) Parser.new
  = Ok [b! "\Seen"; b! "Junk"] (mkPstate 12 (MAX_ITEMS_PER_RESPONSE - 2)).
Proof.
  apply (flag_list_roundtrip [Flag_Seen; Flag_Custom (b! "Junk")] [CR; LF]).
  - repeat (constructor; [vm_compute; reflexivity|]). constructor.
  - vm_compute. discriminate.
  - vm_compute. discriminate.
Defined.
