(* ===== verification/Credentials.v ===== *)
(** [imap-client/src/credentials.rs]: the secret wrappers, what they show of
    themselves, and the quoting of credentials. The memory behind them, and its
    wiping on drop, is in [Secrets]. *)

From S2P Require Import Prelude Str Ast Monad ResponseParser ParserSafety ParserRead.
From S2P Require Import ClientError Wire.
From stdpp Require Import options.

(** A byte that cannot appear inside a quoted string. *)
Definition disallowed_in_quoted (b : byte) : bool :=
  (b =?b CR) || (b =?b LF) || (b =?b NUL) || (0x7F <? bval b).

Definition disallowed_text : str :=
  b! "value contains characters disallowed in IMAP quoted string; use AUTHENTICATE for 8-bit or control-byte values".

Definition imap_quoted (s : str) : res str :=
  if existsb disallowed_in_quoted s then inr (CE_CommandFailed disallowed_text)
  else inl (wire.quote s).

(** [struct Password(String)]; the field is private. *)
Record Password : Type := Password_new { password_str : str }.
Definition password_as_str (p : Password) : str := password_str p.
Definition as_imap_quoted (p : Password) : res str := imap_quoted (password_str p).

Record OAuthToken : Type := OAuthToken_new { token_str : str }.
Definition token_as_str (t : OAuthToken) : str := token_str t.

(** The [Debug] output of both. *)
Definition redacted : str := [DQUOTE] ++ b! "***" ++ [DQUOTE].
Definition password_debug (p : Password) : str := redacted.
Definition token_debug (t : OAuthToken) : str := redacted.

Lemma imap_quoted_ok s q :
  imap_quoted s = inl q ↔ q = wire.quote s ∧ Forall (λ b, disallowed_in_quoted b = false) s.
Proof.
  unfold imap_quoted. destruct (existsb _ s) eqn:He.
  - split; [done|]. intros [_ H]. apply existsb_exists in He as (b & Hin%list_elem_of_In & Hb).
    rewrite Forall_forall in H. by rewrite (H b Hin) in Hb.
  - split; [|by intros [-> _]]. intros [= <-]. split; [done|]. apply Forall_forall. intros b Hin.
    destruct (disallowed_in_quoted b) eqn:Hb; [|done]. exfalso.
    apply not_true_iff_false in He. apply He, existsb_exists.
    exists b. by rewrite <- list_elem_of_In.
Qed.

Lemma allowed_plain s :
  Forall (λ b, disallowed_in_quoted b = false) s →
  utf8_valid s = true ∧ wire.reject_line_breaks s = inl tt.
Proof.
  intros H. split.
  - apply utf8_valid_ascii. eapply Forall_impl; [exact H|]. unfold disallowed_in_quoted.
    intros b Hb. cbn in Hb. destr_bools. to_prop. lia.
  - apply no_line_break. eapply Forall_impl; [exact H|]. unfold disallowed_in_quoted.
    intros b Hb. cbn in Hb. destr_bools. unfold wire.is_line_break.
    by repeat match goal with H : (_ =?b _) = false |- _ => rewrite H; clear H end.
Qed.

Lemma imap_quoted_unquote s q rest :
  imap_quoted s = inl q → unquote (q ++ rest) = Some (s, rest).
Proof.
  intros [-> [? Hb%no_line_break]%allowed_plain]%imap_quoted_ok. rewrite quote_escape by done.
  rewrite <- !app_assoc. cbn [app unquote]. rewrite byte_eqb_refl. by apply unquote_escape.
Qed.

(** Quoting adds no line break. *)
Lemma escape_no_line_break s :
  Forall (λ b, wire.is_line_break b = false) s →
  Forall (λ b, wire.is_line_break b = false) (escape s).
Proof.
  intros H. induction H as [|b s Hb _ IH]; [constructor|].
  change (b :: s) with ([b] ++ s). rewrite escape_app. apply Forall_app; split; [|done].
  unfold escape. cbn. by case_match; repeat constructor.
Qed.

Lemma quote_no_line_break s :
  utf8_valid s = true → Forall (λ b, wire.is_line_break b = false) s →
  Forall (λ b, wire.is_line_break b = false) (wire.quote s).
Proof.
  intros Hu H. rewrite quote_escape by done.
  repeat (apply Forall_app; split); [by repeat constructor|by apply escape_no_line_break|
    by repeat constructor].
Qed.

(** [imap_quoted] succeeds exactly on the values made of the ASCII bytes
    but CR, LF and NUL; what it writes is then read back by a server as the
    value itself. *)
Theorem imap_quoted_spec s :
  match imap_quoted s with
  | inl q => Forall (λ b, disallowed_in_quoted b = false) s
      ∧ ∀ rest, unquote (q ++ rest) = Some (s, rest)
  | inr e => e = CE_CommandFailed disallowed_text
      ∧ ¬ Forall (λ b, disallowed_in_quoted b = false) s
  end.
Proof.
  destruct (imap_quoted s) as [q|e] eqn:Hq.
  - split; [by apply imap_quoted_ok in Hq as [_ ?]|]. intros rest. by apply imap_quoted_unquote.
  - split.
    + unfold imap_quoted in Hq. by destruct (existsb _ s); simplify_eq.
    + intros H. assert (Hi : imap_quoted s = inl (wire.quote s)) by (by apply imap_quoted_ok).
      congruence.
Qed.
