(* ===== verification/Search.v ===== *)
(** [imap-client/src/search.rs]: search criteria and their wire form. The form
    is shown right against the way a server reads it: a reference parser of the
    RFC 9051 search keys, and the messages a key selects. *)

From S2P Require Import Prelude Str Ast Monad ResponseParser ParserSafety ParserRead.
From S2P Require Import ClientError Wire Credentials.
From stdpp Require Import options.

(** [search.rs: SearchKey]. *)
Inductive SearchKey : Type :=
| SK_From (s : str) | SK_To (s : str) | SK_Subject (s : str) | SK_Body (s : str) | SK_Text (s : str)
| SK_All | SK_Answered | SK_Deleted | SK_Draft | SK_Flagged | SK_Recent | SK_Seen
| SK_Unanswered | SK_Undeleted | SK_Undraft | SK_Unflagged | SK_Unseen
| SK_And (keys : list SearchKey)
| SK_Or (left right : SearchKey)
| SK_Not (key : SearchKey).

Fixpoint to_imap_string (k : SearchKey) : str :=
  match k with
  | SK_From s => b! "FROM " ++ wire.quote s
  | SK_To s => b! "TO " ++ wire.quote s
  | SK_Subject s => b! "SUBJECT " ++ wire.quote s
  | SK_Body s => b! "BODY " ++ wire.quote s
  | SK_Text s => b! "TEXT " ++ wire.quote s
  | SK_All => b! "ALL"
  | SK_Answered => b! "ANSWERED"
  | SK_Deleted => b! "DELETED"
  | SK_Draft => b! "DRAFT"
  | SK_Flagged => b! "FLAGGED"
  | SK_Recent => b! "RECENT"
  | SK_Seen => b! "SEEN"
  | SK_Unanswered => b! "UNANSWERED"
  | SK_Undeleted => b! "UNDELETED"
  | SK_Undraft => b! "UNDRAFT"
  | SK_Unflagged => b! "UNFLAGGED"
  | SK_Unseen => b! "UNSEEN"
  | SK_And keys => join (b! " ") (to_imap_string <$> keys)
  | SK_Or l r => b! "OR (" ++ to_imap_string l ++ b! ") (" ++ to_imap_string r ++ b! ")"
  | SK_Not k => b! "NOT (" ++ to_imap_string k ++ b! ")"
  end.

(** [struct SearchQuery] and its constructors. *)
Record SearchQuery : Type := SearchQuery_new { query_key : SearchKey }.
Definition SearchQuery_from (addr : str) : SearchQuery := SearchQuery_new (SK_From addr).
Definition SearchQuery_to (addr : str) : SearchQuery := SearchQuery_new (SK_To addr).
Definition SearchQuery_subject (text : str) : SearchQuery := SearchQuery_new (SK_Subject text).
Definition build (q : SearchQuery) : str := to_imap_string (query_key q).

(* ------------------------------------------------------------------ *)
(** ** How a server reads search keys                                   *)
(* ------------------------------------------------------------------ *)

(** The keys without an argument, and those with a string. *)
Definition plain_keys : list (bytes * SearchKey) :=
  [(b! "ALL", SK_All); (b! "ANSWERED", SK_Answered); (b! "DELETED", SK_Deleted);
   (b! "DRAFT", SK_Draft); (b! "FLAGGED", SK_Flagged); (b! "RECENT", SK_Recent);
   (b! "SEEN", SK_Seen); (b! "UNANSWERED", SK_Unanswered); (b! "UNDELETED", SK_Undeleted);
   (b! "UNDRAFT", SK_Undraft); (b! "UNFLAGGED", SK_Unflagged); (b! "UNSEEN", SK_Unseen)].

Definition text_keys : list (bytes * (str → SearchKey)) :=
  [(b! "FROM", SK_From); (b! "TO", SK_To); (b! "SUBJECT", SK_Subject); (b! "BODY", SK_Body);
   (b! "TEXT", SK_Text)].

Fixpoint assoc {V} (w : bytes) (l : list (bytes * V)) : option V :=
  match l with
  | [] => None
  | (k, v) :: l => if decide (w = k) then Some v else assoc w l
  end.

(** The letters of a keyword. *)
Fixpoint word (s : bytes) : bytes * bytes :=
  match s with
  | c :: s' => if is_ascii_uppercase c then let '(w, r) := word s' in (c :: w, r) else ([], s)
  | [] => ([], [])
  end.

Definition expect (c : byte) (s : bytes) : option bytes :=
  match s with x :: s' => if x =?b c then Some s' else None | [] => None end.

(** [search-key] and [search-key *(SP search-key)]; a parenthesised list is a
    conjunction. *)
Fixpoint parse_key (fuel : nat) (s : bytes) : option (SearchKey * bytes) :=
  match fuel with
  | O => None
  | S fuel =>
    match expect "("%byte s with
    | Some s' =>
      '(ks, r) ← parse_keys fuel s'; r ← expect ")"%byte r; Some (SK_And ks, r)
    | None =>
      let '(w, r) := word s in
      match assoc w plain_keys with
      | Some k => Some (k, r)
      | None =>
        r ← expect SP r;
        match assoc w text_keys with
        | Some f => '(t, r) ← unquote r; Some (f t, r)
        | None =>
          if decide (w = b! "OR") then
            '(a, r) ← parse_key fuel r;
            r ← expect SP r;
            '(b, r) ← parse_key fuel r;
            Some (SK_Or a b, r)
          else if decide (w = b! "NOT") then '(a, r) ← parse_key fuel r; Some (SK_Not a, r)
          else None
        end
      end
    end
  end
with parse_keys (fuel : nat) (s : bytes) : option (list SearchKey * bytes) :=
  match fuel with
  | O => None
  | S fuel =>
    '(k, r) ← parse_key fuel s;
    match expect SP r with
    | Some r' => '(ks, r) ← parse_keys fuel r'; Some (k :: ks, r)
    | None => Some ([k], r)
    end
  end.

(** A message, as far as search goes: which texts match, which flags are set. *)
Record message : Type := {
  m_from : str → bool; m_to : str → bool; m_subject : str → bool; m_body : str → bool;
  m_text : str → bool;
  m_answered : bool; m_deleted : bool; m_draft : bool; m_flagged : bool; m_recent : bool;
  m_seen : bool;
}.

Fixpoint selects (m : message) (k : SearchKey) : bool :=
  match k with
  | SK_From s => m_from m s | SK_To s => m_to m s | SK_Subject s => m_subject m s
  | SK_Body s => m_body m s | SK_Text s => m_text m s
  | SK_All => true
  | SK_Answered => m_answered m | SK_Deleted => m_deleted m | SK_Draft => m_draft m
  | SK_Flagged => m_flagged m | SK_Recent => m_recent m | SK_Seen => m_seen m
  | SK_Unanswered => negb (m_answered m) | SK_Undeleted => negb (m_deleted m)
  | SK_Undraft => negb (m_draft m) | SK_Unflagged => negb (m_flagged m)
  | SK_Unseen => negb (m_seen m)
  | SK_And ks => forallb (selects m) ks
  | SK_Or l r => selects m l || selects m r
  | SK_Not k => negb (selects m k)
  end.

(* ------------------------------------------------------------------ *)
(** ** Lemmas                                                           *)
(* ------------------------------------------------------------------ *)

(** Induction that reaches the keys of a conjunction. *)
Section key_ind.
Context (P : SearchKey → Prop).
Hypothesis (Hleaf : ∀ k, (∀ ks, k ≠ SK_And ks) → (∀ a b, k ≠ SK_Or a b) → (∀ a, k ≠ SK_Not a) → P k).
Hypothesis (Hand : ∀ ks, Forall P ks → P (SK_And ks)).
Hypothesis (Hor : ∀ a b, P a → P b → P (SK_Or a b)).
Hypothesis (Hnot : ∀ a, P a → P (SK_Not a)).

Fixpoint key_ind (k : SearchKey) : P k :=
  match k with
  | SK_And ks => Hand ks ((fix go ks := match ks return Forall P ks with
      | [] => @List.Forall_nil _ P
      | k :: ks => @List.Forall_cons _ P k ks (key_ind k) (go ks) end) ks)
  | SK_Or a b => Hor a b (key_ind a) (key_ind b)
  | SK_Not a => Hnot a (key_ind a)
  | k => Hleaf k ltac:(done) ltac:(done) ltac:(done)
  end.
End key_ind.

(** The keys a conjunction writes side by side. *)
Fixpoint flatten (k : SearchKey) : list SearchKey :=
  match k with
  | SK_And ks => ks ≫= flatten
  | SK_Or a b => [SK_Or (SK_And (flatten a)) (SK_And (flatten b))]
  | SK_Not a => [SK_Not (SK_And (flatten a))]
  | k => [k]
  end.

(** No empty conjunction, and texts that can be quoted. *)
Fixpoint key_ok (k : SearchKey) : Prop :=
  match k with
  | SK_From s | SK_To s | SK_Subject s | SK_Body s | SK_Text s =>
      utf8_valid s = true ∧ wire.reject_line_breaks s = inl tt
  | SK_And ks => ks ≠ [] ∧ (fix all ks := match ks with [] => True | k :: ks => key_ok k ∧ all ks end) ks
  | SK_Or a b => key_ok a ∧ key_ok b
  | SK_Not a => key_ok a
  | _ => True
  end.

Lemma selects_flatten m k : forallb (selects m) (flatten k) = selects m k.
Proof.
  induction k as [k H1 H2 H3|ks IH|a b IHa IHb|a IHa] using key_ind.
  - destruct k; cbn; rewrite ?andb_true_r; try done; exfalso; [by eapply H1|by eapply H2|by eapply H3].
  - cbn. induction IH as [|k ks Hk _ IH]; [done|]. cbn. by rewrite forallb_app, Hk, IH.
  - cbn. by rewrite IHa, IHb, andb_true_r.
  - cbn. by rewrite IHa, andb_true_r.
Qed.

(** A server reads the key [k], or the keys [ks], and is left with [r]. *)
Definition key_read (s : bytes) (k : SearchKey) (r : bytes) : Prop :=
  ∃ n, ∀ fuel, (n ≤ fuel)%nat → parse_key fuel s = Some (k, r).
Definition keys_read (s : bytes) (ks : list SearchKey) (r : bytes) : Prop :=
  ∃ n, ∀ fuel, (n ≤ fuel)%nat → parse_keys fuel s = Some (ks, r).

Lemma keys_one s k r : key_read s k r → head r ≠ Some SP → keys_read s [k] r.
Proof.
  intros [n H] Hr. exists (S n). intros [|fuel] Hle; [lia|]. cbn [parse_keys].
  rewrite H by lia. cbn. destruct r as [|c r]; [done|]. cbn in *.
  by destruct (byte_eqb_spec c SP) as [->|_].
Qed.

Lemma keys_cons s k s' ks r : key_read s k (SP :: s') → keys_read s' ks r → keys_read s (k :: ks) r.
Proof.
  intros [n H] [m H']. exists (S (n `max` m)). intros [|fuel] Hle; [lia|]. cbn [parse_keys].
  rewrite H by lia. cbn. by rewrite H' by lia.
Qed.

Lemma key_paren s ks r : keys_read s ks (")"%byte :: r) → key_read ("("%byte :: s) (SK_And ks) r.
Proof.
  intros [n H]. exists (S n). intros [|fuel] Hle; [lia|]. cbn [parse_key expect]. cbn.
  rewrite H by lia. done.
Qed.

(** A keyword ends where the letters do. *)
Definition ends_word (r : bytes) : Prop :=
  match r with [] => True | c :: _ => is_ascii_uppercase c = false end.

Lemma word_app w r :
  Forall (λ c, is_ascii_uppercase c = true) w → ends_word r → word (w ++ r) = (w, r).
Proof.
  intros Hw Hr. induction Hw as [|c w Hc _ IH]; cbn [app word].
  - destruct r as [|c r]; [done|]. cbn in *. by rewrite Hr.
  - by rewrite Hc, IH.
Qed.

Lemma key_plain w k r :
  assoc w plain_keys = Some k → ends_word r → key_read (w ++ r) k r.
Proof.
  intros Hw Hr. exists 1%nat. intros [|fuel] Hle; [lia|]. cbn [parse_key].
  assert (Hu : Forall (λ c, is_ascii_uppercase c = true) w ∧ w ≠ []).
  { unfold plain_keys in Hw. cbn [assoc] in Hw.
    repeat (case_decide; [subst; split; [by repeat constructor|done]|]). done. }
  destruct Hu as [Hu Hne].
  replace (expect "("%byte (w ++ r)) with (@None bytes).
  - rewrite word_app by done. by rewrite Hw.
  - destruct w as [|c w]; [done|]. cbn. apply Forall_cons in Hu as [Hc _].
    by destruct (byte_eqb_spec c "("%byte) as [->|_].
Qed.

(** A keyword, SP and an argument. *)
Lemma parse_key_arg fuel w r :
  Forall (λ c, is_ascii_uppercase c = true) w → w ≠ [] → assoc w plain_keys = None →
  parse_key (S fuel) (w ++ SP :: r) =
    match assoc w text_keys with
    | Some f => '(t, r) ← unquote r; Some (f t, r)
    | None =>
      if decide (w = b! "OR") then
        '(a, r) ← parse_key fuel r;
        r ← expect SP r;
        '(b, r) ← parse_key fuel r;
        Some (SK_Or a b, r)
      else if decide (w = b! "NOT") then '(a, r) ← parse_key fuel r; Some (SK_Not a, r)
      else None
    end.
Proof.
  intros Hu Hne Hp. cbn [parse_key].
  replace (expect "("%byte (w ++ SP :: r)) with (@None bytes).
  - rewrite word_app by done. by rewrite Hp.
  - destruct w as [|c w]; [done|]. cbn. apply Forall_cons in Hu as [Hc _].
    by destruct (byte_eqb_spec c "("%byte) as [->|_].
Qed.

Lemma key_text w f t r :
  assoc w text_keys = Some f → utf8_valid t = true → wire.reject_line_breaks t = inl tt →
  key_read (w ++ SP :: wire.quote t ++ r) (f t) r.
Proof.
  intros Hw Hu Hb%no_line_break. exists 1%nat. intros [|fuel] Hle; [lia|].
  assert (Hw' : Forall (λ c, is_ascii_uppercase c = true) w ∧ w ≠ [] ∧ assoc w plain_keys = None).
  { unfold text_keys in Hw. cbn [assoc] in Hw.
    repeat (case_decide; [subst; split; [by repeat constructor|done]|]). done. }
  destruct Hw' as (Hw1 & Hw2 & Hw3). rewrite parse_key_arg, Hw by done.
  rewrite quote_escape by done. rewrite <- !app_assoc. cbn [app unquote]. rewrite byte_eqb_refl.
  rewrite unquote_escape by done. done.
Qed.

Lemma key_or s a s' b r :
  key_read s a (SP :: s') → key_read s' b r → key_read (b! "OR" ++ SP :: s) (SK_Or a b) r.
Proof.
  intros [n H] [m H']. exists (S (n `max` m)). intros [|fuel] Hle; [lia|].
  rewrite parse_key_arg by (done || by repeat constructor).
  replace (assoc (b! "OR") text_keys) with (@None (str → SearchKey)) by done.
  rewrite decide_True by done. rewrite H by lia. cbn. by rewrite H' by lia.
Qed.

Lemma key_not s a r : key_read s a r → key_read (b! "NOT" ++ SP :: s) (SK_Not a) r.
Proof.
  intros [n H]. exists (S n). intros [|fuel] Hle; [lia|].
  rewrite parse_key_arg by (done || by repeat constructor).
  replace (assoc (b! "NOT") text_keys) with (@None (str → SearchKey)) by done.
  rewrite decide_False, decide_True by done. by rewrite H by lia.
Qed.

(** What may follow the keys of a criterion: the end, a closing parenthesis, or
    SP and more keys. *)
Definition continues (rest : bytes) (ks : list SearchKey) (r : bytes) : Prop :=
  (ks = [] ∧ r = rest ∧ (rest = [] ∨ ∃ t, rest = ")"%byte :: t))
  ∨ ∃ s, rest = SP :: s ∧ keys_read s ks r.

Lemma continues_ends_word rest ks r : continues rest ks r → ends_word rest.
Proof. by intros [(_ & _ & [->|[t ->]])|(s & -> & _)]. Qed.

(** One key and what follows it. *)
Lemma keys_read_one s k rest ks r :
  key_read s k rest → continues rest ks r → keys_read s (k :: ks) r.
Proof.
  intros Hk [(-> & -> & Hr)|(s' & -> & Hs)].
  - apply keys_one; [done|]. by destruct Hr as [->|[t ->]].
  - by eapply keys_cons.
Qed.

Lemma to_imap_string_read k rest ks r :
  key_ok k → continues rest ks r → keys_read (to_imap_string k ++ rest) (flatten k ++ ks) r.
Proof.
  revert rest ks r.
  induction k as [k H1 H2 H3|keys IH|a b IHa IHb|a IHa] using key_ind; intros rest ks r Hok Hr.
  - pose proof (continues_ends_word _ _ _ Hr) as Hw.
    destruct k; cbn [to_imap_string flatten key_ok] in *;
      try (eapply keys_read_one; [by apply key_plain|done]).
    1-5: destruct Hok as [Hu Hb].
    1-5: eapply keys_read_one; [|exact Hr].
    + apply (key_text (b! "FROM")); done.
    + apply (key_text (b! "TO")); done.
    + apply (key_text (b! "SUBJECT")); done.
    + apply (key_text (b! "BODY")); done.
    + apply (key_text (b! "TEXT")); done.
    + by destruct (H1 keys).
    + by destruct (H2 k1 k2).
    + by destruct (H3 k).
  - cbn [to_imap_string flatten key_ok] in *. destruct Hok as [Hne Hok].
    induction IH as [|x l Hx _ IHl]; [done|]. destruct Hok as [Hokx Hokl].
    destruct l as [|y l].
    + cbn. rewrite app_nil_r. by apply Hx.
    + change (join (b! " ") (to_imap_string <$> x :: y :: l))
        with (to_imap_string x ++ SP :: join (b! " ") (to_imap_string <$> y :: l)).
      change ((x :: y :: l) ≫= flatten) with (flatten x ++ ((y :: l) ≫= flatten)).
      rewrite <- !app_assoc. apply Hx; [done|]. right. eexists. split; [done|]. by apply IHl.
  - destruct Hok as [Hoka Hokb]. cbn [to_imap_string flatten].
    eapply (keys_read_one _ _ rest); [|done]. rewrite <- !app_assoc.
    change (b! "OR (" ++ ?x) with (b! "OR" ++ SP :: "("%byte :: x).
    eapply key_or.
    + apply key_paren. change (b! ") (" ++ ?x) with (")"%byte :: SP :: "("%byte :: x).
      rewrite <- (app_nil_r (flatten a)). apply IHa; [done|]. left. eauto.
    + apply key_paren. rewrite <- (app_nil_r (flatten b)). apply IHb; [done|]. left. eauto.
  - cbn [to_imap_string flatten key_ok] in *.
    eapply (keys_read_one _ _ rest); [|done]. rewrite <- !app_assoc.
    change (b! "NOT (" ++ ?x) with (b! "NOT" ++ SP :: "("%byte :: x). apply key_not, key_paren.
    rewrite <- (app_nil_r (flatten a)). apply IHa; [done|]. left. eauto.
Qed.

(** C40: a server reads what [to_imap_string] writes as keys that select
    exactly the messages the criterion means, and reads it to the end. *)
Theorem search_roundtrip k :
  key_ok k →
  ∃ ks n, (∀ fuel, (n ≤ fuel)%nat → parse_keys fuel (to_imap_string k) = Some (ks, []))
    ∧ ∀ m, forallb (selects m) ks = selects m k.
Proof.
  intros Hok. exists (flatten k). destruct (to_imap_string_read k [] [] [] Hok) as [n Hn].
  { left. auto. }
  rewrite !app_nil_r in Hn. exists n. split; [done|]. intros m. apply selects_flatten.
Qed.

Lemma search_roundtrip_witness :
  ∃ ks n, (∀ fuel, (n ≤ fuel)%nat → parse_keys fuel (b! "NOT (SEEN)") = Some (ks, []))
    ∧ ∀ m, forallb (selects m) ks = selects m (SK_Not SK_Seen).
Proof. apply (search_roundtrip (SK_Not SK_Seen)). vm_compute. done. Defined.

(** An empty conjunction, which selects every message, is written as
    nothing at all: no amount of fuel makes a server read it. *)
Theorem search_empty_and fuel m :
  to_imap_string (SK_Not (SK_And [])) = b! "NOT ()"
  ∧ parse_keys fuel (to_imap_string (SK_Not (SK_And []))) = None
  ∧ parse_keys fuel (to_imap_string (SK_And [])) = None
  ∧ selects m (SK_And []) = true.
Proof.
  split_and!; [done| |by destruct fuel as [|[|fuel]]|done].
  by destruct fuel as [|[|[|[|[|fuel]]]]].
Qed.
