(* ===== verification/Capabilities.v ===== *)
(** [imap-client/src/capabilities.rs]: the set of capabilities a server
    advertises, built from the atoms the parser returns. *)

From S2P Require Import Prelude Str Ast Monad ResponseParser ParserSafety ParserStream.
From S2P Require Import ParserTheorems.
From stdpp Require Import options.

(** [capabilities.rs: Capabilities]. *)
Record Capabilities : Type := mkCapabilities {
  imap4rev1 : bool;
  imap4rev2 : bool;
  starttls : bool;
  login_disabled : bool;
  idle : bool;
  unselect : bool;
  condstore : bool;
  qresync : bool;
  move_ext : bool;
  uidplus : bool;
  literal_plus : bool;
  literal_minus : bool;
  enable : bool;
  auth_plain : bool;
  auth_login : bool;
  auth_xoauth2 : bool;
  auth_oauthbearer : bool;
}.

#[export] Instance Capabilities_eq_dec : EqDecision Capabilities.
Proof. solve_decision. Defined.

(** [Capabilities::default()]. *)
Definition caps_default : Capabilities :=
  mkCapabilities false false false false false false false false false false false false false false false false false.

(** One assignment [self.field = true] per capability. *)
Definition set_imap4rev1 (c : Capabilities) : Capabilities :=
  mkCapabilities true (imap4rev2 c) (starttls c) (login_disabled c) (idle c) (unselect c) (condstore c) (qresync c) (move_ext c) (uidplus c) (literal_plus c) (literal_minus c) (enable c) (auth_plain c) (auth_login c) (auth_xoauth2 c) (auth_oauthbearer c).
Definition set_imap4rev2 (c : Capabilities) : Capabilities :=
  mkCapabilities (imap4rev1 c) true (starttls c) (login_disabled c) (idle c) (unselect c) (condstore c) (qresync c) (move_ext c) (uidplus c) (literal_plus c) (literal_minus c) (enable c) (auth_plain c) (auth_login c) (auth_xoauth2 c) (auth_oauthbearer c).
Definition set_starttls (c : Capabilities) : Capabilities :=
  mkCapabilities (imap4rev1 c) (imap4rev2 c) true (login_disabled c) (idle c) (unselect c) (condstore c) (qresync c) (move_ext c) (uidplus c) (literal_plus c) (literal_minus c) (enable c) (auth_plain c) (auth_login c) (auth_xoauth2 c) (auth_oauthbearer c).
Definition set_login_disabled (c : Capabilities) : Capabilities :=
  mkCapabilities (imap4rev1 c) (imap4rev2 c) (starttls c) true (idle c) (unselect c) (condstore c) (qresync c) (move_ext c) (uidplus c) (literal_plus c) (literal_minus c) (enable c) (auth_plain c) (auth_login c) (auth_xoauth2 c) (auth_oauthbearer c).
Definition set_idle (c : Capabilities) : Capabilities :=
  mkCapabilities (imap4rev1 c) (imap4rev2 c) (starttls c) (login_disabled c) true (unselect c) (condstore c) (qresync c) (move_ext c) (uidplus c) (literal_plus c) (literal_minus c) (enable c) (auth_plain c) (auth_login c) (auth_xoauth2 c) (auth_oauthbearer c).
Definition set_unselect (c : Capabilities) : Capabilities :=
  mkCapabilities (imap4rev1 c) (imap4rev2 c) (starttls c) (login_disabled c) (idle c) true (condstore c) (qresync c) (move_ext c) (uidplus c) (literal_plus c) (literal_minus c) (enable c) (auth_plain c) (auth_login c) (auth_xoauth2 c) (auth_oauthbearer c).
Definition set_condstore (c : Capabilities) : Capabilities :=
  mkCapabilities (imap4rev1 c) (imap4rev2 c) (starttls c) (login_disabled c) (idle c) (unselect c) true (qresync c) (move_ext c) (uidplus c) (literal_plus c) (literal_minus c) (enable c) (auth_plain c) (auth_login c) (auth_xoauth2 c) (auth_oauthbearer c).
Definition set_qresync (c : Capabilities) : Capabilities :=
  mkCapabilities (imap4rev1 c) (imap4rev2 c) (starttls c) (login_disabled c) (idle c) (unselect c) (condstore c) true (move_ext c) (uidplus c) (literal_plus c) (literal_minus c) (enable c) (auth_plain c) (auth_login c) (auth_xoauth2 c) (auth_oauthbearer c).
Definition set_move_ext (c : Capabilities) : Capabilities :=
  mkCapabilities (imap4rev1 c) (imap4rev2 c) (starttls c) (login_disabled c) (idle c) (unselect c) (condstore c) (qresync c) true (uidplus c) (literal_plus c) (literal_minus c) (enable c) (auth_plain c) (auth_login c) (auth_xoauth2 c) (auth_oauthbearer c).
Definition set_uidplus (c : Capabilities) : Capabilities :=
  mkCapabilities (imap4rev1 c) (imap4rev2 c) (starttls c) (login_disabled c) (idle c) (unselect c) (condstore c) (qresync c) (move_ext c) true (literal_plus c) (literal_minus c) (enable c) (auth_plain c) (auth_login c) (auth_xoauth2 c) (auth_oauthbearer c).
Definition set_literal_plus (c : Capabilities) : Capabilities :=
  mkCapabilities (imap4rev1 c) (imap4rev2 c) (starttls c) (login_disabled c) (idle c) (unselect c) (condstore c) (qresync c) (move_ext c) (uidplus c) true (literal_minus c) (enable c) (auth_plain c) (auth_login c) (auth_xoauth2 c) (auth_oauthbearer c).
Definition set_literal_minus (c : Capabilities) : Capabilities :=
  mkCapabilities (imap4rev1 c) (imap4rev2 c) (starttls c) (login_disabled c) (idle c) (unselect c) (condstore c) (qresync c) (move_ext c) (uidplus c) (literal_plus c) true (enable c) (auth_plain c) (auth_login c) (auth_xoauth2 c) (auth_oauthbearer c).
Definition set_enable (c : Capabilities) : Capabilities :=
  mkCapabilities (imap4rev1 c) (imap4rev2 c) (starttls c) (login_disabled c) (idle c) (unselect c) (condstore c) (qresync c) (move_ext c) (uidplus c) (literal_plus c) (literal_minus c) true (auth_plain c) (auth_login c) (auth_xoauth2 c) (auth_oauthbearer c).
Definition set_auth_plain (c : Capabilities) : Capabilities :=
  mkCapabilities (imap4rev1 c) (imap4rev2 c) (starttls c) (login_disabled c) (idle c) (unselect c) (condstore c) (qresync c) (move_ext c) (uidplus c) (literal_plus c) (literal_minus c) (enable c) true (auth_login c) (auth_xoauth2 c) (auth_oauthbearer c).
Definition set_auth_login (c : Capabilities) : Capabilities :=
  mkCapabilities (imap4rev1 c) (imap4rev2 c) (starttls c) (login_disabled c) (idle c) (unselect c) (condstore c) (qresync c) (move_ext c) (uidplus c) (literal_plus c) (literal_minus c) (enable c) (auth_plain c) true (auth_xoauth2 c) (auth_oauthbearer c).
Definition set_auth_xoauth2 (c : Capabilities) : Capabilities :=
  mkCapabilities (imap4rev1 c) (imap4rev2 c) (starttls c) (login_disabled c) (idle c) (unselect c) (condstore c) (qresync c) (move_ext c) (uidplus c) (literal_plus c) (literal_minus c) (enable c) (auth_plain c) (auth_login c) true (auth_oauthbearer c).
Definition set_auth_oauthbearer (c : Capabilities) : Capabilities :=
  mkCapabilities (imap4rev1 c) (imap4rev2 c) (starttls c) (login_disabled c) (idle c) (unselect c) (condstore c) (qresync c) (move_ext c) (uidplus c) (literal_plus c) (literal_minus c) (enable c) (auth_plain c) (auth_login c) (auth_xoauth2 c) true.

(** The atoms the client knows, with the field each one sets. *)
Definition set_from_atom (c : Capabilities) (atom : str) : Capabilities :=
  let upper := str_to_ascii_uppercase atom in
  if decide (upper = b! "IMAP4REV1") then set_imap4rev1 c
  else if decide (upper = b! "IMAP4REV2") then set_imap4rev2 c
  else if decide (upper = b! "STARTTLS") then set_starttls c
  else if decide (upper = b! "LOGINDISABLED") then set_login_disabled c
  else if decide (upper = b! "IDLE") then set_idle c
  else if decide (upper = b! "UNSELECT") then set_unselect c
  else if decide (upper = b! "CONDSTORE") then set_condstore c
  else if decide (upper = b! "QRESYNC") then set_qresync c
  else if decide (upper = b! "MOVE") then set_move_ext c
  else if decide (upper = b! "UIDPLUS") then set_uidplus c
  else if decide (upper = b! "LITERAL+") then set_literal_plus c
  else if decide (upper = b! "LITERAL-") then set_literal_minus c
  else if decide (upper = b! "ENABLE") then set_enable c
  else if decide (upper = b! "AUTH=PLAIN") then set_auth_plain c
  else if decide (upper = b! "AUTH=LOGIN") then set_auth_login c
  else if decide (upper = b! "AUTH=XOAUTH2") then set_auth_xoauth2 c
  else if decide (upper = b! "AUTH=OAUTHBEARER") then set_auth_oauthbearer c
  else c.

Definition from_atoms (atoms : list str) : Capabilities := foldl set_from_atom caps_default atoms.

(** Whether [response] carries a capability list. *)
Definition is_capability_response (response : Response) : bool :=
  match response with
  | Resp_Data (DR_Capability _) => true
  | Resp_Status s => match sr_code s with Some (RC_Capability _) => true | _ => false end
  | _ => false
  end.

(** [try_update_from]: the new set, and whether anything was updated. *)
Definition try_update_from (c : Capabilities) (response : Response) : Capabilities * bool :=
  match response with
  | Resp_Data (DR_Capability caps) => (from_atoms caps, true)
  | Resp_Status s =>
    match sr_code s with
    | Some (RC_Capability caps) => (from_atoms caps, true)
    | _ => (c, false)
    end
  | _ => (c, false)
  end.

Definition from_frame (frame : bytes) : option Capabilities :=
  match parse_response frame with
  | Parsed _ response =>
    let '(caps, updated) := try_update_from caps_default response in
    if updated : bool then Some caps else None
  | _ => None
  end.

(** [Capabilities::parse]. *)
Definition parse (response : str) : Capabilities :=
  match from_frame response with
  | Some caps => caps
  | None => foldl set_from_atom caps_default (split_ascii_whitespace response)
  end.

(* ------------------------------------------------------------------ *)
(** ** Lemmas                                                           *)
(* ------------------------------------------------------------------ *)

(** Each capability with the field that holds it. *)
Definition known : list (bytes * (Capabilities → bool)) :=
  [(b! "IMAP4REV1", imap4rev1); (b! "IMAP4REV2", imap4rev2); (b! "STARTTLS", starttls); (b! "LOGINDISABLED", login_disabled); (b! "IDLE", idle); (b! "UNSELECT", unselect); (b! "CONDSTORE", condstore); (b! "QRESYNC", qresync); (b! "MOVE", move_ext); (b! "UIDPLUS", uidplus); (b! "LITERAL+", literal_plus); (b! "LITERAL-", literal_minus); (b! "ENABLE", enable); (b! "AUTH=PLAIN", auth_plain); (b! "AUTH=LOGIN", auth_login); (b! "AUTH=XOAUTH2", auth_xoauth2); (b! "AUTH=OAUTHBEARER", auth_oauthbearer)].

(** One atom sets the field of its own name and no other. *)
Lemma set_from_atom_get name get c atom :
  (name, get) ∈ known →
  get (set_from_atom c atom) = get c || bool_decide (str_to_ascii_uppercase atom = name).
Proof.
  unfold known, set_from_atom. generalize (str_to_ascii_uppercase atom) as u. intros u H.
  repeat (apply elem_of_cons in H as [[= -> ->]|H];
    [repeat (case_decide; [subst u; cbn; rewrite ?orb_true_r, ?orb_false_r; reflexivity|]);
     rewrite bool_decide_false by done; by rewrite orb_false_r|]).
  by apply not_elem_of_nil in H.
Qed.

Lemma from_atoms_get name get atoms :
  (name, get) ∈ known →
  get (from_atoms atoms) = existsb (λ a, bool_decide (str_to_ascii_uppercase a = name)) atoms.
Proof.
  intros Hk. unfold from_atoms.
  assert (Hd : get caps_default = false).
  { unfold known in Hk. repeat (apply elem_of_cons in Hk as [[= -> ->]|Hk]; [done|]).
    by apply not_elem_of_nil in Hk. }
  enough (∀ c, get (foldl set_from_atom c atoms)
    = get c || existsb (λ a, bool_decide (str_to_ascii_uppercase a = name)) atoms) as ->
    by (by rewrite Hd).
  induction atoms as [|a atoms IH]; intros c; cbn; [by rewrite orb_false_r|].
  rewrite IH, (set_from_atom_get name) by done. by rewrite orb_assoc.
Qed.

(** Two sets that agree on every known capability are the same. *)
Lemma caps_ext c c' : (∀ name get, (name, get) ∈ known → get c = get c') → c = c'.
Proof.
  intros H. destruct c, c'.
  assert (Hn : ∀ n x, known !! n = Some x → snd x _ = snd x _)
    by (intros n [name get] Hx%list_elem_of_lookup_2; exact (H name get Hx)).
  let rec fields n := lazymatch n with
    | O => idtac
    | S ?m => pose proof (Hn m _ eq_refl); fields m
    end in fields 17%nat.
  clear H Hn. cbn in *. by subst.
Qed.

(* ------------------------------------------------------------------ *)
(** ** Properties                                                       *)
(* ------------------------------------------------------------------ *)

(** A capability is on exactly when one of the atoms is its name,
    ignoring case; a longer atom such as [IMAP4REV2X] does not count. *)
Theorem from_atoms_spec name get atoms :
  (name, get) ∈ known →
  get (from_atoms atoms) = true ↔ ∃ a, a ∈ atoms ∧ str_to_ascii_uppercase a = name.
Proof.
  intros Hk. rewrite (from_atoms_get name) by done. rewrite existsb_exists.
  split; intros (a & Ha & H); exists a.
  - by rewrite list_elem_of_In, <- (bool_decide_eq_true (str_to_ascii_uppercase a = name)).
  - by rewrite bool_decide_eq_true, <- list_elem_of_In.
Qed.

Lemma from_atoms_spec_witness :
  idle (from_atoms [b! "IMAP4rev1"; b! "Idle"]) = true
  ↔ ∃ a, a ∈ [b! "IMAP4rev1"; b! "Idle"] ∧ str_to_ascii_uppercase a = b! "IDLE".
Proof.
  apply from_atoms_spec. unfold known. repeat first [apply elem_of_cons; left; reflexivity|apply elem_of_cons; right].
Defined.

(** The order and the repetition of the atoms do not matter. *)
Theorem from_atoms_set atoms atoms' :
  (∀ a, a ∈ atoms ↔ a ∈ atoms') → from_atoms atoms = from_atoms atoms'.
Proof.
  intros H. apply caps_ext. intros name get Hk.
  rewrite !(from_atoms_get name) by done. apply eq_true_iff_eq. rewrite !existsb_exists.
  setoid_rewrite <- list_elem_of_In. by setoid_rewrite H.
Qed.

(** A response updates the set exactly when it is a capability response,
    and the new set then owes nothing to the old one. *)
Theorem try_update_from_spec c c' response :
  snd (try_update_from c response) = is_capability_response response
  ∧ if is_capability_response response
    then fst (try_update_from c response) = fst (try_update_from c' response)
    else fst (try_update_from c response) = c.
Proof. unfold try_update_from, is_capability_response. by repeat case_match. Qed.
