(* ===== verification/Client.v ===== *)
(** [imap-client/src/client.rs]: the dispatcher. Commands are queued, written
    and registered by the write loop; the read loop splits frames off its
    buffer and routes each to a reply, to the stream of the command that wants
    it, or to the broadcast.

    The two loops and the callers run concurrently and share the pending map,
    the streams and the broadcast. Each [await] at which another task may run
    ends a step: a step is an [action] of one task, and [exec] says what it
    does, [None] when the task would wait. Channels are their contents:

    - a [oneshot] is an identifier; [sh_replies] holds what was sent on it;
    - a stream's [mpsc] is an identifier, that of its command's [oneshot];
      [sh_streams] holds its queue and whether its receiver is gone;
    - the broadcast is the list of what was sent on it. *)

From S2P Require Import Prelude Str Ast Monad ResponseParser ParserSafety ParserStream.
From S2P Require Import ParserLocal ParserTheorems ClientError Flags Wire.
From stdpp Require Import options.

(* ------------------------------------------------------------------ *)
(** ** Data                                                             *)
(* ------------------------------------------------------------------ *)

Definition EVENT_CHANNEL_CAP : nat := 256.
Definition STREAM_CHANNEL_CAP : nat := 32.
Definition WRITE_CHANNEL_CAP : nat := 32.
Definition MAX_FRAME_SIZE : Z := MAX_LITERAL_SIZE + 64 * 1024.

(** [type FrameFilter = fn(&Response) -> bool]. *)
Definition FrameFilter : Type := Response → bool.

(** Identifiers of [oneshot] and [mpsc] channels. *)
Abbreviation reply_id := nat.
Abbreviation stream_id := nat.

Record Collector : Type := mkCollector {
  c_tag : str;
  c_wants : FrameFilter;
  c_tx : stream_id;
}.

Record Pending : Type := mkPending {
  p_replies : gmap bytes reply_id;
  p_collectors : list Collector;
}.

Definition pending_default : Pending := mkPending ∅ [].

(** The receiving half of a stream. *)
Record Stream : Type := mkStream {
  s_queue : list bytes;
  s_closed : bool;
}.

(** What the tasks share. *)
Record shared : Type := mkShared {
  sh_pending : Pending;
  sh_streams : gmap stream_id Stream;
  sh_replies : gmap reply_id (res bytes);
  sh_events : list bytes;
}.

Inductive Route : Type :=
| Route_Tagged (tag : str) (status : Status) (text : str)
| Route_Stream (tx : stream_id)
| Route_Broadcast.

Inductive WriteRequest : Type :=
| WR_Command (bs : bytes) (tag : str) (reply_tx : reply_id) (collector : option (FrameFilter * stream_id))
| WR_Raw (bs : bytes).

(* ------------------------------------------------------------------ *)
(** ** Pending commands                                                 *)
(* ------------------------------------------------------------------ *)

(** [tx.is_closed()]. *)
Definition is_closed (sh : shared) (tx : stream_id) : bool :=
  match sh_streams sh !! tx with Some s => s_closed s | None => true end.

Fixpoint find_collector (sh : shared) (cs : list Collector) (response : Response) : option stream_id :=
  match cs with
  | [] => None
  | c :: cs =>
    if negb (is_closed sh (c_tx c)) && c_wants c response then Some (c_tx c)
    else find_collector sh cs response
  end.

Definition collector_for (sh : shared) (response : Response) : option stream_id :=
  find_collector sh (p_collectors (sh_pending sh)) response.

(** [Pending::complete]. *)
Definition complete (p : Pending) (tag : str) : option reply_id * Pending :=
  (p_replies p !! tag,
   mkPending (delete tag (p_replies p)) (filter (λ c, c_tag c ≠ tag) (p_collectors p))).

(** [register]. *)
Definition register (p : Pending) (tag : str) (reply_tx : reply_id)
    (collector : option (FrameFilter * stream_id)) : Pending :=
  mkPending (<[tag := reply_tx]> (p_replies p))
    (match collector with
     | Some (wants, tx) => p_collectors p ++ [mkCollector tag wants tx]
     | None => p_collectors p
     end).

(** [event_tx.send(frame)]. *)
Definition broadcast (frame : bytes) (sh : shared) : shared :=
  mkShared (sh_pending sh) (sh_streams sh) (sh_replies sh) (sh_events sh ++ [frame]).

(** [tx.send(result)] on a [oneshot]: whether anyone still waits is the
    receiver's business. *)
Definition reply (tx : reply_id) (result : res bytes) (sh : shared) : shared :=
  mkShared (sh_pending sh) (sh_streams sh) (<[tx := result]> (sh_replies sh)) (sh_events sh).

Definition set_pending (p : Pending) (sh : shared) : shared :=
  mkShared p (sh_streams sh) (sh_replies sh) (sh_events sh).

Definition set_stream (tx : stream_id) (s : Stream) (sh : shared) : shared :=
  mkShared (sh_pending sh) (<[tx := s]> (sh_streams sh)) (sh_replies sh) (sh_events sh).

(** [fail_all_pending]: every waiter gets the error, every stream ends. *)
Definition fail_all_pending (e : ClientError) (sh : shared) : shared :=
  mkShared pending_default (sh_streams sh)
    (map_fold (λ _ tx rs, <[tx := inr e]> rs) (sh_replies sh) (p_replies (sh_pending sh)))
    (sh_events sh).

(* ------------------------------------------------------------------ *)
(** ** Routing                                                          *)
(* ------------------------------------------------------------------ *)

Definition route_for (response : Response) (sh : shared) : Route :=
  match response with
  | Resp_Status (mkStatusResponse (Some tag) status _ text) => Route_Tagged tag status text
  | _ =>
    match collector_for sh response with
    | Some tx => Route_Stream tx
    | None => Route_Broadcast
    end
  end.

(** The result a tagged response delivers. *)
Definition tagged_result (status : Status) (text : str) (frame : bytes) : res bytes :=
  match status with
  | Status_Ok => inl frame
  | Status_No | Status_Bad => inr (command_failed text)
  | Status_Bye => inr CE_ConnectionClosed
  | Status_PreAuth => inr (command_failed text)
  end.

(** [dispatch_frame]; [None] while the stream it sends to is full. *)
Definition dispatch_frame (route : Route) (frame : bytes) (sh : shared) : option shared :=
  match route with
  | Route_Tagged tag status text =>
    let '(waiter, p) := complete (sh_pending sh) tag in
    let sh := set_pending p sh in
    match waiter with
    | None => Some (broadcast frame sh)
    | Some tx => Some (reply tx (tagged_result status text frame) sh)
    end
  | Route_Stream tx =>
    match sh_streams sh !! tx with
    | Some (mkStream queue false) =>
      if (length queue <? STREAM_CHANNEL_CAP)%nat
      then Some (set_stream tx (mkStream (queue ++ [frame]) false) sh)
      else None
    | _ => Some (broadcast frame sh)
    end
  | Route_Broadcast => Some (broadcast frame sh)
  end.

(* ------------------------------------------------------------------ *)
(** ** The read loop                                                    *)
(* ------------------------------------------------------------------ *)

(** What [read_buf] returns; no bytes is the end of the stream. *)
Inductive read_result : Type :=
| Read_Ok (chunk : bytes)
| Read_Err.

(** Where the read loop stands: waiting for bytes, splitting frames off the
    buffer, delivering one, or done. [R_Panicked] is a panic of the parser,
    which is shown not to occur. *)
Inductive reader : Type :=
| R_Reading (buffer : bytes)
| R_Parsing (buffer : bytes)
| R_Delivering (route : Route) (frame buffer : bytes)
| R_Stopped
| R_Panicked.

(** [read_half.read_buf(&mut buffer)] has returned. *)
Definition on_read (r : read_result) (buffer : bytes) (sh : shared) : reader * shared :=
  match r with
  | Read_Ok [] => (R_Stopped, fail_all_pending CE_ConnectionClosed sh)
  | Read_Ok chunk => (R_Parsing (buffer ++ chunk), sh)
  | Read_Err => (R_Stopped, fail_all_pending CE_ConnectionClosed sh)
  end.

(** After [while !buffer.is_empty()]: the ceiling on an unfinished frame. *)
Definition end_of_frames (max_frame_size : Z) (buffer : bytes) (sh : shared) : reader * shared :=
  if max_frame_size <? Z.of_nat (length buffer)
  then (R_Stopped, fail_all_pending (CE_FrameTooLarge max_frame_size) sh)
  else (R_Reading buffer, sh).

(** One round of [while !buffer.is_empty()], up to [dispatch_frame]. *)
Definition parse_step (max_frame_size : Z) (buffer : bytes) (sh : shared) : reader * shared :=
  match buffer with
  | [] => end_of_frames max_frame_size buffer sh
  | _ =>
    match parse_response buffer with
    | Parsed remaining response =>
      let consumed := (length buffer - length remaining)%nat in
      (R_Delivering (route_for response sh) (take consumed buffer) (drop consumed buffer), sh)
    | ParseErr Incomplete => end_of_frames max_frame_size buffer sh
    | ParseErr e => (R_Stopped, fail_all_pending (CE_Parse e) sh)
    | ParsePanics | ParseHangs => (R_Panicked, sh)
    end
  end.

(* ------------------------------------------------------------------ *)
(** ** The write loop and the callers                                   *)
(* ------------------------------------------------------------------ *)

(** [<tag> <cmd>\r\n]. *)
Definition command_line (tag cmd : str) : bytes := tag ++ [SP] ++ cmd ++ [CR; LF].

Definition u64_max : Z := 2 ^ 64 - 1.

(** [next_tag]: the tag, and the counter after it. *)
Definition next_tag (counter : Z) : str * Z :=
  (b! "A" ++ fmt_dec_pad 4 counter, (counter + 1) mod 2 ^ 64).

(** Where the write loop stands: waiting for a request, in [write_all] with
    [rest] still to go, or done. *)
Inductive writer : Type :=
| W_Waiting
| W_Writing (rest : bytes)
| W_Done.

(** What the transport does with the rest of a [write_all]: take some bytes,
    none (which is an error), or fail. *)
Inductive write_result : Type :=
| Write_Ok (n : nat)
| Write_Err.

(** The whole client. [cl_written] is what has gone out so far. [g_read] and
    [g_frames] record what the read loop has read and split off, [g_log] each
    frame with what the tasks shared when it was split off; nothing depends
    on these four. *)
Record client : Type := mkClient {
  cl_shared : shared;
  cl_reader : reader;
  cl_queue : list WriteRequest;
  cl_writer : writer;
  cl_written : bytes;
  cl_tag_counter : Z;
  cl_next_reply : reply_id;
  g_read : bytes;
  g_frames : list bytes;
  g_log : list (shared * bytes);
}.

(** [RawClient::new]. *)
Definition client_new : client :=
  mkClient (mkShared pending_default ∅ ∅ []) (R_Reading []) [] W_Waiting [] 1 0 [] [] [].

(** The receiver of the queue is gone. *)
Definition cl_writer_done (c : client) : bool :=
  match cl_writer c with W_Done => true | _ => false end.

Definition with_reader (rs : reader * shared) (c : client) : client :=
  mkClient (snd rs) (fst rs) (cl_queue c) (cl_writer c) (cl_written c) (cl_tag_counter c)
    (cl_next_reply c) (g_read c) (g_frames c) (g_log c).

Definition with_shared (sh : shared) (c : client) : client := with_reader (cl_reader c, sh) c.

Definition log_read (bs : bytes) (c : client) : client :=
  mkClient (cl_shared c) (cl_reader c) (cl_queue c) (cl_writer c) (cl_written c)
    (cl_tag_counter c) (cl_next_reply c) (g_read c ++ bs) (g_frames c) (g_log c).

Definition log_frame (c : client) : client :=
  match cl_reader c with
  | R_Delivering _ frame _ =>
    mkClient (cl_shared c) (cl_reader c) (cl_queue c) (cl_writer c) (cl_written c)
      (cl_tag_counter c) (cl_next_reply c) (g_read c) (g_frames c ++ [frame])
      (g_log c ++ [(cl_shared c, frame)])
  | _ => c
  end.

(** [enqueue_command]: the tag and the reply channel, or an error; [None] while
    the write queue is full. A refused command takes no tag; one that finds the
    connection closed does. *)
Definition enqueue_command (cmd : str) (wants : option FrameFilter) (c : client) :
    option (client * res (str * reply_id * option stream_id)) :=
  match wire.reject_line_breaks cmd with
  | inr e => Some (c, inr e)
  | inl tt =>
    let '(tag, counter) := next_tag (cl_tag_counter c) in
    let reply_rx := cl_next_reply c in
    let stream := (λ wants, (wants, reply_rx)) <$> wants in
    let streams := match stream with
      | Some (_, tx) => <[tx := mkStream [] false]> (sh_streams (cl_shared c))
      | None => sh_streams (cl_shared c)
      end in
    let sh := mkShared (sh_pending (cl_shared c)) streams (sh_replies (cl_shared c))
                (sh_events (cl_shared c)) in
    let c' queue := mkClient sh (cl_reader c) queue (cl_writer c) (cl_written c) counter
                (S reply_rx) (g_read c) (g_frames c) (g_log c) in
    if cl_writer_done c then Some (c' (cl_queue c), inr CE_ConnectionClosed)
    else if (length (cl_queue c) <? WRITE_CHANNEL_CAP)%nat then
      Some (c' (cl_queue c ++ [WR_Command (command_line tag cmd) tag reply_rx stream]),
            inl (tag, reply_rx, snd <$> stream))
    else None
  end.

(** [send_raw], [send_secret] and [WriterHandle::send_raw]. *)
Definition send_raw (bs : bytes) (c : client) : option (client * res unit) :=
  if cl_writer_done c then Some (c, inr CE_ConnectionClosed)
  else if (length (cl_queue c) <? WRITE_CHANNEL_CAP)%nat then
    Some (mkClient (cl_shared c) (cl_reader c) (cl_queue c ++ [WR_Raw bs]) (cl_writer c)
            (cl_written c) (cl_tag_counter c) (cl_next_reply c)
            (g_read c) (g_frames c) (g_log c), inl tt)
  else None.

(** The future of [enqueue_command] is dropped while it waits for room in the
    queue: the tag is spent, the channels it made are gone, nothing was sent. *)
Definition cancel_enqueue (cmd : str) (c : client) : client :=
  match wire.reject_line_breaks cmd with
  | inr _ => c
  | inl tt =>
    mkClient (cl_shared c) (cl_reader c) (cl_queue c) (cl_writer c) (cl_written c)
      (snd (next_tag (cl_tag_counter c))) (S (cl_next_reply c)) (g_read c) (g_frames c) (g_log c)
  end.

Definition req_bytes (req : WriteRequest) : bytes :=
  match req with WR_Command bs _ _ _ | WR_Raw bs => bs end.

(** [write_all] has [rest] to write: it returns when that is nothing. *)
Definition write_all (rest : bytes) : writer :=
  match rest with [] => W_Waiting | _ => W_Writing rest end.

(** [rx.recv()] yields a request, which is registered, and its bytes begin to go
    out; [None] while the queue is empty. (The pending map is locked within
    steps only, so [register] does not wait.) *)
Definition writer_step (c : client) : option client :=
  match cl_writer c, cl_queue c with
  | W_Waiting, req :: queue =>
    let sh := match req with
      | WR_Command _ tag reply_tx collector =>
        set_pending (register (sh_pending (cl_shared c)) tag reply_tx collector) (cl_shared c)
      | WR_Raw _ => cl_shared c
      end in
    Some (mkClient sh (cl_reader c) queue (write_all (req_bytes req)) (cl_written c)
            (cl_tag_counter c) (cl_next_reply c) (g_read c) (g_frames c) (g_log c))
  | _, _ => None
  end.

(** The end of [write_loop]: the requests still queued are dropped, and so
    are the commands that wait when the read loop no longer holds them either. *)
Definition end_writer (c : client) : client :=
  let sh := match cl_reader c with
    | R_Stopped | R_Panicked => set_pending pending_default (cl_shared c)
    | _ => cl_shared c
    end in
  mkClient sh (cl_reader c) [] W_Done (cl_written c)
    (cl_tag_counter c) (cl_next_reply c) (g_read c) (g_frames c) (g_log c).

(** The transport answers [write_all]. *)
Definition write_step (r : write_result) (c : client) : option client :=
  match cl_writer c with
  | W_Writing rest =>
    match r with
    | Write_Ok (S n) =>
      Some (mkClient (cl_shared c) (cl_reader c) (cl_queue c) (write_all (drop (S n) rest))
              (cl_written c ++ take (S n) rest)
              (cl_tag_counter c) (cl_next_reply c) (g_read c) (g_frames c) (g_log c))
    | Write_Ok O | Write_Err => Some (end_writer c)
    end
  | _ => None
  end.

(** [rx.recv()] yields [None]: the queue is empty and every sender, the client
    and its [WriterHandle]s, has been dropped. Who holds senders is not recorded:
    the step may be taken whenever the queue is empty. *)
Definition hang_up (c : client) : option client :=
  match cl_writer c, cl_queue c with
  | W_Waiting, [] => Some (end_writer c)
  | _, _ => None
  end.

(* ------------------------------------------------------------------ *)
(** ** Streams, on the caller's side                                    *)
(* ------------------------------------------------------------------ *)

(** Is there a sender left for the stream: its collector, or the one the read
    loop is delivering to? *)
Definition has_sender (tx : stream_id) (c : client) : bool :=
  existsb (λ col, (c_tx col =? tx)%nat) (p_collectors (sh_pending (cl_shared c)))
  || existsb (λ req, match req with
       | WR_Command _ _ _ (Some (_, tx')) => (tx' =? tx)%nat
       | _ => false end) (cl_queue c)
  || match cl_reader c with R_Delivering (Route_Stream tx') _ _ => (tx' =? tx)%nat | _ => false end.

(** [next_frame]: a frame, the end of the stream, or [None] for "wait". *)
Definition next_frame (tx : stream_id) (c : client) : option (client * option bytes) :=
  match sh_streams (cl_shared c) !! tx with
  | Some (mkStream (frame :: queue) closed) =>
    Some (with_shared (set_stream tx (mkStream queue closed) (cl_shared c)) c, Some frame)
  | Some (mkStream [] closed) => if closed || negb (has_sender tx c) then Some (c, None) else None
  | None => Some (c, None)
  end.

(** [into_reply]: close the stream and broadcast what it still holds. *)
Definition into_reply (tx : stream_id) (c : client) : client :=
  match sh_streams (cl_shared c) !! tx with
  | Some (mkStream queue _) =>
    let sh := set_stream tx (mkStream [] true) (cl_shared c) in
    with_shared (foldl (λ sh frame, broadcast frame sh) sh queue) c
  | None => c
  end.

(** Dropping a [CommandStream]: what it still holds is discarded. *)
Definition drop_stream (tx : stream_id) (c : client) : client :=
  match sh_streams (cl_shared c) !! tx with
  | Some _ => with_shared (set_stream tx (mkStream [] true) (cl_shared c)) c
  | None => c
  end.

(* ------------------------------------------------------------------ *)
(** ** Steps                                                            *)
(* ------------------------------------------------------------------ *)

Inductive action : Type :=
| A_Read (r : read_result)
| A_Reader
| A_Enqueue (cmd : str) (wants : option FrameFilter)
| A_SendRaw (bs : bytes)
| A_CancelEnqueue (cmd : str)
| A_Writer
| A_Write (r : write_result)
| A_HangUp
| A_Next (tx : stream_id)
| A_IntoReply (tx : stream_id)
| A_DropStream (tx : stream_id).

(** The read loop's step: a read that returned, or a round of the inner loop. *)
Definition read_step (r : read_result) (c : client) : option client :=
  match cl_reader c with
  | R_Reading buffer =>
    let c' := with_reader (on_read r buffer (cl_shared c)) c in
    Some (match r with Read_Ok chunk => log_read chunk c' | Read_Err => c' end)
  | _ => None
  end.

Definition reader_step (max : Z) (c : client) : option client :=
  match cl_reader c with
  | R_Parsing buffer => Some (log_frame (with_reader (parse_step max buffer (cl_shared c)) c))
  | R_Delivering route frame buffer =>
    sh ← dispatch_frame route frame (cl_shared c);
    Some (with_reader (R_Parsing buffer, sh) c)
  | _ => None
  end.

Definition exec (max : Z) (a : action) (c : client) : option client :=
  match a with
  | A_Read r => read_step r c
  | A_Reader => reader_step max c
  | A_Enqueue cmd wants => fst <$> enqueue_command cmd wants c
  | A_SendRaw bs => fst <$> send_raw bs c
  | A_CancelEnqueue cmd => Some (cancel_enqueue cmd c)
  | A_Writer => writer_step c
  | A_Write r => write_step r c
  | A_HangUp => hang_up c
  | A_Next tx => fst <$> next_frame tx c
  | A_IntoReply tx => Some (into_reply tx c)
  | A_DropStream tx => Some (drop_stream tx c)
  end.

(** The states a client goes through, whatever the order its tasks run in. *)
Inductive reachable (max : Z) : client → Prop :=
| reachable_new : reachable max client_new
| reachable_step c a c' : reachable max c → exec max a c = Some c' → reachable max c'.

(** A run, for concrete schedules. *)
Fixpoint run (max : Z) (acts : list action) (c : client) : option client :=
  match acts with
  | [] => Some c
  | a :: acts => c ← exec max a c; run max acts c
  end.

Lemma run_reachable max acts c c' : reachable max c → run max acts c = Some c' → reachable max c'.
Proof.
  revert c. induction acts as [|a acts IH]; intros c Hc; cbn; [by intros [= <-]|].
  intros (c1 & Ha & Hr)%bind_Some. eapply IH; [|done]. by eapply reachable_step.
Qed.

Lemma hang_up_ends c c' : hang_up c = Some c' → c' = end_writer c.
Proof. unfold hang_up. by repeat case_match; intros; simplify_eq. Qed.

(* ------------------------------------------------------------------ *)
(** ** Schedules for concrete instances                                 *)
(* ------------------------------------------------------------------ *)

(** The client after a schedule of the real client's ceiling. *)
Definition after (acts : list action) : client :=
  default client_new (run MAX_FRAME_SIZE acts client_new).

Lemma after_reachable acts : reachable MAX_FRAME_SIZE (after acts).
Proof.
  unfold after. destruct (run _ _ _) as [c|] eqn:H; [|constructor].
  by eapply run_reachable; [constructor|].
Qed.

(** The server's side of a [NOOP] with a mailbox update, and of a [FETCH]. *)
Definition noop_bytes : bytes := b! "* 3 EXISTS" ++ [CR; LF] ++ b! "A0001 OK done" ++ [CR; LF].
Definition fetch_bytes : bytes := b! "* 1 FETCH (UID 7)" ++ [CR; LF] ++ b! "A0001 OK done" ++ [CR; LF].

Definition wants_data (r : Response) : bool := match r with Resp_Data _ => true | _ => false end.

(** [NOOP] is written and the server's bytes are read, up to the delivery of
    its tagged response. *)
Definition noop_acts : list action :=
  [A_Enqueue (b! "NOOP") None; A_Writer; A_Write (Write_Ok 12);
   A_Read (Read_Ok noop_bytes); A_Reader; A_Reader; A_Reader].

(** The same with a stream for the data. *)
Definition fetch_acts : list action :=
  [A_Enqueue (b! "FETCH 1 UID") (Some wants_data); A_Writer; A_Write (Write_Ok 19);
   A_Read (Read_Ok fetch_bytes); A_Reader; A_Reader; A_Reader].
