(* ===== verification/ClientFraming.v ===== *)
(** The read loop of [Client] as a splitter of the byte stream: the frames it
    has split off, and the bytes it holds, depend on the bytes read and on
    nothing else. *)

From S2P Require Import Prelude Str Ast Monad ResponseParser.
From S2P Require Import Framing ClientError Flags Wire Client.
From stdpp Require Import options.

(* ------------------------------------------------------------------ *)
(** ** The read loop                                                    *)
(* ------------------------------------------------------------------ *)

(** What the read loop holds. *)
Definition held (r : reader) : option bytes :=
  match r with
  | R_Reading b | R_Parsing b | R_Delivering _ _ b => Some b
  | R_Stopped | R_Panicked => None
  end.

Record framing (max : Z) (c : client) : Prop := {
  fr_frames : Forall is_frame (g_frames c);
  fr_held : ∀ b, held (cl_reader c) = Some b → g_read c = concat (g_frames c) ++ b;
  fr_prefix : ∃ b, g_read c = concat (g_frames c) ++ b;
  fr_waiting : ∀ b, cl_reader c = R_Reading b → unfinished parse_response b ∧ Z.of_nat (length b) <= max;
  fr_no_panic : cl_reader c ≠ R_Panicked;
}.

(** Steps that leave the read loop alone keep [framing]. *)
Lemma framing_same max c c' :
  framing max c → cl_reader c' = cl_reader c → g_read c' = g_read c → g_frames c' = g_frames c →
  framing max c'.
Proof. intros [] Hr Hg Hf. split; rewrite ?Hr, ?Hg, ?Hf; done. Qed.

Lemma framing_stop max c sh :
  framing max c → framing max (with_reader (R_Stopped, sh) c).
Proof. intros []. by split. Qed.

Lemma framing_read max r c c' : framing max c → read_step r c = Some c' → framing max c'.
Proof.
  unfold read_step. destruct (cl_reader c) as [b| | | |] eqn:Hr; try done. intros HF [= <-].
  pose proof HF as [Hfr Hheld Hpre Hwait Hnp].
  specialize (Hheld b). rewrite Hr in Hheld. specialize (Hheld eq_refl).
  destruct r as [[|x chunk]|]; cbn.
  - split; cbn; try done. by rewrite app_nil_r.
  - split; cbn; try done.
    + intros ? [= <-]. by rewrite Hheld, app_assoc.
    + exists (b ++ x :: chunk). by rewrite Hheld, app_assoc.
  - by apply framing_stop.
Qed.

Lemma framing_end_of_frames max c b :
  framing max c → cl_reader c = R_Parsing b → unfinished parse_response b →
  framing max (log_frame (with_reader (end_of_frames max b (cl_shared c)) c)).
Proof.
  intros [Hfr Hheld Hpre Hwait Hnp] Hr Hb. rewrite Hr in Hheld.
  unfold end_of_frames. destruct (max <? _) eqn:Hm; to_prop; cbn.
  - by split.
  - split; cbn; try done. by intros ? [= <-].
Qed.

Lemma framing_parse max c b :
  framing max c → cl_reader c = R_Parsing b →
  framing max (log_frame (with_reader (parse_step max b (cl_shared c)) c)).
Proof.
  intros HF Hr. destruct b as [|x b]; [by apply framing_end_of_frames; [..|left]|].
  cbn [parse_step]. destruct (framed_answers (parse := parse_response) (x :: b)) as [Hnp' Hnh].
  destruct (parse_response (x :: b)) as [rest r|e| |] eqn:Hp; try done.
  - destruct HF as [Hfr Hheld Hpre Hwait Hnp]. rewrite Hr in Hheld. specialize (Hheld _ eq_refl).
    destruct (parsed_frame _ _ _ Hp) as [Hs Hf]. set (n := (length (x :: b) - length rest)%nat) in *.
    assert (Hcat : g_read c = concat (g_frames c ++ [take n (x :: b)]) ++ drop n (x :: b)).
    { rewrite Hheld, concat_app. cbn [concat]. rewrite app_nil_r, <- app_assoc. by rewrite take_drop. }
    split; cbn; try done.
    + apply Forall_app; split; [done|]. apply Forall_singleton. by exists r.
    + by intros ? [= <-].
    + by eexists.
  - destruct e; try (by apply framing_stop). apply framing_end_of_frames; [done..|by right].
Qed.

Lemma framing_exec max a c c' : framing max c → exec max a c = Some c' → framing max c'.
Proof.
  intros HF. destruct a; cbn [exec].
  - by apply framing_read.
  - unfold reader_step. destruct (cl_reader c) as [|b|route f b| |] eqn:Hr; try done.
    + intros [= <-]. by apply framing_parse.
    + intros (sh & _ & [= <-])%bind_Some. destruct HF as [Hfr Hheld Hpre Hwait Hnp].
      rewrite Hr in Hheld. by split.
  - intros ([c1 r] & H & [= <-])%fmap_Some. unfold enqueue_command in H.
    repeat case_match; simplify_eq; cbn; try done; by eapply framing_same.
  - intros ([c1 r] & H & [= <-])%fmap_Some. unfold send_raw in H.
    repeat case_match; simplify_eq; cbn; try done; by eapply framing_same.
  - intros [= <-]. unfold cancel_enqueue. case_match; [case_match|done]; by eapply framing_same.
  - unfold writer_step. repeat case_match; intros; simplify_eq; by eapply framing_same.
  - unfold write_step. repeat case_match; intros; simplify_eq; by eapply framing_same.
  - intros ->%hang_up_ends. by eapply framing_same.
  - intros ([c1 r] & H & [= <-])%fmap_Some. unfold next_frame in H.
    repeat case_match; simplify_eq; cbn; try done; by eapply framing_same.
  - unfold into_reply. repeat case_match; intros; simplify_eq; try done; by eapply framing_same.
  - unfold drop_stream. repeat case_match; intros; simplify_eq; try done; by eapply framing_same.
Qed.

Lemma framing_reachable max c : 0 <= max → reachable max c → framing max c.
Proof.
  intros Hmax. induction 1 as [|c a c' _ IH Ha]; [|by eapply framing_exec].
  split; cbn; try done; [by intros ? [= <-]|by exists []|]. intros ? [= <-]. split; [by left|done].
Qed.

(** Why the read loop stops: the stream has ended or failed, an unfinished frame
    has outgrown the ceiling, or what came is no response. *)
Definition stop_reason (max : Z) (e : ClientError) : Prop :=
  match e with
  | CE_ConnectionClosed => True
  | CE_FrameTooLarge m => m = max
  | CE_Parse pe => ∃ b, parse_response b = ParseErr pe
  | _ => False
  end.

(** A round of the inner loop takes a whole non-empty frame off the buffer, or
    leaves the loop. *)
Lemma parse_step_shape max b sh :
  match parse_step max b sh with
  | (R_Delivering _ frame b', sh') => b = frame ++ b' ∧ frame ≠ [] ∧ sh' = sh
  | (R_Reading b', sh') => b' = b ∧ sh' = sh
  | (R_Stopped, sh') => ∃ e, sh' = fail_all_pending e sh ∧ stop_reason max e
  | _ => False
  end.
Proof.
  assert (Hend : match end_of_frames max b sh with
    | (R_Delivering _ frame b', sh') => b = frame ++ b' ∧ frame ≠ [] ∧ sh' = sh
    | (R_Reading b', sh') => b' = b ∧ sh' = sh
    | (R_Stopped, sh') => ∃ e, sh' = fail_all_pending e sh ∧ stop_reason max e
    | _ => False end).
  { unfold end_of_frames. destruct (max <? _); [by eexists|done]. }
  unfold parse_step. destruct b as [|x b]; [done|].
  destruct (framed_answers (parse := parse_response) (x :: b)) as [Hnp' Hnh].
  destruct (parse_response (x :: b)) as [rest r|e| |] eqn:Hp; try done.
  - split; [by rewrite take_drop|]. split; [|done]. apply (frame_ne (parse := parse_response)). exists r.
    by apply parsed_frame.
  - destruct e; try done; (eexists; split; [done|by eexists]).
Qed.

(* ------------------------------------------------------------------ *)
(** ** Properties                                                       *)
(* ------------------------------------------------------------------ *)

(** C10: whatever the sizes of the reads and however the tasks interleave, the
    frames handed on are whole frames and are the bytes read, in order; a client
    that waits for bytes has split what it read into exactly the frames of the
    specification and holds the unfinished rest, no longer than the ceiling;
    and the read loop never panics. *)
Theorem client_frames max c :
  0 <= max → reachable max c →
  Forall is_frame (g_frames c) ∧ (∃ b, g_read c = concat (g_frames c) ++ b)
  ∧ cl_reader c ≠ R_Panicked
  ∧ ∀ b, cl_reader c = R_Reading b →
      frames_of parse_response (g_read c) = (g_frames c, b) ∧ Z.of_nat (length b) <= max.
Proof.
  intros Hmax Hc. destruct (framing_reachable max c Hmax Hc) as [Hfr Hheld Hpre Hwait Hnp].
  split_and!; [done..|]. intros b Hr. destruct (Hwait b Hr). split; [|done].
  rewrite (Hheld b) by (by rewrite Hr). by apply frames_of_unique.
Qed.

Lemma client_frames_witness :
  frames_of parse_response noop_bytes = ([b! "* 3 EXISTS" ++ [CR; LF]; b! "A0001 OK done" ++ [CR; LF]], []).
Proof.
  pose proof (client_frames MAX_FRAME_SIZE (after (noop_acts ++ [A_Reader; A_Reader])) ltac:(done) (after_reachable _))
    as (_ & _ & _ & H).
  apply (H []). vm_compute. reflexivity.
Defined.
