(* ===== verification/ClientReplies.v ===== *)
(** Who gets which reply: the tagged responses of [Client] and the commands
    they answer, over every interleaving of the tasks. *)

From S2P Require Import Prelude Str Ast Monad ResponseParser ParserSafety ParserStream.
From S2P Require Import ParserLocal ParserTheorems Framing ClientError Flags Wire Client ClientFraming.
From stdpp Require Import options.

(* ------------------------------------------------------------------ *)
(** ** Tags                                                             *)
(* ------------------------------------------------------------------ *)

(** The tag of the command that waits on the [n]-th reply channel. *)
Definition tag_for (n : reply_id) : str := fst (next_tag ((Z.of_nat n + 1) mod 2 ^ 64)).

(** Until the counter wraps, no two commands have the same tag. *)
Lemma tag_for_inj n m :
  Z.of_nat n < u64_max → Z.of_nat m < u64_max → tag_for n = tag_for m → n = m.
Proof.
  unfold tag_for, next_tag, u64_max. cbn [fst]. intros Hn Hm H. apply app_inv_head in H.
  rewrite !Z.mod_small in H by lia. apply (f_equal dec_val) in H.
  rewrite !fmt_dec_pad_val in H by lia. lia.
Qed.

(** A tag is an ["A"] and digits: one line, and one word. *)
Lemma tag_for_bytes n b : b ∈ tag_for n → b = "A"%byte ∨ is_ascii_digit b = true.
Proof.
  unfold tag_for, next_tag. cbn [fst]. intros [Hb|Hb]%elem_of_app.
  - left. by apply list_elem_of_singleton in Hb.
  - right. pose proof (Z.mod_pos_bound (Z.of_nat n + 1) (2 ^ 64) ltac:(lia)).
    destruct (fmt_dec_pad_digits 4 ((Z.of_nat n + 1) mod 2 ^ 64)) as [_ Hd]; [lia|].
    rewrite Forall_forall in Hd. by apply Hd.
Qed.

#[global] Opaque tag_for.

(* ------------------------------------------------------------------ *)
(** ** Failing every waiter                                             *)
(* ------------------------------------------------------------------ *)

Lemma fail_all_waiter e sh tag n :
  p_replies (sh_pending sh) !! tag = Some n →
  sh_replies (fail_all_pending e sh) !! n = Some (inr e).
Proof.
  unfold fail_all_pending. cbn [sh_replies].
  revert tag. apply (map_fold_weak_ind (λ rs m, ∀ tag, m !! tag = Some n → rs !! n = Some (inr e))).
  - intros tag. by rewrite lookup_empty.
  - intros t x m rs _ IH tag. destruct (decide (x = n)) as [->|Hne]; [by rewrite lookup_insert_eq|].
    rewrite (lookup_insert_ne rs) by congruence. destruct (decide (t = tag)) as [->|?].
    + rewrite lookup_insert_eq. by intros [= ->].
    + rewrite lookup_insert_ne by done. apply IH.
Qed.

Lemma fail_all_other e sh n :
  (∀ tag, p_replies (sh_pending sh) !! tag ≠ Some n) →
  sh_replies (fail_all_pending e sh) !! n = sh_replies sh !! n.
Proof.
  unfold fail_all_pending. cbn [sh_replies].
  apply (map_fold_weak_ind
    (λ rs m, (∀ tag : bytes, m !! tag ≠ Some n) → rs !! n = sh_replies sh !! n)); [done|].
  intros t x m rs Ht IH H. assert (x ≠ n).
  { intros ->. apply (H t). by rewrite lookup_insert_eq. }
  rewrite lookup_insert_ne by done. apply IH. intros tag Htag. apply (H tag).
  rewrite lookup_insert_ne; [done|]. intros ->. congruence.
Qed.

(* ------------------------------------------------------------------ *)
(** ** Who waits for what                                               *)
(* ------------------------------------------------------------------ *)

(** The reply channels of the commands still queued. *)
Fixpoint queued (q : list WriteRequest) : list reply_id :=
  match q with
  | [] => []
  | WR_Command _ _ rid _ :: q => rid :: queued q
  | WR_Raw _ :: q => queued q
  end.

(** [frame] is the tagged response [status text] for the command that waits on
    [rid]. *)
Definition answers (frame : bytes) (tag : str) (status : Status) (text : str) : Prop :=
  ∃ code, parse_response frame = Parsed [] (Resp_Status (mkStatusResponse (Some tag) status code text)).

Record owned (c : client) : Prop := {
  ow_counter : cl_tag_counter c = Z.modulo (Z.of_nat (cl_next_reply c) + 1) (2 ^ 64);
  ow_queue : ∀ bs tag rid col, WR_Command bs tag rid col ∈ cl_queue c →
    tag = tag_for rid ∧ (rid < cl_next_reply c)%nat;
  ow_nodup : NoDup (queued (cl_queue c));
  ow_pending : ∀ tag rid, p_replies (sh_pending (cl_shared c)) !! tag = Some rid →
    tag = tag_for rid ∧ (rid < cl_next_reply c)%nat ∧ rid ∉ queued (cl_queue c);
  ow_replied : ∀ rid, is_Some (sh_replies (cl_shared c) !! rid) →
    (rid < cl_next_reply c)%nat ∧ (rid ∉ queued (cl_queue c))
    ∧ ∀ tag, p_replies (sh_pending (cl_shared c)) !! tag ≠ Some rid;
  ow_result : ∀ rid r, sh_replies (cl_shared c) !! rid = Some r →
    (∃ frame status text, frame ∈ g_frames c ∧ answers frame (tag_for rid) status text
       ∧ r = tagged_result status text frame)
    ∨ (cl_reader c = R_Stopped ∧ ∃ e, r = inr e);
  ow_delivering : ∀ tag status text frame b,
    cl_reader c = R_Delivering (Route_Tagged tag status text) frame b →
    frame ∈ g_frames c ∧ answers frame tag status text;
  ow_collectors : ∀ col, col ∈ p_collectors (sh_pending (cl_shared c)) →
    is_Some (p_replies (sh_pending (cl_shared c)) !! c_tag col);
}.

Lemma elem_of_queued q rid : rid ∈ queued q ↔ ∃ bs tag col, WR_Command bs tag rid col ∈ q.
Proof.
  induction q as [|[bs tag rid' col|bs] q IH]; cbn.
  - split; [by intros ?%not_elem_of_nil|by intros (? & ? & ? & ?%not_elem_of_nil)].
  - rewrite elem_of_cons, IH. split.
    + intros [->|(? & ? & ? & ?)]; [by eexists _, _, _; left|by eexists _, _, _; right].
    + intros (? & ? & ? & [[= _ _ -> _]|?]%elem_of_cons); [by left|right; by eexists _, _, _].
  - rewrite IH. split; intros (? & ? & ? & H).
    + by eexists _, _, _; right.
    + apply elem_of_cons in H as [?|?]; [done|by eexists _, _, _].
Qed.

Lemma queued_app q1 q2 : queued (q1 ++ q2) = queued q1 ++ queued q2.
Proof. induction q1 as [|[] q1 IH]; cbn; by rewrite ?IH. Qed.

(** A step that registers nothing and replies to nothing. *)
Lemma owned_same c c' :
  owned c →
  cl_tag_counter c' = cl_tag_counter c → cl_queue c' = cl_queue c →
  cl_next_reply c' = cl_next_reply c →
  sh_pending (cl_shared c') = sh_pending (cl_shared c) →
  sh_replies (cl_shared c') = sh_replies (cl_shared c) →
  (∀ f, f ∈ g_frames c → f ∈ g_frames c') →
  (cl_reader c = R_Stopped → cl_reader c' = R_Stopped) →
  (∀ tag status text frame b,
     cl_reader c' = R_Delivering (Route_Tagged tag status text) frame b →
     frame ∈ g_frames c' ∧ answers frame tag status text) →
  owned c'.
Proof.
  intros [] Hc Hq Hn Hp Hr Hf Hs Hd. split; rewrite ?Hc, ?Hq, ?Hn, ?Hp, ?Hr; try done.
  intros rid r H. destruct (ow_result0 rid r H) as [(f & st & t & Hin & Ha & ->)|[Hstop He]].
  - left. exists f, st, t. auto.
  - right. auto.
Qed.

Lemma fail_all_cases e sh n r :
  sh_replies (fail_all_pending e sh) !! n = Some r →
  (∃ tag, p_replies (sh_pending sh) !! tag = Some n ∧ r = inr e)
  ∨ sh_replies sh !! n = Some r ∧ ∀ tag, p_replies (sh_pending sh) !! tag ≠ Some n.
Proof.
  intros H. destruct (decide (map_Exists (λ _ x, x = n) (p_replies (sh_pending sh)))) as [Hex|Hno].
  - left. destruct Hex as (tag & x & Ht & ->). exists tag. split; [done|].
    rewrite (fail_all_waiter _ _ _ _ Ht) in H. congruence.
  - right. assert (Hn : ∀ tag, p_replies (sh_pending sh) !! tag ≠ Some n).
    { intros tag Ht. apply Hno. by exists tag, n. }
    by rewrite fail_all_other in H.
Qed.

(** The read loop stops and fails every waiter. *)
Lemma owned_fail e c : owned c → owned (with_reader (R_Stopped, fail_all_pending e (cl_shared c)) c).
Proof.
  intros [Hcnt Hq Hnd Hp Hr Hres Hd Hcol].
  split; cbn [with_reader cl_tag_counter cl_queue cl_next_reply cl_shared cl_reader g_frames fst snd];
    try done; change (sh_pending _) with pending_default.
  - intros rid [r H]. apply fail_all_cases in H as [(tag & Ht & ->)|[H _]].
    + destruct (Hp _ _ Ht) as (? & ? & ?). done.
    + destruct (Hr rid) as (? & ? & ?); [by exists r|]. done.
  - intros rid r H. apply fail_all_cases in H as [(tag & Ht & ->)|[H _]].
    + right. split; [done|]. by exists e.
    + destruct (Hres _ _ H) as [Hl|[_ Hr']]; [by left|by right].
  - by intros ? ?%not_elem_of_nil.
Qed.

(** A tagged response is delivered. *)
Lemma owned_deliver route frame b sh c :
  owned c → cl_reader c = R_Delivering route frame b →
  dispatch_frame route frame (cl_shared c) = Some sh →
  owned (with_reader (R_Parsing b, sh) c).
Proof.
  intros HO Hrd. pose proof HO as [Hcnt Hq Hnd Hp Hr Hres Hd Hcol].
  destruct route as [tag status text|tx|]; cbn [dispatch_frame complete].
  - destruct (Hd _ _ _ _ _ Hrd) as [Hin Ha].
    destruct (p_replies (sh_pending (cl_shared c)) !! tag) as [rid|] eqn:Ht; intros [= <-].
    + destruct (Hp _ _ Ht) as (-> & Hlt & Hnq).
      split; cbn; try done.
      * intros t r [? H]%lookup_delete_Some. by apply Hp.
      * intros r. destruct (decide (r = rid)) as [->|?].
        -- intros _. split_and!; [done..|]. intros t [Hne H]%lookup_delete_Some.
           destruct (Hp _ _ H) as [-> _]. done.
        -- rewrite lookup_insert_ne by congruence. intros (? & ? & Hno)%Hr. split_and!; [done..|].
           intros t [_ Hdel]%lookup_delete_Some. by apply (Hno t).
      * intros r x. destruct (decide (r = rid)) as [->|?].
        -- rewrite lookup_insert_eq. intros [= <-]. left. by exists frame, status, text.
        -- rewrite lookup_insert_ne by congruence. intros H. rewrite Hrd in Hres.
           destruct (Hres _ _ H) as [?|[? _]]; [by left|done].
      * intros col [Hne Hc]%list_elem_of_filter. rewrite lookup_delete_ne by congruence. by apply Hcol.
    + rewrite Hrd in Hres. split; cbn; try done.
      * intros t r [? H]%lookup_delete_Some. by apply Hp.
      * intros r (? & ? & Hno)%Hr. split_and!; [done..|]. intros t [_ Hdel]%lookup_delete_Some. by apply (Hno t).
      * intros r x H. destruct (Hres _ _ H) as [?|[? _]]; [by left|done].
      * intros col [Hne Hc]%list_elem_of_filter. rewrite lookup_delete_ne by congruence. by apply Hcol.
  - intros H. apply (owned_same c); try done; cbn; rewrite ?Hrd; try done; repeat case_match; by simplify_eq.
  - intros [= <-]. apply (owned_same c); try done; cbn; rewrite ?Hrd; done.
Qed.

Lemma owned_writer c c' : owned c → writer_step c = Some c' → owned c'.
Proof.
  intros HO. pose proof HO as [Hcnt Hq Hnd Hp Hr Hres Hd Hcol]. unfold writer_step.
  destruct (cl_writer c); [|done..].
  destruct (cl_queue c) as [|[bs tag rid col|bs] q] eqn:Hqc; [done|intros [= <-]..].
  - destruct (Hq bs tag rid col) as [-> Hlt]; [by left|]. cbn in Hnd. apply NoDup_cons in Hnd as [Hni Hnd].
    split; cbn; try done.
    + intros * H. eapply Hq. right. exact H.
    + intros t r [[<- <-]|[? H]]%lookup_insert_Some; [done|].
      destruct (Hp _ _ H) as (? & ? & Hn). split_and!; [done..|]. intros ?. apply Hn. by right.
    + intros r (? & Hn & Hno)%Hr. cbn in Hn. apply not_elem_of_cons in Hn as [Hne Hn].
      split_and!; [done..|]. intros t [[<- <-]|[_ Hdel]]%lookup_insert_Some; [done|by apply (Hno t)].
    + intros cl. destruct (decide (c_tag cl = tag_for rid)) as [->|?].
      * intros _. rewrite lookup_insert_eq. by eexists.
      * rewrite lookup_insert_ne by congruence. intros H. apply Hcol. destruct col as [[w tx]|]; [|done].
        apply elem_of_app in H as [?|Heq]; [done|]. by apply list_elem_of_singleton in Heq as ->.
  - split; cbn; try done. intros * H. eapply Hq. right. exact H.
Qed.

(** The write loop ends: nothing is registered and nothing replied to. *)
Lemma owned_end c : owned c → owned (end_writer c).
Proof.
  intros [Hcnt Hq Hnd Hp Hr Hres Hd Hcol].
  assert (Hgone : ∀ p, p = sh_pending (cl_shared c) ∨ p = pending_default →
    owned (mkClient (set_pending p (cl_shared c)) (cl_reader c) [] W_Done (cl_written c)
      (cl_tag_counter c) (cl_next_reply c) (g_read c) (g_frames c) (g_log c))).
  { intros p Hpe. split; cbn; try done.
    - by intros * ?%not_elem_of_nil.
    - constructor.
    - intros t r. destruct Hpe as [->| ->]; [|done]. intros (? & ? & _)%Hp. split_and!; [done..|].
      apply not_elem_of_nil.
    - intros r (? & _ & Hno)%Hr. split_and!; [done|apply not_elem_of_nil|].
      destruct Hpe as [->| ->]; [exact Hno|done].
    - intros cl. destruct Hpe as [->| ->]; [apply Hcol|by intros ?%not_elem_of_nil]. }
  unfold end_writer. destruct (cl_shared c) as [p0 ? ? ?] eqn:Hsh.
  destruct (cl_reader c); (apply (Hgone p0); by left) || (apply (Hgone pending_default); by right).
Qed.

Lemma owned_write r c c' : owned c → write_step r c = Some c' → owned c'.
Proof.
  unfold write_step. destruct (cl_writer c); [done| |done]. intros HO.
  destruct r as [[|n]|]; intros [= <-]; [by apply owned_end| |by apply owned_end].
  destruct HO. by split.
Qed.

(** A call that is given up spends a tag. *)
Lemma owned_cancel cmd c : owned c → owned (cancel_enqueue cmd c).
Proof.
  intros HO. pose proof HO as [Hcnt Hq Hnd Hp Hr Hres Hd Hcol]. unfold cancel_enqueue.
  destruct (wire.reject_line_breaks cmd) as [[]|e]; [|done]. split; cbn; try done.
  - rewrite Hcnt, Nat2Z.inj_succ. unfold Z.succ. by rewrite Zplus_mod_idemp_l.
  - intros * [? ?]%Hq. split; [done|lia].
  - intros * (? & ? & ?)%Hp. split_and!; [done|lia|done].
  - intros * (? & ? & ?)%Hr. split_and!; [lia|done..].
Qed.

Lemma owned_enqueue cmd wants c c' r :
  owned c → enqueue_command cmd wants c = Some (c', r) → owned c'.
Proof.
  intros HO. pose proof HO as [Hcnt Hq Hnd Hp Hr Hres Hd Hcol]. unfold enqueue_command.
  destruct (wire.reject_line_breaks cmd) as [[]|e]; [|by intros [= <- _]].
  cbn [next_tag]. set (tag := b! "A" ++ _). set (n := cl_next_reply c) in *.
  assert (Htag : tag = tag_for n) by (subst tag; rewrite Hcnt; reflexivity).
  assert (Hcnt' : (cl_tag_counter c + 1) mod 2 ^ 64 = (Z.of_nat (S n) + 1) mod 2 ^ 64).
  { rewrite Hcnt, Nat2Z.inj_succ. unfold Z.succ. by rewrite Zplus_mod_idemp_l. }
  assert (Hfresh : n ∉ queued (cl_queue c)).
  { intros (? & ? & ? & H)%elem_of_queued. apply Hq in H as [_ H]. subst n. lia. }
  clearbody tag. subst tag.
  destruct (cl_writer_done c); [|destruct (_ <? _)%nat; [|done]]; intros [= <- _]; split; cbn; try done.
  - intros * [? ?]%Hq. split; [done|lia].
  - intros * (? & ? & ?)%Hp. split_and!; [done|lia|done].
  - intros * (? & ? & ?)%Hr. split_and!; [lia|done..].
  - intros * [H|H]%elem_of_app.
    + apply Hq in H as [? ?]. split; [done|lia].
    + apply list_elem_of_singleton in H as [= -> -> -> ->]. split; [done|lia].
  - rewrite queued_app. apply NoDup_app. cbn. split_and!; [done| |apply NoDup_singleton].
    intros x Hx H. apply list_elem_of_singleton in H as ->. done.
  - intros t rid (? & Hlt & ?)%Hp. split_and!; [done|lia|]. rewrite queued_app. cbn.
    intros [?|Hin]%elem_of_app; [done|]. apply list_elem_of_singleton in Hin as ->. lia.
  - intros rid (Hlt & ? & ?)%Hr. split_and!; [lia| |done]. rewrite queued_app. cbn.
    intros [?|Hin]%elem_of_app; [done|]. apply list_elem_of_singleton in Hin as ->. lia.
Qed.

Lemma owned_raw bs c c' r : owned c → send_raw bs c = Some (c', r) → owned c'.
Proof.
  intros HO. pose proof HO as [Hcnt Hq Hnd Hp Hr Hres Hd Hcol]. unfold send_raw.
  destruct (cl_writer_done c); [by intros [= <- _]|]. destruct (_ <? _)%nat; [|done].
  intros [= <- _]. split; cbn; rewrite ?queued_app, ?app_nil_r; try done.
  intros * [H|H]%elem_of_app; [by eapply Hq|]. by apply list_elem_of_singleton in H.
Qed.

Lemma route_for_tagged response sh tag status text :
  route_for response sh = Route_Tagged tag status text →
  ∃ code, response = Resp_Status (mkStatusResponse (Some tag) status code text).
Proof.
  unfold route_for. destruct response as [[[t|] s code x]| |]; try (case_match; done).
  intros [= -> -> ->]. by exists code.
Qed.

Lemma owned_parse max b c :
  owned c → cl_reader c = R_Parsing b →
  owned (log_frame (with_reader (parse_step max b (cl_shared c)) c)).
Proof.
  intros HO Hrd.
  assert (Hend : owned (log_frame (with_reader (end_of_frames max b (cl_shared c)) c))).
  { unfold end_of_frames. destruct (max <? _); cbn; [by apply owned_fail|].
    apply (owned_same c); cbn; rewrite ?Hrd; done. }
  destruct b as [|x b]; [done|]. cbn [parse_step].
  destruct (parse_response (x :: b)) as [rest r|e| |] eqn:Hp.
  - apply (owned_same c); cbn; rewrite ?Hrd; try done.
    + intros f ?. apply elem_of_app. by left.
    + intros tag status text frame b' [= Hroute <- _]. split; [apply elem_of_app; right; by left|].
      apply route_for_tagged in Hroute as [code ->]. exists code. exact (proj2 (parsed_frame _ _ _ Hp)).
  - destruct e; try done; by apply owned_fail.
  - apply (owned_same c); cbn; rewrite ?Hrd; done.
  - apply (owned_same c); cbn; rewrite ?Hrd; done.
Qed.

Lemma into_reply_only tx c :
  cl_reader (into_reply tx c) = cl_reader c ∧ cl_queue (into_reply tx c) = cl_queue c
  ∧ sh_pending (cl_shared (into_reply tx c)) = sh_pending (cl_shared c)
  ∧ sh_replies (cl_shared (into_reply tx c)) = sh_replies (cl_shared c).
Proof.
  unfold into_reply. destruct (sh_streams _ !! tx) as [[q ?]|]; [|done].
  split; [done|]. split; [done|]. cbn.
  enough (∀ sh, sh_pending (foldl (λ sh f, broadcast f sh) sh q) = sh_pending sh
    ∧ sh_replies (foldl (λ sh f, broadcast f sh) sh q) = sh_replies sh) as H by exact (H (set_stream tx (mkStream [] true) (cl_shared c))).
  induction q as [|f q IH]; intros sh; [done|]. exact (IH (broadcast f sh)).
Qed.

Lemma owned_exec max a c c' : owned c → exec max a c = Some c' → owned c'.
Proof.
  intros HO. destruct a; cbn [exec].
  - unfold read_step. destruct (cl_reader c) eqn:Hr; try done. intros [= <-].
    assert (owned (with_reader (on_read r buffer (cl_shared c)) c)) as HO'.
    { destruct r as [[|x chunk]|]; cbn; try (by apply owned_fail).
      apply (owned_same c); cbn; rewrite ?Hr; done. }
    destruct r; [|done]. destruct HO'. by split.
  - unfold reader_step. destruct (cl_reader c) as [|b|route f b| |] eqn:Hr; try done.
    + intros [= <-]. by apply owned_parse.
    + intros (sh & Hd & [= <-])%bind_Some. by eapply owned_deliver.
  - intros ([c1 r] & H & [= <-])%fmap_Some. by eapply owned_enqueue.
  - intros ([c1 r] & H & [= <-])%fmap_Some. by eapply owned_raw.
  - intros [= <-]. by apply owned_cancel.
  - by apply owned_writer.
  - by apply owned_write.
  - intros ->%hang_up_ends. by apply owned_end.
  - intros ([c1 r] & H & [= <-])%fmap_Some. unfold next_frame in H. destruct HO.
    repeat case_match; simplify_eq; by split.
  - intros [= <-]. destruct (into_reply_only tx c) as (Hr & Hq & Hp & Hs).
    assert (cl_tag_counter (into_reply tx c) = cl_tag_counter c
      ∧ cl_next_reply (into_reply tx c) = cl_next_reply c ∧ g_frames (into_reply tx c) = g_frames c)
      as (? & ? & Hf) by (unfold into_reply; repeat case_match; done).
    apply (owned_same c); rewrite ?Hr, ?Hf; try done. destruct HO. done.
  - intros [= <-]. destruct HO. unfold drop_stream. case_match; by split.
Qed.

Lemma owned_reachable max c : reachable max c → owned c.
Proof.
  induction 1 as [|c a c' _ IH Ha]; [|by eapply owned_exec].
  split; cbn; try done.
  - by intros * ?%not_elem_of_nil.
  - constructor.
  - by intros * [? ?].
  - by intros * ?%not_elem_of_nil.
Qed.

(** The steps of all tasks but the read loop leave it and the results alone. *)
Lemma exec_others max a c c' :
  (∀ r, a ≠ A_Read r) → a ≠ A_Reader → exec max a c = Some c' →
  cl_reader c' = cl_reader c ∧ sh_replies (cl_shared c') = sh_replies (cl_shared c).
Proof.
  intros Hread Hreader. destruct a; cbn [exec]; [by destruct (Hread r)|done|..].
  - intros ([c1 r] & H & [= <-])%fmap_Some. unfold enqueue_command in H.
    repeat case_match; by simplify_eq.
  - intros ([c1 r] & H & [= <-])%fmap_Some. unfold send_raw in H. repeat case_match; by simplify_eq.
  - intros [= <-]. unfold cancel_enqueue. by repeat case_match.
  - unfold writer_step. repeat case_match; intros; by simplify_eq.
  - unfold write_step, end_writer. repeat case_match; intros; by simplify_eq.
  - intros ->%hang_up_ends. unfold end_writer. by case_match.
  - intros ([c1 r] & H & [= <-])%fmap_Some. unfold next_frame in H. repeat case_match; by simplify_eq.
  - intros [= <-]. by destruct (into_reply_only tx c) as (-> & _ & _ & ->).
  - intros [= <-]. unfold drop_stream. by case_match.
Qed.

(** What a step does to the results: the read loop stops and fails everyone, or
    answers one command, or they stay as they are. *)
Inductive results_step (max : Z) (c c' : client) : Prop :=
| rs_stop e :
    stop_reason max e → cl_reader c ≠ R_Stopped → cl_reader c' = R_Stopped →
    cl_shared c' = fail_all_pending e (cl_shared c) → results_step max c c'
| rs_answer tag rid status text frame :
    cl_reader c ≠ R_Stopped → cl_reader c' ≠ R_Stopped →
    p_replies (sh_pending (cl_shared c)) !! tag = Some rid →
    sh_replies (cl_shared c') = <[rid := tagged_result status text frame]> (sh_replies (cl_shared c)) →
    results_step max c c'
| rs_none :
    (cl_reader c' = R_Stopped ↔ cl_reader c = R_Stopped) →
    sh_replies (cl_shared c') = sh_replies (cl_shared c) → results_step max c c'.

Lemma exec_results max a c c' : exec max a c = Some c' → results_step max c c'.
Proof.
  assert (Hcase : (∃ r, a = A_Read r) ∨ a = A_Reader ∨ (∀ r, a ≠ A_Read r) ∧ a ≠ A_Reader)
    by (destruct a; eauto 4).
  destruct Hcase as [[r ->]|[->|[Hread Hreader]]]; cbn [exec].
  - unfold read_step. destruct (cl_reader c) as [b| | | |] eqn:Hr; try done. intros [= <-].
    destruct r as [[|x chunk]|]; [|by apply rs_none; rewrite ?Hr|];
      by apply (rs_stop _ _ _ CE_ConnectionClosed); rewrite ?Hr.
  - unfold reader_step. destruct (cl_reader c) as [|b|route f b| |] eqn:Hr; try done.
    + intros [= <-]. pose proof (parse_step_shape max b (cl_shared c)) as Hs. unfold log_frame.
      destruct (parse_step max b (cl_shared c)) as [[] sh]; cbn in *; destr_hyps; subst; try done;
        try (by apply rs_none; rewrite ?Hr).
      by eapply rs_stop; rewrite ?Hr.
    + intros (sh & Hd & [= <-])%bind_Some. destruct route as [tag status text|tx|]; cbn in Hd.
      * destruct (_ !! tag) as [rid|] eqn:Ht; simplify_eq; [|by apply rs_none; rewrite ?Hr].
        by eapply rs_answer; rewrite ?Hr.
      * repeat case_match; simplify_eq; by apply rs_none; rewrite ?Hr.
      * simplify_eq; by apply rs_none; rewrite ?Hr.
  - intros Hx. destruct (exec_others _ _ _ _ Hread Hreader Hx) as [Hr Hs]. apply rs_none; [by rewrite Hr|done].
Qed.

(** A step replies only to commands that wait. *)
Lemma exec_replies_other max a c c' rid :
  (∀ tag, p_replies (sh_pending (cl_shared c)) !! tag ≠ Some rid) → exec max a c = Some c' →
  sh_replies (cl_shared c') !! rid = sh_replies (cl_shared c) !! rid.
Proof.
  intros Hno Hx. apply exec_results in Hx as [e _ _ _ ->|tag n status text frame _ _ Ht ->|_ ->]; [|  |done].
  - by apply fail_all_other.
  - apply lookup_insert_ne. intros ->. by apply (Hno tag).
Qed.

(* ------------------------------------------------------------------ *)
(** ** A read loop that has stopped                                     *)
(* ------------------------------------------------------------------ *)

Lemma stopped_exec max a c c' :
  cl_reader c = R_Stopped → exec max a c = Some c' →
  cl_reader c' = R_Stopped ∧ sh_replies (cl_shared c') = sh_replies (cl_shared c).
Proof. intros Hr Hx. apply exec_results in Hx as [| |Hs ->]; [done..|]. by rewrite Hs. Qed.

(** How a step stops the read loop: by failing every waiter, and in no other way. *)
Lemma stops_exec max a c c' :
  exec max a c = Some c' → cl_reader c' = R_Stopped →
  cl_reader c = R_Stopped ∨ ∃ e, cl_shared c' = fail_all_pending e (cl_shared c) ∧ stop_reason max e.
Proof.
  intros Hx Hr. apply exec_results in Hx as [e He _ _ Hs|* _ Hn|Hs _]; [by right; exists e|done|].
  left. by apply Hs.
Qed.

(* ------------------------------------------------------------------ *)
(** ** Properties                                                       *)
(* ------------------------------------------------------------------ *)

(** C11: a command's result comes from a frame the server sent with that
    command's own tag, and from its status: success only from a tagged [OK].
    The only other result is an error, and then the read loop has stopped.
    Until the counter wraps, no frame answers two commands. *)
Theorem reply_authentic max c rid r :
  reachable max c → sh_replies (cl_shared c) !! rid = Some r →
  (∃ frame status text,
     frame ∈ g_frames c ∧ answers frame (tag_for rid) status text ∧ r = tagged_result status text frame
     ∧ ∀ rid' status' text', Z.of_nat rid < u64_max → Z.of_nat rid' < u64_max →
         answers frame (tag_for rid') status' text' → rid' = rid)
  ∨ (cl_reader c = R_Stopped ∧ ∃ e, r = inr e).
Proof.
  intros Hc H. destruct (ow_result _ (owned_reachable _ _ Hc) _ _ H) as [(f & st & x & Hin & Ha & ->)|?];
    [left|by right].
  exists f, st, x. split_and!; [done..|]. intros rid' st' x' Hlt Hlt' [code' Ha']. destruct Ha as [code Ha].
  rewrite Ha in Ha'. apply tag_for_inj; [done..|congruence].
Qed.

Lemma reply_authentic_witness :
  ∃ frame status text, frame ∈ [b! "* 3 EXISTS" ++ [CR; LF]; b! "A0001 OK done" ++ [CR; LF]]
    ∧ answers frame (b! "A0001") status text
    ∧ inl (b! "A0001 OK done" ++ [CR; LF]) = tagged_result status text frame.
Proof.
  pose proof (reply_authentic MAX_FRAME_SIZE (after (noop_acts ++ [A_Reader])) 0
    (inl (b! "A0001 OK done" ++ [CR; LF])) (after_reachable _)) as H.
  destruct H as [(frame & status & text & Hin & Ha & Hr & _)|[H _]].
  - vm_compute. reflexivity.
  - exists frame, status, text. split; [exact Hin|]. split; [exact Ha|exact Hr].
  - vm_compute in H. discriminate H.
Defined.

(** C12: a reply is final. No step of any task changes or withdraws a result
    that was delivered, and a command that has one is not in the write queue. *)
Theorem reply_final max c a c' rid r :
  reachable max c → exec max a c = Some c' → sh_replies (cl_shared c) !! rid = Some r →
  sh_replies (cl_shared c') !! rid = Some r ∧ rid ∉ queued (cl_queue c').
Proof.
  intros Hc Ha H. pose proof (owned_reachable _ _ Hc) as HO. pose proof (owned_exec _ _ _ _ HO Ha) as HO'.
  enough (sh_replies (cl_shared c') !! rid = Some r) as H'.
  { split; [done|]. by apply (ow_replied _ HO' rid); exists r. }
  destruct (ow_replied _ HO rid) as (_ & _ & Hno); [by exists r|]. rewrite <- H.
  by apply (exec_replies_other max a).
Qed.

Lemma reply_final_witness :
  let c := after (noop_acts ++ [A_Reader]) in
  match exec MAX_FRAME_SIZE (A_Enqueue (b! "NOOP") None) c with
  | Some c' => sh_replies (cl_shared c') !! 0%nat = Some (inl (b! "A0001 OK done" ++ [CR; LF]))
      ∧ (0%nat ∉ queued (cl_queue c'))
  | None => False
  end.
Proof.
  cbv zeta. destruct (exec _ _ _) as [c'|] eqn:Hx.
  - eapply (reply_final MAX_FRAME_SIZE); [apply after_reachable|exact Hx|vm_compute; reflexivity].
  - vm_compute in Hx. discriminate Hx.
Defined.

(** C13: when the read loop stops, every command that was waiting is failed at
    that moment and none is left waiting. The error they all get is one of the
    loop's reasons to stop: the connection is closed or lost, a frame is over the
    cap, or a parse error [parse_response] returned for some frame. *)
Theorem stop_fails_all max c a c' :
  exec max a c = Some c' → cl_reader c ≠ R_Stopped → cl_reader c' = R_Stopped →
  sh_pending (cl_shared c') = pending_default
  ∧ ∃ e, stop_reason max e ∧ ∀ tag rid, p_replies (sh_pending (cl_shared c)) !! tag = Some rid →
      sh_replies (cl_shared c') !! rid = Some (inr e).
Proof.
  intros Ha Hns Hs. destruct (stops_exec _ _ _ _ Ha Hs) as [?|[e [-> He]]]; [done|].
  split; [done|]. exists e. split; [done|]. intros tag rid. apply fail_all_waiter.
Qed.

Lemma stop_fails_all_witness :
  ∃ e, sh_replies (cl_shared (after [A_Enqueue (b! "NOOP") None; A_Writer; A_Write (Write_Ok 12); A_Read Read_Err])) !! 0%nat
    = Some (inr e).
Proof.
  destruct (stop_fails_all MAX_FRAME_SIZE (after [A_Enqueue (b! "NOOP") None; A_Writer; A_Write (Write_Ok 12)]) (A_Read Read_Err)
    (after [A_Enqueue (b! "NOOP") None; A_Writer; A_Write (Write_Ok 12); A_Read Read_Err])) as [_ [e [_ He]]].
  - vm_compute. reflexivity.
  - vm_compute. discriminate.
  - vm_compute. reflexivity.
  - exists e. apply (He (b! "A0001")). vm_compute. reflexivity.
Defined.

(** A command sent after the read loop has stopped is never answered,
    whatever runs from then on: its caller only sees its own timeout. *)
Theorem stopped_never_replies max acts c c' :
  cl_reader c = R_Stopped → run max acts c = Some c' →
  sh_replies (cl_shared c') = sh_replies (cl_shared c).
Proof.
  revert c. induction acts as [|a acts IH]; intros c Hs; cbn; [by intros [= <-]|].
  intros (c1 & Ha & Hr)%bind_Some. destruct (stopped_exec _ _ _ _ Hs Ha) as [Hs1 <-]. by apply IH.
Qed.

Lemma stopped_never_replies_witness :
  sh_replies (cl_shared (after [A_Read Read_Err; A_Enqueue (b! "NOOP") None; A_Writer; A_Write (Write_Ok 12)])) = ∅.
Proof.
  apply (stopped_never_replies MAX_FRAME_SIZE [A_Enqueue (b! "NOOP") None; A_Writer; A_Write (Write_Ok 12)]
    (after [A_Read Read_Err])); vm_compute; reflexivity.
Defined.
