(* ===== verification/ClientStreams.v ===== *)
(** The streams of [Client] and the lines its write loop writes: the order of
    delivery, backpressure, and what reaches the server. *)

From S2P Require Import Prelude Str Ast Monad ResponseParser ParserSafety ParserStream.
From S2P Require Import ParserLocal ParserTheorems Framing ClientError Flags Wire Client ClientFraming.
From S2P Require Import ClientReplies.
From stdpp Require Import options.

(* ------------------------------------------------------------------ *)
(** ** Senders                                                          *)
(* ------------------------------------------------------------------ *)

Definition request_stream (req : WriteRequest) : option stream_id :=
  match req with WR_Command _ _ _ (Some (_, tx)) => Some tx | _ => None end.

(** The streams with a collector, registered or still queued. *)
Definition claimed (c : client) : list stream_id :=
  (c_tx <$> p_collectors (sh_pending (cl_shared c))) ++ omap request_stream (cl_queue c).

Definition delivering (c : client) (tx : stream_id) : Prop :=
  ∃ f b, cl_reader c = R_Delivering (Route_Stream tx) f b.

Record streams_ok (c : client) : Prop := {
  so_nodup : NoDup (claimed c);
  so_claimed : ∀ tx, tx ∈ claimed c → (tx < cl_next_reply c)%nat;
  so_delivering : ∀ tx, delivering c tx → (tx < cl_next_reply c)%nat;
  so_cap : ∀ tx s, sh_streams (cl_shared c) !! tx = Some s →
    (tx < cl_next_reply c)%nat ∧ (length (s_queue s) ≤ STREAM_CHANNEL_CAP)%nat;
}.

Lemma has_sender_true tx c : has_sender tx c = true ↔ tx ∈ claimed c ∨ delivering c tx.
Proof.
  unfold has_sender, claimed, delivering. rewrite !orb_true_iff, elem_of_app, !existsb_exists.
  setoid_rewrite <- list_elem_of_In. rewrite list_elem_of_fmap, list_elem_of_omap.
  f_equiv; [f_equiv|].
  - split; intros (x & H1 & H2); exists x.
    + apply Nat.eqb_eq in H2. done.
    + split; [done|]. by apply Nat.eqb_eq.
  - split; intros (x & H1 & H2); exists x; (split; [done|]); destruct x as [? ? ? [[? ?]|]|]; cbn in *;
      simplify_eq; try done; [by apply Nat.eqb_eq in H2 as ->|apply Nat.eqb_refl].
  - destruct (cl_reader c) as [| |[| |] | |]; split; try done; try (intros (? & ? & ?); done).
    + intros ->%Nat.eqb_eq. by eexists _, _.
    + intros (? & ? & [= -> _ _]). apply Nat.eqb_refl.
Qed.

Lemma find_collector_elem sh cs response tx :
  find_collector sh cs response = Some tx → tx ∈ c_tx <$> cs.
Proof.
  induction cs as [|col cs IH]; [done|]. cbn. case_match; [intros [= <-]; by left|].
  intros Hf. right. by apply IH.
Qed.

Lemma route_for_stream response sh tx :
  route_for response sh = Route_Stream tx → tx ∈ c_tx <$> p_collectors (sh_pending sh).
Proof.
  intros H. apply (find_collector_elem sh _ response). change (collector_for sh response = Some tx).
  unfold route_for in H. destruct response as [[[t|] s code x]| |]; try done;
    destruct (collector_for _ _); congruence.
Qed.

(** What one step does to the streams. [fresh] is the stream it opens, if any;
    no other stream gains a sender, and a queue grows only when the read loop
    was delivering to it. *)
Definition queue_step (d : Prop) (q q' : list bytes) : Prop :=
  q' `suffix_of` q ∨ d ∧ (length q < STREAM_CHANNEL_CAP)%nat ∧ ∃ f, q' = q ++ [f].

Record stream_step (c c' : client) (fresh : list stream_id) : Prop := {
  ss_fresh : fresh = [] ∨ fresh = [cl_next_reply c];
  ss_next : (cl_next_reply c + length fresh ≤ cl_next_reply c')%nat;
  ss_claimed : claimed c' `sublist_of` claimed c ++ fresh;
  ss_delivering : ∀ tx, delivering c' tx → delivering c tx ∨ tx ∈ claimed c;
  ss_streams : ∀ tx s, sh_streams (cl_shared c') !! tx = Some s →
    (tx ∈ fresh ∧ s_queue s = [])
    ∨ ∃ s', sh_streams (cl_shared c) !! tx = Some s' ∧ queue_step (delivering c tx) (s_queue s') (s_queue s);
}.

Lemma claimed_filter (P : Collector → Prop) `{!∀ x, Decision (P x)} (cols : list Collector) :
  c_tx <$> filter P cols `sublist_of` c_tx <$> cols.
Proof.
  induction cols as [|col cols IH]; [done|]. rewrite filter_cons. case_decide; cbn.
  - by apply sublist_skip.
  - by apply sublist_cons.
Qed.

(** Steps that open no stream and leave the queues alone, or change one. *)
Lemma same_streams (c c' : client) :
  sh_streams (cl_shared c') = sh_streams (cl_shared c) →
  ∀ tx s, sh_streams (cl_shared c') !! tx = Some s →
    (tx ∈ [] ∧ s_queue s = [])
    ∨ ∃ s', sh_streams (cl_shared c) !! tx = Some s' ∧ queue_step (delivering c tx) (s_queue s') (s_queue s).
Proof. intros -> tx s H. right. exists s. split; [done|]. by left. Qed.

Lemma one_stream (c c' : client) tx0 s0 s0' :
  sh_streams (cl_shared c) !! tx0 = Some s0 →
  sh_streams (cl_shared c') = <[tx0 := s0']> (sh_streams (cl_shared c)) →
  queue_step (delivering c tx0) (s_queue s0) (s_queue s0') →
  ∀ tx s, sh_streams (cl_shared c') !! tx = Some s →
    (tx ∈ [] ∧ s_queue s = [])
    ∨ ∃ s', sh_streams (cl_shared c) !! tx = Some s' ∧ queue_step (delivering c tx) (s_queue s') (s_queue s).
Proof.
  intros H0 -> Hq tx s [[<- <-]|[_ H]]%lookup_insert_Some; right; [by eexists|].
  exists s. split; [done|]. by left.
Qed.

Lemma quiet_step c c' :
  (cl_next_reply c ≤ cl_next_reply c')%nat →
  claimed c' `sublist_of` claimed c →
  (∀ tx, delivering c' tx → delivering c tx ∨ tx ∈ claimed c) →
  (∀ tx s, sh_streams (cl_shared c') !! tx = Some s →
    (tx ∈ [] ∧ s_queue s = [])
    ∨ ∃ s', sh_streams (cl_shared c) !! tx = Some s' ∧ queue_step (delivering c tx) (s_queue s') (s_queue s)) →
  ∃ fresh, stream_step c c' fresh.
Proof.
  intros Hn Hc Hd Hs. exists []. split; try done; [by left| |]; rewrite ?app_nil_r; [cbn; lia|done].
Qed.

Lemma step_refl c : ∃ fresh, stream_step c c fresh.
Proof. apply quiet_step; [done..|by left|by apply same_streams]. Qed.

Lemma step_fail e c :
  ∃ fresh, stream_step c (with_reader (R_Stopped, fail_all_pending e (cl_shared c)) c) fresh.
Proof.
  apply quiet_step; [done| |by intros ? (? & ? & ?)|by apply same_streams].
  unfold claimed. cbn. by apply sublist_inserts_l.
Qed.

(** A step of the read loop that only moves it on. *)
Lemma step_reader c r :
  (∀ tx f b, r = R_Delivering (Route_Stream tx) f b → tx ∈ claimed c) →
  ∃ fresh, stream_step c (with_reader (r, cl_shared c) c) fresh.
Proof.
  intros H. apply quiet_step; [done..| |by apply same_streams]. intros tx (f & b & Hr). right. by eapply H.
Qed.

Lemma step_log_frame c c' :
  (∃ fresh, stream_step c c' fresh) → ∃ fresh, stream_step c (log_frame c') fresh.
Proof.
  intros [fresh [? ? ? Hd ?]]. exists fresh. unfold log_frame. destruct (cl_reader c') eqn:Hr; try by split.
  split; try done. intros tx (f' & b' & Hf). apply Hd. exists f', b'. cbn in Hf. congruence.
Qed.

Lemma step_parse max b c :
  ∃ fresh, stream_step c (log_frame (with_reader (parse_step max b (cl_shared c)) c)) fresh.
Proof.
  apply step_log_frame.
  assert (Hend : ∃ fresh, stream_step c (with_reader (end_of_frames max b (cl_shared c)) c) fresh).
  { unfold end_of_frames. case_match; [apply step_fail|by apply step_reader]. }
  destruct b as [|x b]; [done|]. cbn [parse_step].
  destruct (parse_response (x :: b)) as [rest r|e| |]; try by apply step_reader.
  - apply step_reader. intros tx f b' [= Hroute _ _]. apply elem_of_app. left. by eapply route_for_stream.
  - destruct e; try done; apply step_fail.
Qed.

(** What a delivery does to the streams: at most one frame more, at the end of
    one open stream that had room. *)
Lemma dispatch_streams route frame sh sh' :
  dispatch_frame route frame sh = Some sh' →
  sh_streams sh' = sh_streams sh
  ∨ ∃ tx queue, route = Route_Stream tx ∧ sh_streams sh !! tx = Some (mkStream queue false)
      ∧ (length queue < STREAM_CHANNEL_CAP)%nat
      ∧ sh_streams sh' = <[tx := mkStream (queue ++ [frame]) false]> (sh_streams sh).
Proof.
  destruct route as [tag status text|tx|]; cbn [dispatch_frame complete].
  - case_match; intros [= <-]; by left.
  - destruct (sh_streams sh !! tx) as [[queue []]|] eqn:Hs; [intros [= <-]; by left| |intros [= <-]; by left].
    destruct (_ <? _)%nat eqn:Hlt; to_prop; intros [= <-]. right. by exists tx, queue.
  - intros [= <-]. by left.
Qed.

Lemma dispatch_collectors route frame sh sh' :
  dispatch_frame route frame sh = Some sh' →
  c_tx <$> p_collectors (sh_pending sh') `sublist_of` c_tx <$> p_collectors (sh_pending sh).
Proof.
  destruct route as [tag status text|tx|]; cbn.
  - case_match; intros [= <-]; cbn; apply claimed_filter.
  - repeat case_match; intros [= <-]; done.
  - by intros [= <-].
Qed.

Lemma step_deliver route frame b b' sh c :
  cl_reader c = R_Delivering route frame b →
  dispatch_frame route frame (cl_shared c) = Some sh →
  ∃ fresh, stream_step c (with_reader (R_Parsing b', sh) c) fresh.
Proof.
  intros Hr Hd. apply quiet_step; try done.
  - unfold claimed. cbn. apply sublist_app; [|done]. by eapply dispatch_collectors.
  - by intros ? (? & ? & ?).
  - destruct (dispatch_streams _ _ _ _ Hd) as [Hs|(tx & q & -> & Htx & Hlt & Hs)]; [by apply same_streams|].
    eapply one_stream; [done..|]. right. split; [by eexists _, _|]. split; [done|]. by eexists.
Qed.

Lemma step_writer c c' : writer_step c = Some c' → ∃ fresh, stream_step c c' fresh.
Proof.
  unfold writer_step. destruct (cl_writer c); [|done..].
  destruct (cl_queue c) as [|req q] eqn:Hq; [done|]. intros [= <-].
  apply quiet_step; [done| |by left|apply same_streams; by destruct req].
  unfold claimed. rewrite Hq. cbn. destruct req as [bs tag rid [[w tx]|]|bs]; cbn;
    rewrite ?fmap_app, <- ?app_assoc; done.
Qed.

Lemma end_writer_collectors c :
  p_collectors (sh_pending (cl_shared (end_writer c))) = p_collectors (sh_pending (cl_shared c))
  ∨ p_collectors (sh_pending (cl_shared (end_writer c))) = [].
Proof. unfold end_writer. destruct (cl_reader c); auto. Qed.

Lemma step_end c : ∃ fresh, stream_step c (end_writer c) fresh.
Proof.
  apply quiet_step; [done| |by left|apply same_streams; unfold end_writer; by destruct (cl_reader c)].
  unfold claimed. change (cl_queue (end_writer c)) with (@nil WriteRequest).
  apply sublist_app; [|apply sublist_nil_l]. destruct (end_writer_collectors c) as [->| ->]; [done|].
  apply sublist_nil_l.
Qed.

Lemma step_write r c c' : write_step r c = Some c' → ∃ fresh, stream_step c c' fresh.
Proof.
  pose proof (step_end c). unfold write_step. destruct (cl_writer c); [done| |done]. destruct r as [[|n]|]; intros [= <-]; try done.
  apply quiet_step; [done..|by left|by apply same_streams].
Qed.

Lemma step_enqueue cmd wants c c' r :
  enqueue_command cmd wants c = Some (c', r) → ∃ fresh, stream_step c c' fresh.
Proof.
  unfold enqueue_command.
  destruct (wire.reject_line_breaks cmd) as [[]|e]; [|intros [= <- _]; apply step_refl].
  assert (Hopen : ∀ tx s,
    <[cl_next_reply c := mkStream [] false]> (sh_streams (cl_shared c)) !! tx = Some s →
    (tx ∈ [cl_next_reply c] ∧ s_queue s = []) ∨ ∃ s', sh_streams (cl_shared c) !! tx = Some s'
       ∧ queue_step (delivering c tx) (s_queue s') (s_queue s)).
  { intros tx s [[<- <-]|[_ Hs]]%lookup_insert_Some; [left; split; [by left|done]|].
    right. exists s. split; [done|]. by left. }
  destruct (cl_writer_done c); [|destruct (_ <? _)%nat; [|done]]; intros [= <- _]; destruct wants as [w|].
  - exists [cl_next_reply c]. split; cbn; try done; [by right|lia| |by left]. by apply sublist_inserts_r.
  - apply quiet_step; [cbn; lia|done|by left|by apply same_streams].
  - exists [cl_next_reply c]. split; cbn; try done; [by right|lia| |by left].
    unfold claimed. cbn. by rewrite omap_app, app_assoc.
  - apply quiet_step; [cbn; lia| |by left|by apply same_streams]. unfold claimed. cbn.
    by rewrite omap_app, app_nil_r.
Qed.

Lemma foldl_broadcast_streams q sh :
  sh_streams (foldl (λ sh f, broadcast f sh) sh q) = sh_streams sh.
Proof. revert sh. induction q as [|f q IH]; intros sh; [done|]. exact (IH (broadcast f sh)). Qed.

(** [into_reply] empties one stream and touches no other. *)
Lemma into_reply_streams tx c :
  sh_streams (cl_shared (into_reply tx c))
  = match sh_streams (cl_shared c) !! tx with
    | Some _ => <[tx := mkStream [] true]> (sh_streams (cl_shared c))
    | None => sh_streams (cl_shared c)
    end.
Proof.
  unfold into_reply. destruct (sh_streams _ !! tx) as [[q ?]|]; [|done]. cbn.
  exact (foldl_broadcast_streams q _).
Qed.

Lemma step_into_reply tx c : ∃ fresh, stream_step c (into_reply tx c) fresh.
Proof.
  destruct (into_reply_only tx c) as (Hr & Hq & Hp & _). apply quiet_step.
  - unfold into_reply. by destruct (_ !! tx) as [[]|].
  - unfold claimed. by rewrite Hp, Hq.
  - intros tx'. unfold delivering. rewrite Hr. by left.
  - pose proof (into_reply_streams tx c) as Hs. destruct (sh_streams (cl_shared c) !! tx) as [s|] eqn:Htx.
    + eapply one_stream; [done..|]. left. apply suffix_nil.
    + by apply same_streams.
Qed.

Lemma exec_stream_step max a c c' : exec max a c = Some c' → ∃ fresh, stream_step c c' fresh.
Proof.
  destruct a; cbn [exec].
  - unfold read_step. destruct (cl_reader c) eqn:Hr; try done. intros [= <-].
    assert (∃ fresh, stream_step c (with_reader (on_read r buffer (cl_shared c)) c) fresh) as [fresh H'].
    { destruct r as [[|x chunk]|]; cbn; [apply step_fail|by apply step_reader|apply step_fail]. }
    exists fresh. destruct r; [|done]. destruct H'. by split.
  - unfold reader_step. destruct (cl_reader c) as [|b|route f b| |] eqn:Hr; try done.
    + intros [= <-]. apply step_parse.
    + intros (sh & Hd & [= <-])%bind_Some. by eapply step_deliver.
  - intros ([c1 r] & He & [= <-])%fmap_Some. by eapply step_enqueue.
  - intros ([c1 r] & He & [= <-])%fmap_Some. unfold send_raw in He.
    repeat case_match; simplify_eq; try apply step_refl.
    apply quiet_step; [done| |by left|by apply same_streams].
    unfold claimed. cbn. by rewrite omap_app, app_nil_r.
  - intros [= <-]. unfold cancel_enqueue.
    destruct (wire.reject_line_breaks cmd) as [[]|e]; [|apply step_refl].
    apply quiet_step; [cbn; lia|done|by left|by apply same_streams].
  - apply step_writer.
  - apply step_write.
  - intros ->%hang_up_ends. apply step_end.
  - intros ([c1 r] & He & [= <-])%fmap_Some. unfold next_frame in He.
    destruct (sh_streams _ !! tx) as [[[|f q] cl]|] eqn:Htx;
      [case_match; simplify_eq; apply step_refl| |simplify_eq; apply step_refl].
    simplify_eq. apply quiet_step; [done..|by left|]. eapply one_stream; [done..|]. left. by exists [f].
  - intros [= <-]. apply step_into_reply.
  - intros [= <-]. unfold drop_stream. destruct (sh_streams _ !! tx) as [s0|] eqn:Htx; [|apply step_refl].
    apply quiet_step; [done..|by left|]. eapply one_stream; [done..|]. left. apply suffix_nil.
Qed.

(** The two ways a caller lets go of a stream it was given. *)
Definition lets_go (tx : stream_id) (a : action) : Prop := a = A_DropStream tx ∨ a = A_IntoReply tx.

(** The stream a step of a caller takes from. *)
Definition takes_from (a : action) : option stream_id :=
  match a with A_Next tx | A_IntoReply tx | A_DropStream tx => Some tx | _ => None end.

(** What one step does to the streams themselves: at most one is opened, given a
    frame, relieved of one, or closed. *)
Inductive streams_effect (a : action) (c : client) : gmap stream_id Stream → Prop :=
| se_same : streams_effect a c (sh_streams (cl_shared c))
| se_open : streams_effect a c (<[cl_next_reply c := mkStream [] false]> (sh_streams (cl_shared c)))
| se_put tx q f b :
    cl_reader c = R_Delivering (Route_Stream tx) f b →
    sh_streams (cl_shared c) !! tx = Some (mkStream q false) → (length q < STREAM_CHANNEL_CAP)%nat →
    streams_effect a c (<[tx := mkStream (q ++ [f]) false]> (sh_streams (cl_shared c)))
| se_take tx q f closed :
    takes_from a = Some tx → sh_streams (cl_shared c) !! tx = Some (mkStream (f :: q) closed) →
    streams_effect a c (<[tx := mkStream q closed]> (sh_streams (cl_shared c)))
| se_close tx s :
    lets_go tx a → sh_streams (cl_shared c) !! tx = Some s →
    streams_effect a c (<[tx := mkStream [] true]> (sh_streams (cl_shared c))).

Ltac se_quiet :=
  match goal with |- streams_effect _ ?c _ => first [exact (se_same _ c) | exact (se_open _ c)] end.

Lemma exec_streams max a c c' :
  exec max a c = Some c' → streams_effect a c (sh_streams (cl_shared c')).
Proof.
  destruct a; cbn [exec].
  - unfold read_step. destruct (cl_reader c) as [b| | | |]; try done. intros [= <-].
    destruct r as [[|x chunk]|]; se_quiet.
  - unfold reader_step. destruct (cl_reader c) as [|b|route f b| |] eqn:Hr; try done.
    + intros [= <-]. unfold log_frame, parse_step, end_of_frames. repeat case_match; se_quiet.
    + intros (sh & Hd & [= <-])%bind_Some. cbn.
      destruct (dispatch_streams _ _ _ _ Hd) as [->|(tx & q & -> & Hs & Hlt & ->)]; [se_quiet|].
      by eapply se_put.
  - intros ([c1 r] & H & [= <-])%fmap_Some. unfold enqueue_command in H.
    destruct (wire.reject_line_breaks cmd) as [[]|e]; [|simplify_eq; se_quiet].
    destruct (next_tag (cl_tag_counter c)) as [tag n].
    destruct (cl_writer_done c); [|destruct (_ <? _)%nat; [|done]]; injection H as <- _;
      destruct wants; se_quiet.
  - intros ([c1 r] & H & [= <-])%fmap_Some. unfold send_raw in H.
    repeat case_match; simplify_eq; se_quiet.
  - intros [= <-]. unfold cancel_enqueue. repeat case_match; se_quiet.
  - unfold writer_step. repeat case_match; intros; simplify_eq; se_quiet.
  - unfold write_step, end_writer. repeat case_match; intros; simplify_eq; se_quiet.
  - intros ->%hang_up_ends. unfold end_writer. case_match; se_quiet.
  - intros ([c1 r] & H & [= <-])%fmap_Some. unfold next_frame in H.
    destruct (sh_streams _ !! tx) as [[[|f q] cl]|] eqn:Hs;
      [case_match; simplify_eq; se_quiet| |simplify_eq; se_quiet].
    simplify_eq. by eapply se_take.
  - intros [= <-]. rewrite into_reply_streams. case_match; [|se_quiet]. eapply se_close; [by right|done].
  - intros [= <-]. unfold drop_stream. case_match; [|se_quiet]. eapply se_close; [by left|done].
Qed.

(** The receiver of [tx] is held. *)
Definition open (tx : stream_id) (c : client) : Prop :=
  ∃ q, sh_streams (cl_shared c) !! tx = Some (mkStream q false).

Lemma open_exec max tx a c c' : open tx c → exec max a c = Some c' → ¬ lets_go tx a → open tx c'.
Proof.
  intros [q Ho] Hx Ha. unfold open.
  assert (Hins : ∀ tx' s, (tx' = tx → s_closed s = false) →
    ∃ q, <[tx' := s]> (sh_streams (cl_shared c)) !! tx = Some (mkStream q false)).
  { intros tx' s Hs. destruct (decide (tx' = tx)) as [->|Hne].
    - exists (s_queue s). rewrite lookup_insert_eq. specialize (Hs eq_refl). by destruct s; cbn in *; subst.
    - exists q. by rewrite lookup_insert_ne. }
  destruct (exec_streams _ _ _ _ Hx) as [| | |tx' q' f cl Ht Hs|tx' s Hl]; [by exists q| |by apply Hins|..];
    apply Hins; [done|intros ->; by simplify_eq|intros ->; by destruct Ha].
Qed.

Lemma streams_step c c' fresh : streams_ok c → stream_step c c' fresh → streams_ok c'.
Proof.
  intros [Hnd Hcl Hdl Hcap] [Hf Hn Hc Hd Hs].
  assert (Hbound : ∀ tx, tx ∈ claimed c ++ fresh → (tx < cl_next_reply c')%nat).
  { intros tx [H%Hcl|H]%elem_of_app; [lia|]. destruct Hf as [->| ->]; [by apply not_elem_of_nil in H|].
    apply list_elem_of_singleton in H as ->. cbn in Hn. lia. }
  split.
  - eapply sublist_NoDup; [|exact Hc]. apply NoDup_app. split_and!; [done| |].
    + intros x Hx%Hcl. destruct Hf as [->| ->]; [apply not_elem_of_nil|].
      intros ->%list_elem_of_singleton. lia.
    + destruct Hf as [->| ->]; [constructor|apply NoDup_singleton].
  - intros tx Htx. apply Hbound. by eapply elem_of_submseteq, sublist_submseteq.
  - intros tx [H|H]%Hd; [apply Hdl in H; lia|]. apply Hbound, elem_of_app. by left.
  - intros tx s [[Hin ->]|(s' & Hs' & Hq)]%Hs.
    + split; [apply Hbound, elem_of_app; by right|cbn; lia].
    + destruct (Hcap _ _ Hs') as [Hlt Hlen]. split; [lia|]. destruct Hq as [[k Hk]|(_ & Hlt' & f & ->)].
      * rewrite Hk, length_app in Hlen. lia.
      * rewrite length_app. cbn. lia.
Qed.

Lemma streams_reachable max c : reachable max c → streams_ok c.
Proof.
  induction 1 as [|c a c' _ IH Ha].
  - split; cbn; try done; [constructor|by intros ? ?%not_elem_of_nil|by intros ? (? & ? & ?)].
  - destruct (exec_stream_step _ _ _ _ Ha) as [fresh Hs]. by eapply streams_step.
Qed.

(** A stream that has lost its senders stays without, and its queue only
    shrinks. *)
Lemma orphan_step c c' fresh tx :
  stream_step c c' fresh → (tx < cl_next_reply c)%nat → has_sender tx c = false →
  has_sender tx c' = false
  ∧ ∀ s', sh_streams (cl_shared c') !! tx = Some s' →
      ∃ s, sh_streams (cl_shared c) !! tx = Some s ∧ s_queue s' `suffix_of` s_queue s.
Proof.
  intros [Hf Hn Hc Hd Hs] Hlt Hno. rewrite <- not_true_iff_false, has_sender_true in Hno.
  assert (Hnf : tx ∉ fresh).
  { destruct Hf as [->| ->]; [apply not_elem_of_nil|]. intros ->%list_elem_of_singleton. lia. }
  split.
  - apply not_true_iff_false. rewrite has_sender_true. intros [H|H].
    + assert (tx ∈ claimed c ++ fresh) as [?|?]%elem_of_app
        by (by eapply elem_of_submseteq, sublist_submseteq); [apply Hno; by left|done].
    + apply Hno. destruct (Hd tx H); [by right|by left].
  - intros s' Hs'. destruct (Hs _ _ Hs') as [[? _]|(s & Hs0 & Hq)]; [done|]. exists s. split; [done|].
    destruct Hq as [?|[? _]]; [done|]. exfalso. apply Hno. by right.
Qed.

Lemma orphan_run max acts c c' tx :
  run max acts c = Some c' → (tx < cl_next_reply c)%nat → has_sender tx c = false →
  has_sender tx c' = false
  ∧ ∀ s', sh_streams (cl_shared c') !! tx = Some s' →
      ∃ s, sh_streams (cl_shared c) !! tx = Some s ∧ s_queue s' `suffix_of` s_queue s.
Proof.
  revert c. induction acts as [|a acts IH]; intros c; cbn.
  - intros [= <-] _ Hno. split; [done|]. intros s' Hs'. by exists s'.
  - intros (c1 & Ha & Hr)%bind_Some Hlt Hno. destruct (exec_stream_step _ _ _ _ Ha) as [fresh Hstep].
    destruct (orphan_step _ _ _ _ Hstep Hlt Hno) as [Hno1 Hq1].
    assert (tx < cl_next_reply c1)%nat by (pose proof (ss_next _ _ _ Hstep); lia).
    destruct (IH c1) as [Hno' Hq']; [done..|]. split; [done|]. intros s' Hs'.
    destruct (Hq' s' Hs') as (s1 & Hs1 & Hsuf). destruct (Hq1 s1 Hs1) as (s & Hs & Hsuf1).
    exists s. split; [done|]. by etrans.
Qed.

(** Delivering a tagged response takes the sender of its command's stream. *)
Lemma deliver_orphan c tag status text frame b col c1 :
  streams_ok c → cl_reader c = R_Delivering (Route_Tagged tag status text) frame b →
  col ∈ p_collectors (sh_pending (cl_shared c)) → c_tag col = tag →
  reader_step 0 c = Some c1 →
  has_sender (c_tx col) c1 = false ∧ cl_next_reply c1 = cl_next_reply c
  ∧ sh_streams (cl_shared c1) = sh_streams (cl_shared c).
Proof.
  intros [Hnd _ _ _] Hr Hin Htag. unfold reader_step. rewrite Hr. intros (sh & Hd & [= <-])%bind_Some.
  assert (Hp : p_collectors (sh_pending sh) = filter (λ c, c_tag c ≠ tag) (p_collectors (sh_pending (cl_shared c)))
    ∧ sh_streams sh = sh_streams (cl_shared c)).
  { cbn in Hd. case_match; by simplify_eq. }
  destruct Hp as [Hp Hs]. split_and!; [|done..]. apply not_true_iff_false. rewrite has_sender_true.
  unfold claimed in *. cbn. rewrite Hp. intros [[H|H]%elem_of_app|(? & ? & ?)]; [..|done].
  - apply list_elem_of_fmap in H as (col' & Heq & [Hne Hin']%list_elem_of_filter).
    apply NoDup_app in Hnd as (Hnd & _ & _). apply list_elem_of_lookup in Hin as [i Hi], Hin' as [j Hj].
    assert (i = j) as ->; [|congruence].
    eapply (NoDup_lookup _ _ _ (c_tx col) Hnd); rewrite list_lookup_fmap.
    + by rewrite Hi.
    + by rewrite Hj, Heq.
  - apply NoDup_app in Hnd as (_ & Hdis & _). apply (Hdis (c_tx col)); [|done]. by apply list_elem_of_fmap_2.
Qed.

(* ------------------------------------------------------------------ *)
(** ** What a stream carries                                            *)
(* ------------------------------------------------------------------ *)

(** [f] is one frame, and [w] accepts its response. *)
Definition accepts (w : FrameFilter) (f : bytes) : Prop :=
  ∃ r, parse_response f = Parsed [] r ∧ w r = true.

(** The stream [tx] was opened with the filter [w]: no other selects frames for
    it, and what it holds was selected by it. *)
Record carries (tx : stream_id) (w : FrameFilter) (c : client) : Prop := {
  ca_open : (tx < cl_next_reply c)%nat;
  ca_collectors : ∀ col, col ∈ p_collectors (sh_pending (cl_shared c)) → c_tx col = tx → c_wants col = w;
  ca_queue : ∀ bs tag rid w', WR_Command bs tag rid (Some (w', tx)) ∈ cl_queue c → w' = w;
  ca_delivering : ∀ f b, cl_reader c = R_Delivering (Route_Stream tx) f b → accepts w f;
  ca_frames : ∀ s f, sh_streams (cl_shared c) !! tx = Some s → f ∈ s_queue s → accepts w f;
}.

Lemma carries_same tx w c c' :
  carries tx w c → (cl_next_reply c ≤ cl_next_reply c')%nat →
  (∀ col, col ∈ p_collectors (sh_pending (cl_shared c')) → col ∈ p_collectors (sh_pending (cl_shared c))) →
  (∀ req, req ∈ cl_queue c' → req ∈ cl_queue c) →
  (∀ f b, cl_reader c' = R_Delivering (Route_Stream tx) f b → cl_reader c = R_Delivering (Route_Stream tx) f b) →
  (∀ s f, sh_streams (cl_shared c') !! tx = Some s → f ∈ s_queue s →
     ∃ s', sh_streams (cl_shared c) !! tx = Some s' ∧ f ∈ s_queue s') →
  carries tx w c'.
Proof.
  intros [Ho Hc Hq Hd Hf] Hn Hc' Hq' Hd' Hf'. split; eauto.
  - lia.
  - intros s f Hs Hin. destruct (Hf' _ _ Hs Hin) as (s' & ? & ?). eauto.
Qed.

Lemma find_collector_wants sh cs response tx :
  find_collector sh cs response = Some tx → ∃ col, col ∈ cs ∧ c_tx col = tx ∧ c_wants col response = true.
Proof.
  induction cs as [|col cs IH]; [done|]. cbn. case_match eqn:Hn.
  - intros [= <-]. destr_bools. exists col. split_and!; [by left|done..].
  - intros (cl & ? & ?)%IH. exists cl. split; [by right|done].
Qed.

Lemma carries_parse max tx w b c :
  carries tx w c → cl_reader c = R_Parsing b →
  carries tx w (log_frame (with_reader (parse_step max b (cl_shared c)) c)).
Proof.
  intros Hc Hr. pose proof (parse_step_shape max b (cl_shared c)) as Hs.
  destruct (parse_step max b (cl_shared c)) as [[| |route f b'| |] sh] eqn:Hp; cbn in *; destr_hyps; subst; try done.
  - apply (carries_same tx w c); cbn; try done; eauto.
  - destruct Hc as [Ho Hcol Hq Hd Hf]. split; cbn; try done. intros f' b2 [= -> <- <-].
    unfold parse_step, end_of_frames in Hp. destruct (f ++ b') as [|x bb] eqn:Hb; [by case_match|].
    destruct (parse_response (x :: bb)) as [rest r|e| |] eqn:Hpr; try done.
    + injection Hp as Hroute Hf' _. exists r. rewrite <- Hf'.
      destruct (parsed_frame _ _ _ Hpr) as [_ Hpf]. split; [exact Hpf|].
      assert (collector_for (cl_shared c) r = Some tx) as (col & Hin & Htx & Hw)%find_collector_wants.
      { unfold route_for in Hroute. destruct r as [[[t|] s code y]| |]; try done;
          destruct (collector_for _ _); congruence. }
      by rewrite <- (Hcol col).
    + destruct e; simplify_eq; by case_match.
  - apply (carries_same tx w c); cbn; eauto; [by intros ? ?%not_elem_of_nil|done].
Qed.

Lemma carries_dispatch tx w route f b b' sh c :
  carries tx w c → cl_reader c = R_Delivering route f b → dispatch_frame route f (cl_shared c) = Some sh →
  carries tx w (with_reader (R_Parsing b', sh) c).
Proof.
  intros [Ho Hcol Hq Hd Hf] Hr Hx. split; cbn; try done.
  - intros col Hin. apply Hcol. destruct route as [tag status text|tx'|]; cbn in Hx.
    + case_match; simplify_eq; cbn in Hin; by apply list_elem_of_filter in Hin as [_ ?].
    + repeat case_match; by simplify_eq.
    + by simplify_eq.
  - destruct (dispatch_streams _ _ _ _ Hx) as [->|(tx' & q & -> & Hs & _ & ->)]; [done|].
    intros s f0 [[<- <-]|[_ Hs']]%lookup_insert_Some Hin; [|by eapply Hf].
    cbn in Hin. apply elem_of_app in Hin as [?|Hin%list_elem_of_singleton]; [by eapply Hf|].
    subst. by eapply Hd.
Qed.

Lemma carries_enqueue tx w cmd wants c c' r :
  carries tx w c → enqueue_command cmd wants c = Some (c', r) → carries tx w c'.
Proof.
  intros [Ho Hcol Hq Hd Hf]. unfold enqueue_command.
  destruct (wire.reject_line_breaks cmd) as [[]|e]; [|intros [= <- _]; by split].
  assert (Hf' : ∀ s f, <[cl_next_reply c := mkStream [] false]> (sh_streams (cl_shared c)) !! tx = Some s →
    f ∈ s_queue s → accepts w f).
  { intros s f [[Heq _]|[_ Hs]]%lookup_insert_Some; [lia|by eapply Hf]. }
  cbn [next_tag]. generalize (b! "A" ++ fmt_dec_pad 4 (cl_tag_counter c)) as tg. intros tg.
  generalize (command_line tg cmd) as line. intros line.
  destruct (cl_writer_done c); [|destruct (_ <? _)%nat; [|done]]; intros [= <- _];
    destruct wants as [w'|]; split; cbn; try done; try lia.
  - intros * [?|Hin%list_elem_of_singleton]%elem_of_app; [by eapply Hq|]. injection Hin. lia.
  - intros * [?|Hin%list_elem_of_singleton]%elem_of_app; [by eapply Hq|]. discriminate Hin.
Qed.

(** A stream starts with its own filter. *)
Lemma carries_new w cmd c c' tag rid tx :
  streams_ok c → enqueue_command cmd (Some w) c = Some (c', inl (tag, rid, Some tx)) → carries tx w c'.
Proof.
  intros [Hnd Hcl Hdl Hcap]. unfold enqueue_command.
  destruct (wire.reject_line_breaks cmd) as [[]|e]; [|done].
  cbn [next_tag]. generalize (b! "A" ++ fmt_dec_pad 4 (cl_tag_counter c)) as tg. intros tg.
  generalize (command_line tg cmd) as line. intros line.
  destruct (cl_writer_done c); [done|]. destruct (_ <? _)%nat; [|done]. intros [= <- _ _ <-].
  assert (Hfresh : cl_next_reply c ∉ claimed c) by (intros ?%Hcl; lia).
  split; cbn.
  - lia.
  - intros col Hin Htx. exfalso. apply Hfresh, elem_of_app. left. rewrite <- Htx.
    by apply list_elem_of_fmap_2.
  - intros bs t2 rd w' [Hin|Hin%list_elem_of_singleton]%elem_of_app; [|by injection Hin].
    exfalso. apply Hfresh, elem_of_app. right. apply list_elem_of_omap. by eexists.
  - intros f b Hr. assert (cl_next_reply c < cl_next_reply c)%nat; [|lia]. apply Hdl. by exists f, b.
  - intros s f. rewrite lookup_insert_eq. intros [= <-] ?%not_elem_of_nil. done.
Qed.

Lemma carries_end tx w c : carries tx w c → carries tx w (end_writer c).
Proof.
  intros Hc. apply (carries_same tx w c); try done; [|by intros ? ?%not_elem_of_nil|].
  - intros col. destruct (end_writer_collectors c) as [->| ->]; [done|by intros ?%not_elem_of_nil].
  - unfold end_writer. destruct (cl_reader c); eauto.
Qed.

Lemma carries_exec max tx w a c c' : carries tx w c → exec max a c = Some c' → carries tx w c'.
Proof.
  intros Hc. destruct a; cbn [exec].
  - unfold read_step. destruct (cl_reader c) eqn:Hr; try done. intros [= <-].
    destruct r as [[|x chunk]|]; cbn; apply (carries_same tx w c); cbn; try done; eauto;
      by intros ? ?%not_elem_of_nil.
  - unfold reader_step. destruct (cl_reader c) as [|b|route f b| |] eqn:Hr; try done.
    + intros [= <-]. by apply carries_parse.
    + intros (sh & Hd & [= <-])%bind_Some. by eapply carries_dispatch.
  - intros ([c1 r] & He & [= <-])%fmap_Some. by eapply carries_enqueue.
  - intros ([c1 r] & He & [= <-])%fmap_Some. unfold send_raw in He. repeat case_match; simplify_eq; try done.
    destruct Hc as [Ho Hcol Hq Hd Hf]. split; cbn; try done.
    intros * [?|Hin%list_elem_of_singleton]%elem_of_app; [by eapply Hq|done].
  - intros [= <-]. unfold cancel_enqueue.
    destruct (wire.reject_line_breaks cmd) as [[]|e]; [|done].
    destruct Hc as [Ho ????]. split; try done. cbn [cl_next_reply]. by apply Nat.lt_lt_succ_r.
  - intros Hw. unfold writer_step in Hw. destruct (cl_writer c); [|done..].
    destruct (cl_queue c) as [|req q] eqn:Hqc; [done|]. simplify_eq. destruct Hc as [Ho Hcol Hq Hd Hf].
    rewrite Hqc in Hq. split; cbn; try done.
    + intros col. destruct req as [bs tag rid [[w' tx']|]|bs]; cbn; try done; try apply Hcol.
      intros [?|Hin%list_elem_of_singleton]%elem_of_app; [by apply Hcol|]. subst. cbn. intros ->.
      eapply Hq. by left.
    + intros * Hin. eapply Hq. by right.
    + by destruct req.
  - intros Hw. unfold write_step in Hw. destruct (cl_writer c); [done| |done].
    pose proof (carries_end tx w c Hc). destruct r as [[|n]|]; simplify_eq; try done. by destruct Hc.
  - intros ->%hang_up_ends. by apply carries_end.
  - intros ([c1 r] & He & [= <-])%fmap_Some. unfold next_frame in He.
    destruct (sh_streams _ !! tx0) as [[[|f q] cl]|] eqn:Hs; [by case_match; simplify_eq| |by simplify_eq].
    simplify_eq. apply (carries_same tx w c); cbn; eauto.
    intros s1 f0 [[<- <-]|[_ Hs']]%lookup_insert_Some Hin; [|by eauto].
    eexists. split; [done|]. by right.
  - intros [= <-]. destruct (into_reply_only tx0 c) as (Hr & Hq & Hp & _).
    apply (carries_same tx w c); rewrite ?Hr, ?Hq, ?Hp; eauto.
    { unfold into_reply. by destruct (_ !! tx0) as [[]|]. }
    rewrite into_reply_streams. destruct (sh_streams (cl_shared c) !! tx0); eauto.
    intros s1 f0 [[<- <-]|[_ Hs']]%lookup_insert_Some Hin; [by apply not_elem_of_nil in Hin|by eauto].
  - intros [= <-]. unfold drop_stream. destruct (sh_streams _ !! tx0) eqn:Hs; [|done].
    apply (carries_same tx w c); cbn; eauto.
    intros s1 f0 [[<- <-]|[_ Hs']]%lookup_insert_Some Hin; [by apply not_elem_of_nil in Hin|by eauto].
Qed.

(* ------------------------------------------------------------------ *)
(** ** Properties                                                       *)
(* ------------------------------------------------------------------ *)

(** C15: a command's frames are all on its stream before its tagged response
    is delivered. Once it is, nothing is ever added to the stream, whatever
    runs: what its reader finds later is the end of what was there, and it no
    longer waits. *)
Theorem stream_before_reply max c tag status text frame b col c1 acts c2 :
  reachable max c → cl_reader c = R_Delivering (Route_Tagged tag status text) frame b →
  col ∈ p_collectors (sh_pending (cl_shared c)) → c_tag col = tag →
  exec max A_Reader c = Some c1 → run max acts c1 = Some c2 →
  is_Some (next_frame (c_tx col) c2)
  ∧ ∀ s2, sh_streams (cl_shared c2) !! c_tx col = Some s2 →
      ∃ s, sh_streams (cl_shared c) !! c_tx col = Some s ∧ s_queue s2 `suffix_of` s_queue s.
Proof.
  intros Hc Hr Hin Htag Hex Hrun. pose proof (streams_reachable _ _ Hc) as Hok.
  destruct (deliver_orphan c tag status text frame b col c1) as (Hno & Hn & Hs);
    [done..|unfold exec, reader_step in *; by rewrite Hr in *|].
  assert (Hlt : (c_tx col < cl_next_reply c1)%nat).
  { rewrite Hn. apply (so_claimed _ Hok). apply elem_of_app. left. by apply list_elem_of_fmap_2. }
  destruct (orphan_run _ _ _ _ _ Hrun Hlt Hno) as [Hno2 Hq]. rewrite <- Hs. split; [|done].
  unfold next_frame. destruct (_ !! c_tx col) as [[[|f q] cl]|]; [|by eexists..].
  rewrite Hno2, orb_true_r. by eexists.
Qed.

Lemma stream_before_reply_witness : is_Some (next_frame 0 (after (fetch_acts ++ [A_Reader]))).
Proof.
  apply (stream_before_reply MAX_FRAME_SIZE (after fetch_acts) (b! "A0001") Status_Ok (b! "done")
    (b! "A0001 OK done" ++ [CR; LF]) [] (mkCollector (b! "A0001") wants_data 0)
    (after (fetch_acts ++ [A_Reader])) []).
  - apply after_reachable.
  - vm_compute. reflexivity.
  - apply list_elem_of_singleton. reflexivity.
  - reflexivity.
  - vm_compute. reflexivity.
  - reflexivity.
Defined.

(** C16: the read loop never gets stuck. It can always take its next step,
    except while it delivers to an open stream that is full; then the reader
    of that stream can take a frame, and the read loop goes on. *)
Theorem reader_progress max c :
  0 <= max → reachable max c →
  match cl_reader c with
  | R_Reading _ => ∀ r, is_Some (exec max (A_Read r) c)
  | R_Parsing _ => is_Some (exec max A_Reader c)
  | R_Delivering route f b =>
    is_Some (exec max A_Reader c)
    ∨ ∃ tx q c', route = Route_Stream tx
        ∧ sh_streams (cl_shared c) !! tx = Some (mkStream q false) ∧ length q = STREAM_CHANNEL_CAP
        ∧ exec max (A_Next tx) c = Some c' ∧ is_Some (exec max A_Reader c')
  | R_Stopped => True
  | R_Panicked => False
  end.
Proof.
  intros Hmax Hc. pose proof (fr_no_panic _ _ (framing_reachable _ _ Hmax Hc)) as Hnp.
  pose proof (streams_reachable _ _ Hc) as Hok.
  destruct (cl_reader c) as [b|b|route f b| |] eqn:Hr; try done; cbn [exec];
    unfold read_step, reader_step; rewrite ?Hr; try by eexists.
  destruct (dispatch_frame route f (cl_shared c)) as [sh|] eqn:Hd; [left; by eexists|right].
  destruct route as [tag status text|tx|]; cbn [dispatch_frame complete] in Hd; [case_match; done| |done].
  destruct (sh_streams (cl_shared c) !! tx) as [[q []]|] eqn:Hs; try done.
  destruct (_ <? _)%nat eqn:Hlt; [done|]. to_prop. destruct (so_cap _ Hok _ _ Hs) as [_ Hcap]. cbn in Hcap.
  destruct q as [|f0 q]; [cbn in Hlt; unfold STREAM_CHANNEL_CAP in Hlt; lia|].
  assert (Hfull : length (f0 :: q) = STREAM_CHANNEL_CAP) by lia.
  eexists tx, (f0 :: q), _. split_and!; [done..| |].
  { unfold next_frame. by rewrite Hs. }
  cbn. rewrite Hr. cbn [dispatch_frame set_stream sh_streams]. rewrite lookup_insert_eq.
  assert ((length q <? STREAM_CHANNEL_CAP)%nat = true) as -> by (apply Nat.ltb_lt; cbn in Hfull; lia).
  by eexists.
Qed.

Lemma reader_progress_witness : is_Some (exec MAX_FRAME_SIZE (A_Read Read_Err) (after [])).
Proof. apply (reader_progress MAX_FRAME_SIZE (after []) ltac:(done) (after_reachable [])). Defined.

(** An untagged frame goes to the oldest command still listening that
    wants it, and to the broadcast only when there is none. *)
Theorem route_for_oldest response sh :
  (∀ tag status code text, response ≠ Resp_Status (mkStatusResponse (Some tag) status code text)) →
  match route_for response sh with
  | Route_Tagged _ _ _ => False
  | Route_Stream tx => ∃ older col younger,
      p_collectors (sh_pending sh) = older ++ col :: younger ∧ c_tx col = tx
      ∧ is_closed sh tx = false ∧ c_wants col response = true
      ∧ Forall (λ o, is_closed sh (c_tx o) = true ∨ c_wants o response = false) older
  | Route_Broadcast =>
      Forall (λ o, is_closed sh (c_tx o) = true ∨ c_wants o response = false) (p_collectors (sh_pending sh))
  end.
Proof.
  intros Hnt.
  assert (Hfind : match find_collector sh (p_collectors (sh_pending sh)) response with
    | Some tx => ∃ older col younger,
        p_collectors (sh_pending sh) = older ++ col :: younger ∧ c_tx col = tx
        ∧ is_closed sh tx = false ∧ c_wants col response = true
        ∧ Forall (λ o, is_closed sh (c_tx o) = true ∨ c_wants o response = false) older
    | None => Forall (λ o, is_closed sh (c_tx o) = true ∨ c_wants o response = false)
                (p_collectors (sh_pending sh))
    end).
  { induction (p_collectors (sh_pending sh)) as [|col cs IH]; cbn; [constructor|].
    destruct (negb _ && _) eqn:Hn; [destr_bools; exists [], col, cs; split_and!; try done; constructor|].
    assert (is_closed sh (c_tx col) = true ∨ c_wants col response = false) as Hskip
      by (destruct (is_closed sh (c_tx col)); [by left|by right]).
    destruct (find_collector sh cs response) as [tx|]; [|by constructor].
    destruct IH as (o & cl & y & -> & ? & ? & ? & ?). exists (col :: o), cl, y. split_and!; try done.
    by constructor. }
  unfold route_for, collector_for.
  destruct response as [[[t|] s code x]| |]; [by destruct (Hnt t s code x)|..];
    by destruct (find_collector _ _ _).
Qed.

Lemma route_for_oldest_witness :
  Forall (λ o, is_closed (cl_shared client_new) (c_tx o) = true ∨ c_wants o (Resp_Data (DR_Exists 3)) = false)
    (p_collectors (sh_pending (cl_shared client_new))).
Proof. apply (route_for_oldest (Resp_Data (DR_Exists 3)) (cl_shared client_new)). discriminate. Defined.
