(* ===== verification/ClientOrder.v ===== *)
(** What a stream of [Client] delivers: every frame the read loop routed to it,
    once, in wire order. *)

From S2P Require Import Prelude Str Ast Monad ResponseParser ParserSafety ParserStream.
From S2P Require Import ParserLocal ParserTheorems Framing ClientError Flags Wire Client ClientFraming.
From S2P Require Import ClientReplies ClientStreams.
From stdpp Require Import options.

(* ------------------------------------------------------------------ *)
(** ** On their way                                                     *)
(* ------------------------------------------------------------------ *)

Definition stream_queue (tx : stream_id) (c : client) : list bytes :=
  match sh_streams (cl_shared c) !! tx with Some s => s_queue s | None => [] end.

(** The frame the read loop is delivering to [tx]. *)
Definition in_hand (tx : stream_id) (c : client) : list bytes :=
  match cl_reader c with
  | R_Delivering (Route_Stream tx') f _ => if (tx' =? tx)%nat then [f] else []
  | _ => []
  end.

(** The frames routed to [tx] that its reader has not taken. *)
Definition held (tx : stream_id) (c : client) : list bytes := stream_queue tx c ++ in_hand tx c.

(** What a step takes from [tx], *)
Definition taken (tx : stream_id) (a : action) (c : client) : list bytes :=
  match a with
  | A_Next tx' =>
    if (tx' =? tx)%nat then match next_frame tx c with Some (_, Some f) => [f] | _ => [] end else []
  | _ => []
  end.

(** and what it routes there. *)
Definition routed (tx : stream_id) (a : action) (c : client) : list bytes :=
  match a, cl_reader c with
  | A_Reader, R_Parsing b =>
    match parse_response b with
    | Parsed rest response =>
      match route_for response (cl_shared c) with
      | Route_Stream tx' => if (tx' =? tx)%nat then [take (length b - length rest) b] else []
      | _ => []
      end
    | _ => []
    end
  | _, _ => []
  end.

(** What is on its way after a step: what was and what the step routed, less
    what it took; less than that when the receiver is gone. *)
Definition moves (tx : stream_id) (a : action) (c c' : client) : Prop :=
  ∃ kept, held tx c ++ routed tx a c = taken tx a c ++ kept
    ∧ held tx c' `sublist_of` kept
    ∧ (open tx c → ¬ lets_go tx a → held tx c' = kept).

(** A step that routes and takes nothing. *)
Lemma moves_still tx a c c' :
  routed tx a c = [] → taken tx a c = [] → in_hand tx c' = in_hand tx c →
  stream_queue tx c' `sublist_of` stream_queue tx c →
  (open tx c → ¬ lets_go tx a → stream_queue tx c' = stream_queue tx c) → moves tx a c c'.
Proof.
  intros Hr Ht Hi Hs Ho. exists (held tx c). rewrite Hr, Ht, app_nil_r. split; [done|].
  unfold held. rewrite Hi. split; [by apply sublist_app|]. intros ? ?. by rewrite Ho.
Qed.

Lemma moves_same tx a c c' :
  routed tx a c = [] → taken tx a c = [] → in_hand tx c' = in_hand tx c →
  stream_queue tx c' = stream_queue tx c → moves tx a c c'.
Proof. intros ? ? ? Hs. apply moves_still; try done. by rewrite Hs. Qed.

Lemma in_hand_reader tx c c' : cl_reader c' = cl_reader c → in_hand tx c' = in_hand tx c.
Proof. unfold in_hand. by intros ->. Qed.

Lemma parse_nothing rest r : parse_response [] ≠ Parsed rest r.
Proof. intros H. apply (framed_cut (parse := parse_response)) in H as (f & [-> ->]%symmetry%app_eq_nil & Hf & _). done. Qed.

Lemma log_frame_shared c : cl_shared (log_frame c) = cl_shared c.
Proof. unfold log_frame. by destruct (cl_reader c). Qed.

Lemma log_frame_hand tx c : in_hand tx (log_frame c) = in_hand tx c.
Proof. unfold log_frame, in_hand. by destruct (cl_reader c) eqn:Hr; rewrite ?Hr. Qed.

Lemma parse_step_streams max b sh : sh_streams (snd (parse_step max b sh)) = sh_streams sh.
Proof. unfold parse_step, end_of_frames. by repeat (case_match; try done). Qed.

Lemma moves_parse max tx b c :
  cl_reader c = R_Parsing b →
  moves tx A_Reader c (log_frame (with_reader (parse_step max b (cl_shared c)) c)).
Proof.
  intros Hr. assert (Hi : in_hand tx c = []) by (unfold in_hand; by rewrite Hr).
  set (c' := log_frame (with_reader (parse_step max b (cl_shared c)) c)).
  assert (Hq : stream_queue tx c' = stream_queue tx c).
  { unfold stream_queue, c'. rewrite log_frame_shared. cbn. by rewrite parse_step_streams. }
  assert (Hh : in_hand tx c' = routed tx A_Reader c).
  { unfold c'. rewrite log_frame_hand. unfold routed, in_hand. rewrite Hr. cbn [with_reader cl_reader fst].
    destruct b as [|x b]; cbn [parse_step].
    - unfold end_of_frames. destruct (parse_response []) eqn:Hp; [by apply parse_nothing in Hp|by destruct (max <? _)..].
    - destruct (parse_response (x :: b)) as [rest r|e| |]; try done.
      destruct e; try done. unfold end_of_frames. by destruct (max <? _). }
  exists (held tx c'). unfold held. rewrite Hq, Hh, Hi, app_nil_r. done.
Qed.

Lemma moves_deliver tx route f b b' sh c :
  cl_reader c = R_Delivering route f b → dispatch_frame route f (cl_shared c) = Some sh →
  moves tx A_Reader c (with_reader (R_Parsing b', sh) c).
Proof.
  intros Hr Hd. exists (held tx c). unfold routed, taken. rewrite Hr, app_nil_r. split; [done|].
  unfold held, stream_queue, in_hand. cbn [with_reader cl_reader cl_shared fst snd]. rewrite Hr, app_nil_r.
  destruct route as [tag status text|tx'|]; cbn [dispatch_frame complete] in Hd.
  - rewrite app_nil_r. by case_match; simplify_eq.
  - destruct (Nat.eqb_spec tx' tx) as [->|Hne].
    + destruct (sh_streams (cl_shared c) !! tx) as [[q []]|] eqn:Hs.
      * simplify_eq. cbn. rewrite Hs. split; [by apply sublist_inserts_r|]. intros [q' Ho]. congruence.
      * case_match; simplify_eq. cbn. by rewrite lookup_insert_eq.
      * simplify_eq. cbn. rewrite Hs. split; [apply sublist_nil_l|]. intros [q' Ho]. congruence.
    + rewrite app_nil_r. destruct (sh_streams (cl_shared c) !! tx') as [[q []]|]; [by simplify_eq| |by simplify_eq].
      case_match; simplify_eq. cbn. by rewrite lookup_insert_ne.
  - rewrite app_nil_r. by simplify_eq.
Qed.

Lemma stream_queue_other tx tx' s c :
  tx' ≠ tx → match <[tx' := s]> (sh_streams (cl_shared c)) !! tx with Some s => s_queue s | None => [] end
    = stream_queue tx c.
Proof. intros Hne. by rewrite lookup_insert_ne. Qed.

Lemma moves_next tx tx' c c' r : next_frame tx' c = Some (c', r) → moves tx (A_Next tx') c c'.
Proof.
  intros Hn. destruct (Nat.eqb_spec tx' tx) as [->|Hne].
  - exists (held tx c'). cbn [routed taken]. rewrite Nat.eqb_refl, Hn, app_nil_r. split; [|done].
    unfold next_frame in Hn. unfold held, stream_queue.
    destruct (sh_streams (cl_shared c) !! tx) as [[[|f q] cl]|] eqn:Hs.
    + case_match; simplify_eq. by rewrite Hs.
    + simplify_eq. cbn. by rewrite lookup_insert_eq.
    + simplify_eq. by rewrite Hs.
  - apply Nat.eqb_neq in Hne as Hne'. apply moves_same; cbn; rewrite ?Hne'; try done.
    + unfold next_frame in Hn. by repeat case_match; simplify_eq.
    + unfold next_frame in Hn. repeat case_match; simplify_eq; try done. by apply stream_queue_other.
Qed.

(** Letting go of [tx'] empties it, and touches no other stream. *)
Lemma moves_let_go tx tx' a c c' :
  lets_go tx' a → routed tx a c = [] → taken tx a c = [] → cl_reader c' = cl_reader c →
  sh_streams (cl_shared c') = match sh_streams (cl_shared c) !! tx' with
    | Some _ => <[tx' := mkStream [] true]> (sh_streams (cl_shared c))
    | None => sh_streams (cl_shared c) end →
  moves tx a c c'.
Proof.
  intros Hl Hr Ht Hc Hs. destruct (decide (tx' = tx)) as [->|Hne].
  - apply moves_still; [done..|by apply in_hand_reader| |done]. unfold stream_queue. rewrite Hs.
    destruct (sh_streams (cl_shared c) !! tx) as [s|] eqn:Htx; [|by rewrite Htx].
    rewrite lookup_insert_eq. apply sublist_nil_l.
  - apply moves_same; [done..|by apply in_hand_reader|]. unfold stream_queue. rewrite Hs.
    case_match; [|done]. by apply stream_queue_other.
Qed.

Lemma moves_end tx a c : routed tx a c = [] → taken tx a c = [] → moves tx a c (end_writer c).
Proof. intros. apply moves_same; [done..|]. unfold stream_queue, end_writer. by destruct (cl_reader c). Qed.

Lemma moves_exec max tx a c c' :
  (tx < cl_next_reply c)%nat → exec max a c = Some c' → moves tx a c c'.
Proof.
  intros Hlt. destruct a; cbn [exec].
  - unfold read_step. destruct (cl_reader c) as [b| | | |] eqn:Hr; try done. intros [= <-].
    apply moves_same; [done..| |by destruct r as [[|x chunk]|]].
    unfold in_hand. rewrite Hr. by destruct r as [[|x chunk]|].
  - unfold reader_step. destruct (cl_reader c) as [|b|route f b| |] eqn:Hr; try done.
    + intros [= <-]. by apply moves_parse.
    + intros (sh & Hd & [= <-])%bind_Some. by eapply moves_deliver.
  - intros ([c1 r] & H & [= <-])%fmap_Some. unfold enqueue_command in H.
    destruct (wire.reject_line_breaks cmd) as [[]|e]; [|simplify_eq; by apply moves_same].
    destruct (next_tag (cl_tag_counter c)) as [tag n].
    destruct (cl_writer_done c); [|destruct (_ <? _)%nat; [|done]]; injection H as <- _;
      (apply moves_same; [done..|]); (destruct wants; [|done]); apply stream_queue_other; intros <-; by apply Nat.lt_irrefl in Hlt.
  - intros ([c1 r] & H & [= <-])%fmap_Some. unfold send_raw in H.
    repeat case_match; simplify_eq; by apply moves_same.
  - intros [= <-]. unfold cancel_enqueue. repeat case_match; by apply moves_same.
  - unfold writer_step. destruct (cl_writer c); [|done..]. destruct (cl_queue c) as [|req q]; [done|].
    intros [= <-]. apply moves_same; [done..|by destruct req].
  - unfold write_step. destruct (cl_writer c); [done| |done].
    destruct r as [[|n]|]; intros [= <-]; [by apply moves_end|by apply moves_same|by apply moves_end].
  - intros ->%hang_up_ends. by apply moves_end.
  - intros ([c1 r] & H & [= <-])%fmap_Some. by eapply moves_next.
  - intros [= <-]. destruct (into_reply_only tx0 c) as (Hr & _).
    eapply moves_let_go; [by right|done..|apply into_reply_streams].
  - intros [= <-]. eapply moves_let_go; [by left|done..| |]; unfold drop_stream; by case_match.
Qed.

(** What is routed is recorded as split off. *)
Lemma routed_logged max tx a c c' :
  exec max a c = Some c' → ∃ new, g_frames c' = g_frames c ++ new ∧ routed tx a c `sublist_of` new.
Proof.
  assert (Hnone : g_frames c' = g_frames c → routed tx a c = [] →
    ∃ new, g_frames c' = g_frames c ++ new ∧ routed tx a c `sublist_of` new).
  { intros -> ->. exists []. by rewrite app_nil_r. }
  destruct a; cbn [exec].
  - unfold read_step. destruct (cl_reader c) as [b| | | |]; try done. intros [= <-]. by apply Hnone; destruct r.
  - unfold reader_step. destruct (cl_reader c) as [|b|route f b| |] eqn:Hr; try done.
    + intros [= <-]. unfold routed, parse_step, log_frame. rewrite Hr.
      destruct b as [|x b].
      { exists []. unfold end_of_frames. rewrite app_nil_r.
        destruct (parse_response []) eqn:Hp; [by apply parse_nothing in Hp|by destruct (max <? _)..]. }
      destruct (parse_response (x :: b)) as [rest r|e| |]; cbn [with_reader cl_reader fst g_frames].
      * eexists. split; [done|]. destruct (route_for r (cl_shared c)); [apply sublist_nil_l| |apply sublist_nil_l].
        case_match; [done|apply sublist_nil_l].
      * exists []. rewrite app_nil_r. destruct e; try done. unfold end_of_frames. by destruct (max <? _).
      * exists []. by rewrite app_nil_r.
      * exists []. by rewrite app_nil_r.
    + intros (sh & _ & [= <-])%bind_Some. apply Hnone; [done|]. unfold routed. by rewrite Hr.
  - intros ([c1 r] & H & [= <-])%fmap_Some. apply Hnone; [|done]. unfold enqueue_command in H.
    by repeat case_match; simplify_eq.
  - intros ([c1 r] & H & [= <-])%fmap_Some. apply Hnone; [|done]. unfold send_raw in H.
    by repeat case_match; simplify_eq.
  - intros [= <-]. apply Hnone; [|done]. unfold cancel_enqueue. by repeat case_match.
  - intros H. apply Hnone; [|done]. unfold writer_step in H. by repeat case_match; simplify_eq.
  - intros H. apply Hnone; [|done]. unfold write_step in H. by repeat case_match; simplify_eq.
  - intros ->%hang_up_ends. by apply Hnone.
  - intros ([c1 r] & H & [= <-])%fmap_Some. apply Hnone; [|done]. unfold next_frame in H.
    by repeat case_match; simplify_eq.
  - intros [= <-]. apply Hnone; [|done]. unfold into_reply. by repeat case_match.
  - intros [= <-]. apply Hnone; [|done]. unfold drop_stream. by case_match.
Qed.

(** A stream just opened holds nothing. *)
Lemma held_new w cmd c c' tag rid tx :
  streams_ok c → enqueue_command cmd (Some w) c = Some (c', inl (tag, rid, Some tx)) →
  held tx c' = [] ∧ open tx c'.
Proof.
  intros Hok. unfold enqueue_command. destruct (wire.reject_line_breaks cmd) as [[]|e]; [|done].
  destruct (next_tag (cl_tag_counter c)) as [t n].
  destruct (cl_writer_done c); [done|]. destruct (_ <? _)%nat; [|done]. intros [= <- _ _ <-].
  split; [|exists []; apply lookup_insert_eq].
  unfold held, stream_queue, in_hand. cbn. rewrite lookup_insert_eq. cbn.
  destruct (cl_reader c) as [| |[|tx'|] f b| |] eqn:Hr; try done. destruct (Nat.eqb_spec tx' (cl_next_reply c)) as [->|]; [|done].
  assert (cl_next_reply c < cl_next_reply c)%nat; [|lia]. apply (so_delivering _ Hok). by exists f, b.
Qed.

(* ------------------------------------------------------------------ *)
(** ** Over a run                                                       *)
(* ------------------------------------------------------------------ *)

(** What the steps of a run add up to. *)
Fixpoint over_run {A} (max : Z) (f : action → client → list A) (acts : list action) (c : client) : list A :=
  match acts with
  | [] => []
  | a :: acts => f a c ++ match exec max a c with Some c1 => over_run max f acts c1 | None => [] end
  end.

Lemma open_bound max tx c : reachable max c → open tx c → (tx < cl_next_reply c)%nat.
Proof. intros Hc [q Ho]. by apply (so_cap _ (streams_reachable _ _ Hc)) in Ho as [? _]. Qed.

Lemma held_run max tx acts c c' :
  reachable max c → open tx c → Forall (λ a, ¬ lets_go tx a) acts → run max acts c = Some c' →
  held tx c ++ over_run max (routed tx) acts c = over_run max (taken tx) acts c ++ held tx c' ∧ open tx c'.
Proof.
  revert c. induction acts as [|a acts IH]; intros c Hc Ho Hn; cbn [run over_run].
  - intros [= <-]. by rewrite app_nil_r.
  - intros (c1 & Hx & Hr)%bind_Some. apply Forall_cons in Hn as [Ha Hn]. rewrite Hx.
    destruct (moves_exec max tx a c c1) as (kept & Heq & _ & Hk); [by eapply open_bound|done|].
    specialize (Hk Ho Ha). subst kept.
    destruct (IH c1) as [IHe IHo]; [by eapply reachable_step|by eapply open_exec|done..|].
    split; [|done]. by rewrite app_assoc, Heq, <- app_assoc, IHe, app_assoc.
Qed.

(** The end of a stream: nothing is on its way. *)
Lemma next_end_held tx c c' : open tx c → next_frame tx c = Some (c', None) → held tx c = [].
Proof.
  intros [q Ho]. unfold next_frame, held, stream_queue. rewrite Ho. destruct q as [|f q]; [|done].
  destruct (has_sender tx c) eqn:Hs; [done|]. intros _. cbn.
  rewrite <- not_true_iff_false, has_sender_true in Hs. unfold in_hand.
  destruct (cl_reader c) as [| |[|tx'|] f b| |] eqn:Hr; try done. destruct (Nat.eqb_spec tx' tx) as [->|]; [|done].
  destruct Hs. right. by exists f, b.
Qed.

(* ------------------------------------------------------------------ *)
(** ** Properties                                                       *)
(* ------------------------------------------------------------------ *)

(** C14: a stream delivers exactly what was routed to it: as long as its reader
    holds on to it, the frames taken, in the order they are taken, followed by
    those still on their way, are the frames the read loop routed to it, in the
    order it read them. When the stream ends, all have been taken: none was
    lost, repeated or reordered. *)
Theorem stream_exact max tx acts c c' :
  reachable max c → open tx c → Forall (λ a, ¬ lets_go tx a) acts → run max acts c = Some c' →
  held tx c ++ over_run max (routed tx) acts c = over_run max (taken tx) acts c ++ held tx c'
  ∧ (∀ c2, next_frame tx c' = Some (c2, None) →
       over_run max (taken tx) acts c = held tx c ++ over_run max (routed tx) acts c).
Proof.
  intros Hc Ho Hn Hr. destruct (held_run _ _ _ _ _ Hc Ho Hn Hr) as [Heq Ho']. split; [done|].
  intros c2 He. by rewrite Heq, (next_end_held _ _ _ Ho' He), app_nil_r.
Qed.

Lemma stream_exact_witness :
  over_run MAX_FRAME_SIZE (taken 0) (drop 1 fetch_acts ++ [A_Reader; A_Next 0; A_Next 0]) (after (take 1 fetch_acts))
  = [b! "* 1 FETCH (UID 7)" ++ [CR; LF]].
Proof.
  destruct (stream_exact MAX_FRAME_SIZE 0 (drop 1 fetch_acts ++ [A_Reader; A_Next 0; A_Next 0])
    (after (take 1 fetch_acts)) (after (fetch_acts ++ [A_Reader; A_Next 0; A_Next 0]))) as [_ H].
  - apply after_reachable.
  - exists []. vm_compute. reflexivity.
  - repeat constructor; intros [?|?]; discriminate.
  - vm_compute. reflexivity.
  - etrans; [eapply H; vm_compute; reflexivity|]. vm_compute. reflexivity.
Defined.
