(* ===== verification/ClientCancel.v ===== *)
(** Callers of [Client] that give up: a future dropped half-way, a stream
    dropped or closed before its command was answered. What the module's
    documentation promises under "Cancellation". *)

From S2P Require Import Prelude Str Ast Monad ResponseParser ParserSafety ParserStream.
From S2P Require Import ParserLocal ParserTheorems Framing ClientError Flags Wire Client ClientFraming.
From S2P Require Import ClientReplies ClientStreams.
From stdpp Require Import options.

(** The receiver of [tx] is gone. *)
Definition abandoned (tx : stream_id) (c : client) : Prop :=
  sh_streams (cl_shared c) !! tx = Some (mkStream [] true).

Lemma lets_go_abandons max tx a c c' :
  lets_go tx a → is_Some (sh_streams (cl_shared c) !! tx) → exec max a c = Some c' → abandoned tx c'.
Proof.
  intros [-> | ->] [s Hs]; cbn [exec]; intros [= <-]; unfold abandoned.
  - unfold drop_stream. rewrite Hs. apply lookup_insert_eq.
  - rewrite into_reply_streams, Hs. apply lookup_insert_eq.
Qed.

(** A stream that was let go of stays so, and empty. *)
Lemma abandoned_exec max tx a c c' :
  streams_ok c → abandoned tx c → exec max a c = Some c' → abandoned tx c'.
Proof.
  unfold abandoned. intros Hok Hs Hx. destruct (so_cap _ Hok _ _ Hs) as [Hlt _].
  destruct (exec_streams _ _ _ _ Hx) as [| |tx' q f b _ Hs'|tx' q f cl _ Hs'|tx' s _ Hs']; [done| |..].
  - rewrite lookup_insert_ne by lia. done.
  - rewrite lookup_insert_ne by congruence. done.
  - rewrite lookup_insert_ne by congruence. done.
  - destruct (decide (tx' = tx)) as [->|?]; [apply lookup_insert_eq|by rewrite lookup_insert_ne].
Qed.

Lemma abandoned_run max tx acts c c' :
  reachable max c → abandoned tx c → run max acts c = Some c' → abandoned tx c'.
Proof.
  revert c. induction acts as [|a acts IH]; intros c Hc Hs; cbn; [by intros [= <-]|].
  intros (c1 & Hx & Hr)%bind_Some. apply (IH c1); [by eapply reachable_step| |done].
  eapply abandoned_exec; [by eapply streams_reachable|done..].
Qed.

(** No frame is routed to it, *)
Lemma abandoned_unrouted tx c response : abandoned tx c → route_for response (cl_shared c) ≠ Route_Stream tx.
Proof.
  intros Hs Hr. assert (∃ cs, find_collector (cl_shared c) cs response = Some tx) as [cs Hf].
  { unfold route_for, collector_for in Hr.
    destruct response as [[[t|] s code x]| |]; try done;
      eexists; destruct (find_collector _ _ _) eqn:Hf in Hr; simplify_eq; exact Hf. }
  induction cs as [|col cs IH]; [done|]. cbn in Hf. case_match eqn:Hn; [|by apply IH].
  injection Hf as Hf. apply andb_true_iff in Hn as [Hn _]. unfold is_closed in Hn. rewrite Hf in Hn.
  by rewrite Hs in Hn.
Qed.

(** and one already on its way falls to the broadcast. *)
Lemma abandoned_broadcast max tx f b c :
  abandoned tx c → cl_reader c = R_Delivering (Route_Stream tx) f b →
  ∃ c', exec max A_Reader c = Some c' ∧ sh_events (cl_shared c') = sh_events (cl_shared c) ++ [f].
Proof.
  intros Hs Hr. cbn [exec]. unfold reader_step. rewrite Hr. cbn [dispatch_frame]. rewrite Hs. cbn.
  by eexists.
Qed.

(** What the delivery of a tagged response leaves of its command, and of the
    others. *)
Record forgotten (tag : str) (c c' : client) : Prop := {
  fg_reply : p_replies (sh_pending (cl_shared c')) = delete tag (p_replies (sh_pending (cl_shared c)));
  fg_collectors : ∀ col, col ∈ p_collectors (sh_pending (cl_shared c'))
    ↔ col ∈ p_collectors (sh_pending (cl_shared c)) ∧ c_tag col ≠ tag;
  fg_streams : sh_streams (cl_shared c') = sh_streams (cl_shared c);
}.

Lemma deliver_forgets max tag status text f b c :
  cl_reader c = R_Delivering (Route_Tagged tag status text) f b →
  ∃ c', exec max A_Reader c = Some c' ∧ forgotten tag c c'.
Proof.
  intros Hr. cbn [exec]. unfold reader_step. rewrite Hr. cbn [dispatch_frame complete].
  assert (Hcol : ∀ col (cols : list Collector), col ∈ filter (λ c, c_tag c ≠ tag) cols ↔ col ∈ cols ∧ c_tag col ≠ tag).
  { intros col cols. rewrite list_elem_of_filter. tauto. }
  destruct (p_replies (sh_pending (cl_shared c)) !! tag) as [rid|]; cbn [mbind option_bind];
    eexists; (split; [done|]); (split; [done|intros col; apply Hcol|done]).
Qed.

(* ------------------------------------------------------------------ *)
(** ** Properties                                                       *)
(* ------------------------------------------------------------------ *)

(** C20: a caller that lets go of its stream, or is dropped with it, leaves
    nothing behind and costs the others nothing: from then on, whatever runs,
    the stream holds no frame and is given none, so it never blocks the read
    loop; a frame that was on its way to it is broadcast instead; and when the
    tagged response comes, the command's entries go, and no others. *)
Theorem cancelled_leaves_nothing max tx a c c1 acts c2 :
  reachable max c → is_Some (sh_streams (cl_shared c) !! tx) → lets_go tx a →
  exec max a c = Some c1 → run max acts c1 = Some c2 →
  sh_streams (cl_shared c2) !! tx = Some (mkStream [] true)
  ∧ (∀ response, route_for response (cl_shared c2) ≠ Route_Stream tx)
  ∧ (∀ f b, cl_reader c2 = R_Delivering (Route_Stream tx) f b →
       ∃ c3, exec max A_Reader c2 = Some c3 ∧ sh_events (cl_shared c3) = sh_events (cl_shared c2) ++ [f])
  ∧ (∀ tag status text f b, cl_reader c2 = R_Delivering (Route_Tagged tag status text) f b →
       ∃ c3, exec max A_Reader c2 = Some c3 ∧ forgotten tag c2 c3).
Proof.
  intros Hc Hs Ha Hx Hr. assert (H1 : abandoned tx c1) by by eapply lets_go_abandons.
  assert (H2 : abandoned tx c2) by (eapply abandoned_run; [by eapply reachable_step|done..]).
  split_and!; [done|..].
  - intros response. by apply abandoned_unrouted.
  - intros f b. by apply abandoned_broadcast.
  - intros *. by apply deliver_forgets.
Qed.

(** The caller of a [FETCH] gives up while its frame is on its way. *)
Definition given_up : list action := take 5 fetch_acts.

Lemma cancelled_leaves_nothing_witness :
  ∃ c3, exec MAX_FRAME_SIZE A_Reader (after (given_up ++ [A_DropStream 0])) = Some c3
    ∧ sh_events (cl_shared c3) = [b! "* 1 FETCH (UID 7)" ++ [CR; LF]].
Proof.
  destruct (cancelled_leaves_nothing MAX_FRAME_SIZE 0 (A_DropStream 0) (after given_up)
    (after (given_up ++ [A_DropStream 0])) [] (after (given_up ++ [A_DropStream 0])))
    as (_ & _ & H & _).
  - apply after_reachable.
  - vm_compute. by eexists.
  - by left.
  - vm_compute. reflexivity.
  - reflexivity.
  - apply (H (b! "* 1 FETCH (UID 7)" ++ [CR; LF]) (b! "A0001 OK done" ++ [CR; LF])). vm_compute. reflexivity.
Defined.
