(* ===== verification/ClientWrites.v ===== *)
(** The bytes the write loop of [Client] puts on the wire: what the callers
    asked for, in the order of their calls, each command as one line with the
    next of the tags [A0001], [A0002], ... *)

From S2P Require Import Prelude Str Ast Monad ResponseParser ParserSafety ParserStream.
From S2P Require Import ParserLocal ParserTheorems ClientError Flags Wire Client ClientFraming.
From S2P Require Import ClientReplies ClientStreams.
From stdpp Require Import options.

(** The command line of the [i]-th call. *)
Definition nth_line (i : nat) (cmd : str) : bytes := command_line (tag_for i) cmd.

(** What a step asks to be written when [i] calls came before it, and the calls
    it makes. A refused command is no call; one given up is, and asks for
    nothing. *)
Definition asks (i : nat) (a : action) : bytes :=
  match a with
  | A_Enqueue cmd _ => match wire.reject_line_breaks cmd with inl _ => nth_line i cmd | inr _ => [] end
  | A_SendRaw bs => bs
  | _ => []
  end.

Definition calls (a : action) : nat :=
  match a with
  | A_Enqueue cmd _ | A_CancelEnqueue cmd => match wire.reject_line_breaks cmd with inl _ => 1 | inr _ => 0 end
  | _ => 0
  end.

Fixpoint asked (i : nat) (acts : list action) : bytes :=
  match acts with
  | [] => []
  | a :: acts => asks i a ++ asked (i + calls a) acts
  end.

(** What is still to go out. *)
Definition unwritten (c : client) : bytes :=
  match cl_writer c with W_Writing rest => rest | _ => [] end ++ concat (req_bytes <$> cl_queue c).

(** [bs] is what was asked for so far. *)
Record written_ok (bs : bytes) (c : client) : Prop := {
  wo_prefix : cl_written c `prefix_of` bs;
  wo_all : cl_writer_done c = false → cl_written c ++ unwritten c = bs;
}.

Lemma written_more bs bs' c c' :
  written_ok bs c → cl_written c' = cl_written c →
  (cl_writer_done c' = false → cl_writer_done c = false ∧ unwritten c' = unwritten c ++ bs') →
  written_ok (bs ++ bs') c'.
Proof.
  intros [Hp Ha] Hw Hu. split; rewrite Hw.
  - by apply prefix_app_r.
  - intros [Hd ->]%Hu. by rewrite app_assoc, Ha.
Qed.

Lemma written_same bs c c' :
  written_ok bs c → cl_written c' = cl_written c → cl_queue c' = cl_queue c → cl_writer c' = cl_writer c →
  written_ok (bs ++ []) c'.
Proof.
  intros H Hw Hq Hd. apply (written_more _ _ c); [done..|]. unfold unwritten, cl_writer_done.
  by rewrite Hq, Hd, app_nil_r.
Qed.

Lemma unwritten_push c c' req bs :
  cl_writer c' = cl_writer c → cl_queue c' = cl_queue c ++ [req] → req_bytes req = bs →
  unwritten c' = unwritten c ++ bs.
Proof.
  unfold unwritten. intros -> -> <-. rewrite fmap_app, concat_app. cbn. by rewrite app_nil_r, app_assoc.
Qed.

Lemma written_enqueue bs cmd wants c c' r :
  owned c → written_ok bs c → enqueue_command cmd wants c = Some (c', r) →
  written_ok (bs ++ asks (cl_next_reply c) (A_Enqueue cmd wants)) c'
  ∧ cl_next_reply c' = (cl_next_reply c + calls (A_Enqueue cmd wants))%nat.
Proof.
  intros HO Hb. unfold enqueue_command, asks, calls.
  destruct (wire.reject_line_breaks cmd) as [[]|e];
    [|intros [= <- _]; by rewrite app_nil_r, Nat.add_0_r].
  destruct (next_tag (cl_tag_counter c)) as [tag n] eqn:Ht.
  assert (Htag : tag = tag_for (cl_next_reply c))
    by (apply (f_equal fst) in Ht; cbn [fst] in Ht; rewrite <- Ht, (ow_counter _ HO); reflexivity).
  destruct (cl_writer_done c) eqn:Hw; [|destruct (_ <? _)%nat; [|done]]; intros [= <- _];
    (split; [|cbn [cl_next_reply]; by rewrite Nat.add_1_r]); apply (written_more _ _ c); try done.
  - unfold cl_writer_done in *. cbn [cl_writer]. by rewrite Hw.
  - intros _. split; [done|]. subst tag. by eapply unwritten_push.
Qed.

Lemma written_raw bs raw c c' r :
  written_ok bs c → send_raw raw c = Some (c', r) →
  written_ok (bs ++ raw) c' ∧ cl_next_reply c' = cl_next_reply c.
Proof.
  intros Hb. unfold send_raw.
  destruct (cl_writer_done c) eqn:Hw; [|destruct (_ <? _)%nat; [|done]]; intros [= <- _];
    (split; [|done]); apply (written_more _ _ c); try done; [by rewrite Hw|].
  intros _. split; [done|]. by eapply unwritten_push.
Qed.

Lemma write_all_rest bs : match write_all bs with W_Writing rest => rest | _ => [] end = bs.
Proof. by destruct bs. Qed.

Lemma written_writer bs c c' : written_ok bs c → writer_step c = Some c' → written_ok (bs ++ []) c'.
Proof.
  intros Hb. unfold writer_step. destruct (cl_writer c) eqn:Hw; [|done..].
  destruct (cl_queue c) as [|req q] eqn:Hq; [done|]. intros [= <-]. apply (written_more _ _ c); [done..|].
  intros _. split; [unfold cl_writer_done; by rewrite Hw|].
  unfold unwritten. cbn [cl_writer cl_queue]. by rewrite write_all_rest, Hw, Hq, app_nil_r.
Qed.

Lemma written_write bs r c c' : written_ok bs c → write_step r c = Some c' → written_ok (bs ++ []) c'.
Proof.
  intros Hb. unfold write_step. destruct (cl_writer c) as [|rest|] eqn:Hw; [done| |done].
  assert (written_ok (bs ++ []) (end_writer c)) by (by apply (written_more _ _ c)).
  destruct r as [[|n]|]; intros [= <-]; [done| |done]. rewrite app_nil_r.
  destruct Hb as [_ Ha]. unfold cl_writer_done in Ha. rewrite Hw in Ha. specialize (Ha eq_refl).
  unfold unwritten in Ha. rewrite Hw in Ha. set (out := take (S n) rest).
  assert (Heq : (cl_written c ++ out) ++ drop (S n) rest ++ concat (req_bytes <$> cl_queue c) = bs).
  { rewrite <- app_assoc, (app_assoc out). unfold out. by rewrite take_drop. }
  split.
  - exists (drop (S n) rest ++ concat (req_bytes <$> cl_queue c)). symmetry. exact Heq.
  - intros _. unfold unwritten. cbn [cl_writer cl_queue cl_written]. rewrite write_all_rest. exact Heq.
Qed.

Lemma written_exec max a bs c c' :
  owned c → written_ok bs c → exec max a c = Some c' →
  written_ok (bs ++ asks (cl_next_reply c) a) c' ∧ cl_next_reply c' = (cl_next_reply c + calls a)%nat.
Proof.
  intros HO Hb.
  assert (Hsame : cl_written c' = cl_written c → cl_queue c' = cl_queue c →
    cl_writer c' = cl_writer c → cl_next_reply c' = cl_next_reply c →
    written_ok (bs ++ []) c' ∧ cl_next_reply c' = (cl_next_reply c + 0)%nat).
  { intros. rewrite Nat.add_0_r. split; [by eapply written_same|done]. }
  destruct a; cbn [exec].
  - unfold read_step. repeat case_match; intros; simplify_eq; by apply Hsame.
  - unfold reader_step, log_frame. destruct (cl_reader c) as [|b|route f b| |]; try done.
    + intros [= <-]. case_match; by apply Hsame.
    + intros (sh & _ & [= <-])%bind_Some. by apply Hsame.
  - intros ([c1 r] & H & [= <-])%fmap_Some. by eapply written_enqueue.
  - intros ([c1 r] & H & [= <-])%fmap_Some. cbn [asks calls]. rewrite Nat.add_0_r. by eapply written_raw.
  - intros [= <-]. unfold cancel_enqueue, asks, calls.
    destruct (wire.reject_line_breaks cmd) as [[]|e]; [|by rewrite app_nil_r, Nat.add_0_r].
    split; [by apply (written_same _ c)|cbn [cl_next_reply]; by rewrite Nat.add_1_r].
  - intros H. cbn [asks calls]. rewrite Nat.add_0_r. split; [by eapply written_writer|].
    unfold writer_step in H. by repeat case_match; simplify_eq.
  - intros H. cbn [asks calls]. rewrite Nat.add_0_r. split; [by eapply written_write|].
    unfold write_step in H. by repeat case_match; simplify_eq.
  - intros ->%hang_up_ends. cbn [asks calls]. rewrite Nat.add_0_r. split; [|done]. by apply (written_more _ _ c).
  - intros ([c1 r] & H & [= <-])%fmap_Some. unfold next_frame in H.
    repeat case_match; simplify_eq; by apply Hsame.
  - intros [= <-]. unfold into_reply in *. repeat case_match; by apply Hsame.
  - intros [= <-]. unfold drop_stream in *. case_match; by apply Hsame.
Qed.

Lemma written_run max acts bs c c' :
  owned c → written_ok bs c → run max acts c = Some c' →
  written_ok (bs ++ asked (cl_next_reply c) acts) c'.
Proof.
  revert bs c. induction acts as [|a acts IH]; intros bs c HO Hb; cbn [run asked].
  - intros [= <-]. by rewrite app_nil_r.
  - intros (c1 & Ha & Hr)%bind_Some. destruct (written_exec _ _ _ _ _ HO Hb Ha) as [Hb1 <-].
    rewrite app_assoc. apply IH; [by eapply owned_exec|done..].
Qed.

(** A command line is one line. *)
Lemma nth_line_single i cmd :
  wire.reject_line_breaks cmd = inl tt →
  ∃ body, nth_line i cmd = body ++ [CR; LF] ∧ Forall (λ b, wire.is_line_break b = false) body.
Proof.
  intros H. exists (tag_for i ++ [SP] ++ cmd). unfold nth_line, command_line. split; [by rewrite <- !app_assoc|].
  rewrite !Forall_app. split_and!; [|by apply Forall_singleton|by apply no_line_break].
  apply Forall_forall. intros b [->|Hd]%tag_for_bytes; [done|]. by destruct b.
Qed.

(* ------------------------------------------------------------------ *)
(** ** Properties                                                       *)
(* ------------------------------------------------------------------ *)

(** C21: however the transport splits the writes, what has gone out is always
    the beginning of what the callers asked for, in the order of their calls,
    and all of it when the write loop has nothing left: nothing is lost,
    repeated, reordered or interleaved, a command that was refused or given up
    leaves no byte behind, and after a failed write nothing more is written.
    Each command is one line. *)
Theorem commands_written max acts c :
  run max acts client_new = Some c →
  cl_written c `prefix_of` asked 0 acts
  ∧ (cl_writer c = W_Waiting → cl_queue c = [] → cl_written c = asked 0 acts)
  ∧ ∀ i cmd, wire.reject_line_breaks cmd = inl tt →
      ∃ body, nth_line i cmd = body ++ [CR; LF] ∧ Forall (λ b, wire.is_line_break b = false) body.
Proof.
  intros Hrun. destruct (written_run max acts [] client_new c) as [Hp Ha];
    [by apply (owned_reachable max), reachable_new|by split|done|].
  cbn [app] in *. split_and!; [exact Hp| |by apply nth_line_single].
  intros Hw Hq. unfold cl_writer_done, unwritten in Ha. rewrite Hw, Hq, app_nil_r in Ha. by apply Ha.
Qed.

Lemma commands_written_witness :
  cl_written (after noop_acts) = b! "A0001 NOOP" ++ [CR; LF].
Proof.
  apply (commands_written MAX_FRAME_SIZE noop_acts (after noop_acts)); vm_compute; reflexivity.
Defined.
