(* ===== verification/Program.v ===== *)
(** The callers of [Client]: the methods of [RawClient] that wait, as programs
    that run against it.

    An [async fn] is a [prog]: each [await] that can suspend is a constructor
    with the code that follows as its continuation. [drive] runs one against a
    client under a schedule that interleaves it with the other tasks
    ([Env a]) and decides which deadlines expire ([TimesOut]). A run is
    labelled with what the program sends. *)

From S2P Require Import Prelude Str Ast Monad ResponseParser ParserSafety ParserStream.
From S2P Require Import ParserLocal ParserTheorems ClientError Flags Wire Client ClientFraming.
From S2P Require Import ClientReplies ClientStreams ClientOrder.
From stdpp Require Import options.

(* ------------------------------------------------------------------ *)
(** ** Programs                                                         *)
(* ------------------------------------------------------------------ *)

Inductive next_result : Type := NR_Frame (frame : bytes) | NR_End | NR_Timeout.

Inductive prog (A : Type) : Type :=
| Ret (a : A)
| Enqueue (cmd : str) (wants : option FrameFilter)
    (k : res (str * reply_id * option stream_id) → prog A)
| SendRaw (bs : bytes) (k : res unit → prog A)
(** [timeout(_, stream.next_frame())]. *)
| Next (tx : stream_id) (k : next_result → prog A)
(** [while let Some(frame) = stream.next_frame().await], collecting the frames
    in [acc]; the flag says that the deadline expired. *)
| Drain (tx : stream_id) (acc : list bytes) (k : list bytes → bool → prog A)
| IntoReply (tx : stream_id) (k : prog A)
| DropStream (tx : stream_id) (k : prog A)
(** [reply_rx.await], under a deadline when [timed]. *)
| Await (timed : bool) (rid : reply_id) (k : res bytes → prog A)
(** [events()], which stands at the end of what was sent so far. *)
| Events (k : nat → prog A)
(** [timeout(_, events.recv())] of a receiver that stands at [at_]. *)
| Recv (at_ : nat) (k : option bytes → prog A)
| Panics.
Arguments Ret {A} a.
Arguments Enqueue {A} cmd wants k.
Arguments SendRaw {A} bs k.
Arguments Next {A} tx k.
Arguments Drain {A} tx acc k.
Arguments IntoReply {A} tx k.
Arguments DropStream {A} tx k.
Arguments Await {A} timed rid k.
Arguments Events {A} k.
Arguments Recv {A} at_ k.
Arguments Panics {A}.

Fixpoint pbind {A B} (p : prog A) (f : A → prog B) : prog B :=
  match p with
  | Ret a => f a
  | Enqueue cmd wants k => Enqueue cmd wants (λ r, pbind (k r) f)
  | SendRaw bs k => SendRaw bs (λ r, pbind (k r) f)
  | Next tx k => Next tx (λ r, pbind (k r) f)
  | Drain tx acc k => Drain tx acc (λ fs t, pbind (k fs t) f)
  | IntoReply tx k => IntoReply tx (pbind k f)
  | DropStream tx k => DropStream tx (pbind k f)
  | Await timed rid k => Await timed rid (λ r, pbind (k r) f)
  | Events k => Events (λ n, pbind (k n) f)
  | Recv at_ k => Recv at_ (λ r, pbind (k r) f)
  | Panics => Panics
  end.

#[export] Instance prog_ret : MRet prog := λ A a, Ret a.
#[export] Instance prog_bind : MBind prog := λ A B f p, pbind p f.

(** [p?] for an operation that consumes what it works on. *)
Definition try_p {A B} (p : prog (res A)) (f : A → prog (res B)) : prog (res B) :=
  pbind p (λ r, match r with inl a => f a | inr e => Ret (inr e) end).

(** What a program sends. *)
Inductive event : Type :=
| Ev_Command (rid : reply_id) (cmd : str) (wants : option FrameFilter)
| Ev_Raw (bs : bytes).

(** The sender of [rid] was dropped without a result: the command is neither
    queued nor waiting any more. *)
Definition reply_dropped (rid : reply_id) (c : client) : bool :=
  negb (existsb (λ r, (r =? rid)%nat) (queued (cl_queue c)))
  && bool_decide (map_Forall (λ _ r, r ≠ rid) (p_replies (sh_pending (cl_shared c)))).

(** One step of a program; [None] while it waits. *)
Definition prog_step {A} (p : prog A) (c : client) : option (list event * prog A * client) :=
  match p with
  | Ret _ | Panics => None
  | Enqueue cmd wants k =>
    '(c', r) ← enqueue_command cmd wants c;
    Some (match r with inl (_, rid, _) => [Ev_Command rid cmd wants] | inr _ => [] end, k r, c')
  | SendRaw bs k =>
    '(c', r) ← send_raw bs c;
    Some (match r with inl _ => [Ev_Raw bs] | inr _ => [] end, k r, c')
  | Next tx k =>
    '(c', f) ← next_frame tx c;
    Some ([], k (match f with Some f => NR_Frame f | None => NR_End end), c')
  | Drain tx acc k =>
    '(c', f) ← next_frame tx c;
    Some ([], match f with Some f => Drain tx (acc ++ [f]) k | None => k acc false end, c')
  | IntoReply tx k => Some ([], k, into_reply tx c)
  | DropStream tx k => Some ([], k, drop_stream tx c)
  | Await _ rid k =>
    match sh_replies (cl_shared c) !! rid with
    | Some r => Some ([], k r, c)
    | None => if reply_dropped rid c then Some ([], k (inr CE_ConnectionClosed), c) else None
    end
  | Events k => Some ([], k (length (sh_events (cl_shared c))), c)
  | Recv at_ k =>
    let events := sh_events (cl_shared c) in
    if (length events <=? at_)%nat then None
    else if (length events - at_ <=? EVENT_CHANNEL_CAP)%nat then Some ([], k (events !! at_), c)
    else Some ([], k None, c)
  end.

(** A deadline expires. *)
Definition prog_timeout {A} (p : prog A) : option (prog A) :=
  match p with
  | Next tx k => Some (k NR_Timeout)
  | Drain tx acc k => Some (k acc true)
  | Await true rid k => Some (k (inr CE_Timeout))
  | Recv at_ k => Some (k None)
  | _ => None
  end.

Inductive choice : Type := Go | TimesOut | Env (a : action).

Fixpoint drive {A} (max : Z) (sched : list choice) (p : prog A) (c : client) :
    option (list event * prog A * client) :=
  match sched with
  | [] => Some ([], p, c)
  | Go :: sched =>
    '(ev, p1, c1) ← prog_step p c;
    '(tr, p2, c2) ← drive max sched p1 c1;
    Some (ev ++ tr, p2, c2)
  | TimesOut :: sched => p1 ← prog_timeout p; drive max sched p1 c
  | Env a :: sched => c1 ← exec max a c; drive max sched p c1
  end.

(** [p], started at [c], sends [tr] and returns [a] at [c']. *)
Definition finishes {A} (max : Z) (p : prog A) (c : client) (tr : list event) (a : A) (c' : client) : Prop :=
  ∃ sched, drive max sched p c = Some (tr, Ret a, c').

(* ------------------------------------------------------------------ *)
(** ** [RawClient]                                                      *)
(* ------------------------------------------------------------------ *)

(** [send_command_async] and [send_command_streaming]. *)
Definition send_command_async (cmd : str) : prog (res reply_id) :=
  Enqueue cmd None (λ r, Ret (match r with inl (_, rid, _) => inl rid | inr e => inr e end)).

(** A [CommandStream]: its frames and its reply. *)
Record CommandStream : Type := mkCommandStream { cs_frames : stream_id; cs_reply : reply_id }.

Definition send_command_streaming (cmd : str) (wants : FrameFilter) : prog (res CommandStream) :=
  Enqueue cmd (Some wants) (λ r,
    match r with
    | inl (_, rid, Some tx) => Ret (inl (mkCommandStream tx rid))
    | inl (_, _, None) => Panics
    | inr e => Ret (inr e)
    end).

(** [execute_command_with_timeout]; [execute_command] has the default
    deadline. *)
Definition execute_command (cmd : str) : prog (res bytes) :=
  try_p (send_command_async cmd) (λ rid, Await true rid Ret).

(** [execute_streaming]: the outcome, and the frames [on_frame] was called with
    (on every path, since it may have changed the caller's state). *)
Definition execute_streaming (cmd : str) (wants : FrameFilter) : prog (res bytes * list bytes) :=
  pbind (send_command_streaming cmd wants) (λ r,
    match r with
    | inr e => Ret (inr e, [])
    | inl stream =>
      Drain (cs_frames stream) [] (λ frames expired,
        if expired : bool then DropStream (cs_frames stream) (Ret (inr CE_Timeout, frames))
        else IntoReply (cs_frames stream) (Await true (cs_reply stream) (λ r, Ret (r, frames))))
    end).

(* ------------------------------------------------------------------ *)
(** ** Runs                                                             *)
(* ------------------------------------------------------------------ *)

(** The program's own steps are steps of the client, or leave it alone. *)
Lemma prog_step_exec {A} max (p : prog A) c ev p' c' :
  prog_step p c = Some (ev, p', c') → c' = c ∨ ∃ a, exec max a c = Some c'.
Proof.
  destruct p; cbn [prog_step]; try done.
  - intros ([c1 r] & H & [= _ _ <-])%bind_Some. right. exists (A_Enqueue cmd wants). cbn. by rewrite H.
  - intros ([c1 r] & H & [= _ _ <-])%bind_Some. right. exists (A_SendRaw bs). cbn. by rewrite H.
  - intros ([c1 r] & H & [= _ _ <-])%bind_Some. right. exists (A_Next tx). cbn. by rewrite H.
  - intros ([c1 r] & H & [= _ _ <-])%bind_Some. right. exists (A_Next tx). cbn. by rewrite H.
  - intros [= _ _ <-]. right. by exists (A_IntoReply tx).
  - intros [= _ _ <-]. right. by exists (A_DropStream tx).
  - repeat case_match; intros; simplify_eq; by left.
  - intros [= _ _ <-]. by left.
  - repeat case_match; intros; simplify_eq; by left.
Qed.

(** [c'] comes after [c], whatever ran in between. *)
Definition later (max : Z) (c c' : client) : Prop := ∃ acts, run max acts c = Some c'.

#[export] Instance later_preorder max : PreOrder (later max).
Proof.
  split.
  - intros c. by exists [].
  - intros c1 c2 c3 [acts1 H1] [acts2 H2]. exists (acts1 ++ acts2). revert c1 H1.
    induction acts1 as [|a acts1 IH]; intros c1; cbn; [by intros [= ->]|].
    intros (c & -> & H)%bind_Some. cbn. by apply IH.
Qed.

Lemma later_step max a c c' : exec max a c = Some c' → later max c c'.
Proof. intros H. exists [a]. cbn. by rewrite H. Qed.

(** A property of clients that every step keeps holds from then on. *)
Lemma later_keeps max (P : client → Prop) c c' :
  (∀ a c c', P c → exec max a c = Some c' → P c') → later max c c' → P c → P c'.
Proof.
  intros HP [acts H]. revert c H. induction acts as [|a acts IH]; intros c; cbn; [by intros [= <-]|].
  intros (c1 & Ha & Hr)%bind_Some Hc. eapply IH; [done|]. by eapply HP.
Qed.

Lemma later_reachable max c c' : later max c c' → reachable max c → reachable max c'.
Proof. apply later_keeps. intros. by eapply reachable_step. Qed.

Lemma drive_later {A} max sched (p : prog A) c tr p' c' :
  drive max sched p c = Some (tr, p', c') → later max c c'.
Proof.
  revert p c tr. induction sched as [|[| |a] sched IH]; intros p c tr; cbn.
  - by intros [= _ _ <-].
  - intros ([[ev p1] c1] & Hs & ([[tr2 p2] c2] & Hd & [= _ <- <-])%bind_Some)%bind_Some.
    etrans; [|by eapply IH]. destruct (prog_step_exec max _ _ _ _ _ Hs) as [->|[a Ha]]; [done|].
    by eapply later_step.
  - intros (p1 & _ & Hd)%bind_Some. by eapply IH.
  - intros (c1 & Ha & Hd)%bind_Some. etrans; [by eapply later_step|by eapply IH].
Qed.

(** One schedule after another. *)
Lemma drive_app {A} max sched1 sched2 (p : prog A) c tr1 p1 c1 tr2 p2 c2 :
  drive max sched1 p c = Some (tr1, p1, c1) → drive max sched2 p1 c1 = Some (tr2, p2, c2) →
  drive max (sched1 ++ sched2) p c = Some (tr1 ++ tr2, p2, c2).
Proof.
  revert p c tr1. induction sched1 as [|[| |a] sched1 IH]; intros p c tr1; cbn [drive app].
  - by intros [= <- -> ->].
  - intros ([[ev q] c'] & Hs & ([[tr' q'] c''] & Hd & [= <- -> ->])%bind_Some)%bind_Some Hd2.
    rewrite Hs. cbn [mbind option_bind]. rewrite (IH _ _ _ Hd Hd2). cbn. by rewrite app_assoc.
  - intros (q & Hq & Hd)%bind_Some Hd2. rewrite Hq. cbn [mbind option_bind]. by apply IH.
  - intros (c' & Hx & Hd)%bind_Some Hd2. rewrite Hx. cbn [mbind option_bind]. by apply IH.
Qed.

(** A program that has returned stays so, whatever the others go on to do. *)
Lemma finishes_more {A} max (p : prog A) c tr a c1 c2 :
  finishes max p c tr a c1 → later max c1 c2 → finishes max p c tr a c2.
Proof.
  intros [sched Hd] [acts Hr]. exists (sched ++ (Env <$> acts)). rewrite <- (app_nil_r tr).
  eapply drive_app; [done|]. clear -Hr. revert c1 Hr. induction acts as [|x acts IH]; intros c1; cbn.
  - by intros [= ->].
  - intros (c & -> & Hr)%bind_Some. cbn. by apply IH.
Qed.

Lemma finishes_later {A} max (p : prog A) c tr a c' : finishes max p c tr a c' → later max c c'.
Proof. intros [sched Hd]. by eapply drive_later. Qed.

Lemma finishes_reachable {A} max (p : prog A) c tr a c' :
  reachable max c → finishes max p c tr a c' → reachable max c'.
Proof. intros Hc Hf. eapply later_reachable; [by eapply finishes_later|done]. Qed.

Lemma drive_ret {A} max sched (a : A) c tr p' c' :
  drive max sched (Ret a) c = Some (tr, p', c') → tr = [] ∧ p' = Ret a.
Proof.
  revert c. induction sched as [|[| |x] sched IH]; intros c; cbn; try done.
  - by intros [= <- <- _].
  - intros (c1 & _ & Hd)%bind_Some. by eapply IH.
Qed.

Lemma finishes_ret {A} max (a : A) c tr b c' : finishes max (Ret a) c tr b c' → tr = [] ∧ b = a.
Proof. intros [sched Hd]. apply drive_ret in Hd as [-> [= ->]]. done. Qed.

Lemma prog_step_bind {A B} (p : prog A) (f : A → prog B) c :
  (∀ a, p ≠ Ret a) →
  prog_step (pbind p f) c = (λ '(ev, p', c'), (ev, pbind p' f, c')) <$> prog_step p c.
Proof.
  intros Hne. destruct p; cbn; try done.
  - by destruct (Hne a).
  - by destruct (enqueue_command cmd wants c) as [[c' [[[t rid] s]|e]]|].
  - by destruct (send_raw bs c) as [[c' [[]|e]]|].
  - by destruct (next_frame tx c) as [[c' [x|]]|].
  - by destruct (next_frame tx c) as [[c' [x|]]|].
  - repeat case_match; done.
  - repeat case_match; done.
Qed.

Lemma prog_timeout_bind {A B} (p : prog A) (f : A → prog B) :
  (∀ a, p ≠ Ret a) → prog_timeout (pbind p f) = (λ p', pbind p' f) <$> prog_timeout p.
Proof. intros Hne. destruct p; cbn; try done; [by destruct (Hne a)|by destruct timed]. Qed.

(** A run of a sequence is a run of each part. *)
Lemma finishes_bind {A B} max (p : prog A) (f : A → prog B) c tr b c' :
  finishes max (pbind p f) c tr b c' →
  ∃ tr1 a c1 tr2, finishes max p c tr1 a c1 ∧ finishes max (f a) c1 tr2 b c' ∧ tr = tr1 ++ tr2.
Proof.
  intros [sched Hd].
  assert (Hret : (∃ a, p = Ret a) ∨ ∀ a, p ≠ Ret a) by (destruct p; eauto; by right).
  revert p c tr Hd Hret. induction sched as [|ch sched IH]; intros p c tr Hd Hret.
  { destruct Hret as [[a ->]|Hne].
    - exists [], a, c, tr. split_and!; [by exists []|by exists []|done].
    - destruct p; cbn in Hd; simplify_eq. by destruct (Hne a). }
  destruct Hret as [[a ->]|Hne].
  { exists [], a, c, tr. split_and!; [by exists []|by exists (ch :: sched)|done]. }
  assert (Hret : ∀ p1 : prog A, (∃ a, p1 = Ret a) ∨ ∀ a, p1 ≠ Ret a) by (intros []; eauto; by right).
  destruct ch as [| |x]; cbn [drive] in Hd.
  - rewrite prog_step_bind in Hd by done.
    apply bind_Some in Hd as ([[ev q] c1] & Hs & Hd). apply fmap_Some in Hs as ([[ev' p1] c1'] & Hs & [= -> -> ->]).
    apply bind_Some in Hd as ([[tr2 q2] c2] & Hd & [= <- -> ->]).
    destruct (IH _ _ _ Hd (Hret _)) as (tr1 & a & c3 & tr3 & [s1 H1] & H2 & ->).
    exists (ev' ++ tr1), a, c3, tr3. split_and!; [|done|by rewrite app_assoc].
    exists (Go :: s1). cbn [drive]. by rewrite Hs; cbn; rewrite H1.
  - rewrite prog_timeout_bind in Hd by done.
    apply bind_Some in Hd as (q & Hs & Hd). apply fmap_Some in Hs as (p1 & Hs & ->).
    destruct (IH _ _ _ Hd (Hret _)) as (tr1 & a & c3 & tr3 & [s1 H1] & H2 & ->).
    exists tr1, a, c3, tr3. split_and!; [|done..].
    exists (TimesOut :: s1). cbn [drive]. by rewrite Hs; cbn; rewrite H1.
  - apply bind_Some in Hd as (c1 & Hx & Hd).
    destruct (IH _ _ _ Hd (Hret _)) as (tr1 & a & c3 & tr3 & [s1 H1] & H2 & ->).
    exists tr1, a, c3, tr3. split_and!; [|done..].
    exists (Env x :: s1). cbn [drive]. by rewrite Hx; cbn; rewrite H1.
Qed.

(** The first step of a program that has one to take. *)
Lemma finishes_step {A} max (p : prog A) c tr a c' :
  (∀ a, p ≠ Ret a) → finishes max p c tr a c' →
  ∃ c1, later max c c1
    ∧ ((∃ ev p1 c2 tr2, prog_step p c1 = Some (ev, p1, c2) ∧ finishes max p1 c2 tr2 a c' ∧ tr = ev ++ tr2)
       ∨ ∃ p1, prog_timeout p = Some p1 ∧ finishes max p1 c1 tr a c').
Proof.
  intros Hne [sched Hd]. revert c Hd. induction sched as [|[| |x] sched IH]; intros c; cbn.
  - intros [= _ ->]. by destruct (Hne a).
  - intros ([[ev p1] c1] & Hs & ([[tr2 p2] c2] & Hd & [= <- -> ->])%bind_Some)%bind_Some.
    exists c. split; [done|]. left. exists ev, p1, c1, tr2. split_and!; [done|by exists sched|done].
  - intros (p1 & Hp & Hd)%bind_Some. exists c. split; [done|]. right. exists p1. split; [done|by exists sched].
  - intros (c1 & Hx & Hd)%bind_Some. destruct (IH _ Hd) as (c2 & Hl & H). exists c2. split; [|done].
    etrans; [by eapply later_step|done].
Qed.

Lemma finishes_panics {A} max c tr (a : A) c' : ¬ finishes max Panics c tr a c'.
Proof.
  intros Hf. by apply finishes_step in Hf as (c1 & _ & [(ev & p1 & c2 & tr2 & [=] & _)|(p1 & [=] & _)]).
Qed.

(* ------------------------------------------------------------------ *)
(** ** What a caller learns                                             *)
(* ------------------------------------------------------------------ *)

(** The command that waits on [rid] has been answered with a tagged [OK],
    [frame], which the server sent under that command's tag. *)
Definition answered (c : client) (rid : reply_id) (frame : bytes) : Prop :=
  sh_replies (cl_shared c) !! rid = Some (inl frame) ∧ frame ∈ g_frames c
  ∧ ∃ text, answers frame (tag_for rid) Status_Ok text.

Lemma reply_answered max c rid frame :
  reachable max c → sh_replies (cl_shared c) !! rid = Some (inl frame) → answered c rid frame.
Proof.
  intros Hc H. destruct (ow_result _ (owned_reachable _ _ Hc) _ _ H) as [(f & st & x & Hin & Ha & Hr)|[_ [e ?]]];
    [|done].
  destruct st; cbn in Hr; simplify_eq. split_and!; [done..|by exists x].
Qed.

Lemma exec_frames max a c c' : exec max a c = Some c' → ∀ f, f ∈ g_frames c → f ∈ g_frames c'.
Proof.
  destruct a; cbn [exec].
  - unfold read_step. repeat case_match; intros; by simplify_eq.
  - unfold reader_step, log_frame. destruct (cl_reader c) as [|b|route f b| |]; try done.
    + intros [= <-] f0 Hf. repeat case_match; try done. cbn. apply elem_of_app. by left.
    + by intros (sh & _ & [= <-])%bind_Some.
  - intros ([c1 r] & H & [= <-])%fmap_Some. unfold enqueue_command in H. repeat case_match; by simplify_eq.
  - intros ([c1 r] & H & [= <-])%fmap_Some. unfold send_raw in H. repeat case_match; by simplify_eq.
  - intros [= <-]. unfold cancel_enqueue. by repeat case_match.
  - unfold writer_step. repeat case_match; intros; by simplify_eq.
  - unfold write_step. repeat case_match; intros; by simplify_eq.
  - by intros ->%hang_up_ends.
  - intros ([c1 r] & H & [= <-])%fmap_Some. unfold next_frame in H. repeat case_match; by simplify_eq.
  - intros [= <-]. unfold into_reply. by repeat case_match.
  - intros [= <-]. unfold drop_stream. by case_match.
Qed.

Lemma later_answered max c c' rid frame :
  later max c c' → reachable max c → answered c rid frame → answered c' rid frame.
Proof.
  intros Hl Hc Ha. apply (later_keeps max (λ c, reachable max c ∧ answered c rid frame) c c'); [|done..].
  clear. intros a c c' [Hc (Hr & Hf & Ht)] Hx. split; [by eapply reachable_step|].
  pose proof (owned_reachable _ _ Hc) as HO. split_and!; [|by eapply exec_frames|done].
  rewrite <- Hr. eapply exec_replies_other; [|done]. apply (ow_replied _ HO rid). by exists (inl frame).
Qed.

(** [reply_rx.await]. *)
Lemma finishes_await {A} max timed rid (k : res bytes → prog A) c tr a c' :
  reachable max c → finishes max (Await timed rid k) c tr a c' →
  ∃ r c1, later max c c1 ∧ finishes max (k r) c1 tr a c' ∧ ∀ frame, r = inl frame → answered c1 rid frame.
Proof.
  intros Hc Hf. apply finishes_step in Hf as (c1 & Hl & [(ev & p1 & c2 & tr2 & Hs & Hf & ->)|(p1 & Hp & Hf)]);
    [| |done].
  - cbn [prog_step] in Hs. destruct (_ !! rid) as [r|] eqn:Hr.
    + simplify_eq. exists r, c2. split_and!; [done..|]. intros frame ->.
      eapply reply_answered; [by eapply later_reachable|done].
    + destruct (reply_dropped rid c1); simplify_eq. by exists (inr CE_ConnectionClosed), c2.
  - cbn in Hp. destruct timed; simplify_eq. by exists (inr CE_Timeout), c1.
Qed.

(** A command that is refused sends nothing; one that is accepted is a single
    line under a tag of its own. *)
Lemma finishes_enqueue {A} max cmd wants (k : _ → prog A) c tr a c' :
  reachable max c → finishes max (Enqueue cmd wants k) c tr a c' →
  ∃ r c1 tr2, later max c c1 ∧ finishes max (k r) c1 tr2 a c'
    ∧ match r with
      | inl (tag, rid, tx) => wire.reject_line_breaks cmd = inl tt ∧ tag = tag_for rid
          ∧ tr = Ev_Command rid cmd wants :: tr2 ∧ (is_Some tx ↔ is_Some wants)
          ∧ ∀ w tx', wants = Some w → tx = Some tx' → carries tx' w c1 ∧ held tx' c1 = []
      | inr e => tr = tr2 ∧ (wire.reject_line_breaks cmd = inl tt → e = CE_ConnectionClosed)
          ∧ (wire.reject_line_breaks cmd ≠ inl tt → wire.reject_line_breaks cmd = inr e)
      end.
Proof.
  intros Hc Hf. apply finishes_step in Hf as (c1 & Hl & [(ev & p1 & c2 & tr2 & Hs & Hf & ->)|(p1 & [=] & _)]);
    [|done].
  cbn [prog_step] in Hs. apply bind_Some in Hs as ([c3 r] & He & [= <- <- ->]).
  exists r, c2, tr2. split; [|split; [done|]].
  - etrans; [done|]. apply (later_step max (A_Enqueue cmd wants)). cbn. by rewrite He.
  - assert (Hc1 : reachable max c1) by by eapply later_reachable.
    pose proof (ow_counter _ (owned_reachable _ _ Hc1)) as Hcnt.
    assert (Hca : ∀ tag rid w tx', r = inl (tag, rid, Some tx') → wants = Some w →
      carries tx' w c2 ∧ held tx' c2 = []).
    { intros tag rid w tx' -> ->. assert (Hok : streams_ok c1) by by eapply streams_reachable.
      split; [by eapply carries_new|]. by eapply held_new. }
    unfold enqueue_command in He. destruct (wire.reject_line_breaks cmd) as [[]|e]; [|by simplify_eq].
    cbn [next_tag] in He. destruct (cl_writer_done c1); [by simplify_eq|].
    destruct (_ <? _)%nat; [|done]. injection He as _ <-. rewrite Hcnt in *. split_and!; try done.
    + destruct wants; cbn; split; intros [? ?]; try done; by eexists.
    + intros w tx' Hw Htx. eapply Hca; [|done]. by rewrite Htx.
Qed.

(** Every frame a task holds or hands on is one the read loop split off. *)
Record known_frames (c : client) : Prop := {
  kf_queue : ∀ tx s f, sh_streams (cl_shared c) !! tx = Some s → f ∈ s_queue s → f ∈ g_frames c;
  kf_events : ∀ f, f ∈ sh_events (cl_shared c) → f ∈ g_frames c;
  kf_delivering : ∀ route f b, cl_reader c = R_Delivering route f b → f ∈ g_frames c;
}.

Lemma known_same c c' :
  known_frames c → sh_streams (cl_shared c') = sh_streams (cl_shared c) →
  sh_events (cl_shared c') = sh_events (cl_shared c) → (∀ f, f ∈ g_frames c → f ∈ g_frames c') →
  (∀ route f b, cl_reader c' = R_Delivering route f b → f ∈ g_frames c') → known_frames c'.
Proof. intros [] Hs He Hf Hd. split; rewrite ?Hs, ?He; eauto. Qed.

Lemma known_dispatch route f b sh c :
  known_frames c → cl_reader c = R_Delivering route f b → dispatch_frame route f (cl_shared c) = Some sh →
  known_frames (with_reader (R_Parsing b, sh) c).
Proof.
  intros [Hq He Hd] Hr Hx. specialize (Hd _ _ _ Hr).
  assert (Hbr : ∀ p rs, known_frames (with_reader (R_Parsing b,
    broadcast f (mkShared p (sh_streams (cl_shared c)) rs (sh_events (cl_shared c)))) c)).
  { intros p rs. split; cbn; try done. intros f0 [?|Hin%list_elem_of_singleton]%elem_of_app; [auto|by subst]. }
  destruct route as [tag status text|tx|]; cbn [dispatch_frame complete] in Hx.
  - case_match; simplify_eq; [by split|apply Hbr].
  - destruct (sh_streams _ !! tx) as [[q cl]|] eqn:Hs; [|simplify_eq; by destruct (cl_shared c); apply Hbr].
    destruct cl; [simplify_eq; by destruct (cl_shared c); apply Hbr|]. case_match; simplify_eq.
    split; cbn; try done. intros tx' s f0 [[<- <-]|[_ Hs']]%lookup_insert_Some; [|by eapply Hq].
    cbn. intros [?|Hin%list_elem_of_singleton]%elem_of_app; [by eapply Hq|by subst].
  - simplify_eq. by destruct (cl_shared c); apply Hbr.
Qed.

Lemma known_close tx s0 q c :
  known_frames c → sh_streams (cl_shared c) !! tx = Some s0 → (∀ f, f ∈ q → f ∈ s_queue s0) →
  ∀ cl, known_frames (with_shared (set_stream tx (mkStream q cl) (cl_shared c)) c).
Proof.
  intros [Hq He Hd] Hs Hsub cl. split; cbn; try done.
  intros tx' s f [[<- <-]|[_ Hs']]%lookup_insert_Some; [|by eapply Hq]. cbn. intros ?%Hsub. by eapply Hq.
Qed.

Lemma known_broadcast q c :
  known_frames c → (∀ f, f ∈ q → f ∈ g_frames c) →
  known_frames (with_shared (foldl (λ sh f, broadcast f sh) (cl_shared c) q) c).
Proof.
  revert c. induction q as [|f q IH]; intros c Hc Hq; [by destruct Hc; split|].
  specialize (IH (with_shared (broadcast f (cl_shared c)) c)). apply IH.
  - destruct Hc as [? He ?]. split; cbn; try done. intros f0 [?|Hin%list_elem_of_singleton]%elem_of_app; [auto|].
    subst. apply Hq. by left.
  - intros f0 ?. apply Hq. by right.
Qed.

Lemma known_exec max a c c' : known_frames c → exec max a c = Some c' → known_frames c'.
Proof.
  intros Hc Hx. assert (Hf := exec_frames _ _ _ _ Hx). destruct a; cbn [exec] in Hx.
  - unfold read_step in Hx. destruct (cl_reader c) eqn:Hr; try done. simplify_eq.
    apply (known_same c); try done; destruct r as [[|x chunk]|]; done.
  - unfold reader_step in Hx. destruct (cl_reader c) as [|b|route f b| |] eqn:Hr; try done.
    + simplify_eq. pose proof (parse_step_shape max b (cl_shared c)) as Hs.
      destruct (parse_step max b (cl_shared c)) as [[] sh]; cbn in *; destr_hyps; subst;
        apply (known_same c); try done.
      intros ??? [= _ <- _]. cbn. apply elem_of_app. right. by left.
    + apply bind_Some in Hx as (sh & Hd & [= <-]). by eapply known_dispatch.
  - apply fmap_Some in Hx as ([c1 r] & He & ->). unfold enqueue_command in He.
    destruct (wire.reject_line_breaks cmd) as [[]|e]; [|by simplify_eq]. cbn [next_tag] in He.
    assert (known_frames (with_shared (mkShared (sh_pending (cl_shared c))
      (match wants with Some _ => <[cl_next_reply c := mkStream [] false]> (sh_streams (cl_shared c))
       | None => sh_streams (cl_shared c) end) (sh_replies (cl_shared c)) (sh_events (cl_shared c))) c)) as [].
    { destruct Hc as [Hq ? ?]. split; cbn; try done. destruct wants; [|done].
      intros tx s fr [[<- <-]|[_ Hs]]%lookup_insert_Some; [by intros ?%not_elem_of_nil|by eapply Hq]. }
    destruct (cl_writer_done c); [|destruct (_ <? _)%nat; [|done]]; simplify_eq; destruct wants; by split.
  - apply fmap_Some in Hx as ([c1 r] & He & ->). unfold send_raw in He. destruct Hc.
    repeat case_match; simplify_eq; by split.
  - simplify_eq. unfold cancel_enqueue. destruct Hc. repeat case_match; by split.
  - unfold writer_step in Hx. destruct Hc. repeat case_match; simplify_eq; by split.
  - unfold write_step, end_writer in Hx. destruct Hc. repeat case_match; simplify_eq; by split.
  - apply hang_up_ends in Hx as ->. unfold end_writer. destruct Hc. case_match; by split.
  - apply fmap_Some in Hx as ([c1 r] & He & ->). unfold next_frame in He.
    destruct (sh_streams _ !! tx) as [[[|f q] cl]|] eqn:Hs; [by case_match; simplify_eq| |by simplify_eq].
    simplify_eq. cbn. eapply known_close; [done..|]. by right.
  - simplify_eq. unfold into_reply. destruct (sh_streams _ !! tx) as [[q cl]|] eqn:Hs; [|done].
    assert (Hk := known_close _ _ [] _ Hc Hs ltac:(by intros ? ?%not_elem_of_nil) true).
    apply (known_broadcast q _ Hk). intros fr Hin. by eapply (kf_queue _ Hc).
  - simplify_eq. unfold drop_stream. destruct (sh_streams _ !! tx) as [s|] eqn:Hs; [|done].
    eapply known_close; [done..|]. by intros ? ?%not_elem_of_nil.
Qed.

Lemma known_reachable max c : reachable max c → known_frames c.
Proof.
  induction 1 as [|c a c' _ IH Ha]; [|by eapply known_exec].
  by split; cbn.
Qed.

(* ------------------------------------------------------------------ *)
(** ** What the waiting methods promise                                 *)
(* ------------------------------------------------------------------ *)

(** The specification of an exchange of one command: nothing is sent, or one
    line is, and success means that this very line was answered [OK]. *)
Definition exchange_ok (cmd : str) (wants : option FrameFilter) (tr : list event) (r : res bytes)
    (c' : client) : Prop :=
  (∃ e, tr = [] ∧ r = inr e ∧ (wire.reject_line_breaks cmd ≠ inl tt → wire.reject_line_breaks cmd = inr e))
  ∨ ∃ rid, tr = [Ev_Command rid cmd wants] ∧ wire.reject_line_breaks cmd = inl tt
      ∧ ∀ frame, r = inl frame → answered c' rid frame.

Lemma exchange_ok_later max cmd wants tr r c1 c2 :
  later max c1 c2 → reachable max c1 → exchange_ok cmd wants tr r c1 → exchange_ok cmd wants tr r c2.
Proof.
  intros Hl Hc [H|(rid & ? & ? & H)]; [by left|right]. exists rid. split_and!; [done..|].
  intros frame Hr. by eapply later_answered, H.
Qed.

Lemma finishes_execute_command max cmd c tr r c' :
  reachable max c → finishes max (execute_command cmd) c tr r c' → exchange_ok cmd None tr r c'.
Proof.
  intros Hc Hf. unfold execute_command, try_p, send_command_async in Hf. cbn in Hf.
  apply finishes_enqueue in Hf as (r1 & c1 & tr2 & Hl & Hf & Hr); [|done].
  destruct r1 as [[[tag rid] tx]|e]; cbn in Hf.
  - destruct Hr as (Hcmd & -> & -> & _ & _).
    apply finishes_await in Hf as (r2 & c2 & Hl2 & Hf & Hr); [|by eapply later_reachable].
    pose proof (finishes_later _ _ _ _ _ _ Hf) as Hl3. apply finishes_ret in Hf as [-> ->].
    right. exists rid. split_and!; [done..|]. intros frame ->.
    eapply later_answered; [done| |by apply Hr]. eapply later_reachable; [|done]. by etrans.
  - destruct Hr as (-> & Hce & Hre). apply finishes_ret in Hf as [-> ->]. left. by exists e.
Qed.

(** A frame the read loop split off and the filter [w] selected. *)
Definition received (w : FrameFilter) (c : client) (f : bytes) : Prop := f ∈ g_frames c ∧ accepts w f.

Lemma received_later max w c c' fs :
  later max c c' → Forall (received w c) fs → Forall (received w c') fs.
Proof.
  intros Hl. apply (later_keeps max (λ c, Forall (received w c) fs)); [|done].
  intros a c1 c2 H Hx. eapply Forall_impl; [done|]. intros f [Hf ?]. split; [|done]. by eapply exec_frames.
Qed.

Lemma received_later_1 max w c c' f : later max c c' → received w c f → received w c' f.
Proof. intros Hl Hf. by eapply Forall_singleton, received_later, Forall_singleton. Qed.

Lemma next_received max tx w c c' f :
  reachable max c → carries tx w c → next_frame tx c = Some (c', Some f) → received w c' f.
Proof.
  intros Hc Hw. unfold next_frame.
  destruct (sh_streams _ !! tx) as [[[|f' q] cl]|] eqn:Hst; [by case_match| |done].
  intros [= <- <-].
  split; [eapply (kf_queue _ (known_reachable _ _ Hc))|eapply (ca_frames _ _ _ Hw)]; [done| |done|]; by left.
Qed.

(** Distinct responses of the server that the filter accepts, in the order the
    server sent them; [Ownership.stream_of] says which ones a stream gets. *)
Definition collected (w : FrameFilter) (c : client) (fs : list bytes) : Prop :=
  Forall (received w c) fs ∧ fs `sublist_of` g_frames c.

Lemma collected_later max w c c' fs : later max c c' → collected w c fs → collected w c' fs.
Proof.
  intros Hl [Hr Hs]. split; [by eapply received_later|].
  apply (later_keeps max (λ c, fs `sublist_of` g_frames c) c c'); [|done..].
  intros a c1 c2 H (new & -> & _)%(routed_logged _ 0). by apply sublist_inserts_r.
Qed.

(** A program that has taken [acc] from [tx]. *)
Record draining (tx : stream_id) (w : FrameFilter) (c : client) (acc : list bytes) : Prop := {
  dr_carries : carries tx w c;
  dr_received : Forall (received w c) acc;
  dr_order : acc ++ held tx c `sublist_of` g_frames c;
}.

Lemma draining_exec max tx w a acc c c' :
  draining tx w c acc → exec max a c = Some c' →
  draining tx w c' acc ∧ acc ++ taken tx a c ++ held tx c' `sublist_of` g_frames c'.
Proof.
  intros [Hw Hacc Ho] Hx.
  assert (Ho' : acc ++ taken tx a c ++ held tx c' `sublist_of` g_frames c').
  { destruct (moves_exec max tx a c c') as (kept & Heq & Hk & _); [by apply (ca_open _ _ _ Hw)|done|].
    destruct (routed_logged max tx a c c' Hx) as (new & -> & Hn).
    etrans; [do 2 (apply sublist_app; [reflexivity|]); exact Hk|].
    rewrite <- Heq, app_assoc. by apply sublist_app. }
  split; [|done]. split; [by eapply carries_exec|by eapply received_later; [eapply later_step|]|].
  etrans; [|exact Ho']. apply sublist_app; [done|]. by apply sublist_inserts_l.
Qed.

Lemma draining_next max tx w acc c c' f :
  reachable max c → draining tx w c acc → next_frame tx c = Some (c', f) →
  draining tx w c' (acc ++ match f with Some f => [f] | None => [] end).
Proof.
  intros Hc Hd Hn. assert (Hx : exec max (A_Next tx) c = Some c') by (cbn; by rewrite Hn).
  destruct (draining_exec _ _ _ _ _ _ _ Hd Hx) as [[Hw Hacc Ho] Ho'].
  destruct f as [f|]; [|by rewrite app_nil_r]. split; [done| |].
  - apply Forall_app. split; [done|]. apply Forall_singleton. eapply next_received; [done| |done].
    by destruct Hd.
  - unfold taken in Ho'. rewrite Nat.eqb_refl, Hn in Ho'. by rewrite <- app_assoc.
Qed.

(** Draining a stream: every frame collected was split off by the read loop, and
    their order is that of the wire. *)
Lemma finishes_drain {A} max tx w acc (k : list bytes → bool → prog A) c tr a c' :
  reachable max c → draining tx w c acc → finishes max (Drain tx acc k) c tr a c' →
  ∃ frames expired c1, later max c c1 ∧ collected w c1 frames ∧ finishes max (k frames expired) c1 tr a c'.
Proof.
  intros Hc Hdr [sched Hd].
  assert (Hdone : ∀ acc c, draining tx w c acc → collected w c acc).
  { clear. intros acc c [_ Hr Ho]. split; [done|]. etrans; [|exact Ho]. by apply sublist_inserts_r. }
  revert acc c tr Hc Hdr Hd. induction sched as [|[| |x] sched IH]; intros acc c tr Hc Hdr; cbn [drive]; [done|..].
  - cbn [prog_step]. intros ([[ev p1] c1] & Hs & ([[tr2 p2] c2] & Hd & [= <- -> ->])%bind_Some)%bind_Some.
    apply bind_Some in Hs as ([c3 f] & Hn & [= <- <- ->]). cbn [app].
    assert (Hx : exec max (A_Next tx) c = Some c1) by (cbn; by rewrite Hn).
    pose proof (draining_next _ _ _ _ _ _ _ Hc Hdr Hn) as Hd1. destruct f as [f|].
    + destruct (IH (acc ++ [f]) c1 tr2) as (fs & b & c4 & Hl & Hfs & Hf); [by eapply reachable_step|done..|].
      exists fs, b, c4. split_and!; [|done..]. etrans; [by eapply later_step|done].
    + rewrite app_nil_r in Hd1. exists acc, false, c1.
      split_and!; [by eapply later_step|by apply Hdone|by exists sched].
  - cbn. intros Hd. exists acc, true, c. split_and!; [done|by apply Hdone|by exists sched].
  - intros (c1 & Hx & Hd)%bind_Some. destruct (draining_exec _ _ _ _ _ _ _ Hdr Hx) as [Hdr1 _].
    destruct (IH acc c1 tr) as (fs & b & c4 & Hl & Hfs & Hf); [by eapply reachable_step|done..|].
    exists fs, b, c4. split_and!; [|done..]. etrans; [by eapply later_step|done].
Qed.

(** The first frame of a stream, the end of it, or a deadline. *)
Lemma finishes_next {A} max tx w (k : next_result → prog A) c tr a c' :
  reachable max c → carries tx w c → finishes max (Next tx k) c tr a c' →
  ∃ r c1, later max c c1 ∧ finishes max (k r) c1 tr a c' ∧ ∀ f, r = NR_Frame f → received w c1 f.
Proof.
  intros Hc Hw Hf. apply finishes_step in Hf as (c1 & Hl & [(ev & p1 & c2 & tr2 & Hs & Hf & ->)|(p1 & [= <-] & Hf)]);
    [| |done].
  - cbn [prog_step] in Hs. apply bind_Some in Hs as ([c3 f] & Hn & [= <- <- ->]).
    eexists _, c2. split_and!; [|done|].
    + etrans; [done|]. apply (later_step max (A_Next tx)). cbn. by rewrite Hn.
    + intros f0. destruct f as [f|]; [intros [= ->]|done].
      eapply next_received; [by eapply later_reachable| |done].
      eapply later_keeps; [|done..]. intros. by eapply carries_exec.
  - exists NR_Timeout, c1. by split_and!.
Qed.

Lemma finishes_into_reply {A} max tx (k : prog A) c tr a c' :
  finishes max (IntoReply tx k) c tr a c' → ∃ c1, later max c c1 ∧ finishes max k c1 tr a c'.
Proof.
  intros Hf. apply finishes_step in Hf as (c1 & Hl & [(ev & p1 & c2 & tr2 & [= <- <- <-] & Hf & ->)|(p1 & [=] & _)]);
    [|done].
  exists (into_reply tx c1). split; [|done]. etrans; [done|]. by apply (later_step max (A_IntoReply tx)).
Qed.

Lemma finishes_drop_stream {A} max tx (k : prog A) c tr a c' :
  finishes max (DropStream tx k) c tr a c' → ∃ c1, later max c c1 ∧ finishes max k c1 tr a c'.
Proof.
  intros Hf. apply finishes_step in Hf as (c1 & Hl & [(ev & p1 & c2 & tr2 & [= <- <- <-] & Hf & ->)|(p1 & [=] & _)]);
    [|done].
  exists (drop_stream tx c1). split; [|done]. etrans; [done|]. by apply (later_step max (A_DropStream tx)).
Qed.

Lemma finishes_execute_streaming max cmd wants c tr r frames c' :
  reachable max c → finishes max (execute_streaming cmd wants) c tr (r, frames) c' →
  exchange_ok cmd (Some wants) tr r c' ∧ collected wants c' frames.
Proof.
  intros Hc Hf. unfold execute_streaming, send_command_streaming in Hf. cbn in Hf.
  apply finishes_enqueue in Hf as (r1 & c1 & tr2 & Hl & Hf & Hr); [|done].
  assert (Hc1 : reachable max c1) by by eapply later_reachable.
  destruct r1 as [[[tag rid] tx]|e].
  - destruct Hr as (Hcmd & -> & -> & Htx & Hca). destruct tx as [tx|]; [|by destruct Htx as [_ [? ?]]; [by eexists|]].
    cbn in Hf. apply (finishes_drain _ _ wants) in Hf as (fs & expired & c2 & Hl2 & Hfs & Hf);
      [|done|destruct (Hca _ _ eq_refl eq_refl) as [? Hh]; split; [done|constructor|rewrite Hh; apply sublist_nil_l]].
    assert (Hc2 : reachable max c2) by by eapply later_reachable. destruct expired.
    + apply finishes_drop_stream in Hf as (c3 & Hl3 & Hf). pose proof (finishes_later _ _ _ _ _ _ Hf) as Hl4.
      apply finishes_ret in Hf as [-> [= -> ->]]. split; [right; by exists rid|].
      eapply collected_later; [|done]. by etrans.
    + apply finishes_into_reply in Hf as (c3 & Hl3 & Hf).
      assert (Hc3 : reachable max c3) by by eapply later_reachable.
      apply finishes_await in Hf as (r2 & c4 & Hl4 & Hf & Hr); [|done].
      pose proof (finishes_later _ _ _ _ _ _ Hf) as Hl5. apply finishes_ret in Hf as [-> [= -> ->]].
      split.
      * right. exists rid. split_and!; [done..|]. intros frame ->.
        eapply later_answered; [done| |by apply Hr]. by eapply later_reachable.
      * eapply collected_later; [|done]. by repeat (etrans; [done|]).
  - destruct Hr as (-> & Hce & Hre). cbn in Hf. apply finishes_ret in Hf as [-> [= -> ->]].
    split; [left; by exists e|]. split; [constructor|apply sublist_nil_l].
Qed.
