(* ===== verification/Ownership.v ===== *)
(** What a command's stream is to the program that reads it: its own. The
    history the read loop keeps says which frames the stream of a command
    gets; a program that is left alone with its stream receives exactly these. *)

From S2P Require Import Prelude Str Ast Monad ResponseParser ParserSafety ParserStream.
From S2P Require Import ParserLocal ParserTheorems Framing ClientError Flags Wire Client ClientFraming.
From S2P Require Import ClientReplies ClientStreams ClientOrder Program.
From stdpp Require Import options.

(* ------------------------------------------------------------------ *)
(** ** Schedules                                                        *)
(* ------------------------------------------------------------------ *)

(** The stream a program reads from. *)
Definition reads_from {A} (p : prog A) : option stream_id :=
  match p with Next tx _ | Drain tx _ _ => Some tx | _ => None end.

Definition apart (tx tx' : option stream_id) : Prop := ∀ t, tx = Some t → tx' ≠ Some t.

#[export] Instance apart_dec tx tx' : Decision (apart tx tx').
Proof.
  destruct tx as [t|]; [|by left]. destruct (decide (tx' = Some t)) as [H|H].
  - right. intros Ha. by apply (Ha t).
  - left. by intros ? [= <-].
Defined.

(** A stream belongs to the program that reads it: no one else takes from it
    meanwhile. *)
Fixpoint undisturbed {A} (max : Z) (sched : list choice) (p : prog A) (c : client) : Prop :=
  match sched with
  | [] => True
  | Go :: sched =>
    match prog_step p c with Some (_, p1, c1) => undisturbed max sched p1 c1 | None => True end
  | TimesOut :: sched =>
    match prog_timeout p with Some p1 => undisturbed max sched p1 c | None => True end
  | Env a :: sched =>
    apart (reads_from p) (takes_from a)
    ∧ match exec max a c with Some c1 => undisturbed max sched p c1 | None => True end
  end.

(* ------------------------------------------------------------------ *)
(** ** Whose frame it is                                                *)
(* ------------------------------------------------------------------ *)

(** A response with a tag ends a command; it is on no stream. *)
Definition is_tagged (response : Response) : bool :=
  match response with Resp_Status (mkStatusResponse (Some _) _ _ _) => true | _ => false end.

(** The streams that ask for [response] and can still be read, the command
    that was registered first in front. *)
Definition asking (sh : shared) (response : Response) : list stream_id :=
  c_tx <$> filter (λ col, is_closed sh (c_tx col) = false ∧ c_wants col response = true)
    (p_collectors (sh_pending sh)).

(** The command whose stream gets the frame [f] that arrives when [sh] is shared. *)
Definition frame_owner (sh : shared) (f : bytes) : option reply_id :=
  match parse_response f with
  | Parsed [] response => if is_tagged response then None else head (asking sh response)
  | _ => None
  end.

Definition frames_for (rid : reply_id) (log : list (shared * bytes)) : list bytes :=
  snd <$> filter (λ e, frame_owner e.1 e.2 = Some rid) log.

(** The frames of the command of [rid]: all that arrived for it, in the order of
    the wire. *)
Definition stream_of (rid : reply_id) (c : client) : list bytes := frames_for rid (g_log c).

Lemma frames_for_app rid l1 l2 : frames_for rid (l1 ++ l2) = frames_for rid l1 ++ frames_for rid l2.
Proof. unfold frames_for. by rewrite filter_app, fmap_app. Qed.

(** Its owner asked for it. *)
Lemma frame_owner_asked sh f rid :
  frame_owner sh f = Some rid → ∃ col, col ∈ p_collectors (sh_pending sh) ∧ c_tx col = rid ∧ accepts (c_wants col) f.
Proof.
  unfold frame_owner, asking. destruct (parse_response f) as [[] r|e| |] eqn:Hp; try done.
  destruct (is_tagged r); [done|]. intros Ho%head_Some_elem_of.
  apply list_elem_of_fmap in Ho as (col & -> & Hin). apply list_elem_of_filter in Hin as [[_ Hw] Hin].
  exists col. split_and!; [done..|]. by exists r.
Qed.

(** The one stream that asks for a response gets it. *)
Lemma frame_owner_one sh f r col :
  parse_response f = Parsed [] r → is_tagged r = false → col ∈ p_collectors (sh_pending sh) →
  is_closed sh (c_tx col) = false → c_wants col r = true →
  (∀ col', col' ∈ p_collectors (sh_pending sh) → c_tx col' ≠ c_tx col → c_wants col' r = false) →
  frame_owner sh f = Some (c_tx col).
Proof.
  intros Hp Ht Hin Hc Hw Hother. unfold frame_owner. rewrite Hp, Ht. unfold asking.
  destruct (filter (λ col, is_closed sh (c_tx col) = false ∧ c_wants col r = true)
    (p_collectors (sh_pending sh))) as [|col' cols] eqn:Hf.
  - exfalso. eapply filter_nil_not_elem_of; [exact Hf| |exact Hin]. done.
  - assert (Hin' : col' ∈ col' :: cols) by left. rewrite <- Hf in Hin'.
    apply list_elem_of_filter in Hin' as [[_ Hw'] Hin']. cbn. f_equal.
    destruct (decide (c_tx col' = c_tx col)); [done|]. by rewrite Hother in Hw'.
Qed.

(** No frame goes to a stream that has no collector. *)
Lemma frames_for_none rid log :
  Forall (λ e, rid ∉ c_tx <$> p_collectors (sh_pending e.1)) log → frames_for rid log = [].
Proof.
  induction 1 as [|[sh f] log Hn _ IH]; [done|]. unfold frames_for in *. rewrite filter_cons.
  case_decide as Ho; [|done]. destruct Hn. destruct (frame_owner_asked _ _ _ Ho) as (col & Hin & <- & _).
  by apply list_elem_of_fmap_2.
Qed.

(** The read loop finds the same. *)
Lemma find_collector_asking sh cs response :
  find_collector sh cs response
  = head (c_tx <$> filter (λ col, is_closed sh (c_tx col) = false ∧ c_wants col response = true) cs).
Proof.
  induction cs as [|col cs IH]; [done|]. cbn [find_collector]. rewrite filter_cons, IH.
  destruct (is_closed sh (c_tx col)), (c_wants col response); cbn; case_decide as Hd; cbn;
    first [done | by destruct Hd | by destruct (Hd (conj eq_refl eq_refl))].
Qed.

Lemma route_owner sh b rest response :
  parse_response b = Parsed rest response →
  frame_owner sh (take (length b - length rest) b)
  = match route_for response sh with Route_Stream tx => Some tx | _ => None end.
Proof.
  intros [_ Hp]%(parsed_frame (parse := parse_response)). unfold frame_owner, asking. rewrite Hp.
  rewrite <- find_collector_asking. unfold route_for, collector_for.
  destruct response as [[[t|] s code x]| |]; cbn [is_tagged]; try done; by destruct (find_collector _ _ _).
Qed.

Lemma log_parse max b c :
  cl_reader c = R_Parsing b →
  ∃ new, g_log (log_frame (with_reader (parse_step max b (cl_shared c)) c)) = g_log c ++ new
    ∧ g_frames (log_frame (with_reader (parse_step max b (cl_shared c)) c)) = g_frames c ++ (snd <$> new)
    ∧ Forall (λ e, e.1 = cl_shared c) new ∧ ∀ tx, routed tx A_Reader c = frames_for tx new.
Proof.
  intros Hr. unfold parse_step, log_frame, routed. rewrite Hr. destruct b as [|x b].
  { exists []. unfold end_of_frames. rewrite !app_nil_r.
    destruct (parse_response []) eqn:Hp; [by apply parse_nothing in Hp|by destruct (max <? _)..]. }
  destruct (parse_response (x :: b)) as [rest r|e| |] eqn:Hp; cbn [with_reader cl_reader fst g_log].
  - eexists. split; [done|]. split; [done|]. split; [by repeat constructor|]. intros tx. unfold frames_for. rewrite filter_cons.
    cbn [fst snd]. pose proof (route_owner (cl_shared c) _ _ _ Hp) as Ho. cbn [with_reader cl_shared snd] in *.
    rewrite Ho. destruct (route_for r (cl_shared c)) as [|tx'|]; try done.
    destruct (Nat.eqb_spec tx' tx) as [->|Hne]; case_decide; try done; naive_solver.
  - exists []. rewrite !app_nil_r. destruct e; try done. unfold end_of_frames. by destruct (max <? _).
  - exists []. by rewrite !app_nil_r.
  - exists []. by rewrite !app_nil_r.
Qed.

Section run.
Context (max : Z).

(* ------------------------------------------------------------------ *)
(** ** Commands and their streams                                       *)
(* ------------------------------------------------------------------ *)

(** What a step does to the commands that are queued or wait. *)
Record commands_step (c c' : client) : Prop := {
  cs_next : (cl_next_reply c ≤ cl_next_reply c')%nat;
  cs_queue : ∀ bs tag rid col, WR_Command bs tag rid col ∈ cl_queue c' →
    WR_Command bs tag rid col ∈ cl_queue c ∨ rid = cl_next_reply c;
  cs_pending : ∀ tag rid, p_replies (sh_pending (cl_shared c')) !! tag = Some rid →
    (p_replies (sh_pending (cl_shared c)) !! tag = Some rid
     ∧ ∀ w tx, mkCollector tag w tx ∈ p_collectors (sh_pending (cl_shared c)) →
         mkCollector tag w tx ∈ p_collectors (sh_pending (cl_shared c')))
    ∨ ∃ bs col, WR_Command bs tag rid col ∈ cl_queue c
        ∧ ∀ w tx, col = Some (w, tx) → mkCollector tag w tx ∈ p_collectors (sh_pending (cl_shared c'));
}.

Lemma commands_same c c' :
  (cl_next_reply c ≤ cl_next_reply c')%nat →
  (∀ bs tag rid col, WR_Command bs tag rid col ∈ cl_queue c' →
     WR_Command bs tag rid col ∈ cl_queue c ∨ rid = cl_next_reply c) →
  sh_pending (cl_shared c') = sh_pending (cl_shared c) → commands_step c c'.
Proof. intros ? ? Hp. split; [done..|]. rewrite Hp. by left. Qed.

Lemma commands_fail e c : commands_step c (with_reader (R_Stopped, fail_all_pending e (cl_shared c)) c).
Proof. split; [done|by left|]. cbn. intros tag rid. by rewrite lookup_empty. Qed.

Lemma commands_deliver route frame b sh c :
  dispatch_frame route frame (cl_shared c) = Some sh →
  commands_step c (with_reader (R_Parsing b, sh) c).
Proof.
  intros Hd. assert (sh_pending sh = sh_pending (cl_shared c)
    ∨ ∃ tag, sh_pending sh = snd (complete (sh_pending (cl_shared c)) tag)) as [Hp|[tag0 Hp]].
  { destruct route as [tag status text|tx|]; cbn [dispatch_frame] in Hd.
    - right. exists tag. cbn in Hd. by case_match; simplify_eq.
    - left. by repeat case_match; simplify_eq.
    - left. by simplify_eq. }
  - apply commands_same; [done|by left|done].
  - split; [done|by left|]. cbn. rewrite Hp. cbn. intros tag rid [Hne H]%lookup_delete_Some. left. split; [done|].
    intros w tx Hin. apply list_elem_of_filter. split; [by apply not_eq_sym|done].
Qed.

Lemma commands_writer c c' : writer_step c = Some c' → commands_step c c'.
Proof.
  unfold writer_step. destruct (cl_writer c); [|done..]. destruct (cl_queue c) as [|req q] eqn:Hq; [done|].
  intros [= <-]. split; cbn; [done| |].
  - intros * H. left. rewrite Hq. by right.
  - intros tag rid. rewrite Hq. destruct req as [bs tag0 rid0 col0|bs]; cbn; [|by left].
    intros [[<- <-]|[_ H]]%lookup_insert_Some.
    + right. exists bs, col0. split; [by left|]. intros w tx ->. apply elem_of_app. right. by left.
    + left. split; [done|]. intros w tx Hin. destruct col0 as [[]|]; [apply elem_of_app; by left|done].
Qed.

Lemma commands_end c : commands_step c (end_writer c).
Proof.
  split; [done|by intros * ?%not_elem_of_nil|]. intros tag rid.
  assert (sh_pending (cl_shared (end_writer c)) = sh_pending (cl_shared c)
    ∨ sh_pending (cl_shared (end_writer c)) = pending_default) as [->| ->]
    by (unfold end_writer; destruct (cl_reader c); auto); [by left|].
  cbn. by rewrite lookup_empty.
Qed.

Lemma commands_write r c c' : write_step r c = Some c' → commands_step c c'.
Proof.
  unfold write_step. destruct (cl_writer c); [done| |done].
  destruct r as [[|n]|]; intros [= <-]; [apply commands_end| |apply commands_end]. by apply commands_same; [|left|].
Qed.

Lemma commands_parse b c :
  commands_step c (log_frame (with_reader (parse_step max b (cl_shared c)) c)).
Proof.
  assert (Hlog : ∀ c', commands_step c c' → commands_step c (log_frame c'))
    by (intros c' []; unfold log_frame; destruct (cl_reader c'); by split).
  apply Hlog. assert (Hend : commands_step c (with_reader (end_of_frames max b (cl_shared c)) c)).
  { unfold end_of_frames. case_match; [apply commands_fail|by apply commands_same; [done|left|]]. }
  destruct b as [|x b]; [done|]. cbn [parse_step].
  destruct (parse_response (x :: b)) as [rest r|e| |]; [| |by apply commands_same; [done|left|]..].
  - by apply commands_same; [done|left|].
  - destruct e; try done; apply commands_fail.
Qed.

Lemma commands_exec a c c' : exec max a c = Some c' → commands_step c c'.
Proof.
  assert (Hquiet : ∀ c', cl_next_reply c' = cl_next_reply c → cl_queue c' = cl_queue c →
    sh_pending (cl_shared c') = sh_pending (cl_shared c) → commands_step c c').
  { intros c1 Hn Hq Hp. apply commands_same; [by rewrite Hn|rewrite Hq; by left|done]. }
  destruct a; cbn [exec].
  - unfold read_step. destruct (cl_reader c) as [b| | | |]; try done. intros [= <-].
    assert (commands_step c (with_reader (on_read r b (cl_shared c)) c)) as H'
      by (destruct r as [[|x chunk]|]; [apply commands_fail|by apply Hquiet|apply commands_fail]).
    destruct r; [|done]. destruct H'. by split.
  - unfold reader_step. destruct (cl_reader c) as [|b|route f b| |]; try done.
    + intros [= <-]. apply commands_parse.
    + intros (sh & Hd & [= <-])%bind_Some. by eapply commands_deliver.
  - intros ([c1 r] & H & [= <-])%fmap_Some. unfold enqueue_command in H.
    destruct (wire.reject_line_breaks cmd) as [[]|e]; [|simplify_eq; by apply Hquiet].
    destruct (next_tag (cl_tag_counter c)) as [tag n].
    destruct (cl_writer_done c); [|destruct (_ <? _)%nat; [|done]]; injection H as <- _; apply commands_same;
      try done; cbn [cl_next_reply cl_queue]; try apply Nat.le_succ_diag_r; [by left|].
    intros * [H|H]%elem_of_app; [by left|]. right. by apply list_elem_of_singleton in H as [= _ _ -> _].
  - intros ([c1 r] & H & [= <-])%fmap_Some. unfold send_raw in H.
    destruct (cl_writer_done c); [|destruct (_ <? _)%nat; [|done]]; simplify_eq; [by apply Hquiet|].
    apply commands_same; cbn; [done| |done]. intros * [H|H]%elem_of_app; [by left|].
    by apply list_elem_of_singleton in H.
  - intros [= <-]. unfold cancel_enqueue. destruct (wire.reject_line_breaks cmd) as [[]|e]; [|by apply Hquiet].
    destruct (next_tag (cl_tag_counter c)) as [tag n].
    apply commands_same; [cbn [cl_next_reply]; apply Nat.le_succ_diag_r|by left|done].
  - apply commands_writer.
  - apply commands_write.
  - intros ->%hang_up_ends. apply commands_end.
  - intros ([c1 r] & H & [= <-])%fmap_Some. unfold next_frame in H.
    repeat case_match; simplify_eq; by apply Hquiet.
  - intros [= <-]. destruct (into_reply_only tx c) as (_ & Hq & Hp & _). apply Hquiet; [|done..].
    unfold into_reply. by repeat case_match.
  - intros [= <-]. unfold drop_stream. case_match; by apply Hquiet.
Qed.

(** No one will answer [rid] any more. *)
Record over (rid : reply_id) (c : client) : Prop := {
  ov_next : (rid < cl_next_reply c)%nat;
  ov_queue : ∀ bs tag col, WR_Command bs tag rid col ∉ cl_queue c;
  ov_pending : ∀ tag, p_replies (sh_pending (cl_shared c)) !! tag ≠ Some rid;
}.

Lemma over_step rid c c' : over rid c → commands_step c c' → over rid c'.
Proof.
  intros [Hlt Hq Hp] [Hn Hq' Hp']. split; [lia| |].
  - intros bs tag col [H|H]%Hq'; [by apply Hq in H|lia].
  - intros tag [[H _]|(bs & col & H & _)]%Hp'; [by apply Hp in H|by apply Hq in H].
Qed.

Lemma over_dropped rid c : over rid c → reply_dropped rid c = true.
Proof.
  intros [_ Hq Hp]. unfold reply_dropped. apply andb_true_iff. split.
  - apply negb_true_iff, not_true_iff_false. rewrite existsb_exists. intros (r & Hr & ->%Nat.eqb_eq).
    apply list_elem_of_In, elem_of_queued in Hr as (bs & tag & col & Hin). by apply Hq in Hin.
  - apply bool_decide_eq_true. intros tag r Hr ->. by apply (Hp tag).
Qed.

(** The command of [rid], queued or waiting, has the stream [tx], opened with
    the filter [w]. *)
Record attached (rid : reply_id) (w : FrameFilter) (tx : stream_id) (c : client) : Prop := {
  at_next : (rid < cl_next_reply c)%nat;
  at_queue : ∀ bs tag col, WR_Command bs tag rid col ∈ cl_queue c → col = Some (w, tx);
  at_pending : ∀ tag, p_replies (sh_pending (cl_shared c)) !! tag = Some rid →
    mkCollector tag w tx ∈ p_collectors (sh_pending (cl_shared c));
}.

Lemma attached_step rid w tx c c' : attached rid w tx c → commands_step c c' → attached rid w tx c'.
Proof.
  intros [Hlt Hq Hp] [Hn Hq' Hp']. split; [lia| |].
  - intros bs tag col [H|H]%Hq'; [by apply Hq in H|lia].
  - intros tag [[H Hc]|(bs & col & H & Hc)]%Hp'.
    + by apply Hc, Hp.
    + by apply Hc, (Hq _ _ _ H).
Qed.

(** When an open stream has ended, its command is over. *)
Lemma attached_end rid w tx c c' :
  attached rid w tx c → open tx c → next_frame tx c = Some (c', None) → c' = c ∧ over rid c.
Proof.
  intros [Hlt Hq Hp] [q Ho]. unfold next_frame. rewrite Ho. destruct q; [|done].
  destruct (has_sender tx c) eqn:Hs; [done|]. intros [= <-]. split; [done|].
  rewrite <- not_true_iff_false, has_sender_true in Hs. split; [done| |].
  - intros bs tag col Hin. pose proof (Hq _ _ _ Hin) as ->. apply Hs. left. unfold claimed.
    apply elem_of_app. right. apply list_elem_of_omap. by exists (WR_Command bs tag rid (Some (w, tx))).
  - intros tag H. pose proof (Hp _ H) as Hin. apply Hs. left. unfold claimed.
    apply elem_of_app. left. apply list_elem_of_fmap. by exists (mkCollector tag w tx).
Qed.

(** [c'] comes after [c], and the stream was left to its reader. *)
Definition later_apart (tx : stream_id) (c c' : client) : Prop :=
  ∃ acts, Forall (λ a, apart (Some tx) (takes_from a)) acts ∧ run max acts c = Some c'.

Lemma later_apart_refl tx c : later_apart tx c c.
Proof. exists []. split; [constructor|done]. Qed.

Lemma later_apart_step tx a c c1 c2 :
  apart (Some tx) (takes_from a) → exec max a c = Some c1 → later_apart tx c1 c2 → later_apart tx c c2.
Proof. intros Ha Hx (acts & Hf & Hr). exists (a :: acts). split; [by constructor|]. cbn. by rewrite Hx. Qed.

Lemma later_apart_later tx c c' : later_apart tx c c' → later max c c'.
Proof. intros (acts & _ & Hr). by exists acts. Qed.

Lemma attached_later rid w tx c c' : later_apart tx c c' → attached rid w tx c → open tx c → attached rid w tx c' ∧ open tx c'.
Proof.
  intros (acts & Hf & Hr). revert c Hr. induction Hf as [|a acts Ha _ IH]; intros c; cbn; [by intros [= ->]|].
  intros (c1 & Hx & Hr)%bind_Some Hat Ho. apply (IH c1 Hr).
  - eapply attached_step; [done|by eapply commands_exec].
  - eapply open_exec; [done..|]. intros [-> | ->]; by apply (Ha tx).
Qed.

Lemma over_later rid c c' : later max c c' → over rid c → over rid c'.
Proof. apply later_keeps. intros a c1 c2 Ho Hx. eapply over_step; [done|by eapply commands_exec]. Qed.

(** A command accepted with a stream. *)
Lemma attached_new w cmd c c' tag rid tx :
  reachable max c → enqueue_command cmd (Some w) c = Some (c', inl (tag, rid, Some tx)) →
  attached rid w tx c' ∧ open tx c'.
Proof.
  intros Hc%owned_reachable. unfold enqueue_command.
  destruct (wire.reject_line_breaks cmd) as [[]|e]; [|done].
  destruct (next_tag (cl_tag_counter c)) as [t n].
  destruct (cl_writer_done c); [done|destruct (_ <? _)%nat; [|done]].
  cbn [fmap option_fmap option_map snd]. intros [= <- <- <- <-]. split.
  - split; cbn; [apply Nat.lt_succ_diag_r| |].
    + intros bs tag col [H|H]%elem_of_app.
      * apply (ow_queue _ Hc) in H as [_ H]. by apply Nat.lt_irrefl in H.
      * apply list_elem_of_singleton in H as [= _ _ ->]. done.
    + intros tag H. apply (ow_pending _ Hc) in H as (_ & H & _). by apply Nat.lt_irrefl in H.
  - exists []. cbn. apply lookup_insert_eq.
Qed.

(** The stream of a command goes by the name of its reply. *)
Lemma stream_named w cmd c c' tag rid tx :
  enqueue_command cmd (Some w) c = Some (c', inl (tag, rid, Some tx)) → tx = rid ∧ rid = cl_next_reply c.
Proof.
  unfold enqueue_command. destruct (wire.reject_line_breaks cmd) as [[]|e]; [|done].
  destruct (next_tag (cl_tag_counter c)) as [t n].
  destruct (cl_writer_done c); [done|destruct (_ <? _)%nat; [|done]]. by intros [= _ _ <- <-].
Qed.

(* ------------------------------------------------------------------ *)
(** ** The frames of a command                                          *)
(* ------------------------------------------------------------------ *)

(** A step adds to the history what it splits off, with what was shared then. *)
Lemma log_exec a c c' :
  exec max a c = Some c' →
  ∃ new, g_log c' = g_log c ++ new ∧ g_frames c' = g_frames c ++ (snd <$> new)
    ∧ Forall (λ e, e.1 = cl_shared c) new ∧ ∀ tx, routed tx a c = frames_for tx new.
Proof.
  assert (Hnone : g_log c' = g_log c ∧ g_frames c' = g_frames c → (∀ tx, routed tx a c = []) →
    ∃ new, g_log c' = g_log c ++ new ∧ g_frames c' = g_frames c ++ (snd <$> new)
      ∧ Forall (λ e, e.1 = cl_shared c) new ∧ ∀ tx, routed tx a c = frames_for tx new).
  { intros [-> ->] Hr. exists []. by rewrite !app_nil_r. }
  destruct a; cbn [exec].
  - unfold read_step. destruct (cl_reader c) as [b| | | |]; try done. intros [= <-]. by apply Hnone; destruct r.
  - unfold reader_step. destruct (cl_reader c) as [|b|route f b| |] eqn:Hr; try done.
    + intros [= <-]. by apply log_parse.
    + intros (sh & _ & [= <-])%bind_Some. apply Hnone; [done|]. intros tx. unfold routed. by rewrite Hr.
  - intros ([c1 r] & H & [= <-])%fmap_Some. apply Hnone; [|done]. unfold enqueue_command in H.
    by repeat case_match; simplify_eq.
  - intros ([c1 r] & H & [= <-])%fmap_Some. apply Hnone; [|done]. unfold send_raw in H.
    by repeat case_match; simplify_eq.
  - intros [= <-]. apply Hnone; [|done]. unfold cancel_enqueue. by repeat case_match.
  - intros H. apply Hnone; [|done]. unfold writer_step in H. by repeat case_match; simplify_eq.
  - intros H. apply Hnone; [|done]. unfold write_step in H. by repeat case_match; simplify_eq.
  - intros ->%hang_up_ends. by apply Hnone.
  - intros ([c1 r] & H & [= <-])%fmap_Some. apply Hnone; [|done]. unfold next_frame in H.
    by repeat case_match; simplify_eq.
  - intros [= <-]. apply Hnone; [|done]. unfold into_reply. by repeat case_match.
  - intros [= <-]. apply Hnone; [|done]. unfold drop_stream. by case_match.
Qed.

(** The history speaks of commands that exist, and holds the frames split off. *)
Definition known_to (c : client) (sh : shared) : Prop :=
  (∀ tag rid, p_replies (sh_pending sh) !! tag = Some rid → (rid < cl_next_reply c)%nat)
  ∧ ∀ tx, tx ∈ c_tx <$> p_collectors (sh_pending sh) → (tx < cl_next_reply c)%nat.

Lemma log_reachable c :
  reachable max c → Forall (λ e, known_to c e.1) (g_log c) ∧ g_frames c = snd <$> g_log c.
Proof.
  induction 1 as [|c a c' Hc [IHk IHf] Hx]; [by split; [constructor|]|].
  destruct (log_exec _ _ _ Hx) as (new & -> & -> & Hnew & _). pose proof (cs_next _ _ (commands_exec _ _ _ Hx)) as Hn.
  split.
  - apply Forall_app. split.
    + eapply Forall_impl; [done|]. intros e [Hr Ht]. split; [intros tag rid ?%Hr; lia|intros tx ?%Ht; lia].
    + eapply Forall_impl; [done|]. intros e ->. split.
      * intros tag rid H. apply (ow_pending _ (owned_reachable _ _ Hc)) in H as (_ & ? & _). lia.
      * intros tx H. assert (tx < cl_next_reply c)%nat; [|lia].
        apply (so_claimed _ (streams_reachable _ _ Hc)), elem_of_app. by left.
  - by rewrite fmap_app, IHf.
Qed.

(** The command of [rid] waits for its answer. *)
Definition is_waiting (rid : reply_id) (sh : shared) : Prop := ∃ tag, p_replies (sh_pending sh) !! tag = Some rid.

(** Whenever a frame arrived while the command of [rid] waited, its stream was
    open and registered with the filter [w]; and what it got [w] accepts. *)
Definition served (rid : reply_id) (w : FrameFilter) (c : client) : Prop :=
  Forall (λ e,
    (is_waiting rid e.1 → is_closed e.1 rid = false ∧ ∃ tag, mkCollector tag w rid ∈ p_collectors (sh_pending e.1))
    ∧ (frame_owner e.1 e.2 = Some rid → accepts w e.2)) (g_log c).

Lemma served_exec rid w a c c' :
  served rid w c →
  (attached rid w rid c ∧ open rid c ∧ carries rid w c ∨ over rid c ∧ has_sender rid c = false) →
  exec max a c = Some c' → served rid w c'.
Proof.
  intros Hs Hc Hx. destruct (log_exec _ _ _ Hx) as (new & Hl & _ & Hnew & _). unfold served. rewrite Hl.
  apply Forall_app. split; [done|]. eapply Forall_impl; [done|]. intros [sh f] ->. split.
  - intros [tag Hw]. destruct Hc as [(Ha & [q Ho] & _)|[Hov _]]; [|by apply (ov_pending _ _ Hov) in Hw].
    split; [unfold is_closed; by rewrite Ho|]. exists tag. by eapply at_pending.
  - intros (col & Hin & Htx & Hacc)%frame_owner_asked. destruct Hc as [(_ & _ & Hca)|[_ Hn]].
    + by rewrite <- (ca_collectors _ _ _ Hca _ Hin Htx).
    + apply not_true_iff_false in Hn. destruct Hn. apply has_sender_true. left. apply elem_of_app. left.
      rewrite <- Htx. by apply list_elem_of_fmap_2.
Qed.

(** The program has taken [acc] from the stream of its command. *)
Record owns (rid : reply_id) (w : FrameFilter) (c : client) (acc : list bytes) : Prop := {
  os_attached : attached rid w rid c;
  os_open : open rid c;
  os_carries : carries rid w c;
  os_served : served rid w c;
  os_exact : acc ++ held rid c = stream_of rid c;
}.

Lemma owns_exec rid w a acc c c' :
  owns rid w c acc → exec max a c = Some c' → ¬ lets_go rid a → owns rid w c' (acc ++ taken rid a c).
Proof.
  intros [Ha Ho Hw Hs He] Hx Hn. split.
  - eapply attached_step; [done|by eapply commands_exec].
  - by eapply open_exec.
  - by eapply carries_exec.
  - eapply served_exec; [done|by left|done].
  - destruct (log_exec _ _ _ Hx) as (new & Hl & _ & _ & Hr). unfold stream_of in *. rewrite Hl, frames_for_app, <- Hr, <- He.
    destruct (moves_exec max rid a c c') as (kept & Heq & _ & Hk); [by apply (ca_open _ _ _ Hw)|done|].
    rewrite (Hk Ho Hn), <- !app_assoc. by rewrite Heq.
Qed.

(** The command of [rid] is over, and [frames] is all that its stream got. *)
Record drained (rid : reply_id) (w : FrameFilter) (c : client) (frames : list bytes) : Prop := {
  se_over : over rid c;
  se_orphan : has_sender rid c = false;
  se_served : served rid w c;
  se_exact : stream_of rid c = frames;
}.

Lemma drained_exec rid w a frames c c' :
  drained rid w c frames → exec max a c = Some c' → drained rid w c' frames.
Proof.
  intros [Ho Hn Hs He] Hx. destruct (exec_stream_step _ _ _ _ Hx) as [fresh Hst]. split.
  - eapply over_step; [done|by eapply commands_exec].
  - eapply orphan_step; [done|by apply ov_next|done].
  - eapply served_exec; [done|by right|done].
  - destruct (log_exec _ _ _ Hx) as (new & Hl & _ & Hnew & _). unfold stream_of in *.
    rewrite Hl, frames_for_app, (frames_for_none rid new), app_nil_r; [done|].
    eapply Forall_impl; [done|]. intros e -> Hin. apply not_true_iff_false in Hn. apply Hn, has_sender_true.
    left. apply elem_of_app. by left.
Qed.

Lemma drained_later rid w frames c c' : later max c c' → drained rid w c frames → drained rid w c' frames.
Proof. apply (later_keeps max (λ c, drained rid w c frames)). intros. by eapply drained_exec. Qed.

(** Its reader finds the end. *)
Lemma owns_end rid w acc c c' :
  owns rid w c acc → next_frame rid c = Some (c', None) → drained rid w c' acc.
Proof.
  intros [Ha Ho Hw Hs He] Hn. destruct (attached_end _ _ _ _ _ Ha Ho Hn) as [-> Hov].
  split; [done| |done|].
  - destruct Ho as [q Ho]. unfold next_frame in Hn. rewrite Ho in Hn. destruct q; [|done].
    by destruct (has_sender rid c).
  - by rewrite <- He, (next_end_held _ _ _ Ho Hn), app_nil_r.
Qed.

(** A command that has just been accepted. *)
Lemma owns_new w cmd c c' tag rid tx :
  reachable max c → enqueue_command cmd (Some w) c = Some (c', inl (tag, rid, Some tx)) →
  tx = rid ∧ owns rid w c' [].
Proof.
  intros Hc He. destruct (stream_named _ _ _ _ _ _ _ He) as [-> Hrid]. split; [done|].
  pose proof (streams_reachable _ _ Hc) as Hok. destruct (attached_new _ _ _ _ _ _ _ Hc He) as [Ha Ho].
  destruct (log_reachable _ Hc) as [Hlog _].
  assert (Hl : g_log c' = g_log c).
  { unfold enqueue_command in He. by repeat case_match; simplify_eq. }
  split; [done..|by eapply carries_new| |].
  - unfold served. rewrite Hl. eapply Forall_impl; [done|]. intros [sh f] [Hp Ht]. split.
    + intros [tg Hw%Hp]. cbn in *. lia.
    + intros (col & Hin & Htx & _)%frame_owner_asked. assert (c_tx col < cl_next_reply c)%nat; [|lia].
      by apply Ht, list_elem_of_fmap_2.
  - destruct (held_new _ _ _ _ _ _ _ Hok He) as [-> _]. unfold stream_of. rewrite Hl, frames_for_none; [done|].
    eapply Forall_impl; [done|]. intros e [_ Ht] Hin%Ht. lia.
Qed.

(* ------------------------------------------------------------------ *)
(** ** Runs of a program that is left its streams                       *)
(* ------------------------------------------------------------------ *)

(** [p] sends [tr] and returns [a], and no one else took from a stream it read. *)
Definition finishes_own {A} (p : prog A) (c : client) (tr : list event) (a : A) (c' : client) : Prop :=
  ∃ sched, undisturbed max sched p c ∧ drive max sched p c = Some (tr, Ret a, c').

Lemma own_finishes {A} (p : prog A) c tr a c' : finishes_own p c tr a c' → finishes max p c tr a c'.
Proof. intros (sched & _ & Hd). by exists sched. Qed.

(** A program that has returned stays so. *)
Lemma own_more {A} (p : prog A) c tr a c1 c2 :
  finishes_own p c tr a c1 → later max c1 c2 → finishes_own p c tr a c2.
Proof.
  intros (sched & Hu & Hd) [acts Hr]. exists (sched ++ (Env <$> acts)). split.
  - revert p c tr Hu Hd. induction sched as [|[| |x] sched IH]; intros p c tr Hu; cbn [drive undisturbed app].
    + intros [= _ -> ->]. clear Hu. revert c1 Hr. induction acts as [|x acts IH]; intros c1; cbn; [done|].
      intros (c & -> & Hr)%bind_Some. split; [by intros ?|by apply IH].
    + intros ([[ev q] c'] & Hs & ([[tr' q'] c''] & Hd & [= _ -> ->])%bind_Some)%bind_Some.
      cbn in Hu. rewrite Hs in *. by eapply IH.
    + intros (q & Hs & Hd)%bind_Some. cbn in Hu. rewrite Hs in *. by eapply IH.
    + intros (c' & Hx & Hd)%bind_Some. cbn in Hu. rewrite Hx in *. destruct Hu. split; [done|by eapply IH].
  - rewrite <- (app_nil_r tr). eapply drive_app; [done|]. clear -Hr. revert c1 Hr.
    induction acts as [|x acts IH]; intros c1; cbn; [by intros [= ->]|].
    intros (c & -> & Hr)%bind_Some. cbn. by apply IH.
Qed.

Lemma reads_from_bind {A B} (p : prog A) (f : A → prog B) :
  (∀ a, p ≠ Ret a) → reads_from (pbind p f) = reads_from p.
Proof. intros Hne. destruct p; try done. by destruct (Hne a). Qed.

(** A run of a sequence is a run of each part. *)
Lemma own_bind {A B} (p : prog A) (f : A → prog B) c tr b c' :
  finishes_own (pbind p f) c tr b c' →
  ∃ tr1 a c1 tr2, finishes_own p c tr1 a c1 ∧ finishes_own (f a) c1 tr2 b c' ∧ tr = tr1 ++ tr2.
Proof.
  intros (sched & Hu & Hd).
  assert (Hret : ∀ p1 : prog A, (∃ a, p1 = Ret a) ∨ ∀ a, p1 ≠ Ret a) by (intros []; eauto; by right).
  revert p c tr Hu Hd. induction sched as [|ch sched IH]; intros p c tr Hu Hd;
    (destruct (Hret p) as [[a ->]|Hne]; [by exists [], a, c, tr; split_and!; [by exists []|by eexists|]|]).
  { destruct p; cbn in Hd; simplify_eq. by destruct (Hne a). }
  destruct ch as [| |x]; cbn [drive undisturbed] in Hd, Hu.
  - rewrite prog_step_bind in Hd, Hu by done.
    apply bind_Some in Hd as ([[ev q] c1] & Hs & Hd). rewrite Hs in Hu.
    apply fmap_Some in Hs as ([[ev' p1] c1'] & Hs & [= -> -> ->]).
    apply bind_Some in Hd as ([[tr2 q2] c2] & Hd & [= <- -> ->]).
    destruct (IH _ _ _ Hu Hd) as (tr1 & a & c3 & tr3 & (s1 & Hu1 & H1) & H2 & ->).
    exists (ev' ++ tr1), a, c3, tr3. split_and!; [|done|by rewrite app_assoc].
    exists (Go :: s1). cbn [drive undisturbed]. rewrite Hs. cbn. by rewrite H1.
  - rewrite prog_timeout_bind in Hd, Hu by done.
    apply bind_Some in Hd as (q & Hs & Hd). rewrite Hs in Hu. apply fmap_Some in Hs as (p1 & Hs & ->).
    destruct (IH _ _ _ Hu Hd) as (tr1 & a & c3 & tr3 & (s1 & Hu1 & H1) & H2 & ->).
    exists tr1, a, c3, tr3. split_and!; [|done..].
    exists (TimesOut :: s1). cbn [drive undisturbed]. rewrite Hs. cbn. by rewrite H1.
  - apply bind_Some in Hd as (c1 & Hx & Hd). destruct Hu as [Ha Hu]. rewrite Hx in Hu.
    rewrite reads_from_bind in Ha by done.
    destruct (IH _ _ _ Hu Hd) as (tr1 & a & c3 & tr3 & (s1 & Hu1 & H1) & H2 & ->).
    exists tr1, a, c3, tr3. split_and!; [|done..].
    exists (Env x :: s1). cbn [drive undisturbed]. rewrite Hx. cbn. by rewrite H1.
Qed.

Lemma own_try {A B} (p : prog (res A)) (f : A → prog (res B)) c tr b c' :
  finishes_own (try_p p f) c tr (inl b) c' →
  ∃ a c1 tr1 tr2, finishes_own p c tr1 (inl a) c1 ∧ finishes_own (f a) c1 tr2 (inl b) c' ∧ tr = tr1 ++ tr2.
Proof.
  intros (tr1 & [a|e] & c1 & tr2 & Hp & Hf & ->)%own_bind; [by exists a, c1, tr1, tr2|].
  apply own_finishes in Hf. by apply finishes_ret in Hf as [_ ?].
Qed.

(** The first step of a program that has one to take. *)
Lemma own_step {A} (p : prog A) c tr a c' :
  (∀ a, p ≠ Ret a) → finishes_own p c tr a c' →
  ∃ c1, later max c c1
    ∧ ((∃ ev p1 c2 tr2, prog_step p c1 = Some (ev, p1, c2) ∧ finishes_own p1 c2 tr2 a c' ∧ tr = ev ++ tr2)
       ∨ ∃ p1, prog_timeout p = Some p1 ∧ finishes_own p1 c1 tr a c').
Proof.
  intros Hne (sched & Hu & Hd). revert c Hu Hd.
  induction sched as [|[| |x] sched IH]; intros c Hu Hd; cbn [drive undisturbed] in *.
  - injection Hd as _ ->. by destruct (Hne a).
  - apply bind_Some in Hd as ([[ev q] c1] & Hs & Hd). rewrite Hs in Hu.
    apply bind_Some in Hd as ([[tr2 q2] c2] & Hd & [= <- -> ->]).
    exists c. split; [done|]. left. exists ev, q, c1, tr2. split_and!; [done|by exists sched|done].
  - apply bind_Some in Hd as (q & Hs & Hd). rewrite Hs in Hu.
    exists c. split; [done|]. right. exists q. split; [done|by exists sched].
  - apply bind_Some in Hd as (c1 & Hx & Hd). destruct Hu as [_ Hu]. rewrite Hx in Hu.
    destruct (IH _ Hu Hd) as (c2 & Hl & H). exists c2. split; [|done]. etrans; [by eapply later_step|done].
Qed.

(** A command is accepted, or refused; the rest of the run follows. *)
Lemma own_enqueue {A} cmd wants (k : _ → prog A) c tr a c' :
  finishes_own (Enqueue cmd wants k) c tr a c' →
  ∃ c1 c2 r tr2, later max c c1 ∧ enqueue_command cmd wants c1 = Some (c2, r) ∧ finishes_own (k r) c2 tr2 a c'
    ∧ tr = match r with inl (_, rid, _) => [Ev_Command rid cmd wants] | inr _ => [] end ++ tr2.
Proof.
  intros Hf. apply own_step in Hf as (c1 & Hl & [(ev & p1 & c2 & tr2 & Hs & Hf & ->)|(p1 & [=] & _)]); [|done].
  cbn [prog_step] in Hs. apply bind_Some in Hs as ([c3 r] & He & [= <- <- ->]). by exists c1, c2, r, tr2.
Qed.

(** Draining its own stream to the end, a program collects all that it got. *)
Lemma own_drain {A} rid w acc (k : list bytes → bool → prog A) c tr a c' :
  reachable max c → owns rid w c acc → finishes_own (Drain rid acc k) c tr a c' →
  ∃ frames expired c1, later max c c1 ∧ finishes max (k frames expired) c1 tr a c'
    ∧ (expired = false → drained rid w c1 frames).
Proof.
  intros Hc Ho (sched & Hu & Hd). revert acc c tr Hc Ho Hu Hd.
  induction sched as [|[| |x] sched IH]; intros acc c tr Hc Ho Hu Hd; cbn [drive undisturbed prog_step] in *; [done|..].
  - apply bind_Some in Hd as ([[ev q] c1] & Hs & Hd). rewrite Hs in Hu.
    apply bind_Some in Hd as ([[tr2 q2] c2] & Hd & [= <- -> ->]).
    apply bind_Some in Hs as ([c3 f] & Hn & [= <- <- ->]). cbn [app].
    assert (Hx : exec max (A_Next rid) c = Some c1) by (cbn; by rewrite Hn). destruct f as [f|].
    + destruct (IH (acc ++ [f]) c1 tr2) as (fs & b & c4 & Hl & ?); [by eapply reachable_step| |done..|].
      * assert ([f] = taken rid (A_Next rid) c) as -> by (cbn; by rewrite Nat.eqb_refl, Hn).
        eapply owns_exec; [done..|]. by intros [?|?].
      * exists fs, b, c4. split; [|done]. etrans; [by eapply later_step|done].
    + exists acc, false, c1. split_and!; [by eapply later_step|by exists sched|]. intros _. by eapply owns_end.
  - cbn in *. exists acc, true, c. split_and!; [done|by exists sched|done].
  - apply bind_Some in Hd as (c1 & Hx & Hd). destruct Hu as [Ha Hu]. rewrite Hx in Hu.
    destruct (IH acc c1 tr) as (fs & b & c4 & Hl & ?); [by eapply reachable_step| |done..|].
    + assert (acc = acc ++ taken rid x c) as ->.
      { rewrite <- (app_nil_r acc) at 1. f_equal. destruct x; try done. cbn.
        destruct (Nat.eqb_spec tx rid) as [->|]; [|done]. by destruct (Ha rid). }
      eapply owns_exec; [done..|]. intros [-> | ->]; by apply (Ha rid).
    + exists fs, b, c4. split; [|done]. etrans; [by eapply later_step|done].
Qed.

(** What the command of [rid] got, whose filter is [w]: [stream_of], which holds
    responses that [w] accepts in the order of the wire. A response that [w]
    accepts and that arrived while the command waited is among them, unless
    another stream asked for it too. *)
Record delivered (rid : reply_id) (w : FrameFilter) (c : client) : Prop := {
  dl_collected : collected w c (stream_of rid c);
  dl_complete : ∀ sh f r, (sh, f) ∈ g_log c → is_waiting rid sh →
    parse_response f = Parsed [] r → w r = true → is_tagged r = false →
    (∀ col, col ∈ p_collectors (sh_pending sh) → c_tx col ≠ rid → c_wants col r = false) →
    frame_owner sh f = Some rid;
}.

Lemma drained_delivered rid w c frames :
  reachable max c → drained rid w c frames → frames = stream_of rid c ∧ delivered rid w c.
Proof.
  intros [_ Hf]%log_reachable [_ _ Hs He]. split; [done|]. split; [split|].
  - apply Forall_forall. intros f Hin. unfold stream_of, frames_for in Hin.
    apply list_elem_of_fmap in Hin as (e & -> & [Ho Hin]%list_elem_of_filter).
    split; [rewrite Hf; by apply list_elem_of_fmap_2|]. eapply Forall_forall in Hs as [_ Ha]; [|done]. by apply Ha.
  - rewrite Hf. apply fmap_sublist. apply sublist_filter.
  - intros sh f r Hin Hw Hp Hacc Ht Hother. eapply Forall_forall in Hs as [Hr _]; [|done].
    destruct (Hr Hw) as [Hcl [tag Hcol]]. by eapply (frame_owner_one sh f r (mkCollector tag w rid)).
Qed.

(** A streaming command that succeeds was called back with all its frames. *)
Lemma own_execute_streaming cmd w c tr ok frames c' :
  reachable max c → finishes_own (execute_streaming cmd w) c tr (inl ok, frames) c' →
  ∃ rid, tr = [Ev_Command rid cmd (Some w)] ∧ answered c' rid ok ∧ frames = stream_of rid c' ∧ delivered rid w c'.
Proof.
  intros Hc Hf. assert (Hc' : reachable max c') by by eapply finishes_reachable, own_finishes.
  destruct (finishes_execute_streaming _ _ _ _ _ _ _ _ Hc (own_finishes _ _ _ _ _ Hf))
    as [[(e & _ & ? & _)|(rid' & Htr & _ & Ha)] _]; [done|].
  unfold execute_streaming, send_command_streaming in Hf. cbn [pbind] in Hf.
  apply own_enqueue in Hf as (c1 & c2 & r & tr2 & Hl & He & Hf & ->).
  assert (Hc1 : reachable max c1) by by eapply later_reachable.
  assert (Hc2 : reachable max c2)
    by (apply (reachable_step max c1 (A_Enqueue cmd (Some w))); [done|cbn; by rewrite He]).
  destruct r as [[[tag rid] [tx|]]|e]; cbn in Hf; [|apply own_finishes in Hf..];
    [|by apply finishes_panics in Hf|by apply finishes_ret in Hf as [_ ?]].
  injection Htr as -> ->. exists rid'. split; [done|]. split; [by apply Ha|].
  destruct (owns_new _ _ _ _ _ _ _ Hc1 He) as [-> Hown]. cbn in Hf.
  apply (own_drain rid' w) in Hf as (fs & expired & c3 & Hl3 & Hf & Hs); [|done..].
  destruct expired.
  - apply finishes_drop_stream in Hf as (c4 & _ & Hf). by apply finishes_ret in Hf as [_ ?].
  - apply drained_delivered; [done|].
    assert (fs = frames ∧ later max c3 c') as [<- Hl'].
    { split; [|by eapply finishes_later]. apply finishes_into_reply in Hf as (c4 & Hl4 & Hf).
      apply finishes_await in Hf as (r & c5 & _ & Hf & _); [|eapply later_reachable; [etrans; [exact Hl3|exact Hl4]|done]].
      by apply finishes_ret in Hf as [_ [= _ ?]]. }
    eapply drained_later; [done|by apply Hs].
Qed.

(** The same, and what is made of its frames. *)
Lemma own_streaming {A} cmd w (g : bytes → list bytes → A) c tr a c' :
  reachable max c →
  finishes_own (pbind (execute_streaming cmd w) (λ '(r, frames),
    Ret (match r with inl ok => inl (g ok frames) | inr e => inr e end : res A))) c tr (inl a) c' →
  ∃ rid ok, tr = [Ev_Command rid cmd (Some w)] ∧ answered c' rid ok ∧ a = g ok (stream_of rid c')
    ∧ delivered rid w c'.
Proof.
  intros Hc (tr1 & [r frames] & c1 & tr2 & Hp & Hf%own_finishes & ->)%own_bind.
  pose proof (finishes_later _ _ _ _ _ _ Hf) as Hl. apply finishes_ret in Hf as [-> Hr].
  destruct r as [ok|e]; [|done]. injection Hr as ->. rewrite app_nil_r.
  eapply own_more in Hp; [|exact Hl].
  destruct (own_execute_streaming _ _ _ _ _ _ _ Hc Hp) as (rid & -> & Ha & -> & Hdl). by exists rid, ok.
Qed.

End run.
