(* ===== verification/Lossy.v ===== *)
(** [String::from_utf8_lossy]: every maximal piece of a byte string that is not
    UTF-8 becomes one U+FFFD. *)

From S2P Require Import Prelude Str Ast ClientError.
From stdpp Require Import options.

Fixpoint lossy_chars (s : bytes) : list char :=
  match s with
  | [] => []
  | b0 :: s1 =>
    if bval b0 <? 0x80 then bval b0 :: lossy_chars s1
    else if in_range 0xC2 0xDF b0 then
      match s1 with
      | b1 :: s2 =>
        if is_cont b1 then (bval b0 - 0xC0) * 64 + cont_bits b1 :: lossy_chars s2
        else REPLACEMENT :: lossy_chars s1
      | [] => [REPLACEMENT]
      end
    else if in_range 0xE0 0xEF b0 then
      match s1 with
      | b1 :: s2 =>
        if second_of_3 b0 b1 then
          match s2 with
          | b2 :: s3 =>
            if is_cont b2
            then (bval b0 - 0xE0) * 4096 + cont_bits b1 * 64 + cont_bits b2 :: lossy_chars s3
            else REPLACEMENT :: lossy_chars s2
          | [] => [REPLACEMENT]
          end
        else REPLACEMENT :: lossy_chars s1
      | [] => [REPLACEMENT]
      end
    else if in_range 0xF0 0xF4 b0 then
      match s1 with
      | b1 :: s2 =>
        if second_of_4 b0 b1 then
          match s2 with
          | b2 :: s3 =>
            if is_cont b2 then
              match s3 with
              | b3 :: s4 =>
                if is_cont b3 then
                  (bval b0 - 0xF0) * 262144 + cont_bits b1 * 4096 + cont_bits b2 * 64 + cont_bits b3
                    :: lossy_chars s4
                else REPLACEMENT :: lossy_chars s3
              | [] => [REPLACEMENT]
              end
            else REPLACEMENT :: lossy_chars s2
          | [] => [REPLACEMENT]
          end
        else REPLACEMENT :: lossy_chars s1
      | [] => [REPLACEMENT]
      end
    else REPLACEMENT :: lossy_chars s1
  end.

Definition from_utf8_lossy (s : bytes) : str := encode (lossy_chars s).

Lemma lossy_chars_scalar s : Forall (λ c, is_scalar c = true) (lossy_chars s).
Proof.
  remember (length s) as n eqn:Hn. revert s Hn. induction n as [n IH] using lt_wf_ind. intros s Hn.
  assert (Hrec : ∀ c t, is_scalar c = true → (length t < n)%nat →
    Forall (λ c, is_scalar c = true) (c :: lossy_chars t)).
  { intros c t Hc Ht. constructor; [done|]. by eapply IH. }
  assert (Hnil : Forall (λ c, is_scalar c = true) [REPLACEMENT]) by (by repeat constructor).
  destruct s as [|b0 s1]; [constructor|]. cbn [lossy_chars]. cbn in Hn.
  destruct (bval b0 <? 0x80) eqn:E0.
  { apply Hrec; [by apply encode_1|lia]. }
  destruct (in_range 0xC2 0xDF b0) eqn:E1.
  { destruct s1 as [|b1 s2]; [done|]. cbn in Hn. destruct (is_cont b1) eqn:E2; apply Hrec; cbn; try lia; try done.
    by apply encode_2. }
  destruct (in_range 0xE0 0xEF b0) eqn:E2.
  { destruct s1 as [|b1 s2]; [done|]. cbn in Hn. destruct (second_of_3 b0 b1) eqn:E3; [|apply Hrec; cbn; [done|lia]].
    destruct s2 as [|b2 s3]; [done|]. cbn in Hn. destruct (is_cont b2) eqn:E4; apply Hrec; cbn; try lia; try done.
    apply encode_3; [done|]. by rewrite E3. }
  destruct (in_range 0xF0 0xF4 b0) eqn:E3; [|apply Hrec; [done|lia]].
  destruct s1 as [|b1 s2]; [done|]. cbn in Hn. destruct (second_of_4 b0 b1) eqn:E4; [|apply Hrec; cbn; [done|lia]].
  destruct s2 as [|b2 s3]; [done|]. cbn in Hn. destruct (is_cont b2) eqn:E5; [|apply Hrec; cbn; [done|lia]].
  destruct s3 as [|b3 s4]; [done|]. cbn in Hn. destruct (is_cont b3) eqn:E6; apply Hrec; cbn; try lia; try done.
  apply encode_4. by rewrite E3, E4, E5, E6.
Qed.

(** What is UTF-8 already is kept. *)
Lemma lossy_chars_opt s cs : chars_opt s = Some cs → lossy_chars s = cs.
Proof.
  remember (length s) as n eqn:Hn. revert s cs Hn. induction n as [n IH] using lt_wf_ind. intros s cs Hn.
  assert (Hrec : ∀ c t, (length t < n)%nat → cons c <$> chars_opt t = Some cs → c :: lossy_chars t = cs).
  { intros c t Ht (cs' & Hcs' & ->)%fmap_Some. f_equal. by eapply IH. }
  destruct s as [|b0 s1]; cbn [chars_opt lossy_chars]; [by intros [= <-]|]. cbn in Hn.
  destruct (bval b0 <? 0x80) eqn:E0; [apply Hrec; lia|].
  destruct s1 as [|b1 s2]; [done|]. cbn in Hn. destruct (in_range 0xC2 0xDF b0) eqn:E1.
  { destruct (is_cont b1); [apply Hrec; lia|done]. }
  destruct s2 as [|b2 s3]; [done|]. cbn in Hn. destruct (in_range 0xE0 0xEF b0) eqn:E2.
  { destruct (second_of_3 b0 b1), (is_cont b2); cbn [andb]; try done. apply Hrec; lia. }
  destruct s3 as [|b3 s4]; [done|]. cbn in Hn.
  destruct (in_range 0xF0 0xF4 b0), (second_of_4 b0 b1), (is_cont b2), (is_cont b3); cbn [andb]; try done.
  apply Hrec; lia.
Qed.

Lemma from_utf8_lossy_valid s : utf8_valid (from_utf8_lossy s) = true.
Proof. apply utf8_valid_spec. exists (lossy_chars s). split; [done|apply lossy_chars_scalar]. Qed.

Lemma from_utf8_lossy_id s : utf8_valid s = true → from_utf8_lossy s = s.
Proof.
  unfold utf8_valid. rewrite bool_decide_eq_true. intros [cs Hcs]. unfold from_utf8_lossy.
  rewrite (lossy_chars_opt _ _ Hcs). by apply encode_chars_opt.
Qed.
