(* ===== verification/Session.v ===== *)
(** [imap-client/src/session.rs] and [imap-client/src/idle.rs]: the typed
    session. The type of a method says in which state and on which transport
    it exists, as the [impl] blocks do; its body is a program run against the
    dispatcher ([Program]). A method that takes [self] returns the session it
    leaves; one that takes [&mut self] and does not change the session returns
    its result only. *)

From S2P Require Import Prelude Str Ast Monad ResponseParser ParserSafety ParserStream.
From S2P Require Import ParserLocal ParserTheorems ParserRead Base64 ClientError Flags Wire.
From S2P Require Import Credentials Search Capabilities Client ClientFraming ClientReplies.
From S2P Require Import ClientStreams ClientOrder Program Lossy.
From stdpp Require Import options.

(** The state markers, the transport markers, and the session. The [RawClient]
    inside is the client the program runs against. *)
Inductive State : Type := Unauthenticated | Authenticated | Selected.
Inductive Transport : Type := PlainText | Tls.

Record Session (S : State) (T : Transport) : Type := mkSession { capabilities : Capabilities }.
Arguments mkSession {S T} capabilities.
Arguments capabilities {S T} s.

Record FetchResult : Type := mkFetchResult {
  fr_seq : Z;
  fr_uid : option Z;
  fr_body : option bytes;
}.

(** [idle.rs: IdleHandle]: the reply it waits for. Its writer is the client. *)
Record IdleHandle : Type := mkIdleHandle { ih_reply : reply_id }.

(** [x?] of a plain [Result]. *)
Definition try_res {A B} (r : res A) (f : A → prog (res B)) : prog (res B) :=
  match r with inl a => f a | inr e => Ret (inr e) end.

Definition map_res {A B} (f : A → B) (p : prog (res A)) : prog (res B) :=
  try_p p (λ a, Ret (inl (f a))).

(* ------------------------------------------------------------------ *)
(** ** Helpers                                                          *)
(* ------------------------------------------------------------------ *)

Definition login_command (user_q pass_q : str) : str := b! "LOGIN " ++ user_q ++ [SP] ++ pass_q.

(** [None] is an index out of the alphabet, which is shown not to occur. *)
Definition sasl_plain_line (user : str) (pass : Password) : option bytes :=
  line ← encode_into ([NUL] ++ user ++ [NUL] ++ password_as_str pass) [];
  Some (line ++ [CR; LF]).

Definition is_continuation (response : Response) : bool :=
  match response with Resp_Continue _ => true | _ => false end.

Definition is_fetch (response : Response) : bool :=
  match response with Resp_Data (DR_Fetch _ _) => true | _ => false end.

Definition is_search (response : Response) : bool :=
  match response with Resp_Data (DR_Search _) => true | _ => false end.

(** The body of the loop of [fetch_result]: later attributes overwrite. *)
Definition fetch_attribute (r : FetchResult) (attr : FetchAttribute) : FetchResult :=
  match attr with
  | FA_Uid u => mkFetchResult (fr_seq r) (Some u) (fr_body r)
  | FA_BodySection _ _ (Some d) => mkFetchResult (fr_seq r) (fr_uid r) (Some d)
  | FA_Body b | FA_Rfc822 b => mkFetchResult (fr_seq r) (fr_uid r) (Some b)
  | _ => r
  end.

Definition fetch_result (frame : bytes) : option FetchResult :=
  match parse_response frame with
  | Parsed _ (Resp_Data (DR_Fetch seq attributes)) =>
    Some (foldl fetch_attribute (mkFetchResult seq None None) attributes)
  | _ => None
  end.

(** The closure of [run_search]. *)
Definition search_ids (frame : bytes) : list Z :=
  match parse_response frame with
  | Parsed _ (Resp_Data (DR_Search ids)) => ids
  | _ => []
  end.

(** The closure of [refresh_capabilities]. *)
Definition update_caps (caps : Capabilities) (frame : bytes) : Capabilities :=
  match parse_response frame with
  | Parsed _ response => fst (try_update_from caps response)
  | _ => caps
  end.

Definition no_continuation : str := b! "server completed the command without a continuation request".

Definition await_continuation (stream : CommandStream) : prog (res reply_id) :=
  Next (cs_frames stream) (λ r,
    match r with
    | NR_Timeout => DropStream (cs_frames stream) (Ret (inr CE_Timeout))
    | NR_Frame _ => IntoReply (cs_frames stream) (Ret (inl (cs_reply stream)))
    | NR_End =>
      IntoReply (cs_frames stream) (Await false (cs_reply stream) (λ r,
        Ret (inr (match r with inr e => e | inl _ => CE_CommandFailed no_continuation end))))
    end).

(* ------------------------------------------------------------------ *)
(** ** Any state                                                        *)
(* ------------------------------------------------------------------ *)

Module session.

Section any.
Context {S : State} {T : Transport}.

Definition transition_state (S' : State) (self : Session S T) : Session S' T :=
  mkSession (capabilities self).

(** The receiver is its position in the broadcast. *)
Definition events (self : Session S T) : prog nat := Events Ret.

Definition new_in_state (caps : Capabilities) : Session S T := mkSession caps.

Definition refresh_capabilities (self : Session S T) : prog (res unit * Session S T) :=
  pbind (execute_streaming (b! "CAPABILITY") is_capability_response) (λ '(r, frames),
    let self := mkSession (foldl update_caps (capabilities self) frames) in
    Ret (match r with inl _ => inl tt | inr e => inr e end, self)).

Definition refresh_capabilities_from_frame (frame : bytes) (self : Session S T) :
    prog (res unit * Session S T) :=
  match parse_response frame with
  | Parsed _ response =>
    match try_update_from (capabilities self) response with
    | (caps, true) => Ret (inl tt, mkSession caps)
    | (caps, false) => refresh_capabilities (mkSession caps)
    end
  | _ => refresh_capabilities self
  end.

Definition logout (self : Session S T) : prog (res unit) :=
  pbind (execute_command (b! "LOGOUT")) (λ r,
    Ret (match r with
         | inl _ => inl tt
         | inr CE_ConnectionClosed => inl tt
         | inr e => inr e
         end)).

Definition noop (self : Session S T) : prog (res unit) :=
  map_res (λ _, tt) (execute_command (b! "NOOP")).
End any.

(** [Session::new]; [new_tls] is the one way to a session that can log in. *)
Definition new (caps : Capabilities) : Session Unauthenticated PlainText := new_in_state caps.
Definition new_tls (caps : Capabilities) : Session Unauthenticated Tls := new_in_state caps.

(* ------------------------------------------------------------------ *)
(** ** Unauthenticated, over TLS                                        *)
(* ------------------------------------------------------------------ *)

(** The end of both logins: capabilities, then the transition. *)
Definition authenticated (frame : bytes) (self : Session Unauthenticated Tls) :
    prog (res (Session Authenticated Tls)) :=
  pbind (refresh_capabilities_from_frame frame self) (λ '(r, self),
    Ret (match r with inl _ => inl (transition_state Authenticated self) | inr e => inr e end)).

Definition login (user : str) (pass : Password) (self : Session Unauthenticated Tls) :
    prog (res (Session Authenticated Tls)) :=
  try_res (imap_quoted user) (λ user_q,
  try_res (as_imap_quoted pass) (λ pass_q,
  try_p (execute_command (login_command user_q pass_q)) (λ frame,
  authenticated frame self))).

Definition authenticate_plain (user : str) (pass : Password) (self : Session Unauthenticated Tls) :
    prog (res (Session Authenticated Tls)) :=
  if existsb (Byte.eqb NUL) user then Ret (inr (CE_CommandFailed (b! "username must not contain NUL")))
  else if existsb (Byte.eqb NUL) (password_as_str pass)
  then Ret (inr (CE_CommandFailed (b! "password must not contain NUL")))
  else
    try_p (send_command_streaming (b! "AUTHENTICATE PLAIN") is_continuation) (λ stream,
    try_p (await_continuation stream) (λ reply_rx,
    match sasl_plain_line user pass with
    | None => Panics
    | Some line =>
      try_p (SendRaw line Ret) (λ _,
      try_p (Await true reply_rx Ret) (λ frame,
      authenticated frame self))
    end)).

(* ------------------------------------------------------------------ *)
(** ** Authenticated                                                    *)
(* ------------------------------------------------------------------ *)

Section authenticated_methods.
Context {T : Transport}.

Definition select (mailbox : str) (self : Session Authenticated T) : prog (res (Session Selected T)) :=
  try_res (imap_quoted mailbox) (λ mb,
  try_p (execute_command (b! "SELECT " ++ mb)) (λ _, Ret (inl (transition_state Selected self)))).

Definition examine (mailbox : str) (self : Session Authenticated T) : prog (res (Session Selected T)) :=
  try_res (imap_quoted mailbox) (λ mb,
  try_p (execute_command (b! "EXAMINE " ++ mb)) (λ _, Ret (inl (transition_state Selected self)))).

(** [Session::list]. *)
Definition list_ (reference mailbox_mask : str) (self : Session Authenticated T) : prog (res bytes) :=
  try_res (imap_quoted reference) (λ r,
  try_res (imap_quoted mailbox_mask) (λ m,
  execute_command (b! "LIST " ++ r ++ [SP] ++ m))).
End authenticated_methods.

(* ------------------------------------------------------------------ *)
(** ** Selected                                                         *)
(* ------------------------------------------------------------------ *)

(** [for flag in flags { wire::flag(flag)?; }]. *)
Fixpoint check_flags (flags : list Flag) : res unit :=
  match flags with
  | [] => inl tt
  | f :: flags => match wire.flag f with inl _ => check_flags flags | inr e => inr e end
  end.

(** The command lines of the methods below, once their arguments are valid. *)
Definition fetch_command (set items : str) : res str :=
  match wire.sequence_set set with
  | inr e => inr e
  | inl set =>
    match wire.fetch_items items with
    | inr e => inr e
    | inl items => inl (b! "FETCH " ++ set ++ [SP] ++ items)
    end
  end.

Definition store_command (verb set : str) (action : StoreAction) (flags : list Flag) : res str :=
  match check_flags flags with
  | inr e => inr e
  | inl _ =>
    let flags_str := join [SP] (flag_to_string <$> flags) in
    match wire.sequence_set set with
    | inr e => inr e
    | inl set => inl (verb ++ set ++ [SP] ++ to_imap_prefix action false ++ b! " (" ++ flags_str ++ b! ")")
    end
  end.

Definition move_command (set mailbox : str) : res str :=
  match wire.sequence_set set with
  | inr e => inr e
  | inl set =>
    match imap_quoted mailbox with
    | inr e => inr e
    | inl mb => inl (b! "MOVE " ++ set ++ [SP] ++ mb)
    end
  end.

Section selected_methods.
Context {T : Transport}.
Implicit Types self : Session Selected T.

Definition fetch_raw (set items : str) (self : Session Selected T) : prog (res bytes) :=
  try_res (fetch_command set items) execute_command.

Definition fetch (set items : str) (self : Session Selected T) : prog (res (list FetchResult)) :=
  try_res (fetch_command set items) (λ cmd,
  pbind (execute_streaming cmd is_fetch) (λ '(r, frames),
    Ret (match r with inl _ => inl (omap fetch_result frames) | inr e => inr e end))).

Definition fetch_body (set : str) (self : Session Selected T) : prog (res (option str)) :=
  try_p (fetch set (b! "BODY[]") self) (λ results,
    Ret (inl (match results with
              | mkFetchResult _ _ (Some body) :: _ => Some (from_utf8_lossy body)
              | _ => None
              end))).

Definition run_search (cmd : str) (self : Session Selected T) : prog (res (list Z)) :=
  pbind (execute_streaming cmd is_search) (λ '(r, frames),
    Ret (match r with inl _ => inl (frames ≫= search_ids) | inr e => inr e end)).

Definition search (query : SearchQuery) (self : Session Selected T) : prog (res (list Z)) :=
  run_search (b! "SEARCH " ++ build query) self.

Definition uid_search (query : SearchQuery) (self : Session Selected T) : prog (res (list Z)) :=
  run_search (b! "UID SEARCH " ++ build query) self.

Definition store (set : str) (action : StoreAction) (flags : list Flag) (self : Session Selected T) :
    prog (res bytes) :=
  try_res (store_command (b! "STORE ") set action flags) execute_command.

Definition uid_store (set : str) (action : StoreAction) (flags : list Flag) (self : Session Selected T) :
    prog (res bytes) :=
  try_res (store_command (b! "UID STORE ") set action flags) execute_command.

Definition expunge (self : Session Selected T) : prog (res bytes) := execute_command (b! "EXPUNGE").

Definition close_mailbox (self : Session Selected T) : prog (res (Session Authenticated T)) :=
  try_p (execute_command (b! "CLOSE")) (λ _, Ret (inl (transition_state Authenticated self))).

Definition unselect (self : Session Selected T) : prog (res (Session Authenticated T)) :=
  if negb (Capabilities.unselect (capabilities self)) then Ret (inr (CE_UnsupportedCapability "UNSELECT"))
  else try_p (execute_command (b! "UNSELECT")) (λ _, Ret (inl (transition_state Authenticated self))).

Definition check (self : Session Selected T) : prog (res unit) :=
  map_res (λ _, tt) (execute_command (b! "CHECK")).

Definition idle (self : Session Selected T) : prog (res IdleHandle) :=
  if negb (Capabilities.idle (capabilities self)) then Ret (inr (CE_UnsupportedCapability "IDLE"))
  else
    try_p (send_command_streaming (b! "IDLE") is_continuation) (λ stream,
    try_p (await_continuation stream) (λ reply_rx, Ret (inl (mkIdleHandle reply_rx)))).

Definition move_messages (set mailbox : str) (self : Session Selected T) : prog (res bytes) :=
  if negb (move_ext (capabilities self)) then Ret (inr (CE_UnsupportedCapability "MOVE"))
  else try_res (move_command set mailbox) execute_command.
End selected_methods.

End session.

(** [idle.rs: IdleHandle::stop_with_timeout]; [stop] has a deadline of 30 s. *)
Definition stop_with_timeout (h : IdleHandle) : prog (res unit) :=
  try_p (SendRaw (b! "DONE" ++ [CR; LF]) Ret) (λ _,
  map_res (λ _, tt) (Await true (ih_reply h) Ret)).
