(* ===== verification/SessionTheorems.v ===== *)
(** What the methods of [Session] send, what their success means, and what
    they refuse, over every interleaving with the tasks of the client. *)

From S2P Require Import Prelude Str Ast Monad ResponseParser ParserSafety ParserStream.
From S2P Require Import ParserLocal ParserTheorems ParserRead Base64 ClientError Flags Wire.
From S2P Require Import Credentials Search Capabilities Client ClientFraming ClientReplies.
From S2P Require Import ClientStreams ClientOrder Program Ownership Lossy Session.
From stdpp Require Import options.

(* ------------------------------------------------------------------ *)
(** ** Sequencing                                                       *)
(* ------------------------------------------------------------------ *)

Lemma finishes_try {A B} max (p : prog (res A)) (f : A → prog (res B)) c tr r c' :
  finishes max (try_p p f) c tr r c' →
  ∃ x c1 tr1 tr2, finishes max p c tr1 x c1 ∧ later max c1 c' ∧ tr = tr1 ++ tr2
    ∧ match x with
      | inl a => finishes max (f a) c1 tr2 r c'
      | inr e => tr2 = [] ∧ r = inr e
      end.
Proof.
  intros (tr1 & x & c1 & tr2 & Hp & Hf & ->)%finishes_bind. exists x, c1, tr1, tr2.
  split_and!; [done|by eapply finishes_later|done|]. destruct x; [done|]. by apply finishes_ret in Hf.
Qed.

(** One exchange, then the rest. *)
Lemma finishes_try_exec {B} max cmd (f : bytes → prog (res B)) c tr r c' :
  reachable max c → finishes max (try_p (execute_command cmd) f) c tr r c' →
  ∃ x c1 tr1 tr2, reachable max c1 ∧ later max c1 c' ∧ exchange_ok cmd None tr1 x c1 ∧ tr = tr1 ++ tr2
    ∧ match x with
      | inl frame => finishes max (f frame) c1 tr2 r c'
      | inr e => tr2 = [] ∧ r = inr e
      end.
Proof.
  intros Hc (x & c1 & tr1 & tr2 & Hp & Hl & -> & Hx)%finishes_try.
  exists x, c1, tr1, tr2. split_and!; try done; [by eapply finishes_reachable|].
  by eapply finishes_execute_command.
Qed.

(** A command with an answer, then the transition: the shape of [select],
    [examine], [close_mailbox] and [unselect]. *)
Lemma finishes_transition {B} max cmd (b : B) c tr r c' :
  reachable max c → finishes max (try_p (execute_command cmd) (λ _, Ret (inl b))) c tr (inl r) c' →
  r = b ∧ ∃ rid frame, tr = [Ev_Command rid cmd None] ∧ answered c' rid frame.
Proof.
  intros Hc Hf. apply finishes_try_exec in Hf as (x & c1 & tr1 & tr2 & Hc1 & Hl & Hx & -> & Hr); [|done].
  destruct x as [frame|e]; [|by destruct Hr]. apply finishes_ret in Hr as [-> [= ->]]. split; [done|].
  destruct Hx as [(e & _ & ? & _)|(rid & -> & _ & Ha)]; [done|]. exists rid, frame. split; [done|].
  eapply later_answered; [done..|]. by apply Ha.
Qed.

(** A streaming command, and what is made of its frames: the shape of [fetch],
    of the searches and of a capability request. *)
Definition streaming_ok {A} (cmd : str) (wants : FrameFilter) (g : bytes → list bytes → A)
    (tr : list event) (r : res A) (c' : client) : Prop :=
  (∃ e, tr = [] ∧ r = inr e ∧ (wire.reject_line_breaks cmd ≠ inl tt → wire.reject_line_breaks cmd = inr e))
  ∨ ∃ rid, tr = [Ev_Command rid cmd (Some wants)] ∧ wire.reject_line_breaks cmd = inl tt
      ∧ ∀ a, r = inl a → ∃ ok frames, answered c' rid ok ∧ collected wants c' frames ∧ a = g ok frames.

Lemma finishes_streaming {A} max cmd wants (g : bytes → list bytes → A) c tr r c' :
  reachable max c →
  finishes max (pbind (execute_streaming cmd wants) (λ '(r, frames),
    Ret (match r with inl ok => inl (g ok frames) | inr e => inr e end))) c tr r c' →
  streaming_ok cmd wants g tr r c'.
Proof.
  intros Hc (tr1 & [x frames] & c1 & tr2 & Hp & Hf & ->)%finishes_bind.
  assert (Hc1 : reachable max c1) by by eapply finishes_reachable.
  apply finishes_execute_streaming in Hp as [Hx Hfs]; [|done].
  pose proof (finishes_later _ _ _ _ _ _ Hf) as Hl. apply finishes_ret in Hf as [-> ->]. rewrite app_nil_r.
  destruct Hx as [(e & -> & -> & He)|(rid & -> & Hcmd & Ha)]; [left; by exists e|].
  right. exists rid. split_and!; [done..|]. intros a Hr. destruct x as [ok|e]; [|done]. simplify_eq.
  exists ok, frames. split_and!; [|by eapply collected_later|done].
  eapply later_answered; [done..|]. by apply Ha.
Qed.

(* ------------------------------------------------------------------ *)
(** ** Capabilities                                                     *)
(* ------------------------------------------------------------------ *)

(** How a new session got its capabilities: from the code of the tagged [OK],
    with nothing more sent, or from a [CAPABILITY] command. *)
Definition refreshed (caps caps' : Capabilities) (frame : bytes) (tr : list event) (c' : client) : Prop :=
  (tr = [] ∧ ∃ rest response, parse_response frame = Parsed rest response
     ∧ try_update_from caps response = (caps', true))
  ∨ ∃ rid ok frames, tr = [Ev_Command rid (b! "CAPABILITY") (Some is_capability_response)]
      ∧ answered c' rid ok ∧ collected is_capability_response c' frames
      ∧ caps' = foldl update_caps caps frames.

Lemma finishes_refresh {S T} max (self s' : Session S T) c tr c' :
  reachable max c → finishes max (session.refresh_capabilities self) c tr (inl tt, s') c' →
  ∃ rid ok frames, tr = [Ev_Command rid (b! "CAPABILITY") (Some is_capability_response)]
    ∧ answered c' rid ok ∧ collected is_capability_response c' frames
    ∧ capabilities s' = foldl update_caps (capabilities self) frames.
Proof.
  intros Hc (tr1 & [r frames] & c1 & tr2 & Hp & Hf & ->)%finishes_bind.
  assert (Hc1 : reachable max c1) by by eapply finishes_reachable.
  apply finishes_execute_streaming in Hp as [Hx Hfs]; [|done].
  pose proof (finishes_later _ _ _ _ _ _ Hf) as Hl. apply finishes_ret in Hf as [-> [= Hr ->]].
  destruct r as [ok|e]; [|done]. destruct Hx as [(e & _ & ? & _)|(rid & -> & _ & Ha)]; [done|].
  exists rid, ok, frames. split_and!; [done| |by eapply collected_later|done].
  eapply later_answered; [done..|]. by apply Ha.
Qed.

Lemma try_update_same caps response caps' : try_update_from caps response = (caps', false) → caps' = caps.
Proof. unfold try_update_from. repeat case_match; congruence. Qed.

Lemma finishes_authenticated max frame self s' c tr c' :
  reachable max c → finishes max (session.authenticated frame self) c tr (inl s') c' →
  refreshed (capabilities self) (capabilities s') frame tr c'.
Proof.
  intros Hc (tr1 & [r self1] & c1 & tr2 & Hp & Hf & ->)%finishes_bind.
  assert (Hc1 : reachable max c1) by by eapply finishes_reachable.
  pose proof (finishes_later _ _ _ _ _ _ Hf) as Hl. apply finishes_ret in Hf as [-> Hr].
  destruct r as [[]|e]; [|done]. injection Hr as ->. rewrite app_nil_r. cbn.
  assert (Hre : ∀ self0, capabilities self0 = capabilities self →
    finishes max (session.refresh_capabilities self0) c tr1 (inl tt, self1) c1 →
    refreshed (capabilities self) (capabilities self1) frame tr1 c').
  { intros self0 Hself (rid & ok & frames & -> & Ha & Hfs & Hcaps)%finishes_refresh; [|done].
    right. exists rid, ok, frames. rewrite <- Hself. split_and!; [done| |by eapply collected_later|done].
    by eapply later_answered. }
  unfold session.refresh_capabilities_from_frame in Hp.
  destruct (parse_response frame) as [rest response|e| |] eqn:Hpr; [|by eapply Hre..].
  destruct (try_update_from (capabilities self) response) as [caps []] eqn:Hu.
  - apply finishes_ret in Hp as [-> [= ->]]. left. split; [done|]. by exists rest, response.
  - apply (Hre (mkSession caps)); [|done]. cbn. by eapply try_update_same.
Qed.

(* ------------------------------------------------------------------ *)
(** ** Continuations and secrets                                        *)
(* ------------------------------------------------------------------ *)

(** A streaming command that is accepted, with the stream it opens. *)
Lemma finishes_send_streaming {B} max cmd w (f : CommandStream → prog (res B)) c tr r c' :
  reachable max c → finishes max (try_p (send_command_streaming cmd w) f) c tr r c' →
  (∃ e, tr = [] ∧ r = inr e)
  ∨ ∃ stream c1 tr2, reachable max c1 ∧ carries (cs_frames stream) w c1
      ∧ tr = Ev_Command (cs_reply stream) cmd (Some w) :: tr2 ∧ finishes max (f stream) c1 tr2 r c'.
Proof.
  intros Hc Hf. unfold try_p, send_command_streaming in Hf. cbn [pbind] in Hf.
  apply finishes_enqueue in Hf as (r1 & c1 & tr2 & Hl & Hf & Hr); [|done].
  destruct r1 as [[[tag rid] tx]|e].
  - destruct Hr as (_ & _ & -> & Htx & Hca). destruct tx as [tx|]; [|by destruct Htx as [_ [? ?]]; [by eexists|]].
    right. exists (mkCommandStream tx rid), c1, tr2. split_and!; [by eapply later_reachable|by eapply Hca|done..].
  - destruct Hr as (-> & _ & _). apply finishes_ret in Hf as [-> ->]. left. by exists e.
Qed.

Lemma finishes_send_raw {A} max bs (k : res unit → prog A) c tr a c' :
  finishes max (SendRaw bs k) c tr a c' →
  ∃ r c1 tr2, later max c c1 ∧ finishes max (k r) c1 tr2 a c'
    ∧ tr = match r with inl _ => [Ev_Raw bs] | inr _ => [] end ++ tr2.
Proof.
  intros Hf. apply finishes_step in Hf as (c1 & Hl & [(ev & p1 & c2 & tr2 & Hs & Hf & ->)|(p1 & [=] & _)]); [|done].
  cbn [prog_step] in Hs. apply bind_Some in Hs as ([c3 r] & He & [= <- <- ->]). exists r, c2, tr2.
  split_and!; [|done..]. etrans; [done|]. apply (later_step max (A_SendRaw bs)). cbn. by rewrite He.
Qed.

(** [await_continuation] sends nothing, and succeeds only after a continuation
    request. *)
Lemma finishes_await_continuation max stream c tr r c' :
  reachable max c → carries (cs_frames stream) is_continuation c →
  finishes max (await_continuation stream) c tr r c' →
  tr = [] ∧ ∀ rid, r = inl rid → rid = cs_reply stream ∧ ∃ f, received is_continuation c' f.
Proof.
  intros Hc Hw Hf. unfold await_continuation in Hf.
  apply (finishes_next _ _ is_continuation) in Hf as (x & c1 & Hl & Hf & Hx); [|done..].
  assert (Hc1 : reachable max c1) by by eapply later_reachable. destruct x as [f| |].
  - apply finishes_into_reply in Hf as (c2 & Hl2 & Hf). pose proof (finishes_later _ _ _ _ _ _ Hf) as Hl3.
    apply finishes_ret in Hf as [-> ->]. split; [done|]. intros rid [= <-]. split; [done|]. exists f.
    eapply received_later_1; [|by apply Hx]. by etrans.
  - apply finishes_into_reply in Hf as (c2 & Hl2 & Hf).
    apply finishes_await in Hf as (x & c3 & Hl3 & Hf & _); [|by eapply later_reachable].
    by apply finishes_ret in Hf as [-> ->].
  - apply finishes_drop_stream in Hf as (c2 & Hl2 & Hf). by apply finishes_ret in Hf as [-> ->].
Qed.

(** The reply of a command, then the rest. *)
Lemma finishes_try_await {B} max timed rid (f : bytes → prog (res B)) c tr r c' :
  reachable max c → finishes max (try_p (Await timed rid Ret) f) c tr r c' →
  ∃ x c1, reachable max c1 ∧ later max c1 c'
    ∧ match x with
      | inl frame => answered c' rid frame ∧ finishes max (f frame) c1 tr r c'
      | inr e => tr = [] ∧ r = inr e
      end.
Proof.
  intros Hc Hf. unfold try_p in Hf. cbn [pbind] in Hf.
  apply finishes_await in Hf as (x & c1 & Hl & Hf & Ha); [|done].
  assert (Hc1 : reachable max c1) by by eapply later_reachable.
  pose proof (finishes_later _ _ _ _ _ _ Hf) as Hl1.
  exists x, c1. split_and!; [done..|]. destruct x as [frame|e]; [|by apply finishes_ret in Hf].
  split; [|done]. eapply later_answered; [done..|]. by apply Ha.
Qed.

(** After the login the session may send one [CAPABILITY], and nothing else. *)
Lemma finishes_authenticated_no_raw max frame self r c tr c' :
  reachable max c → finishes max (session.authenticated frame self) c tr r c' →
  ∀ bs, Ev_Raw bs ∉ tr.
Proof.
  intros Hc (tr1 & [x self1] & c1 & tr2 & Hp & Hf & ->)%finishes_bind bs.
  apply finishes_ret in Hf as [-> _]. rewrite app_nil_r.
  assert (Hre : ∀ self0, finishes max (session.refresh_capabilities self0) c tr1 (x, self1) c1 → Ev_Raw bs ∉ tr1).
  { intros self0 (tr3 & [y fs] & c2 & tr4 & Hp' & Hf & ->)%finishes_bind.
    apply finishes_ret in Hf as [-> _]. rewrite app_nil_r.
    apply finishes_execute_streaming in Hp' as [[(e & -> & _)|(rid & -> & _)] _]; [..|done].
    - apply not_elem_of_nil.
    - by intros ?%list_elem_of_singleton. }
  unfold session.refresh_capabilities_from_frame in Hp.
  destruct (parse_response frame) as [rest response|e| |]; [|by eapply Hre..].
  destruct (try_update_from _ response) as [caps []]; [|by eapply Hre].
  apply finishes_ret in Hp as [-> _]. apply not_elem_of_nil.
Qed.

(** No secret, no claim about it. *)
Lemma no_raw {A} (P : bytes → Prop) (Q : A → Prop) (tr : list event) (e : ClientError) :
  (∀ bs, Ev_Raw bs ∉ tr) → (∀ bs, Ev_Raw bs ∈ tr → P bs) ∧ ∀ a, inr e = inl a → Q a.
Proof. intros H. split; [by intros bs ?%H|done]. Qed.

Ltac sends_no_raw :=
  apply no_raw; intros ?; repeat (apply not_elem_of_cons; split; [done|]); apply not_elem_of_nil.

Lemma concat_fmap_bind {A B} (f : A → list B) l : concat (f <$> l) = l ≫= f.
Proof. induction l as [|x l IH]; [done|]. cbn. by rewrite IH. Qed.

(** What a FETCH response says about a message: its number, the last UID and the
    last body among its attributes. *)
Definition uid_of (attr : FetchAttribute) : option Z := match attr with FA_Uid u => Some u | _ => None end.

Definition body_of (attr : FetchAttribute) : option bytes :=
  match attr with
  | FA_BodySection _ _ data => data
  | FA_Body b | FA_Rfc822 b => Some b
  | _ => None
  end.

Definition fetch_of (frame : bytes) (result : FetchResult) : Prop :=
  ∃ seq attributes, parse_response frame = Parsed [] (Resp_Data (DR_Fetch seq attributes))
    ∧ result = mkFetchResult seq (last (omap uid_of attributes)) (last (omap body_of attributes)).

Lemma fetch_attributes seq attributes :
  foldl fetch_attribute (mkFetchResult seq None None) attributes
  = mkFetchResult seq (last (omap uid_of attributes)) (last (omap body_of attributes)).
Proof.
  induction attributes as [|a attributes IH] using rev_ind; [done|].
  rewrite foldl_snoc, IH, !omap_app. destruct a as [| | | | | | | | |? ? []|]; cbn; by rewrite ?app_nil_r, ?last_snoc.
Qed.

(** Every FETCH response gives its result. *)
Lemma fetch_results frames :
  Forall (accepts is_fetch) frames → Forall2 fetch_of frames (omap fetch_result frames).
Proof.
  induction 1 as [|f frames (r & Hp & Hr) _ IH]; [constructor|]. simpl. unfold fetch_result at 1. rewrite Hp.
  destruct r as [|[]|]; try done. constructor; [|done]. eexists _, _. split; [done|]. apply fetch_attributes.
Qed.

(** A login that succeeds: the command, its answer, and the rest of the run. *)
Lemma login_run max user pass self c tr s' c' :
  reachable max c → finishes max (session.login user pass self) c tr (inl s') c' →
  ∃ user_q pass_q rid frame c1 tr',
    imap_quoted user = inl user_q ∧ as_imap_quoted pass = inl pass_q
    ∧ tr = Ev_Command rid (login_command user_q pass_q) None :: tr'
    ∧ reachable max c1 ∧ answered c' rid frame
    ∧ finishes max (session.authenticated frame self) c1 tr' (inl s') c'.
Proof.
  intros Hc Hf. unfold session.login, try_res in Hf.
  destruct (imap_quoted user) as [uq|e]; [|by apply finishes_ret in Hf as [_ ?]].
  destruct (as_imap_quoted pass) as [pq|e]; [|by apply finishes_ret in Hf as [_ ?]].
  apply finishes_try_exec in Hf as (x & c1 & tr1 & tr2 & Hc1 & Hl & Hx & -> & Hf); [|done].
  destruct x as [frame|e]; [|by destruct Hf].
  destruct Hx as [(e & _ & ? & _)|(rid & -> & _ & Ha)]; [done|].
  exists uq, pq, rid, frame, c1, tr2. split_and!; try done. eapply later_answered; [done..|]. by apply Ha.
Qed.

(** How AUTHENTICATE PLAIN ends: it sends nothing or the command only; the
    SASL line too, after a continuation request; or the command is answered
    [OK] and the session goes on. *)
Inductive auth_outcome (max : Z) (user : str) (pass : Password) (self : Session Unauthenticated Tls)
    (c' : client) : list event → res (Session Authenticated Tls) → Prop :=
| auth_unsent tr e :
    (tr = [] ∨ ∃ rid, tr = [Ev_Command rid (b! "AUTHENTICATE PLAIN") (Some is_continuation)]) →
    auth_outcome max user pass self c' tr (inr e)
| auth_sent rid line f e :
    sasl_plain_line user pass = Some line → received is_continuation c' f →
    auth_outcome max user pass self c'
      [Ev_Command rid (b! "AUTHENTICATE PLAIN") (Some is_continuation); Ev_Raw line] (inr e)
| auth_answered rid line f frame c1 tr r :
    sasl_plain_line user pass = Some line → received is_continuation c' f →
    reachable max c1 → answered c' rid frame →
    finishes max (session.authenticated frame self) c1 tr r c' →
    auth_outcome max user pass self c'
      (Ev_Command rid (b! "AUTHENTICATE PLAIN") (Some is_continuation) :: Ev_Raw line :: tr) r.

Lemma authenticate_run max user pass self c tr r c' :
  reachable max c → finishes max (session.authenticate_plain user pass self) c tr r c' →
  auth_outcome max user pass self c' tr r.
Proof.
  intros Hc Hf. unfold session.authenticate_plain in Hf.
  destruct (existsb _ user); [apply finishes_ret in Hf as [-> ->]; apply auth_unsent; auto|].
  destruct (existsb _ _); [apply finishes_ret in Hf as [-> ->]; apply auth_unsent; auto|].
  apply finishes_send_streaming in Hf as [(e & -> & ->)|(stream & c1 & tr1 & Hc1 & Hw & -> & Hf)];
    [apply auth_unsent; auto| |done].
  apply finishes_try in Hf as (x & c2 & tr2 & tr3 & Hp & Hl & -> & Hf).
  assert (Hc2 : reachable max c2) by by eapply finishes_reachable.
  apply finishes_await_continuation in Hp as [-> Hx]; [|done..]. cbn [app].
  destruct x as [rid|e]; [|destruct Hf as [-> ->]; apply auth_unsent; eauto].
  destruct (Hx _ eq_refl) as [-> [f Hrecv]].
  destruct (sasl_plain_line user pass) as [line|] eqn:Hline; [|by apply finishes_panics in Hf].
  assert (Hrecv' : received is_continuation c' f) by by eapply received_later_1.
  apply finishes_try in Hf as (x & c3 & tr4 & tr5 & Hp & Hl3 & -> & Hf).
  assert (Hc3 : reachable max c3) by by eapply finishes_reachable.
  apply finishes_send_raw in Hp as (y & c4 & tr6 & Hl4 & Hp & ->). apply finishes_ret in Hp as [-> ->].
  destruct y as [[]|e]; cbn [app]; [|destruct Hf as [-> ->]; apply auth_unsent; eauto].
  apply finishes_try_await in Hf as (x & c5 & Hc5 & Hl5 & Hf); [|done]. destruct x as [frame|e].
  - destruct Hf as [Ha Hf]. by apply (auth_answered max user pass self c' _ line f frame c5).
  - destruct Hf as [-> ->]. by apply (auth_sent max user pass self c' _ line f).
Qed.

(** IDLE that is accepted, and its end. *)
Lemma idle_run {T} max (self : Session Selected T) c tr h c1 :
  reachable max c → finishes max (session.idle self) c tr (inl h) c1 →
  tr = [Ev_Command (ih_reply h) (b! "IDLE") (Some is_continuation)] ∧ ∃ f, received is_continuation c1 f.
Proof.
  intros Hc Hf. unfold session.idle in Hf.
  destruct (Capabilities.idle _); [cbn [negb] in Hf|by apply finishes_ret in Hf as [_ ?]].
  apply finishes_send_streaming in Hf as [(e & _ & ?)|(stream & c4 & tr1 & Hc4 & Hw & -> & Hf)]; [done| |done].
  apply finishes_try in Hf as (x & c5 & tr3 & tr4 & Hp & Hl5 & -> & Hf).
  apply finishes_await_continuation in Hp as [-> Hx]; [|done..].
  destruct x as [rid|e]; [|by destruct Hf]. destruct (Hx _ eq_refl) as [-> [f Hrecv]].
  apply finishes_ret in Hf as [-> [= ->]]. split; [done|]. exists f. by eapply received_later_1.
Qed.

Lemma stop_run max h c tr r c' :
  reachable max c → finishes max (stop_with_timeout h) c tr r c' →
  (tr = [] ∨ tr = [Ev_Raw (b! "DONE" ++ [CR; LF])])
  ∧ (r = inl tt → tr = [Ev_Raw (b! "DONE" ++ [CR; LF])] ∧ ∃ ok, answered c' (ih_reply h) ok).
Proof.
  intros Hc Hs. unfold stop_with_timeout in Hs. apply finishes_try in Hs as (y & c6 & tr5 & tr6 & Hp & Hl6 & -> & Hs).
  assert (Hc6 : reachable max c6) by by eapply finishes_reachable.
  apply finishes_send_raw in Hp as (z & c7 & tr7 & _ & Hp & ->). apply finishes_ret in Hp as [-> ->].
  destruct z as [[]|e]; [|destruct Hs as [-> ->]; split; [by left|done]].
  apply finishes_try_await in Hs as (z & c8 & Hc8 & Hl8 & Hs); [|done]. destruct z as [frame|e].
  - destruct Hs as [Ha Hs]. apply finishes_ret in Hs as [-> ->]. split; [by right|].
    intros _. split; [done|by exists frame].
  - destruct Hs as [-> ->]. split; [by right|done].
Qed.

(* ------------------------------------------------------------------ *)
(** ** Schedules for concrete instances                                 *)
(* ------------------------------------------------------------------ *)

Definition line (s : str) : bytes := s ++ [CR; LF].

(** The server answers a command at once: the client's actions, and the
    schedule of the program that sends it. *)
Definition server_says (bs : bytes) (rounds : nat) : list action :=
  [A_Writer; A_Write (Write_Ok 4096); A_Read (Read_Ok bs)] ++ replicate rounds A_Reader.

Definition login_acts (cmd : str) : list action :=
  A_Enqueue cmd None :: server_says (line (b! "A0001 OK [CAPABILITY IDLE] hi")) 2.
Definition answer_sched (answer : str) : list choice :=
  Go :: (Env <$> server_says (line answer) 2) ++ [Go].

(** AUTHENTICATE PLAIN, with its continuation and the SASL line. *)
Definition auth_sched : list choice :=
  Go :: (Env <$> server_says (line (b! "+ go")) 3) ++ [Go; Go; Go]
  ++ (Env <$> server_says (line (b! "A0001 OK [CAPABILITY IDLE] hi")) 2) ++ [Go].
Definition auth_acts : list action :=
  A_Enqueue (b! "AUTHENTICATE PLAIN") (Some is_continuation) :: server_says (line (b! "+ go")) 3
  ++ [A_Next 0; A_IntoReply 0; A_SendRaw (line (b! "AHUAcA=="))]
  ++ server_says (line (b! "A0001 OK [CAPABILITY IDLE] hi")) 2.

(** A streaming command: its data, its answer, then the program's rounds. *)
Definition stream_run (cmd : str) (wants : FrameFilter) (bs : bytes) : list action :=
  A_Enqueue cmd (Some wants) :: server_says bs 4 ++ [A_Next 0; A_Next 0; A_IntoReply 0].
Definition stream_sched_of (bs : bytes) : list choice :=
  Go :: (Env <$> server_says bs 4) ++ [Go; Go; Go; Go].
Definition fetch_run : list action := stream_run (b! "FETCH 1 UID") is_fetch fetch_bytes.
Definition stream_sched : list choice := stream_sched_of fetch_bytes.
Definition search_bytes : bytes := line (b! "* SEARCH 2 84") ++ line (b! "A0001 OK done").
Definition search_run : list action := stream_run (b! "SEARCH ALL") is_search search_bytes.
Definition search_sched : list choice := stream_sched_of search_bytes.

(** IDLE, and its end. *)
Definition idle_acts : list action :=
  A_Enqueue (b! "IDLE") (Some is_continuation) :: server_says (line (b! "+ idling")) 3 ++ [A_Next 0; A_IntoReply 0].
Definition idle_sched : list choice :=
  Go :: (Env <$> server_says (line (b! "+ idling")) 3) ++ [Go; Go].
Definition idle_done_acts : list action :=
  idle_acts ++ A_SendRaw (line (b! "DONE")) :: server_says (line (b! "A0001 OK done")) 2.
Definition done_sched : list choice :=
  Go :: (Env <$> server_says (line (b! "A0001 OK done")) 2) ++ [Go].

(* ------------------------------------------------------------------ *)
(** ** Properties                                                       *)
(* ------------------------------------------------------------------ *)

(** C23: a session becomes authenticated by [login] only when the server
    answered this very LOGIN line, with the quoted credentials, with a tagged
    [OK]; what else was sent is at most one [CAPABILITY], and the capabilities
    of the new session come from that answer. *)
Theorem login_authentic max user pass self c tr s' c' :
  reachable max c → finishes max (session.login user pass self) c tr (inl s') c' →
  ∃ user_q pass_q rid frame tr',
    imap_quoted user = inl user_q ∧ as_imap_quoted pass = inl pass_q
    ∧ tr = Ev_Command rid (login_command user_q pass_q) None :: tr'
    ∧ answered c' rid frame
    ∧ refreshed (capabilities self) (capabilities s') frame tr' c'.
Proof.
  intros Hc (uq & pq & rid & frame & c1 & tr' & ? & ? & -> & Hc1 & Ha & Hf)%login_run; [|done].
  exists uq, pq, rid, frame, tr'. split_and!; [done..|]. by eapply finishes_authenticated.
Qed.

Lemma login_authentic_witness :
  ∃ rid frame, answered (after (login_acts (b! "LOGIN " ++ wire.quote (b! "u") ++ [SP] ++ wire.quote (b! "p")))) rid frame.
Proof.
  destruct (login_authentic MAX_FRAME_SIZE (b! "u") (Password_new (b! "p")) (mkSession caps_default) client_new
    [Ev_Command 0 (b! "LOGIN " ++ wire.quote (b! "u") ++ [SP] ++ wire.quote (b! "p")) None]
    (mkSession (from_atoms [b! "IDLE"]))
    (after (login_acts (b! "LOGIN " ++ wire.quote (b! "u") ++ [SP] ++ wire.quote (b! "p")))))
    as (uq & pq & rid & frame & tr' & _ & _ & _ & Ha & _).
  - constructor.
  - exists (answer_sched (b! "A0001 OK [CAPABILITY IDLE] hi")). vm_compute. reflexivity.
  - exists rid, frame. exact Ha.
Defined.

(** C24: [authenticate_plain] sends the credentials only after a continuation
    request, and only as the SASL line; it succeeds only when the server
    answered this very AUTHENTICATE with a tagged [OK]. *)
Theorem authenticate_plain_safe max user pass self c tr r c' :
  reachable max c → finishes max (session.authenticate_plain user pass self) c tr r c' →
  (∀ bs, Ev_Raw bs ∈ tr → sasl_plain_line user pass = Some bs ∧ ∃ f, received is_continuation c' f)
  ∧ ∀ s', r = inl s' → ∃ rid line frame tr',
      tr = Ev_Command rid (b! "AUTHENTICATE PLAIN") (Some is_continuation) :: Ev_Raw line :: tr'
      ∧ sasl_plain_line user pass = Some line ∧ answered c' rid frame
      ∧ refreshed (capabilities self) (capabilities s') frame tr' c'.
Proof.
  intros Hc [tr' e [->|[rid ->]]|rid line f e Hs Hr|rid line f frame c1 tr' r' Hs Hr Hc1 Ha Hf]%authenticate_run;
    [sends_no_raw..| | |done].
  - split; [|done]. intros bs [?|[[= ->]|?%not_elem_of_nil]%elem_of_cons]%elem_of_cons; [done|by eauto|done].
  - split.
    + intros bs [?|[[= ->]|Hin]%elem_of_cons]%elem_of_cons; [done|by eauto|].
      by destruct (finishes_authenticated_no_raw _ _ _ _ _ _ _ Hc1 Hf bs).
    + intros s' ->. apply finishes_authenticated in Hf; [|done]. by exists rid, line, frame, tr'.
Qed.

Lemma authenticate_plain_safe_witness :
  ∃ f, received is_continuation (after auth_acts) f.
Proof.
  destruct (authenticate_plain_safe MAX_FRAME_SIZE (b! "u") (Password_new (b! "p")) (mkSession caps_default)
    client_new
    [Ev_Command 0 (b! "AUTHENTICATE PLAIN") (Some is_continuation); Ev_Raw (b! "AHUAcA==" ++ [CR; LF])]
    (inl (mkSession (from_atoms [b! "IDLE"]))) (after auth_acts)) as [H _].
  - constructor.
  - exists auth_sched. vm_compute. reflexivity.
  - destruct (H (b! "AHUAcA==" ++ [CR; LF])) as [_ Hf]; [right; left|exact Hf].
Defined.

(** C25: the SASL line never hits an index out of the alphabet; it is one line
    of base64, and a server that decodes it reads back the user and the
    password. *)
Theorem sasl_line_roundtrip user pass :
  ∃ e, sasl_plain_line user pass = Some (e ++ [CR; LF])
    ∧ Forall (λ c, c ∈ ALPHABET ∨ c = PAD) e
    ∧ decode e = Some ([NUL] ++ user ++ [NUL] ++ password_as_str pass).
Proof.
  destruct (encoding_spec ([NUL] ++ user ++ [NUL] ++ password_as_str pass)) as (e & He & Hd & _ & Hf).
  exists e. unfold sasl_plain_line. rewrite encode_into_encoding, He. done.
Qed.

(** C29: SELECT, EXAMINE, CLOSE and UNSELECT change the state of the session
    only when the server answered that command with a tagged [OK], and keep the
    capabilities. *)
Theorem transitions_answered max T c tr c' :
  reachable max c →
  (∀ mailbox (self : Session Authenticated T) s',
     finishes max (session.select mailbox self) c tr (inl s') c' →
     ∃ mb rid frame, imap_quoted mailbox = inl mb ∧ tr = [Ev_Command rid (b! "SELECT " ++ mb) None]
       ∧ answered c' rid frame ∧ capabilities s' = capabilities self)
  ∧ (∀ mailbox (self : Session Authenticated T) s',
     finishes max (session.examine mailbox self) c tr (inl s') c' →
     ∃ mb rid frame, imap_quoted mailbox = inl mb ∧ tr = [Ev_Command rid (b! "EXAMINE " ++ mb) None]
       ∧ answered c' rid frame ∧ capabilities s' = capabilities self)
  ∧ (∀ (self : Session Selected T) s',
     finishes max (session.close_mailbox self) c tr (inl s') c' →
     ∃ rid frame, tr = [Ev_Command rid (b! "CLOSE") None]
       ∧ answered c' rid frame ∧ capabilities s' = capabilities self)
  ∧ (∀ (self : Session Selected T) s',
     finishes max (session.unselect self) c tr (inl s') c' →
     Capabilities.unselect (capabilities self) = true
     ∧ ∃ rid frame, tr = [Ev_Command rid (b! "UNSELECT") None]
       ∧ answered c' rid frame ∧ capabilities s' = capabilities self).
Proof.
  intros Hc. split_and!.
  1,2: intros mailbox self s' Hf; unfold session.select, session.examine, try_res in Hf;
    destruct (imap_quoted mailbox) as [mb|e]; [|by apply finishes_ret in Hf as [_ ?]];
    apply finishes_transition in Hf as (-> & rid & frame & -> & Ha); [by exists mb, rid, frame|done].
  - intros self s' Hf. apply finishes_transition in Hf as (-> & rid & frame & -> & Ha); [by exists rid, frame|done].
  - intros self s' Hf. unfold session.unselect in Hf.
    destruct (Capabilities.unselect (capabilities self)); [|by apply finishes_ret in Hf as [_ ?]].
    split; [done|]. cbn [negb] in Hf.
    apply finishes_transition in Hf as (-> & rid & frame & -> & Ha); [by exists rid, frame|done].
Qed.

Lemma transitions_answered_witness :
  ∃ rid frame, answered (after (login_acts (b! "CLOSE"))) rid frame.
Proof.
  destruct (transitions_answered MAX_FRAME_SIZE Tls client_new [Ev_Command 0 (b! "CLOSE") None]
    (after (login_acts (b! "CLOSE"))) (reachable_new _)) as (_ & _ & H & _).
  destruct (H (mkSession caps_default) (mkSession caps_default)) as (rid & frame & _ & Ha & _).
  - exists (answer_sched (b! "A0001 OK [CAPABILITY IDLE] hi")). vm_compute. reflexivity.
  - exists rid, frame. exact Ha.
Defined.

(** A method that needs a capability the server has not advertised sends
    nothing and says so. *)
Theorem capability_gated max T (self : Session Selected T) c tr c' :
  (Capabilities.unselect (capabilities self) = false →
   ∀ r, finishes max (session.unselect self) c tr r c' → tr = [] ∧ r = inr (CE_UnsupportedCapability "UNSELECT"))
  ∧ (Capabilities.idle (capabilities self) = false →
     ∀ r, finishes max (session.idle self) c tr r c' → tr = [] ∧ r = inr (CE_UnsupportedCapability "IDLE"))
  ∧ (move_ext (capabilities self) = false →
     ∀ set mailbox r, finishes max (session.move_messages set mailbox self) c tr r c' →
       tr = [] ∧ r = inr (CE_UnsupportedCapability "MOVE")).
Proof.
  split_and!; intros Hcap; intros *; unfold session.unselect, session.idle, session.move_messages;
    rewrite Hcap; apply finishes_ret.
Qed.

Lemma capability_gated_witness :
  [] = ([] : list event) ∧ inr (CE_UnsupportedCapability "IDLE") = (inr (CE_UnsupportedCapability "IDLE") : res IdleHandle).
Proof.
  destruct (capability_gated MAX_FRAME_SIZE Tls (mkSession caps_default) client_new [] client_new) as (_ & H & _).
  apply H; [reflexivity|]. exists []. reflexivity.
Defined.

(** C30: what [fetch] returns is one result for each frame of its own command's
    stream, all of them, in wire order, and only after the server answered
    this very command with a tagged [OK]. A result has the number of its FETCH
    response, its last UID and its last body. A FETCH response that arrived
    while the command waited is in, unless another stream asked for it too.
    With an invalid argument nothing is sent. *)
Theorem fetch_faithful max T set items (self : Session Selected T) c tr r c' :
  reachable max c → finishes_own max (session.fetch set items self) c tr r c' →
  (tr = [] ∧ ∃ e, r = inr e)
  ∨ ∃ rid cmd, session.fetch_command set items = inl cmd ∧ tr = [Ev_Command rid cmd (Some is_fetch)]
      ∧ ∀ results, r = inl results → (∃ ok, answered c' rid ok)
          ∧ delivered rid is_fetch c' ∧ Forall2 fetch_of (stream_of rid c') results.
Proof.
  intros Hc Ho. pose proof (own_finishes _ _ _ _ _ _ Ho) as Hf. unfold session.fetch, try_res in Hf, Ho.
  destruct (session.fetch_command set items) as [cmd|e] eqn:Hcmd;
    [|apply finishes_ret in Hf as [-> ->]; left; split; [done|by eexists]].
  apply (finishes_streaming _ _ _ (λ _ frames, omap fetch_result frames)) in Hf
    as [(e & -> & -> & _)|(rid & -> & _ & _)]; [left; split; [done|by eexists]| |done].
  right. exists rid, cmd. split_and!; [done..|]. intros results ->.
  apply (own_streaming _ _ _ (λ _ frames, omap fetch_result frames)) in Ho
    as (rid' & ok & [= <-] & Ha & -> & Hd); [|done].
  split; [by exists ok|]. split; [done|]. apply fetch_results. destruct Hd as [[Hr _] _].
  eapply Forall_impl; [done|]. by intros f [_ ?].
Qed.

Lemma fetch_faithful_witness :
  Forall2 fetch_of (stream_of 0 (after fetch_run)) [mkFetchResult 1 (Some 7) None]
  ∧ stream_of 0 (after fetch_run) = [b! "* 1 FETCH (UID 7)" ++ [CR; LF]].
Proof.
  destruct (fetch_faithful MAX_FRAME_SIZE Tls (b! "1") (b! "UID") (mkSession caps_default) client_new
    [Ev_Command 0 (b! "FETCH 1 UID") (Some is_fetch)] (inl [mkFetchResult 1 (Some 7) None]) (after fetch_run))
    as [[H _]|(rid & cmd & _ & Htr & H)].
  - constructor.
  - exists stream_sched. split; [vm_compute; repeat split; by intros|vm_compute; reflexivity].
  - discriminate H.
  - injection Htr as <- _. destruct (H _ eq_refl) as (_ & _ & Hf). split; [exact Hf|vm_compute; reflexivity].
Defined.

(** C31: what [search] and [uid_search] return is the numbers of all the frames of
    the command's own stream, each a SEARCH response, in wire order, and only
    after its tagged [OK]. A SEARCH response that arrived while the command
    waited is in, unless another stream asked for it too. A query with a CR, LF
    or NUL in it is refused and nothing is sent. *)
Theorem search_faithful max T (uid : bool) query (self : Session Selected T) c tr r c' :
  let cmd := (if uid then b! "UID SEARCH " else b! "SEARCH ") ++ build query in
  reachable max c →
  finishes_own max (if uid then session.uid_search query self else session.search query self) c tr r c' →
  (tr = [] ∧ ∃ e, r = inr e
     ∧ (wire.reject_line_breaks cmd ≠ inl tt → e = CE_InvalidArgument "command contains CR, LF or NUL"))
  ∨ ∃ rid, wire.reject_line_breaks cmd = inl tt ∧ tr = [Ev_Command rid cmd (Some is_search)]
      ∧ ∀ ids, r = inl ids → (∃ ok, answered c' rid ok)
          ∧ delivered rid is_search c'
          ∧ ∃ lists, ids = concat lists
              ∧ Forall2 (λ f l, parse_response f = Parsed [] (Resp_Data (DR_Search l))) (stream_of rid c') lists.
Proof.
  intros cmd Hc Hm. assert (Ho : finishes_own max (session.run_search cmd self) c tr r c') by by destruct uid.
  pose proof (own_finishes _ _ _ _ _ _ Ho) as Hf.
  apply (finishes_streaming _ _ _ (λ _ frames, frames ≫= search_ids)) in Hf
    as [(e & -> & -> & He)|(rid & -> & Hcmd & _)]; [| |done].
  - left. split; [done|]. exists e. split; [done|]. intros Hne. specialize (He Hne).
    unfold wire.reject_line_breaks in He. by case_match; simplify_eq.
  - right. exists rid. split_and!; [done..|]. intros ids ->.
    apply (own_streaming _ _ _ (λ _ frames, frames ≫= search_ids)) in Ho
      as (rid' & ok & [= <-] & Ha & -> & Hd); [|done].
    split; [by exists ok|]. split; [done|]. exists (search_ids <$> stream_of rid c').
    split; [by rewrite concat_fmap_bind|]. apply Forall2_fmap_r, Forall_Forall2_diag.
    destruct Hd as [[Hr _] _]. eapply Forall_impl; [done|].
    intros f [_ (rsp & Hp & Hw)]. unfold search_ids. cbn. rewrite Hp. by destruct rsp as [|[]|].
Qed.

Lemma search_faithful_witness :
  stream_of 0 (after search_run) = [line (b! "* SEARCH 2 84")]
  ∧ ∃ lists, [2; 84] = concat lists
      ∧ Forall2 (λ f l, parse_response f = Parsed [] (Resp_Data (DR_Search l))) (stream_of 0 (after search_run)) lists.
Proof.
  destruct (search_faithful MAX_FRAME_SIZE Tls false (SearchQuery_new SK_All) (mkSession caps_default) client_new
    [Ev_Command 0 (b! "SEARCH ALL") (Some is_search)] (inl [2; 84]) (after search_run))
    as [[H _]|(rid & _ & Htr & H)].
  - constructor.
  - exists search_sched. split; [vm_compute; repeat split; by intros|vm_compute; reflexivity].
  - discriminate H.
  - injection Htr as <-. destruct (H _ eq_refl) as (_ & _ & Hl). split; [vm_compute; reflexivity|exact Hl].
Defined.

(** C32: an [IdleHandle] exists only when the server accepted IDLE with a
    continuation request. Stopping it sends [DONE] and nothing else, and
    succeeds only on the tagged [OK] of that IDLE. *)
Theorem idle_then_stop max T (self : Session Selected T) c tr h c1 c2 tr2 r c3 :
  reachable max c → finishes max (session.idle self) c tr (inl h) c1 → later max c1 c2 →
  finishes max (stop_with_timeout h) c2 tr2 r c3 →
  tr = [Ev_Command (ih_reply h) (b! "IDLE") (Some is_continuation)]
  ∧ (∃ f, received is_continuation c1 f)
  ∧ (tr2 = [] ∨ tr2 = [Ev_Raw (b! "DONE" ++ [CR; LF])])
  ∧ (r = inl tt → tr2 = [Ev_Raw (b! "DONE" ++ [CR; LF])] ∧ ∃ ok, answered c3 (ih_reply h) ok).
Proof.
  intros Hc Hf Hl Hs. assert (Hc2 : reachable max c2).
  { eapply later_reachable; [done|]. by eapply later_reachable; [eapply finishes_later|]. }
  destruct (idle_run _ _ _ _ _ _ Hc Hf) as [-> Hg]. split_and!; [done..|by eapply stop_run|by eapply stop_run].
Qed.

Lemma idle_then_stop_witness : ∃ ok, answered (after idle_done_acts) 0 ok.
Proof.
  destruct (idle_then_stop MAX_FRAME_SIZE Tls (mkSession (from_atoms [b! "IDLE"])) client_new
    [Ev_Command 0 (b! "IDLE") (Some is_continuation)] (mkIdleHandle 0) (after idle_acts) (after idle_acts)
    [Ev_Raw (b! "DONE" ++ [CR; LF])] (inl tt) (after idle_done_acts)) as (_ & _ & _ & H).
  - constructor.
  - exists idle_sched. vm_compute. reflexivity.
  - reflexivity.
  - exists done_sched. vm_compute. reflexivity.
  - apply H. reflexivity.
Defined.
