(* ===== verification/Protocol.v ===== *)
(** The protocol states of RFC 3501 (section 3) and what the type of a
    [Session] says about them: the methods of a state send only what the state
    permits, and the state a session's type names is the one the server is in,
    as its tagged answers tell. *)

From S2P Require Import Prelude Str Ast Monad ResponseParser ParserSafety ParserStream.
From S2P Require Import ParserLocal ParserTheorems ParserRead Base64 ClientError Flags Wire.
From S2P Require Import Credentials Search Capabilities Client ClientFraming ClientReplies.
From S2P Require Import ClientStreams ClientOrder Program Lossy Session SessionTheorems.
From stdpp Require Import options.

#[export] Instance State_eq_dec : EqDecision State.
Proof. solve_decision. Defined.
#[export] Instance Transport_eq_dec : EqDecision Transport.
Proof. solve_decision. Defined.

(* ------------------------------------------------------------------ *)
(** ** The protocol                                                     *)
(* ------------------------------------------------------------------ *)

(** The first word of a command. *)
Fixpoint verb (cmd : str) : str :=
  match cmd with
  | [] => []
  | c :: cmd => if c =?b SP then [] else c :: verb cmd
  end.

(** The commands of each state. Credentials travel over TLS only. *)
Definition ANYWHERE : list str := [b! "CAPABILITY"; b! "NOOP"; b! "LOGOUT"].
Definition LOGINS : list str := [b! "LOGIN"; b! "AUTHENTICATE"].
Definition WITH_LOGIN : list str := [b! "SELECT"; b! "EXAMINE"; b! "LIST"].
Definition WITH_MAILBOX : list str :=
  [b! "FETCH"; b! "STORE"; b! "SEARCH"; b! "UID"; b! "EXPUNGE"; b! "CLOSE"; b! "UNSELECT";
   b! "CHECK"; b! "IDLE"; b! "MOVE"].

Definition commands_of (s : State) (t : Transport) : list str :=
  ANYWHERE ++
  match s, t with
  | Unauthenticated, Tls => LOGINS
  | Unauthenticated, PlainText => []
  | Authenticated, _ => WITH_LOGIN
  | Selected, _ => WITH_LOGIN ++ WITH_MAILBOX
  end.

(** What may be sent: a command of the state, and raw lines (the SASL
    response) over TLS only. *)
Definition permits (s : State) (t : Transport) (ev : event) : bool :=
  match ev with
  | Ev_Command _ cmd _ => bool_decide (verb cmd ∈ commands_of s t)
  | Ev_Raw _ => bool_decide (t = Tls)
  end.

(** The state after a command the server has answered [OK]. *)
Definition state_after (s : State) (cmd : str) : State :=
  if bool_decide (verb cmd ∈ LOGINS) then Authenticated
  else if bool_decide (verb cmd ∈ [b! "SELECT"; b! "EXAMINE"]) then Selected
  else if bool_decide (verb cmd ∈ [b! "CLOSE"; b! "UNSELECT"]) then Authenticated
  else s.

(** The tagged [OK] of a command has reached its caller. *)
Definition acknowledged (c : client) (rid : reply_id) : bool :=
  match sh_replies (cl_shared c) !! rid with Some (inl _) => true | _ => false end.

Definition server_step (c : client) (s : State) (ev : event) : State :=
  match ev with
  | Ev_Command rid cmd _ => if acknowledged c rid then state_after s cmd else s
  | Ev_Raw _ => s
  end.

(** The server's states over a log of what was sent: [None] when something was
    sent that its state did not permit. *)
Fixpoint conforms (c : client) (t : Transport) (s : State) (log : list event) : option State :=
  match log with
  | [] => Some s
  | ev :: log => if permits s t ev then conforms c t (server_step c s ev) log else None
  end.

(* ------------------------------------------------------------------ *)
(** ** The methods                                                      *)
(* ------------------------------------------------------------------ *)

(** The methods that borrow the session, with their results. *)
Inductive call : State → Transport → Type → Type :=
| C_refresh S T : call S T unit
| C_noop S T : call S T unit
| C_list T (reference mask : str) : call Authenticated T bytes
| C_fetch_raw T (set items : str) : call Selected T bytes
| C_fetch T (set items : str) : call Selected T (list FetchResult)
| C_fetch_body T (set : str) : call Selected T (option str)
| C_search T (q : SearchQuery) : call Selected T (list Z)
| C_uid_search T (q : SearchQuery) : call Selected T (list Z)
| C_store T (set : str) (a : StoreAction) (fl : list Flag) : call Selected T bytes
| C_uid_store T (set : str) (a : StoreAction) (fl : list Flag) : call Selected T bytes
| C_expunge T : call Selected T bytes
| C_check T : call Selected T unit
| C_idle T : call Selected T IdleHandle
| C_move T (set mailbox : str) : call Selected T bytes.

(** The methods that consume it and return another. *)
Inductive transition : State → State → Transport → Type :=
| T_login (user : str) (pass : Password) : transition Unauthenticated Authenticated Tls
| T_authenticate (user : str) (pass : Password) : transition Unauthenticated Authenticated Tls
| T_select T (mailbox : str) : transition Authenticated Selected T
| T_examine T (mailbox : str) : transition Authenticated Selected T
| T_close T : transition Selected Authenticated T
| T_unselect T : transition Selected Authenticated T.

(** The session after a method that does not change it. *)
Definition keeping {S T A} (self : Session S T) (p : prog (res A)) : prog (res A * Session S T) :=
  pbind p (λ r, Ret (r, self)).

Definition run_call {S T A} (m : call S T A) : Session S T → prog (res A * Session S T) :=
  match m with
  | C_refresh _ _ => session.refresh_capabilities
  | C_noop _ _ => λ self, keeping self (session.noop self)
  | C_list T r m => λ self, keeping self (session.list_ r m self)
  | C_fetch_raw T set items => λ self, keeping self (session.fetch_raw set items self)
  | C_fetch T set items => λ self, keeping self (session.fetch set items self)
  | C_fetch_body T set => λ self, keeping self (session.fetch_body set self)
  | C_search T q => λ self, keeping self (session.search q self)
  | C_uid_search T q => λ self, keeping self (session.uid_search q self)
  | C_store T set a fl => λ self, keeping self (session.store set a fl self)
  | C_uid_store T set a fl => λ self, keeping self (session.uid_store set a fl self)
  | C_expunge T => λ self, keeping self (session.expunge self)
  | C_check T => λ self, keeping self (session.check self)
  | C_idle T => λ self, keeping self (session.idle self)
  | C_move T set mb => λ self, keeping self (session.move_messages set mb self)
  end.

Definition run_transition {S S' T} (m : transition S S' T) : Session S T → prog (res (Session S' T)) :=
  match m with
  | T_login user pass => session.login user pass
  | T_authenticate user pass => session.authenticate_plain user pass
  | T_select T mb => session.select mb
  | T_examine T mb => session.examine mb
  | T_close T => session.close_mailbox
  | T_unselect T => session.unselect
  end.

(** The sessions a program can hold: [lives max c log self] when [self] has
    sent [log] over the client, now in state [c]. A new session starts over
    TLS or in cleartext; time passes; a method that borrows the session
    returns, whatever its result; one that consumes it succeeds. *)
Inductive lives (max : Z) : ∀ {S T}, client → list event → Session S T → Prop :=
| lives_new_tls c caps : reachable max c → lives max c [] (session.new_tls caps)
| lives_new c caps : reachable max c → lives max c [] (session.new caps)
| lives_later {S T} c c' log (self : Session S T) :
    lives max c log self → later max c c' → lives max c' log self
| lives_call {S T A} (m : call S T A) c log self tr r self' c' :
    lives max c log self → finishes max (run_call m self) c tr (r, self') c' →
    lives max c' (log ++ tr) self'
| lives_transition {S S' T} (m : transition S S' T) c log self tr self' c' :
    lives max c log self → finishes max (run_transition m self) c tr (inl self') c' →
    lives max c' (log ++ tr) self'.

(* ------------------------------------------------------------------ *)
(** ** What a program can send                                          *)
(* ------------------------------------------------------------------ *)

(** Whatever [p] learns, everything it sends satisfies [P]. *)
Fixpoint sends {A} (P : event → Prop) (p : prog A) : Prop :=
  match p with
  | Ret _ | Panics => True
  | Enqueue cmd wants k => (∀ rid, P (Ev_Command rid cmd wants)) ∧ ∀ r, sends P (k r)
  | SendRaw bs k => P (Ev_Raw bs) ∧ ∀ r, sends P (k r)
  | Next _ k => ∀ r, sends P (k r)
  | Drain _ _ k => ∀ fs b, sends P (k fs b)
  | IntoReply _ k | DropStream _ k => sends P k
  | Await _ _ k => ∀ r, sends P (k r)
  | Events k => ∀ n, sends P (k n)
  | Recv _ k => ∀ r, sends P (k r)
  end.

Section sends.
Context (P : event → Prop).

Lemma sends_step {A} (p : prog A) c ev p' c' :
  sends P p → prog_step p c = Some (ev, p', c') → Forall P ev ∧ sends P p'.
Proof.
  destruct p as [a|cmd wants k|bs k|tx k|tx acc k|tx k|tx k|timed rid k|k|n k|]; cbn [prog_step sends];
    try done.
  - intros [HP Hk] ([c1 r] & _ & [= <- <- _])%bind_Some. split; [|done].
    destruct r as [[[? ?] ?]|]; by repeat constructor.
  - intros [HP Hk] ([c1 r] & _ & [= <- <- _])%bind_Some. split; [|done]. destruct r; by repeat constructor.
  - intros Hk ([c1 r] & _ & [= <- <- _])%bind_Some. by split; [constructor|].
  - intros Hk ([c1 r] & _ & [= <- <- _])%bind_Some. split; [constructor|]. by destruct r.
  - intros Hk [= <- <- _]. by split; [constructor|].
  - intros Hk [= <- <- _]. by split; [constructor|].
  - intros Hk. repeat case_match; intros; simplify_eq; by split; [constructor|].
  - intros Hk [= <- <- _]. by split; [constructor|].
  - intros Hk. repeat case_match; intros; simplify_eq; by split; [constructor|].
Qed.

Lemma sends_timeout {A} (p p' : prog A) : sends P p → prog_timeout p = Some p' → sends P p'.
Proof. destruct p; cbn; try done; try by intros ? [= <-]. destruct timed; [|done]. by intros ? [= <-]. Qed.

(** Of every run, finished or not. *)
Lemma sends_drive {A} max sched (p : prog A) c tr p' c' :
  sends P p → drive max sched p c = Some (tr, p', c') → Forall P tr.
Proof.
  revert p c tr. induction sched as [|[| |a] sched IH]; intros p c tr Hp; cbn [drive].
  - intros [= <- _ _]. constructor.
  - intros ([[ev p1] c1] & Hs & ([[tr2 p2] c2] & Hd & [= <- -> ->])%bind_Some)%bind_Some.
    apply sends_step in Hs as [??]; [|done]. apply Forall_app. split; [done|]. eapply IH; [|exact Hd]. done.
  - intros (p1 & Hp1 & Hd)%bind_Some. eapply IH; [|done]. by eapply sends_timeout.
  - intros (c1 & _ & Hd)%bind_Some. by eapply IH.
Qed.

Lemma sends_finishes {A} max (p : prog A) c tr a c' :
  sends P p → finishes max p c tr a c' → Forall P tr.
Proof. intros Hp [sched Hd]. by eapply sends_drive. Qed.

Lemma sends_bind {A B} (p : prog A) (f : A → prog B) :
  sends P p → (∀ a, sends P (f a)) → sends P (pbind p f).
Proof.
  intros Hp Hf. induction p as [a|cmd wants k IH|bs k IH|tx k IH|tx acc k IH|tx k IH|tx k IH|timed rid k IH|k IH|n k IH|];
    cbn in *; try done; try (destruct Hp as [HP Hp]; split; [done|]); intros; auto.
Qed.

Lemma sends_ret {A} (a : A) : sends P (Ret a).
Proof. done. Qed.

Lemma sends_try_p {A B} (p : prog (res A)) (f : A → prog (res B)) :
  sends P p → (∀ a, sends P (f a)) → sends P (try_p p f).
Proof. intros. apply sends_bind; [done|]. by intros []. Qed.

Lemma sends_try_res {A B} (r : res A) (f : A → prog (res B)) :
  (∀ a, r = inl a → sends P (f a)) → sends P (try_res r f).
Proof. destruct r; cbn; auto. Qed.

Lemma sends_execute_command cmd : (∀ rid, P (Ev_Command rid cmd None)) → sends P (execute_command cmd).
Proof. intros HP. apply sends_try_p; [|done]. split; [done|]. by intros [[[? ?] ?]|]. Qed.

Lemma sends_streaming cmd wants :
  (∀ rid, P (Ev_Command rid cmd (Some wants))) → sends P (send_command_streaming cmd wants).
Proof. intros HP. split; [done|]. by intros [[[? ?] []]|]. Qed.

Lemma sends_execute_streaming cmd wants :
  (∀ rid, P (Ev_Command rid cmd (Some wants))) → sends P (execute_streaming cmd wants).
Proof.
  intros HP. apply sends_bind; [by apply sends_streaming|]. intros [st|e]; [|done]. by intros fs [].
Qed.

Lemma sends_await_continuation st : sends P (await_continuation st).
Proof. by intros []. Qed.

Lemma sends_await timed rid : sends P (Await timed rid Ret).
Proof. done. Qed.

Lemma sends_raw {A} bs (k : res unit → prog A) :
  P (Ev_Raw bs) → (∀ r, sends P (k r)) → sends P (SendRaw bs k).
Proof. done. Qed.
End sends.

(* ------------------------------------------------------------------ *)
(** ** The methods send what their state permits                        *)
(* ------------------------------------------------------------------ *)

(** The server's state does not depend on the answer. *)
Definition neutral (ev : event) : Prop :=
  match ev with Ev_Command _ cmd _ => ∀ s, state_after s cmd = s | Ev_Raw _ => True end.

(** What a method that stays in its state may send. *)
Definition quiet (S : State) (T : Transport) (ev : event) : Prop := permits S T ev = true ∧ neutral ev.

(** Evaluate a command whose verb is known. *)
Ltac known_verb := intros; split; [reflexivity|intros s; reflexivity].

Ltac sends_step :=
  lazymatch goal with
  | |- sends _ (Ret _) => apply sends_ret
  | |- sends _ Panics => exact I
  | |- sends _ (Await _ _ Ret) => apply sends_await
  | |- sends _ (execute_command _) => apply sends_execute_command
  | |- sends _ (execute_streaming _ _) => apply sends_execute_streaming
  | |- sends _ (send_command_streaming _ _) => apply sends_streaming
  | |- sends _ (await_continuation _) => apply sends_await_continuation
  | |- sends _ (SendRaw _ _) => apply sends_raw; [|intros ?]
  | |- sends _ (try_res _ _) => apply sends_try_res; intros ? ?
  | |- sends _ (try_p _ _) => apply sends_try_p; [|intros ?]
  | |- sends _ (pbind _ _) => apply sends_bind; [|intros ?]
  | |- sends _ (match ?x with _ => _ end) => destruct x eqn:?
  end.

Ltac sends_auto := repeat sends_step.

Section methods.
Implicit Types (S : State) (T : Transport).

(** [CAPABILITY] is permitted in every state. *)
Lemma sends_refresh S T S' T' (self : Session S T) :
  sends (quiet S' T') (session.refresh_capabilities self).
Proof.
  unfold session.refresh_capabilities. sends_auto. destruct S', T'; known_verb.
Qed.

Lemma sends_authenticated S T frame self : sends (quiet S T) (session.authenticated frame self).
Proof.
  unfold session.authenticated, session.refresh_capabilities_from_frame.
  sends_auto; apply sends_refresh.
Qed.

(** A method that borrows the session. *)
Lemma sends_call S T A (m : call S T A) self : sends (quiet S T) (run_call m self).
Proof.
  destruct m; cbn [run_call]; unfold keeping, session.noop, session.list_, session.fetch_raw,
    session.fetch_body, session.fetch, session.search, session.uid_search, session.run_search,
    session.store, session.uid_store, session.expunge, session.check, session.idle,
    session.move_messages, map_res, session.fetch_command,
    session.store_command, session.move_command.
  1: apply sends_refresh.
  1: sends_auto; destruct S, T; known_verb.
  all: sends_auto; repeat case_match; simplify_eq; known_verb.
Qed.

Lemma sends_transition S S' T (m : transition S S' T) self :
  sends (λ ev, permits S T ev = true) (run_transition m self).
Proof.
  destruct m; cbn [run_transition]; unfold session.login, session.authenticate_plain, session.select,
    session.examine, session.close_mailbox, session.unselect, session.authenticated,
    session.refresh_capabilities_from_frame, session.refresh_capabilities; sends_auto; try reflexivity.
Qed.

Lemma sends_logout S T (self : Session S T) : sends (λ ev, permits S T ev = true) (session.logout self).
Proof. unfold session.logout. sends_auto. intros rid. destruct S, T; reflexivity. Qed.
End methods.

(* ------------------------------------------------------------------ *)
(** ** The state in the type                                            *)
(* ------------------------------------------------------------------ *)

Lemma answered_acknowledged c rid frame : answered c rid frame → acknowledged c rid = true.
Proof. intros [Hr _]. unfold acknowledged. by rewrite Hr. Qed.

Lemma acknowledged_later max c c' rid :
  reachable max c → later max c c' → acknowledged c rid = true → acknowledged c' rid = true.
Proof.
  unfold acknowledged. intros Hc Hl. destruct (sh_replies (cl_shared c) !! rid) as [[frame|e]|] eqn:Hr; try done.
  intros _. pose proof (reply_answered _ _ _ _ Hc Hr) as Ha.
  pose proof (later_answered _ _ _ _ _ Hl Hc Ha) as [Hr' _]. by rewrite Hr'.
Qed.

(** What was sent has had its effect, or never will have one. *)
Definition settled (c : client) (ev : event) : Prop :=
  neutral ev ∨ match ev with Ev_Command rid _ _ => acknowledged c rid = true | Ev_Raw _ => True end.

Lemma settled_later max c c' log :
  reachable max c → later max c c' → Forall (settled c) log → Forall (settled c') log.
Proof.
  intros Hc Hl H. eapply Forall_impl; [exact H|]. intros [rid cmd wants|bs] [Hn|Ha]; [by left|right|by left|by right].
  by eapply acknowledged_later.
Qed.

Lemma conforms_later max c c' t s log :
  reachable max c → later max c c' → Forall (settled c) log → conforms c' t s log = conforms c t s log.
Proof.
  intros Hc Hl H. revert s. induction H as [|ev log He _ IH]; intros s; [done|]. cbn [conforms].
  destruct (permits s t ev); [|done]. rewrite IH. f_equal. destruct ev as [rid cmd wants|bs]; [|done].
  cbn [server_step]. destruct (acknowledged c rid) eqn:Ha.
  - by rewrite (acknowledged_later _ _ _ _ Hc Hl Ha).
  - destruct He as [Hn|Ha']; [|cbn in Ha'; congruence]. by case_match; [apply Hn|].
Qed.

Lemma conforms_app c t s log1 log2 :
  conforms c t s (log1 ++ log2) = conforms c t s log1 ≫= λ s', conforms c t s' log2.
Proof.
  revert s. induction log1 as [|ev log1 IH]; intros s; [done|]. cbn. by destruct (permits s t ev).
Qed.

Lemma conforms_quiet c t s log : Forall (quiet s t) log → conforms c t s log = Some s.
Proof.
  induction 1 as [|ev log [Hp Hn] _ IH]; [done|]. cbn [conforms]. rewrite Hp.
  replace (server_step c s ev) with s; [done|]. destruct ev; [|done]. cbn [server_step].
  by destruct (acknowledged _ _); [rewrite Hn|].
Qed.

Lemma quiet_settled c s t log : Forall (quiet s t) log → Forall (settled c) log.
Proof. intros H. eapply Forall_impl; [exact H|]. intros ev [_ ?]. by left. Qed.

(** What a transition that succeeds has sent. *)
Definition transition_log (S S' : State) (T : Transport) (c' : client) (tr : list event) : Prop :=
  conforms c' T S tr = Some S' ∧ Forall (settled c') tr.

Lemma transition_log_intro S S' T c' rid cmd wants frame tr :
  permits S T (Ev_Command rid cmd wants) = true → state_after S cmd = S' → answered c' rid frame →
  Forall (quiet S' T) tr → transition_log S S' T c' (Ev_Command rid cmd wants :: tr).
Proof.
  intros Hp Hs Ha%answered_acknowledged Hq. split; cbn [conforms server_step].
  - rewrite Hp, Ha, Hs. by apply conforms_quiet.
  - constructor; [by right|by eapply quiet_settled].
Qed.

Lemma finishes_transition_log {S S' T} max (m : transition S S' T) self c tr self' c' :
  reachable max c → finishes max (run_transition m self) c tr (inl self') c' →
  transition_log S S' T c' tr.
Proof.
  intros Hc Hf. destruct m; cbn [run_transition] in Hf.
  - apply login_run in Hf as (uq & pq & rid & frame & c1 & tr' & _ & _ & -> & Hc1 & Ha & Hf); [|done].
    eapply transition_log_intro; [reflexivity|reflexivity|exact Ha|].
    eapply sends_finishes; [apply sends_authenticated|done].
  - apply authenticate_run in Hf as Hf; [|done].
    inversion Hf as [| |rid line f frame c1 tr' r Hs Hr Hc1 Ha Hf' E1 E2]; subst.
    eapply transition_log_intro; [reflexivity|reflexivity|exact Ha|]. constructor.
    + split; [reflexivity|exact I].
    + eapply sends_finishes; [|done]. eapply sends_authenticated.
  - unfold session.select, try_res in Hf. destruct (imap_quoted mailbox) as [mb|e]; [|by apply finishes_ret in Hf as [_ ?]].
    apply finishes_transition in Hf as (_ & rid & frame & -> & Ha); [|done].
    by eapply transition_log_intro; [reflexivity|reflexivity|exact Ha|constructor].
  - unfold session.examine, try_res in Hf. destruct (imap_quoted mailbox) as [mb|e]; [|by apply finishes_ret in Hf as [_ ?]].
    apply finishes_transition in Hf as (_ & rid & frame & -> & Ha); [|done].
    by eapply transition_log_intro; [reflexivity|reflexivity|exact Ha|constructor].
  - apply finishes_transition in Hf as (_ & rid & frame & -> & Ha); [|done].
    by eapply transition_log_intro; [reflexivity|reflexivity|exact Ha|constructor].
  - unfold session.unselect in Hf. destruct (negb _); [by apply finishes_ret in Hf as [_ ?]|].
    apply finishes_transition in Hf as (_ & rid & frame & -> & Ha); [|done].
    by eapply transition_log_intro; [reflexivity|reflexivity|exact Ha|constructor].
Qed.

Lemma lives_sound max {S T} c log (self : Session S T) :
  lives max c log self →
  reachable max c ∧ Forall (settled c) log ∧ conforms c T Unauthenticated log = Some S.
Proof.
  induction 1 as [c caps Hc|c caps Hc|S T c c' log self _ (Hc & Hs & Hl) Hlt
    |S T A m c log self tr r self' c' _ (Hc & Hs & Hl) Hf
    |S S' T m c log self tr self' c' _ (Hc & Hs & Hl) Hf]; [by split_and!..| | |].
  - split; [by eapply later_reachable|]. split; [by eapply settled_later|].
    by erewrite conforms_later.
  - assert (Hlt := finishes_later _ _ _ _ _ _ Hf).
    assert (Hq : Forall (quiet S T) tr) by (eapply sends_finishes; [apply sends_call|done]).
    split; [by eapply later_reachable|]. split.
    + apply Forall_app. split; [by eapply settled_later|by eapply quiet_settled].
    + rewrite conforms_app. erewrite conforms_later by done. rewrite Hl. cbn. by apply conforms_quiet.
  - assert (Hlt := finishes_later _ _ _ _ _ _ Hf).
    destruct (finishes_transition_log _ _ _ _ _ _ _ Hc Hf) as [Ht Hq].
    split; [by eapply later_reachable|]. split.
    + apply Forall_app. split; [by eapply settled_later|done].
    + rewrite conforms_app. erewrite conforms_later by done. by rewrite Hl.
Qed.

(* ------------------------------------------------------------------ *)
(** ** Properties                                                       *)
(* ------------------------------------------------------------------ *)

(** C28: a method sends only what its session's type permits: only commands of
    the protocol state, credentials over TLS only; however its run is
    interleaved, whether it finishes, fails or is abandoned half-way. *)
Theorem methods_permitted max S T c sched tr c' :
  (∀ A (m : call S T A) self p', drive max sched (run_call m self) c = Some (tr, p', c') →
     Forall (λ ev, permits S T ev = true) tr)
  ∧ (∀ S' (m : transition S S' T) self p', drive max sched (run_transition m self) c = Some (tr, p', c') →
     Forall (λ ev, permits S T ev = true) tr)
  ∧ (∀ (self : Session S T) p', drive max sched (session.logout self) c = Some (tr, p', c') →
     Forall (λ ev, permits S T ev = true) tr).
Proof.
  split_and!.
  - intros A m self p' Hd. eapply Forall_impl; [eapply sends_drive; [apply sends_call|done]|]. by intros ev [? _].
  - intros S' m self p' Hd. eapply sends_drive; [apply sends_transition|done].
  - intros self p' Hd. eapply sends_drive; [apply sends_logout|done].
Qed.

Definition login_line : str := b! "LOGIN " ++ wire.quote (b! "u") ++ [SP] ++ wire.quote (b! "p").

Lemma methods_permitted_witness :
  Forall (λ ev, permits Unauthenticated Tls ev = true) [Ev_Command 0 login_line None].
Proof.
  destruct (methods_permitted MAX_FRAME_SIZE Unauthenticated Tls client_new
    (answer_sched (b! "A0001 OK [CAPABILITY IDLE] hi")) [Ev_Command 0 login_line None]
    (after (login_acts login_line))) as (_ & H & _).
  apply (H Authenticated (T_login (b! "u") (Password_new (b! "p"))) (session.new_tls caps_default)
    (Ret (inl (mkSession (from_atoms [b! "IDLE"]))))).
  vm_compute. reflexivity.
Defined.

(** C27: the state a session's type names is the state the server is in: the
    protocol's automaton accepts everything the session has sent, each command
    taking effect when the server answered it [OK], and ends in that state. *)
Theorem session_state_true max S T c log (self : Session S T) :
  lives max c log self → conforms c T Unauthenticated log = Some S.
Proof. intros H. by apply lives_sound in H as (_ & _ & ?). Qed.

Lemma session_state_true_witness :
  conforms (after (login_acts login_line)) Tls Unauthenticated [Ev_Command 0 login_line None]
  = Some Authenticated.
Proof.
  apply (session_state_true MAX_FRAME_SIZE Authenticated Tls (after (login_acts login_line))
    ([] ++ [Ev_Command 0 login_line None]) (mkSession (from_atoms [b! "IDLE"]))).
  apply (lives_transition MAX_FRAME_SIZE (T_login (b! "u") (Password_new (b! "p"))) client_new []
    (session.new_tls caps_default)).
  - apply lives_new_tls. constructor.
  - exists (answer_sched (b! "A0001 OK [CAPABILITY IDLE] hi")). vm_compute. reflexivity.
Defined.
