(* ===== verification/Secrets.v ===== *)
(** The memory behind the credentials. The rest of the development takes a
    buffer to be its contents; here a buffer is a block with a capacity, growing
    it gives the old block back to the allocator, and so does dropping it. What
    the allocator gets back is what an attacker may find: no block that holds a
    secret may be among it before it is wiped.

    The functions are those of [credentials.rs], [wire.rs], [session.rs],
    [base64.rs] and [client.rs] that handle a password, and the paths the
    password takes through them on its way to the socket. *)

From S2P Require Import Prelude Str Ast Monad ResponseParser ParserSafety ParserStream.
From S2P Require Import ParserLocal ParserTheorems ParserRead Base64 ClientError Flags Wire.
From S2P Require Import Credentials Search Capabilities Client ClientFraming ClientReplies.
From S2P Require Import ClientStreams Program Lossy Session.
From stdpp Require Import options.

(* ------------------------------------------------------------------ *)
(** ** Blocks                                                           *)
(* ------------------------------------------------------------------ *)

(** The allocation of a [String] or a [Vec<u8>]: what is written in it, and its
    capacity. *)
Record block : Type := mkBlock { b_mem : bytes; b_cap : nat }.

(** A computation, over the blocks given back to the allocator so far. *)
Definition heap (A : Type) : Type := list block → A * list block.

#[export] Instance heap_ret : MRet heap := λ A a freed, (a, freed).
#[export] Instance heap_bind : MBind heap := λ A B k m freed,
  let '(a, freed) := m freed in k a freed.

Definition free (b : block) : heap () := λ freed, (tt, freed ++ [b]).

Definition with_capacity (n : nat) : heap block := mret (mkBlock [] n).

(** [extend_from_slice], [push_str], [push]: without room, what is written is
    copied to a larger block and the old one is given back as it is. *)
Definition extend (bs : bytes) (b : block) : heap block :=
  let n := (length (b_mem b) + length bs)%nat in
  if (n <=? b_cap b)%nat then mret (mkBlock (b_mem b ++ bs) (b_cap b))
  else free b;; mret (mkBlock (b_mem b ++ bs) (Nat.max (2 * b_cap b) n)).

(* ------------------------------------------------------------------ *)
(** ** The buffers of the client                                        *)
(* ------------------------------------------------------------------ *)

(** [wire::quote]. *)
Fixpoint quote_chars (cs : list Z) (out : block) : heap block :=
  match cs with
  | [] => mret out
  | c :: cs =>
    out ← (if (c =? 0x22) || (c =? 0x5C) then extend [BACKSLASH] out else mret out);
    out ← extend (encode_char c) out;
    quote_chars cs out
  end.

Definition quote_buf (text : str) : heap block :=
  out ← with_capacity (wire.quote_capacity text);
  out ← extend [DQUOTE] out;
  out ← quote_chars (chars text) out;
  extend [DQUOTE] out.

Definition imap_quoted_buf (s : str) : heap (res block) :=
  if existsb disallowed_in_quoted s then mret (inr (CE_CommandFailed disallowed_text))
  else out ← quote_buf s; mret (inl out).

Definition login_command_buf (user_q pass_q : str) : heap block :=
  let VERB := b! "LOGIN " in
  cmd ← with_capacity (length VERB + length user_q + 1 + length pass_q);
  cmd ← extend VERB cmd;
  cmd ← extend user_q cmd;
  cmd ← extend [SP] cmd;
  extend pass_q cmd.

Definition command_line_buf (tag cmd : str) : heap block :=
  let CRLF := [CR; LF] in
  line ← with_capacity (length tag + 1 + length cmd + length CRLF);
  line ← extend tag line;
  line ← extend [SP] line;
  line ← extend cmd line;
  extend CRLF line.

(** [base64::encode_into]; [None] is an index out of the alphabet. *)
Fixpoint encode_groups_buf (gs : list (byte * byte * byte)) (out : block) : heap (option block) :=
  match gs with
  | [] => mret (Some out)
  | (a, b, c) :: gs =>
    match encode_group a b c with
    | Some (c0, c1, c2, c3) => out ← extend [c0; c1; c2; c3] out; encode_groups_buf gs out
    | None => mret None
    end
  end.

Definition encode_last_buf (remainder : bytes) (out : block) : heap (option block) :=
  match remainder with
  | [a] =>
    match encode_group a x00 x00 with
    | Some (c0, c1, _, _) => out ← extend [c0; c1; PAD; PAD] out; mret (Some out)
    | None => mret None
    end
  | [a; b] =>
    match encode_group a b x00 with
    | Some (c0, c1, c2, _) => out ← extend [c0; c1; c2; PAD] out; mret (Some out)
    | None => mret None
    end
  | _ => mret (Some out)
  end.

Definition encode_into_buf (input : bytes) (out : block) : heap (option block) :=
  let '(groups, remainder) := as_chunks input in
  out ← encode_groups_buf groups out;
  match out with
  | Some out => encode_last_buf remainder out
  | None => mret None
  end.

(** [zeroize] is another crate's: what it makes of a block is a parameter. *)
Section paths.
Context (zeroize : block → block).

(** Dropping a [Zeroizing<T>]. *)
Definition drop_zeroizing (b : block) : heap () := free (zeroize b).

(** [impl Zeroize] and [impl Drop] of the two wrappers. *)
Definition password_zeroize (b : block) : block := zeroize b.
Definition password_drop (b : block) : heap () := free (password_zeroize b).
Definition token_zeroize (b : block) : block := zeroize b.
Definition token_drop (b : block) : heap () := free (token_zeroize b).

(** [sasl] is dropped when the line is built. *)
Definition sasl_plain_line_buf (user secret : str) : heap (option block) :=
  let CRLF := [CR; LF] in
  sasl ← with_capacity (2 + length user + length secret);
  sasl ← extend [NUL] sasl;
  sasl ← extend user sasl;
  sasl ← extend [NUL] sasl;
  sasl ← extend secret sasl;
  line ← with_capacity (Z.to_nat (encoded_len (Z.of_nat (length (b_mem sasl)))) + length CRLF);
  line ← encode_into_buf (b_mem sasl) line;
  line ← match line with
         | Some line => line ← extend CRLF line; mret (Some line)
         | None => mret None
         end;
  drop_zeroizing sasl;;
  mret line.

(** The bytes a [WriteRequest] writes; it is dropped when they are written, or
    unsent. *)
Definition written (line : block) : heap bytes := drop_zeroizing line;; mret (b_mem line).

(** [Session::login] until the request is gone and what the call owns is
    dropped, in reverse order: the bytes of the request. *)
Definition login_memory (user : str) (pass : block) (tag : str) : heap (res bytes) :=
  user_q ← imap_quoted_buf user;
  match user_q with
  | inr e => password_drop pass;; mret (inr e)
  | inl user_q =>
    pass_q ← imap_quoted_buf (b_mem pass);
    match pass_q with
    | inr e => free user_q;; password_drop pass;; mret (inr e)
    | inl pass_q =>
      cmd ← login_command_buf (b_mem user_q) (b_mem pass_q);
      r ← match wire.reject_line_breaks (b_mem cmd) with
          | inr e => mret (inr e)
          | inl _ => line ← command_line_buf tag (b_mem cmd); bs ← written line; mret (inl bs)
          end;
      drop_zeroizing cmd;;
      drop_zeroizing pass_q;;
      free user_q;;
      password_drop pass;;
      mret r
    end
  end.

(** The SASL response of [Session::authenticate_plain]; the password is
    borrowed, its owner drops it. *)
Definition sasl_memory (user : str) (pass : block) : heap (option bytes) :=
  line ← sasl_plain_line_buf user (b_mem pass);
  match line with
  | Some line => bs ← written line; mret (Some bs)
  | None => mret None
  end.
End paths.

(* ------------------------------------------------------------------ *)
(** ** What gives nothing back                                          *)
(* ------------------------------------------------------------------ *)

(** [m] returns [a] and gives no block back. *)
Definition silent {A} (m : heap A) (a : A) : Prop := ∀ freed, m freed = (a, freed).

Lemma silent_ret {A} (a : A) : silent (mret a) a.
Proof. done. Qed.

Lemma silent_bind {A B} (m : heap A) (k : A → heap B) a b :
  silent m a → silent (k a) b → silent (m ≫= k) b.
Proof. intros Hm Hk freed. unfold mbind, heap_bind. by rewrite Hm, Hk. Qed.

(** What a run gives back, and the value. *)
Lemma silent_run {A B} (m : heap A) (k : A → heap B) a freed : silent m a → (m ≫= k) freed = k a freed.
Proof. intros Hm. unfold mbind, heap_bind. by rewrite Hm. Qed.

Lemma silent_capacity n : silent (with_capacity n) (mkBlock [] n).
Proof. done. Qed.

Lemma silent_extend bs b :
  (length (b_mem b ++ bs) ≤ b_cap b)%nat → silent (extend bs b) (mkBlock (b_mem b ++ bs) (b_cap b)).
Proof.
  intros H freed. unfold extend. rewrite length_app in H. by rewrite (proj2 (Nat.leb_le _ _) H).
Qed.

(** A block whose capacity is what is still to come never grows. *)
Ltac fits := cbn [b_mem b_cap app length]; rewrite ?length_app; cbn [length]; lia.

Ltac silent_step :=
  first
    [ apply silent_ret
    | eapply silent_bind; [first [apply silent_capacity|apply silent_extend; fits]|]; cbn beta
    | apply silent_extend; fits ].

Lemma silent_eq {A} (m : heap A) a b : silent m a → a = b → silent m b.
Proof. by intros ? <-. Qed.

Lemma quote_chars_silent cs out :
  let w := concat ((λ c, (if (c =? 0x22) || (c =? 0x5C) then [BACKSLASH] else []) ++ encode_char c) <$> cs) in
  (length (b_mem out ++ w) ≤ b_cap out)%nat →
  silent (quote_chars cs out) (mkBlock (b_mem out ++ w) (b_cap out)).
Proof.
  revert out. induction cs as [|c cs IH]; intros [mem cap] w Hc; subst w; cbn [fmap list_fmap concat b_mem b_cap] in *.
  { rewrite app_nil_r. apply silent_ret. }
  cbn [quote_chars]. rewrite !length_app in Hc.
  apply (silent_bind _ _ (mkBlock (mem ++ if (c =? 0x22) || (c =? 0x5C) then [BACKSLASH] else []) cap)).
  { destruct (_ || _); [apply silent_extend; cbn in *; rewrite length_app; cbn; lia|].
    rewrite app_nil_r. apply silent_ret. }
  eapply silent_bind; [apply silent_extend; cbn [b_mem b_cap]; rewrite !length_app; lia|].
  eapply silent_eq; [apply IH|]; cbn [b_mem b_cap].
  - rewrite !length_app. lia.
  - f_equal. by rewrite <- !app_assoc.
Qed.

Lemma quote_silent text :
  utf8_valid text = true → ∃ cap, silent (quote_buf text) (mkBlock (wire.quote text) cap).
Proof.
  intros Hu. exists (wire.quote_capacity text). pose proof (quote_exact_size text Hu) as Hlen.
  unfold wire.quote in Hlen |- *. rewrite !length_app in Hlen. cbn [length] in Hlen.
  unfold quote_buf. silent_step. eapply silent_bind; [apply silent_extend; fits|].
  eapply silent_bind; [apply quote_chars_silent; fits|]. eapply silent_eq; [apply silent_extend; fits|].
  cbn [b_mem b_cap app]. done.
Qed.

(** [imap_quoted] on blocks is [imap_quoted]. *)
Lemma imap_quoted_silent s :
  match imap_quoted s with
  | inl q => ∃ cap, silent (imap_quoted_buf s) (inl (mkBlock q cap))
  | inr e => silent (imap_quoted_buf s) (inr e)
  end.
Proof.
  pose proof (imap_quoted_ok s) as Hok. unfold imap_quoted, imap_quoted_buf in *.
  destruct (existsb _ _); [apply silent_ret|].
  destruct (Hok (wire.quote s)) as [[_ Hs] _]; [done|]. apply allowed_plain in Hs as [Hu _].
  destruct (quote_silent s Hu) as [cap Hq]. exists cap. eapply silent_bind; [exact Hq|]. apply silent_ret.
Qed.

Lemma login_command_silent u p :
  ∃ cap, silent (login_command_buf u p) (mkBlock (login_command u p) cap).
Proof.
  eexists. unfold login_command_buf. set (VERB := b! "LOGIN "). cbv zeta.
  do 4 silent_step. eapply silent_eq; [silent_step|]. cbn [b_mem b_cap app].
  unfold login_command. by rewrite <- !app_assoc.
Qed.

Lemma command_line_silent tag cmd :
  ∃ cap, silent (command_line_buf tag cmd) (mkBlock (command_line tag cmd) cap).
Proof.
  eexists. unfold command_line_buf. cbv zeta.
  do 4 silent_step. eapply silent_eq; [silent_step|]. cbn [b_mem b_cap app].
  unfold command_line. by rewrite <- !app_assoc.
Qed.

Lemma encode_into_silent input out e :
  encoding input = Some e → (length (b_mem out ++ e) ≤ b_cap out)%nat →
  silent (encode_into_buf input out) (Some (mkBlock (b_mem out ++ e) (b_cap out))).
Proof.
  unfold encode_into_buf. revert out e.
  induction input as [|a|a b|a b c s IH] using groups_ind; intros out e; cbn [encoding as_chunks].
  - intros [= <-] _. rewrite app_nil_r. by destruct out.
  - destruct (encode_group a x00 x00) as [[[[c0 c1] c2] c3]|] eqn:Hg; [|done]. intros [= <-] Hc.
    eapply silent_bind; [apply silent_ret|]. cbn [encode_last_buf]. rewrite Hg.
    eapply silent_bind; [by apply silent_extend|apply silent_ret].
  - destruct (encode_group a b x00) as [[[[c0 c1] c2] c3]|] eqn:Hg; [|done]. intros [= <-] Hc.
    eapply silent_bind; [apply silent_ret|]. cbn [encode_last_buf]. rewrite Hg.
    eapply silent_bind; [by apply silent_extend|apply silent_ret].
  - destruct (as_chunks s) as [gs r]. cbn [encode_groups_buf].
    destruct (encode_group a b c) as [[[[c0 c1] c2] c3]|]; [|done].
    cbn [mbind option_bind]. intros (e' & He & [= <-])%bind_Some Hc freed.
    change (c0 :: c1 :: c2 :: c3 :: e') with ([c0; c1; c2; c3] ++ e') in *.
    rewrite app_assoc in Hc |- *.
    specialize (IH (mkBlock (b_mem out ++ [c0; c1; c2; c3]) (b_cap out)) e' He Hc freed).
    cbn [b_mem b_cap] in IH. rewrite <- IH. unfold mbind, heap_bind.
    rewrite silent_extend; [done|]. rewrite length_app in Hc. lia.
Qed.

(* ------------------------------------------------------------------ *)
(** ** The paths of the password                                        *)
(* ------------------------------------------------------------------ *)

Definition wiped (b : block) : Prop := Forall (λ x, x = NUL) (b_mem b).

(** The line of a LOGIN command, as the rest of the development has it. *)
Definition login_bytes (tag user pass : str) : res bytes :=
  match imap_quoted user, imap_quoted pass with
  | inl u, inl p =>
    match wire.reject_line_breaks (login_command u p) with
    | inl _ => inl (command_line tag (login_command u p))
    | inr e => inr e
    end
  | inr e, _ | inl _, inr e => inr e
  end.

Section theorems.
Context (zeroize : block → block).

(** What [zeroize] documents: the whole allocation is overwritten. *)
Hypothesis zeroize_wipes : ∀ b, wiped (zeroize b).

Lemma login_memory_spec user pass tag :
  ∃ freed, login_memory zeroize user pass tag [] = (login_bytes tag user (b_mem pass), freed)
    ∧ Forall (λ b, wiped b ∨ imap_quoted user = inl (b_mem b)) freed.
Proof using zeroize_wipes.
  assert (Hz : ∀ b, wiped (zeroize b) ∨ imap_quoted user = inl (b_mem (zeroize b))) by (by left).
  unfold login_memory, login_bytes. pose proof (imap_quoted_silent user) as Hu.
  destruct (imap_quoted user) as [u|e]; [destruct Hu as [uc Hu]|]; rewrite (silent_run _ _ _ _ Hu);
    [|eexists; split; [done|by repeat (apply Forall_cons; split; [auto|])]].
  pose proof (imap_quoted_silent (b_mem pass)) as Hp.
  destruct (imap_quoted (b_mem pass)) as [p|e]; [destruct Hp as [pc Hp]|]; rewrite (silent_run _ _ _ _ Hp).
  - destruct (login_command_silent u p) as [cc Hc]. rewrite (silent_run _ _ _ _ Hc). cbn [b_mem].
    destruct (command_line_silent tag (login_command u p)) as [lc Hl].
    destruct (wire.reject_line_breaks (login_command u p)) as [[]|e]; unfold mbind, heap_bind.
    + rewrite Hl. cbn. eexists. split; [done|]. by repeat (apply Forall_cons; split; [auto|]).
    + cbn. eexists. split; [done|]. by repeat (apply Forall_cons; split; [auto|]).
  - eexists. split; [done|]. by repeat (apply Forall_cons; split; [auto|]).
Qed.

Lemma sasl_memory_spec user pass :
  ∃ freed, sasl_memory zeroize user pass [] = (sasl_plain_line user (Password_new (b_mem pass)), freed)
    ∧ Forall wiped freed.
Proof using zeroize_wipes.
  unfold sasl_memory, sasl_plain_line, sasl_plain_line_buf, password_as_str. cbn [password_str]. cbv zeta.
  set (secret := b_mem pass).
  destruct (encoding_spec ([NUL] ++ user ++ [NUL] ++ secret)) as (e & He & _ & Hlen & _).
  rewrite encode_into_encoding, He. cbn [mbind option_bind].
  unfold mbind at 1, heap_bind at 1.
  erewrite (silent_run (with_capacity _)) by apply silent_capacity.
  do 4 (erewrite (silent_run (extend _ _)) by (apply silent_extend; fits)).
  erewrite (silent_run (with_capacity _)) by apply silent_capacity. cbn [b_mem b_cap].
  rewrite <- !app_assoc. cbn [app] in He, Hlen |- *. rewrite <- Hlen, Nat2Z.id.
  erewrite (silent_run (encode_into_buf _ _)) by (apply encode_into_silent; [exact He|fits]). cbn [b_mem b_cap app].
  unfold mbind, heap_bind. rewrite silent_extend by fits. cbn.
  eexists. split; [done|]. repeat constructor; auto.
Qed.

(** C26: no copy of a password is left in released memory: everything the two
    logins give back to the allocator has been wiped first (the quoted user
    name of LOGIN apart), on success and on every refusal, because every buffer
    that holds the password has its final size from the start and so never
    grows. What they send is what the rest of the development says. *)
Theorem credentials_wiped user pass tag :
  (∃ freed, login_memory zeroize user pass tag [] = (login_bytes tag user (b_mem pass), freed)
     ∧ Forall (λ b, wiped b ∨ imap_quoted user = inl (b_mem b)) freed)
  ∧ ∃ freed, sasl_memory zeroize user pass [] = (sasl_plain_line user (Password_new (b_mem pass)), freed)
      ∧ Forall wiped freed.
Proof using zeroize_wipes. split; [apply login_memory_spec|apply sasl_memory_spec]. Qed.
End theorems.

Lemma credentials_wiped_witness :
  ∃ freed, login_memory (λ b, mkBlock (replicate (length (b_mem b)) NUL) (b_cap b)) (b! "u")
      (mkBlock [DQUOTE; "p"%byte] 2) (b! "A0001") []
    = (login_bytes (b! "A0001") (b! "u") [DQUOTE; "p"%byte], freed)
    ∧ Forall (λ b, wiped b ∨ imap_quoted (b! "u") = inl (b_mem b)) freed.
Proof.
  apply (credentials_wiped (λ b, mkBlock (replicate (length (b_mem b)) NUL) (b_cap b))).
  intros b. unfold wiped. cbn. apply Forall_replicate. reflexivity.
Defined.
