(* ===== verification/Tls.v ===== *)
(** [imap-tls/src/lib.rs]: the cleartext exchange before STARTTLS, and the
    session that is built after the TLS handshake.

    The cleartext stream is a script: what each read returns and whether each
    write succeeds. A deadline that expires is an outcome of the read or write
    it interrupts; a script that has run out is a peer that stays silent until
    the deadline. TCP, certificates and the handshake itself are not code of
    this repository: they are parameters. *)

From S2P Require Import Prelude Str Ast Monad ResponseParser ParserSafety ParserStream.
From S2P Require Import ParserLocal ParserTheorems Framing ClientError Flags Wire Capabilities Client.
From S2P Require Import ClientFraming ClientReplies ClientStreams ClientOrder Program Lossy Session.
From S2P Require Import SessionTheorems.
From stdpp Require Import options.

Definition MAX_PRE_TLS_FRAME : Z := 64 * 1024.

(* ------------------------------------------------------------------ *)
(** ** The cleartext stream                                             *)
(* ------------------------------------------------------------------ *)

(** No bytes is the end of the stream. *)
Inductive read_outcome : Type := Rd_Bytes (bs : bytes) | Rd_Err (e : string) | Rd_Timeout.
Inductive write_outcome : Type := Wr_Ok | Wr_Err (e : string) | Wr_Timeout.

(** The stream, and the buffer of [starttls_steps]. *)
Record conn : Type := mkConn {
  cn_buf : bytes;
  cn_in : list read_outcome;
  cn_wr : list write_outcome;
  cn_out : list bytes;
}.

(** How a function ends: with a result, by a panic, or (when a loop has used
    its fuel) not at all. *)
Inductive ended (A : Type) : Type :=
| Done (r : res A) (c : conn)
| Panicked
| Hangs.
Arguments Done {A} r c.
Arguments Panicked {A}.
Arguments Hangs {A}.

(** [x?]. *)
Definition ebind {A B} (x : ended A) (f : A → conn → ended B) : ended B :=
  match x with
  | Done (inl a) c => f a c
  | Done (inr e) c => Done (inr e) c
  | Panicked => Panicked
  | Hangs => Hangs
  end.

Definition write_all_with_timeout (bs : bytes) (c : conn) : ended unit :=
  match cn_wr c with
  | Wr_Ok :: wr => Done (inl tt) (mkConn (cn_buf c) (cn_in c) wr (cn_out c ++ [bs]))
  | Wr_Err e :: wr => Done (inr (CE_Io e)) (mkConn (cn_buf c) (cn_in c) wr (cn_out c))
  | Wr_Timeout :: wr => Done (inr CE_Timeout) (mkConn (cn_buf c) (cn_in c) wr (cn_out c))
  | [] => Done (inr CE_Timeout) c
  end.

(** [limited.read_buf(buf)] with [room] bytes of room: at most that many bytes
    are taken, the others stay in the stream. *)
Definition read_limited (room : nat) (c : conn) : res nat * conn :=
  match cn_in c with
  | Rd_Bytes bs :: rest =>
    let n := Nat.min room (length bs) in
    (inl n, mkConn (cn_buf c ++ take n bs)
              (match drop n bs with [] => rest | unread => Rd_Bytes unread :: rest end)
              (cn_wr c) (cn_out c))
  | Rd_Err e :: rest => (inr (CE_Io e), mkConn (cn_buf c) rest (cn_wr c) (cn_out c))
  | Rd_Timeout :: rest => (inr CE_Timeout, mkConn (cn_buf c) rest (cn_wr c) (cn_out c))
  | [] => (inr CE_Timeout, c)
  end.

Definition malformed : str := b! "malformed pre-TLS response".

(** The loop of [read_one_frame]. *)
Fixpoint read_frame_loop (fuel : nat) (c : conn) : ended bytes :=
  match fuel with
  | O => Hangs
  | S fuel =>
    let read_more :=
      let room := (Z.to_nat MAX_PRE_TLS_FRAME - length (cn_buf c))%nat in
      if (room =? 0)%nat then Done (inr (CE_FrameTooLarge MAX_PRE_TLS_FRAME)) c
      else
        match read_limited room c with
        | (inr e, c) => Done (inr e) c
        | (inl n, c) => if (n =? 0)%nat then Done (inr CE_ConnectionClosed) c else read_frame_loop fuel c
        end in
    match cn_buf c with
    | [] => read_more
    | buf =>
      match parse_response buf with
      | Parsed remaining _ =>
        let consumed := (length buf - length remaining)%nat in
        Done (inl (take consumed buf)) (mkConn (drop consumed buf) (cn_in c) (cn_wr c) (cn_out c))
      | ParseErr Incomplete => read_more
      | ParseErr _ => Done (inr (CE_CommandFailed malformed)) c
      | ParsePanics => Panicked
      | ParseHangs => Hangs
      end
    end
  end.

(** Every round reads a byte into the room that is left, so there are fewer
    rounds than bytes of room. *)
Definition read_one_frame (c : conn) : ended bytes := read_frame_loop (S (Z.to_nat MAX_PRE_TLS_FRAME)) c.

(* ------------------------------------------------------------------ *)
(** ** STARTTLS                                                         *)
(* ------------------------------------------------------------------ *)

(** The status response to the command [tag], if [frame] is one. *)
Definition status_for (tag : str) (frame : bytes) : option (Status * str) :=
  match parse_response frame with
  | Parsed _ (Resp_Status (mkStatusResponse (Some t) status _ text)) =>
    if bool_decide (t = tag) then Some (status, text) else None
  | _ => None
  end.

Definition is_ok (s : Status) : bool := match s with Status_Ok => true | _ => false end.

(** The loop of step 2. *)
Fixpoint capability_loop (fuel : nat) (caps : Capabilities) (c : conn) : ended Capabilities :=
  match fuel with
  | O => Hangs
  | S fuel =>
    ebind (read_one_frame c) (λ frame c,
      match status_for (b! "T0001") frame with
      | Some (status, text) =>
        if is_ok status then Done (inl caps) c
        else Done (inr (command_failed (b! "CAPABILITY failed: " ++ text))) c
      | None => capability_loop fuel (update_caps caps frame) c
      end)
  end.

Definition after_ok : str := b! "server sent cleartext data after STARTTLS OK".
Definition not_advertised : str := b! "server does not advertise STARTTLS".

(** The loop of step 3. *)
Fixpoint starttls_loop (fuel : nat) (c : conn) : ended unit :=
  match fuel with
  | O => Hangs
  | S fuel =>
    ebind (read_one_frame c) (λ frame c,
      match status_for (b! "T0002") frame with
      | Some (status, text) =>
        if is_ok status then
          if bool_decide (cn_buf c = []) then Done (inl tt) c else Done (inr (CE_CommandFailed after_ok)) c
        else Done (inr (command_failed (b! "STARTTLS rejected: " ++ text))) c
      | None => starttls_loop fuel c
      end)
  end.

(** The bytes still to come. *)
Definition incoming (rs : list read_outcome) : bytes :=
  rs ≫= λ r, match r with Rd_Bytes bs => bs | _ => [] end.

(** Every frame takes a byte, so there are at most as many as bytes. *)
Definition frame_fuel (c : conn) : nat := S (length (cn_buf c ++ incoming (cn_in c))).

Definition starttls_steps (c : conn) : ended unit :=
  let c := mkConn [] (cn_in c) (cn_wr c) (cn_out c) in
  ebind (read_one_frame c) (λ _greeting c,
  ebind (write_all_with_timeout (b! "T0001 CAPABILITY" ++ [CR; LF]) c) (λ _ c,
  ebind (capability_loop (frame_fuel c) caps_default c) (λ caps c,
  if negb (Capabilities.starttls caps) then Done (inr (CE_CommandFailed not_advertised)) c
  else
    ebind (write_all_with_timeout (b! "T0002 STARTTLS" ++ [CR; LF]) c) (λ _ c,
    starttls_loop (frame_fuel c) c)))).

(** [drive_starttls_exchange]: the deadline on the whole interrupts one of the
    reads or writes. *)
Definition drive_starttls_exchange (c : conn) : ended unit := starttls_steps c.

(* ------------------------------------------------------------------ *)
(** ** After the handshake                                              *)
(* ------------------------------------------------------------------ *)

(** The round trip of [finalize_session_after_handshake], for a greeting
    without capabilities. *)
Definition ask_capabilities (caps : Capabilities) : prog (res (Session Unauthenticated Tls)) :=
  pbind (execute_streaming (b! "CAPABILITY") is_capability_response) (λ '(r, frames),
    let caps := foldl update_caps caps frames in
    Ret (match r with
         | inr e => inr e
         | inl cap_resp => inl (session.new_tls (update_caps caps cap_resp))
         end)).

(** Runs against a new [RawClient] over the encrypted stream, whose tasks may
    have started before [events()]. *)
Definition finalize_session_after_handshake : prog (res (Session Unauthenticated Tls)) :=
  Events (λ events, Recv events (λ greeting,
    let '(caps, got_greeting_caps) :=
      match greeting with
      | Some frame =>
        match parse_response frame with
        | Parsed _ response => try_update_from caps_default response
        | _ => (caps_default, false)
        end
      | None => (caps_default, false)
      end in
    if got_greeting_caps : bool then Ret (inl (session.new_tls caps)) else ask_capabilities caps)).

(** [tokio::time::timeout] over an [io::Result]. *)
Inductive timed (A : Type) : Type := In_Time (r : A + string) | Elapsed.
Arguments In_Time {A} r.
Arguments Elapsed {A}.

(** [.map_err(|_| ClientError::Timeout)?.map_err(ClientError::Io)]. *)
Definition deadline {A} (x : timed A) : res A :=
  match x with
  | In_Time (inl a) => inl a
  | In_Time (inr e) => inr (CE_Io e)
  | Elapsed => inr CE_Timeout
  end.

(** A [TlsConnector]: what its [connect] does with a name and a stream. *)
Definition connector : Type := str → conn → timed unit.

Section connect.
(** [ServerName::try_from], [TcpStream::connect] and rustls' client
    configuration over the web's root certificates. *)
Context (server_name : str → bool) (tcp_connect : str → timed conn) (client_config : connector + str).

Definition connect_tcp (domain : str) (port : Z) : res conn :=
  let addr := domain ++ b! ":" ++ fmt_dec port in
  deadline (tcp_connect addr).

Definition default_tls_connector : res connector :=
  match client_config with
  | inl connector => inl connector
  | inr e => inr (CE_CommandFailed (b! "TLS config failed: " ++ e))
  end.

Definition handshake_with_connector (tls : connector) (domain : str) (stream : conn) :
    prog (res (Session Unauthenticated Tls)) :=
  if negb (server_name domain) then Ret (inr (CE_CommandFailed (b! "Invalid domain for TLS")))
  else try_res (deadline (tls domain stream)) (λ _tls_stream, finalize_session_after_handshake).

Definition starttls_with_connector (tls : connector) (domain : str) (stream : conn) :
    prog (res (Session Unauthenticated Tls)) :=
  match drive_starttls_exchange stream with
  | Done (inl _) stream => handshake_with_connector tls domain stream
  | Done (inr e) _ => Ret (inr e)
  | Panicked | Hangs => Panics
  end.

Definition connect_tls_with_timeouts (domain : str) (port : Z) : prog (res (Session Unauthenticated Tls)) :=
  try_res (connect_tcp domain port) (λ tcp,
  try_res default_tls_connector (λ tls, handshake_with_connector tls domain tcp)).

Definition connect_tls (domain : str) (port : Z) : prog (res (Session Unauthenticated Tls)) :=
  connect_tls_with_timeouts domain port.

Definition connect_starttls_with_timeouts (domain : str) (port : Z) :
    prog (res (Session Unauthenticated Tls)) :=
  try_res (connect_tcp domain port) (λ tcp,
  try_res default_tls_connector (λ tls, starttls_with_connector tls domain tcp)).

Definition connect_starttls (domain : str) (port : Z) : prog (res (Session Unauthenticated Tls)) :=
  connect_starttls_with_timeouts domain port.
End connect.

(* ------------------------------------------------------------------ *)
(** ** Lemmas                                                           *)
(* ------------------------------------------------------------------ *)

(** Everything the server has sent and the client has not consumed. *)
Definition unread (c : conn) : bytes := cn_buf c ++ incoming (cn_in c).

Definition in_bounds (c : conn) : Prop := Z.of_nat (length (cn_buf c)) <= MAX_PRE_TLS_FRAME.

(** A read takes bytes from the stream to the buffer, at most [room] of them. *)
Lemma read_limited_spec room c :
  match read_limited room c with
  | (inl n, c') => unread c' = unread c ∧ length (cn_buf c') = (length (cn_buf c) + n)%nat ∧ (n ≤ room)%nat
      ∧ cn_out c' = cn_out c
  | (inr e, c') => cn_buf c' = cn_buf c ∧ cn_out c' = cn_out c
  end.
Proof.
  unfold read_limited, unread. destruct (cn_in c) as [|[bs|e|] rest]; cbn [cn_buf cn_in cn_out]; try done.
  set (n := (room `min` length bs)%nat). split_and!; [|rewrite length_app, length_take; lia|lia|done].
  rewrite <- app_assoc. f_equal. cbn [incoming]. unfold incoming. rewrite bind_cons.
  rewrite <- (take_drop n bs) at 3. rewrite <- app_assoc. f_equal.
  by destruct (drop n bs).
Qed.

(** Why a call of [read_one_frame] fails: a frame larger than the ceiling, bytes
    that no frame starts with, or the stream's end, error or silence in the
    middle of a frame. *)
Definition read_failed (c c' : conn) (e : ClientError) : Prop :=
  match e with
  | CE_FrameTooLarge max => max = MAX_PRE_TLS_FRAME ∧ Z.of_nat (length (cn_buf c')) = max
      ∧ unfinished parse_response (cn_buf c')
  | CE_CommandFailed text => text = malformed ∧ ∃ e, parse_response (cn_buf c') = ParseErr e ∧ e ≠ Incomplete
  | CE_ConnectionClosed => Rd_Bytes [] ∈ cn_in c ∧ unfinished parse_response (cn_buf c')
  | CE_Io err => Rd_Err err ∈ cn_in c ∧ unfinished parse_response (cn_buf c')
  | CE_Timeout => (Rd_Timeout ∈ cn_in c ∨ cn_in c' = []) ∧ unfinished parse_response (cn_buf c')
  | _ => False
  end.

(** What a call of [read_one_frame] does. *)
Definition frame_read (c : conn) (x : ended bytes) : Prop :=
  match x with
  | Done (inl frame) c' => in_bounds c' ∧ cn_out c' = cn_out c ∧ is_frame frame ∧ unread c = frame ++ unread c'
  | Done (inr e) c' => in_bounds c' ∧ cn_out c' = cn_out c ∧ unread c' = unread c ∧ read_failed c c' e
  | _ => False
  end.

Lemma read_failed_after room n c c1 c' e :
  read_limited room c = (inl n, c1) → read_failed c1 c' e → read_failed c c' e.
Proof.
  intros Hr. assert (Hin : ∀ r, (r = Rd_Bytes [] ∨ (∀ bs, r ≠ Rd_Bytes bs)) → r ∈ cn_in c1 → r ∈ cn_in c).
  { unfold read_limited in Hr. destruct (cn_in c) as [|[bs| |] rest]; try done. injection Hr as _ <-. cbn [cn_in].
    intros r Hcase. destruct (drop _ bs) as [|x unread]; [by right|].
    rewrite elem_of_cons. intros [->|?]; [|by right]. by destruct Hcase as [|Hne]; [|destruct (Hne _ eq_refl)]. }
  unfold read_failed. destruct e; try done.
  - intros [? ?]. split; [|done]. apply Hin; [by right|done].
  - intros [? ?]. split; [|done]. apply Hin; [by left|done].
  - intros [[?|?] ?]; (split; [|done]); [left|by right]. apply Hin; [by right|done].
Qed.

Lemma read_limited_fails room c e c' :
  read_limited room c = (inr e, c') → unfinished parse_response (cn_buf c) → read_failed c c' e ∧ unread c' = unread c.
Proof.
  unfold read_limited, unread. destruct (cn_in c) as [|[bs|err|] rest] eqn:Hin; intros [= <- <-] Hu; cbn [cn_buf].
  - unfold read_failed. rewrite Hin. split_and!; [by right|done..].
  - unfold read_failed. rewrite Hin. split_and!; [by left|done..].
  - unfold read_failed. rewrite Hin. split_and!; [left; by left|done..].
Qed.

(** A round that needs more bytes. *)
Lemma read_more_spec fuel c :
  in_bounds c → unfinished parse_response (cn_buf c) →
  (∀ c', in_bounds c' → (length (cn_buf c) < length (cn_buf c'))%nat → frame_read c' (read_frame_loop fuel c')) →
  let room := (Z.to_nat MAX_PRE_TLS_FRAME - length (cn_buf c))%nat in
  frame_read c
    (if (room =? 0)%nat then Done (inr (CE_FrameTooLarge MAX_PRE_TLS_FRAME)) c
     else match read_limited room c with
          | (inr e, c) => Done (inr e) c
          | (inl n, c) => if (n =? 0)%nat then Done (inr CE_ConnectionClosed) c else read_frame_loop fuel c
          end).
Proof.
  intros Hb Hun IH room. unfold in_bounds in Hb. destruct (room =? 0)%nat eqn:Hroom; to_prop.
  { split_and!; [done..|]. split_and!; [done|lia|done]. }
  pose proof (read_limited_spec room c) as Hr. destruct (read_limited room c) as [[n|e] c'] eqn:Hread.
  - destruct Hr as (Hu & Hl & Hn & Ho). assert (Hb' : in_bounds c') by (unfold in_bounds; rewrite Hl; lia).
    destruct (n =? 0)%nat eqn:Hn0; to_prop.
    + assert (Hbuf : Rd_Bytes [] ∈ cn_in c ∧ cn_buf c' = cn_buf c).
      { unfold read_limited in Hread. destruct (cn_in c) as [|[bs| |] rest]; try done.
        injection Hread as Hmin <-. destruct bs; [|cbn in Hmin; lia]. cbn. by rewrite take_nil, app_nil_r; split; [left|]. }
      destruct Hbuf as [Hin Hbuf]. split_and!; [done..|]. split; [done|]. by rewrite Hbuf.
    + specialize (IH c' Hb' ltac:(lia)). unfold frame_read in *.
      destruct (read_frame_loop fuel c') as [[frame|e] c2| |]; try done; rewrite Ho, Hu in IH; [done|].
      destruct IH as (? & ? & ? & ?). split_and!; [done..|]. by eapply read_failed_after.
  - destruct (read_limited_fails _ _ _ _ Hread Hun) as [? ?]. destruct Hr as [Hbuf Ho].
    split_and!; [unfold in_bounds; by rewrite Hbuf|done..].
Qed.

Lemma read_frame_loop_spec fuel c :
  in_bounds c → (Z.to_nat MAX_PRE_TLS_FRAME - length (cn_buf c) < fuel)%nat →
  frame_read c (read_frame_loop fuel c).
Proof.
  revert c. induction fuel as [|fuel IH]; intros c Hb Hfuel; [lia|]. cbn [read_frame_loop].
  pose proof Hb as Hb'. unfold in_bounds in Hb'.
  assert (Hmore := λ Hu, read_more_spec fuel c Hb Hu (λ c' Hb1 Hl, IH c' Hb1 ltac:(unfold in_bounds in Hb1; lia))).
  cbv zeta in Hmore. destruct (cn_buf c) as [|x buf] eqn:Hbuf; [by apply Hmore; left|].
  pose proof (parse_response_cases (x :: buf)) as Hcases.
  destruct (parse_response (x :: buf)) as [rest r|e| |] eqn:Hp; try done.
  - destruct (parsed_frame _ _ _ Hp) as [_ Hf]. set (n := (length (x :: buf) - length rest)%nat) in *.
    cbn [frame_read]. split_and!; [|done|by exists r|].
    + unfold in_bounds. cbn [cn_buf]. rewrite length_drop. lia.
    + unfold unread. cbn [cn_buf cn_in]. rewrite Hbuf, app_assoc. by rewrite take_drop.
  - assert (e = Incomplete ∨ e ≠ Incomplete) as [->|Hne] by (destruct e; auto; by right).
    { by apply Hmore; right. }
    assert (Hfail : frame_read c (Done (inr (CE_CommandFailed malformed)) c)).
    { split_and!; [done..|]. split; [done|]. exists e. by rewrite Hbuf. }
    by destruct e.
Qed.

Lemma read_one_frame_spec c : in_bounds c → frame_read c (read_one_frame c).
Proof. intros Hb. apply read_frame_loop_spec; [done|]. unfold in_bounds in Hb. lia. Qed.

(** A failure leaves no frame within the ceiling unread, unless the stream ends,
    fails or falls silent before it is there. *)
Lemma read_failed_frame c c' e f r :
  read_failed c c' e → unread c' = f ++ r → is_frame f → Z.of_nat (length f) <= MAX_PRE_TLS_FRAME →
  e = CE_ConnectionClosed ∨ e = CE_Timeout ∨ ∃ err, e = CE_Io err.
Proof.
  intros Hf Hu Hfr Hle.
  assert (Hcmp : (∃ x, cn_buf c' = f ++ x)
    ∨ parse_response (cn_buf c') = ParseErr Incomplete ∧ (length (cn_buf c') < length f)%nat).
  { apply app_eq_inv in Hu as [(k & ? & _)|(k & Hk & _)]; [by left; exists k|].
    destruct k as [|x k]; [rewrite app_nil_r in Hk; left; exists []; by rewrite app_nil_r|].
    right. split; [by eapply (frame_prefix f _ (x :: k))|]. rewrite Hk, length_app. cbn. lia. }
  assert (Hno : ∀ x, ¬ unfinished parse_response (f ++ x)).
  { intros x. destruct (frame_app f x Hfr) as [res Hp]. unfold unfinished. rewrite Hp.
    intros [[-> _]%app_eq_nil|?]; [by apply frame_ne in Hfr|done]. }
  destruct e; cbn in Hf; try done; eauto; exfalso.
  - destruct Hf as (-> & Hl & Hun). destruct Hcmp as [[x Hx]|[_ Hlt]]; [|lia].
    rewrite Hx in Hun. by apply Hno in Hun.
  - destruct Hf as [_ (e & He & Hne)]. destruct Hcmp as [[x Hx]|[Hx _]]; [|congruence].
    destruct (frame_app f x Hfr) as [res Hp]. congruence.
Qed.

Lemma status_for_answers tag frame status text :
  is_frame frame → status_for tag frame = Some (status, text) → answers frame tag status text.
Proof.
  intros [r Hr]. unfold status_for. rewrite Hr. destruct r as [[[t|] s code x]| |]; try done.
  case_bool_decide; [|done]. intros [= <- <-]. subst. by exists code.
Qed.

(** The server's bytes up to the answer to [tag]: other frames, then a tagged
    [OK]. *)
Definition answered_with (tag : str) (c c' : conn) (frames : list bytes) : Prop :=
  ∃ last text, Forall is_frame frames ∧ answers last tag Status_Ok text
    ∧ unread c = concat frames ++ last ++ unread c'.

Lemma answered_with_more tag c c1 c' frame frames :
  is_frame frame → unread c = frame ++ unread c1 → answered_with tag c1 c' frames →
  answered_with tag c c' (frame :: frames).
Proof.
  intros Hf Hu (last & text & Hfs & Ha & Hu'). exists last, text. split_and!; [by constructor|done|].
  cbn. by rewrite Hu, Hu', app_assoc.
Qed.

Lemma unread_shorter c c' frame :
  is_frame frame → unread c = frame ++ unread c' → (length (unread c') < length (unread c))%nat.
Proof. intros Hf%frame_ne ->. destruct frame; [done|]. rewrite length_app. cbn. lia. Qed.

Definition caps_read (caps : Capabilities) (c : conn) (x : ended Capabilities) : Prop :=
  match x with
  | Done (inl caps') c' => in_bounds c' ∧ cn_out c' = cn_out c
      ∧ ∃ frames, answered_with (b! "T0001") c c' frames ∧ caps' = foldl update_caps caps frames
  | Done (inr e) c' => in_bounds c' ∧ cn_out c' = cn_out c
  | _ => False
  end.

Lemma capability_loop_spec fuel caps c :
  in_bounds c → (length (unread c) < fuel)%nat → caps_read caps c (capability_loop fuel caps c).
Proof.
  revert caps c. induction fuel as [|fuel IH]; intros caps c Hb Hfuel; [lia|]. cbn [capability_loop].
  pose proof (read_one_frame_spec c Hb) as Hr.
  destruct (read_one_frame c) as [[frame|e] c1| |]; cbn [ebind frame_read] in *; try done;
    [|by destruct Hr as (? & ? & _)].
  destruct Hr as (Hb1 & Ho1 & Hf & Hu). destruct (status_for _ frame) as [[status text]|] eqn:Hs.
  - apply status_for_answers in Hs; [|done]. destruct status; cbn [is_ok]; try done.
    split_and!; [done..|]. exists []. split; [|done]. exists frame, text. split_and!; [constructor|done..].
  - pose proof (unread_shorter _ _ _ Hf Hu). specialize (IH (update_caps caps frame) c1 Hb1 ltac:(lia)).
    unfold caps_read in *. destruct (capability_loop _ _ _) as [[caps'|e] c2| |]; try done.
    + destruct IH as (? & -> & frames & Ha & ->). split_and!; [done..|]. exists (frame :: frames).
      split; [by eapply answered_with_more|done].
    + by destruct IH as [? ->].
Qed.

Definition starttls_read (c : conn) (x : ended unit) : Prop :=
  match x with
  | Done (inl _) c' => cn_buf c' = [] ∧ cn_out c' = cn_out c
      ∧ ∃ frames, answered_with (b! "T0002") c c' frames
  | Done (inr e) c' => in_bounds c' ∧ cn_out c' = cn_out c
  | _ => False
  end.

Lemma starttls_loop_spec fuel c :
  in_bounds c → (length (unread c) < fuel)%nat → starttls_read c (starttls_loop fuel c).
Proof.
  revert c. induction fuel as [|fuel IH]; intros c Hb Hfuel; [lia|]. cbn [starttls_loop].
  pose proof (read_one_frame_spec c Hb) as Hr.
  destruct (read_one_frame c) as [[frame|e] c1| |]; cbn [ebind frame_read] in *; try done;
    [|by destruct Hr as (? & ? & _)].
  destruct Hr as (Hb1 & Ho1 & Hf & Hu). destruct (status_for _ frame) as [[status text]|] eqn:Hs.
  - apply status_for_answers in Hs; [|done]. destruct status; cbn [is_ok]; try done.
    case_bool_decide as Hbuf; [|done]. split_and!; [done..|]. exists [], frame, text.
    split_and!; [constructor|done..].
  - pose proof (unread_shorter _ _ _ Hf Hu). specialize (IH c1 Hb1 ltac:(lia)).
    unfold starttls_read in *. destruct (starttls_loop _ _) as [[[]|e] c2| |]; try done.
    + destruct IH as (? & -> & frames & Ha). split_and!; [done..|]. exists (frame :: frames).
      by eapply answered_with_more.
    + by destruct IH as [? ->].
Qed.

Lemma prefix_one {A} (l : list A) x y : (l ++ [x]) `prefix_of` (l ++ [x; y]).
Proof. exists [y]. by rewrite <- app_assoc. Qed.

Lemma write_spec bs c :
  match write_all_with_timeout bs c with
  | Done (inl _) c' => cn_out c' = cn_out c ++ [bs] ∧ cn_buf c' = cn_buf c ∧ cn_in c' = cn_in c
  | Done (inr _) c' => cn_out c' = cn_out c ∧ cn_buf c' = cn_buf c
  | _ => False
  end.
Proof. unfold write_all_with_timeout. by destruct (cn_wr c) as [|[] wr]. Qed.

Lemma finishes_events {A} max (k : nat → prog A) c tr a c' :
  finishes max (Events k) c tr a c' → ∃ n c1, later max c c1 ∧ finishes max (k n) c1 tr a c'.
Proof.
  intros Hf. apply finishes_step in Hf as (c1 & Hl & [(ev & p1 & c2 & tr2 & Hs & Hf & ->)|(p1 & [=] & _)]); [|done].
  injection Hs as <- <- <-. by eexists _, c1.
Qed.

(** The first event, when it comes in time. *)
Lemma finishes_recv {A} max n (k : option bytes → prog A) c tr a c' :
  reachable max c → finishes max (Recv n k) c tr a c' →
  ∃ r c1, later max c c1 ∧ finishes max (k r) c1 tr a c' ∧ ∀ f, r = Some f → f ∈ g_frames c1.
Proof.
  intros Hc Hf. apply finishes_step in Hf as (c1 & Hl & [(ev & p1 & c2 & tr2 & Hs & Hf & ->)|(p1 & [= <-] & Hf)]);
    [|by exists None, c1|done].
  cbn [prog_step] in Hs. destruct (_ <=? n)%nat; [done|].
  destruct (_ <=? EVENT_CHANNEL_CAP)%nat; simplify_eq; [|by exists None, c2].
  eexists _, c2. split_and!; [done..|]. intros f Hn.
  eapply (kf_events _ (known_reachable max _ _)), list_elem_of_lookup_2, Hn.
  Unshelve. by eapply later_reachable.
Qed.

Lemma frame_later max c c' f : later max c c' → f ∈ g_frames c → f ∈ g_frames c'.
Proof.
  intros Hl. apply (later_keeps max (λ c, f ∈ g_frames c)); [|done].
  intros a c1 c2 H Hx. by eapply exec_frames.
Qed.

(** How the session's capabilities were learned: inside the channel. *)
Definition learned (s : Session Unauthenticated Tls) (tr : list event) (c' : client) : Prop :=
  (tr = [] ∧ ∃ greeting rest response, greeting ∈ g_frames c' ∧ parse_response greeting = Parsed rest response
     ∧ try_update_from caps_default response = (capabilities s, true))
  ∨ ∃ rid ok frames, tr = [Ev_Command rid (b! "CAPABILITY") (Some is_capability_response)]
      ∧ answered c' rid ok ∧ collected is_capability_response c' frames
      ∧ capabilities s = update_caps (foldl update_caps caps_default frames) ok.

Lemma ask_learned max c tr s c' :
  reachable max c → finishes max (ask_capabilities caps_default) c tr (inl s) c' → learned s tr c'.
Proof.
  intros Hc (tr1 & [r frames] & c2 & tr2 & Hp & Hf & ->)%finishes_bind.
  assert (Hc2 : reachable max c2) by by eapply finishes_reachable.
  apply finishes_execute_streaming in Hp as [Hx Hfs]; [|done].
  pose proof (finishes_later _ _ _ _ _ _ Hf) as Hl. apply finishes_ret in Hf as [-> Hr].
  destruct r as [ok|e]; [|done]. injection Hr as ->.
  destruct Hx as [(e & _ & ? & _)|(rid & -> & _ & Ha)]; [done|].
  right. exists rid, ok, frames. split_and!; [done| |by eapply collected_later|done].
  eapply later_answered; [done..|]. by apply Ha.
Qed.

Lemma finalize_learned max c tr s c' :
  reachable max c → finishes max finalize_session_after_handshake c tr (inl s) c' → learned s tr c'.
Proof.
  intros Hc Hf. unfold finalize_session_after_handshake in Hf.
  apply finishes_events in Hf as (n & c0 & Hl0 & Hf).
  assert (Hc0 : reachable max c0) by by eapply later_reachable.
  apply finishes_recv in Hf as (greeting & c1 & Hl & Hf & Hg); [|done].
  assert (Hc1 : reachable max c1) by by eapply later_reachable.
  assert (Hask : finishes max (ask_capabilities caps_default) c1 tr (inl s) c' → learned s tr c')
    by by apply ask_learned.
  destruct greeting as [frame|]; [|by apply Hask].
  destruct (parse_response frame) as [rest response|e| |] eqn:Hp; [|by apply Hask..].
  destruct (try_update_from caps_default response) as [caps []] eqn:Hu.
  - pose proof (finishes_later _ _ _ _ _ _ Hf) as Hl2. apply finishes_ret in Hf as [-> [= ->]].
    left. split; [done|]. exists frame, rest, response. split_and!; [|done..].
    eapply frame_later; [done|]. by apply Hg.
  - apply try_update_same in Hu as ->. by apply Hask.
Qed.

(** A server that upgrades, and the greeting it sends inside the channel. *)
Definition starttls_stream : conn :=
  mkConn [] [Rd_Bytes (line (b! "* OK hi") ++ b! "* CAPABILITY STAR");
             Rd_Bytes (b! "TTLS" ++ [CR; LF] ++ line (b! "T0001 OK done"));
             Rd_Bytes (line (b! "T0002 OK go"))]
    [Wr_Ok; Wr_Ok] [].
Definition greeting_acts : list action :=
  [A_Read (Read_Ok (line (b! "* OK [CAPABILITY IDLE] hi"))); A_Reader; A_Reader].

Example starttls_stream_upgrades :
  match starttls_steps starttls_stream with Done (inl tt) c => cn_buf c = [] | _ => False end.
Proof. vm_compute. reflexivity. Qed.

(** A handshake that ends in a session. *)
Lemma finishes_handshake max server_name tls domain stream c tr s c' :
  reachable max c → finishes max (handshake_with_connector server_name tls domain stream) c tr (inl s) c' →
  server_name domain = true ∧ tls domain stream = In_Time (inl tt) ∧ learned s tr c'.
Proof.
  intros Hc Hf. unfold handshake_with_connector in Hf.
  destruct (server_name domain); cbn [negb] in Hf; [|by apply finishes_ret in Hf as [_ ?]].
  destruct (tls domain stream) as [[[]|e]|]; cbn [try_res deadline] in Hf;
    [|by apply finishes_ret in Hf as [_ ?]..].
  split_and!; [done..|]. by eapply finalize_learned.
Qed.

(** The TCP connection and the connector, and what follows. *)
Lemma finishes_connect {A} max tcp_connect client_config domain port (f : conn → connector → prog (res A)) c tr a c' :
  finishes max (try_res (connect_tcp tcp_connect domain port) (λ tcp,
    try_res (default_tls_connector client_config) (λ tls, f tcp tls))) c tr (inl a) c' →
  ∃ tcp tls, tcp_connect (domain ++ b! ":" ++ fmt_dec port) = In_Time (inl tcp) ∧ client_config = inl tls
    ∧ finishes max (f tcp tls) c tr (inl a) c'.
Proof.
  unfold connect_tcp, default_tls_connector. intros Hf.
  destruct (tcp_connect _) as [[tcp|e]|]; cbn [try_res deadline] in Hf; [|by apply finishes_ret in Hf as [_ ?]..].
  destruct client_config as [tls|e]; cbn [try_res] in Hf; [|by apply finishes_ret in Hf as [_ ?]].
  by exists tcp, tls.
Qed.

(* ------------------------------------------------------------------ *)
(** ** Properties                                                       *)
(* ------------------------------------------------------------------ *)

(** C33: reading a frame before the upgrade always ends, without a panic; the
    buffer never outgrows its ceiling; what is returned is the next whole frame,
    with nothing lost, added or reordered behind it; and it fails only for a
    reason: a frame that is within the ceiling is returned, unless the stream
    ends, fails or falls silent before it is there. *)
Theorem read_one_frame_bounded c :
  in_bounds c →
  match read_one_frame c with
  | Done (inl frame) c' => in_bounds c' ∧ is_frame frame ∧ unread c = frame ++ unread c'
  | Done (inr e) c' => in_bounds c' ∧ unread c' = unread c ∧ read_failed c c' e
      ∧ ∀ f r, unread c = f ++ r → is_frame f → Z.of_nat (length f) <= MAX_PRE_TLS_FRAME →
          e = CE_ConnectionClosed ∨ e = CE_Timeout ∨ ∃ err, e = CE_Io err
  | Panicked | Hangs => False
  end.
Proof.
  intros Hb. pose proof (read_one_frame_spec c Hb) as Hr.
  destruct (read_one_frame c) as [[frame|e] c'| |]; cbn in Hr; [by destr_hyps| |done..].
  destruct Hr as (? & _ & Hu & ?). split_and!; [done..|]. intros f r Hf. rewrite <- Hu in Hf.
  by eapply read_failed_frame.
Qed.

(** A connection on which only a part of the greeting arrives. *)
Definition cut_greeting : conn := mkConn [] [Rd_Bytes (b! "* OK he"); Rd_Bytes []] [] [].

Lemma read_one_frame_bounded_witness :
  ∃ c', read_one_frame cut_greeting = Done (inr CE_ConnectionClosed) c' ∧ in_bounds c'
    ∧ unread c' = unread cut_greeting ∧ read_failed cut_greeting c' CE_ConnectionClosed.
Proof.
  pose proof (read_one_frame_bounded cut_greeting ltac:(vm_compute; discriminate)) as H.
  exists (mkConn (b! "* OK he") [] [] []).
  assert (Hr : read_one_frame cut_greeting = Done (inr CE_ConnectionClosed) (mkConn (b! "* OK he") [] [] []))
    by (vm_compute; reflexivity).
  rewrite Hr in H. destruct H as (? & ? & ? & _). by split_and!.
Defined.

(** C34: the cleartext exchange always ends, and it succeeds only after: a
    greeting, a tagged [OK] to [CAPABILITY] preceded by frames that advertise
    STARTTLS, and a tagged [OK] to [STARTTLS] after which the server had sent
    nothing more into the buffer. Nothing but the two commands is written. *)
Theorem starttls_safe c :
  match starttls_steps c with
  | Done (inl _) c' =>
    cn_buf c' = []
    ∧ cn_out c' = cn_out c ++ [b! "T0001 CAPABILITY" ++ [CR; LF]; b! "T0002 STARTTLS" ++ [CR; LF]]
    ∧ ∃ greeting c1 c2 before between,
        is_frame greeting ∧ incoming (cn_in c) = greeting ++ unread c1
        ∧ answered_with (b! "T0001") c1 c2 before
        ∧ Capabilities.starttls (foldl update_caps caps_default before) = true
        ∧ answered_with (b! "T0002") c2 c' between
  | Done (inr e) c' => in_bounds c'
      ∧ cn_out c' `prefix_of` cn_out c ++ [b! "T0001 CAPABILITY" ++ [CR; LF]; b! "T0002 STARTTLS" ++ [CR; LF]]
  | Panicked | Hangs => False
  end.
Proof.
  unfold starttls_steps. set (c0 := mkConn [] _ _ _).
  pose proof (read_one_frame_spec c0 ltac:(done)) as Hr.
  destruct (read_one_frame c0) as [[greeting|e] c1| |]; cbn [ebind frame_read] in *; try done;
    [|destruct Hr as (? & -> & _); split; [done|by eexists]].
  destruct Hr as (Hb1 & Ho1 & Hf & Hu). pose proof (write_spec (b! "T0001 CAPABILITY" ++ [CR; LF]) c1) as Hw.
  destruct (write_all_with_timeout _ c1) as [[[]|e] c2| |]; cbn [ebind] in *; try done;
    [|destruct Hw as [Ho Hbuf]; split; [unfold in_bounds; by rewrite Hbuf|rewrite Ho, Ho1; by eexists]].
  destruct Hw as (Ho2 & Hbuf2 & Hin2). assert (Hb2 : in_bounds c2) by (unfold in_bounds; by rewrite Hbuf2).
  assert (Hu2 : unread c2 = unread c1) by (unfold unread; by rewrite Hbuf2, Hin2).
  pose proof (capability_loop_spec (frame_fuel c2) caps_default c2 Hb2 ltac:(unfold frame_fuel, unread; lia)) as Hc.
  destruct (capability_loop _ _ c2) as [[caps|e] c3| |]; cbn [ebind caps_read] in *; try done;
    [|destruct Hc as [? ->]; split; [done|rewrite Ho2, Ho1; apply prefix_one]].
  destruct Hc as (Hb3 & Ho3 & before & Ha1 & ->).
  assert (Hpre : cn_out c3 `prefix_of` cn_out c ++ [b! "T0001 CAPABILITY" ++ [CR; LF]; b! "T0002 STARTTLS" ++ [CR; LF]]).
  { rewrite Ho3, Ho2, Ho1. apply prefix_one. }
  destruct (Capabilities.starttls _) eqn:Hst; cbn [negb]; [|done].
  pose proof (write_spec (b! "T0002 STARTTLS" ++ [CR; LF]) c3) as Hw.
  destruct (write_all_with_timeout _ c3) as [[[]|e] c4| |]; cbn [ebind] in *; try done;
    [|destruct Hw as [-> Hbuf]; split; [unfold in_bounds; by rewrite Hbuf|done]].
  destruct Hw as (Ho4 & Hbuf4 & Hin4). assert (Hb4 : in_bounds c4) by (unfold in_bounds; by rewrite Hbuf4).
  assert (Hu4 : unread c4 = unread c3) by (unfold unread; by rewrite Hbuf4, Hin4).
  assert (Hout : cn_out c4 = cn_out c ++ [b! "T0001 CAPABILITY" ++ [CR; LF]; b! "T0002 STARTTLS" ++ [CR; LF]]).
  { rewrite Ho4, Ho3, Ho2, Ho1, <- app_assoc. done. }
  pose proof (starttls_loop_spec (frame_fuel c4) c4 Hb4 ltac:(unfold frame_fuel, unread; lia)) as Hl.
  destruct (starttls_loop _ c4) as [[[]|e] c5| |]; cbn [starttls_read] in *; try done;
    [|destruct Hl as [? ->]; split; [done|by rewrite Hout]].
  destruct Hl as (Hb5 & -> & between & Ha2). split_and!; [done..|].
  exists greeting, c2, c4, before, between. split_and!; [done| | |done..].
  - by rewrite Hu2.
  - destruct Ha1 as (l & t & ? & ? & ?). exists l, t. split_and!; [done..|]. by rewrite Hu4.
Qed.

(** C35: a STARTTLS session exists only after the cleartext exchange succeeded
    and the handshake on that very stream did, for a valid server name; its
    capabilities were learned inside the encrypted channel ([c] to [c'] is the
    client over it), from nothing the server said before. *)
Theorem starttls_session_trusted server_name tcp_connect client_config max domain port c tr s c' :
  reachable max c →
  finishes max (connect_starttls server_name tcp_connect client_config domain port) c tr (inl s) c' →
  ∃ stream tls stream',
    tcp_connect (domain ++ b! ":" ++ fmt_dec port) = In_Time (inl stream) ∧ client_config = inl tls
    ∧ starttls_steps stream = Done (inl tt) stream' ∧ server_name domain = true
    ∧ tls domain stream' = In_Time (inl tt) ∧ learned s tr c'.
Proof.
  intros Hc Hf. unfold connect_starttls, connect_starttls_with_timeouts in Hf.
  apply finishes_connect in Hf as (stream & tls & Htcp & -> & Hf).
  unfold starttls_with_connector, drive_starttls_exchange in Hf.
  destruct (starttls_steps stream) as [[[]|e] stream'| |] eqn:Hs;
    [|by apply finishes_ret in Hf as [_ ?]|by apply finishes_panics in Hf..].
  exists stream, tls, stream'. apply finishes_handshake in Hf as (? & ? & ?); [|done]. by split_and!.
Qed.

Lemma starttls_session_trusted_witness :
  learned (mkSession (from_atoms [b! "IDLE"])) [] (after greeting_acts).
Proof.
  destruct (starttls_session_trusted (λ _, true) (λ _, In_Time (inl starttls_stream))
    (inl (λ _ _, In_Time (inl tt))) MAX_FRAME_SIZE (b! "host") 143
    client_new [] (mkSession (from_atoms [b! "IDLE"])) (after greeting_acts))
    as (stream & tls & stream' & _ & _ & _ & _ & _ & H).
  - constructor.
  - exists (Go :: (Env <$> greeting_acts) ++ [Go]). vm_compute. reflexivity.
  - exact H.
Defined.
