(* ===== verification/Liveness.v ===== *)
(** No method of a session can hang while writes are answered: whatever has
    happened, its own steps, its deadlines and the write loop alone bring it to
    its result, provided the transport answers each write, in whatever way. A
    write that never completes is outside: behind it the queue fills, and a
    method that has to queue something waits for as long
    ([Timing.send_has_no_deadline]).

    One [await] of the code has no deadline, the result of a command whose
    stream has ended without a continuation request ([await_continuation]).
    It needs none: the sender of the stream goes with the command's entry in
    the pending map, so the result is there, or its sender is gone. *)

From S2P Require Import Prelude Str Ast Monad ResponseParser ParserSafety ParserStream.
From S2P Require Import ParserLocal ParserTheorems Framing ParserRead Base64 ClientError Flags Wire.
From S2P Require Import Credentials Search Capabilities Client ClientFraming ClientReplies.
From S2P Require Import ClientStreams ClientOrder Program Ownership Lossy Session SessionTheorems.
From S2P Require Import Protocol Tls.
From stdpp Require Import options.

(* ------------------------------------------------------------------ *)
(** ** Schedules                                                        *)
(* ------------------------------------------------------------------ *)

(** [p] comes to a result with no help from the server: by its own steps, its
    deadlines and the write loop alone, provided each write is answered: taken
    in part or whole, refused, or failed. *)
Inductive returns {A} : prog A → client → Prop :=
| returns_ret a c : returns (Ret a) c
| returns_go p c ev p1 c1 : prog_step p c = Some (ev, p1, c1) → returns p1 c1 → returns p c
| returns_timeout p c p1 : prog_timeout p = Some p1 → returns p1 c → returns p c
| returns_writer p c c1 : writer_step c = Some c1 → returns p c1 → returns p c
| returns_write p c rest :
    cl_writer c = W_Writing rest → (∀ r c1, write_step r c = Some c1 → returns p c1) → returns p c.

Section run.
Context (max : Z).

(* ------------------------------------------------------------------ *)
(** ** Programs that return                                             *)
(* ------------------------------------------------------------------ *)

(** However the client goes on, [p] does not panic, and a wait without a
    deadline is for a result that is there. *)
Fixpoint good {A} (p : prog A) (c : client) : Prop :=
  match p with
  | Ret _ => True
  | Enqueue cmd wants k => ∀ c1 c2 r, later max c c1 → enqueue_command cmd wants c1 = Some (c2, r) → good (k r) c2
  | SendRaw bs k => ∀ c1 c2 r, later max c c1 → send_raw bs c1 = Some (c2, r) → good (k r) c2
  | Next tx k => ∀ c1, later_apart max tx c c1 →
      (∀ c2 f, next_frame tx c1 = Some (c2, f) →
         good (k (match f with Some f => NR_Frame f | None => NR_End end)) c2)
      ∧ good (k NR_Timeout) c1
  | Drain tx acc k => ∀ fs expired c1, later max c c1 → good (k fs expired) c1
  | IntoReply tx k => ∀ c1, later max c c1 → good k (into_reply tx c1)
  | DropStream tx k => ∀ c1, later max c c1 → good k (drop_stream tx c1)
  | Await timed rid k => (timed = false → over rid c) ∧ ∀ r c1, later max c c1 → good (k r) c1
  | Events k => ∀ n c1, later max c c1 → good (k n) c1
  | Recv at_ k => ∀ r c1, later max c c1 → good (k r) c1
  | Panics => False
  end.

Lemma good_env {A} (p : prog A) a c c1 :
  good p c → exec max a c = Some c1 → apart (reads_from p) (takes_from a) → good p c1.
Proof.
  intros Hg Hx Ha. pose proof (later_step _ _ _ _ Hx) as Hl.
  destruct p; cbn [good reads_from] in *; try done; try (intros; eapply Hg; [|done]; by etrans).
  - intros c2 Hl2. apply Hg. by eapply later_apart_step.
  - intros fs expired c2 Hl2. apply Hg. by etrans.
  - intros c2 Hl2. apply Hg. by etrans.
  - intros c2 Hl2. apply Hg. by etrans.
  - destruct Hg as [Ho Hk]. split.
    + intros Ht. eapply over_later; [done|by apply Ho].
    + intros r c2 Hl2. apply Hk. by etrans.
  - intros n c2 Hl2. apply Hg. by etrans.
  - intros r c2 Hl2. apply Hg. by etrans.
Qed.

Lemma good_step {A} (p : prog A) c ev p1 c1 : good p c → prog_step p c = Some (ev, p1, c1) → good p1 c1.
Proof.
  destruct p; cbn [good prog_step]; try done.
  - intros Hg ([c2 r] & H & [= _ <- <-])%bind_Some. by eapply Hg.
  - intros Hg ([c2 r] & H & [= _ <- <-])%bind_Some. by eapply Hg.
  - intros Hg ([c2 f] & H & [= _ <- <-])%bind_Some. eapply Hg; [apply later_apart_refl|done].
  - intros Hg ([c2 f] & H & [= _ <- <-])%bind_Some.
    assert (Hl : later max c c2) by (apply (later_step max (A_Next tx)); cbn; by rewrite H).
    destruct f as [f|]; [|by apply Hg]. intros fs expired c3 Hl3. apply Hg. by etrans.
  - intros Hg [= _ <- <-]. by apply Hg.
  - intros Hg [= _ <- <-]. by apply Hg.
  - intros [_ Hk]. repeat case_match; intros; simplify_eq; by apply Hk.
  - intros Hg [= _ <- <-]. by apply Hg.
  - intros Hg. repeat case_match; intros; simplify_eq; by apply Hg.
Qed.

Lemma good_timeout {A} (p : prog A) c p1 : good p c → prog_timeout p = Some p1 → good p1 c.
Proof.
  destruct p; cbn [good prog_timeout]; try done.
  - intros Hg [= <-]. eapply Hg, later_apart_refl.
  - intros Hg [= <-]. by apply Hg.
  - intros [_ Hk]. destruct timed; [|done]. intros [= <-]. by apply Hk.
  - intros Hg [= <-]. by apply Hg.
Qed.

Lemma good_drive {A} sched (p : prog A) c tr p' c' :
  good p c → undisturbed max sched p c → drive max sched p c = Some (tr, p', c') → good p' c'.
Proof.
  revert p c tr. induction sched as [|[| |a] sched IH]; intros p c tr Hg Hu; cbn [drive undisturbed] in *.
  - by intros [= _ <- <-].
  - intros ([[ev p1] c1] & Hs & ([[tr2 p2] c2] & Hd & [= _ <- <-])%bind_Some)%bind_Some.
    rewrite Hs in Hu. eapply IH; [|exact Hu|exact Hd]. by eapply good_step.
  - intros (p1 & Hs & Hd)%bind_Some. rewrite Hs in Hu. eapply IH; [|exact Hu|exact Hd]. by eapply good_timeout.
  - intros (c1 & Hx & Hd)%bind_Some. destruct Hu as [Ha Hu]. rewrite Hx in Hu.
    eapply IH; [|exact Hu|exact Hd]. by eapply good_env.
Qed.

(** The write queue never holds more than its capacity. *)
Definition room (c : client) : Prop :=
  cl_writer_done c = true ∨ (length (cl_queue c) <? WRITE_CHANNEL_CAP)%nat = true.

Lemma queue_cap c : reachable max c → (length (cl_queue c) ≤ WRITE_CHANNEL_CAP)%nat.
Proof.
  induction 1 as [|c a c' _ IH Hx]; [apply Nat.le_0_l|].
  assert (Hsame : cl_queue c' = cl_queue c → (length (cl_queue c') ≤ WRITE_CHANNEL_CAP)%nat) by (by intros ->).
  assert (Hmore : ∀ req, (length (cl_queue c) <? WRITE_CHANNEL_CAP)%nat = true →
    cl_queue c' = cl_queue c ++ [req] → (length (cl_queue c') ≤ WRITE_CHANNEL_CAP)%nat)
    by (intros req Hlt ->; to_prop; rewrite length_app; cbn; lia).
  destruct a; cbn [exec] in Hx.
  - apply Hsame. unfold read_step in Hx. destruct (cl_reader c); try done. simplify_eq. by destruct r.
  - apply Hsame. unfold reader_step, log_frame in Hx. destruct (cl_reader c); try done.
    + simplify_eq. by case_match.
    + by apply bind_Some in Hx as (sh & _ & [= <-]).
  - apply fmap_Some in Hx as ([c1 r] & H & [= <-]). unfold enqueue_command in H.
    destruct (wire.reject_line_breaks cmd) as [[]|e]; [|by simplify_eq].
    destruct (next_tag (cl_tag_counter c)) as [tag n].
    destruct (cl_writer_done c); [by injection H as <- _; apply Hsame|].
    destruct (_ <? _)%nat eqn:Hlt; [|done]. injection H as <- _. by eapply Hmore.
  - apply fmap_Some in Hx as ([c1 r] & H & [= <-]). unfold send_raw in H.
    destruct (cl_writer_done c); [by simplify_eq|]. destruct (_ <? _)%nat eqn:Hlt; [|done].
    injection H as <- _. by eapply Hmore.
  - apply Hsame. simplify_eq. unfold cancel_enqueue. by repeat case_match.
  - unfold writer_step in Hx. destruct (cl_writer c); [|done..]. destruct (cl_queue c) as [|req q]; [done|].
    simplify_eq. cbn in *. lia.
  - unfold write_step in Hx. destruct (cl_writer c); [done| |done]. destruct r as [[|n]|]; simplify_eq;
      [apply Nat.le_0_l|by apply Hsame|apply Nat.le_0_l].
  - apply hang_up_ends in Hx as ->. apply Nat.le_0_l.
  - apply Hsame. apply fmap_Some in Hx as ([c1 r] & H & [= <-]). unfold next_frame in H.
    by repeat case_match; simplify_eq.
  - apply Hsame. simplify_eq. apply into_reply_only.
  - apply Hsame. simplify_eq. unfold drop_stream. by case_match.
Qed.

Lemma room_dec c : room c ∨ ¬ room c.
Proof. unfold room. destruct (cl_writer_done c), (_ <? _)%nat; auto; right; by intros []. Qed.

Lemma enqueue_room cmd wants c : room c → is_Some (enqueue_command cmd wants c).
Proof.
  unfold room, enqueue_command. destruct (wire.reject_line_breaks cmd) as [[]|e]; [|done].
  destruct (next_tag (cl_tag_counter c)) as [t n]. intros [->| ->]; [done|]. by destruct (cl_writer_done c).
Qed.

Lemma send_room bs c : room c → is_Some (send_raw bs c).
Proof. unfold room, send_raw. intros [->| ->]; [done|]. by destruct (cl_writer_done c). Qed.

(** Room in the queue is all that a program may need from others, and the write
    loop makes it: it finishes the write it is in, or fails, and takes the next
    request. *)
Lemma returns_room_waiting {A} (p : prog A) c :
  reachable max c → cl_writer c = W_Waiting →
  (∀ c1, later max c c1 → room c1 → returns p c1) → returns p c.
Proof.
  intros Hc Hw Hp. destruct (room_dec c) as [Hr|Hr]; [by apply Hp|].
  assert (Hq := queue_cap c Hc). destruct (cl_queue c) as [|req q] eqn:Hqc.
  { destruct Hr. right. by rewrite Hqc. }
  destruct (writer_step c) as [c1|] eqn:Hs; [|unfold writer_step in Hs; by rewrite Hw, Hqc in Hs].
  eapply returns_writer; [exact Hs|]. apply Hp; [by apply (later_step max A_Writer)|].
  unfold writer_step in Hs. rewrite Hw, Hqc in Hs. simplify_eq. right. by apply Nat.ltb_lt.
Qed.

Lemma returns_room {A} (p : prog A) c :
  reachable max c → (∀ c1, later max c c1 → room c1 → returns p c1) → returns p c.
Proof.
  intros Hc Hp. destruct (cl_writer c) as [|rest|] eqn:Hw; [by apply returns_room_waiting| |].
  2: { apply Hp; [done|]. left. unfold cl_writer_done. by rewrite Hw. }
  assert (Hlen : ∃ n, (length rest < n)%nat) by (exists (S (length rest)); lia). destruct Hlen as [n Hn].
  revert rest c Hc Hp Hw Hn. induction n as [|n IH]; intros rest c Hc Hp Hw Hn; [lia|].
  eapply returns_write; [exact Hw|]. intros r c1 Hs.
  assert (Hl : later max c c1) by by apply (later_step max (A_Write r)).
  assert (Hc1 : reachable max c1) by by eapply later_reachable.
  assert (Hp1 : ∀ c2, later max c1 c2 → room c2 → returns p c2) by (intros c2 Hl2; apply Hp; by etrans).
  unfold write_step in Hs. rewrite Hw in Hs. destruct r as [[|k]|]; simplify_eq;
    [apply Hp1; [done|by left]| |apply Hp1; [done|by left]].
  destruct (drop (S k) rest) as [|b bs] eqn:Hd; [by apply returns_room_waiting|].
  eapply (IH (b :: bs)); [done..|]. rewrite <- Hd, length_drop. destruct rest; [done|]. cbn in *. lia.
Qed.

Lemma good_returns {A} (p : prog A) c : reachable max c → good p c → returns p c.
Proof.
  revert c. induction p as [a|cmd wants k IH|bs k IH|tx k IH|tx acc k IH|tx k IH|tx k IH|timed rid k IH|k IH|n k IH|];
    intros c Hc Hg; cbn [good] in Hg.
  - constructor.
  - apply returns_room; [done|]. intros c1 Hl Hr. destruct (enqueue_room cmd wants c1 Hr) as [[c2 r] He].
    eapply returns_go; [cbn [prog_step]; by rewrite He|]. apply IH; [|by eapply Hg].
    apply (reachable_step max c1 (A_Enqueue cmd wants)); [by eapply later_reachable|]. cbn. by rewrite He.
  - apply returns_room; [done|]. intros c1 Hl Hr. destruct (send_room bs c1 Hr) as [[c2 r] He].
    eapply returns_go; [cbn [prog_step]; by rewrite He|]. apply IH; [|by eapply Hg].
    apply (reachable_step max c1 (A_SendRaw bs)); [by eapply later_reachable|]. cbn. by rewrite He.
  - eapply returns_timeout; [done|]. apply IH; [done|]. apply Hg, later_apart_refl.
  - eapply returns_timeout; [done|]. apply IH; [done|]. by apply Hg.
  - eapply returns_go; [done|]. apply IH; [|by apply Hg]. by apply (reachable_step max c (A_IntoReply tx)).
  - eapply returns_go; [done|]. apply IH; [|by apply Hg]. by apply (reachable_step max c (A_DropStream tx)).
  - destruct Hg as [Ho Hk]. destruct timed.
    + eapply returns_timeout; [done|]. apply IH; [done|]. by apply Hk.
    + destruct (sh_replies (cl_shared c) !! rid) as [r|] eqn:Hr.
      * eapply returns_go; [cbn [prog_step]; by rewrite Hr|]. apply IH; [done|]. by apply Hk.
      * eapply returns_go; [cbn [prog_step]; rewrite Hr, over_dropped; [done|by apply Ho]|].
        apply IH; [done|]. by apply Hk.
  - eapply returns_go; [done|]. apply IH; [done|]. by apply Hg.
  - eapply returns_timeout; [done|]. apply IH; [done|]. by apply Hg.
  - done.
Qed.

(** Programs whose every wait has a deadline. *)
Fixpoint timely {A} (p : prog A) : Prop :=
  match p with
  | Ret _ => True
  | Enqueue cmd wants k => ∀ r, match r with inl (_, _, tx) => is_Some tx ↔ is_Some wants | inr _ => True end →
      timely (k r)
  | SendRaw bs k => ∀ r, timely (k r)
  | Next tx k => ∀ r, timely (k r)
  | Drain tx acc k => ∀ fs expired, timely (k fs expired)
  | IntoReply tx k => timely k
  | DropStream tx k => timely k
  | Await timed rid k => timed = true ∧ ∀ r, timely (k r)
  | Events k => ∀ n, timely (k n)
  | Recv at_ k => ∀ r, timely (k r)
  | Panics => False
  end.

Lemma enqueue_stream cmd wants c c' r :
  enqueue_command cmd wants c = Some (c', r) →
  match r with inl (_, _, tx) => is_Some tx ↔ is_Some wants | inr _ => True end.
Proof.
  unfold enqueue_command. destruct (wire.reject_line_breaks cmd) as [[]|e]; [|by intros [= _ <-]].
  destruct (next_tag (cl_tag_counter c)) as [t n].
  destruct (cl_writer_done c); [by intros [= _ <-]|]. destruct (_ <? _)%nat; [|done]. intros [= _ <-].
  by rewrite !fmap_is_Some.
Qed.

Lemma timely_good {A} (p : prog A) c : timely p → good p c.
Proof.
  revert c. induction p as [a|cmd wants k IH|bs k IH|tx k IH|tx acc k IH|tx k IH|tx k IH|timed rid k IH|k IH|n k IH|];
    intros c Hp; cbn in *; auto.
  - intros c1 c2 r _ He. apply IH, Hp. by eapply enqueue_stream.
  - destruct Hp as [-> Hp]. split; [done|auto].
Qed.

Lemma timely_bind {A B} (p : prog A) (f : A → prog B) :
  timely p → (∀ a, timely (f a)) → timely (pbind p f).
Proof.
  intros Hp Hf. induction p as [a|cmd wants k IH|bs k IH|tx k IH|tx acc k IH|tx k IH|tx k IH|timed rid k IH|k IH|n k IH|];
    cbn in *; try done; auto. destruct Hp as [-> Hp]. split; [done|auto].
Qed.

Lemma good_bind {A B} (p : prog A) (f : A → prog B) c :
  good p c → (∀ a c', later max c c' → good (f a) c') → good (pbind p f) c.
Proof.
  revert c.
  induction p as [a|cmd wants k IH|bs k IH|tx k IH|tx acc k IH|tx k IH|tx k IH|timed rid k IH|k IH|n k IH|];
    intros c Hp Hf; cbn in *; try done.
  - by apply Hf.
  - intros c1 c2 r Hl He. apply IH; [by eapply Hp|]. intros a c3 Hl3. apply Hf.
    etrans; [done|]. etrans; [|done]. apply (later_step max (A_Enqueue cmd wants)). cbn. by rewrite He.
  - intros c1 c2 r Hl He. apply IH; [by eapply Hp|]. intros a c3 Hl3. apply Hf.
    etrans; [done|]. etrans; [|done]. apply (later_step max (A_SendRaw bs)). cbn. by rewrite He.
  - intros c1 Hl. destruct (Hp c1 Hl) as [H1 H2]. apply later_apart_later in Hl. split.
    + intros c2 g Hn. apply IH; [by apply H1|]. intros a c3 Hl3. apply Hf.
      etrans; [done|]. etrans; [|done]. apply (later_step max (A_Next tx)). cbn. by rewrite Hn.
    + apply IH; [done|]. intros a c3 Hl3. apply Hf. by etrans.
  - intros fs b c1 Hl. apply IH; [by apply Hp|]. intros a c3 Hl3. apply Hf. by etrans.
  - intros c1 Hl. apply IH; [by apply Hp|]. intros a c3 Hl3. apply Hf.
    etrans; [done|]. etrans; [|done]. by apply (later_step max (A_IntoReply tx)).
  - intros c1 Hl. apply IH; [by apply Hp|]. intros a c3 Hl3. apply Hf.
    etrans; [done|]. etrans; [|done]. by apply (later_step max (A_DropStream tx)).
  - destruct Hp as [Ho Hp]. split; [done|]. intros r c1 Hl. apply IH; [by apply Hp|].
    intros a c3 Hl3. apply Hf. by etrans.
  - intros n c1 Hl. apply IH; [by apply Hp|]. intros a c3 Hl3. apply Hf. by etrans.
  - intros r c1 Hl. apply IH; [by apply Hp|]. intros a c3 Hl3. apply Hf. by etrans.
Qed.

Lemma good_first {A B} (p : prog A) (f : A → prog B) c : good (pbind p f) c → good p c.
Proof.
  revert c.
  induction p as [a|cmd wants k IH|bs k IH|tx k IH|tx acc k IH|tx k IH|tx k IH|timed rid k IH|k IH|n k IH|];
    intros c Hp; cbn in *; try done; eauto.
  - intros c1 Hl. destruct (Hp c1 Hl) as [H1 H2]. split; [|by apply IH]. intros c2 g Hn. apply IH. by apply H1.
  - destruct Hp as [Ho Hp]. split; [done|]. eauto.
Qed.

(** When what follows has deadlines of its own. *)
Lemma good_bind_timely {A B} (p : prog A) (f : A → prog B) c :
  good p c → (∀ a, timely (f a)) → good (pbind p f) c.
Proof. intros Hp Hf. apply good_bind; [done|]. intros. by apply timely_good. Qed.

Lemma timely_try_p {A B} (p : prog (res A)) (f : A → prog (res B)) :
  timely p → (∀ a, timely (f a)) → timely (try_p p f).
Proof. intros. apply timely_bind; [done|]. by intros []. Qed.

Lemma timely_try_res {A B} (r : res A) (f : A → prog (res B)) : (∀ a, timely (f a)) → timely (try_res r f).
Proof. destruct r; cbn; auto. Qed.

Lemma timely_execute_command cmd : timely (execute_command cmd).
Proof. apply timely_try_p; [|by intros rid]. cbn. by intros [[[? ?] ?]|]. Qed.

Lemma timely_execute_streaming cmd wants : timely (execute_streaming cmd wants).
Proof.
  unfold execute_streaming. apply timely_bind; [|by intros [st|e]; cbn; [intros fs []|]].
  cbn. intros [[[t rid] tx]|e]; [|done]. intros Htx. destruct tx as [tx|]; [done|].
  by destruct Htx as [_ [? ?]]; [by eexists|].
Qed.

(** The wait without a deadline. *)
Lemma good_await_continuation w tx rid c :
  attached rid w tx c → open tx c → good (await_continuation (mkCommandStream tx rid)) c.
Proof.
  intros Ha Ho c1 Hl. destruct (attached_later _ _ _ _ _ _ Hl Ha Ho) as [Ha1 Ho1]. split; [|done].
  intros c2 [f|] Hn; [done|]. destruct (attached_end _ _ _ _ _ Ha1 Ho1 Hn) as [-> Hov].
  cbn. intros c3 Hl3. split; [|done]. intros _. eapply over_later; [|exact Hov]. etrans; [exact Hl3|].
  by apply (later_step max (A_IntoReply tx)).
Qed.

Lemma good_continuation {B} cmd w (f : reply_id → prog (res B)) c :
  reachable max c → (∀ rid, timely (f rid)) →
  good (try_p (send_command_streaming cmd w) (λ stream, try_p (await_continuation stream) f)) c.
Proof.
  intros Hc Hf c1 c2 r Hl He. assert (Hc1 : reachable max c1) by by eapply later_reachable.
  pose proof (enqueue_stream _ _ _ _ _ He) as Htx. destruct r as [[[t rid] [tx|]]|e]; [| |done].
  - destruct (attached_new _ _ _ _ _ _ _ _ Hc1 He) as [Ha Ho].
    change (good (try_p (await_continuation (mkCommandStream tx rid)) f) c2).
    apply good_bind_timely; [by eapply good_await_continuation|].
    intros []; [apply Hf|done].
  - by destruct Htx as [_ [? ?]]; [by eexists|].
Qed.
End run.

(* ------------------------------------------------------------------ *)
(** ** The methods                                                      *)
(* ------------------------------------------------------------------ *)

(** What a caller can run: every method of a session, the end of IDLE, the
    first exchange on a new connection, whatever is made of these, and what
    such a program does first. *)
Inductive operation : ∀ {A}, prog A → Prop :=
| op_ret {A} (a : A) : operation (Ret a)
| op_bind {A B} (p : prog A) (f : A → prog B) :
    operation p → (∀ a, operation (f a)) → operation (pbind p f)
| op_first {A B} (p : prog A) (f : A → prog B) : operation (pbind p f) → operation p
| op_call {S T A} (m : call S T A) (self : Session S T) : operation (run_call m self)
| op_transition {S S' T} (m : transition S S' T) (self : Session S T) : operation (run_transition m self)
| op_logout {S T} (self : Session S T) : operation (session.logout self)
| op_stop (h : IdleHandle) : operation (stop_with_timeout h)
| op_finalize : operation finalize_session_after_handshake.

Ltac timely_step :=
  lazymatch goal with
  | |- timely (Ret _) => exact I
  | |- timely (Await true _ Ret) => by cbn
  | |- timely (SendRaw _ Ret) => by cbn
  | |- timely (execute_command _) => apply timely_execute_command
  | |- timely (execute_streaming _ _) => apply timely_execute_streaming
  | |- timely (try_res _ _) => apply timely_try_res; intros ?
  | |- timely (try_p _ _) => apply timely_try_p; [|intros ?]
  | |- timely (pbind _ _) => apply timely_bind; [|intros ?]
  | |- timely (match ?x with _ => _ end) => destruct x eqn:?
  end.

Ltac timely_auto := repeat timely_step.

Lemma timely_authenticated frame self : timely (session.authenticated frame self).
Proof.
  unfold session.authenticated, session.refresh_capabilities_from_frame, session.refresh_capabilities.
  timely_auto.
Qed.

Lemma timely_finalize : timely finalize_session_after_handshake.
Proof. intros n greeting. unfold ask_capabilities. timely_auto. Qed.

(** The line is always built: no index leaves the alphabet. *)
Lemma sasl_plain_line_some user pass : is_Some (sasl_plain_line user pass).
Proof.
  destruct (encoding_spec ([NUL] ++ user ++ [NUL] ++ password_as_str pass)) as (e & He & _).
  unfold sasl_plain_line. rewrite encode_into_encoding, He. by eexists.
Qed.

Lemma good_call max S T A (m : call S T A) self c : reachable max c → good max (run_call m self) c.
Proof.
  intros Hc. destruct m; cbn [run_call].
  13: { unfold keeping, session.idle. case_match; [done|]. apply good_bind_timely; [|done].
        by apply good_continuation. }
  all: apply timely_good; unfold keeping, session.refresh_capabilities, session.noop, session.list_,
    session.fetch_raw, session.fetch_body, session.fetch, session.search, session.uid_search,
    session.run_search, session.store, session.uid_store, session.expunge, session.check,
    session.move_messages, map_res; timely_auto.
Qed.

Lemma good_transition max S S' T (m : transition S S' T) self c :
  reachable max c → good max (run_transition m self) c.
Proof.
  intros Hc. destruct m; cbn [run_transition].
  2: { unfold session.authenticate_plain. do 2 (case_match; [done|]). apply good_continuation; [done|].
       intros rid. destruct (sasl_plain_line_some user pass) as [line ->].
       timely_auto; apply timely_authenticated. }
  all: apply timely_good; unfold session.login, session.select, session.examine, session.close_mailbox,
    session.unselect; timely_auto; apply timely_authenticated.
Qed.

Lemma good_operation max A (p : prog A) c : reachable max c → operation p → good max p c.
Proof.
  intros Hc Hp. revert c Hc.
  induction Hp as [A a|A B p f _ IHp _ IHf|A B p f _ IH|S T A m self|S S' T m self|S T self|h|]; intros c Hc.
  - done.
  - apply good_bind; [by apply IHp|]. intros a c' Hl. apply IHf. by eapply later_reachable.
  - by eapply good_first, IH.
  - by apply good_call.
  - by apply good_transition.
  - apply timely_good. unfold session.logout. timely_auto.
  - apply timely_good. unfold stop_with_timeout, map_res. timely_auto.
  - apply timely_good, timely_finalize.
Qed.

(** C17: provided each write is answered, every method returns, and so does every
    program made of methods: wherever a run of it stands, whatever the server has
    sent or withheld and whatever the other tasks did, it needs only its own
    steps, its deadlines and the write loop, whose writes the transport takes in
    part or whole, refuses or fails, to reach a result. It never panics, and it
    never waits without a deadline for an answer that cannot come. What can wait
    without end is room in the write queue behind a write that never completes;
    no claim is made there. *)
Theorem methods_return max A (p : prog A) sched c tr p' c' :
  operation p → reachable max c → undisturbed max sched p c →
  drive max sched p c = Some (tr, p', c') → returns p' c'.
Proof.
  intros Hp Hc Hu Hd. apply (good_returns max); [eapply later_reachable; [by eapply drive_later|done]|].
  eapply good_drive; [by apply good_operation|done..].
Qed.

(** The server refuses IDLE: the method stands at the wait without a deadline. *)
Definition refused_idle : list choice :=
  Go :: (Env <$> server_says (line (b! "A0001 NO no")) 2) ++ [Go; Go].

Definition idle_session : Session Selected PlainText := mkSession (from_atoms [b! "IDLE"]).

Lemma methods_return_witness :
  match drive MAX_FRAME_SIZE refused_idle (run_call (C_idle PlainText) idle_session) client_new with
  | Some (_, p', c') => returns p' c'
  | None => False
  end.
Proof.
  destruct (drive _ _ _ _) as [[[tr p'] c']|] eqn:Hd.
  - apply (methods_return MAX_FRAME_SIZE _ (run_call (C_idle PlainText) idle_session) refused_idle
      client_new tr p' c'); [apply op_call|constructor| |exact Hd].
    vm_compute. repeat split; by intros.
  - by vm_compute in Hd.
Defined.
