(* ===== verification/Outcomes.v ===== *)
(** What a session method can return: the errors its own code builds, those the
    read loop hands on, and the expiry of a deadline; nothing else. A predicate
    on errors that holds of these holds of what any method returns. *)

From S2P Require Import Prelude Str Ast Monad ResponseParser ParserSafety ParserStream.
From S2P Require Import ParserLocal ParserTheorems Framing ParserRead Base64 ClientError Flags Wire.
From S2P Require Import Credentials Search Capabilities Client ClientFraming ClientReplies.
From S2P Require Import ClientStreams ClientOrder Program Lossy Session SessionTheorems Protocol Tls.
From stdpp Require Import options.

(* ------------------------------------------------------------------ *)
(** ** The methods                                                      *)
(* ------------------------------------------------------------------ *)

(** The methods of a session, the end of IDLE and the first exchange on a new
    connection, by what they return. *)
Inductive method : Type → Type :=
| M_call {S T A} (m : call S T A) (self : Session S T) : method A
| M_transition {S S' T} (m : transition S S' T) (self : Session S T) : method (Session S' T)
| M_logout {S T} (self : Session S T) : method unit
| M_stop (h : IdleHandle) : method unit
| M_finalize : method (Session Unauthenticated Tls).

Definition run_method {A} (m : method A) : prog (res A) :=
  match m with
  | M_call m self => pbind (run_call m self) (λ '(r, _), Ret r)
  | M_transition m self => run_transition m self
  | M_logout self => session.logout self
  | M_stop h => stop_with_timeout h
  | M_finalize => finalize_session_after_handshake
  end.

(** The errors the client's own code builds: fixed texts, printable and short. *)
Definition own_error (e : ClientError) : Prop :=
  match e with
  | CE_ConnectionClosed => True
  | CE_CommandFailed text => forallb (in_range 0x20 0x7E) text && (length text <=? 513)%nat = true
  | CE_UnsupportedCapability what | CE_InvalidArgument what => printable what = true
  | _ => False
  end.

(* ------------------------------------------------------------------ *)
(** ** Outcomes                                                         *)
(* ------------------------------------------------------------------ *)

Section outcomes.
(** A predicate on errors, and whether deadlines expire. *)
Context (ok : ClientError → Prop) (late : Prop).
#[local] Set Default Proof Using "All".
Context (ok_own : ∀ e, own_error e → ok e) (ok_late : late → ok CE_Timeout).

Definition ok_res {A} (r : res A) : Prop := match r with inl _ => True | inr e => ok e end.

(** Whatever [p] learns, as long as the errors among it are fine, its result
    satisfies [Q]. *)
Fixpoint yields {A} (Q : A → Prop) (p : prog A) : Prop :=
  match p with
  | Ret a => Q a
  | Enqueue _ _ k => ∀ r, ok_res r → yields Q (k r)
  | SendRaw _ k => ∀ r, ok_res r → yields Q (k r)
  | Next _ k => ∀ r, (r = NR_Timeout → late) → yields Q (k r)
  | Drain _ _ k => ∀ fs b, (b = true → late) → yields Q (k fs b)
  | IntoReply _ k | DropStream _ k => yields Q k
  | Await _ _ k => ∀ r, ok_res r → yields Q (k r)
  | Events k => ∀ n, yields Q (k n)
  | Recv _ k => ∀ r, yields Q (k r)
  | Panics => True
  end.

(** The errors among the results delivered so far. *)
Definition replies_ok (c : client) : Prop :=
  ∀ rid e, sh_replies (cl_shared c) !! rid = Some (inr e) → ok e.

Lemma enqueue_safe cmd wants c c' r : enqueue_command cmd wants c = Some (c', r) → ok_res r.
Proof.
  unfold enqueue_command, wire.reject_line_breaks. destruct (existsb _ cmd).
  - intros [= _ <-]. by apply ok_own.
  - destruct (next_tag (cl_tag_counter c)) as [t n].
    destruct (cl_writer_done c); [intros [= _ <-]; by apply ok_own|].
    destruct (_ <? _)%nat; [|done]. by intros [= _ <-].
Qed.

Lemma send_raw_safe bs c c' r : send_raw bs c = Some (c', r) → ok_res r.
Proof.
  unfold send_raw. destruct (cl_writer_done c); [intros [= _ <-]; by apply ok_own|].
  destruct (_ <? _)%nat; [|done]. by intros [= _ <-].
Qed.

Lemma yields_step {A} (Q : A → Prop) (p : prog A) c ev p' c' :
  replies_ok c → yields Q p → prog_step p c = Some (ev, p', c') → yields Q p'.
Proof.
  intros HS. destruct p; cbn [yields prog_step]; try done.
  - intros Hp ([c1 r] & Hr & [= _ <- _])%bind_Some. by eapply Hp, enqueue_safe.
  - intros Hp ([c1 r] & Hr & [= _ <- _])%bind_Some. by eapply Hp, send_raw_safe.
  - intros Hp ([c1 f] & _ & [= _ <- _])%bind_Some. apply Hp. by destruct f.
  - intros Hp ([c1 f] & _ & [= _ <- _])%bind_Some. destruct f; [exact Hp|by apply Hp].
  - by intros Hp [= _ <- _].
  - by intros Hp [= _ <- _].
  - intros Hp. destruct (_ !! rid) as [r|] eqn:Hr.
    + intros [= _ <- _]. apply Hp. destruct r; [done|by eapply HS].
    + destruct (reply_dropped rid c); [|done]. intros [= _ <- _]. by apply Hp, ok_own.
  - by intros Hp [= _ <- _].
  - intros Hp. repeat case_match; intros [= _ <- _] || done; apply Hp.
Qed.

Lemma yields_timeout {A} (Q : A → Prop) (p p' : prog A) :
  late → yields Q p → prog_timeout p = Some p' → yields Q p'.
Proof.
  intros Hl. destruct p; cbn [yields prog_timeout]; try done; try (intros Hp [= <-]; by apply Hp).
  destruct timed; [|done]. intros Hp [= <-]. by apply Hp, ok_late.
Qed.

Lemma yields_bind {A B} (R : A → Prop) (Q : B → Prop) (p : prog A) (f : A → prog B) :
  yields R p → (∀ a, R a → yields Q (f a)) → yields Q (pbind p f).
Proof. intros Hp Hf. induction p; cbn in *; try done; eauto. Qed.

Lemma yields_try_p {A B} (p : prog (res A)) (f : A → prog (res B)) :
  yields ok_res p → (∀ a, yields ok_res (f a)) → yields ok_res (try_p p f).
Proof. intros Hp Hf. eapply yields_bind; [exact Hp|]. by intros [a|e] He; [apply Hf|]. Qed.

Lemma yields_try_res {A B} (r : res A) (f : A → prog (res B)) :
  ok_res r → (∀ a, yields ok_res (f a)) → yields ok_res (try_res r f).
Proof. destruct r; cbn; auto. Qed.

Lemma yields_await timed rid : yields ok_res (Await timed rid Ret).
Proof. by intros []. Qed.

Lemma yields_send_raw bs : yields ok_res (SendRaw bs Ret).
Proof. by intros []. Qed.

Lemma yields_execute_command cmd : yields ok_res (execute_command cmd).
Proof.
  apply yields_try_p; [|intros rid; apply yields_await]. by intros [[[? ?] ?]|e].
Qed.

Lemma yields_streaming cmd wants : yields ok_res (send_command_streaming cmd wants).
Proof. by intros [[[? ?] []]|e]. Qed.

Lemma yields_execute_streaming cmd wants : yields (λ x, ok_res x.1) (execute_streaming cmd wants).
Proof.
  eapply yields_bind; [apply yields_streaming|]. intros [st|e]; [|done].
  intros _ fs [] Hl; [by apply ok_late, Hl|by intros r Hr].
Qed.

Lemma yields_await_continuation st : yields ok_res (await_continuation st).
Proof.
  intros [] Hl; cbn; [done| |by apply ok_late, Hl]. intros [|e] He; [by apply ok_own|done].
Qed.

(* ------------------------------------------------------------------ *)
(** ** The methods                                                      *)
(* ------------------------------------------------------------------ *)

Lemma safe_imap_quoted s : ok_res (imap_quoted s).
Proof. unfold imap_quoted. by case_match; [apply ok_own|]. Qed.

Lemma safe_as_imap_quoted pass : ok_res (as_imap_quoted pass).
Proof. apply safe_imap_quoted. Qed.

Lemma safe_check_flags fl : ok_res (session.check_flags fl).
Proof.
  induction fl as [|f fl IH]; [done|]. cbn [session.check_flags].
  assert (Hf : ok_res (wire.flag f)).
  { unfold wire.flag. repeat case_match; try done; by apply ok_own. }
  by destruct (wire.flag f).
Qed.

Lemma safe_fetch_command set items : ok_res (session.fetch_command set items).
Proof.
  unfold session.fetch_command, wire.sequence_set, wire.fetch_items.
  repeat case_match; simplify_eq; try done; by apply ok_own.
Qed.

Lemma safe_store_command v set a fl : ok_res (session.store_command v set a fl).
Proof.
  unfold session.store_command. pose proof (safe_check_flags fl) as Hf.
  destruct (session.check_flags fl); [|done]. unfold wire.sequence_set.
  repeat case_match; simplify_eq; try done; by apply ok_own.
Qed.

Lemma safe_move_command set mb : ok_res (session.move_command set mb).
Proof.
  unfold session.move_command, wire.sequence_set. pose proof (safe_imap_quoted mb) as Hq.
  destruct (imap_quoted mb); repeat case_match; simplify_eq; try done; by apply ok_own.
Qed.

Lemma yields_refresh {S T} (self : Session S T) :
  yields (λ x, ok_res x.1) (session.refresh_capabilities self).
Proof. eapply yields_bind; [apply yields_execute_streaming|]. by intros [[|e] fs] Hr. Qed.

Lemma yields_authenticated frame self : yields ok_res (session.authenticated frame self).
Proof.
  unfold session.authenticated, session.refresh_capabilities_from_frame.
  eapply (yields_bind (λ x, ok_res x.1)); [|by intros [[|e] self'] Hr].
  repeat case_match; try done; apply yields_refresh.
Qed.
#[local] Hint Resolve yields_await yields_send_raw yields_execute_command yields_streaming
  yields_await_continuation yields_authenticated safe_imap_quoted safe_as_imap_quoted safe_fetch_command
  safe_store_command safe_move_command : core.

(** Goes through the [?]s of a method. *)
Ltac yields_step :=
  lazymatch goal with
  | |- yields _ (Ret (inl _)) => exact I
  | |- yields _ Panics => exact I
  | |- yields _ (Ret (inr _)) => by apply ok_own
  | |- yields _ (try_res _ _) => apply yields_try_res; [|intros ?]
  | |- yields _ (try_p _ _) => apply yields_try_p; [|intros ?]
  | |- yields _ (pbind (execute_streaming _ _) _) =>
    eapply yields_bind; [apply yields_execute_streaming|by intros [[|?] ?] ?]
  | |- yields _ (pbind _ _) => eapply (yields_bind ok_res); [|by intros [|?] ?]
  | |- yields _ (match ?x with _ => _ end) => destruct x eqn:?
  | _ => progress auto
  end.

Ltac yields_auto := repeat yields_step.

Lemma yields_keeping {S T A} (self : Session S T) (p : prog (res A)) :
  yields ok_res p → yields (λ x, ok_res x.1) (keeping self p).
Proof. intros Hp. by eapply yields_bind. Qed.

Lemma yields_method A (m : method A) : yields ok_res (run_method m).
Proof.
  destruct m as [S T A m self|S S' T m self|S T self|h|]; cbn [run_method].
  - eapply (yields_bind (λ x, ok_res x.1)); [|by intros [r ?]].
    destruct m; cbn [run_call]; [apply yields_refresh|apply yields_keeping..];
      unfold session.noop, session.list_, session.fetch_raw, session.fetch_body, session.fetch,
        session.search, session.uid_search, session.run_search, session.store, session.uid_store,
        session.expunge, session.check, session.idle, session.move_messages, map_res; yields_auto.
  - destruct m; cbn [run_transition]; unfold session.login, session.authenticate_plain, session.select,
      session.examine, session.close_mailbox, session.unselect; yields_auto.
  - eapply yields_bind; [apply yields_execute_command|]. by intros [|[]].
  - unfold stop_with_timeout, map_res. yields_auto.
  - intros n greeting. unfold ask_capabilities. yields_auto.
Qed.

(* ------------------------------------------------------------------ *)
(** ** Runs                                                             *)
(* ------------------------------------------------------------------ *)

Section runs.
(** What the read loop hands on is fine too. *)
Context (max : Z) (ok_stop : ∀ e, stop_reason max e → ok e)
  (ok_tagged : ∀ status text frame, ok_res (tagged_result status text frame)).

Lemma replies_ok_exec a c c' : exec max a c = Some c' → replies_ok c → replies_ok c'.
Proof.
  intros Hx HS rid e He. apply exec_results in Hx as [e' Hr _ _ Hs|tag n status text frame _ _ _ Hs|_ Hs];
    rewrite Hs in He.
  - destruct (fail_all_cases _ _ _ _ He) as [(tag & _ & [= <-])|[He' _]]; [by apply ok_stop|by eapply HS].
  - apply lookup_insert_Some in He as [[_ He]|[_ He]]; [|by eapply HS].
    pose proof (ok_tagged status text frame) as Ht. by rewrite He in Ht.
  - by eapply HS.
Qed.

Lemma replies_ok_reachable c : reachable max c → replies_ok c.
Proof. intros Hc. induction Hc; [by intros rid e He|by eapply replies_ok_exec]. Qed.

Lemma replies_ok_step {A} (p : prog A) c ev p' c' :
  prog_step p c = Some (ev, p', c') → replies_ok c → replies_ok c'.
Proof. intros Hs HS. destruct (prog_step_exec max _ _ _ _ _ Hs) as [->|[a Ha]]; [done|by eapply replies_ok_exec]. Qed.

Lemma yields_drive {A} sched (Q : A → Prop) (p : prog A) c tr p' c' :
  late → replies_ok c → yields Q p → drive max sched p c = Some (tr, p', c') → yields Q p'.
Proof.
  intros Hl. revert p c tr. induction sched as [|[| |a] sched IH]; intros p c tr HS Hp; cbn [drive].
  - by intros [= _ <- _].
  - intros ([[ev p1] c1] & Hs & ([[tr2 p2] c2] & Hd & [= _ <- <-])%bind_Some)%bind_Some.
    eapply IH; [| |exact Hd]; [by eapply replies_ok_step|by eapply yields_step].
  - intros (p1 & Hp1 & Hd)%bind_Some. eapply IH; [exact HS| |exact Hd]. by eapply yields_timeout.
  - intros (c1 & Hx & Hd)%bind_Some. eapply IH; [|exact Hp|exact Hd]. by eapply replies_ok_exec.
Qed.
End runs.
End outcomes.
