(* ===== verification/Timing.v ===== *)
(** How long a method takes. A clock is added to the runs of [Program]: time
    passes only while a program waits, a deadline runs from the moment the wait
    it covers begins, and it expires when its time is up. The one deadline of
    [execute_streaming] covers the frames and the reply together; waiting for
    room in the write queue is under no deadline, and is counted apart. *)

From S2P Require Import Prelude Str Ast Monad ResponseParser ParserSafety ParserStream.
From S2P Require Import ParserLocal ParserTheorems Framing ParserRead Base64 ClientError Flags Wire.
From S2P Require Import Credentials Search Capabilities Client ClientFraming ClientReplies.
From S2P Require Import ClientStreams ClientOrder Program Ownership Lossy Session SessionTheorems Protocol Tls.
From S2P Require Import Liveness Outcomes.
From stdpp Require Import options.

(* ------------------------------------------------------------------ *)
(** ** The clock                                                        *)
(* ------------------------------------------------------------------ *)

(** Milliseconds: the wait of [finalize_session_after_handshake] for a
    greeting, and [default_timeout] of [RawClient::new]. *)
Definition GREETING_WAIT : Z := 250.
Definition DEFAULT_TIMEOUT : Z := 30000.

(** A program with what is left of the deadline that runs ([None]: it has not
    begun to run down), the time spent waiting so far, and the time spent waiting
    for room in the write queue. *)
Record timed (A : Type) : Type := mkTimed {
  t_prog : prog A;
  t_client : client;
  t_left : option Z;
  t_waited : Z;
  t_queued : Z;
}.
Arguments mkTimed {A} t_prog t_client t_left t_waited t_queued.
Arguments t_prog {A} t.
Arguments t_client {A} t.
Arguments t_left {A} t.
Arguments t_waited {A} t.
Arguments t_queued {A} t.

Definition started {A} (p : prog A) (c : client) : timed A := mkTimed p c None 0 0.

Definition has_deadline {A} (p : prog A) : bool :=
  match p with Next _ _ | Drain _ _ _ | Recv _ _ => true | Await timed _ _ => timed | _ => false end.

(** The code after it is under the same deadline. *)
Definition keeps_deadline {A} (p : prog A) : bool :=
  match p with Drain _ _ _ | IntoReply _ _ | DropStream _ _ => true | _ => false end.

(** It waits for room in the write queue. *)
Definition queues {A} (p : prog A) : bool :=
  match p with Enqueue _ _ _ | SendRaw _ _ => true | _ => false end.

Definition waits {A} (p : prog A) (c : client) : bool :=
  match p with
  | Ret _ | Panics => false
  | _ => match prog_step p c with None => true | Some _ => false end
  end.

Inductive moment : Type := Act (ch : choice) | Pass (d : Z).

Section clock.
(** [T] is the deadline of the method: [default_timeout], or the argument of
    [stop_with_timeout]. *)
Context (max T : Z).

Definition limit {A} (p : prog A) : Z := match p with Recv _ _ => GREETING_WAIT | _ => T end.

Definition time_left {A} (t : timed A) : Z := 
  match t_left t with Some l => l | None => limit (t_prog t) end.

Definition timed_step {A} (m : moment) (t : timed A) : option (timed A) :=
  let p := t_prog t in
  let c := t_client t in
  match m with
  | Act Go =>
    '(_, p1, c1) ← prog_step p c;
    Some (mkTimed p1 c1 (if keeps_deadline p then t_left t else None) (t_waited t) (t_queued t))
  | Act TimesOut =>
    p1 ← prog_timeout p;
    if time_left t =? 0 then Some (mkTimed p1 c None (t_waited t) (t_queued t)) else None
  | Act (Env a) =>
    if decide (apart (reads_from p) (takes_from a)) then
      c1 ← exec max a c;
      Some (mkTimed p c1 (t_left t) (t_waited t) (t_queued t))
    else None
  | Pass d =>
    if negb (waits p c && (0 <? d)) then None
    else if queues p then Some (mkTimed p c (t_left t) (t_waited t) (t_queued t + d))
    else if negb (has_deadline p) then Some (mkTimed p c (t_left t) (t_waited t + d) (t_queued t))
    else if d <=? time_left t
    then Some (mkTimed p c (Some (time_left t - d)) (t_waited t + d) (t_queued t))
    else None
  end.

Fixpoint timed_run {A} (sched : list moment) (t : timed A) : option (timed A) :=
  match sched with
  | [] => Some t
  | m :: sched => t1 ← timed_step m t; timed_run sched t1
  end.

(** What the deadlines of a method add up to. *)
Definition deadlines {A} (m : method A) : Z :=
  match m with
  | M_transition (T_login _ _) _ => 2 * T
  | M_transition (T_authenticate _ _) _ => 3 * T
  | M_finalize => GREETING_WAIT + T
  | _ => T
  end.

(* ------------------------------------------------------------------ *)
(** ** Budgets                                                          *)
(* ------------------------------------------------------------------ *)

(** [p] starts deadlines that add up to no more than [b], and returns [a] with
    [b'] left such that [Q a b']; [running] says that it starts under a deadline
    already accounted for. *)
Fixpoint within {A} (Q : bool → Z → A → Prop) (running : bool) (b : Z) (p : prog A) : Prop :=
  0 <= b ∧
  match p with
  | Ret a => Q running b a
  | Enqueue _ _ k => ∀ r, within Q false b (k r)
  | SendRaw _ k => ∀ r, within Q false b (k r)
  | Next _ k => running = false ∧ T <= b ∧ ∀ r, within Q false (b - T) (k r)
  | Drain _ _ k => running = false ∧ T <= b ∧ ∀ fs e, within Q (negb e) (b - T) (k fs e)
  | IntoReply _ k | DropStream _ k => within Q running b k
  | Await timed _ k =>
    if timed && negb running then T <= b ∧ ∀ r, within Q false (b - T) (k r)
    else ∀ r, within Q false b (k r)
  | Events k => ∀ n, within Q false b (k n)
  | Recv _ k => running = false ∧ GREETING_WAIT <= b ∧ ∀ r, within Q false (b - GREETING_WAIT) (k r)
  | Panics => True
  end.

Lemma within_nonneg {A} (Q : bool → Z → A → Prop) running b p : within Q running b p → 0 <= b.
Proof. destruct p; cbn; by intros [? _]. Qed.

Lemma within_bind {A B} (R : bool → Z → A → Prop) (Q : bool → Z → B → Prop) running b (p : prog A) (f : A → prog B) :
  within R running b p → (∀ a running' b', R running' b' a → 0 <= b' → within Q running' b' (f a)) →
  within Q running b (pbind p f).
Proof.
  intros Hp Hf. revert running b Hp.
  induction p as [a|cmd wants k IH|bs k IH|tx k IH|tx acc k IH|tx k IH|tx k IH|timed rid k IH|k IH|n k IH|];
    intros running b [Hb Hp]; cbn [within pbind]; try (split; [done|]); try (by auto); cbn in Hp.
  - destruct Hp as (? & ? & ?). by auto.
  - destruct Hp as (? & ? & ?). by auto.
  - destruct (timed && negb running); [destruct Hp as [? ?]|]; by auto.
  - destruct Hp as (? & ? & ?). by auto.
Qed.

(** What the method itself still has to do does not matter. *)
Definition spends {A} (b : Z) (p : prog A) : Prop := within (λ _ _ _, True) false b p.

(** A run within the budget [B]: what is left of it covers the deadlines still
    to come and what is left of the one that runs. *)
Definition spent {A} (t : timed A) : Z := limit (t_prog t) - time_left t.

Record on_time {A} (B : Z) (t : timed A) : Prop := {
  ot_good : good max (t_prog t) (t_client t);
  ot_reach : reachable max (t_client t);
  ot_left : 0 <= time_left t <= limit (t_prog t);
  ot_spent : spent t <= t_waited t;
  ot_budget : ∃ running b, within (λ _ _ _, True) running b (t_prog t)
    ∧ t_waited t - spent t + (if running : bool then T else 0) + b <= B
    ∧ (t_left t = None ∨ running = true ∨ has_deadline (t_prog t) = true);
}.

Context (HT : 0 <= T).

Lemma limit_nonneg {A} (p : prog A) : 0 <= limit p.
Proof using HT. destruct p; cbn; unfold GREETING_WAIT; lia. Qed.

Lemma on_time_started {A} B (p : prog A) c :
  reachable max c → good max p c → spends B p → on_time B (started p c).
Proof using HT.
  intros Hc Hg Hs. pose proof (limit_nonneg p). unfold started.
  split; unfold spent, time_left; cbn [t_left t_prog t_client t_waited]; try done; try lia.
  exists false, B. split_and!; [done|lia|by left].
Qed.

(** The time a run has taken is within its budget. *)
Lemma on_time_bound {A} B (t : timed A) : on_time B t → t_waited t <= B.
Proof using HT.
  intros [_ _ Hl _ (running & b & Hw & Hb & Hc)].
  pose proof (within_nonneg _ _ _ _ Hw). unfold spent, time_left in *. destruct (t_left t) as [l|]; cbn in *.
  2: destruct running; lia.
  destruct Hc as [[=]|[->|Hd]].
  - destruct (t_prog t); cbn in *; destruct Hw as [_ Hw]; lia.
  - destruct (t_prog t); cbn in *; try done; destruct Hw as [_ Hw]; try (destruct Hw as (-> & ? & _); lia).
    subst. destruct running; cbn in *; [lia|]. destruct Hw as [? _]. lia.
Qed.

(** It waits for room in the queue, or under a deadline. *)
Lemma waits_bounded {A} B (t : timed A) :
  on_time B t → waits (t_prog t) (t_client t) = true →
  queues (t_prog t) = true ∨ has_deadline (t_prog t) = true.
Proof.
  intros [Hg _ _ _ _]. destruct (t_prog t); cbn [waits queues has_deadline prog_step]; try done; try by auto.
  destruct timed0; [by right|]. cbn [good] in Hg. destruct Hg as [Ho _]. specialize (Ho eq_refl).
  rewrite (over_dropped _ _ Ho). by destruct (_ !! rid).
Qed.

Lemma on_time_pass {A} B d (t t' : timed A) : on_time B t → timed_step (Pass d) t = Some t' → on_time B t'.
Proof.
  intros Hot. pose proof (waits_bounded B t Hot) as Hw. destruct Hot as [Hg Hr Hl Hs Hb]. cbn [timed_step].
  destruct (waits _ _) eqn:Hwait; cbn [andb negb]; [|done]. destruct (0 <? d) eqn:Hd; [|done]. to_prop.
  destruct (queues (t_prog t)) eqn:Hq; cbn [negb].
  { intros [= <-]. by split. }
  destruct (has_deadline (t_prog t)) eqn:Hhd; [|by destruct (Hw eq_refl)]. cbn [negb].
  destruct (d <=? time_left t) eqn:Hdl; [|done]. to_prop. intros [= <-].
  destruct Hb as (running & b & Hwi & Hb & Hc). unfold spent in *. revert Hl Hs Hb Hdl.
  generalize (time_left t) as l. intros l Hl Hs Hb Hdl.
  split; unfold spent, time_left; cbn [t_prog t_client t_left t_waited]; try done; try lia.
  exists running, b. split_and!; [done| |by right; right]. lia.
Qed.

Lemma on_time_env {A} B a (t t' : timed A) : on_time B t → timed_step (Act (Env a)) t = Some t' → on_time B t'.
Proof.
  intros [Hg Hr Hl Hs Hb]. cbn [timed_step]. destruct (decide _) as [Ha|]; [|done].
  intros (c1 & Hx & [= <-])%bind_Some. split; cbn [t_prog t_client]; try done.
  - by eapply good_env.
  - by eapply reachable_step.
Qed.

Lemma on_time_expire {A} B (t t' : timed A) : on_time B t → timed_step (Act TimesOut) t = Some t' → on_time B t'.
Proof using HT.
  intros [Hg Hr Hl Hs (running & b & Hw & Hb & Hc)]. cbn [timed_step].
  intros (p1 & Hp & Ht)%bind_Some. destruct (time_left t =? 0) eqn:H0; [|done]. injection Ht as <-. to_prop.
  pose proof (limit_nonneg p1). unfold spent in *. rewrite H0 in *. clear H0 Hc.
  split; unfold spent, time_left; cbn [t_prog t_client t_left t_waited]; try done; try lia.
  { by eapply good_timeout. }
  destruct (t_prog t); cbn [prog_timeout within limit] in *; try done;
    [| |destruct timed0; [|done]|]; injection Hp as <-; destruct Hw as [Hb0 Hw];
    [destruct Hw as (-> & ? & Hw)|destruct Hw as (-> & ? & Hw)|cbn [andb] in Hw; destruct running; cbn [negb] in Hw; [|destruct Hw as [? Hw]]|
     destruct Hw as (-> & ? & Hw)].
  all: (eexists _, _; split_and!; [apply Hw| |by left]; cbn [negb]; try lia).
Qed.

(** A step out of a deadline: what it could have taken is paid for. *)
Lemma go_fresh {A} (Q : bool → Z → A → Prop) running b (p : prog A) c ev p1 c1 :
  keeps_deadline p = false → within Q running b p → prog_step p c = Some (ev, p1, c1) →
  ∃ b', within Q false b' p1 ∧ b' <= b - (if has_deadline p && negb running then limit p else 0).
Proof.
  destruct p; cbn [keeps_deadline within prog_step has_deadline limit]; intros Hk [Hb0 Hw]; try done.
  - intros ([c2 r] & _ & [= _ <- _])%bind_Some. exists b. split; [apply Hw|cbn; lia].
  - intros ([c2 r] & _ & [= _ <- _])%bind_Some. exists b. split; [apply Hw|cbn; lia].
  - destruct Hw as (-> & ? & Hw). intros ([c2 r] & _ & [= _ <- _])%bind_Some. exists (b - T). split; [apply Hw|cbn; lia].
  - intros Hp. assert (∃ r, p1 = k r) as [r ->] by (repeat case_match; simplify_eq; by eexists).
    destruct (timed0 && negb running); [destruct Hw as [? Hw]; exists (b - T)|exists b]; (split; [apply Hw|lia]).
  - intros [= _ <- _]. exists b. split; [apply Hw|cbn; lia].
  - destruct Hw as (-> & ? & Hw). intros Hp.
    assert (∃ r, p1 = k r) as [r ->] by (repeat case_match; simplify_eq; by eexists).
    exists (b - GREETING_WAIT). split; [apply Hw|cbn; lia].
Qed.

(** A step under a deadline that goes on. *)
Lemma go_kept {A} (Q : bool → Z → A → Prop) running b (p : prog A) c ev p1 c1 :
  keeps_deadline p = true → within Q running b p → prog_step p c = Some (ev, p1, c1) →
  limit p = T
  ∧ ((has_deadline p = false ∧ within Q running b p1)
     ∨ (has_deadline p1 = true ∧ limit p1 = T ∧ within Q running b p1)
     ∨ (running = false ∧ T <= b ∧ within Q true (b - T) p1)).
Proof.
  destruct p; cbn [keeps_deadline within prog_step has_deadline limit]; intros Hk [Hb0 Hw]; try done.
  - intros ([c2 [f|]] & _ & [= _ <- _])%bind_Some; (split; [done|right]).
    + left. by split_and!.
    + right. destruct Hw as (? & ? & Hw). split_and!; [done..|]. apply (Hw _ false).
  - intros [= _ <- _]. split; [done|]. by left.
  - intros [= _ <- _]. split; [done|]. by left.
Qed.

(** No fresh deadline starts under one that runs. *)
Lemma within_limit {A} (Q : bool → Z → A → Prop) b (p : prog A) : within Q true b p → limit p = T.
Proof. destruct p; cbn; try done. by intros (_ & ? & _). Qed.

Lemma on_time_go {A} B (t t' : timed A) : on_time B t → timed_step (Act Go) t = Some t' → on_time B t'.
Proof using HT.
  intros [Hg Hr Hl Hs (running & b & Hw & Hb & Hc)]. cbn [timed_step].
  intros ([[ev p1] c1] & Hp & [= <-])%bind_Some.
  assert (Hg1 : good max p1 c1) by by eapply good_step.
  assert (Hr1 : reachable max c1).
  { destruct (prog_step_exec max _ _ _ _ _ Hp) as [->|[a Ha]]; [done|by eapply reachable_step]. }
  pose proof (limit_nonneg p1). pose proof (limit_nonneg (t_prog t)).
  destruct (keeps_deadline (t_prog t)) eqn:Hk.
  - destruct (go_kept _ _ _ _ _ _ _ _ Hk Hw Hp) as [Hlim Hcase]. unfold spent, time_left in *.
    assert (Hnew : ∃ running' b', within (λ _ _ _, True) running' b' p1
      ∧ (if running' : bool then T else 0) + b' = (if running then T else 0) + b
      ∧ (t_left t = None ∨ running' = true ∨ has_deadline p1 = true)
      ∧ (t_left t = None ∨ limit p1 = T)).
    { destruct Hcase as [[Hd Hw1]|[(Hd & Hl1 & Hw1)|(-> & ? & Hw1)]].
      - exists running, b. rewrite Hd in Hc. split_and!; [done|done|destruct Hc as [?|[?|?]]; by auto|].
        destruct Hc as [?|[->|?]]; [by left| |done]. right. by eapply within_limit.
      - exists running, b. split_and!; [done|done|by right; right|by right].
      - exists true, (b - T). split_and!; [done|lia|by right; left|right; by eapply within_limit]. }
    destruct Hnew as (running' & b' & Hw1 & Hsum & Hc1 & Hl1).
    split; unfold spent, time_left; cbn [t_prog t_client t_left t_waited]; try done;
      [destruct (t_left t); destruct Hl1; try done; lia..|].
    exists running', b'. split_and!; [done| |done]. destruct (t_left t); destruct Hl1; try done; lia.
  - destruct (go_fresh _ _ _ _ _ _ _ _ Hk Hw Hp) as (b' & Hw1 & Hb').
    split; unfold spent, time_left in *; cbn [t_prog t_client t_left t_waited]; try done; try lia.
    exists false, b'. split_and!; [done| |by left]. 
    destruct (t_left t) as [l|]; [|destruct running, (has_deadline (t_prog t)); cbn in *; lia].
    destruct Hc as [?|[->|Hd]]; [done| |].
    + rewrite (within_limit _ _ _ Hw) in *. destruct (has_deadline (t_prog t)); cbn in *; lia.
    + rewrite Hd in *. destruct running; cbn in *; [rewrite (within_limit _ _ _ Hw) in *|]; lia.
Qed.

Lemma on_time_run {A} B sched (t t' : timed A) : on_time B t → timed_run sched t = Some t' → on_time B t'.
Proof using HT.
  revert t. induction sched as [|m sched IH]; intros t Ht; cbn [timed_run]; [by intros [= <-]|].
  intros (t1 & Hm & Hrun)%bind_Some. eapply IH, Hrun. destruct m as [[| |a]|d].
  - by eapply on_time_go.
  - by eapply on_time_expire.
  - by eapply on_time_env.
  - by eapply on_time_pass.
Qed.

(** Time never stops a run: it can go on, or wait, or its deadline is up. *)
Lemma on_time_goes_on {A} B (t : timed A) :
  on_time B t → (∀ a, t_prog t ≠ Ret a) → ∃ m, (∀ a, m ≠ Act (Env a)) ∧ is_Some (timed_step m t).
Proof.
  intros Hot Hret. pose proof (waits_bounded B t Hot) as Hw. destruct Hot as [Hg _ Hl _ _].
  destruct (waits (t_prog t) (t_client t)) eqn:Hwait.
  - destruct (queues (t_prog t)) eqn:Hq.
    { exists (Pass 1). split; [done|]. cbn [timed_step]. by rewrite Hwait, Hq. }
    destruct Hw as [?|Hd]; [done..|]. destruct (time_left t =? 0) eqn:H0.
    + exists (Act TimesOut). split; [done|]. cbn [timed_step]. rewrite H0.
      destruct (t_prog t); try done; by try destruct timed0.
    + exists (Pass (time_left t)). split; [done|]. cbn [timed_step]. to_prop.
      rewrite Hwait, Hq, Hd, Z.leb_refl. by destruct (Z.ltb_spec 0 (time_left t)); [|lia].
  - exists (Act Go). split; [done|]. cbn [timed_step].
    assert (is_Some (prog_step (t_prog t) (t_client t))) as [[[ev p1] c1] ->].
    { revert Hwait Hg Hret. unfold waits. destruct (t_prog t); try done; [by intros _ _ H; destruct (H a)|..];
        by destruct (prog_step _ _). }
    done.
Qed.

(* ------------------------------------------------------------------ *)
(** ** The methods                                                      *)
(* ------------------------------------------------------------------ *)

(** At least [lo] is left, and no deadline runs on. *)
Definition leaves {A} (lo : Z) (running : bool) (b : Z) (_ : A) : Prop := running = false ∧ lo <= b.

Lemma leaves_ret {A} lo b (a : A) : 0 <= b → lo <= b → within (leaves lo) false b (Ret a).
Proof. done. Qed.

Lemma leaves_panics {A} lo b : 0 <= b → within (leaves (A := A) lo) false b Panics.
Proof. done. Qed.

Lemma leaves_bind {A B} m lo b (p : prog A) (f : A → prog B) :
  within (leaves m) false b p → (∀ a b', 0 <= b' → m <= b' → within (leaves lo) false b' (f a)) →
  within (leaves lo) false b (pbind p f).
Proof. intros Hp Hf. eapply within_bind; [exact Hp|]. intros a r b' [-> Hm] Hb. by apply Hf. Qed.

Lemma leaves_try_p {A B} m lo b (p : prog (res A)) (f : A → prog (res B)) :
  within (leaves m) false b p → lo <= m → (∀ a b', 0 <= b' → m <= b' → within (leaves lo) false b' (f a)) →
  within (leaves lo) false b (try_p p f).
Proof. intros Hp Hm Hf. eapply leaves_bind; [exact Hp|]. intros [a|e] b' ? ?; [by apply Hf|]. apply leaves_ret; lia. Qed.

Lemma leaves_try_res {A B} lo b (r : res A) (f : A → prog (res B)) :
  0 <= b → lo <= b → (∀ a, within (leaves lo) false b (f a)) → within (leaves lo) false b (try_res r f).
Proof. destruct r; cbn [try_res]; intros; [done|by apply leaves_ret]. Qed.

Ltac leaves_cbn := cbn [within]; unfold leaves; intros; cbn [andb negb]; split_and!; try done; try lia.

Lemma leaves_send_raw b bs : 0 <= b → within (leaves b) false b (SendRaw bs Ret).
Proof. intros. by leaves_cbn. Qed.

Lemma leaves_await b rid : T <= b → within (leaves (b - T)) false b (Await true rid Ret).
Proof using HT. intros. by leaves_cbn. Qed.

Lemma leaves_streaming b cmd wants : 0 <= b → within (leaves b) false b (send_command_streaming cmd wants).
Proof. intros. split; [done|]. by intros [[[? ?] []]|e]. Qed.

Lemma leaves_execute_command b cmd : T <= b → within (leaves (b - T)) false b (execute_command cmd).
Proof using HT.
  intros. eapply (leaves_try_p b); [| |intros rid b' _ ?].
  - split; [lia|]. by intros [[[? ?] ?]|e]; leaves_cbn.
  - lia.
  - leaves_cbn.
Qed.

Lemma leaves_execute_streaming b cmd wants : T <= b → within (leaves (b - T)) false b (execute_streaming cmd wants).
Proof using HT.
  intros. eapply leaves_bind; [apply leaves_streaming; lia|]. intros [st|e] b' _ ?; [|leaves_cbn].
  split; [lia|]. split_and!; [done|lia|]. intros fs []; leaves_cbn.
Qed.

Lemma leaves_await_continuation b st : T <= b → within (leaves (b - T)) false b (await_continuation st).
Proof using HT. intros. split; [lia|]. split_and!; [done|lia|]. intros []; leaves_cbn. Qed.

Lemma within_mono {A} (Q Q' : bool → Z → A → Prop) running b (p : prog A) :
  (∀ r b' a, Q r b' a → Q' r b' a) → within Q running b p → within Q' running b p.
Proof.
  intros HQ. revert running b.
  induction p as [a|cmd wants k IH|bs k IH|tx k IH|tx acc k IH|tx k IH|tx k IH|timed rid k IH|k IH|n k IH|];
    intros running b [Hb Hp]; cbn [within]; (split; [done|]); cbn in Hp; auto.
  - destruct Hp as (? & ? & ?). by auto.
  - destruct Hp as (? & ? & ?). by auto.
  - destruct (timed && negb running); [destruct Hp as [? ?]|]; by auto.
  - destruct Hp as (? & ? & ?). by auto.
Qed.

Lemma leaves_less {A} m b (p : prog A) : 0 <= m → within (leaves m) false b p → within (leaves 0) false b p.
Proof. intros Hm. apply within_mono. intros r b' a [-> ?]. split; [done|lia]. Qed.

(** Goes through a method, handing on what is left. *)
Ltac leaves_piece :=
  lazymatch goal with
  | |- within _ _ _ (SendRaw _ Ret) => apply leaves_send_raw
  | |- within _ _ _ (Await true _ Ret) => apply leaves_await
  | |- within _ _ _ (send_command_streaming _ _) => apply leaves_streaming
  | |- within _ _ _ (execute_command _) => apply leaves_execute_command
  | |- within _ _ _ (execute_streaming _ _) => apply leaves_execute_streaming
  | |- within _ _ _ (await_continuation _) => apply leaves_await_continuation
  end; lia.

Ltac leaves_step :=
  lazymatch goal with
  | |- within _ _ _ (Ret _) => apply leaves_ret; lia
  | |- within _ _ _ Panics => apply leaves_panics; lia
  | |- within _ _ _ (try_res _ _) => apply leaves_try_res; [lia|lia|intros ?]
  | |- within _ _ _ (try_p ?p _) =>
    first [eapply leaves_try_p; [leaves_piece|lia|intros ? ? ? ?]
          |apply (leaves_try_p 0); [|lia|intros ? ? ? ?]]
  | |- within _ _ _ (pbind ?p _) =>
    first [eapply leaves_bind; [leaves_piece|intros ? ? ? ?]|apply (leaves_bind 0); [|intros ? ? ? ?]]
  | |- within (leaves 0) false ?b (match ?x with _ => _ end) => destruct x eqn:?
  | |- within (leaves 0) _ _ _ => eapply leaves_less; [|leaves_piece]; lia
  end.

Ltac leaves_auto := repeat leaves_step.

Lemma leaves_refresh {S T'} b (self : Session S T') : T <= b → within (leaves (b - T)) false b (session.refresh_capabilities self).
Proof using HT. intros. unfold session.refresh_capabilities. eapply leaves_bind; [leaves_piece|]. intros [[|e] fs] b' ? ?; leaves_step. Qed.

Lemma leaves_keeping {S T' A} b (self : Session S T') (p : prog (res A)) :
  within (leaves 0) false b p → within (leaves 0) false b (keeping self p).
Proof. intros Hp. unfold keeping. apply (leaves_bind 0); [done|]. intros; leaves_step. Qed.

Lemma leaves_authenticated b frame self : T <= b → within (leaves 0) false b (session.authenticated frame self).
Proof using HT.
  intros. unfold session.authenticated, session.refresh_capabilities_from_frame. apply (leaves_bind 0).
  - repeat case_match; first [apply leaves_ret; lia|eapply leaves_less; [|by apply leaves_refresh]; lia].
  - intros [[|e] self'] b' ? ?; leaves_step.
Qed.

Lemma spends_method {A} (m : method A) : spends (deadlines m) (run_method m).
Proof using HT.
  assert (within (leaves 0) false (deadlines m) (run_method m)) as Hw; [|by eapply within_mono, Hw].
  destruct m as [S T' A m self|S S' T' m self|S T' self|h|]; cbn [run_method deadlines].
  - apply (leaves_bind 0); [|intros [r ?] b' ? ?; leaves_step].
    destruct m; cbn [run_call];
      [eapply leaves_less; [|apply leaves_refresh]; lia|apply leaves_keeping..];
      unfold session.noop, session.list_, session.fetch_raw, session.fetch_body, session.fetch,
        session.search, session.uid_search, session.run_search, session.store, session.uid_store,
        session.expunge, session.check, session.idle, session.move_messages, map_res; leaves_auto.
  - destruct m; cbn [run_transition]; unfold session.login, session.authenticate_plain, session.select,
      session.examine, session.close_mailbox, session.unselect; leaves_auto; apply leaves_authenticated; lia.
  - unfold session.logout. leaves_auto.
  - unfold stop_with_timeout, map_res. leaves_auto.
  - assert (0 <= GREETING_WAIT) by done. unfold finalize_session_after_handshake, ask_capabilities. cbn [within].
    split; [lia|]. intros n. split_and!; [lia|done|lia|]. intros greeting.
    replace (GREETING_WAIT + T - GREETING_WAIT) with T by lia. leaves_auto.
Qed.

(* ------------------------------------------------------------------ *)
(** ** When a deadline is reported                                      *)
(* ------------------------------------------------------------------ *)

(** Until a deadline has run out, nothing a program learns is [CE_Timeout]. *)
Definition in_time (e : ClientError) : Prop := e ≠ CE_Timeout.

Lemma in_time_own e : own_error e → in_time e.
Proof. by intros Ho ->. Qed.

Lemma in_time_stop e : stop_reason max e → in_time e.
Proof. by intros Hs ->. Qed.

Lemma in_time_tagged status text frame : ok_res in_time (tagged_result status text frame).
Proof. by destruct status. Qed.

Definition early {A} (p : prog (res A)) : Prop := yields in_time False (ok_res in_time) p.

Definition timely_result {A} (t : timed (res A)) : Prop :=
  replies_ok in_time (t_client t) ∧ (early (t_prog t) ∨ T <= t_waited t).

Lemma timely_result_step {A} B m (t t' : timed (res A)) :
  on_time B t → timed_step m t = Some t' → timely_result t → timely_result t'.
Proof using HT.
  intros Hot Hm [Hr Ht]. destruct Hot as [_ _ Hl Hs _].
  pose proof (replies_ok_exec in_time False in_time_own (False_ind _) max in_time_stop in_time_tagged) as Hexec.
  pose proof (@replies_ok_step in_time False in_time_own (False_ind _) max in_time_stop in_time_tagged) as Hstep.
  destruct m as [[| |a]|d]; cbn [timed_step] in Hm.
  - apply bind_Some in Hm as ([[ev p1] c1] & Hp & [= <-]). split; [by eapply Hstep|].
    destruct Ht as [Ht|Ht]; [left|by right].
    by eapply (yields_step in_time False in_time_own (False_ind _)).
  - apply bind_Some in Hm as (p1 & Hp & Ht1). destruct (time_left t =? 0) eqn:H0; [|done].
    injection Ht1 as <-. to_prop. split; [done|]. cbn [t_prog t_waited]. destruct Ht as [Ht|Ht]; [|by right].
    unfold spent in Hs. rewrite H0 in Hs. unfold early in *.
    destruct (t_prog t); cbn [prog_timeout limit yields] in *; try done; [right; lia|right; lia|right; lia|].
    left. injection Hp as <-. apply Ht.
  - destruct (decide _); [|done]. apply bind_Some in Hm as (c1 & Hx & [= <-]). split; [by eapply Hexec|done].
  - destruct (waits _ _), (0 <? d) eqn:Hd; cbn [andb negb] in Hm; try done. to_prop.
    destruct Ht as [Ht|Ht]; repeat case_match; simplify_eq; (split; [done|]); cbn [t_prog t_waited];
      [by left..|right; lia|right; lia|right; lia].
Qed.

Lemma timely_result_run {A} B sched (t t' : timed (res A)) :
  on_time B t → timed_run sched t = Some t' → timely_result t → timely_result t'.
Proof using HT.
  revert t. induction sched as [|m sched IH]; intros t Ho; cbn [timed_run]; [by intros [= <-]|].
  intros (t1 & Hm & Hrun)%bind_Some Ht. eapply IH; [|exact Hrun|by eapply timely_result_step].
  apply (on_time_run B [m] t); [done|]. cbn [timed_run]. by rewrite Hm.
Qed.

Lemma timely_result_started {A} (m : method A) c : reachable max c → timely_result (started (run_method m) c).
Proof.
  intros Hc. split.
  - by apply (replies_ok_reachable in_time False in_time_own (False_ind _) max in_time_stop in_time_tagged).
  - left. apply (yields_method in_time False in_time_own (False_ind _)).
Qed.
End clock.

(** The methods do not hang, of [Liveness]. *)
Lemma method_good max A (m : method A) c : reachable max c → good max (run_method m) c.
Proof.
  intros Hc. apply (good_operation max); [done|]. destruct m; cbn [run_method].
  - apply op_bind; [apply op_call|intros [r ?]; apply op_ret].
  - apply op_transition.
  - apply op_logout.
  - apply op_stop.
  - apply op_finalize.
Qed.

(* ------------------------------------------------------------------ *)
(** ** Properties                                                       *)
(* ------------------------------------------------------------------ *)

(** C18: a method keeps its deadlines. Whatever the server and the other tasks
    do, the time it waits, besides for room in the write queue, is at most its
    deadlines together: one for a command, two for LOGIN (its reply, and the
    capabilities), three for AUTHENTICATE, the greeting's and one after the
    handshake. It reports [CE_Timeout] only when a whole deadline has passed.
    And the clock never stops it short of its result: at any moment it can go on,
    or a wait is not yet over, or its deadline expires. *)
Theorem method_keeps_deadlines max T A (m : method A) c sched t :
  0 <= T → reachable max c → timed_run max T sched (started (run_method m) c) = Some t →
  t_waited t <= deadlines T m
  ∧ (t_prog t = Ret (inr CE_Timeout) → T <= t_waited t)
  ∧ ((∃ r, t_prog t = Ret r) ∨ ∃ x, (∀ a, x ≠ Act (Env a)) ∧ is_Some (timed_step max T x t)).
Proof.
  intros HT Hc Hrun.
  assert (H0 : on_time max T (deadlines T m) (started (run_method m) c)).
  { apply on_time_started; [done..|by apply method_good|by apply spends_method]. }
  pose proof (on_time_run max T HT _ _ _ _ H0 Hrun) as H1. split_and!.
  - by eapply on_time_bound.
  - intros Hp. destruct (timely_result_run max T HT _ _ _ _ H0 Hrun (timely_result_started max T m c Hc)) as [_ [He|]];
      [|done]. unfold early in He. rewrite Hp in He. by destruct He.
  - destruct (t_prog t) eqn:Hp; [by left; eexists|right..]; apply (on_time_goes_on max T _ t H1);
      intros a Ha; by rewrite Hp in Ha.
Qed.

(** A server that never answers NOOP. *)
Definition noop_timed : option (timed (res unit)) :=
  timed_run MAX_FRAME_SIZE DEFAULT_TIMEOUT [Act Go; Pass DEFAULT_TIMEOUT; Act TimesOut]
    (started (run_method (M_call (C_noop Selected PlainText) idle_session)) client_new).

Lemma method_keeps_deadlines_witness :
  match noop_timed with
  | Some t => t_prog t = Ret (inr CE_Timeout) ∧ t_waited t = DEFAULT_TIMEOUT
      ∧ t_waited t <= deadlines DEFAULT_TIMEOUT (M_call (C_noop Selected PlainText) idle_session)
  | None => False
  end.
Proof.
  destruct noop_timed as [t|] eqn:Hr; [|by vm_compute in Hr].
  destruct (method_keeps_deadlines MAX_FRAME_SIZE DEFAULT_TIMEOUT _
    (M_call (C_noop Selected PlainText) idle_session) client_new _ t ltac:(done) (reachable_new _) Hr) as [Hw _].
  split_and!; [| |exact Hw]; vm_compute in Hr; injection Hr as <-; reflexivity.
Defined.

(** Sending is under no deadline: when the write loop is stuck in a write and
    its queue is full, the end of IDLE waits for as long as that lasts, whatever
    deadline [stop_with_timeout] was given. *)
Definition stalled : client :=
  after ([A_SendRaw (b! "x"); A_Writer] ++ replicate WRITE_CHANNEL_CAP (A_SendRaw (b! "x"))).

Theorem send_has_no_deadline T h d :
  0 < d →
  reachable MAX_FRAME_SIZE stalled
  ∧ timed_step MAX_FRAME_SIZE T (Pass d) (started (run_method (M_stop h)) stalled)
  = Some (mkTimed (run_method (M_stop h)) stalled None 0 d)
  ∧ timed_step MAX_FRAME_SIZE T (Act TimesOut) (started (run_method (M_stop h)) stalled) = None.
Proof.
  intros Hd. split_and!; [apply after_reachable| |done]. unfold timed_step, started. cbn [t_prog t_client t_left t_waited t_queued].
  assert (waits (run_method (M_stop h)) stalled = true) as -> by by vm_compute.
  by destruct (Z.ltb_spec 0 d) as [_|?]; [|lia].
Qed.
