(* ===== verification/ErrorDisplay.v ===== *)
(** What a caller sees of an error: the [Display] of [ClientError]
    ([imap-client/src/error.rs]) and of [ParseError] ([imap-core/src/error.rs]),
    as [thiserror] derives them from the messages. Whatever a server sends, no
    error of a session or of the exchange before STARTTLS can drive the terminal
    or the log that shows it. *)

From S2P Require Import Prelude Str Ast Monad ResponseParser ParserSafety ParserStream.
From S2P Require Import ParserLocal ParserTheorems Framing ParserRead Base64 ClientError Flags Wire.
From S2P Require Import Credentials Search Capabilities Client ClientFraming ClientReplies.
From S2P Require Import ClientStreams ClientOrder Program Lossy Session SessionTheorems Protocol Tls.
From S2P Require Import Liveness Outcomes.
From stdpp Require Import options.

(* ------------------------------------------------------------------ *)
(** ** [Display]                                                        *)
(* ------------------------------------------------------------------ *)

Section display.
(** [<str as Debug>::fmt]: quotes and escapes, by Unicode tables. *)
Context (str_debug : str → str).

Definition parse_error_display (e : ParseError) : str :=
  match e with
  | Incomplete => b! "Incomplete input"
  | InvalidChar offset => b! "Invalid character at offset " ++ fmt_dec (Z.of_nat offset)
  | ExpectedLiteral expected offset =>
    b! "Expected literal " ++ str_debug (b! expected) ++ b! " at offset " ++ fmt_dec (Z.of_nat offset)
  | UnexpectedEof => b! "Unexpected end of input"
  | InvalidNumber => b! "Number parsing error"
  | LiteralTooLarge got max => b! "Literal length " ++ fmt_dec got ++ b! " exceeds maximum " ++ fmt_dec max
  | TooManyItems max => b! "response has more than " ++ fmt_dec max ++ b! " list items"
  | Malformed what => b! "Malformed response: " ++ b! what
  | PE_Other what => b! "Other parsing error: " ++ b! what
  end.

Definition client_error_display (e : ClientError) : str :=
  match e with
  | CE_Io e => b! "I/O error: " ++ b! e
  | CE_Parse e => b! "Parse error: " ++ parse_error_display e
  | CE_ConnectionClosed => b! "Connection closed"
  | CE_FrameTooLarge max => b! "response frame exceeded the maximum size of " ++ fmt_dec max ++ b! " bytes"
  | CE_CommandFailed text => b! "Command failed: " ++ text
  | CE_UnsupportedCapability what => b! "Capability not supported: " ++ b! what
  | CE_Timeout => b! "Command timed out"
  | CE_InvalidArgument what => b! "invalid argument: " ++ b! what
  end.

(** The characters that change how the text around them is shown, as Unicode
    names them. *)
Inductive steers : char → Prop :=
| steers_c0 c : 0 <= c < 32 → steers c
| steers_delete : steers 127
| steers_c1 c : 128 <= c < 160 → steers c
| steers_arabic_letter_mark : steers 0x61C
| steers_left_to_right_mark : steers 0x200E
| steers_right_to_left_mark : steers 0x200F
| steers_line_separator : steers 0x2028
| steers_paragraph_separator : steers 0x2029
(** The embeddings, their end, and the overrides. *)
| steers_embedding c : 0x202A <= c <= 0x202E → steers c
(** The isolates and their end. *)
| steers_isolate c : 0x2066 <= c <= 0x2069 → steers c.

(** The code replaces exactly these. *)
Lemma steers_iff c : steers c ↔ is_unsafe_to_display c = true.
Proof.
  unfold is_unsafe_to_display, is_control. rewrite !orb_true_iff, !andb_true_iff, !Z.leb_le, !Z.eqb_eq.
  split; [intros []; lia|]. intros [[[[[[[[H|H]| ->]| ->]| ->]| ->]| ->]|H]|H].
  - apply steers_c0. lia.
  - destruct (decide (c = 127)) as [->|]; [apply steers_delete|apply steers_c1; lia].
  - apply steers_arabic_letter_mark.
  - apply steers_left_to_right_mark.
  - apply steers_right_to_left_mark.
  - apply steers_line_separator.
  - apply steers_paragraph_separator.
  - by apply steers_embedding.
  - by apply steers_isolate.
Qed.

(** A string, with no such character. *)
Definition shown_safely (s : str) : Prop :=
  utf8_valid s = true ∧ Forall (λ c, ¬ steers c) (chars s).

Lemma unsafe_steers cs : Forall (λ c, is_unsafe_to_display c = false) cs → Forall (λ c, ¬ steers c) cs.
Proof. intros H. eapply Forall_impl; [done|]. intros c Hc. by rewrite steers_iff, Hc. Qed.

Lemma shown_safely_encode cs :
  Forall (λ c, is_scalar c = true) cs → Forall (λ c, ¬ steers c) cs →
  shown_safely (encode cs).
Proof. intros Hs Hc. split; [apply utf8_valid_spec; by exists cs|by rewrite chars_encode]. Qed.

Lemma shown_safely_app s t : shown_safely s → shown_safely t → shown_safely (s ++ t).
Proof.
  intros [Hs Hs'] [Ht Ht']. rewrite <- (encode_chars s), <- (encode_chars t), <- encode_app by done.
  apply shown_safely_encode; apply Forall_app; split; auto using chars_scalar.
Qed.

Lemma printable_chars s :
  forallb (in_range 0x20 0x7E) s = true →
  chars s = bval <$> s ∧ Forall (λ b, 0x20 <= bval b <= 0x7E) s.
Proof.
  rewrite forallb_forall. intros H. assert (Hb : Forall (λ b, 0x20 <= bval b <= 0x7E) s).
  { apply Forall_forall. intros b Hin%list_elem_of_In%H. unfold in_range in Hin. to_prop. lia. }
  split; [|done]. rewrite <- (encode_ascii s) at 1 by (eapply Forall_impl; [exact Hb|]; intros b ?; cbn in *; lia).
  apply chars_encode, Forall_fmap. eapply Forall_impl; [exact Hb|]. intros b ?; cbn in *.
  apply is_scalar_spec. lia.
Qed.

Lemma shown_safely_printable s : forallb (in_range 0x20 0x7E) s = true → shown_safely s.
Proof.
  intros H. destruct (printable_chars s H) as [Hc Hb]. split.
  - apply utf8_valid_ascii. eapply Forall_impl; [exact Hb|]. intros b ?; cbn in *. lia.
  - rewrite Hc. apply Forall_fmap. eapply Forall_impl; [exact Hb|]. intros b ?; cbn in *.
    intros Hs; inversion Hs; lia.
Qed.

Lemma shown_safely_dec n : 0 <= n → shown_safely (fmt_dec n).
Proof.
  intros Hn. apply shown_safely_printable, forallb_forall. intros b Hin%list_elem_of_In.
  pose proof (fmt_dec_digits n Hn) as H. rewrite Forall_forall in H. apply H in Hin.
  unfold is_ascii_digit, in_range in *. to_prop. lia.
Qed.

Lemma shown_safely_parse_error input e : err_ok input e → shown_safely (parse_error_display e).
Proof.
  destruct e; cbn [err_ok parse_error_display]; intros He; try done;
    repeat apply shown_safely_app; try (by apply shown_safely_printable); apply shown_safely_dec;
    unfold MAX_LITERAL_SIZE, MAX_ITEMS_PER_RESPONSE in *; lia.
Qed.

(** A server's text is cut: 512 characters and an ellipsis at most. *)
Definition bounded_text (e : ClientError) : Prop :=
  match e with CE_CommandFailed text => (length (chars text) ≤ 513)%nat | _ => True end.

Definition shows (e : ClientError) : Prop := shown_safely (client_error_display e) ∧ bounded_text e.

Lemma shows_printable e :
  forallb (in_range 0x20 0x7E) (client_error_display e) = true → bounded_text e → shows e.
Proof. intros. split; [by apply shown_safely_printable|done]. Qed.

Lemma shows_text text :
  forallb (in_range 0x20 0x7E) text && (length text <=? 513)%nat = true → shows (CE_CommandFailed text).
Proof.
  intros [Hp Hl%Nat.leb_le]%andb_true_iff. split.
  - by apply shown_safely_app; apply shown_safely_printable.
  - cbn [bounded_text]. destruct (printable_chars text Hp) as [-> _]. by rewrite length_fmap.
Qed.

Lemma shows_command_failed text : shows (command_failed text).
Proof.
  split.
  - apply shown_safely_app; [by apply shown_safely_printable|].
    apply shown_safely_encode; [apply safe_chars_scalar, chars_scalar|apply unsafe_steers, safe_chars_safe].
  - unfold command_failed, bounded_text. rewrite chars_command_failed. apply length_safe_chars.
Qed.

Lemma shows_stop max e : 0 <= max → stop_reason max e → shows e.
Proof.
  intros Hm. destruct e as [|e| |m| | | |]; cbn [stop_reason]; try done.
  - intros [input Hp]. split; [|done]. apply shown_safely_app; [by apply shown_safely_printable|].
    apply (shown_safely_parse_error input). pose proof (parse_response_cases input) as Hc. by rewrite Hp in Hc.
  - intros _. by apply shows_printable.
  - intros ->. split; [|done]. repeat apply shown_safely_app; try (by apply shown_safely_printable). by apply shown_safely_dec.
Qed.

Lemma shows_closed : shows CE_ConnectionClosed.
Proof. by apply shows_printable. Qed.
Lemma shows_timeout : shows CE_Timeout.
Proof. by apply shows_printable. Qed.

Lemma shows_own e : own_error e → shows e.
Proof.
  destruct e; cbn [own_error]; intros Ho; try done; [apply shows_closed|by apply shows_text|..];
    (split; [by apply shown_safely_app; apply shown_safely_printable|done]).
Qed.

Lemma shows_tagged status text frame : ok_res shows (tagged_result status text frame).
Proof.
  destruct status; cbn [tagged_result ok_res];
    lazymatch goal with
    | |- True => exact I
    | |- shows (command_failed _) => apply shows_command_failed
    | |- shows CE_ConnectionClosed => apply shows_closed
    end.
Qed.

Lemma shows_returned max A (m : method A) sched c tr e c' :
  0 <= max → reachable max c → drive max sched (run_method m) c = Some (tr, Ret (inr e), c') → shows e.
Proof.
  intros Hm Hc Hd. assert (Hstop : ∀ e, stop_reason max e → shows e) by (intros; by eapply shows_stop).
  refine (yields_drive shows True shows_own (λ _, shows_timeout) max Hstop shows_tagged sched
    (ok_res shows) (run_method m) c tr (Ret (inr e)) c' I _ _ Hd).
  - by apply (replies_ok_reachable shows True shows_own (λ _, shows_timeout) max Hstop shows_tagged).
  - apply (yields_method shows True shows_own (λ _, shows_timeout)).
Qed.
End display.

(* ------------------------------------------------------------------ *)
(** ** The exchange before STARTTLS                                     *)
(* ------------------------------------------------------------------ *)

(** An I/O error has the operating system's own text. *)
Definition is_io (e : ClientError) : Prop := ∃ io, e = CE_Io io.

Section starttls.
Context (str_debug : str → str).

Definition settled {A} (x : ended A) : Prop :=
  match x with
  | Done (inl _) c => in_bounds c
  | Done (inr e) _ => is_io e ∨ shows str_debug e
  | Panicked | Hangs => True
  end.

Lemma settled_bind {A B} (x : ended A) (k : A → conn → ended B) :
  settled x → (∀ a c, in_bounds c → settled (k a c)) → settled (ebind x k).
Proof. destruct x as [[a|e] c| |]; cbn; auto. Qed.

Lemma settled_read c : in_bounds c → settled (read_one_frame c).
Proof.
  intros Hb. pose proof (read_one_frame_spec c Hb) as Hr.
  destruct (read_one_frame c) as [[frame|e] c'| |]; cbn in Hr |- *; [by destr_hyps| |done..].
  destruct Hr as (_ & _ & _ & He). destruct e; cbn [read_failed] in He; try done.
  - left. by eexists.
  - right. apply shows_closed.
  - destruct He as [-> _]. right. by apply shows_printable.
  - destruct He as [-> _]. right. by apply shows_text.
  - right. apply shows_timeout.
Qed.

Lemma settled_write bs c : in_bounds c → settled (write_all_with_timeout bs c).
Proof.
  intros Hb. unfold write_all_with_timeout. destruct (cn_wr c) as [|[] wr]; cbn; try done.
  - right. apply shows_timeout.
  - left. by eexists.
  - right. apply shows_timeout.
Qed.

Lemma settled_capability fuel caps c : in_bounds c → settled (capability_loop fuel caps c).
Proof.
  revert caps c. induction fuel as [|fuel IH]; intros caps c Hb; [done|]. cbn [capability_loop].
  apply settled_bind; [by apply settled_read|]. intros frame c' Hb'.
  destruct (status_for _ frame) as [[status text]|]; [|by apply IH].
  destruct (is_ok status); [done|]. right. apply shows_command_failed.
Qed.

Lemma settled_starttls fuel c : in_bounds c → settled (starttls_loop fuel c).
Proof.
  revert c. induction fuel as [|fuel IH]; intros c Hb; [done|]. cbn [starttls_loop].
  apply settled_bind; [by apply settled_read|]. intros frame c' Hb'.
  destruct (status_for _ frame) as [[status text]|]; [|by apply IH].
  destruct (is_ok status); [|right; apply shows_command_failed].
  case_bool_decide; [done|]. right. by apply shows_text.
Qed.

Lemma settled_exchange c : settled (drive_starttls_exchange c).
Proof.
  unfold drive_starttls_exchange, starttls_steps.
  apply settled_bind; [by apply settled_read|]. intros _ c1 Hb1.
  apply settled_bind; [by apply settled_write|]. intros _ c2 Hb2.
  apply settled_bind; [by apply settled_capability|]. intros caps c3 Hb3.
  destruct (Capabilities.starttls caps); cbn [negb]; [|right; by apply shows_text].
  apply settled_bind; [by apply settled_write|]. intros _ c4 Hb4. by apply settled_starttls.
Qed.
End starttls.

(* ------------------------------------------------------------------ *)
(** ** Properties                                                       *)
(* ------------------------------------------------------------------ *)

(** C22: whatever a hostile server sends, in whatever order and however much,
    and whatever the caller's arguments are: no error of any method of a session
    can drive the terminal or the log that shows it. What [Display] prints is
    UTF-8, with no control character, line separator or bidirectional mark. So
    it is for the cleartext exchange before STARTTLS, except for an I/O error,
    whose text is the operating system's. And a server's text is at most 513 characters. *)
Theorem errors_shown_safely str_debug max :
  0 <= max →
  (∀ A (m : method A) sched c tr e c',
     reachable max c → drive max sched (run_method m) c = Some (tr, Ret (inr e), c') →
     shown_safely (client_error_display str_debug e) ∧ bounded_text e)
  ∧ (∀ c e c', drive_starttls_exchange c = Done (inr e) c' →
       is_io e ∨ shown_safely (client_error_display str_debug e) ∧ bounded_text e).
Proof.
  intros Hm. split.
  - intros A m sched c tr e c' Hc Hd.
    by eapply shows_returned.
  - intros c e c' Hx. pose proof (settled_exchange str_debug c) as H. by rewrite Hx in H.
Qed.

(** The server answers NOOP with an escape sequence. *)
Definition escapes : str := [Byte.x1b] ++ b! "[2J" ++ [Byte.x07] ++ b! "FAKE".

Definition refused_noop : list choice :=
  Go :: (Env <$> server_says (b! "A0001 NO " ++ escapes ++ [CR; LF]) 2) ++ [Go].

Lemma errors_shown_safely_witness :
  match drive MAX_FRAME_SIZE refused_noop (run_method (M_call (C_noop Selected PlainText) idle_session)) client_new with
  | Some (_, Ret (inr e), _) =>
    client_error_display id e = b! "Command failed: " ++ encode [0xFFFD] ++ b! "[2J" ++ encode [0xFFFD] ++ b! "FAKE"
      ∧ shown_safely (client_error_display id e)
  | _ => False
  end.
Proof.
  destruct (errors_shown_safely id MAX_FRAME_SIZE ltac:(done)) as [H _].
  destruct (drive _ _ _ _) as [[[tr p'] c']|] eqn:Hd; [|by vm_compute in Hd].
  destruct p' as [[|e]| | | | | | | | | |]; try by vm_compute in Hd.
  split; [|by apply (H _ _ _ _ _ _ _ (reachable_new _) Hd)].
  vm_compute in Hd. by injection Hd as _ <- _.
Defined.
