(* ===== verification/LoginAndFetch.v ===== *)
(** [imap-tls/examples/login_and_fetch.rs]: the whole stack in one program.
    Connect over TLS, log in, select, fetch, idle: [main], with what it prints,
    and what its success means. *)

From S2P Require Import Prelude Str Ast Monad ResponseParser ParserSafety ParserStream.
From S2P Require Import ParserLocal ParserTheorems Framing ParserRead Base64 ClientError Flags Wire.
From S2P Require Import Credentials Search Capabilities Client ClientFraming ClientReplies.
From S2P Require Import ClientStreams ClientOrder Program Ownership Lossy Session SessionTheorems.
From S2P Require Import Protocol Tls Liveness.
From stdpp Require Import options.

(* ------------------------------------------------------------------ *)
(** ** Input, output and failure                                        *)
(* ------------------------------------------------------------------ *)

(** [Box<dyn std::error::Error>], of what [main] converts to it. *)
Inductive failure : Type :=
| F_Text (text : string)
| F_Client (e : ClientError).

(** A part of [main]: it adds to the lines printed and ends with a value, or
    with the failure [?] returns. *)
Definition io (A : Type) : Type := list str → prog (list str * (A + failure)).

#[export] Instance io_ret : MRet io := λ A a out, Ret (out, inl a).
#[export] Instance io_bind : MBind io := λ A B f m out,
  pbind (m out) (λ '(out, r), match r with inl a => f a out | inr e => Ret (out, inr e) end).

Definition io_fail {A} (e : failure) : io A := λ out, Ret (out, inr e).
Definition println (s : str) : io unit := λ out, Ret (out ++ [s], inl tt).

(** [p.await?]. *)
Definition awaits {A} (p : prog (res A)) : io A := λ out,
  pbind p (λ r, Ret (out, match r with inl a => inl a | inr e => inr (F_Client e) end)).

(** [str::parse::<u16>], its error left out. *)
Definition parse_u16 (s : str) : option Z :=
  n ← parse_u32 s; if n <=? 2 ^ 16 - 1 then Some n else None.

Definition fmt_bool (b : bool) : str := if b then b! "true" else b! "false".

(* ------------------------------------------------------------------ *)
(** ** The program                                                      *)
(* ------------------------------------------------------------------ *)

Definition connected (caps : Capabilities) : str :=
  b! "Connected. IMAP4rev1=" ++ fmt_bool (imap4rev1 caps) ++ b! " IMAP4rev2=" ++ fmt_bool (imap4rev2 caps)
  ++ b! " IDLE=" ++ fmt_bool (Capabilities.idle caps) ++ b! " MOVE=" ++ fmt_bool (move_ext caps).

Definition fetched (first : FetchResult) : str :=
  let bytes := default [] (fr_body first) in
  b! "seq=" ++ fmt_dec (fr_seq first)
  ++ b! " uid=" ++ match fr_uid first with
                   | Some u => b! "Some(" ++ fmt_dec u ++ b! ")"
                   | None => b! "None"
                   end
  ++ b! " body=" ++ fmt_dec (Z.of_nat (length bytes)) ++ b! "B".

Section main.
(** [env::var], of the variables that are set to text. *)
Context (env : str → option str).
Context (server_name : str → bool) (tcp_connect : str → timed conn) (client_config : connector + str).

Definition var (name : str) (text : string) : io str :=
  match env name with Some v => mret v | None => io_fail (F_Text text) end.

Definition report (results : list FetchResult) : io unit :=
  match results with first :: _ => println (fetched first) | [] => mret tt end.

(** Time that passes, [sleep], is not a step: others may run at any wait. *)
Definition idle_for_a_while (inbox : Session Selected Tls) : io unit :=
  if Capabilities.idle (capabilities inbox) then
    idle ← awaits (session.idle inbox);
    awaits (stop_with_timeout idle);;
    println (b! "IDLE finished cleanly.")
  else mret tt.

Definition main : io unit :=
  host ← var (b! "IMAP_HOST") "set IMAP_HOST";
  let port := default 993 (env (b! "IMAP_PORT") ≫= parse_u16) in
  user ← var (b! "IMAP_USER") "set IMAP_USER";
  pass ← var (b! "IMAP_PASS") "set IMAP_PASS";
  s ← awaits (connect_tls server_name tcp_connect client_config host port);
  println (connected (capabilities s));;
  auth ← awaits (session.login user (Password_new pass) s);
  println (b! "Authenticated.");;
  inbox ← awaits (session.select (b! "INBOX") auth);
  results ← awaits (session.fetch (b! "*") (b! "BODY[]") inbox);
  report results;;
  idle_for_a_while inbox.
End main.

(* ------------------------------------------------------------------ *)
(** ** Runs of the parts                                                *)
(* ------------------------------------------------------------------ *)

(** [p.await?] that succeeds, and what follows. *)
Lemma own_awaits {A B} max (p : prog (res A)) (f : A → io B) out c tr out' b c' :
  finishes_own max ((awaits p ≫= f) out) c tr (out', inl b) c' →
  ∃ a c1 tr1 tr2, finishes_own max p c tr1 (inl a) c1 ∧ finishes_own max (f a out) c1 tr2 (out', inl b) c'
    ∧ tr = tr1 ++ tr2.
Proof.
  intros (tr1 & [out1 r] & c1 & tr2 & Hp & Hf & ->)%own_bind.
  apply own_bind in Hp as (tr3 & x & c2 & tr4 & Hp & Hr%own_finishes & ->).
  pose proof (finishes_later _ _ _ _ _ _ Hr) as Hl. apply finishes_ret in Hr as [-> [= -> ->]].
  destruct x as [a|e]; [|by apply own_finishes, finishes_ret in Hf as [_ ?]].
  exists a, c1, tr3, tr2. rewrite app_nil_r. split_and!; [|done..]. by eapply own_more.
Qed.

(** The part [Hp] of a run leads to a state that is reachable and precedes the end of
    the rest [Hf]; up to that end it is a run too. *)
Ltac own_part Hp Hf Hc Hl He :=
  lazymatch type of Hp with
  | finishes_own ?max _ _ _ _ ?c1 =>
    assert (Hc : reachable max c1) by (by eapply finishes_reachable, own_finishes);
    pose proof (finishes_later _ _ _ _ _ _ (own_finishes _ _ _ _ _ _ Hf)) as Hl;
    pose proof (own_more _ _ _ _ _ _ _ Hp Hl) as He
  end.

Lemma own_var {B} max env name text (f : str → io B) out c tr out' b c' :
  finishes_own max ((var env name text ≫= f) out) c tr (out', inl b) c' →
  ∃ v, env name = Some v ∧ finishes_own max (f v out) c tr (out', inl b) c'.
Proof.
  unfold var. destruct (env name) as [v|]; [intros Hf; by exists v|].
  intros Hf%own_finishes. by apply finishes_ret in Hf as [_ ?].
Qed.

Lemma own_report {B} max results (f : unit → io B) out c tr out' b c' :
  finishes_own max ((report results ≫= f) out) c tr (out', inl b) c' →
  finishes_own max (f tt (out ++ match results with first :: _ => [fetched first] | [] => [] end)) c tr (out', inl b) c'.
Proof. destruct results as [|first results]; cbn; [by rewrite app_nil_r|done]. Qed.

(** IDLE and its end, when the server offers it. *)
Lemma own_idle max inbox out c tr out' c' :
  reachable max c → finishes_own max (idle_for_a_while inbox out) c tr (out', inl tt) c' →
  Forall (quiet Selected Tls) tr
  ∧ if Capabilities.idle (capabilities inbox) then
      out' = out ++ [b! "IDLE finished cleanly."]
      ∧ ∃ rid ok, tr = [Ev_Command rid (b! "IDLE") (Some is_continuation); Ev_Raw (b! "DONE" ++ [CR; LF])]
          ∧ answered c' rid ok
    else out' = out ∧ tr = [].
Proof.
  intros Hc Hf. unfold idle_for_a_while in Hf. destruct (Capabilities.idle _).
  - apply own_awaits in Hf as (h & c1 & tr1 & tr2 & Hi%own_finishes & Hf & ->).
    assert (Hc1 : reachable max c1) by by eapply finishes_reachable.
    apply own_awaits in Hf as ([] & c2 & tr3 & tr4 & Hs%own_finishes & Hf%own_finishes & ->).
    assert (Hc2 : reachable max c2) by by eapply finishes_reachable.
    pose proof (finishes_later _ _ _ _ _ _ Hf) as Hl. apply finishes_ret in Hf as [-> [= ->]].
    destruct (idle_run _ _ _ _ _ _ Hc Hi) as [-> _]. destruct (stop_run _ _ _ _ _ _ Hc1 Hs) as [_ Hok].
    destruct (Hok eq_refl) as [-> [ok Ha]]. split; [repeat constructor|]. split; [done|].
    exists (ih_reply h), ok. split; [done|]. by eapply later_answered.
  - by apply own_finishes, finishes_ret in Hf as [-> [= ->]].
Qed.

(* ------------------------------------------------------------------ *)
(** ** Where the capabilities come from                                 *)
(* ------------------------------------------------------------------ *)

(** From a response that carries them, with nothing sent, or from one [CAPABILITY]
    command: from all the frames of its stream, then from [more] of its answer. *)
Definition caps_from (found : Prop) (caps caps' : Capabilities) (more : Capabilities → bytes → Capabilities)
    (tr : list event) (c' : client) : Prop :=
  (tr = [] ∧ found)
  ∨ ∃ rid ok, tr = [Ev_Command rid (b! "CAPABILITY") (Some is_capability_response)] ∧ answered c' rid ok
      ∧ delivered rid is_capability_response c' ∧ caps' = more (foldl update_caps caps (stream_of rid c')) ok.

Lemma own_ask max c tr s c' found :
  reachable max c → finishes_own max (ask_capabilities caps_default) c tr (inl s) c' →
  caps_from found caps_default (capabilities s) update_caps tr c'.
Proof.
  intros Hc Hf. unfold ask_capabilities in Hf.
  apply (own_streaming max _ _ (λ ok frames, session.new_tls (update_caps (foldl update_caps caps_default frames) ok))) in Hf
    as (rid & ok & -> & Ha & -> & Hd); [|done].
  right. by exists rid, ok.
Qed.

(** After the handshake: from the greeting, or asked for. *)
Definition learned_from (s : Session Unauthenticated Tls) (tr : list event) (c' : client) : Prop :=
  caps_from (∃ greeting rest response, greeting ∈ g_frames c' ∧ parse_response greeting = Parsed rest response
      ∧ try_update_from caps_default response = (capabilities s, true))
    caps_default (capabilities s) update_caps tr c'.

Lemma own_finalize max c tr s c' :
  reachable max c → finishes_own max finalize_session_after_handshake c tr (inl s) c' → learned_from s tr c'.
Proof.
  intros Hc Hf. unfold finalize_session_after_handshake in Hf.
  destruct (finalize_learned _ _ _ _ _ Hc (own_finishes _ _ _ _ _ _ Hf)) as [Hg|(rid & ok & fs & Htr & _)];
    [by left|].
  apply own_step in Hf as (c1 & Hl1 & [(ev & p1 & c2 & tr2 & [= <- <- <-] & Hf & Heq)|(p1 & [=] & _)]); [|done].
  cbn [app] in Heq. subst tr2.
  assert (Hc1 : reachable max c1) by by eapply later_reachable.
  apply own_step in Hf as (c2 & Hl2 & Hf); [|done].
  assert (Hc2 : reachable max c2) by by eapply later_reachable.
  assert (∃ g, finishes_own max (let '(caps, got) := match g with
      | Some frame => match parse_response frame with
        | Parsed _ response => try_update_from caps_default response
        | _ => (caps_default, false) end
      | None => (caps_default, false) end in
    if got : bool then Ret (inl (session.new_tls caps)) else ask_capabilities caps) c2 tr (inl s) c') as [g Hg].
  { destruct Hf as [(ev & p1 & c3 & tr2 & Hs & Hf & ->)|(p1 & [= <-] & Hf)]; [|by exists None].
    cbn [prog_step] in Hs. destruct (_ <=? _)%nat; [done|].
    destruct (_ <=? EVENT_CHANNEL_CAP)%nat; simplify_eq; [by eexists (sh_events (cl_shared c3) !! _)|by exists None]. }
  clear Hf. assert (Hask : finishes_own max (ask_capabilities caps_default) c2 tr (inl s) c' → learned_from s tr c')
    by by apply own_ask.
  destruct g as [frame|]; [|by apply Hask].
  destruct (parse_response frame) as [rest response|e| |]; [|by apply Hask..].
  destruct (try_update_from caps_default response) as [caps []] eqn:Hu.
  - apply own_finishes, finishes_ret in Hg as [-> _]. done.
  - apply try_update_same in Hu as ->. by apply Hask.
Qed.

(** After the login: from its tagged response, or asked for. *)
Definition refreshed_from (caps caps' : Capabilities) (frame : bytes) (tr : list event) (c' : client) : Prop :=
  caps_from (∃ rest response, parse_response frame = Parsed rest response
      ∧ try_update_from caps response = (caps', true))
    caps caps' (λ caps _, caps) tr c'.

Lemma own_refresh max (self : Session Unauthenticated Tls) s' c tr c' frame :
  reachable max c → finishes_own max (session.refresh_capabilities self) c tr (inl tt, s') c' →
  refreshed_from (capabilities self) (capabilities s') frame tr c'.
Proof.
  intros Hc (tr1 & [r frames] & c1 & tr2 & Hp & Hf%own_finishes & ->)%own_bind.
  pose proof (finishes_later _ _ _ _ _ _ Hf) as Hl. apply finishes_ret in Hf as [-> [= Hr ->]].
  destruct r as [ok|e]; [|done]. eapply own_more in Hp; [|exact Hl]. rewrite app_nil_r.
  destruct (own_execute_streaming _ _ _ _ _ _ _ _ Hc Hp) as (rid & -> & Ha & -> & Hd). right. by exists rid, ok.
Qed.

Lemma own_authenticated max frame self s' c tr c' :
  reachable max c → finishes_own max (session.authenticated frame self) c tr (inl s') c' →
  refreshed_from (capabilities self) (capabilities s') frame tr c'.
Proof.
  intros Hc (tr1 & [r self1] & c1 & tr2 & Hp & Hf%own_finishes & ->)%own_bind.
  pose proof (finishes_later _ _ _ _ _ _ Hf) as Hl. apply finishes_ret in Hf as [-> Hr].
  destruct r as [[]|e]; [|done]. injection Hr as ->. rewrite app_nil_r. eapply own_more in Hp; [|exact Hl].
  unfold session.refresh_capabilities_from_frame in Hp. cbn [capabilities session.transition_state].
  destruct (parse_response frame) as [rest response|e| |] eqn:Hpr; [|by eapply own_refresh..].
  destruct (try_update_from (capabilities self) response) as [caps []] eqn:Hu.
  - apply own_finishes, finishes_ret in Hp as [-> [= ->]]. left. split; [done|]. by exists rest, response.
  - apply try_update_same in Hu as ->. by eapply (own_refresh _ (mkSession (capabilities self))) in Hp.
Qed.

(** The login: its command is answered, and the rest follows. *)
Lemma own_login max user pass self c tr s' c' :
  reachable max c → finishes_own max (session.login user pass self) c tr (inl s') c' →
  ∃ user_q pass_q rid ok tr', imap_quoted user = inl user_q ∧ as_imap_quoted pass = inl pass_q
    ∧ tr = Ev_Command rid (login_command user_q pass_q) None :: tr' ∧ answered c' rid ok
    ∧ refreshed_from (capabilities self) (capabilities s') ok tr' c'.
Proof.
  intros Hc Hf. unfold session.login, try_res in Hf.
  destruct (imap_quoted user) as [uq|e]; [|by apply own_finishes, finishes_ret in Hf as [_ ?]].
  destruct (as_imap_quoted pass) as [pq|e]; [|by apply own_finishes, finishes_ret in Hf as [_ ?]].
  apply own_try in Hf as (ok & c1 & tr1 & tr2 & Hp%own_finishes & Hf & ->).
  assert (Hc1 : reachable max c1) by by eapply finishes_reachable.
  apply finishes_execute_command in Hp as [(e & _ & ? & _)|(rid & -> & _ & Ha)]; [done| |done].
  exists uq, pq, rid, ok, tr2. split_and!; try done; [|by eapply own_authenticated].
  eapply later_answered; [by eapply finishes_later, own_finishes|done|by apply Ha].
Qed.

(** Nothing that [main] is made of can hang. *)
Lemma operation_awaits {A B} (p : prog (res A)) (f : A → io B) out :
  operation p → (∀ a out, operation (f a out)) → operation ((awaits p ≫= f) out).
Proof.
  intros Hp Hf. apply op_bind; [by apply op_bind; [|intros; apply op_ret]|].
  intros [out1 [a|e]]; [apply Hf|apply op_ret].
Qed.

Lemma operation_var {B} env name text (f : str → io B) out :
  (∀ v out, operation (f v out)) → operation ((var env name text ≫= f) out).
Proof. intros Hf. unfold var. destruct (env name); [apply Hf|apply op_ret]. Qed.

Section runs.
Context (env : str → option str).
Context (server_name : str → bool) (tcp_connect : str → timed conn) (client_config : connector + str).

Abbreviation connect := (connect_tls server_name tcp_connect client_config).
Abbreviation run_main := (main env server_name tcp_connect client_config []).

Lemma own_connect max host port c tr s c' :
  reachable max c → finishes_own max (connect host port) c tr (inl s) c' → learned_from s tr c'.
Proof.
  intros Hc Hf. unfold connect_tls, connect_tls_with_timeouts, handshake_with_connector, try_res in Hf.
  destruct (connect_tcp _ _ _) as [tcp|e]; [|by apply own_finishes, finishes_ret in Hf as [_ ?]].
  destruct (default_tls_connector _) as [tls|e]; [|by apply own_finishes, finishes_ret in Hf as [_ ?]].
  destruct (negb _); [by apply own_finishes, finishes_ret in Hf as [_ ?]|].
  destruct (deadline _) as [[]|e]; [by eapply own_finalize|by apply own_finishes, finishes_ret in Hf as [_ ?]].
Qed.

Lemma operation_connect host port : operation (connect host port).
Proof.
  unfold connect_tls, connect_tls_with_timeouts, handshake_with_connector, try_res.
  destruct (connect_tcp _ _ _) as [tcp|e]; [|apply op_ret].
  destruct (default_tls_connector _) as [tls|e]; [|apply op_ret]. destruct (negb _); [apply op_ret|].
  destruct (deadline _) as [[]|e]; [apply op_finalize|apply op_ret].
Qed.

Lemma operation_main : operation run_main.
Proof.
  apply operation_var. intros host out. apply operation_var. intros user out1.
  apply operation_var. intros pass out2. apply operation_awaits; [apply operation_connect|]. intros s out3.
  apply (operation_awaits (session.login user (Password_new pass) s)); [apply (op_transition (T_login _ _))|].
  intros auth out4. apply (operation_awaits (session.select _ auth)); [apply (op_transition (T_select Tls _))|].
  intros inbox out5. apply operation_awaits.
  { apply (op_first _ (λ r, Ret (r, inbox))), (op_call (C_fetch Tls _ _) inbox). }
  intros results out6.
  assert (Hidle : ∀ out, operation (idle_for_a_while inbox out)).
  { intros o. unfold idle_for_a_while. destruct (Capabilities.idle _); [|apply op_ret].
    apply operation_awaits; [apply (op_first _ (λ r, Ret (r, inbox))), (op_call (C_idle Tls) inbox)|].
    intros h o1. apply operation_awaits; [apply op_stop|]. intros [] o2. apply op_ret. }
  destruct results; apply Hidle.
Qed.
End runs.

(* ------------------------------------------------------------------ *)
(** ** Properties                                                       *)
(* ------------------------------------------------------------------ *)

(** The lines printed about the first message fetched. *)
Definition report_of (results : list FetchResult) : list str :=
  match results with first :: _ => [fetched first] | [] => [] end.

(** A run of [main] that ends well, over a session with capabilities [caps]
    from the first and [caps'] from the second half on: what was sent, in this
    order and nothing else, the answer to each command, and what was printed.
    [results] is what the frames of the FETCH say, all of them, one by one. *)
Record completed (user pass : str) (out : list str) (tr : list event) (c' : client)
    (s : Session Unauthenticated Tls) (caps' : Capabilities)
    (tr0 tr1 tr2 : list event) (rid1 rid2 rid3 : reply_id) (results : list FetchResult) : Prop := {
  co_sent : ∃ user_q pass_q, imap_quoted user = inl user_q ∧ as_imap_quoted (Password_new pass) = inl pass_q
    ∧ tr = tr0 ++ Ev_Command rid1 (login_command user_q pass_q) None
         :: tr1 ++ [Ev_Command rid2 (b! "SELECT " ++ [DQUOTE] ++ b! "INBOX" ++ [DQUOTE]) None;
                    Ev_Command rid3 (b! "FETCH * BODY[]") (Some is_fetch)] ++ tr2;
  co_connected : learned_from s tr0 c';
  co_login : ∃ ok, answered c' rid1 ok ∧ refreshed_from (capabilities s) caps' ok tr1 c';
  co_select : ∃ ok, answered c' rid2 ok;
  co_fetch : (∃ ok, answered c' rid3 ok) ∧ delivered rid3 is_fetch c'
    ∧ Forall2 fetch_of (stream_of rid3 c') results;
  co_idle : if Capabilities.idle caps' then
      ∃ rid ok, tr2 = [Ev_Command rid (b! "IDLE") (Some is_continuation); Ev_Raw (b! "DONE" ++ [CR; LF])]
        ∧ answered c' rid ok
    else tr2 = [];
  co_out : out = [connected (capabilities s); b! "Authenticated."] ++ report_of results
    ++ (if Capabilities.idle caps' then [b! "IDLE finished cleanly."] else []);
  co_state : conforms c' Tls Unauthenticated tr = Some Selected;
}.

Lemma learned_quiet s tr c : learned_from s tr c → Forall (quiet Unauthenticated Tls) tr.
Proof. intros [(-> & _)|(rid & ok & -> & _)]; repeat constructor. Qed.

(** The protocol's states over the log of such a run. *)
Lemma conforms_steps max c2 c3 c' tr0 tr1 tr2 tr3 :
  reachable max c2 → later max c2 c' → reachable max c3 → later max c3 c' →
  Forall (quiet Unauthenticated Tls) tr0 → transition_log Unauthenticated Authenticated Tls c2 tr1 →
  transition_log Authenticated Selected Tls c3 tr2 → Forall (quiet Selected Tls) tr3 →
  conforms c' Tls Unauthenticated (tr0 ++ tr1 ++ tr2 ++ tr3) = Some Selected.
Proof.
  intros Hc2 Hl2 Hc3 Hl3 H0 [H1 Hs1] [H2 Hs2] H3.
  rewrite conforms_app, (conforms_quiet c' Tls Unauthenticated) by done. cbn [mbind option_bind].
  rewrite conforms_app, (conforms_later max c2) by done. rewrite H1. cbn [mbind option_bind].
  rewrite conforms_app, (conforms_later max c3) by done. rewrite H2. cbn [mbind option_bind].
  by apply conforms_quiet.
Qed.

(** C19: the example program, on any machine and against any server. It comes to
    an end, provided each write is answered: wherever a run of it stands, its own
    steps, its deadlines and the write loop bring it to a result. And when it
    returns without an error, it connected, logged in with the user's name and
    password over TLS, selected INBOX, fetched the newest message and, if the
    server offers it, idled, each command answered [OK] by a response to that
    very command; it sent nothing else. It printed the capabilities, learned from
    the greeting or from all the frames its [CAPABILITY] got; then the number,
    UID and body size of the first of the FETCH responses its [FETCH] got, if it
    got any; then that IDLE ended. *)
Theorem login_and_fetch_run env server_name tcp_connect client_config max :
  let prog := main env server_name tcp_connect client_config [] in
  (∀ sched tr p' c', undisturbed max sched prog client_new →
     drive max sched prog client_new = Some (tr, p', c') → returns p' c')
  ∧ (∀ tr out c', finishes_own max prog client_new tr (out, inl tt) c' →
     ∃ user pass s caps' tr0 tr1 tr2 rid1 rid2 rid3 results,
       env (b! "IMAP_USER") = Some user ∧ env (b! "IMAP_PASS") = Some pass
       ∧ completed user pass out tr c' s caps' tr0 tr1 tr2 rid1 rid2 rid3 results).
Proof.
  intros prog. assert (Hnew : reachable max client_new) by constructor. split.
  { intros sched tr p' c' Hu Hd. apply (good_returns max).
    - eapply later_reachable; [by eapply drive_later|done].
    - by eapply good_drive; [apply good_operation, operation_main|..]. }
  intros tr out c' Hf.
  apply own_var in Hf as (host & _ & Hf). apply own_var in Hf as (user & Huser & Hf).
  apply own_var in Hf as (pass & Hpass & Hf).
  apply own_awaits in Hf as (s & c1 & tr0 & tr' & Hp & Hf & ->). own_part Hp Hf Hc1 Hl1 Hconnect.
  apply (own_awaits _ (session.login user (Password_new pass) s)) in Hf
    as (auth & c2 & trl & tr'' & Hp2 & Hf & ->). own_part Hp2 Hf Hc2 Hl2 Hlogin.
  pose proof (finishes_transition_log max (T_login _ _) _ _ _ _ _ Hc1 (own_finishes _ _ _ _ _ _ Hp2)) as Ht1.
  apply own_login in Hlogin as (uq & pq & rid1 & ok1 & tr1 & Hu & Hpq & -> & Hlogin); [|done].
  apply (own_awaits _ (session.select (b! "INBOX") auth)) in Hf
    as (inbox & c3 & trs & tr3 & Hp3 & Hf & ->). own_part Hp3 Hf Hc3 Hl3 Hselect.
  pose proof (finishes_transition_log max (T_select Tls _) _ _ _ _ _ Hc2 (own_finishes _ _ _ _ _ _ Hp3)) as Ht2.
  apply own_finishes, finishes_transition in Hselect as (-> & rid2 & ok2 & -> & Ha2); [|done].
  apply own_awaits in Hf as (results & c4 & trf & tr2 & Hp4 & Hf & ->). own_part Hp4 Hf Hc4 Hl4 Hfetch.
  apply (own_streaming _ _ _ (λ _ frames, omap fetch_result frames)) in Hfetch
    as (rid3 & ok3 & -> & Ha3 & -> & Hd); [|done].
  apply own_report, own_idle in Hf as [Hq4 Hidle]; [|done]. cbn [capabilities] in Hidle.
  exists user, pass, s, (capabilities auth), tr0, tr1, tr2, rid1, rid2, rid3,
    (omap fetch_result (stream_of rid3 c')).
  split_and!; [done..|]. apply own_connect in Hconnect as Hs; [|done]. split; try done.
  - exists uq, pq. by rewrite <- ?app_assoc.
  - by exists ok1.
  - by exists ok2.
  - split_and!; [by exists ok3|done|]. apply fetch_results. destruct Hd as [[Hr _] _].
    eapply Forall_impl; [done|]. by intros f [_ ?].
  - destruct (Capabilities.idle _); [|by destruct Hidle]. destruct Hidle as [_ (rid & ok & ? & ?)]. by exists rid, ok.
  - unfold report_of. destruct (Capabilities.idle _); destruct Hidle as [-> _]; by destruct (omap _ _).
  - eapply (conforms_steps max c2 c3); try done; [by eapply learned_quiet|].
    constructor; [done|exact Hq4].
Qed.

(** A server that offers IDLE, a mailbox with a message, and the schedule of the
    run. *)
Definition example_env (name : str) : option str :=
  if bool_decide (name = b! "IMAP_HOST") then Some (b! "host")
  else if bool_decide (name = b! "IMAP_USER") then Some (b! "u")
  else if bool_decide (name = b! "IMAP_PASS") then Some (b! "p")
  else None.

Definition example_main : prog (list str * (unit + failure)) :=
  main example_env (λ _, true) (λ _, In_Time (inl (mkConn [] [] [] []))) (inl (λ _ _, In_Time (inl tt))) [].

Definition example_says (bs : str) (rounds : nat) : list choice := Env <$> server_says (line bs) rounds.

Definition example_sched : list choice :=
  Go :: (Env <$> greeting_acts ++ [A_Reader])
  ++ Go :: Go :: example_says (b! "A0001 OK [CAPABILITY IDLE] hi") 3%nat
  ++ Go :: Go :: example_says (b! "A0002 OK selected") 3%nat
  ++ Go :: Go :: example_says (b! "* 1 FETCH (UID 7 BODY[] {2}" ++ [CR; LF] ++ b! "hi)" ++ [CR; LF] ++ b! "A0003 OK done") 5%nat
  ++ Go :: Go :: Go :: Go :: Go :: example_says (b! "+ idling") 3%nat
  ++ Go :: Go :: Go :: example_says (b! "A0004 OK done") 3%nat
  ++ [Go].

Definition example_end : list event * prog (list str * (unit + failure)) * client :=
  default ([], example_main, client_new) (drive MAX_FRAME_SIZE example_sched example_main client_new).

Lemma login_and_fetch_run_witness :
  ∃ user pass s caps' tr0 tr1 tr2 rid1 rid2 rid3 results,
    example_env (b! "IMAP_USER") = Some user ∧ example_env (b! "IMAP_PASS") = Some pass
    ∧ completed user pass
        [connected (from_atoms [b! "IDLE"]); b! "Authenticated."; b! "seq=1 uid=Some(7) body=2B";
         b! "IDLE finished cleanly."]
        (fst (fst example_end)) (snd example_end) s caps' tr0 tr1 tr2 rid1 rid2 rid3 results.
Proof.
  destruct (login_and_fetch_run example_env (λ _, true) (λ _, In_Time (inl (mkConn [] [] [] [])))
    (inl (λ _ _, In_Time (inl tt))) MAX_FRAME_SIZE) as [_ H].
  apply H. exists example_sched. split; [vm_compute; repeat split; by intros|vm_compute; reflexivity].
Defined.
