(* ===== verification/TestKit.v ===== *)
(** What the unit tests of the repository need in order to run on the model:
    Rust's byte string literals, equality as a boolean, and a simulator that
    plays a server's script against a program and the dispatcher.

    The tests are in [ParserTests], [ClientTests], [SessionTests] and
    [TlsTests], each under the name of its [fn], as booleans that the kernel
    evaluates: the model gives, on every input the repository tests, the result
    the repository expects. *)

From S2P Require Import Prelude Str Ast Monad ResponseParser ParserSafety ParserStream.
From S2P Require Import ParserLocal ParserTheorems ClientError Flags Wire Capabilities.
From S2P Require Import Client ClientFraming ClientReplies ClientStreams ClientOrder Program.
From stdpp Require Import options.

(* ------------------------------------------------------------------ *)
(** ** Literals                                                         *)
(* ------------------------------------------------------------------ *)

Definition hex_digit (c : byte) : Z :=
  let v := bval c in if v <? 58 then v - 48 else (if v <? 91 then v - 65 else v - 97) + 10.

(** The escapes of a Rust literal; a double quote is written [\q]. *)
Fixpoint unescape (s : bytes) : bytes :=
  match s with
  | [] => []
  | c :: s' =>
    if c =?b BACKSLASH then
      match s' with
      | "r"%byte :: s => CR :: unescape s
      | "n"%byte :: s => LF :: unescape s
      | "t"%byte :: s => byte_of 9 :: unescape s
      | "0"%byte :: s => NUL :: unescape s
      | "q"%byte :: s => DQUOTE :: unescape s
      | "x"%byte :: h :: l :: s => byte_of (hex_digit h * 16 + hex_digit l) :: unescape s
      | c :: s => c :: unescape s
      | [] => [c]
      end
    else c :: unescape s'
  end.

Notation "'rust!' s" := (unescape (String.list_byte_of_string s%string))
  (at level 1, s at level 0, only parsing) : imap_scope.

Notation "x == y" := (bool_decide (x = y)) (at level 70) : imap_scope.

(** [haystack.contains(needle)]. *)
Fixpoint contains (needle haystack : bytes) : bool :=
  bool_decide (take (length needle) haystack = needle)
  || match haystack with [] => false | _ :: h => contains needle h end.

Definition ends_with (suffix s : bytes) : bool :=
  bool_decide (drop (length s - length suffix) s = suffix).

(** [s.split_whitespace().next()]. *)
Fixpoint first_word (s : bytes) : bytes :=
  match s with
  | [] => []
  | c :: s => if (c =?b SP) || (c =?b CR) || (c =?b LF) then [] else c :: first_word s
  end.

(* ------------------------------------------------------------------ *)
(** ** A server's script                                                *)
(* ------------------------------------------------------------------ *)

(** The other end of the [duplex] pipe: it reads what the client has written
    and checks it, taking the tag or not; it writes, with that tag (into the
    void, when the read loop has stopped); it closes. *)
Inductive server_act : Type :=
| S_Read (check : bytes → bool)
| S_ReadTag (check : bytes → bool)
| S_Say (f : str → bytes)
| S_Close.

(** [read_cmd_tag]. *)
Definition read_cmd_tag : server_act := S_ReadTag (λ _, true).
(** [write_all(b"...")], [write_all(format!("{} ...", tag))]. *)
Definition says (bs : bytes) : server_act := S_Say (λ _, bs).
Definition answers_tag (bs : bytes) : server_act := S_Say (λ tag, tag ++ bs).

Record sim (A : Type) : Type := mkSim {
  sim_prog : prog A;
  sim_client : client;
  sim_script : list server_act;
  sim_read : nat;
  sim_tag : str;
}.
Arguments mkSim {A} sim_prog sim_client sim_script sim_read sim_tag.
Arguments sim_prog {A} s.
Arguments sim_client {A} s.
Arguments sim_script {A} s.
Arguments sim_read {A} s.
Arguments sim_tag {A} s.

Section simulate.
Context {A : Type} (max : Z).

Definition try_step (p : prog A) (c : client) : option (prog A * client) :=
  '(_, p', c') ← prog_step p c; Some (p', c').

(** A step of the write loop, over a transport that takes all it is given. *)
Definition write_loop_step (c : client) : option client :=
  match cl_writer c with
  | W_Writing rest => exec max (A_Write (Write_Ok (length rest))) c
  | _ => exec max A_Writer c
  end.

(** Whatever can move does: the read loop, the program, the write loop, the
    server, in this order; a deadline expires when all of them wait. [None]: a
    check of the server failed. *)
Definition sim_step (s : sim A) : option (sim A) :=
  let 'mkSim p c script n tag := s in
  let expire := p' ← prog_timeout p; Some (mkSim p' c script n tag) in
  let read check new_tag script :=
    match drop n (cl_written c) with
    | [] => expire
    | new =>
      if check new : bool
      then Some (mkSim p c script (length (cl_written c)) (new_tag new))
      else None
    end in
  let server :=
    match script with
    | S_Read check :: script => read check (λ _, tag) script
    | S_ReadTag check :: script => read check first_word script
    | S_Say f :: script =>
      match cl_reader c with
      | R_Stopped => Some (mkSim p c script n tag)
      | _ => c' ← exec max (A_Read (Read_Ok (f tag))) c; Some (mkSim p c' script n tag)
      end
    | S_Close :: script => c' ← exec max (A_Read (Read_Ok [])) c; Some (mkSim p c' script n tag)
    | [] => expire
    end in
  match exec max A_Reader c with
  | Some c' => Some (mkSim p c' script n tag)
  | None =>
    match try_step p c with
    | Some (p', c') => Some (mkSim p' c' script n tag)
    | None =>
      match write_loop_step c with
      | Some c' => Some (mkSim p c' script n tag)
      | None => server
      end
    end
  end.

Fixpoint simulate (fuel : nat) (s : sim A) : sim A :=
  match fuel with
  | O => s
  | S fuel => match sim_step s with Some s' => simulate fuel s' | None => s end
  end.

(** A simulation is a run. *)
Lemma sim_step_drive s s' :
  sim_step s = Some s' →
  ∃ sched tr, drive max sched (sim_prog s) (sim_client s) = Some (tr, sim_prog s', sim_client s').
Proof.
  destruct s as [p c script n tag]. unfold sim_step. cbn [sim_prog sim_client].
  assert (Henv : ∀ a c', exec max a c = Some c' → ∃ sched tr, drive max sched p c = Some (tr, p, c')).
  { intros a c' H. exists [Env a], []. cbn [drive]. by rewrite H. }
  assert (Hexp : ∀ p1, prog_timeout p = Some p1 →
    ∃ sched tr, drive max sched p c = Some (tr, p1, c)).
  { intros p1 Hp. exists [TimesOut], []. cbn [drive]. by rewrite Hp. }
  assert (Hrefl : ∃ sched tr, drive max sched p c = Some (tr, p, c)) by (by exists [], []).
  destruct (exec max A_Reader c) as [c1|] eqn:H1; [intros [= <-]; by eapply Henv|].
  unfold try_step. destruct (prog_step p c) as [[[ev p1] c1]|] eqn:H2.
  { intros [= <-]. exists [Go], ev. cbn [drive]. rewrite H2. cbn. by rewrite app_nil_r. }
  cbn [mbind option_bind].
  destruct (write_loop_step c) as [c1|] eqn:H3.
  { intros [= <-]. unfold write_loop_step in H3. destruct (cl_writer c); by eapply Henv. }
  destruct script as [|[check|check|f|] script].
  - intros (p1 & Hp & [= <-])%bind_Some. by apply Hexp.
  - destruct (drop n (cl_written c)); [intros (p1 & Hp & [= <-])%bind_Some; by apply Hexp|].
    destruct (check _); [|done]. intros [= <-]. exact Hrefl.
  - destruct (drop n (cl_written c)); [intros (p1 & Hp & [= <-])%bind_Some; by apply Hexp|].
    destruct (check _); [|done]. intros [= <-]. exact Hrefl.
  - destruct (cl_reader c); try (destruct (exec max (A_Read (Read_Ok (f tag))) c) as [c1|] eqn:H4; [|done];
      intros [= <-]; by eapply Henv). intros [= <-]. exact Hrefl.
  - destruct (exec max (A_Read (Read_Ok [])) c) as [c1|] eqn:H4; [|done]. intros [= <-]. by eapply Henv.
Qed.

Lemma simulate_drive fuel s :
  ∃ sched tr, drive max sched (sim_prog s) (sim_client s)
    = Some (tr, sim_prog (simulate fuel s), sim_client (simulate fuel s)).
Proof.
  revert s. induction fuel as [|fuel IH]; intros s; [by exists [], []|]. cbn [simulate].
  destruct (sim_step s) as [s'|] eqn:Hs; [|by exists [], []].
  destruct (sim_step_drive _ _ Hs) as (sched1 & tr1 & H1). destruct (IH s') as (sched2 & tr2 & H2).
  exists (sched1 ++ sched2), (tr1 ++ tr2). by eapply drive_app.
Qed.
End simulate.

(** Play [script] against [p] on a client: what [check] says of the result and
    of the client, once the whole script is played. *)
Definition plays_on {A} (max : Z) (fuel : nat) (c : client) (p : prog A) (script : list server_act)
    (check : A → client → bool) : bool :=
  let s := simulate max fuel (mkSim p c script (length (cl_written c)) []) in
  match sim_prog s, sim_script s with
  | Ret a, [] => check a (sim_client s)
  | _, _ => false
  end.

Definition plays {A} (p : prog A) (script : list server_act) (check : A → client → bool) : bool :=
  plays_on MAX_FRAME_SIZE 1000 client_new p script check.

(** [matches!(r, Ok(_))] and the like. *)
Definition is_ok {A} (r : res A) : bool := match r with inl _ => true | inr _ => false end.
Definition is_err {A} (r : res A) : bool := negb (is_ok r).
Definition fails_with {A} (P : ClientError → bool) (r : res A) : bool :=
  match r with inl _ => false | inr e => P e end.
Definition invalid_argument (e : ClientError) : bool :=
  match e with CE_InvalidArgument _ => true | _ => false end.
Definition failed (P : str → bool) (e : ClientError) : bool :=
  match e with CE_CommandFailed text => P text | _ => false end.
Definition any_text (text : str) : bool := true.
