(* ===== verification/ParserTests.v ===== *)
(** The unit tests of [imap-core/src/parser.rs] ([mod tests] and
    [mod prefix_soundness_tests]), run on the model. The four tests of the item
    budget, whose inputs of 128 KiB are too long to evaluate on lists, are in
    [LimitTests]. *)

From S2P Require Import Prelude Str Ast Monad ResponseParser TestKit.
From stdpp Require Import options.

(** [ok] of the tests: a response and no remainder. *)
Definition ok (input : bytes) : option Response :=
  match parse_response input with Parsed [] r => Some r | _ => None end.

Definition malformed (input : bytes) : bool :=
  match parse_response input with ParseErr (Malformed _) => true | _ => false end.

(** [if let Response::Status(s) = ok(input) { ... } else { panic!() }], and so
    on. *)
Definition status (input : bytes) (check : StatusResponse → bool) : bool :=
  match ok input with Some (Resp_Status s) => check s | _ => false end.
Definition data (input : bytes) (check : DataResponse → bool) : bool :=
  match ok input with Some (Resp_Data d) => check d | _ => false end.
Definition fetched (input : bytes) (check : u32 → list FetchAttribute → bool) : bool :=
  data input (λ d, match d with DR_Fetch seq attributes => check seq attributes | _ => false end).
Definition attributes (input : bytes) (check : list FetchAttribute → bool) : bool :=
  fetched input (λ _, check).
#[local] Instance parsed_eq_dec : EqDecision parsed.
Proof. solve_decision. Defined.

Definition fails (input : bytes) (e : ParseError) : bool := parse_response input == ParseErr e.

Definition response_code_atom_cut_by_crlf_is_malformed_not_merged : bool :=
  malformed (rust! "* OK [FOO\r\n* 2 EXISTS\r\nA1 OK [x] done\r\n").

Definition response_code_argument_cut_by_crlf_is_malformed : bool :=
  malformed (rust! "* OK [FOO bar\r\n* 2 EXISTS\r\nA1 OK done]\r\n").

Definition parenthesised_value_cut_by_crlf_is_malformed : bool :=
  malformed (rust! "* 1 FETCH (BODYSTRUCTURE (\qTEXT\q\r\n* 2 EXISTS\r\n))\r\n").

Definition quoted_string_allows_only_quote_and_backslash_escapes : bool :=
  malformed (rust! "* LIST () \q/\q \qa\\x\q\r\n")
  && malformed (rust! "* LIST () \q/\q \qa\\\r\q\r\n")
  && data (rust! "* LIST () \q/\q \qa\\\qb\\\\c\q\r\n") (λ d,
       match d with DR_List _ _ name => name == rust! "a\\\qb\\\\c" | _ => false end).

Definition quoted_string_rejects_nul : bool := malformed (rust! "* LIST () \q/\q \qa\0b\q\r\n").

Definition quoted_string_cut_after_backslash_is_incomplete : bool :=
  fails (rust! "* LIST () \q/\q \qa\\") Incomplete.

Definition test_parse_continue : bool :=
  ok (rust! "+ ready for data\r\n") == Some (Resp_Continue (mkContinueReq None (b! "ready for data"))).

Definition test_parse_continue_with_code : bool :=
  match ok (rust! "+ [ALERT] keep going\r\n") with
  | Some (Resp_Continue c) => (cr_code c == Some RC_Alert) && (cr_text c == b! "keep going")
  | _ => false
  end.

Definition test_parse_continue_invalid_utf8 : bool :=
  fails (rust! "+ \xFF\r\n") (PE_Other "Invalid UTF-8").

Definition test_parse_continue_expected_crlf : bool := malformed (rust! "+ text\rX").

Definition test_parse_untagged_ok : bool :=
  ok (rust! "* OK IMAP4rev1 Service Ready\r\n")
  == Some (Resp_Status (mkStatusResponse None Status_Ok None (b! "IMAP4rev1 Service Ready"))).

Definition test_parse_untagged_preauth : bool :=
  status (rust! "* PREAUTH already authenticated\r\n") (λ s,
    (sr_status s == Status_PreAuth) && (sr_text s == b! "already authenticated")).

Definition test_parse_bye : bool :=
  status (rust! "* BYE Logging out\r\n") (λ s, sr_status s == Status_Bye).

Definition test_parse_untagged_invalid_utf8 : bool :=
  fails (rust! "* OK \xFF\r\n") (PE_Other "Invalid UTF-8").

Definition test_parse_resp_code_uidvalidity : bool :=
  status (rust! "* OK [UIDVALIDITY 12345] mailbox open\r\n") (λ s,
    (sr_code s == Some (RC_UidValidity 12345)) && (sr_text s == b! "mailbox open")).

Definition test_parse_resp_code_uidnext_unseen : bool :=
  status (rust! "A1 OK [UIDNEXT 7] done\r\n") (λ s,
    (sr_code s == Some (RC_UidNext 7)) && (sr_tag s == Some (b! "A1")) && (sr_status s == Status_Ok))
  && status (rust! "A1 OK [UNSEEN 4] done\r\n") (λ s, sr_code s == Some (RC_Unseen 4)).

Definition test_parse_resp_code_alert : bool :=
  status (rust! "* OK [ALERT] System down at midnight\r\n") (λ s,
    (sr_code s == Some RC_Alert) && (sr_text s == b! "System down at midnight")).

Definition test_parse_resp_code_capability : bool :=
  status (rust! "* OK [CAPABILITY IMAP4rev2 STARTTLS LOGIN] hello\r\n") (λ s,
    sr_code s == Some (RC_Capability [b! "IMAP4rev2"; b! "STARTTLS"; b! "LOGIN"])).

Definition test_parse_resp_code_permanentflags : bool :=
  status (rust! "* OK [PERMANENTFLAGS (\\Seen \\Draft \\*)] limited\r\n") (λ s,
    match sr_code s with
    | Some (RC_PermanentFlags flags) => flags == [rust! "\\Seen"; rust! "\\Draft"; rust! "\\*"]
    | _ => false
    end).

Definition test_parse_resp_code_read_states : bool :=
  status (rust! "A2 OK [READ-WRITE] selected\r\n") (λ s, sr_code s == Some RC_ReadWrite)
  && status (rust! "A3 OK [READ-ONLY] selected\r\n") (λ s, sr_code s == Some RC_ReadOnly).

Definition test_parse_resp_code_other : bool :=
  status (rust! "* OK [APPENDUID 12345 6] appended\r\n") (λ s,
    match sr_code s with
    | Some (RC_Other name extra) => (name == b! "APPENDUID") && (extra == Some (b! "12345 6"))
    | _ => false
    end).

Definition test_parse_tagged_ok : bool :=
  ok (rust! "A1 OK LOGIN completed\r\n")
  == Some (Resp_Status (mkStatusResponse (Some (b! "A1")) Status_Ok None (b! "LOGIN completed"))).

Definition test_parse_tagged_no : bool :=
  status (rust! "A1 NO LOGIN failed\r\n") (λ s,
    (sr_status s == Status_No) && (sr_text s == b! "LOGIN failed")).

Definition test_parse_tagged_bad : bool :=
  status (rust! "A1 BAD bad command\r\n") (λ s, sr_status s == Status_Bad).

Definition test_parse_capability_data : bool :=
  data (rust! "* CAPABILITY IMAP4rev2 STARTTLS AUTH=PLAIN\r\n") (λ d,
    d == DR_Capability [b! "IMAP4rev2"; b! "STARTTLS"; b! "AUTH=PLAIN"]).

Definition test_parse_list : bool :=
  data (rust! "* LIST (\\HasNoChildren) \q.\q \qINBOX\q\r\n") (λ d,
    d == DR_List [rust! "\\HasNoChildren"] (Some (b! ".")) (b! "INBOX")).

Definition test_parse_list_nil_delimiter : bool :=
  data (rust! "* LIST () NIL \qINBOX\q\r\n") (λ d, d == DR_List [] None (b! "INBOX")).

Definition test_parse_lsub : bool :=
  data (rust! "* LSUB (\\Noselect) \q/\q \qfoo\q\r\n") (λ d,
    match d with DR_Lsub flags _ _ => flags == [rust! "\\Noselect"] | _ => false end).

Definition test_parse_status_response : bool :=
  data (rust! "* STATUS \qINBOX\q (MESSAGES 10 RECENT 1 UNSEEN 3)\r\n") (λ d,
    d == DR_Status (b! "INBOX") [SI_Messages 10; SI_Recent 1; SI_Unseen 3]).

Definition test_parse_search_empty : bool := data (rust! "* SEARCH\r\n") (λ d, d == DR_Search []).

Definition test_parse_search_results : bool :=
  data (rust! "* SEARCH 1 2 3 42\r\n") (λ d, d == DR_Search [1; 2; 3; 42]).

Definition test_parse_flags : bool :=
  data (rust! "* FLAGS (\\Seen \\Draft)\r\n") (λ d, d == DR_Flags [rust! "\\Seen"; rust! "\\Draft"]).

Definition test_parse_exists_recent_expunge : bool :=
  data (rust! "* 5 EXISTS\r\n") (λ d, d == DR_Exists 5)
  && data (rust! "* 1 RECENT\r\n") (λ d, d == DR_Recent 1)
  && data (rust! "* 10 EXPUNGE\r\n") (λ d, d == DR_Expunge 10).

Definition test_parse_fetch_flags : bool :=
  fetched (rust! "* 1 FETCH (FLAGS (\\Seen))\r\n") (λ seq attributes,
    (seq == 1) && (attributes == [FA_Flags [rust! "\\Seen"]])).

Definition test_parse_fetch_uid : bool :=
  attributes (rust! "* 1 FETCH (UID 42)\r\n") (λ attributes,
    attributes == [FA_Uid 42]).

Definition test_parse_fetch_internaldate : bool :=
  attributes (rust! "* 1 FETCH (INTERNALDATE \q17-Jul-1996 02:44:25 -0700\q)\r\n") (λ attributes,
    attributes == [FA_InternalDate (b! "17-Jul-1996 02:44:25 -0700")]).

Definition test_parse_fetch_rfc822_size : bool :=
  attributes (rust! "* 2 FETCH (RFC822.SIZE 4242)\r\n") (λ attributes,
    attributes == [FA_Rfc822Size 4242]).

Definition test_parse_fetch_body_section_with_literal : bool :=
  attributes (rust! "* 1 FETCH (BODY[] {10}\r\n0123456789)\r\n") (λ attributes,
    attributes == [FA_BodySection None None (Some (b! "0123456789"))]).

Definition test_parse_fetch_body_section_with_section_and_origin : bool :=
  attributes (rust! "* 1 FETCH (BODY[HEADER.FIELDS (FROM TO)]<0> {7}\r\nFrom: a)\r\n") (λ attributes,
    attributes == [FA_BodySection (Some (b! "HEADER.FIELDS (FROM TO)")) (Some 0) (Some (b! "From: a"))]).

Definition test_parse_fetch_body_section_nil : bool :=
  attributes (rust! "* 1 FETCH (BODY[] NIL)\r\n") (λ attributes,
    attributes == [FA_BodySection None None None]).

Definition test_parse_fetch_multi_attrs_with_literal : bool :=
  attributes (rust! "* 1 FETCH (UID 5 BODY[] {3}\r\nabc FLAGS (\\Seen))\r\n") (λ attributes,
    attributes == [FA_Uid 5; FA_BodySection None None (Some (b! "abc")); FA_Flags [rust! "\\Seen"]]).

Definition test_parse_fetch_envelope_raw : bool :=
  attributes (rust! "* 1 FETCH (ENVELOPE (\qDate\q \qSubject\q NIL NIL NIL NIL NIL NIL NIL \q<id>\q))\r\n")
    (λ attributes, match attributes with
     | FA_Envelope bytes :: _ => (head bytes == Some "("%byte) && (last bytes == Some ")"%byte)
     | _ => false
     end).

Definition test_parse_fetch_bodystructure_raw : bool :=
  attributes (rust! "* 1 FETCH (BODYSTRUCTURE (\qtext\q \qplain\q NIL NIL NIL \q7BIT\q 12))\r\n")
    (λ attributes, match attributes with FA_BodyStructure _ :: _ => true | _ => false end).

Definition test_parse_empty_input_incomplete : bool := fails [] Incomplete.

Definition test_parse_incomplete_no_crlf : bool := fails (rust! "* OK ") Incomplete.

Definition test_parse_incomplete_only_cr : bool := fails (rust! "* OK text\r") Incomplete.

Definition test_parse_literal_incomplete : bool :=
  fails (rust! "* 1 FETCH (BODY[] {10}\r\nabc") Incomplete.

Definition test_parse_literal_too_large : bool :=
  match parse_response (b! "* 1 FETCH (BODY[] {" ++ fmt_dec (MAX_LITERAL_SIZE + 1) ++ rust! "}\r\n") with
  | ParseErr (LiteralTooLarge _ _) => true
  | _ => false
  end.

Definition test_parse_incomplete_tagged_no_space : bool := fails (rust! "A1") Incomplete.

Definition test_parse_incomplete_tagged_no_crlf : bool := fails (rust! "A1 OK\r") Incomplete.

Definition test_parse_missing_lf_after_cr : bool := malformed (rust! "* OK text\rX").

Definition test_parse_unknown_data_falls_back_to_other : bool :=
  data (rust! "* WIBBLE foo bar\r\n") (λ d, d == DR_Other (b! "WIBBLE foo bar")).

Definition test_parse_returns_remainder : bool :=
  match parse_response (rust! "* OK first\r\n* OK second\r\n") with
  | Parsed rem _ => rem == rust! "* OK second\r\n"
  | _ => false
  end.

Definition test_parse_keyword_prefix_not_status : bool :=
  data (rust! "* OKAY all good\r\n") (λ d, d == DR_Other (b! "OKAY all good")).

Definition test_parse_lf_without_cr_is_malformed : bool :=
  fails (rust! "* OK text\n") (Malformed "expected CR").

Definition test_parse_number_incomplete_at_eof : bool := fails (rust! "* OK [UIDNEXT ") Incomplete.

Definition test_parse_number_invalid_non_digit : bool :=
  fails (rust! "* OK [UIDNEXT x]\r\n") InvalidNumber.

Definition test_parse_atom_incomplete_at_eof : bool := fails (rust! "* 5 ") Incomplete.

Definition test_parse_atom_malformed_non_atom_char : bool :=
  fails (rust! "* 5 (\r\n") (Malformed "expected atom").

Definition test_parse_tag_malformed_empty : bool := fails (rust! "\r\n") (Malformed "expected tag").

Definition test_parse_quoted_with_escape_sequence : bool :=
  attributes (rust! "* 1 FETCH (INTERNALDATE \qa\\\qb\q)\r\n") (λ attributes,
    attributes == [FA_InternalDate (rust! "a\\\qb")]).

Definition test_parse_quoted_with_cr_is_malformed : bool :=
  fails (rust! "* 1 FETCH (INTERNALDATE \qa\rb\q)\r\n") (Malformed "CR/LF inside quoted string").

Definition test_parse_status_mailbox_as_atom : bool :=
  data (rust! "* STATUS INBOX (MESSAGES 1)\r\n")
    (λ d, match d with DR_Status mailbox _ => mailbox == b! "INBOX" | _ => false end).

Definition test_parse_status_mailbox_as_literal : bool :=
  data (rust! "* STATUS {5}\r\nINBOX (MESSAGES 1)\r\n")
    (λ d, match d with DR_Status mailbox _ => mailbox == b! "INBOX" | _ => false end).

Definition test_parse_list_delimiter_as_literal : bool :=
  data (rust! "* LIST () {1}\r\n. \qINBOX\q\r\n") (λ d,
    match d with
    | DR_List _ delimiter name => (delimiter == Some (b! ".")) && (name == b! "INBOX")
    | _ => false
    end).

Definition test_parse_list_delimiter_malformed : bool :=
  fails (rust! "* LIST () X \qINBOX\q\r\n") (Malformed "expected nstring").

Definition test_parse_flag_list_malformed_no_separator : bool :=
  fails (rust! "* FLAGS (\\Seen\\Draft)\r\n") (Malformed "expected SP or ) in list").

Definition test_parse_flag_list_empty_item_malformed : bool :=
  fails (rust! "* FLAGS (()\r\n") (Malformed "expected flag/atom").

Definition test_parse_envelope_with_nested_parens_and_literal : bool :=
  attributes (rust! "* 1 FETCH (ENVELOPE ((\qa\q) {2}\r\nbc))\r\n") (λ attributes,
    match attributes with
    | FA_Envelope bytes :: _ => bytes == rust! "((\qa\q) {2}\r\nbc)"
    | _ => false
    end).

Definition test_parse_tagged_partial_keyword_incomplete : bool := fails (rust! "A1 O") Incomplete.

Definition test_parse_tagged_unknown_keyword_malformed : bool :=
  fails (rust! "A1 ZZ done\r\n") (Malformed "expected tagged status keyword").

Definition test_parse_resp_code_empty_malformed : bool :=
  fails (rust! "* OK [] text\r\n") (Malformed "empty response code").

Definition test_parse_resp_code_badcharset_with_list : bool :=
  status (rust! "* NO [BADCHARSET (UTF-8 KOI8-R)] bad charset\r\n") (λ s,
    sr_code s == Some (RC_BadCharset [b! "UTF-8"; b! "KOI8-R"])).

Definition test_parse_resp_code_badcharset_without_list : bool :=
  status (rust! "* NO [BADCHARSET] bad charset\r\n") (λ s,
    sr_code s == Some (RC_BadCharset [])).

Definition test_parse_resp_code_other_without_extra : bool :=
  status (rust! "* NO [NONEXISTENT] gone\r\n") (λ s,
    sr_code s == Some (RC_Other (b! "NONEXISTENT") None)).

Definition test_parse_unknown_numeric_data_falls_back_to_other : bool :=
  data (rust! "* 5 WIBBLE foo bar\r\n") (λ d, d == DR_Other (b! "* 5 WIBBLE foo bar")).

Definition test_parse_status_empty_items : bool :=
  data (rust! "* STATUS \qINBOX\q ()\r\n") (λ d,
    match d with DR_Status _ items => items == [] | _ => false end).

Definition test_parse_status_items_uid_and_other : bool :=
  data (rust! "* STATUS \qX\q (UIDNEXT 5 UIDVALIDITY 9 HIGHESTMODSEQ 100)\r\n") (λ d,
    match d with DR_Status _ items => items == [SI_UidNext 5; SI_UidValidity 9; SI_Other 100] | _ => false end).

Definition test_parse_status_items_malformed_separator : bool :=
  fails (rust! "* STATUS \qX\q (MESSAGES 1Z)\r\n") (Malformed "expected SP or ) in STATUS items").

Definition test_parse_status_items_missing_open_paren : bool :=
  match parse_response (rust! "* STATUS \qX\q MESSAGES 1\r\n") with
  | ParseErr (InvalidChar _) => true
  | _ => false
  end.

Definition test_parse_fetch_empty_attrs : bool :=
  attributes (rust! "* 1 FETCH ()\r\n") (λ attributes,
    attributes == []).

Definition test_parse_fetch_attrs_malformed_separator : bool :=
  fails (rust! "* 1 FETCH (UID 5Z)\r\n") (Malformed "expected SP or ) in FETCH atts").

Definition test_parse_fetch_unknown_attribute_malformed : bool :=
  fails (rust! "* 1 FETCH (FOOBAR 1)\r\n") (Malformed "unknown FETCH attribute").

Definition test_parse_fetch_empty_att_name_malformed : bool :=
  fails (rust! "* 1 FETCH ( )\r\n") (Malformed "expected FETCH att name").

Definition test_parse_fetch_rfc822_literal : bool :=
  attributes (rust! "* 1 FETCH (RFC822 {3}\r\nabc)\r\n") (λ attributes,
    attributes == [FA_Rfc822 (b! "abc")]).

Definition test_parse_fetch_rfc822_header_and_text : bool :=
  attributes (rust! "* 1 FETCH (RFC822.HEADER {2}\r\nhi RFC822.TEXT {2}\r\nyo)\r\n") (λ attributes,
    attributes == [FA_Rfc822Header (b! "hi"); FA_Rfc822Text (b! "yo")]).

Definition test_parse_fetch_rfc822_quoted : bool :=
  attributes (rust! "* 1 FETCH (RFC822 \qhi\q)\r\n") (λ attributes,
    attributes == [FA_Rfc822 (b! "hi")]).

Definition test_parse_fetch_rfc822_nil : bool :=
  attributes (rust! "* 1 FETCH (RFC822 NIL)\r\n") (λ attributes,
    attributes == [FA_Rfc822 []]).

Definition test_parse_fetch_rfc822_malformed : bool :=
  fails (rust! "* 1 FETCH (RFC822 Z)\r\n") (Malformed "expected nstring").

Definition test_parse_fetch_body_no_section : bool :=
  attributes (rust! "* 1 FETCH (BODY (\qtext\q \qplain\q NIL))\r\n") (λ attributes,
    match attributes with FA_Body _ :: _ => true | _ => false end).

Definition test_parse_fetch_body_section_quoted_data : bool :=
  attributes (rust! "* 1 FETCH (BODY[] \qhi\q)\r\n") (λ attributes,
    attributes == [FA_BodySection None None (Some (b! "hi"))]).

Definition test_parse_fetch_body_section_malformed_data : bool :=
  fails (rust! "* 1 FETCH (BODY[] Z)\r\n") (Malformed "expected nstring").

Definition test_parse_fetch_body_section_crlf_in_section : bool :=
  fails (rust! "* 1 FETCH (BODY[HE\r\n") (Malformed "CR/LF before terminator").

(** [mod prefix_soundness_tests]. *)
Definition FRAMES : list bytes :=
  [rust! "+ ready\r\n";
   rust! "+ [ALERT] go ahead\r\n";
   rust! "* OK IMAP4rev2 ready\r\n";
   rust! "* PREAUTH logged in\r\n";
   rust! "* BYE shutting down\r\n";
   rust! "* OK [UIDVALIDITY 3857529045] UIDs valid\r\n";
   rust! "* OK [UIDNEXT 4392] Predicted next UID\r\n";
   rust! "* OK [PERMANENTFLAGS (\\Deleted \\Seen \\*)] Limited\r\n";
   rust! "* OK [CAPABILITY IMAP4rev2 IDLE] ready\r\n";
   rust! "* NO [ALERT] disk full\r\n";
   rust! "A0001 OK [READ-WRITE] SELECT completed\r\n";
   rust! "A0002 NO [AUTHENTICATIONFAILED] invalid\r\n";
   rust! "A0003 BAD command unknown\r\n";
   rust! "A0004 OK [CAPABILITY IMAP4rev2 AUTH=PLAIN] done\r\n";
   rust! "* CAPABILITY IMAP4rev2 STARTTLS AUTH=PLAIN IDLE\r\n";
   rust! "* 172 EXISTS\r\n";
   rust! "* 3 EXPUNGE\r\n";
   rust! "* FLAGS (\\Answered \\Flagged \\Deleted \\Seen \\Draft)\r\n";
   rust! "* LIST (\\HasNoChildren) \q/\q \qINBOX\q\r\n";
   rust! "* LIST () NIL \qArchive\q\r\n";
   rust! "* LIST (\\Noselect) \q/\q {5}\r\nfoo/b\r\n";
   rust! "* STATUS \qINBOX\q (MESSAGES 231 UIDNEXT 44292)\r\n";
   rust! "* SEARCH 2 84 882\r\n";
   rust! "* SEARCH\r\n";
   rust! "* 12 FETCH (UID 4827 FLAGS (\\Seen))\r\n";
   rust! "* 12 FETCH (RFC822.SIZE 4286 INTERNALDATE \q17-Jul-1996 02:44:25 -0700\q)\r\n";
   rust! "* 12 FETCH (BODY[] {5}\r\nhello)\r\n";
   rust! "* 12 FETCH (BODY[HEADER] NIL)\r\n";
   rust! "* 12 FETCH (BODY[]<0> \qabc\q)\r\n";
   rust! "* 12 FETCH (RFC822 NIL RFC822.HEADER \qx\q RFC822.TEXT {2}\r\nhi)\r\n";
   rust! "* 12 FETCH (ENVELOPE (NIL \qsubj\q ((\qa\q NIL \qb\q \qc\q)) NIL NIL NIL NIL NIL NIL NIL))\r\n";
   rust! "* 12 FETCH (BODYSTRUCTURE (\qtext\q \qplain\q NIL NIL NIL \q7bit\q 3 1))\r\n";
   rust! "* 12 FETCH (BODY (\qtext\q \qplain\q NIL NIL NIL \q7bit\q 3 1))\r\n";
   rust! "* OK caf\xc3\xa9 pr\xc3\xaat\r\n";
   rust! "A0005 NO \xe6\x97\xa5\xe6\x9c\xac \xf0\x9f\x93\xa7\r\n";
   rust! "* OK [X-FOO caf\xc3\xa9 bar] done\r\n";
   rust! "* CAPABILITY IMAP4rev2 X-caf\xc3\xa9\r\n";
   rust! "* FLAGS (\\Seen caf\xc3\xa9)\r\n";
   rust! "* LIST () \q/\q caf\xc3\xa9\r\n";
   rust! "* LIST () \q/\q \qcaf\xc3\xa9\q\r\n"].

Definition fixtures_parse_completely : bool :=
  forallb (λ frame, match ok frame with Some _ => true | None => false end) FRAMES.

Definition every_strict_prefix_returns_incomplete : bool :=
  forallb (λ frame, forallb (λ cut, fails (take cut frame) Incomplete) (seq 0 (length frame))) FRAMES.

Definition parser_tests : list bool :=
  [response_code_atom_cut_by_crlf_is_malformed_not_merged;
   response_code_argument_cut_by_crlf_is_malformed;
   parenthesised_value_cut_by_crlf_is_malformed;
   quoted_string_allows_only_quote_and_backslash_escapes;
   quoted_string_rejects_nul;
   quoted_string_cut_after_backslash_is_incomplete;
   test_parse_continue;
   test_parse_continue_with_code;
   test_parse_continue_invalid_utf8;
   test_parse_continue_expected_crlf;
   test_parse_untagged_ok;
   test_parse_untagged_preauth;
   test_parse_bye;
   test_parse_untagged_invalid_utf8;
   test_parse_resp_code_uidvalidity;
   test_parse_resp_code_uidnext_unseen;
   test_parse_resp_code_alert;
   test_parse_resp_code_capability;
   test_parse_resp_code_permanentflags;
   test_parse_resp_code_read_states;
   test_parse_resp_code_other;
   test_parse_tagged_ok;
   test_parse_tagged_no;
   test_parse_tagged_bad;
   test_parse_capability_data;
   test_parse_list;
   test_parse_list_nil_delimiter;
   test_parse_lsub;
   test_parse_status_response;
   test_parse_search_empty;
   test_parse_search_results;
   test_parse_flags;
   test_parse_exists_recent_expunge;
   test_parse_fetch_flags;
   test_parse_fetch_uid;
   test_parse_fetch_internaldate;
   test_parse_fetch_rfc822_size;
   test_parse_fetch_body_section_with_literal;
   test_parse_fetch_body_section_with_section_and_origin;
   test_parse_fetch_body_section_nil;
   test_parse_fetch_multi_attrs_with_literal;
   test_parse_fetch_envelope_raw;
   test_parse_fetch_bodystructure_raw;
   test_parse_empty_input_incomplete;
   test_parse_incomplete_no_crlf;
   test_parse_incomplete_only_cr;
   test_parse_literal_incomplete;
   test_parse_literal_too_large;
   test_parse_incomplete_tagged_no_space;
   test_parse_incomplete_tagged_no_crlf;
   test_parse_missing_lf_after_cr;
   test_parse_unknown_data_falls_back_to_other;
   test_parse_returns_remainder;
   test_parse_keyword_prefix_not_status;
   test_parse_lf_without_cr_is_malformed;
   test_parse_number_incomplete_at_eof;
   test_parse_number_invalid_non_digit;
   test_parse_atom_incomplete_at_eof;
   test_parse_atom_malformed_non_atom_char;
   test_parse_tag_malformed_empty;
   test_parse_quoted_with_escape_sequence;
   test_parse_quoted_with_cr_is_malformed;
   test_parse_status_mailbox_as_atom;
   test_parse_status_mailbox_as_literal;
   test_parse_list_delimiter_as_literal;
   test_parse_list_delimiter_malformed;
   test_parse_flag_list_malformed_no_separator;
   test_parse_flag_list_empty_item_malformed;
   test_parse_envelope_with_nested_parens_and_literal;
   test_parse_tagged_partial_keyword_incomplete;
   test_parse_tagged_unknown_keyword_malformed;
   test_parse_resp_code_empty_malformed;
   test_parse_resp_code_badcharset_with_list;
   test_parse_resp_code_badcharset_without_list;
   test_parse_resp_code_other_without_extra;
   test_parse_unknown_numeric_data_falls_back_to_other;
   test_parse_status_empty_items;
   test_parse_status_items_uid_and_other;
   test_parse_status_items_malformed_separator;
   test_parse_status_items_missing_open_paren;
   test_parse_fetch_empty_attrs;
   test_parse_fetch_attrs_malformed_separator;
   test_parse_fetch_unknown_attribute_malformed;
   test_parse_fetch_empty_att_name_malformed;
   test_parse_fetch_rfc822_literal;
   test_parse_fetch_rfc822_header_and_text;
   test_parse_fetch_rfc822_quoted;
   test_parse_fetch_rfc822_nil;
   test_parse_fetch_rfc822_malformed;
   test_parse_fetch_body_no_section;
   test_parse_fetch_body_section_quoted_data;
   test_parse_fetch_body_section_malformed_data;
   test_parse_fetch_body_section_crlf_in_section;
   fixtures_parse_completely;
   every_strict_prefix_returns_incomplete].

(** The model passes the tests of the parser. *)
Example parser_tests_pass : forallb id parser_tests = true.
Proof. vm_compute. reflexivity. Qed.
