(* ===== verification/ClientTests.v ===== *)
(** The unit tests of [imap-client] that need no connection, a [Module] for the
    [mod tests] of each file, and those of [imap-core/src/ast.rs]. The tests of
    buffer capacities run on the buffers of [Secrets]. Left out: what the types
    alone state ([ZeroizeOnDrop]), and the effect of another crate's
    [zeroize]. *)

From S2P Require Import Prelude Str Ast AstDebug Base64 ClientError Flags Wire Credentials.
From S2P Require Import Search Capabilities Client Session Secrets ErrorDisplay TestKit.
From stdpp Require Import options.

(** [imap-core/src/ast.rs]. *)
Module ast_tests.

Definition BODY : bytes := rust! "Subject: your code\r\n\r\nOTP 483920".

Definition assert_redacted (rendered : str) : bool :=
  negb (contains (b! "483920") rendered)
  && negb (contains (b! "83, 117") rendered)
  && contains (b! "<" ++ fmt_dec (Z.of_nat (length BODY)) ++ b! " bytes>") rendered.

(** The [Debug] of a [str] without characters to escape. *)
Definition str_shown (s : str) : str := [DQUOTE] ++ s ++ [DQUOTE].
Definition shown (a : FetchAttribute) : str := fetch_attribute_debug str_shown a.

Definition fetch_attribute_debug_prints_payload_length_not_content : bool :=
  forallb (λ attr, assert_redacted (shown attr))
    [FA_Rfc822 BODY; FA_Rfc822Header BODY; FA_Rfc822Text BODY; FA_Envelope BODY; FA_Body BODY;
     FA_BodyStructure BODY].

Definition body_section_debug_keeps_section_and_origin_but_not_data : bool :=
  let rendered := shown (FA_BodySection (Some (b! "TEXT")) (Some 0) (Some BODY)) in
  assert_redacted rendered && contains (b! "TEXT") rendered && contains (b! "origin: Some(0)") rendered.

Definition fetch_response_debug_redacts_nested_attributes : bool :=
  let response := Resp_Data (DR_Fetch 1 [FA_Uid 9; FA_Rfc822 BODY]) in
  let rendered := response_debug str_shown response in
  assert_redacted rendered && contains (b! "Uid(9)") rendered.

Definition all : list bool :=
  [fetch_attribute_debug_prints_payload_length_not_content;
   body_section_debug_keeps_section_and_origin_but_not_data;
   fetch_response_debug_redacts_nested_attributes].
End ast_tests.

(** [imap-client/src/wire.rs]. *)
Module wire_tests.

Definition rejected {A} (result : res A) : bool := fails_with invalid_argument result.

Definition reject_line_breaks_with_cr_lf_or_nul_is_rejected : bool :=
  is_ok (wire.reject_line_breaks (b! "NOOP"))
  && is_ok (wire.reject_line_breaks (rust! "SELECT \qINBOX\q"))
  && forallb (λ bad, rejected (wire.reject_line_breaks bad))
       [rust! "NOOP\r\nZ1 LOGOUT"; rust! "NOOP\nX"; rust! "NOOP\rX"; rust! "NO\0OP"].

Definition sequence_set_valid_forms_are_accepted : bool :=
  forallb (λ ok, wire.sequence_set ok == inl ok)
    [b! "1"; b! "*"; b! "1:5"; b! "5:1"; b! "2:*"; b! "*:4"; b! "1,3,5"; b! "1:3,7,9:*"; b! "4294967295"].

Definition sequence_set_invalid_forms_are_rejected : bool :=
  forallb (λ bad, rejected (wire.sequence_set bad))
    [[]; b! "0"; b! "01"; b! "1:"; b! ":5"; b! "1::2"; b! "1:2:3"; b! "1,,2"; b! ",1"; b! "1,";
     b! "1 2"; b! "a"; b! "-1"; b! "4294967296"; rust! "1\r\nX1 EXPUNGE"].

Definition fetch_items_valid_forms_are_accepted : bool :=
  forallb (λ ok, wire.fetch_items ok == inl ok)
    [b! "ALL"; b! "FAST"; b! "BODY[]"; b! "(FLAGS UID)"; b! "BODY[]<0.1024>";
     b! "BODY.PEEK[HEADER.FIELDS (FROM SUBJECT)]"; b! "(UID RFC822.SIZE FLAGS BODY.PEEK[HEADER])"].

Definition fetch_items_invalid_forms_are_rejected : bool :=
  forallb (λ bad, rejected (wire.fetch_items bad))
    [[]; b! "BODY[] {5}"; b! "(FLAGS"; b! "FLAGS)"; b! "BODY["; b! "BODY]"; b! "(BODY[)]";
     rust! "UID\x01"; rust! "UID\tFLAGS"; b! "BODY[é]"; rust! "ALL\r\nX1 EXPUNGE"].

Definition flag_system_and_keyword_flags_are_accepted : bool :=
  forallb (λ f, is_ok (wire.flag f))
    [Flag_Seen; Flag_Answered; Flag_Flagged; Flag_Deleted; Flag_Draft; Flag_Recent]
  && forallb (λ ok, is_ok (wire.flag (Flag_Custom ok)))
       [b! "$Forwarded"; b! "Work"; rust! "\\Important"; b! "NonJunk"].

Definition flag_keyword_breaking_the_list_is_rejected : bool :=
  forallb (λ bad, rejected (wire.flag (Flag_Custom bad)))
    [[]; b! "a b"; rust! "x \\Deleted"; b! "a)"; b! "(a"; rust! "a\qb"; b! "a%"; b! "a*"; b! "a]";
     b! "a{3}"; rust! "\\"; rust! "\\\\x"; b! "é"; rust! "a\r\nZ1 EXPUNGE"].

Definition quote_allocates_its_exact_length_once : bool :=
  forallb (λ text,
      let '(quoted, freed) := quote_buf text [] in
      (b_cap quoted =? length (b_mem quoted))%nat && (length freed =? 0)%nat)
    [b! "plain"; rust! "a\qb\\c"; rust! "\q\q\q\q"; []].

Definition quote_escapes_quoted_specials : bool :=
  (wire.quote (b! "alice") == rust! "\qalice\q")
  && (wire.quote [] == rust! "\q\q")
  && (wire.quote (rust! "a\qb\\c") == rust! "\qa\\\qb\\\\c\q")
  && (wire.quote (rust! "x\q OR ALL DELETED") == rust! "\qx\\\q OR ALL DELETED\q").

Definition all : list bool :=
  [reject_line_breaks_with_cr_lf_or_nul_is_rejected; sequence_set_valid_forms_are_accepted;
   sequence_set_invalid_forms_are_rejected; fetch_items_valid_forms_are_accepted;
   fetch_items_invalid_forms_are_rejected; flag_system_and_keyword_flags_are_accepted;
   flag_keyword_breaking_the_list_is_rejected; quote_allocates_its_exact_length_once;
   quote_escapes_quoted_specials].
End wire_tests.

(** [imap-client/src/base64.rs]. *)
Module base64_tests.

Definition encode (input : bytes) : option str := encode_into input [].

Definition encode_into_fills_a_presized_buffer_without_growing_it : bool :=
  forallb (λ input,
      let n := Z.to_nat (encoded_len (Z.of_nat (length input))) in
      match encode_into_buf input (mkBlock [] n) [] with
      | (Some out, freed) =>
        (length (b_mem out) =? n)%nat && (b_cap out =? n)%nat && (length freed =? 0)%nat
      | (None, _) => false
      end)
    [[]; b! "f"; b! "fo"; rust! "\0user\0correct horse battery staple"].

Definition encode_rfc_vectors_match_expected : bool :=
  forallb (λ '(input, expected), encode input == Some expected)
    [([], []); (b! "f", b! "Zg=="); (b! "fo", b! "Zm8="); (b! "foo", b! "Zm9v");
     (b! "foob", b! "Zm9vYg=="); (b! "fooba", b! "Zm9vYmE="); (b! "foobar", b! "Zm9vYmFy")].

Definition encode_sasl_plain_payload_matches_known_encoding : bool :=
  encode (rust! "\0user\0pass") == Some (b! "AHVzZXIAcGFzcw==").

Definition encode_high_bytes_uses_all_six_bit_groups : bool :=
  (encode (rust! "\xFF\xFF\xFF") == Some (b! "////"))
  && (encode (rust! "\x00\x00\x00") == Some (b! "AAAA"))
  && (encode (rust! "\xFB\xFF") == Some (b! "+/8=")).

(** [out.trim_end_matches('=')]. *)
Fixpoint trim_pad (reversed : bytes) : bytes :=
  match reversed with
  | c :: s => if c =?b PAD then trim_pad s else reversed
  | [] => []
  end.

Definition encode_arbitrary_lengths_produces_well_formed_output : bool :=
  forallb (λ n,
      let input := (λ i, byte_of (Z.of_nat i * 37 mod 256)) <$> seq 0 n in
      match encode input with
      | None => false
      | Some out =>
        let body := trim_pad (reverse out) in
        (length out =? (n / 3 + (if n mod 3 =? 0 then 0 else 1)) * 4)%nat
        && forallb (λ b, in_range 0x30 0x39 b || in_range 0x41 0x5A b || in_range 0x61 0x7A b
                         || (b =?b "+"%byte) || (b =?b "/"%byte)) body
        && (length out - length body =? (3 - n mod 3) mod 3)%nat
      end) (seq 0 64).

Definition all : list bool :=
  [encode_into_fills_a_presized_buffer_without_growing_it; encode_rfc_vectors_match_expected;
   encode_sasl_plain_payload_matches_known_encoding; encode_high_bytes_uses_all_six_bit_groups;
   encode_arbitrary_lengths_produces_well_formed_output].
End base64_tests.

(** [imap-client/src/credentials.rs]. *)
Module credentials_tests.

Definition as_imap_quoted_returns_a_wiped_on_drop_buffer : bool :=
  as_imap_quoted (Password_new (rust! "p\qw")) == inl (rust! "\qp\\\qw\q").

Definition test_password_obfuscation : bool :=
  let pass := Password_new (b! "secret_pass") in
  (password_debug pass == rust! "\q***\q")
  && negb (contains (b! "secret_pass") (password_debug pass))
  && (password_as_str pass == b! "secret_pass").

Definition test_oauth_obfuscation : bool :=
  let token := OAuthToken_new (b! "ya29.token") in
  (token_debug token == rust! "\q***\q")
  && negb (contains (b! "ya29.token") (token_debug token))
  && (token_as_str token == b! "ya29.token").

Definition test_imap_quoted_basic : bool :=
  (imap_quoted (b! "hello") == inl (rust! "\qhello\q")) && (imap_quoted [] == inl (rust! "\q\q")).

Definition test_imap_quoted_escapes : bool :=
  (imap_quoted (rust! "a\qb") == inl (rust! "\qa\\\qb\q"))
  && (imap_quoted (rust! "a\\b") == inl (rust! "\qa\\\\b\q"))
  && (imap_quoted (rust! "a\\\qb") == inl (rust! "\qa\\\\\\\qb\q")).

Definition test_imap_quoted_rejects_cr_lf : bool :=
  is_err (imap_quoted (rust! "with\rCR")) && is_err (imap_quoted (rust! "with\nLF")).

Definition test_imap_quoted_rejects_nul_and_8bit : bool :=
  is_err (imap_quoted (rust! "a\0b")) && is_err (imap_quoted (b! "café")).

Definition test_password_as_imap_quoted_roundtrip : bool :=
  as_imap_quoted (Password_new (rust! "p@ss\qwith\\specials"))
  == inl (rust! "\qp@ss\\\qwith\\\\specials\q").

Definition all : list bool :=
  [as_imap_quoted_returns_a_wiped_on_drop_buffer; test_password_obfuscation; test_oauth_obfuscation;
   test_imap_quoted_basic; test_imap_quoted_escapes; test_imap_quoted_rejects_cr_lf;
   test_imap_quoted_rejects_nul_and_8bit; test_password_as_imap_quoted_roundtrip].
End credentials_tests.

(** [imap-client/src/error.rs]; what is asked of the displayed error is asked
    of its text. *)
Module error_tests.

Definition text_of (e : ClientError) (check : str → bool) : bool :=
  match e with CE_CommandFailed text => check text | _ => false end.

Definition command_failed_replaces_terminal_control_characters : bool :=
  let err := command_failed (rust! "\x1b[2J\x1b[31mFAKE ALERT\x07" ++ encode [0x9B] ++ b! "31m"
                             ++ encode [0x202E] ++ b! "txt") in
  let shown := client_error_display id err in
  negb (existsb (λ c, is_control c || (c =? 0x202E)) (chars shown))
  && contains (b! "FAKE ALERT") shown.

Definition command_failed_replaces_line_separators_and_bidi_marks : bool :=
  forallb (λ c,
      text_of (command_failed (b! "a" ++ encode [c] ++ b! "b")) (λ text,
        text == b! "a" ++ encode [0xFFFD] ++ b! "b"))
    [0x2028; 0x2029; 0x200E; 0x200F; 0x061C].

Definition command_failed_truncates_long_server_text : bool :=
  text_of (command_failed (encode (replicate (MAX_SERVER_TEXT_CHARS * 4) 0xE9))) (λ text,
    (length (chars text) =? MAX_SERVER_TEXT_CHARS + 1)%nat && (last (chars text) == Some 0x2026)).

Definition command_failed_keeps_ordinary_text_unchanged : bool :=
  let text := b! "[AUTHENTICATIONFAILED] Invalid credentials (Failure)" in
  text_of (command_failed text) (λ shown, shown == text).

Definition all : list bool :=
  [command_failed_replaces_terminal_control_characters;
   command_failed_replaces_line_separators_and_bidi_marks; command_failed_truncates_long_server_text;
   command_failed_keeps_ordinary_text_unchanged].
End error_tests.

(** [imap-client/src/flags.rs]. *)
Module flags_tests.

Definition test_flag_display : bool :=
  (flag_to_string Flag_Seen == rust! "\\Seen")
  && (flag_to_string Flag_Answered == rust! "\\Answered")
  && (flag_to_string Flag_Flagged == rust! "\\Flagged")
  && (flag_to_string Flag_Deleted == rust! "\\Deleted")
  && (flag_to_string Flag_Draft == rust! "\\Draft")
  && (flag_to_string Flag_Recent == rust! "\\Recent")
  && (flag_to_string (Flag_Custom (b! "MyFlag")) == b! "MyFlag").

Definition test_store_action_prefix : bool :=
  (to_imap_prefix Store_Add false == b! "+FLAGS")
  && (to_imap_prefix Store_Add true == b! "+FLAGS.SILENT")
  && (to_imap_prefix Store_Remove false == b! "-FLAGS")
  && (to_imap_prefix Store_Remove true == b! "-FLAGS.SILENT")
  && (to_imap_prefix Store_Set false == b! "FLAGS")
  && (to_imap_prefix Store_Set true == b! "FLAGS.SILENT").

Definition all : list bool := [test_flag_display; test_store_action_prefix].
End flags_tests.

(** [imap-client/src/search.rs]. *)
Module search_tests.

Definition search_key_with_embedded_quote_is_escaped : bool :=
  (to_imap_string (SK_Subject (rust! "x\q OR ALL DELETED")) == rust! "SUBJECT \qx\\\q OR ALL DELETED\q")
  && (to_imap_string (SK_From (rust! "a\\b")) == rust! "FROM \qa\\\\b\q").

Definition test_search_key_formatting : bool :=
  forallb (λ '(key, expected), to_imap_string key == expected)
    [(SK_All, b! "ALL"); (SK_From (b! "alice"), rust! "FROM \qalice\q");
     (SK_To (b! "bob"), rust! "TO \qbob\q"); (SK_Subject (b! "hello"), rust! "SUBJECT \qhello\q");
     (SK_Body (b! "world"), rust! "BODY \qworld\q"); (SK_Text (b! "foo"), rust! "TEXT \qfoo\q");
     (SK_Answered, b! "ANSWERED"); (SK_Deleted, b! "DELETED"); (SK_Draft, b! "DRAFT");
     (SK_Flagged, b! "FLAGGED"); (SK_Recent, b! "RECENT"); (SK_Seen, b! "SEEN");
     (SK_Unanswered, b! "UNANSWERED"); (SK_Undeleted, b! "UNDELETED"); (SK_Undraft, b! "UNDRAFT");
     (SK_Unflagged, b! "UNFLAGGED"); (SK_Unseen, b! "UNSEEN")].

Definition test_logical_operators : bool :=
  (to_imap_string (SK_And [SK_From (b! "alice"); SK_Subject (b! "hello")])
   == rust! "FROM \qalice\q SUBJECT \qhello\q")
  && (to_imap_string (SK_Or SK_Seen SK_Recent) == b! "OR (SEEN) (RECENT)")
  && (to_imap_string (SK_Not SK_Deleted) == b! "NOT (DELETED)").

Definition test_search_query_builder : bool :=
  (build (SearchQuery_subject (b! "Security Alert")) == rust! "SUBJECT \qSecurity Alert\q")
  && (build (SearchQuery_from (b! "alerts@arlo.com")) == rust! "FROM \qalerts@arlo.com\q")
  && (build (SearchQuery_to (b! "user@example.com")) == rust! "TO \quser@example.com\q").

Definition all : list bool :=
  [search_key_with_embedded_quote_is_escaped; test_search_key_formatting; test_logical_operators;
   test_search_query_builder].
End search_tests.

(** [imap-client/src/capabilities.rs]. *)
Module capabilities_tests.

Definition test_parse_gmail_caps : bool :=
  let caps := parse (rust! "* CAPABILITY IMAP4rev1 UNSELECT IDLE NAMESPACE QUOTA ID XLIST MOVE CONDSTORE ENABLE UTF8=ACCEPT\r\n") in
  imap4rev1 caps && negb (imap4rev2 caps) && move_ext caps && condstore caps && idle caps
  && unselect caps && enable caps.

Definition test_parse_rev2_caps : bool :=
  let caps := parse (rust! "* CAPABILITY IMAP4rev2 MOVE UIDPLUS LITERAL+\r\n") in
  imap4rev2 caps && move_ext caps && uidplus caps && literal_plus caps.

Definition test_capabilities_from_atoms : bool :=
  let caps := from_atoms [b! "IMAP4REV2"; b! "STARTTLS"; b! "AUTH=PLAIN"] in
  imap4rev2 caps && starttls caps && auth_plain caps.

Definition test_capabilities_from_response_code : bool :=
  match from_frame (rust! "A1 OK [CAPABILITY IMAP4rev2 STARTTLS] welcome\r\n") with
  | Some caps => imap4rev2 caps && starttls caps && negb (imap4rev1 caps)
  | None => false
  end.

Definition test_no_false_prefix_match : bool := negb (imap4rev2 (from_atoms [b! "IMAP4REV2X"])).

Definition test_parse_legacy_string_falls_back : bool :=
  let caps := parse (b! "IMAP4rev2 IDLE STARTTLS") in
  imap4rev2 caps && idle caps && starttls caps.

Definition all : list bool :=
  [test_parse_gmail_caps; test_parse_rev2_caps; test_capabilities_from_atoms;
   test_capabilities_from_response_code; test_no_false_prefix_match;
   test_parse_legacy_string_falls_back].
End capabilities_tests.

(** The tests of [client.rs] and [session.rs] about the lines that carry
    credentials. *)
Module line_tests.

Definition exact (line : block) (freed : list block) : bool :=
  (b_cap line =? length (b_mem line))%nat && (length freed =? 0)%nat.

Definition command_line_is_built_without_reallocation : bool :=
  let '(line, freed) := command_line_buf (b! "A0001") (rust! "LOGIN \qa\q \qsecret\q") [] in
  (b_mem line == rust! "A0001 LOGIN \qa\q \qsecret\q\r\n") && exact line freed.

(** [sasl], the one block given back, is that of the payload. *)
Definition sasl_plain_line_is_rfc4616_base64_built_without_reallocation : bool :=
  match sasl_plain_line_buf id (b! "user") (b! "pass") [] with
  | (Some line, [sasl]) =>
    (b_mem line == rust! "AHVzZXIAcGFzcw==\r\n") && exact line [] && exact sasl []
  | _ => false
  end.

Definition login_command_is_built_without_reallocation : bool :=
  match imap_quoted_buf (rust! "se\qcret") [] with
  | (inl pass, freed) =>
    let '(cmd, freed) := login_command_buf (rust! "\qalice\q") (b_mem pass) freed in
    (b_mem cmd == rust! "LOGIN \qalice\q \qse\\\qcret\q") && exact cmd freed
  | _ => false
  end.

Definition all : list bool :=
  [command_line_is_built_without_reallocation;
   sasl_plain_line_is_rfc4616_base64_built_without_reallocation;
   login_command_is_built_without_reallocation].
End line_tests.

(** The model passes them. *)
Example client_unit_tests_pass :
  forallb id (ast_tests.all ++ wire_tests.all ++ base64_tests.all ++ credentials_tests.all
    ++ error_tests.all ++ flags_tests.all ++ search_tests.all ++ capabilities_tests.all
    ++ line_tests.all) = true.
Proof. vm_compute. reflexivity. Qed.
