(* ===== verification/SessionTests.v ===== *)
(** The unit tests of [imap-client] that talk to a server over a pipe
    ([client.rs], [idle.rs], [session.rs]), played by the simulator of
    [TestKit]. A timeout of a test on the code (that nothing hangs) is the
    simulation's end. Left out: that subscribers of the broadcast share one
    allocation. The compile-fail tests ([tests/ui]) are about the indices of the
    types of methods. *)

From S2P Require Import Prelude Str Ast Monad ResponseParser ClientError Flags Wire Credentials.
From S2P Require Import Search Capabilities Client Program Session SessionTheorems Protocol TestKit.
From stdpp Require Import options.

(** A server that reads a command and answers it. *)
Definition replies (frames : list bytes) (answer : bytes) : list server_act :=
  read_cmd_tag :: (says <$> frames) ++ [answers_tag answer].

Definition timeout_or_closed (e : ClientError) : bool :=
  match e with CE_Timeout | CE_ConnectionClosed => true | _ => false end.
Definition timeout (e : ClientError) : bool := e == CE_Timeout.

(** [imap-client/src/client.rs]. *)
Module client_tests.

Definition into_reply_rebroadcasts_frames_already_buffered_for_the_stream : bool :=
  plays
    (try_p (send_command_streaming (b! "IDLE") is_continuation) (λ stream,
     Next (cs_frames stream) (λ first,
     IntoReply (cs_frames stream) (Recv 0 (λ event, Ret (inl (first, event)))))))
    [read_cmd_tag; says (rust! "+ a\r\n+ b\r\n")]
    (λ r _, match r with
            | inl (NR_Frame first, Some event) => (first == rust! "+ a\r\n") && (event == rust! "+ b\r\n")
            | _ => false
            end).

Definition streamed_frames_go_to_events_once_the_stream_is_dropped : bool :=
  plays
    (try_p (send_command_streaming (b! "IDLE") is_continuation) (λ stream,
     IntoReply (cs_frames stream) (Recv 0 (λ event, Ret (inl event)))))
    [read_cmd_tag; says (rust! "+ idling\r\n")]
    (λ r _, r == inl (Some (rust! "+ idling\r\n"))).

Definition tagged_no_text_is_sanitised_before_reaching_the_error : bool :=
  plays (execute_command (b! "NOOP"))
    [read_cmd_tag; says (rust! "A0001 NO \x1b[2J\x1b[31mFAKE ALERT\x07\r\n")]
    (λ r _, fails_with (failed (λ shown,
       negb (existsb is_control (chars shown)) && contains (b! "FAKE ALERT") shown)) r).

Definition test_tagged_response_matching : bool :=
  plays (execute_command (b! "NOOP"))
    [S_ReadTag (contains (b! "NOOP")); answers_tag (rust! " OK NOOP completed\r\n")]
    (λ r _, match r with inl frame => contains (b! "OK") frame | inr _ => false end).

Definition test_no_response_becomes_error : bool :=
  plays (execute_command (b! "LOGIN x y")) (replies [] (rust! " NO authentication failed\r\n"))
    (λ r _, fails_with (failed (λ text, text == b! "authentication failed")) r).

Definition test_bad_response_becomes_error : bool :=
  plays (execute_command (b! "BOGUS")) (replies [] (rust! " BAD unknown command\r\n"))
    (λ r _, fails_with (failed any_text) r).

Definition test_untagged_event_broadcasting : bool :=
  plays (Recv 0 Ret) [says (rust! "* 5 EXISTS\r\n")] (λ event _, event == Some (rust! "* 5 EXISTS\r\n")).

(** Every byte arrives on its own. *)
Definition test_partial_read_reassembly : bool :=
  let response tag := tag ++ rust! " OK NOOP completed\r\n" in
  plays (execute_command (b! "NOOP"))
    (read_cmd_tag :: ((λ i, S_Say (λ tag, take 1 (drop i (response tag))))
                      <$> seq 0 (length (response (b! "A0001")))))
    (λ r _, match r with inl frame => contains (b! "OK") frame | inr _ => false end).

Definition test_command_timeout : bool :=
  plays (execute_command (b! "NOOP")) [] (λ r _, fails_with timeout r).

Definition test_search_parsing : bool :=
  plays (execute_command (rust! "SEARCH FROM \qalice\q"))
    (replies [rust! "* SEARCH 1 2 3\r\n"] (rust! " OK SEARCH completed\r\n"))
    (λ r c, is_ok r && (head (sh_events (cl_shared c)) == Some (rust! "* SEARCH 1 2 3\r\n"))).

Definition test_send_raw : bool :=
  plays (SendRaw (rust! "DONE\r\n") Ret) [S_Read (λ bs, bs == rust! "DONE\r\n")] (λ r _, is_ok r).

Definition test_connection_closed_on_eof : bool :=
  plays (execute_command (b! "NOOP")) [S_Close] (λ r _, fails_with timeout_or_closed r).

Definition test_connection_closed_immediate : bool :=
  match exec MAX_FRAME_SIZE (A_Read (Read_Ok [])) client_new with
  | Some c => plays_on MAX_FRAME_SIZE 1000 c (execute_command (b! "NOOP")) []
                (λ r _, fails_with timeout_or_closed r)
  | None => false
  end.

Definition read_loop_malformed_frame_fails_pending_and_stops_parsing : bool :=
  plays (execute_command (b! "FETCH 1 BODY[]"))
    [read_cmd_tag; says (rust! "* 1 FETCH (BODY[] {100000000}\r\n");
     says (rust! "* 999 EXISTS\r\nA0001 OK injected\r\n")]
    (λ r c, fails_with (λ e, match e with CE_Parse (LiteralTooLarge _ _) => true | _ => false end) r
            && (sh_events (cl_shared c) == [])).

(** [wire.chunks(CHUNK)]. *)
Fixpoint chunks (fuel : nat) (n : nat) (wire : bytes) : list bytes :=
  match fuel, wire with
  | S fuel, _ :: _ => take n wire :: chunks fuel n (drop n wire)
  | _, _ => []
  end.

Definition read_loop_fetch_burst_split_mid_attribute_delivers_every_frame : bool :=
  let FRAMES := 1000%nat in
  let CHUNK := 37%nat in
  let frame n := b! "* " ++ fmt_dec (Z.of_nat n) ++ rust! " FETCH (FLAGS (\\Seen) UID "
                 ++ fmt_dec (Z.of_nat n) ++ rust! ")\r\n" in
  let wire := concat (frame <$> seq 1 FRAMES) ++ rust! "A0001 OK FETCH completed\r\n" in
  plays_on MAX_FRAME_SIZE (Z.to_nat 20000) client_new
    (execute_streaming (b! "FETCH 1:* (FLAGS UID)") is_fetch)
    (read_cmd_tag :: (says <$> chunks (length wire) CHUNK wire))
    (λ '(result, frames) _,
       is_ok result && forallb (ends_with [CR; LF]) frames && (length frames =? FRAMES)%nat).

Definition test_unterminated_frame_is_bounded : bool :=
  let max_frame_size := 64 in
  let pending := register pending_default (b! "A0001") 0 None in
  plays_on max_frame_size 1000 (with_shared (set_pending pending (cl_shared client_new)) client_new)
    (Await false 0 Ret)
    [says (b! "* OK "); says (replicate (Z.to_nat (max_frame_size * 2)) "a"%byte)]
    (λ result c, (result == inr (CE_FrameTooLarge max_frame_size))
                 && match cl_reader c with R_Stopped => true | _ => false end).

Definition all : list bool :=
  [into_reply_rebroadcasts_frames_already_buffered_for_the_stream;
   streamed_frames_go_to_events_once_the_stream_is_dropped;
   tagged_no_text_is_sanitised_before_reaching_the_error; test_tagged_response_matching;
   test_no_response_becomes_error; test_bad_response_becomes_error; test_untagged_event_broadcasting;
   test_partial_read_reassembly; test_command_timeout; test_search_parsing; test_send_raw;
   test_connection_closed_on_eof; test_connection_closed_immediate;
   read_loop_malformed_frame_fails_pending_and_stops_parsing;
   read_loop_fetch_burst_split_mid_attribute_delivers_every_frame; test_unterminated_frame_is_bounded].

Example client_tests_pass : forallb id all = true.
Proof. vm_compute. reflexivity. Qed.
End client_tests.

(** [imap-client/src/idle.rs]. *)
Module idle_tests.

(** The handle is stopped once the server has answered; the tag is A0001. *)
Definition test_idle_stop_sends_done_and_awaits_ok : bool :=
  plays (send_command_async (b! "IDLE")) [S_ReadTag (contains (b! "IDLE")); says (rust! "+ idling\r\n")]
    (λ r c, match r with
            | inl reply_rx =>
              plays_on MAX_FRAME_SIZE 1000 c (stop_with_timeout (mkIdleHandle reply_rx))
                [S_Read (λ bs, bs == rust! "DONE\r\n"); says (rust! "A0001 OK IDLE terminated\r\n")]
                (λ r _, is_ok r)
            | inr _ => false
            end).
End idle_tests.

(** [imap-client/src/session.rs]. *)
Module session_tests.

Definition unauth_session : Session Unauthenticated Tls := session.new_in_state caps_default.
Definition auth_session : Session Authenticated Tls := session.new_in_state caps_default.
Definition selected_session : Session Selected Tls := session.new_in_state caps_default.
Definition selected_session_with_caps (caps : Capabilities) : Session Selected Tls :=
  session.new_in_state caps.

(** [assert_nothing_sent]. *)
Definition nothing_sent (c : client) : bool := cl_written c == [].

Definition rejected_before_send {A} (p : prog (res A)) : bool :=
  plays p [] (λ r c, fails_with invalid_argument r && nothing_sent c).

Definition fetch_raw_with_crlf_in_sequence_set_is_rejected_before_send : bool :=
  rejected_before_send
    (session.fetch_raw (rust! "1\r\nX1 STORE 1:* +FLAGS (\\Deleted)\r\nX2 EXPUNGE") (b! "ALL") selected_session).

Definition fetch_with_literal_marker_in_items_is_rejected_before_send : bool :=
  rejected_before_send (session.fetch (b! "1") (b! "BODY[] {20}") selected_session).

Definition store_with_flag_list_break_out_is_rejected_before_send : bool :=
  rejected_before_send (session.store (b! "1") Store_Add [Flag_Custom (rust! "x \\Deleted")] selected_session).

Definition uid_store_with_invalid_uid_set_is_rejected_before_send : bool :=
  rejected_before_send (session.uid_store (b! "1 EXPUNGE") Store_Add [Flag_Seen] selected_session).

Definition move_messages_with_crlf_in_sequence_set_is_rejected_before_send : bool :=
  rejected_before_send
    (session.move_messages (rust! "1\r\nX7 EXPUNGE\r\nX8 MOVE 1") (b! "Trash")
       (selected_session_with_caps (set_move_ext caps_default))).

Definition search_with_crlf_in_text_is_rejected_before_send : bool :=
  rejected_before_send
    (session.search (SearchQuery_subject (rust! "x\r\nX3 EXPUNGE")) selected_session).

Definition test_session_login : bool :=
  plays (session.login (b! "user") (Password_new (b! "pass")) unauth_session)
    [S_ReadTag (contains (rust! "LOGIN \quser\q \qpass\q"));
     answers_tag (rust! " OK [CAPABILITY IMAP4rev2 IDLE] LOGIN completed\r\n")]
    (λ r _, match r with
            | inl auth => imap4rev2 (capabilities auth) && Capabilities.idle (capabilities auth)
            | inr _ => false
            end).

Definition test_session_login_falls_back_to_capability_round_trip : bool :=
  plays (session.login (b! "user") (Password_new (b! "pass")) unauth_session)
    (replies [] (rust! " OK LOGIN completed\r\n")
     ++ replies [rust! "* CAPABILITY IMAP4rev2 STARTTLS UNSELECT\r\n"] (rust! " OK CAPABILITY done\r\n"))
    (λ r _, match r with
            | inl auth => imap4rev2 (capabilities auth) && Capabilities.unselect (capabilities auth)
            | inr _ => false
            end).

Definition test_login_escapes_quote_and_backslash : bool :=
  plays (session.login (rust! "user\qwith\\specials") (Password_new (rust! "p@ss\q\\")) unauth_session)
    [S_ReadTag (contains (rust! "LOGIN \quser\\\qwith\\\\specials\q \qp@ss\\\q\\\\\q"));
     answers_tag (rust! " OK [CAPABILITY IMAP4rev2] done\r\n")]
    (λ r _, is_ok r).

Definition test_login_rejects_8bit_password : bool :=
  plays (session.login (b! "user") (Password_new (b! "café")) unauth_session) []
    (λ r _, fails_with (failed any_text) r).

Definition test_login_failure : bool :=
  plays (session.login (b! "user") (Password_new (b! "pass")) unauth_session)
    (replies [] (rust! " NO authentication failed\r\n"))
    (λ r _, fails_with (failed (contains (b! "authentication"))) r).

Definition test_authenticate_plain : bool :=
  plays (session.authenticate_plain (b! "user") (Password_new (b! "pass")) unauth_session)
    [S_ReadTag (contains (b! "AUTHENTICATE PLAIN")); says (rust! "+ \r\n");
     S_Read (λ bs, bs == rust! "AHVzZXIAcGFzcw==\r\n");
     answers_tag (rust! " OK [CAPABILITY IMAP4rev2] auth done\r\n")]
    (λ r _, is_ok r).

Definition test_authenticate_plain_failure : bool :=
  plays (session.authenticate_plain (b! "user") (Password_new (b! "pass")) unauth_session)
    [read_cmd_tag; says (rust! "+ \r\n"); S_Read (λ _, true); answers_tag (rust! " NO bad creds\r\n")]
    (λ r _, fails_with (failed any_text) r).

Definition test_session_select : bool :=
  plays (session.select (b! "INBOX") auth_session) (replies [] (rust! " OK SELECT completed\r\n"))
    (λ r _, is_ok r).

Definition test_session_examine : bool :=
  plays (session.examine (b! "INBOX") auth_session)
    [S_ReadTag (contains (rust! "EXAMINE \qINBOX\q")); answers_tag (rust! " OK EXAMINE completed\r\n")]
    (λ r _, is_ok r).

Definition test_session_select_failure : bool :=
  plays (session.select (b! "BadBox") auth_session) (replies [] (rust! " NO no such mailbox\r\n"))
    (λ r _, fails_with (failed any_text) r).

Definition test_session_logout : bool :=
  plays (session.logout auth_session)
    (replies [rust! "* BYE goodbye\r\n"] (rust! " OK LOGOUT completed\r\n")) (λ r _, is_ok r).

Definition test_session_noop : bool :=
  plays (session.noop auth_session) (replies [] (rust! " OK NOOP done\r\n")) (λ r _, is_ok r).

Definition test_session_close : bool :=
  plays (session.close_mailbox selected_session) (replies [] (rust! " OK CLOSE done\r\n")) (λ r _, is_ok r).

Definition test_session_unselect_unsupported : bool :=
  plays (session.unselect selected_session) []
    (λ r _, fails_with (λ e, e == CE_UnsupportedCapability "UNSELECT") r).

Definition test_session_unselect_supported : bool :=
  plays (session.unselect (selected_session_with_caps (set_unselect caps_default)))
    (replies [] (rust! " OK UNSELECT done\r\n")) (λ r _, is_ok r).

Definition test_session_check : bool :=
  plays (session.check selected_session) (replies [] (rust! " OK CHECK done\r\n")) (λ r _, is_ok r).

Definition authenticate_plain_times_out_when_the_server_never_answers_the_payload : bool :=
  plays (session.authenticate_plain (b! "user") (Password_new (b! "pass")) unauth_session)
    [read_cmd_tag; says (rust! "+ \r\n")] (λ r _, fails_with timeout r).

(** More frames than the broadcast holds, each read on its own. *)
Definition FRAMES_PAST_EVENT_CAPACITY : nat := 1500.

Definition reply_with_frames (frame : str → bytes) : list server_act :=
  replies ((λ n, frame (fmt_dec (Z.of_nat n))) <$> seq 1 FRAMES_PAST_EVENT_CAPACITY) (rust! " OK done\r\n").

Definition plays_long {A} (p : prog A) (script : list server_act) (check : A → client → bool) : bool :=
  plays_on MAX_FRAME_SIZE (Z.to_nat 20000) client_new p script check.

Definition fetch_more_frames_than_event_capacity_returns_every_message : bool :=
  plays_long (session.fetch (b! "1:*") (b! "UID") selected_session)
    (reply_with_frames (λ n, b! "* " ++ n ++ b! " FETCH (UID " ++ n ++ rust! ")\r\n"))
    (λ r _, match r with
            | inl results =>
              (length results =? FRAMES_PAST_EVENT_CAPACITY)%nat
              && ((last results ≫= fr_uid) == Some (Z.of_nat FRAMES_PAST_EVENT_CAPACITY))
            | inr _ => false
            end).

Definition search_more_frames_than_event_capacity_returns_every_id : bool :=
  plays_long (session.search (SearchQuery_subject (b! "t")) selected_session)
    (reply_with_frames (λ n, b! "* SEARCH " ++ n ++ rust! "\r\n"))
    (λ r _, match r with
            | inl ids => (length ids =? FRAMES_PAST_EVENT_CAPACITY)%nat
            | inr _ => false
            end).

Definition fetch_keeps_its_data_off_the_event_channel_but_not_unsolicited_frames : bool :=
  plays (session.fetch (b! "1") (b! "UID") selected_session)
    (replies [rust! "* 1 FETCH (UID 7)\r\n* 4 EXISTS\r\n"] (rust! " OK done\r\n"))
    (λ r c, match r with
            | inl results => (length results =? 1)%nat && (sh_events (cl_shared c) == [rust! "* 4 EXISTS\r\n"])
            | inr _ => false
            end).

Definition idle_tagged_no_instead_of_continuation_fails_without_waiting : bool :=
  plays (session.idle (selected_session_with_caps (set_idle caps_default)))
    (replies [] (rust! " NO IDLE refused\r\n"))
    (λ r _, fails_with (failed (contains (b! "refused"))) r).

Definition test_session_idle_unsupported : bool :=
  plays (session.idle selected_session) []
    (λ r _, fails_with (λ e, e == CE_UnsupportedCapability "IDLE") r).

Definition test_session_idle_flow : bool :=
  plays
    (try_p (session.idle (selected_session_with_caps (set_idle caps_default))) stop_with_timeout)
    [read_cmd_tag; says (rust! "+ idling\r\n"); S_Read (λ bs, bs == rust! "DONE\r\n");
     answers_tag (rust! " OK IDLE done\r\n")]
    (λ r _, is_ok r).

Definition test_session_search : bool :=
  plays (session.search (SearchQuery_subject (b! "test")) selected_session)
    (replies [rust! "* SEARCH 1 2 3\r\n"] (rust! " OK SEARCH completed\r\n"))
    (λ r _, r == inl [1; 2; 3]).

Definition test_session_uid_search : bool :=
  plays (session.uid_search (SearchQuery_subject (b! "t")) selected_session)
    [S_ReadTag (contains (b! "UID SEARCH")); says (rust! "* SEARCH 4 5 6\r\n");
     answers_tag (rust! " OK done\r\n")]
    (λ r _, r == inl [4; 5; 6]).

Definition test_session_search_failure : bool :=
  plays (session.search (SearchQuery_subject (b! "t")) selected_session)
    (replies [] (rust! " NO failed\r\n")) (λ r _, is_err r).

Definition test_session_run_search_multiple_events : bool :=
  plays (session.search (SearchQuery_subject (b! "t")) selected_session)
    (replies [rust! "* SEARCH 1 2\r\n"; rust! "* SEARCH 3 4\r\n"] (rust! " OK done\r\n"))
    (λ r _, r == inl [1; 2; 3; 4]).

Definition test_session_store_and_uid_store : bool :=
  plays (session.store (b! "1") Store_Add [Flag_Seen] selected_session)
    [S_ReadTag (contains (b! "STORE")); answers_tag (rust! " OK done\r\n")] (λ r _, is_ok r)
  && plays (session.uid_store (b! "1") Store_Add [Flag_Seen] selected_session)
       [S_ReadTag (contains (b! "UID STORE")); answers_tag (rust! " OK done\r\n")] (λ r _, is_ok r).

Definition test_session_expunge : bool :=
  plays (session.expunge selected_session) (replies [] (rust! " OK done\r\n")) (λ r _, is_ok r).

Definition test_session_move_unsupported : bool :=
  plays (session.move_messages (b! "1") (b! "Archive") selected_session) []
    (λ r _, fails_with (λ e, e == CE_UnsupportedCapability "MOVE") r).

Definition test_session_move_supported : bool :=
  plays
    (session.move_messages (b! "1") (b! "Archive") (selected_session_with_caps (set_move_ext caps_default)))
    [S_ReadTag (contains (rust! "MOVE 1 \qArchive\q")); answers_tag (rust! " OK done\r\n")]
    (λ r _, is_ok r).

Definition test_session_list : bool :=
  plays (session.list_ [] (b! "*") auth_session) (replies [] (rust! " OK done\r\n")) (λ r _, is_ok r).

Definition test_session_list_failure : bool :=
  plays (session.list_ [] (b! "*") auth_session) (replies [] (rust! " NO failed\r\n")) (λ r _, is_err r).

Definition test_session_fetch_raw : bool :=
  plays (session.fetch_raw (b! "1") (b! "ALL") selected_session) (replies [] (rust! " OK done\r\n"))
    (λ r _, is_ok r).

Definition test_session_fetch_structured : bool :=
  plays (session.fetch (b! "1") (b! "BODY[]") selected_session)
    (replies [rust! "* 1 FETCH (BODY[] {10}\r\n0123456789 UID 123)\r\n"] (rust! " OK done\r\n"))
    (λ r _, match r with
            | inl [result] =>
              (fr_seq result == 1) && (fr_uid result == Some 123) && (fr_body result == Some (b! "0123456789"))
            | _ => false
            end).

Definition test_session_fetch_body_helper : bool :=
  plays (session.fetch_body (b! "1") selected_session)
    (replies [rust! "* 1 FETCH (BODY[] {10}\r\n0123456789)\r\n"] (rust! " OK done\r\n"))
    (λ r _, r == inl (Some (b! "0123456789"))).

(** The types are the test. *)
Definition new_builds_plain_text_and_new_tls_builds_tls :
    Session Unauthenticated PlainText * Session Unauthenticated Tls :=
  (session.new caps_default, session.new_tls caps_default).

Definition test_refresh_capabilities_explicit : bool :=
  plays (session.refresh_capabilities unauth_session)
    (replies [rust! "* CAPABILITY IMAP4rev2 IDLE\r\n"] (rust! " OK done\r\n"))
    (λ '(r, self) _,
       is_ok r && imap4rev2 (capabilities self) && Capabilities.idle (capabilities self)).

Definition refusals : list bool :=
  [fetch_raw_with_crlf_in_sequence_set_is_rejected_before_send;
   fetch_with_literal_marker_in_items_is_rejected_before_send;
   store_with_flag_list_break_out_is_rejected_before_send;
   uid_store_with_invalid_uid_set_is_rejected_before_send;
   move_messages_with_crlf_in_sequence_set_is_rejected_before_send;
   search_with_crlf_in_text_is_rejected_before_send].

Definition logins : list bool :=
  [test_session_login; test_session_login_falls_back_to_capability_round_trip;
   test_login_escapes_quote_and_backslash; test_login_rejects_8bit_password; test_login_failure;
   test_authenticate_plain; test_authenticate_plain_failure;
   authenticate_plain_times_out_when_the_server_never_answers_the_payload].

Definition commands : list bool :=
  [test_session_select; test_session_examine; test_session_select_failure; test_session_logout;
   test_session_noop; test_session_close; test_session_unselect_unsupported;
   test_session_unselect_supported; test_session_check; test_session_idle_unsupported;
   test_session_idle_flow; idle_tagged_no_instead_of_continuation_fails_without_waiting;
   test_session_search; test_session_uid_search; test_session_search_failure;
   test_session_run_search_multiple_events; test_session_store_and_uid_store; test_session_expunge;
   test_session_move_unsupported; test_session_move_supported; test_session_list;
   test_session_list_failure; test_session_fetch_raw; test_session_fetch_structured;
   test_session_fetch_body_helper; test_refresh_capabilities_explicit;
   fetch_keeps_its_data_off_the_event_channel_but_not_unsolicited_frames].

Definition long : list bool :=
  [fetch_more_frames_than_event_capacity_returns_every_message;
   search_more_frames_than_event_capacity_returns_every_id].

(** The model passes them. *)
Example session_tests_pass :
  forallb id (idle_tests.test_idle_stop_sends_done_and_awaits_ok :: refusals ++ logins ++ commands) = true.
Proof. vm_compute. reflexivity. Qed.

Example long_session_tests_pass : forallb id long = true.
Proof. vm_compute. reflexivity. Qed.
End session_tests.

(** [imap-client/tests/ui]: what the compiler refuses. *)
Module type_state_tests.

(** No method of an [Unauthenticated] session returns more than a unit: there is
    no [fetch]. *)
Theorem fetch_on_unauthenticated T A : call Unauthenticated T A → A = unit.
Proof. by inversion 1. Qed.

(** Over [PlainText] an [Unauthenticated] session has no way out of its state. *)
Theorem login_on_plain_text S' : transition Unauthenticated S' PlainText → False.
Proof. by inversion 1. Qed.

(** [Session::new] makes a [PlainText] session. *)
Example new_cannot_claim_tls : ∀ caps, @eq (Session Unauthenticated PlainText) (session.new caps) (mkSession caps).
Proof. done. Qed.
End type_state_tests.
