(* ===== verification/TlsTests.v ===== *)
(** The unit tests of [imap-tls/src/lib.rs], and the integration tests of
    [imap-tls/tests/integration.rs], with TCP connections, names and handshakes
    that behave as in the test. A write of the server is one read of the client.
    The two tests at the ceiling, whose frames of 64 KiB are too long to evaluate
    on lists, are in [LimitTests]. *)

From S2P Require Import Prelude Str Ast ClientError Capabilities Client Program Session.
From S2P Require Import Tls TestKit.
From stdpp Require Import options.

Definition server_says (chunks : list bytes) : conn :=
  mkConn [] (Rd_Bytes <$> chunks) [Wr_Ok; Wr_Ok] [].

Definition ends (r : ended unit) (check : res unit → list bytes → bool) : bool :=
  match r with Done r c => check r (cn_out c) | Panicked | Hangs => false end.

(** No name has a space. *)
Definition test_connect_tls_invalid_domain : bool :=
  plays (handshake_with_connector (λ name, negb (contains (b! " ") name)) (λ _ _, In_Time (inl tt))
      (b! "invalid domain") (server_says [])) []
    (λ r _, TestKit.is_err r).

(** The other end of the stream is gone. *)
Definition test_connect_tls_handshake_failure : bool :=
  plays (handshake_with_connector (λ _, true) (λ _ _, In_Time (inr "unexpected end of file"%string))
      (b! "localhost") (server_says [])) []
    (λ r _, TestKit.is_err r).

(** The connection hangs. *)
Definition test_connect_tcp_timeout : bool :=
  fails_with (λ e, match e with CE_Timeout | CE_Io _ => true | _ => false end)
    (connect_tcp (λ _, Elapsed) (b! "192.0.2.1") 993).

Definition test_starttls_drive_happy_path : bool :=
  ends (drive_starttls_exchange (server_says
      [rust! "* OK IMAP service ready\r\n"; rust! "* CAPABILITY IMAP4rev2 STARTTLS\r\nT0001 OK done\r\n";
       rust! "T0002 OK begin TLS\r\n"]))
    (λ r out, TestKit.is_ok r
              && match out with
                 | [first; second] => contains (b! "CAPABILITY") first && contains (b! "STARTTLS") second
                 | _ => false
                 end).

Definition test_starttls_drive_rejects_no_starttls : bool :=
  ends (drive_starttls_exchange (server_says
      [rust! "* OK ready\r\n"; rust! "* CAPABILITY IMAP4rev2\r\nT0001 OK done\r\n"]))
    (λ r _, fails_with (failed any_text) r).

Definition starttls_rejects_cleartext_queued_after_the_ok : bool :=
  ends (drive_starttls_exchange (server_says
      [rust! "* OK ready\r\n"; rust! "* CAPABILITY IMAP4rev2 STARTTLS\r\nT0001 OK done\r\n";
       rust! "T0002 OK begin TLS\r\n* OK injected\r\n"]))
    (λ r _, fails_with (failed (contains (b! "after STARTTLS"))) r).

(** The deadline expires at some read after untagged lines. *)
Definition starttls_timeout_bounds_the_whole_exchange_not_each_frame : bool :=
  ends (drive_starttls_exchange
      (mkConn [] (Rd_Bytes (rust! "* OK ready\r\n")
                  :: replicate 6 (Rd_Bytes (rust! "* OK still here\r\n")) ++ [Rd_Timeout])
         [Wr_Ok; Wr_Ok] []))
    (λ r _, fails_with (λ e, e == CE_Timeout) r).

Definition test_starttls_drive_rejects_starttls_no : bool :=
  ends (drive_starttls_exchange (server_says
      [rust! "* OK ready\r\n"; rust! "* CAPABILITY IMAP4rev2 STARTTLS\r\nT0001 OK done\r\n";
       rust! "T0002 NO not now\r\n"]))
    (λ r _, fails_with (failed any_text) r).

(** The model passes them. *)
Example tls_tests_pass :
  forallb id
    [test_connect_tls_invalid_domain; test_connect_tls_handshake_failure; test_connect_tcp_timeout;
     test_starttls_drive_happy_path; test_starttls_drive_rejects_no_starttls;
     starttls_rejects_cleartext_queued_after_the_ok;
     starttls_timeout_bounds_the_whole_exchange_not_each_frame;
     test_starttls_drive_rejects_starttls_no] = true.
Proof. vm_compute. reflexivity. Qed.

(** [imap-tls/tests/integration.rs]. *)
Module integration.

(** Certificates made for the test: every name is valid and TLS succeeds. *)
Definition accepts : connector := λ _ _, In_Time (inl tt).
Definition handshake (stream : conn) : prog (res (Session Unauthenticated Tls)) :=
  handshake_with_connector (λ _, true) accepts (b! "localhost") stream.
Definition upgrade (stream : conn) : prog (res (Session Unauthenticated Tls)) :=
  starttls_with_connector (λ _, true) accepts (b! "localhost") stream.

Definition offers (wanted : Capabilities → bool) (r : res (Session Unauthenticated Tls)) (c : client) : bool :=
  match r with inl session => wanted (capabilities session) | inr _ => false end.

(** Nothing listens. *)
Definition test_connect_tls_to_closed_port : bool :=
  plays (connect_tls (λ _, true) (λ _, In_Time (inr "connection refused"%string)) (inl accepts)
      (b! "127.0.0.1") 1) []
    (λ r _, TestKit.is_err r).

Definition test_handshake_and_capability_round_trip : bool :=
  plays (handshake (server_says []))
    [says (rust! "* OK IMAP service ready\r\n"); S_ReadTag (contains (b! "CAPABILITY"));
     S_Say (λ tag, rust! "* CAPABILITY IMAP4rev2 IDLE STARTTLS UNSELECT\r\n" ++ tag ++ rust! " OK done\r\n")]
    (offers (λ caps, imap4rev2 caps && Capabilities.idle caps && Capabilities.unselect caps)).

(** And the client sends nothing. *)
Definition test_handshake_with_greeting_capability_code : bool :=
  plays (handshake (server_says [])) [says (rust! "* OK [CAPABILITY IMAP4rev2 IDLE] hello\r\n")]
    (λ r c, offers (λ caps, imap4rev2 caps && Capabilities.idle caps) r c && (cl_written c == [])).

(** No greeting under TLS: the client's wait for one times out. *)
Definition test_starttls_full_upgrade_path : bool :=
  plays
    (upgrade (server_says
      [rust! "* OK ready\r\n"; rust! "* CAPABILITY IMAP4rev2 STARTTLS\r\nT0001 OK done\r\n";
       rust! "T0002 OK begin TLS\r\n"]))
    [read_cmd_tag; S_Say (λ tag, rust! "* CAPABILITY IMAP4rev2 IDLE\r\n" ++ tag ++ rust! " OK done\r\n")]
    (offers (λ caps, imap4rev2 caps && Capabilities.idle caps && negb (Capabilities.starttls caps))).

Example integration_tests_pass :
  forallb id
    [test_connect_tls_to_closed_port; test_handshake_and_capability_round_trip; test_handshake_with_greeting_capability_code;
     test_starttls_full_upgrade_path] = true.
Proof. vm_compute. reflexivity. Qed.
End integration.
