(* ===== verification/LimitTests.v ===== *)
(** The unit tests at the limits of [imap-core/src/parser.rs] (the item budget)
    and [imap-tls/src/lib.rs] (the ceiling of the cleartext buffer). Their
    inputs, of 64 KiB and more, are not evaluated: the model passes these tests
    because its parser is the response grammar. *)

From S2P Require Import Prelude Str Ast Monad ResponseParser ParserSafety ParserStream.
From S2P Require Import ParserLocal ParserTheorems Framing ParserRead Grammar GrammarComplete.
From S2P Require Import ClientError Tls TlsTests.
From stdpp Require Import options.

(* ------------------------------------------------------------------ *)
(** ** The item budget                                                  *)
(* ------------------------------------------------------------------ *)

Abbreviation MAX := (Z.to_nat MAX_ITEMS_PER_RESPONSE).

(** [s.repeat(n)]. *)
Definition repeat (s : bytes) (n : nat) : bytes := concat (replicate n s).

Definition atoms (n : nat) : bytes := repeat (b! " a") n.

(** [ok(frame)]. *)
Definition parses_to (frame : bytes) (r : Response) : Prop := parse_response frame = Parsed [] r.

Definition capability_at_item_budget_parses : Prop :=
  ∃ caps, parses_to (b! "* CAPABILITY" ++ atoms MAX ++ [CR; LF]) (Resp_Data (DR_Capability caps))
    ∧ length caps = MAX.

Definition capability_over_item_budget_is_rejected : Prop :=
  parse_response (b! "* CAPABILITY" ++ atoms (MAX + 1) ++ [CR; LF])
    = ParseErr (TooManyItems MAX_ITEMS_PER_RESPONSE).

Definition nested_lists_share_one_item_budget : Prop :=
  let half := (MAX / 2)%nat in
  let list := b! "(" ++ drop 1 (atoms half) ++ b! ")" in
  parse_response (b! "* 1 FETCH (FLAGS " ++ list ++ b! " FLAGS " ++ list ++ b! ")" ++ [CR; LF])
    = ParseErr (TooManyItems MAX_ITEMS_PER_RESPONSE).

Definition search_ids_are_not_charged_against_item_budget : Prop :=
  ∃ found, parses_to (b! "* SEARCH" ++ repeat (b! " 1") (MAX + 1) ++ [CR; LF]) (Resp_Data (DR_Search found))
    ∧ length found = (MAX + 1)%nat.

Lemma repeat_S s n : repeat s (S n) = s ++ repeat s n.
Proof. done. Qed.

Lemma length_repeat s n : length (repeat s n) = (n * length s)%nat.
Proof. induction n as [|n IH]; [done|]. rewrite repeat_S, length_app, IH. lia. Qed.

Lemma sp_list_repeat {T} (item : T → bytes → Prop) x w n :
  item x w → grammar.sp_list item (replicate n x) (repeat (SP :: w) n).
Proof.
  intros Hx. induction n as [|n IH]; [constructor|]. rewrite repeat_S. cbn [replicate app]. by constructor.
Qed.

Lemma separated_repeat {T} (item : T → bytes → Prop) x w n :
  item x w → grammar.separated item (replicate (S n) x) (w ++ repeat (SP :: w) n).
Proof.
  intros Hx. induction n as [|n IH].
  - rewrite app_nil_r. by constructor.
  - rewrite repeat_S. change (replicate (S (S n)) x) with (x :: replicate (S n) x). by constructor.
Qed.

Lemma atom_a : grammar.atom (b! "a") (b! "a").
Proof. split; [done|]. split_and!; [done|by repeat constructor|done]. Qed.

Lemma flag_a : grammar.flag (b! "a") (b! "a").
Proof. split; [done|]. split; [done|]. left. by destruct atom_a. Qed.

Lemma number_1 : grammar.number 1 (b! "1").
Proof. split_and!; [done|by repeat constructor|done|done]. Qed.

(** Lengths of lines, of literals and repetitions. *)
Ltac lengths :=
  repeat (progress (rewrite ?length_app, ?length_drop, ?length_repeat, ?length_replicate; cbn [length]));
  repeat match goal with
  | |- context [length (String.list_byte_of_string ?s)] =>
    let n := eval vm_compute in (length (String.list_byte_of_string s)) in
    change (length (String.list_byte_of_string s)) with n
  end; lia.

(** A line of the grammar is read, or refused by the budget. *)
Lemma data_line d w :
  grammar.data d w → Z.of_nat (length w) <= 2 ^ 20 →
  parse_response (b! "* " ++ w ++ [CR; LF]) =
    if Z.of_nat (data_items d) <=? MAX_ITEMS_PER_RESPONSE then Parsed [] (Resp_Data d)
    else ParseErr (TooManyItems MAX_ITEMS_PER_RESPONSE).
Proof.
  intros Hd Hl.
  assert (Hw : grammar.response (Resp_Data d) (b! "* " ++ w ++ [CR; LF])).
  { exists (b! "* " ++ w). split; [by constructor|]. by rewrite app_assoc. }
  assert (Hu : Z.of_nat (length ((b! "* " ++ w ++ [CR; LF]) ++ [])) <= usize_max).
  { rewrite app_nil_r. unfold usize_max. lengths. }
  rewrite <- (app_nil_r (_ ++ w ++ _)). destruct (Z.leb_spec (Z.of_nat (data_items d)) MAX_ITEMS_PER_RESPONSE).
  - by apply grammar_complete.
  - by apply (grammar_over_budget (Resp_Data d)).
Qed.

Lemma capability_line n :
  Z.of_nat n <= 2 ^ 18 →
  parse_response (b! "* CAPABILITY" ++ atoms n ++ [CR; LF]) =
    if Z.of_nat n <=? MAX_ITEMS_PER_RESPONSE then Parsed [] (Resp_Data (DR_Capability (replicate n (b! "a"))))
    else ParseErr (TooManyItems MAX_ITEMS_PER_RESPONSE).
Proof.
  intros Hn. rewrite <- (length_replicate n (b! "a")) at 2.
  apply (data_line (DR_Capability _) (b! "CAPABILITY" ++ atoms n)).
  - constructor; [apply keyword_refl|apply sp_list_repeat, atom_a].
  - unfold atoms. lengths.
Qed.

Lemma search_line n :
  Z.of_nat n <= 2 ^ 18 →
  parses_to (b! "* SEARCH" ++ repeat (b! " 1") n ++ [CR; LF]) (Resp_Data (DR_Search (replicate n 1))).
Proof.
  intros Hn. apply (data_line (DR_Search _) (b! "SEARCH" ++ repeat (b! " 1") n)).
  - constructor; [apply keyword_refl|]. apply (sp_list_repeat _ _ (b! "1")), number_1.
  - lengths.
Qed.

(** A FETCH of two flag lists of [S n] flags each. *)
Lemma flag_lists_line n :
  let list := b! "(" ++ drop 1 (atoms (S n)) ++ b! ")" in
  Z.of_nat n <= 2 ^ 17 → MAX_ITEMS_PER_RESPONSE < 2 * Z.of_nat n + 4 →
  parse_response (b! "* 1 FETCH (FLAGS " ++ list ++ b! " FLAGS " ++ list ++ b! ")" ++ [CR; LF])
    = ParseErr (TooManyItems MAX_ITEMS_PER_RESPONSE).
Proof.
  intros list Hn Hmax. set (flags := FA_Flags (replicate (S n) (b! "a"))).
  set (attr := b! "FLAGS" ++ SP :: list).
  assert (Hattr : grammar.attribute flags attr).
  { constructor; [apply keyword_refl|]. constructor. apply (separated_repeat _ _ (b! "a")), flag_a. }
  assert (Hd : data_items (DR_Fetch 1 [flags; flags]) = (2 * n + 4)%nat).
  { unfold data_items, flags, attr_items. cbn -[replicate length]. rewrite length_replicate. cbn [length]. lia. }
  assert (Hpl : grammar.paren_list grammar.attribute [flags; flags] (b! "(" ++ (attr ++ SP :: attr) ++ b! ")"))
    by (constructor; constructor; [done|by constructor]).
  pose proof (data_line _ _ (grammar.data_fetch _ _ (b! "FETCH") _ _ number_1 (keyword_refl _) Hpl)) as H.
  rewrite Hd, (proj2 (Z.leb_gt _ _)) in H by lia. rewrite <- H.
  - unfold attr. generalize list. intros l. by do 3 (cbn; rewrite <- ?app_assoc).
  - unfold attr, list, atoms. lengths.
Qed.

(** The model passes them. *)
Lemma budget_tests_pass :
  capability_at_item_budget_parses ∧ capability_over_item_budget_is_rejected
  ∧ nested_lists_share_one_item_budget ∧ search_ids_are_not_charged_against_item_budget.
Proof.
  assert (Hmax : Z.of_nat MAX = MAX_ITEMS_PER_RESPONSE) by (rewrite Z2Nat.id; done).
  assert (Hval : MAX_ITEMS_PER_RESPONSE = 2 ^ 16) by done.
  unfold capability_at_item_budget_parses, capability_over_item_budget_is_rejected,
    nested_lists_share_one_item_budget, search_ids_are_not_charged_against_item_budget.
  generalize dependent MAX. intros n Hn. split_and!.
  - exists (replicate n (b! "a")). split; [|apply length_replicate]. unfold parses_to.
    rewrite capability_line by lia. by rewrite (proj2 (Z.leb_le _ _)) by lia.
  - rewrite capability_line by lia. by rewrite (proj2 (Z.leb_gt _ _)) by lia.
  - pose proof (Nat.div_mod_eq n 2). pose proof (Nat.mod_upper_bound n 2 ltac:(lia)).
    destruct (n / 2)%nat as [|h]; [lia|]. apply flag_lists_line; lia.
  - exists (replicate (n + 1) 1). split; [apply search_line; lia|apply length_replicate].
Qed.

(* ------------------------------------------------------------------ *)
(** ** The cleartext buffer                                             *)
(* ------------------------------------------------------------------ *)

(** A server that never ends its greeting: it has written [k] blocks before the
    client hangs up. *)
Definition read_one_frame_unterminated_greeting_fails_at_cap : Prop :=
  ∀ k, (8 ≤ k < 1000)%nat →
    ∃ c, read_one_frame (server_says (b! "* OK " :: replicate k (replicate (8 * 1024) "a"%byte)))
           = Done (inr (CE_FrameTooLarge MAX_PRE_TLS_FRAME)) c
      ∧ Z.of_nat (length (cn_buf c)) <= MAX_PRE_TLS_FRAME.

Definition read_one_frame_frame_at_cap_is_accepted : Prop :=
  let frame := b! "* OK " ++ replicate (Z.to_nat MAX_PRE_TLS_FRAME - 2 - 5) "a"%byte ++ [CR; LF] in
  ∃ got c, read_one_frame (server_says [frame]) = Done (inl got) c
    ∧ Z.of_nat (length got) = MAX_PRE_TLS_FRAME.

Definition greeting (n : nat) : bytes := b! "* OK " ++ replicate n "a"%byte ++ [CR; LF].

Lemma greeting_frame n : Z.of_nat n <= 2 ^ 32 → is_frame (greeting n).
Proof.
  intros Hn. set (t := replicate n "a"%byte).
  exists (Resp_Status (mkStatusResponse None Status_Ok None t)).
  rewrite <- (app_nil_r (greeting n)). apply grammar_complete.
  - exists (b! "* " ++ b! "OK" ++ SP :: t). split; [|unfold greeting; by cbn; rewrite <- ?app_assoc].
    constructor; [apply keyword_refl|]. constructor. constructor.
    + split; [done|]. assert (Forall (λ c, c = "a"%byte) t) by (by apply Forall_replicate).
      split; [by eapply Forall_impl; [done|]; intros ? ->|].
      apply utf8_valid_ascii. eapply Forall_impl; [done|]. by intros ? ->.
    + by destruct n.
  - done.
  - unfold usize_max, greeting. rewrite app_nil_r. lengths.
Qed.

(** Part of a greeting. *)
Lemma greeting_part n b r :
  Z.of_nat n <= 2 ^ 32 → b ++ r = b! "* OK " ++ replicate n "a"%byte → parse_response b = ParseErr Incomplete.
Proof.
  intros Hn Hb. apply (frame_prefix (greeting n) b (r ++ [CR; LF])).
  - by apply greeting_frame.
  - unfold greeting. by rewrite !app_assoc, Hb.
  - by destruct r.
Qed.

Lemma unterminated_greeting_fails : read_one_frame_unterminated_greeting_fails_at_cap.
Proof.
  intros k Hk. set (block := replicate (8 * 1024) "a"%byte). set (c := server_says _).
  assert (Hu : unread c = b! "* OK " ++ replicate (k * (8 * 1024)) "a"%byte).
  { unfold unread, c, server_says, incoming. cbn [cn_buf cn_in app]. rewrite fmap_cons, bind_cons. f_equal.
    unfold block. clear. generalize (8 * 1024)%nat. intros n.
    induction k as [|k IH]; [done|]. cbn [replicate fmap list_fmap]. rewrite bind_cons, IH. by rewrite <- replicate_add. }
  assert (Hpart : ∀ b r, b ++ r = unread c → parse_response b = ParseErr Incomplete).
  { intros b r Hb. rewrite Hu in Hb. eapply (greeting_part _ b r); [|exact Hb]. lia. }
  assert (Hin : ∀ r, r ∈ cn_in c → ∃ bs, r = Rd_Bytes bs ∧ bs ≠ []).
  { intros r. unfold c, server_says. cbn [cn_in]. rewrite list_elem_of_fmap. intros (bs & -> & Hbs).
    exists bs. split; [done|]. apply elem_of_cons in Hbs as [->|[-> _]%elem_of_replicate]; done. }
  pose proof (read_one_frame_spec c ltac:(done)) as Hr.
  destruct (read_one_frame c) as [[f|e] c'| |]; cbn [frame_read] in Hr; try done.
  - destruct Hr as (_ & _ & [r Hf] & Hf'). by rewrite (Hpart f (unread c')) in Hf.
  - destruct Hr as (Hb & _ & Hu' & Hfail). exists c'. split; [|done]. do 2 f_equal.
    specialize (Hpart (cn_buf c') (incoming (cn_in c')) Hu').
    destruct e; cbn in Hfail; try done.
    + destruct Hfail as [H _]. apply Hin in H as (bs & ? & _). done.
    + destruct Hfail as [H _]. apply Hin in H as (bs & [= <-] & ?). done.
    + by destruct Hfail as [-> _].
    + destruct Hfail as [_ (e & He & ?)]. congruence.
    + destruct Hfail as [[H|H] _]; [by apply Hin in H as (bs & ? & _)|]. exfalso.
      unfold unread in Hu'. rewrite H in Hu'. cbn [incoming mbind list_bind] in Hu'. rewrite app_nil_r in Hu'.
      unfold in_bounds in Hb. rewrite Hu' in Hb. unfold unread in Hu. rewrite Hu in Hb.
      unfold MAX_PRE_TLS_FRAME in Hb. rewrite length_app, length_replicate in Hb.
      change (length (b! "* OK ")) with 5%nat in Hb. lia.
Qed.

Lemma frame_at_cap_accepted : read_one_frame_frame_at_cap_is_accepted.
Proof.
  unfold read_one_frame_frame_at_cap_is_accepted. set (n := (_ - 2 - 5)%nat).
  assert (Hn : Z.of_nat n = 65529) by (unfold n, MAX_PRE_TLS_FRAME; lia). clearbody n.
  change (b! "* OK " ++ _) with (greeting n). set (c := server_says _).
  assert (Hu : unread c = greeting n) by (unfold unread, c, server_says, incoming; cbn; by rewrite app_nil_r).
  assert (Hl : Z.of_nat (length (greeting n)) = MAX_PRE_TLS_FRAME).
  { unfold greeting, MAX_PRE_TLS_FRAME. lengths. }
  pose proof (greeting_frame n ltac:(lia)) as Hfr.
  pose proof (read_one_frame_spec c ltac:(done)) as Hr.
  destruct (read_one_frame c) as [[f|e] c'| |]; cbn [frame_read] in Hr; try done.
  - destruct Hr as (_ & _ & [r Hf] & Hf'). exists f, c'. split; [done|]. rewrite Hu in Hf'.
    destruct (unread c') as [|x q]; [by rewrite app_nil_r in Hf'; subst f|].
    by rewrite (frame_prefix _ _ (x :: q) Hfr Hf') in Hf.
  - destruct Hr as (_ & _ & Hu' & Hfail). exfalso. rewrite Hu in Hu'.
    destruct (read_failed_frame c c' e (greeting n) [] Hfail) as [->|[->|[err ->]]]; cbn in Hfail;
      [by rewrite app_nil_r|done|lia|..].
    + destruct Hfail as [H _]. apply list_elem_of_singleton in H. injection H as H.
      by apply frame_ne in Hfr.
    + destruct Hfail as [[H|H] Hun]; [by apply list_elem_of_singleton in H|].
      unfold unread in Hu'. rewrite H in Hu'. cbn [incoming mbind list_bind] in Hu'. rewrite app_nil_r in Hu'.
      rewrite Hu' in Hun. destruct Hun as [Hun|Hun]; [by apply frame_ne in Hfr|].
      destruct Hfr as [r Hp]. congruence.
    + destruct Hfail as [H _]. by apply list_elem_of_singleton in H.
Qed.
